(* ===== verification/_CoqProject ===== *)
-Q . S2P
Prelude.v
GoStd.v
GoText.v
GoRune.v
GoEnv.v
Resp.v
Event.v
CStruct.v
Bpf.v
BpfSpec.v
BpfRefine.v
BpfBig.v
Bpfgen.v
BpfgenEb.v
Http.v
Streamer.v
StreamerOrder.v
Correlator.v
Pipeline.v
Stage.v
Recorder.v
Replay.v
Proxy.v
RunSession.v
Storage.v
Collector.v
Live.v
Launcher.v
Printer.v
Trace.v
Tui.v
TuiLoop.v
LiveTui.v
Cmd.v
Cli.v
EndToEnd.v
EndToEndTui.v
GoHttpApp.v
