(* ===== verification/Prelude.v ===== *)
(** * Wiremark: a verification development

    Wiremark traces a process's network system calls with eBPF, follows its
    connections, decodes their bytes as HTTP or Redis (RESP2), records one HTTP
    request with its Redis dependencies as a YAML test case, and replays the
    dependencies from a proxy.  This library models the BPF programs under
    src/bpf and the Go programs under src/cmd, src/internal and src/examples,
    definition by definition, and proves what makes its parts correct and what their
    composition does; where the code does something else than it means to, a
    theorem says exactly what.

    ** The program and the files

<<
    BPF    --records--> collector --events--> correlator --snapshots--> tui
                                    |  (pass-through)                    ^
                                    +-> streamer --events, exchanges-----+
                                           | exchanges
                                           +-> recorder --YAML--> replay proxy
>>

    - Prelude: this file.  Bytes, machine integers with their wrap-around,
      outcomes of Go calls (value, error, panic), interleavings, labelled step
      relations with invariants and termination measures, tactics.
    - GoStd, GoText, GoRune: the functions of Go's standard library the program
      calls, on byte sequences: strconv, strings, bufio readers and scanners,
      UTF-8, [%q].  What reads Unicode tables beyond ASCII is a class
      ([Unicode], [UnicodePrint]).  GoEnv: the environment [os/exec] gives a
      command and [os.Getenv] reads.
    - Resp: src/internal/decoder/resp.go.  The recursive parser on a reader, the
      encoders, [ParseRESPStream], [TryRESP].
    - Event: the record of src/internal/collector/collector.go, [decodeEvent],
      [Payload], [FormatIPv4Port]; the layout of src/bpf/types.h as its
      specification.
    - CStruct: src/bpf/types.h, the fields of [struct event] at the offsets C
      gives them, stores and loads in either byte order.  Bpf: the programs of
      src/bpf/syscall.bpf.c and tls.bpf.c on their maps and ring buffers; the
      kernel's helpers are a class ([UserMem]) and oracles of a call ([task]).
      BpfSpec: the events a sequence of calls is to be reported as.  BpfRefine:
      the programs' records against it; BpfBig: what a big-endian host writes.
    - Bpfgen: src/internal/bpfgen, the generated loaders: object names, loading,
      the order of closing, as the files for little-endian hosts have them;
      BpfgenEb: those for big-endian hosts.
    - Http: src/internal/decoder/http.go over net/http's parsers (class
      [NetHTTP]).
    - Streamer: src/internal/streamer/streamer.go as a fold over events with a
      map from connection keys to buffers; StreamerOrder: the order of events of
      different connections does not matter; Pipeline: the same goroutine as a
      sequence of channel operations, with the two bounded channels and the
      consumers src/cmd/wiremark/main.go attaches to them.
    - Stage: the goroutine of [correlator.Run] and of [streamer.Run] as one
      state machine that receives, passes through, sends and closes.  Live:
      [record] and [trace] built of it, with events arriving one by one and
      Ctrl-C at any time; what the collector is to them is an abstract source,
      which the goroutines of Collector implement ([Live.collector_source]).
    - Correlator: src/internal/correlator/correlator.go, a map from (pid, fd) to
      the tracked connection and the snapshots sent.
    - Recorder: src/internal/recorder/recorder.go; encoding/json is a class.
    - Replay: [reply] and [handleConn] of src/internal/replay/proxy.go on a
      connection's bytes; Proxy: [Serve], the handler goroutines, their clients
      and [Close] of the same file as interleaved steps; a handler returns only
      when its client has ended the connection.  RunSession: [runCmd] around the
      command it starts, with the proxy, its clients, the goroutine that forwards
      Ctrl-C, the terminal that sends it and whoever else connects, as
      interleaved steps.
    - Storage: src/internal/storage/storage.go over a map of files; yaml.v3 is a
      class.
    - Collector: the lifecycle of src/internal/collector: [New], [EnableTLS] and
      [Close] over an environment that says which calls fail, and which failing
      closes leave their resource open, with the live kernel resources; [readLoop] and [Run] as interleaved goroutines;
      [EventTime]; the /proc lookups of proc.go.
    - Launcher: src/internal/launcher: process list, menu model, [Update],
      [View], [Run]; the widgets are a class ([Widgets], [WidgetUpdate]) whose
      promises are another ([WidgetLaws]).
    - Printer: src/internal/printer; Tui: src/internal/tui, with lipgloss and
      the table widget as classes; TuiLoop: its program loop, in which every
      wait a command asks for is a goroutine blocked in a receive.  LiveTui:
      [trace] as one system of the collector's source, the two goroutines (Live)
      and that loop.
    - Trace: the composition from the system calls to the printed lines and to
      the recorded exchanges.
    - Cmd: the commands of src/cmd/wiremark/main.go, composed of the above; Cli:
      [main], the command table and the flags, with cobra's parser as a class
      ([FlagSet], [FlagSetLaws]).  EndToEnd: from the recorded process to its
      replay; EndToEndTui: from the traced process to the screen.
    - GoHttpApp: src/examples/go-http-app/main.go with what it uses of net/http
      (the multiplexer's paths, the response writer) and go-redis as a class
      ([GoRedis], [GoRedisLaws]); its replay under [run].

    State is explicit: maps are [gmap], a Go pointer that only one map entry
    holds is that entry's value, errors are [Err], run-time panics are [Panic].
    Goroutines are step functions on labels ([exec], [run_step]); [steps_by]
    makes them relations, and statements quantify over all interleavings.

    ** What is proved

    - Streams.  The parser terminates on every input, decodes the wire form of
      every well-formed value to that value, returns only well-formed values,
      and keeps the complete values of a truncated capture; commands are paired
      with replies by position; the encoders are inverse to the recorded
      renderings where that holds (Resp).  The record
      layout round-trips (Event).
    - Refinement.  The streamer's and the correlator's loops implement
      specifications that mention no map: a connection's session is the list of
      its events since its last close; a lifecycle is the events since its
      connect ([Streamer.Run_sessions], [Correlator.Run_lifecycles]).  A proxy
      connection implements [Replay.session].  The BPF programs submit, byte for
      byte, records that decode to the events the calls are specified to be
      reported as, pairing each return with its thread's last entry
      ([BpfRefine.programs_refine]); whatever happens in the kernel, every
      record is one of the traced process ([BpfRefine.records_sound]).
    - Independence.  The exchanges depend only on each connection's own events:
      not on how connections, threads or the two ring buffers interleave
      ([StreamerOrder.Run_interleaving], [Trace.exchanges_determined]).
    - Concurrency.  The collector never sends on a closed channel and delivers
      every record; [trace] delivers everything, while the process runs and
      after, through any of its bounded channels; [record] does so up to 64
      events and never ends beyond, whatever Ctrl-C ([Live.record_interrupted],
      [Live.trace_delivers_live]); the interface keeps exactly one receive per
      stream ([TuiLoop.streams_read_out]), and with it [trace] as a whole comes to
      rest showing what has been read ([LiveTui.trace_shows_live]).  Closing the
      proxy waits for the clients and for nothing else, except for a connection
      in the middle of being accepted ([Proxy.close_drains],
      [Proxy.close_misses_accepted]); [run] returns the command's result unless another process keeps a
      connection, and forwards one Ctrl-C, whatever the terminal sends the
      command itself ([RunSession.run_returns],
      [RunSession.run_held_up], [RunSession.ctrl_c_forwarded_once]).
    - Resources.  Every failure path of the collector but one closes what it
      acquired, and what a close can leave open is known exactly
      ([Collector.Close_releases_all]).
    - End to end.  From the system calls to the lines [trace --no-tui] prints
      (Trace) and to the tabs of its interface ([EndToEndTui.calls_to_tabs]), and
      through [record], Ctrl-C and the file to the replies of [run]
      ([EndToEnd.calls_to_replies]).  What [record] writes is what [run] replays
      ([Cmd.record_run_replays]), and from the captured bytes to the proxy's
      bytes a recorded command gets the rendering of its first recorded reply,
      which is that reply exactly for the kinds of reply [EncodeReply] is made
      for ([Replay.replay_first_recorded]); with such replies the example
      application answers every request under [run] as it did with the recorded
      Redis ([GoHttpApp.replayed_app]).
    - Interfaces.  The menu hands back only runnable command lines, which the
      program's own flag parser accepts; the live view shows the last rows of
      each stream whatever is visible, and colouring renders exactly the text of
      its column, in its colour ([Tui.colorizeColumn_text]); plain-text
      lines hold no control character (Launcher, Cli, Tui, Printer).
    - Defects.  [Live.record_interrupted], [Trace.big_endian_no_exchange],
      [RunSession.run_held_up], [RunSession.ctrl_c_twice],
      [BpfRefine.write_4GiB_unflagged], [BpfRefine.ssl_write_negative],
      [Collector.Close_leaks_after_error], [Recorder.recording_order_unspecified],
      [Resp.TryRESP_huge_length_panics], [Resp.EncodeReply_bulk_desync],
      [Replay.reply_quotes_unescaped], [Proxy.close_misses_accepted],
      [Collector.New_leaks_objects], [Collector.findMappedLibrary_splits_path],
      [Streamer.bufCap_drop_unflagged], [Http.TryHTTP_no_request],
      [Cmd.traceCmd_pid_wraps], [Pipeline.record_hangs].

    ** Bounds and fuel

    The parser's fuel is one more than the bytes left: each nested call reads at
    least one, so more fuel never changes the result ([Resp.parse_total]).
    [handle_loop]'s is the same, with two bytes per command.  [fmt_digits] gets
    [log2 n + 1] rounds, more than the digits of [n].  Everything else is
    structural; walks over UTF-8 carry the number of bytes of the current rune
    still to be passed.  Integers are [Z] with [wrapU]/[wrapS] where the code
    converts or may overflow; slice and allocation limits are those of a 64-bit
    platform.

    ** Not modelled

    The system call behind the final exec, which is the values handed to it; what
    the subprocess of [run] does besides starting, connecting and exiting; the
    example application's listener, and CONNECT requests to it; the terminal, and
    the styles of the interface (bold, colours of the table) beyond the coloured
    column; the object files the BPF compiler makes and their verification, so
    that the C source is what runs; src/internal/bpfgen/gen.go, which only holds
    the generator's command line.  Third-party code is never defined, only a parameter with the behaviour
    relied on as class laws or hypotheses.  Memory exhaustion below the
    address-space limit is not modelled.  The name [/proc] gives for a process
    is a fixed function of its id within one statement.  A BPF program runs to
    its end before the next one of its object, as the programs of one thread do;
    two threads share no key of a map, and their records' order in the ring
    buffer is the order of the calls in a statement.  In Pipeline the events
    that will be delivered are all available; Live has their arrival. *)

From stdpp Require Export base gmap list strings sorting relations.
From Stdlib Require Export ZArith Lia.
From Stdlib Require Import Strings.Byte.

(** ** Bytes and Go strings

    A Go [string] and a Go [\[\]byte] are both sequences of bytes; the model
    uses [list byte] for the two.  [str "..."] is a Go string literal. *)

Abbreviation byte := Byte.byte.
Abbreviation bytes := (list Byte.byte).

Definition str (s : string) : bytes := String.list_byte_of_string s.

#[global] Instance byte_eq_dec : EqDecision byte := Byte.byte_eq_dec.

#[global] Instance byte_countable : Countable byte.
Proof.
  refine (inj_countable Byte.to_N Byte.of_N _). apply Byte.of_to_N.
Defined.

#[global] Instance byte_inhabited : Inhabited byte := populate Byte.x00.

(** The numeric value of a byte, and Go's conversion [byte(x)] of an integer. *)
Definition bval (b : byte) : Z := Z.of_N (Byte.to_N b).
Definition byte_of (z : Z) : byte := default Byte.x00 (Byte.of_N (Z.to_N (z mod 256))).

Abbreviation CR := Byte.x0d.
Abbreviation LF := Byte.x0a.
Definition crlf : bytes := [CR; LF].

(** ** Machine integers: [w]-bit wrap-around written out *)

Definition wrapU (w z : Z) : Z := (z mod 2 ^ w)%Z.
Definition wrapS (w z : Z) : Z := ((z + 2 ^ (w - 1)) mod 2 ^ w - 2 ^ (w - 1))%Z.

Definition inU (w z : Z) : Prop := (0 <= z < 2 ^ w)%Z.
Definition inS (w z : Z) : Prop := (- 2 ^ (w - 1) <= z < 2 ^ (w - 1))%Z.

Abbreviation uint8 := (wrapU 8).
Abbreviation uint32 := (wrapU 32).
Abbreviation uint64 := (wrapU 64).
Abbreviation int32 := (wrapS 32).
Abbreviation int64 := (wrapS 64).

(** ** Outcomes of a Go call

    [Ok] is a normal return, [Err] a returned error value, [Panic] a run-time
    panic (which unwinds, and ends the process when nothing recovers it). *)

Inductive panic :=
| PanicMakeSlice       (* makeslice: len out of range *)
| PanicSliceBounds     (* slice bounds out of range *)
| PanicIndex           (* index out of range *)
| PanicClosedChan.     (* send on closed channel *)

Inductive outcome (E A : Type) :=
| Ok (a : A)
| Err (e : E)
| Panic (p : panic).
Arguments Ok {E A} a.
Arguments Err {E A} e.
Arguments Panic {E A} p.

#[global] Instance panic_eq_dec : EqDecision panic.
Proof. solve_decision. Defined.

#[global] Instance outcome_eq_dec {E A} `{EqDecision E, EqDecision A} :
  EqDecision (outcome E A).
Proof. solve_decision. Defined.

Definition obind {E A B} (m : outcome E A) (f : A -> outcome E B) : outcome E B :=
  match m with
  | Ok a => f a
  | Err e => Err e
  | Panic p => Panic p
  end.

Declare Scope go_scope.
Delimit Scope go_scope with go.
Notation "'let?' x ':=' m 'in' k" := (obind m (fun x => k))
  (at level 10, x pattern, m at level 100, k at level 200) : go_scope.

Lemma Ok_inj {E A} (a b : A) : Ok (E := E) a = Ok b -> a = b.
Proof. congruence. Qed.

(** A computation that cannot return an error, only a value or a panic. *)
Abbreviation safe A := (outcome Empty_set A).

(** ** Lemmas on bytes and machine integers *)

Lemma bval_range b : (0 <= bval b < 256)%Z.
Proof. unfold bval. pose proof (Byte.to_N_bounded b). lia. Qed.

Lemma byte_of_bval b : byte_of (bval b) = b.
Proof.
  unfold byte_of. rewrite Z.mod_small by apply bval_range.
  unfold bval. rewrite N2Z.id, Byte.of_to_N. done.
Qed.

Lemma bval_byte_of z : bval (byte_of z) = (z mod 256)%Z.
Proof.
  unfold byte_of, bval.
  pose proof (Z.mod_pos_bound z 256 ltac:(lia)) as Hb.
  destruct (Byte.of_N (Z.to_N (z mod 256))) as [b|] eqn:E; simpl.
  - apply Byte.to_of_N in E. rewrite E. lia.
  - apply Byte.of_N_None_iff in E. lia.
Qed.

#[global] Instance bval_inj : Inj (=) (=) bval.
Proof. intros a b H. rewrite <-(byte_of_bval a), H. apply byte_of_bval. Qed.

Lemma wrapU_id w z : inU w z -> wrapU w z = z.
Proof. unfold inU, wrapU. intros. apply Z.mod_small. lia. Qed.

Lemma wrapU_range w z : (0 <= w)%Z -> inU w (wrapU w z).
Proof. intros. unfold inU, wrapU. apply Z.mod_pos_bound. lia. Qed.

Lemma wrapU_idem w z : (0 <= w)%Z -> wrapU w (wrapU w z) = wrapU w z.
Proof. intros. by apply wrapU_id, wrapU_range. Qed.

Lemma pow2_split w : (0 < w)%Z -> (2 ^ w = 2 * 2 ^ (w - 1))%Z.
Proof. intros. rewrite <-Z.pow_succ_r by lia. f_equal. lia. Qed.

Lemma wrapS_id w z : (0 < w)%Z -> inS w z -> wrapS w z = z.
Proof.
  unfold inS, wrapS. intros Hw ?. pose proof (pow2_split w Hw).
  rewrite Z.mod_small; lia.
Qed.

Lemma wrapS_range w z : (0 < w)%Z -> inS w (wrapS w z).
Proof.
  unfold inS, wrapS. intros Hw. pose proof (pow2_split w Hw).
  pose proof (Z.mod_pos_bound (z + 2 ^ (w - 1)) (2 ^ w) ltac:(lia)). lia.
Qed.

(** Converting a signed value to unsigned of the same width and back is the
    identity: [int32(uint32(fd)) = fd]. *)
Lemma wrapS_wrapU w z : (0 < w)%Z -> inS w z -> wrapS w (wrapU w z) = z.
Proof.
  intros Hw Hz. rewrite <-(wrapS_id w z Hw Hz) at 2.
  unfold wrapS, wrapU. f_equal.
  rewrite (Z.add_mod_idemp_l z) by lia. done.
Qed.

Lemma wrapS_mod w z : (0 < w)%Z -> (wrapS w z mod 2 ^ w = z mod 2 ^ w)%Z.
Proof.
  intros. unfold wrapS. rewrite Zminus_mod_idemp_l. f_equal. lia.
Qed.

(** Signed subtraction may wrap its operands first. *)
Lemma wrapS_sub w a b : (0 < w)%Z -> wrapS w (wrapS w a - wrapS w b) = wrapS w (a - b).
Proof.
  intros. unfold wrapS at 1 4. f_equal.
  rewrite <-(Z.add_mod_idemp_l (_ - _)), (Zminus_mod (wrapS w a)), !wrapS_mod, <-Zminus_mod by lia.
  by rewrite Z.add_mod_idemp_l by lia.
Qed.

(** ** Generic lists *)

Lemma prefix_app_or {A} (l k1 k2 : list A) :
  l `prefix_of` k1 ++ k2 ->
  l `prefix_of` k1 \/ exists l', l = k1 ++ l' /\ l' `prefix_of` k2.
Proof.
  revert k1. induction l as [|x l IH]; intros [|y k1] H; simpl in *.
  - left. apply prefix_nil.
  - left. apply prefix_nil.
  - right. by exists (x :: l).
  - destruct H as [k Hk]. injection Hk as -> Hk.
    destruct (IH k1) as [H|(l' & -> & H)].
    + by exists k.
    + left. by apply prefix_cons.
    + right. by exists l'.
Qed.

Lemma take_prefix_take {A} n m (l : list A) : n <= m -> take n l `prefix_of` take m l.
Proof.
  intros H. replace (take n l) with (take n (take m l)).
  - exists (drop n (take m l)). by rewrite take_drop.
  - by rewrite take_take, Nat.min_l.
Qed.

(** ** Interleavings *)

(** [l] has the elements of [l1] and of [l2], each in its order. *)
Inductive merged {A} : list A -> list A -> list A -> Prop :=
| merged_nil : merged [] [] []
| merged_l x l1 l2 l : merged l1 l2 l -> merged (x :: l1) l2 (x :: l)
| merged_r x l1 l2 l : merged l1 l2 l -> merged l1 (x :: l2) (x :: l).

Lemma merged_map {A B} (f : A -> B) l1 l2 l : merged l1 l2 l -> merged (map f l1) (map f l2) (map f l).
Proof. induction 1; by constructor. Qed.

Lemma merged_Forall {A} (P : A -> Prop) l1 l2 l : merged l1 l2 l -> Forall P l1 -> Forall P l2 -> Forall P l.
Proof. induction 1; intros H1 H2; [constructor|inversion H1|inversion H2]; constructor; auto. Qed.

Lemma merged_length {A} (l1 l2 l : list A) : merged l1 l2 l -> length l = length l1 + length l2.
Proof. induction 1; simpl; lia. Qed.

Lemma merged_app {A} (l1 l2 : list A) : merged l1 l2 (l1 ++ l2).
Proof. induction l1 as [|x l1 IH]; simpl; [induction l2|]; by constructor. Qed.

Lemma merged_extend {A} (l1 l2 l k1 k2 : list A) :
  merged l1 l2 l -> merged (l1 ++ k1) (l2 ++ k2) (l ++ k1 ++ k2).
Proof. induction 1; simpl; [apply merged_app|by constructor..]. Qed.

(** What is in one of the two only keeps its order. *)
Lemma merged_filter_l {A} (f : A -> bool) l1 l2 l :
  merged l1 l2 l -> Forall (fun x => f x = false) l2 -> List.filter f l = List.filter f l1.
Proof.
  induction 1 as [|x l1 l2 l _ IH|x l1 l2 l _ IH]; intros Hf; simpl; [done|by rewrite IH|].
  inversion Hf as [|? ? Hx]; subst. by rewrite Hx, IH.
Qed.

Lemma merged_filter_r {A} (f : A -> bool) l1 l2 l :
  merged l1 l2 l -> Forall (fun x => f x = false) l1 -> List.filter f l = List.filter f l2.
Proof.
  induction 1 as [|x l1 l2 l _ IH|x l1 l2 l _ IH]; intros Hf; simpl; [done| |by rewrite IH].
  inversion Hf as [|? ? Hx]; subst. by rewrite Hx, IH.
Qed.

(** ** Step relations

    Concurrent parts are step functions on labels, [None] when the label's step
    is not enabled; [steps_by] is the relation of all of them. *)

Definition steps_by {L S} (exec : L -> S -> option S) (s s' : S) : Prop :=
  exists l, exec l s = Some s'.

Fixpoint run_labels {L S} (exec : L -> S -> option S) (ls : list L) (s : S) : option S :=
  match ls with
  | [] => Some s
  | l :: ls => exec l s ≫= run_labels exec ls
  end.

Lemma run_labels_rtc {L S} (exec : L -> S -> option S) ls s s' :
  run_labels exec ls s = Some s' -> rtc (steps_by exec) s s'.
Proof.
  revert s. induction ls as [|l ls IH]; intros s; simpl; [by intros [= ->]|].
  destruct (exec l s) as [s1|] eqn:E; simpl; [|done]. intros Hr.
  eapply rtc_l; [by exists l|by apply IH].
Qed.

(** A schedule of attempts, those that are not enabled skipped. *)
Definition run_any {L S} (exec : L -> S -> option S) (ls : list L) (s : S) : S :=
  fold_left (fun s l => default s (exec l s)) ls s.

Lemma run_any_rtc {L S} (exec : L -> S -> option S) ls s : rtc (steps_by exec) s (run_any exec ls s).
Proof.
  revert s. induction ls as [|l ls IH]; intros s; [done|]. simpl.
  destruct (exec l s) as [s'|] eqn:E; simpl; [|apply IH]. eapply rtc_l; [by exists l|apply IH].
Qed.

Lemma rtc_invariant {A} (R : relation A) (P : A -> Prop) x y :
  (forall x y, P x -> R x y -> P y) -> rtc R x y -> P x -> P y.
Proof. intros HR. induction 1; eauto. Qed.

(** A measure that decreases on the invariant's states bounds every run. *)
Lemma measure_sn {A} (R : relation A) (P : A -> Prop) (m : A -> nat) x :
  (forall x y, P x -> R x y -> P y /\ (m y < m x)%nat) -> P x -> sn R x.
Proof.
  intros HR. remember (m x) as n eqn:Hn. revert x Hn.
  induction (lt_wf n) as [n _ IH]. intros x -> Hx. constructor. intros y Hy.
  destruct (HR x y Hx Hy) as [? ?]. by eapply IH.
Qed.

(** Lexicographic order on measures of the same length. *)
Fixpoint lex_lt (xs ys : list nat) : Prop :=
  match xs, ys with
  | x :: xs, y :: ys => (x < y /\ length xs = length ys) \/ (x = y /\ lex_lt xs ys)
  | _, _ => False
  end.

Lemma lex_lt_length xs ys : lex_lt xs ys -> length xs = length ys.
Proof.
  revert ys. induction xs as [|x xs IH]; intros [|y ys]; simpl; try done.
  intros [[_ ->]|[_ H%IH]]; congruence.
Qed.

Lemma lex_lt_app_l xs ys x y : lex_lt xs ys -> lex_lt (xs ++ [x]) (ys ++ [y]).
Proof.
  revert ys. induction xs as [|x' xs IH]; intros [|y' ys]; simpl; try done.
  intros [[? Hl]|[? ?]]; [left; split; [done|]; rewrite !length_app; simpl; lia|right; auto].
Qed.

Lemma lex_lt_app_r xs x y : x < y -> lex_lt (xs ++ [x]) (xs ++ [y]).
Proof. intros. induction xs as [|x' xs IH]; simpl; [by left|by right]. Qed.

Lemma lex_lt_wf : well_founded lex_lt.
Proof.
  assert (forall n xs, length xs = n -> Acc lex_lt xs) as Hn; [|by intros xs; eapply Hn].
  induction n as [|n IH]; intros xs Hxs.
  { destruct xs; [|done]. constructor. by intros []. }
  destruct xs as [|x xs]; [done|]. injection Hxs as Hxs. revert xs Hxs.
  induction (lt_wf x) as [x _ IHx]. intros xs Hxs. induction (IH xs Hxs) as [xs _ IHxs].
  constructor. intros [|y ys] Hl; [done|]. destruct Hl as [[Hy Hlen]|[-> Hl]].
  - apply IHx; [done|congruence].
  - apply IHxs; [done|]. rewrite <-Hxs. by apply lex_lt_length.
Qed.

(** A measure that decreases lexicographically. *)
Lemma lex_sn {A} (R : relation A) (P : A -> Prop) (m : A -> list nat) x :
  (forall x y, P x -> R x y -> P y /\ lex_lt (m y) (m x)) -> P x -> sn R x.
Proof.
  intros HR. remember (m x) as n eqn:Hn. revert x Hn.
  induction (lex_lt_wf n) as [n _ IH]. intros x -> Hx. constructor. intros y Hy.
  destruct (HR x y Hx Hy) as [? ?]. by eapply IH.
Qed.

(** ** The development's tactics and hint databases *)

Create HintDb go discriminated.
Create Rewrite HintDb go.
#[export] Hint Resolve bval_range wrapU_range : go.
#[export] Hint Rewrite byte_of_bval bval_byte_of : go.

(** Case analysis on the boolean tests and matches of a handler's code, as far
    as they go, closing the branches whose conditions contradict each other. *)
Ltac cases :=
  repeat (case_match; simplify_eq/=).

(** Evaluate a closed instance. *)
Ltac run := vm_compute; reflexivity.
