(* ===== verification/GoStd.v ===== *)
(** * The parts of Go's standard library the program uses

    [strconv] (Itoa, Atoi), [strings] (HasPrefix, TrimPrefix, TrimRight, Join,
    ToLower, ToUpper) and the two reads of [bufio]/[io] that the RESP parser
    makes, each on byte sequences, with the lemmas the components share.
    What depends on Unicode tables is a parameter (class [Unicode]). *)

From S2P Require Import Prelude.
Local Open Scope Z_scope.

(** ** strconv *)

Definition digit (d : Z) : byte := byte_of (48 + d).

(** Decimal digits of [n >= 0], most significant first, in front of [acc].
    Each round consumes one digit; [fuel] bounds the number of digits. *)
Fixpoint fmt_digits (fuel : nat) (n : Z) (acc : bytes) : bytes :=
  match fuel with
  | O => acc
  | S fuel =>
      if n <? 10 then digit n :: acc
      else fmt_digits fuel (n / 10) (digit (n mod 10) :: acc)
  end.

(** [FormatUint(n, 10)]: [log2 n + 1] rounds are enough for every [n]. *)
Definition fmt_nat (n : Z) : bytes := fmt_digits (S (Z.to_nat (Z.log2 n))) n [].

(** [strconv.Itoa] and [fmt.Sprintf("%d", n)]. *)
Definition Itoa (n : Z) : bytes :=
  if n <? 0 then Byte.x2d :: fmt_nat (- n) else fmt_nat n.

Definition is_digit (c : byte) : bool := (48 <=? bval c) && (bval c <=? 57).

(** The value of a non-empty run of decimal digits. *)
Fixpoint dec_val (acc : Z) (s : bytes) : option Z :=
  match s with
  | [] => Some acc
  | c :: s => if is_digit c then dec_val (acc * 10 + (bval c - 48)) s else None
  end.

(** [strconv.Atoi] on a 64-bit platform: optional sign, decimal digits, and
    the int64 range check.  [None] stands for the [*NumError] (syntax or
    range: no caller distinguishes them). *)
Definition Atoi (s : bytes) : option Z :=
  let neg := match s with c :: _ => bool_decide (c = Byte.x2d) | [] => false end in
  let ds := match s with
            | c :: s' => if bool_decide (c = Byte.x2d \/ c = Byte.x2b) then s' else s
            | [] => s
            end in
  match ds with
  | [] => None
  | _ =>
      match dec_val 0 ds with
      | None => None
      | Some un =>
          if neg then if un <=? 2 ^ 63 then Some (- un) else None
          else if un <? 2 ^ 63 then Some un else None
      end
  end.

(** ** strings *)

Definition HasPrefix (s prefix : bytes) : bool :=
  bool_decide (take (length prefix) s = prefix).

Definition TrimPrefix (s prefix : bytes) : bytes :=
  if HasPrefix s prefix then drop (length prefix) s else s.

Fixpoint TrimLeft (s : bytes) (cutset : list byte) : bytes :=
  match s with
  | [] => []
  | c :: s' => if bool_decide (c ∈ cutset) then TrimLeft s' cutset else s
  end.

(** [strings.TrimRight] with an ASCII cutset. *)
Definition TrimRight (s : bytes) (cutset : list byte) : bytes :=
  reverse (TrimLeft (reverse s) cutset).

Fixpoint Join (parts : list bytes) (sep : bytes) : bytes :=
  match parts with
  | [] => []
  | [p] => p
  | p :: parts => p ++ sep ++ Join parts sep
  end.

Definition is_ascii (s : bytes) : bool := forallb (fun c => bval c <? 128) s.

Definition lower_byte (c : byte) : byte :=
  if (65 <=? bval c) && (bval c <=? 90) then byte_of (bval c + 32) else c.
Definition upper_byte (c : byte) : byte :=
  if (97 <=? bval c) && (bval c <=? 122) then byte_of (bval c - 32) else c.

(** [strings.Map(unicode.ToLower, s)] and [strings.Map(unicode.ToUpper, s)]
    on a string with a non-ASCII byte: they read the Unicode case tables. *)
Class Unicode := {
  unicode_lower : bytes -> bytes;
  unicode_upper : bytes -> bytes;
}.

(** An instance that changes ASCII letters only, for concrete evaluations. *)
Definition ascii_only : Unicode :=
  {| unicode_lower := map lower_byte; unicode_upper := map upper_byte |}.

Definition ToLower `{Unicode} (s : bytes) : bytes :=
  if is_ascii s then map lower_byte s else unicode_lower s.
Definition ToUpper `{Unicode} (s : bytes) : bytes :=
  if is_ascii s then map upper_byte s else unicode_upper s.

(** ** io and bufio

    A [bufio.Reader] is the bytes the underlying reader will still deliver and
    the error it delivers after them ([io.EOF] for a [bytes.Reader] and for a
    connection whose peer closed cleanly). *)

Inductive ioerr := EOF | ErrUnexpectedEOF | ErrConn.

#[global] Instance ioerr_eq_dec : EqDecision ioerr.
Proof. solve_decision. Defined.

Record reader := mkReader { rdata : bytes; rfin : ioerr }.

Definition bytes_reader (buf : bytes) : reader := mkReader buf EOF.

(** Split at the first occurrence of [d], which ends the first part. *)
Fixpoint split_after (d : byte) (s : bytes) : option (bytes * bytes) :=
  match s with
  | [] => None
  | c :: s =>
      if decide (c = d) then Some ([c], s)
      else match split_after d s with
           | Some (l, r) => Some (c :: l, r)
           | None => None
           end
  end.

(** [r.ReadString(d)]: through the first [d]; without one everything is
    consumed and the reader's error returned (the partial string is dropped
    by the only caller). *)
Definition ReadString (d : byte) (r : reader) : outcome ioerr bytes * reader :=
  match split_after d (rdata r) with
  | Some (l, rest) => (Ok l, mkReader rest (rfin r))
  | None => (Err (rfin r), mkReader [] (rfin r))
  end.

(** [io.ReadFull(r, buf)] with [len(buf) = n], for [n > 0]. *)
Definition ReadFull (n : Z) (r : reader) : outcome ioerr bytes * reader :=
  if n <=? Z.of_nat (length (rdata r)) then
    (Ok (take (Z.to_nat n) (rdata r)), mkReader (drop (Z.to_nat n) (rdata r)) (rfin r))
  else
    (Err (if bool_decide (rdata r <> [] /\ rfin r = EOF) then ErrUnexpectedEOF else rfin r),
     mkReader [] (rfin r)).

(** ** Allocation

    [make(\[\]T, n)] panics when [n] is negative or [n * sizeof(T)] exceeds the
    heap address space, 2^48 bytes on linux/amd64 ([runtime.maxAlloc]).  A
    smaller request the machine cannot satisfy ends the process too; that
    bound depends on the machine and is not modelled. *)
Definition maxAlloc : Z := 2 ^ 48.
Definition makeslice_ok (elemsize n : Z) : bool := (0 <=? n) && (n * elemsize <=? maxAlloc).

(** ** Lemmas: decimal numbers *)

Lemma dec_val_digit a d s : 0 <= d < 10 -> dec_val a (digit d :: s) = dec_val (a * 10 + d) s.
Proof.
  intros Hd. simpl. unfold is_digit, digit. rewrite bval_byte_of, Z.mod_small by lia.
  rewrite !(proj2 (Z.leb_le _ _)) by lia. simpl. f_equal. lia.
Qed.

Lemma fmt_digits_val fuel n :
  0 <= n < 10 ^ Z.of_nat fuel ->
  exists k : nat, forall a s,
    dec_val a (fmt_digits fuel n s) = dec_val (a * 10 ^ Z.of_nat k + n) s.
Proof.
  revert n. induction fuel as [|fuel IH]; intros n Hn.
  - exists 0%nat. intros. simpl. f_equal. change (10 ^ Z.of_nat 0) with 1 in *. lia.
  - cbn [fmt_digits]. rewrite Nat2Z.inj_succ, Z.pow_succ_r in Hn by lia.
    destruct (Z.ltb_spec n 10).
    + exists 1%nat. intros. by rewrite dec_val_digit by lia.
    + destruct (IH (n / 10)) as [k Hk].
      { split; [apply Z.div_pos; lia|]. apply Z.div_lt_upper_bound; lia. }
      exists (S k). intros. rewrite Hk, dec_val_digit by (apply Z.mod_pos_bound; lia).
      f_equal. rewrite Nat2Z.inj_succ, Z.pow_succ_r by lia.
      pose proof (Z.div_mod n 10 ltac:(lia)). lia.
Qed.

Lemma log2_fuel n : 0 <= n -> n < 10 ^ Z.of_nat (S (Z.to_nat (Z.log2 n))).
Proof.
  intros Hn. rewrite Nat2Z.inj_succ, Z2Nat.id by apply Z.log2_nonneg.
  destruct (Z.eq_dec n 0) as [->|]; [done|].
  pose proof (Z.log2_spec n ltac:(lia)).
  apply Z.lt_le_trans with (2 ^ Z.succ (Z.log2 n)); [lia|].
  apply Z.pow_le_mono_l. lia.
Qed.

Lemma fmt_nat_val n : 0 <= n -> dec_val 0 (fmt_nat n) = Some n.
Proof.
  intros Hn. destruct (fmt_digits_val (S (Z.to_nat (Z.log2 n))) n) as [k Hk].
  { split; [done|by apply log2_fuel]. }
  unfold fmt_nat. by rewrite Hk.
Qed.

Lemma fmt_digits_forall fuel n s :
  0 <= n -> Forall is_digit s -> Forall is_digit (fmt_digits fuel n s).
Proof.
  revert n s. induction fuel as [|fuel IH]; intros n s Hn Hs; [done|].
  assert (forall d, 0 <= d < 10 -> is_digit (digit d)) as Hd.
  { intros d ?. unfold is_digit, digit. rewrite bval_byte_of, Z.mod_small by lia.
    rewrite !(proj2 (Z.leb_le _ _)) by lia. done. }
  cbn [fmt_digits]. destruct (Z.ltb_spec n 10).
  - constructor; [apply Hd; lia|done].
  - apply IH; [apply Z.div_pos; lia|]. constructor; [|done].
    apply Hd, Z.mod_pos_bound. lia.
Qed.

Lemma fmt_digits_length fuel n s : (fuel <> 0)%nat -> (length s < length (fmt_digits fuel n s))%nat.
Proof.
  revert n s. induction fuel as [|fuel IH]; intros n s Hf; [done|].
  cbn [fmt_digits]. destruct (n <? 10); simpl; [lia|].
  destruct fuel; [simpl; lia|].
  specialize (IH (n / 10) (digit (n mod 10) :: s) ltac:(lia)). simpl in *. lia.
Qed.

Lemma fmt_nat_digits n : 0 <= n -> Forall is_digit (fmt_nat n).
Proof. intros. by apply fmt_digits_forall. Qed.

Lemma fmt_nat_nonempty n : fmt_nat n <> [].
Proof.
  intros E. pose proof (fmt_digits_length (S (Z.to_nat (Z.log2 n))) n [] ltac:(lia)) as H.
  unfold fmt_nat in E. rewrite E in H. simpl in H. lia.
Qed.

Lemma digit_not_sign c : is_digit c -> c <> Byte.x2d /\ c <> Byte.x2b.
Proof. by intros H; split; intros ->. Qed.

(** [Atoi] reads back every int64 that [Itoa] prints. *)
Lemma Atoi_Itoa n : inS 64 n -> Atoi (Itoa n) = Some n.
Proof.
  unfold inS. intros Hn. change (64 - 1) with 63 in Hn. unfold Itoa.
  destruct (Z.ltb_spec n 0).
  - pose proof (fmt_nat_nonempty (- n)) as Hne. pose proof (fmt_nat_val (- n) ltac:(lia)) as Hv.
    unfold Atoi. rewrite (bool_decide_eq_true_2 (_ \/ _)) by auto.
    destruct (fmt_nat (- n)) as [|c s]; [done|]. rewrite Hv.
    rewrite bool_decide_eq_true_2 by done. rewrite (proj2 (Z.leb_le _ _)) by lia.
    f_equal. lia.
  - pose proof (fmt_nat_nonempty n) as Hne. pose proof (fmt_nat_val n ltac:(lia)) as Hv.
    pose proof (fmt_nat_digits n ltac:(lia)) as Hd.
    destruct (fmt_nat n) as [|c s]; [done|]. inversion_clear Hd as [|? ? Hc _].
    apply digit_not_sign in Hc as [H1 H2]. unfold Atoi.
    rewrite !bool_decide_eq_false_2 by tauto. rewrite Hv.
    by rewrite (proj2 (Z.ltb_lt _ _)) by lia.
Qed.

Lemma Itoa_nonneg_digits n : 0 <= n -> Forall is_digit (Itoa n).
Proof.
  intros. unfold Itoa. rewrite (proj2 (Z.ltb_ge _ _)) by lia. by apply fmt_nat_digits.
Qed.

(** Distinct non-negative numbers print differently. *)
Lemma Itoa_inj a b : 0 <= a -> 0 <= b -> Itoa a = Itoa b -> a = b.
Proof.
  intros Ha Hb. unfold Itoa. rewrite !(proj2 (Z.ltb_ge _ _)) by lia. intros E.
  pose proof (fmt_nat_val a Ha) as Hv. rewrite E, fmt_nat_val in Hv by done. by simplify_eq.
Qed.

(** ** Lemmas: splitting and trimming *)

Lemma split_after_Some d s l r :
  split_after d s = Some (l, r) <-> exists l', l = l' ++ [d] /\ s = l ++ r /\ d ∉ l'.
Proof.
  revert l. induction s as [|c s IH]; intros l; simpl.
  - split; [done|]. intros (l' & -> & H & _). by destruct l'.
  - destruct (decide (c = d)) as [->|Hcd].
    + split.
      * intros [= <- <-]. exists []. split_and!; [done..|]. apply not_elem_of_nil.
      * intros (l' & -> & H & Hn). destruct l' as [|c' l']; [by simplify_eq/=|].
        simplify_eq/=. apply not_elem_of_cons in Hn. naive_solver.
    + split.
      * destruct (split_after d s) as [[l1 r1]|]; [|done]. intros [= <- <-].
        destruct (proj1 (IH l1)) as (l' & -> & -> & Hn); [done|].
        exists (c :: l'). rewrite not_elem_of_cons. naive_solver.
      * intros (l' & -> & H & Hn). destruct l' as [|c' l']; [by simplify_eq/=|].
        simplify_eq/=. apply not_elem_of_cons in Hn as [_ Hn].
        by rewrite (proj2 (IH (l' ++ [d]))) by eauto.
Qed.

Lemma split_after_None d s : split_after d s = None <-> d ∉ s.
Proof.
  induction s as [|c s IH]; simpl.
  - split; [intros _; apply not_elem_of_nil|done].
  - rewrite not_elem_of_cons, <-IH.
    destruct (decide (c = d)) as [->|]; [naive_solver|].
    destruct (split_after d s) as [[]|]; naive_solver.
Qed.

Lemma split_after_app d l r : d ∉ l -> split_after d (l ++ d :: r) = Some (l ++ [d], r).
Proof.
  intros. apply split_after_Some. exists l. split_and!; [done| |done].
  by rewrite <-app_assoc.
Qed.

(** What was delivered before the end of the stream does not depend on it. *)
Lemma split_after_extend d s ext l r :
  split_after d s = Some (l, r) -> split_after d (s ++ ext) = Some (l, r ++ ext).
Proof.
  rewrite !split_after_Some. intros (l' & -> & -> & ?). exists l'.
  split_and!; [done| |done]. by rewrite <-!app_assoc.
Qed.

Lemma TrimLeft_all s t cut : Forall (fun c => c ∈ cut) t -> TrimLeft (t ++ s) cut = TrimLeft s cut.
Proof.
  induction 1 as [|c t Hc _ IH]; [done|]. simpl. by rewrite bool_decide_eq_true_2.
Qed.

Lemma TrimRight_app s t cut :
  Forall (fun c => c ∈ cut) t -> TrimRight (s ++ t) cut = TrimRight s cut.
Proof.
  intros Ht. unfold TrimRight. rewrite reverse_app, TrimLeft_all; [done|].
  by apply Forall_reverse.
Qed.

Lemma TrimRight_id s cut : (forall c, last s = Some c -> c ∉ cut) -> TrimRight s cut = s.
Proof.
  intros H. unfold TrimRight. destruct s as [|c s _] using rev_ind; [done|].
  rewrite reverse_snoc. simpl. rewrite bool_decide_eq_false_2.
  - by rewrite <-reverse_snoc, reverse_involutive.
  - apply H. apply last_snoc.
Qed.

(** [TrimRight] removes a suffix made of cutset bytes only, and all of it. *)
Lemma TrimRight_spec s cut :
  exists t, s = TrimRight s cut ++ t /\ Forall (fun c => c ∈ cut) t /\
            (forall c, last (TrimRight s cut) = Some c -> c ∉ cut).
Proof.
  induction s as [|c s IH] using rev_ind.
  - exists []. split_and!; [done..|]. by intros c [=].
  - destruct (decide (c ∈ cut)) as [Hc|Hc].
    + rewrite TrimRight_app by by constructor. destruct IH as (t & E & Ht & Hl).
      exists (t ++ [c]). split_and!; [|apply Forall_app; split; [done|by constructor]|done].
      rewrite E at 1. by rewrite <-!app_assoc.
    + rewrite TrimRight_id; [|intros c' E; rewrite last_snoc in E; by simplify_eq].
      exists []. rewrite app_nil_r. split_and!; [done..|].
      intros c' E. rewrite last_snoc in E. by simplify_eq.
Qed.

Lemma HasPrefix_spec s p : HasPrefix s p = true <-> exists t, s = p ++ t.
Proof.
  unfold HasPrefix. rewrite bool_decide_eq_true. split.
  - intros H. exists (drop (length p) s). rewrite <-H at 1. by rewrite take_drop.
  - intros [t ->]. apply take_app_length.
Qed.

Lemma HasPrefix_app p t : HasPrefix (p ++ t) p = true.
Proof. apply HasPrefix_spec. eauto. Qed.

Lemma TrimPrefix_app p t : TrimPrefix (p ++ t) p = t.
Proof. unfold TrimPrefix. by rewrite HasPrefix_app, drop_app_length. Qed.

#[export] Hint Rewrite HasPrefix_app TrimPrefix_app : go.

(** ** Lemmas: reads *)

(** A reader [r'] is a later state of [r]: some bytes were taken off. *)
Lemma ReadFull_app n l rest fin :
  Z.of_nat (length l) = n ->
  ReadFull n (mkReader (l ++ rest) fin) = (Ok l, mkReader rest fin).
Proof.
  intros <-. unfold ReadFull. simpl. rewrite length_app.
  rewrite (proj2 (Z.leb_le _ _)) by lia.
  by rewrite Nat2Z.id, take_app_length, drop_app_length.
Qed.

Lemma ReadFull_Ok n r l r' :
  ReadFull n r = (Ok l, r') -> 0 <= n ->
  rdata r = l ++ rdata r' /\ rfin r' = rfin r /\ Z.of_nat (length l) = n.
Proof.
  unfold ReadFull. intros H Hn. destruct (Z.leb_spec n (Z.of_nat (length (rdata r)))); [|done].
  simplify_eq/=. rewrite take_drop, length_take. split_and!; [done..|]. lia.
Qed.

Lemma ReadString_Ok d r l r' :
  ReadString d r = (Ok l, r') <->
  split_after d (rdata r) = Some (l, rdata r') /\ rfin r' = rfin r.
Proof.
  unfold ReadString. destruct r as [s f], r' as [s' f']; simpl.
  destruct (split_after d s) as [[l1 r1]|]; naive_solver.
Qed.
