(* ===== verification/GoText.v ===== *)
(** * Go text: white space, fields, lines, UTF-8

    [strings.TrimSpace], [Fields], [Contains]; [bufio.Scanner]'s lines;
    [strconv.ParseUint] and the order of strings; conversions between strings
    and rune slices. *)

From S2P Require Import Prelude GoStd.
From Stdlib Require Import Strings.Byte.
Local Open Scope Z_scope.

(** ** White space

    [space_len s] is the length of the white-space rune [s] starts with, 0 when
    it starts with none: the UTF-8 forms of the runes of [unicode.IsSpace].
    Their first bytes never occur inside another rune's encoding, so looking
    for them byte by byte finds what a walk over the runes finds. *)

Definition ascii_space (a : byte) : bool := bool_decide (a ∈ [x09; x0a; x0b; x0c; x0d; x20]).

Definition space2 (a b : byte) : bool :=
  bool_decide (a = xc2) && bool_decide (b ∈ [x85; xa0]).

Definition space3 (a b c : byte) : bool :=
  (bool_decide (a = xe1) && bool_decide (b = x9a) && bool_decide (c = x80)) ||
  (bool_decide (a = xe2) && bool_decide (b = x80) &&
     ((128 <=? bval c) && (bval c <=? 138) || bool_decide (c ∈ [xa8; xa9; xaf]))) ||
  (bool_decide (a = xe2) && bool_decide (b = x81) && bool_decide (c = x9f)) ||
  (bool_decide (a = xe3) && bool_decide (b = x80) && bool_decide (c = x80)).

Definition space_len (s : bytes) : nat :=
  match s with
  | a :: t =>
      if ascii_space a then 1%nat
      else match t with
           | b :: u =>
               if space2 a b then 2%nat
               else match u with
                    | c :: _ => if space3 a b c then 3%nat else 0%nat
                    | [] => 0%nat
                    end
           | [] => 0%nat
           end
  | [] => 0%nat
  end.

(** Walks over a string keep the number of bytes of the current white-space
    rune that are still to be passed. *)
Fixpoint only_spaces (skip : nat) (s : bytes) : bool :=
  match s with
  | [] => bool_decide (skip = 0%nat)
  | _ :: t =>
      match skip with
      | S k => only_spaces k t
      | O => match space_len s with O => false | S k => only_spaces k t end
      end
  end.

Fixpoint trim_left_space (skip : nat) (s : bytes) : bytes :=
  match s with
  | [] => []
  | _ :: t =>
      match skip with
      | S k => trim_left_space k t
      | O => match space_len s with O => s | S k => trim_left_space k t end
      end
  end.

Fixpoint trim_right_space (s : bytes) : bytes :=
  match s with
  | [] => []
  | c :: t => if only_spaces 0 s then [] else c :: trim_right_space t
  end.

(** [strings.TrimSpace] *)
Definition TrimSpace (s : bytes) : bytes := trim_right_space (trim_left_space 0 s).

Definition field_end (cur : bytes) : list bytes := if decide (cur = []) then [] else [cur].

Fixpoint fields_from (skip : nat) (cur s : bytes) : list bytes :=
  match s with
  | [] => field_end cur
  | c :: t =>
      match skip with
      | S k => fields_from k cur t
      | O => match space_len s with
             | O => fields_from 0 (cur ++ [c]) t
             | S k => field_end cur ++ fields_from k [] t
             end
      end
  end.

(** [strings.Fields] *)
Definition Fields (s : bytes) : list bytes := fields_from 0 [] s.

(** [strings.Contains] *)
Fixpoint Contains (s sub : bytes) : bool :=
  HasPrefix s sub || match s with [] => false | _ :: t => Contains t sub end.

(** ** Lines

    The tokens of a [bufio.Scanner] with its default split function and buffer:
    lines without their [\n] and a [\r] before it; a line too long for the
    64 KiB buffer ends the scan with an error. *)
Definition MaxScanTokenSize : Z := 64 * 1024.

Definition dropCR (l : bytes) : bytes :=
  match last l with Some x0d => removelast l | _ => l end.

Fixpoint scan_from (cur s : bytes) : list bytes * bool :=
  match s with
  | [] => if decide (cur = []) then ([], true) else ([dropCR cur], true)
  | c :: t =>
      if decide (c = LF) then
        let (ls, ok) := scan_from [] t in (dropCR cur :: ls, ok)
      else if Z.of_nat (S (length cur)) <? MaxScanTokenSize then scan_from (cur ++ [c]) t
      else ([], false)
  end.

(** The lines scanned and whether [Err] is nil afterwards. *)
Definition ScanLines (s : bytes) : list bytes * bool := scan_from [] s.

(** ** Numbers and the order of strings *)

(** [strconv.ParseUint(s, 10, 32)] *)
Definition ParseUint32 (s : bytes) : option Z :=
  match s with
  | [] => None
  | _ => match dec_val 0 s with
         | Some n => if n <? 2 ^ 32 then Some n else None
         | None => None
         end
  end.

(** [a <= b] on strings: byte-wise lexicographic. *)
Fixpoint str_le (a b : bytes) : bool :=
  match a, b with
  | [], _ => true
  | _ :: _, [] => false
  | x :: a, y :: b => (bval x <? bval y) || bool_decide (x = y) && str_le a b
  end.

(** ** Lemmas *)

Lemma space_len_app s t : space_len s <> 0%nat -> space_len (s ++ t) = space_len s.
Proof.
  destruct s as [|a [|b [|c s]]]; simpl; [done|by destruct (ascii_space a)|..|done].
  by destruct (ascii_space a), (space2 a b).
Qed.

Lemma only_spaces_app k s t :
  only_spaces k s = true -> only_spaces 0 t = true -> only_spaces k (s ++ t) = true.
Proof.
  revert k. induction s as [|a s IH]; intros k; cbn [only_spaces app].
  - intros ->%bool_decide_eq_true. done.
  - destruct k as [|k]; [|by auto].
    destruct (space_len (a :: s)) eqn:E; [done|]. intros Hs Ht.
    change (a :: s ++ t) with ((a :: s) ++ t). rewrite space_len_app, E by congruence. auto.
Qed.

Lemma trim_right_space_split s : exists t, s = trim_right_space s ++ t /\ only_spaces 0 t = true.
Proof.
  induction s as [|c s (t & E & Ht)]; [by exists []|]. cbn [trim_right_space].
  destruct (only_spaces 0 (c :: s)) eqn:Eo; [by exists (c :: s)|].
  exists t. split; [|done]. simpl. by f_equal.
Qed.

Lemma trim_right_space_blank s :
  only_spaces 0 (trim_right_space s) = true -> trim_right_space s = [].
Proof.
  destruct s as [|c s]; [done|]. intros H. destruct (trim_right_space_split (c :: s)) as (t & E & Ht).
  assert (only_spaces 0 (c :: s) = true) as Ho by (rewrite E; by apply only_spaces_app).
  cbn [trim_right_space]. by rewrite Ho.
Qed.

Lemma fields_from_nil k cur s :
  fields_from k cur s = [] -> (k <= length s)%nat -> cur = [] /\ only_spaces k s = true.
Proof.
  unfold field_end. revert k cur. induction s as [|c s IH]; intros k cur; cbn [fields_from only_spaces].
  - unfold field_end. case_decide; [|done]. simpl. intros _ Hk.
    split; [done|]. apply bool_decide_eq_true. lia.
  - destruct k as [|k]; [|simpl; intros; apply IH; [done|lia]].
    destruct (space_len (c :: s)) as [|k] eqn:E.
    + intros [H _]%IH; [|lia]. by destruct cur.
    + unfold field_end. case_decide; [simpl|done]. intros [_ ?]%IH; [done|].
      destruct s as [|b [|d s]]; simpl in *; repeat case_match; simplify_eq; lia.
Qed.

(** What has been trimmed and is not empty has a field. *)
Lemma TrimSpace_Fields s : TrimSpace s <> [] -> Fields (TrimSpace s) <> [].
Proof.
  intros Hne Hf. apply fields_from_nil in Hf as [_ Ho]; [|lia].
  by apply trim_right_space_blank in Ho.
Qed.

Lemma Contains_spec s sub : Contains s sub = true <-> exists l r, s = l ++ sub ++ r.
Proof.
  induction s as [|c s IH]; cbn [Contains]; rewrite orb_true_iff, HasPrefix_spec.
  - split.
    + intros [[t E]|]; [|done]. by exists [], t.
    + intros ([|] & r & E); [|done]. left. by exists r.
  - rewrite IH. split.
    + intros [[t E]|(l & r & ->)]; [by exists [], t|by exists (c :: l), r].
    + intros ([|a l] & r & E); [left; by exists r|].
      simplify_eq/=. right. by exists l, r.
Qed.

Lemma ParseUint32_range s n : ParseUint32 s = Some n -> n < 2 ^ 32.
Proof.
  unfold ParseUint32. intros H. repeat case_match; simplify_eq. by apply Z.ltb_lt.
Qed.

Lemma str_le_refl a : str_le a a = true.
Proof. induction a; simpl; [done|]. rewrite bool_decide_eq_true_2 by done. by rewrite IHa, orb_true_r. Qed.

Lemma str_le_total a b : str_le a b = true \/ str_le b a = true.
Proof.
  revert b. induction a as [|x a IH]; intros [|y b]; simpl; auto.
  destruct (Z.lt_total (bval x) (bval y)) as [H|[H|H]].
  - left. by rewrite (proj2 (Z.ltb_lt _ _)).
  - apply (inj bval) in H as ->. rewrite bool_decide_eq_true_2 by done.
    destruct (IH b) as [->| ->]; [left|right]; by rewrite orb_true_r.
  - right. by rewrite (proj2 (Z.ltb_lt _ _)).
Qed.

Lemma str_le_trans a b c : str_le a b = true -> str_le b c = true -> str_le a c = true.
Proof.
  revert b c. induction a as [|x a IH]; intros [|y b] [|z c]; simpl; try done.
  rewrite !orb_true_iff, !andb_true_iff, !Z.ltb_lt, !bool_decide_eq_true.
  intros [H1|[-> H1]] [H2|[-> H2]]; auto; [left; lia|]. right. eauto.
Qed.

Definition str_le_rel (a b : bytes) : Prop := str_le a b = true.
#[global] Instance str_le_rel_dec : RelDecision str_le_rel.
Proof. intros a b. unfold str_le_rel. apply _. Defined.
#[global] Instance str_le_rel_total : Total str_le_rel.
Proof. intros a b. apply str_le_total. Qed.
#[global] Instance str_le_rel_trans : Transitive str_le_rel.
Proof. intros a b c. apply str_le_trans. Qed.

(** Bytes of white space are never printable ASCII. *)
Definition visible (c : byte) : bool := (32 <? bval c) && (bval c <? 127).

Lemma only_spaces_skip k s :
  only_spaces k s = true -> only_spaces 0 (drop k s) = true.
Proof.
  revert k. induction s as [|c s IH]; intros [|k]; cbn [only_spaces drop]; try done. apply IH.
Qed.

Lemma space_len_visible s k c : space_len s = k -> c ∈ take k s -> visible c = false.
Proof.
  intros <-. destruct s as [|a t]; cbn [space_len]; [by intros ?%elem_of_nil|].
  destruct (ascii_space a) eqn:E1.
  { unfold ascii_space in E1. apply bool_decide_eq_true in E1.
    intros ->%list_elem_of_singleton. set_unfold in E1. naive_solver. }
  destruct t as [|b u]; [by intros ?%elem_of_nil|]. destruct (space2 a b) eqn:E2.
  { unfold space2 in E2. apply andb_true_iff in E2 as [->%bool_decide_eq_true E2%bool_decide_eq_true].
    intros Hc. set_unfold in E2. set_unfold in Hc. naive_solver. }
  destruct u as [|d u]; [by intros ?%elem_of_nil|].
  destruct (space3 a b d) eqn:E3; [|by intros ?%elem_of_nil].
  assert (128 <= bval a /\ 128 <= bval b /\ 128 <= bval d) as (Ha & Hb & Hd).
  { unfold space3 in E3.
    rewrite !orb_true_iff, !andb_true_iff, !bool_decide_eq_true, !orb_true_iff, !andb_true_iff,
      !bool_decide_eq_true, !Z.leb_le in E3.
    set_unfold in E3.
    repeat match goal with H : _ \/ _ |- _ => destruct H | H : _ /\ _ |- _ => destruct H end;
      subst; try done; unfold bval in *; simpl in *; lia. }
  intros Hc. simpl in Hc. set_unfold in Hc. unfold visible. apply andb_false_iff. right.
  apply Z.ltb_ge. destruct Hc as [->|[->|[->|[]]]]; lia.
Qed.

Lemma only_spaces_visible s c : only_spaces 0 s = true -> c ∈ s -> visible c = false.
Proof.
  remember (length s) as n eqn:Hn. revert s Hn. induction (lt_wf n) as [n _ IH]. intros s -> Ho Hc.
  destruct s as [|a t]; [by apply elem_of_nil in Hc|]. cbn [only_spaces] in Ho.
  destruct (space_len (a :: t)) as [|k] eqn:E; [done|].
  rewrite <-(take_drop (S k) (a :: t)) in Hc. apply elem_of_app in Hc as [Hc|Hc].
  - by eapply space_len_visible.
  - apply only_spaces_skip in Ho. eapply (IH _ _ (drop k t)); [done|exact Ho|exact Hc].
  Unshelve. rewrite length_drop. simpl. lia.
Qed.

Lemma Fields_visible s c : c ∈ s -> visible c = true -> Fields s <> [].
Proof.
  intros Hc Hv [_ Ho]%fields_from_nil; [|lia]. by rewrite (only_spaces_visible s c Ho Hc) in Hv.
Qed.
