(* ===== verification/GoRune.v ===== *)
(** * Go runes: UTF-8, rune slices, quoting

    [utf8.DecodeRune], [\[\]rune(s)] and [string(runes)]; [strconv.Quote] (the
    [%q] verb) and the hexadecimal verb; [strings.Split] and [Repeat]. *)

From S2P Require Import Prelude GoStd GoText.
Local Open Scope Z_scope.

(** ** UTF-8 *)

Definition RuneError : Z := 65533.

Definition in_range (lo hi : Z) (c : byte) : bool := (lo <=? bval c) && (bval c <=? hi).
Definition cont (c : byte) : bool := in_range 128 191 c.
Definition low6 (c : byte) : Z := Z.land (bval c) 63.

(** The second bytes a first byte accepts. *)
Definition second_ok (a b : byte) : bool :=
  if bval a =? 224 then in_range 160 191 b
  else if bval a =? 237 then in_range 128 159 b
  else if bval a =? 240 then in_range 144 191 b
  else if bval a =? 244 then in_range 128 143 b
  else cont b.

(** [utf8.DecodeRune] on a non-empty string: the rune and its length; an
    invalid sequence is [RuneError] of length 1. *)
Definition DecodeRune (s : bytes) : Z * nat :=
  match s with
  | a :: t =>
      if bval a <? 128 then (bval a, 1%nat)
      else if in_range 194 223 a then
        match t with
        | b :: _ => if cont b then (Z.lor (Z.shiftl (Z.land (bval a) 31) 6) (low6 b), 2%nat)
                    else (RuneError, 1%nat)
        | _ => (RuneError, 1%nat)
        end
      else if in_range 224 239 a then
        match t with
        | b :: c :: _ =>
            if second_ok a b && cont c then
              (Z.lor (Z.lor (Z.shiftl (Z.land (bval a) 15) 12) (Z.shiftl (low6 b) 6)) (low6 c), 3%nat)
            else (RuneError, 1%nat)
        | _ => (RuneError, 1%nat)
        end
      else if in_range 240 244 a then
        match t with
        | b :: c :: d :: _ =>
            if second_ok a b && cont c && cont d then
              (Z.lor (Z.lor (Z.lor (Z.shiftl (Z.land (bval a) 7) 18) (Z.shiftl (low6 b) 12))
                            (Z.shiftl (low6 c) 6)) (low6 d), 4%nat)
            else (RuneError, 1%nat)
        | _ => (RuneError, 1%nat)
        end
      else (RuneError, 1%nat)
  | [] => (RuneError, 0%nat)
  end.

(** [\[\]rune(s)] *)
Fixpoint runes_from (skip : nat) (s : bytes) : list Z :=
  match s with
  | [] => []
  | _ :: t =>
      match skip with
      | S k => runes_from k t
      | O => let (r, n) := DecodeRune s in r :: runes_from (pred n) t
      end
  end.
Definition runes (s : bytes) : list Z := runes_from 0 s.

(** [string(r)]: surrogates and numbers out of range become [RuneError]. *)
Definition valid_rune (r : Z) : Z :=
  if (r <? 0) || (1114111 <? r) || ((55296 <=? r) && (r <=? 57343)) then RuneError else r.

Definition EncodeRune (r : Z) : bytes :=
  let r := valid_rune r in
  let tail (n : Z) := byte_of (128 + Z.land (Z.shiftr r n) 63) in
  if r <? 128 then [byte_of r]
  else if r <? 2048 then [byte_of (192 + Z.shiftr r 6); tail 0]
  else if r <? 65536 then [byte_of (224 + Z.shiftr r 12); tail 6; tail 0]
  else [byte_of (240 + Z.shiftr r 18); tail 12; tail 6; tail 0].

(** [string(runes)] *)
Definition string_of (rs : list Z) : bytes := flat_map EncodeRune rs.

(** A string the two conversions bring back, as they do all valid UTF-8. *)
Definition valid_utf8 (s : bytes) : Prop := string_of (runes s) = s.

(** ** Hexadecimal *)

Definition hex_digit (d : Z) : byte := if d <? 10 then byte_of (48 + d) else byte_of (87 + d).

(** [n] hexadecimal digits of [z], most significant first. *)
Fixpoint hex_fixed (n : nat) (z : Z) : bytes :=
  match n with
  | O => []
  | S n => hex_fixed n (Z.shiftr z 4) ++ [hex_digit (Z.land z 15)]
  end.

(** [fmt.Sprintf("%#x", z)] for an unsigned 64-bit [z]. *)
Definition sharp_x (z : Z) : bytes := str "0x" ++ hex_fixed (Z.to_nat (Z.log2 z / 4 + 1)) z.

(** ** Quoting *)

(** [unicode.IsPrint] outside ASCII, which reads the Unicode tables. *)
Class UnicodePrint := { unicode_print : Z -> bool }.

Section Quote.
Context `{UnicodePrint}.

(** [strconv.IsPrint] *)
Definition IsPrint (r : Z) : bool :=
  if r <? 128 then (32 <=? r) && (r <? 127) else unicode_print r.

(** [appendEscapedRune] for the quote character of [%q]. *)
Definition escape_rune (r : Z) : bytes :=
  if (r =? 34) || (r =? 92) then [Byte.x5c; byte_of r]
  else if IsPrint r then EncodeRune r
  else if r =? 7 then str "\a"
  else if r =? 8 then str "\b"
  else if r =? 12 then str "\f"
  else if r =? 10 then str "\n"
  else if r =? 13 then str "\r"
  else if r =? 9 then str "\t"
  else if r =? 11 then str "\v"
  else if (r <? 32) || (r =? 127) then str "\x" ++ hex_fixed 2 r
  else if r <? 65536 then str "\u" ++ hex_fixed 4 r
  else str "\U" ++ hex_fixed 8 r.

Fixpoint quote_from (skip : nat) (s : bytes) : bytes :=
  match s with
  | [] => []
  | c :: t =>
      match skip with
      | S k => quote_from k t
      | O =>
          let (r, n) := DecodeRune s in
          (if bool_decide (n = 1%nat) && (r =? RuneError) then str "\x" ++ hex_fixed 2 (bval c)
           else escape_rune r) ++ quote_from (pred n) t
      end
  end.

(** [fmt.Sprintf("%q", s)] *)
Definition Quote (s : bytes) : bytes := [Byte.x22] ++ quote_from 0 s ++ [Byte.x22].

End Quote.

(** An instance for evaluation: everything outside ASCII counts as printable. *)
Definition print_all : UnicodePrint := {| unicode_print _ := true |}.

(** ** strings *)

(** [strings.Split(s, "\n")] and [strings.Join(lines, "\n")] *)
Fixpoint lines_from (cur s : bytes) : list bytes :=
  match s with
  | [] => [cur]
  | c :: t => if decide (c = LF) then cur :: lines_from [] t else lines_from (cur ++ [c]) t
  end.
Definition SplitLines (s : bytes) : list bytes := lines_from [] s.
Definition JoinLines (ls : list bytes) : bytes := Join ls [LF].

(** [strings.Repeat(s, n)], which panics when [n] is negative. *)
Definition Repeat (s : bytes) (n : Z) : safe bytes :=
  if n <? 0 then Panic PanicSliceBounds else Ok (concat (replicate (Z.to_nat n) s)).

(** ** Lemmas *)

(** Bytes that a terminal does not act on: no ASCII control character. *)
Definition inert (c : byte) : bool := (32 <=? bval c) && negb (bval c =? 127).

Lemma inert_app s t : forallb inert (s ++ t) = forallb inert s && forallb inert t.
Proof. apply forallb_app. Qed.

Lemma inert_byte_of z : 32 <= z < 256 -> z <> 127 -> inert (byte_of z) = true.
Proof.
  intros Hz Hne. unfold inert. rewrite bval_byte_of, Z.mod_small by lia.
  rewrite (proj2 (Z.leb_le _ _)), (proj2 (Z.eqb_neq _ _)) by lia. done.
Qed.

Lemma inert_hex n z : forallb inert (hex_fixed n z) = true.
Proof.
  revert z. induction n as [|n IH]; intros z; [done|]. cbn [hex_fixed].
  rewrite inert_app, IH. simpl. rewrite andb_true_r.
  assert (0 <= Z.land z 15 < 16) as Hd.
  { change 15 with (Z.ones 4). rewrite Z.land_ones by lia. apply Z.mod_pos_bound. lia. }
  unfold hex_digit. case_match eqn:E; apply inert_byte_of; rewrite ?Z.ltb_lt, ?Z.ltb_ge in E; lia.
Qed.

Lemma land63 z : 0 <= Z.land z 63 < 64.
Proof. change 63 with (Z.ones 6). rewrite Z.land_ones by lia. apply Z.mod_pos_bound. lia. Qed.

Lemma EncodeRune_inert r : 32 <= r -> r <> 127 -> forallb inert (EncodeRune r) = true.
Proof.
  intros Hr Hne. unfold EncodeRune.
  assert (32 <= valid_rune r <= 1114111 /\ valid_rune r <> 127) as [Hr' Hne'].
  { unfold valid_rune. destruct (_ || _) eqn:E; [unfold RuneError; lia|].
    rewrite !orb_false_iff, !Z.ltb_ge in E. lia. }
  cbv zeta. generalize dependent (valid_rune r). clear r Hr Hne. intros r' Hr' Hne'.
  assert (forall n, inert (byte_of (128 + Z.land (Z.shiftr r' n) 63)) = true) as Ht.
  { intros n. pose proof (land63 (Z.shiftr r' n)). apply inert_byte_of; lia. }
  assert (forall n k, 0 <= n -> 0 <= k -> r' < 2 ^ (n + k) -> 0 <= Z.shiftr r' n < 2 ^ k) as Hs.
  { intros n k Hn Hk Hlt. rewrite Z.shiftr_div_pow2 by lia. rewrite Z.pow_add_r in Hlt by lia.
    split; [apply Z.div_pos; lia|apply Z.div_lt_upper_bound; lia]. }
  destruct (Z.ltb_spec r' 128); [cbn [forallb]; by rewrite inert_byte_of by lia|].
  destruct (Z.ltb_spec r' 2048).
  { pose proof (Hs 6 5 ltac:(lia) ltac:(lia) ltac:(lia)). cbn [forallb].
    by rewrite Ht, inert_byte_of by lia. }
  destruct (Z.ltb_spec r' 65536).
  { pose proof (Hs 12 4 ltac:(lia) ltac:(lia) ltac:(lia)). cbn [forallb].
    by rewrite !Ht, inert_byte_of by lia. }
  pose proof (Hs 18 3 ltac:(lia) ltac:(lia) ltac:(lia)). cbn [forallb].
  by rewrite !Ht, inert_byte_of by lia.
Qed.

Lemma DecodeRune_bound s : 0 <= (DecodeRune s).1.
Proof.
  assert (forall c, 0 <= bval c) as Hb by (intros; apply bval_range).
  unfold DecodeRune, low6. repeat case_match; simpl; try (unfold RuneError; lia);
    rewrite ?Z.lor_nonneg, ?Z.shiftl_nonneg, ?Z.land_nonneg; auto 10 with lia.
Qed.

Lemma escape_rune_inert `{UnicodePrint} r : 0 <= r -> forallb inert (escape_rune r) = true.
Proof.
  intros Hr. unfold escape_rune.
  destruct (Z.eqb_spec r 34) as [->|]; [done|]. destruct (Z.eqb_spec r 92) as [->|]; [done|].
  cbn [orb]. destruct (IsPrint r) eqn:Ep.
  { apply EncodeRune_inert; revert Ep; unfold IsPrint; destruct (Z.ltb_spec r 128);
      rewrite ?andb_true_iff, ?Z.leb_le, ?Z.ltb_lt; lia. }
  repeat (case_match; [reflexivity || (rewrite inert_app, inert_hex; reflexivity)|]).
  rewrite inert_app, inert_hex. reflexivity.
Qed.

(** Quoted text holds no control character, whatever was quoted. *)
Lemma Quote_inert `{UnicodePrint} s : forallb inert (Quote s) = true.
Proof.
  unfold Quote. rewrite !inert_app. change (forallb inert [Byte.x22]) with true.
  rewrite andb_true_r. simpl. generalize 0%nat as skip.
  induction s as [|c s IH]; intros skip; [done|]. cbn [quote_from].
  destruct skip as [|k]; [|apply IH].
  pose proof (DecodeRune_bound (c :: s)) as Hb. destruct (DecodeRune (c :: s)) as [r n].
  rewrite inert_app, IH, andb_true_r. case_match; [|by apply escape_rune_inert].
  rewrite inert_app, inert_hex. reflexivity.
Qed.

Lemma Itoa_inert n : forallb inert (Itoa n) = true.
Proof.
  assert (forall d, is_digit d -> inert d = true) as Hd.
  { intros d. unfold is_digit, inert. rewrite Is_true_true, andb_true_iff, !Z.leb_le. intros [??].
    rewrite (proj2 (Z.leb_le _ _)), (proj2 (Z.eqb_neq _ _)) by lia. done. }
  assert (forall m, 0 <= m -> forallb inert (fmt_nat m) = true) as Hn.
  { intros m Hm. pose proof (fmt_nat_digits m Hm) as Hf.
    induction Hf as [|d l Hx _ IH]; [done|]. simpl. by rewrite Hd, IH. }
  unfold Itoa. destruct (Z.ltb_spec n 0); [simpl; apply Hn; lia|apply Hn; lia].
Qed.

Lemma sharp_x_inert z : forallb inert (sharp_x z) = true.
Proof. unfold sharp_x. rewrite inert_app, inert_hex. reflexivity. Qed.

(** ** Examples *)

Example runes_mixed : runes [Byte.x41; Byte.xc3; Byte.xa9; Byte.xff] = [65; 233; RuneError].
Proof. run. Qed.

Example runes_roundtrip : string_of (runes (str "tab ● LIVE")) = str "tab ● LIVE".
Proof. run. Qed.

Example Quote_escapes :
  @Quote print_all ([LF; Byte.x1b; Byte.x22] ++ str "é" ++ [Byte.xff]) =
  [Byte.x22] ++ str "\n\x1b\" ++ [Byte.x22] ++ str "é\xff" ++ [Byte.x22].
Proof. run. Qed.

Example sharp_x_pointer : sharp_x 140737488355328 = str "0x800000000000".
Proof. run. Qed.
