(* ===== verification/GoEnv.v ===== *)
(** * os and os/exec: the environment of a started command

    What [exec.Cmd.Start] makes of [Cmd.Env], and what [os.Getenv] reads in the
    program it starts. *)

From S2P Require Import Prelude GoStd.
Local Open Scope nat_scope.

(** ** Definitions *)

Definition eq_byte : byte := Byte.x3d.
Definition nul_byte : byte := Byte.x00.

(** [strings.Cut(s, "=")]: before and after the first [=]. *)
Fixpoint cut_eq (s : bytes) : option (bytes * bytes) :=
  match s with
  | [] => None
  | c :: s =>
      if decide (c = eq_byte) then Some ([], s)
      else '(k, v) ← cut_eq s; Some (c :: k, v)
  end.

(** The key [exec.dedupEnv] knows an entry by; a leading [=] is part of it. *)
Definition env_key (kv : bytes) : option bytes :=
  match kv with
  | c :: s =>
      if decide (c = eq_byte) then
        match cut_eq s with Some (k, _) => Some (eq_byte :: k) | None => Some [] end
      else fst <$> cut_eq kv
  | [] => None
  end.

(** The loop of [exec.dedupEnv], from the last entry to the first, [saw] the
    keys it has seen; the list it makes is in that order. *)
Fixpoint dedup_from (saw : list bytes) (rev_env : list bytes) : list bytes :=
  match rev_env with
  | [] => []
  | kv :: rev_env =>
      if decide (nul_byte ∈ kv) then dedup_from saw rev_env
      else
        match env_key kv with
        | None => if decide (kv = []) then dedup_from saw rev_env else kv :: dedup_from saw rev_env
        | Some k =>
            if decide (k ∈ saw) then dedup_from saw rev_env
            else kv :: dedup_from (k :: saw) rev_env
        end
  end.

(** [exec.dedupEnv]: the environment, and whether an entry had a NUL byte, which
    is an error of [Start]. *)
Definition dedupEnv (env : list bytes) : list bytes * bool :=
  (reverse (dedup_from [] (reverse env)), existsb (fun kv => bool_decide (nul_byte ∈ kv)) env).

(** [os.Getenv]: the value of the first entry with that key, [""] when there is
    none or the key is empty. *)
Fixpoint lookup_env (key : bytes) (env : list bytes) : option bytes :=
  match env with
  | [] => None
  | kv :: env =>
      match cut_eq kv with
      | Some (k, v) => if decide (k = key) then Some v else lookup_env key env
      | None => lookup_env key env
      end
  end.

Definition Getenv (key : bytes) (env : list bytes) : bytes :=
  if decide (key = []) then [] else default [] (lookup_env key env).

(** An entry as the callers write it. *)
Definition entry (key value : bytes) : bytes := key ++ eq_byte :: value.

(** ** Lemmas *)

Lemma cut_eq_entry key value : eq_byte ∉ key -> cut_eq (entry key value) = Some (key, value).
Proof.
  unfold entry. induction key as [|c key IH]; intros Hk; simpl; [done|].
  apply not_elem_of_cons in Hk as [Hc Hk]. rewrite decide_False by done. by rewrite IH.
Qed.

(** For a key without [=], [dedupEnv] and [Getenv] agree on which entries are
    its own. *)
Lemma env_key_cut key kv :
  key <> [] -> eq_byte ∉ key -> env_key kv = Some key <-> exists v, cut_eq kv = Some (key, v).
Proof.
  intros Hne Hk. destruct kv as [|c s]; [split; [done|by intros [? ?]]|].
  unfold env_key. simpl. destruct (decide (c = eq_byte)) as [->|Hc].
  - split.
    + destruct (cut_eq s) as [[k v]|]; intros [= <-]; [|done]. by destruct Hk; left.
    + by intros [v [= <-]].
  - destruct (cut_eq s) as [[k v]|]; simpl; [|naive_solver]. split; [intros [= <-]; by eexists|].
    intros [v' [= <- <-]]. done.
Qed.

Lemma dedup_unseen key saw env kv :
  key ∈ saw -> kv ∈ dedup_from saw env -> env_key kv <> Some key.
Proof.
  revert saw. induction env as [|kv' env IH]; intros saw Hs Hin; simpl in Hin; [by apply elem_of_nil in Hin|].
  destruct (decide (nul_byte ∈ kv')); [by eapply IH|].
  destruct (env_key kv') as [k|] eqn:Ek.
  - destruct (decide (k ∈ saw)); [by eapply IH|].
    apply elem_of_cons in Hin as [->|Hin]; [congruence|]. eapply IH; [by right|done].
  - destruct (decide (kv' = [])); [by eapply IH|].
    apply elem_of_cons in Hin as [->|Hin]; [congruence|]. by eapply IH.
Qed.

(** The first entry of an environment in reverse is its last. *)
Lemma lookup_env_snoc key env kv v :
  (forall kv' v', kv' ∈ env -> cut_eq kv' <> Some (key, v')) -> cut_eq kv = Some (key, v) ->
  lookup_env key (env ++ [kv]) = Some v.
Proof.
  intros Hno Hkv. induction env as [|kv' env IH]; simpl.
  - by rewrite Hkv, decide_True.
  - assert (lookup_env key (env ++ [kv]) = Some v) as -> by (apply IH; intros; apply Hno; by right).
    destruct (cut_eq kv') as [[k v']|] eqn:E; [|done].
    rewrite decide_False; [done|]. intros ->. by eapply (Hno kv' v'); [left|].
Qed.

Lemma lookup_env_none key env :
  (forall kv v, kv ∈ env -> cut_eq kv <> Some (key, v)) -> lookup_env key env = None.
Proof.
  induction env as [|kv env IH]; intros Hno; simpl; [done|].
  assert (lookup_env key env = None) as -> by (apply IH; intros; apply Hno; by right).
  destruct (cut_eq kv) as [[k v]|] eqn:E; [|done].
  case_decide as Hd; [|done]. subst. by destruct (Hno kv v); [left|].
Qed.

Lemma dedup_from_subset saw env kv : kv ∈ dedup_from saw env -> kv ∈ env.
Proof.
  revert saw. induction env as [|kv' env IH]; intros saw; simpl; [done|].
  repeat case_match; rewrite ?elem_of_cons; naive_solver.
Qed.

(** The variable appended last is the one the started program reads, whatever
    the environment has for it already. *)
Lemma appended_wins key value env :
  key <> [] -> eq_byte ∉ key -> nul_byte ∉ key -> nul_byte ∉ value ->
  Getenv key (dedupEnv (env ++ [entry key value])).1 = value.
Proof.
  intros Hne Hk Hnk Hnv. unfold Getenv, dedupEnv. rewrite decide_False by done.
  rewrite reverse_snoc. cbn [fst dedup_from].
  rewrite decide_False by (unfold entry; rewrite elem_of_app, elem_of_cons; naive_solver).
  assert (env_key (entry key value) = Some key) as Ek
    by (apply env_key_cut; [done..|]; exists value; by apply cut_eq_entry).
  rewrite Ek, decide_False by apply not_elem_of_nil. rewrite reverse_cons.
  erewrite lookup_env_snoc; [done| |by apply cut_eq_entry].
  intros kv v Hin Hc. rewrite elem_of_reverse in Hin.
  apply (dedup_unseen key) in Hin; [|by left]. apply Hin, env_key_cut; [done..|by exists v].
Qed.

(** A variable nobody has set is empty. *)
Lemma unset_empty key env :
  (forall kv v, kv ∈ env -> cut_eq kv <> Some (key, v)) -> Getenv key (dedupEnv env).1 = [].
Proof.
  intros Hno. unfold Getenv, dedupEnv. case_decide; [done|]. rewrite lookup_env_none; [done|].
  intros kv v Hin. cbn [fst] in Hin. rewrite elem_of_reverse in Hin. apply dedup_from_subset in Hin.
  rewrite elem_of_reverse in Hin. by apply Hno.
Qed.
