(* ===== verification/Resp.v ===== *)
(** * internal/decoder/resp.go: the RESP2 decoder and encoder

    [RESPValue] and its redis-cli rendering, the recursive-descent parser over a
    [bufio.Reader], the stream decoder, the reply encoders, and [TryRESP], which
    pairs commands with replies.  The parser is defined with fuel; every entry
    point gives it one unit per remaining byte plus one, which is proved enough
    ([parse_total]). *)

From S2P Require Import Prelude GoStd.
Local Open Scope Z_scope.
Local Open Scope go_scope.

Abbreviation tSimple := Byte.x2b.   (* '+' *)
Abbreviation tError := Byte.x2d.    (* '-' *)
Abbreviation tInt := Byte.x3a.      (* ':' *)
Abbreviation tBulk := Byte.x24.     (* '$' *)
Abbreviation tArray := Byte.x2a.    (* '*' *)

(** ** Data *)

(** A decoded value.  Go's nil and empty [Array] are both [\[\]]. *)
Inductive RESPValue := mkRESP {
  Kind : byte;
  Str : bytes;
  Array : list RESPValue;
  Null : bool;
}.

(** [unsafe.Sizeof(RESPValue{})] on a 64-bit platform. *)
Definition sizeofRESPValue : Z := 56.

(** The errors of the parser; [EIO] is an error of the reader, unwrapped. *)
Inductive resp_err :=
| EIO (e : ioerr)
| EEmptyLine
| EBulkLen (rest : bytes)
| EArrayLen (rest : bytes)
| EKind (kind : byte)
| ENotArray (kind : byte).

(** [RESPValue.String] *)
Fixpoint RESPString (v : RESPValue) : bytes :=
  match v with
  | mkRESP kind s arr null =>
      if decide (kind = tError) then str "(error) " ++ s
      else if decide (kind = tInt) then str "(integer) " ++ s
      else if decide (kind = tBulk \/ kind = tSimple) then
        if null then str "(nil)" else s
      else if decide (kind = tArray) then
        if null then str "(nil)"
        else str "[" ++ Join (map RESPString arr) (str ", ") ++ str "]"
      else s
  end.

(** ** Parser

    A parser threads the reader; the outer [option] is [None] when the fuel
    runs out. *)

Definition parser (A : Type) : Type := reader -> option (outcome resp_err A * reader).

Definition pret {A} (a : A) : parser A := fun r => Some (Ok a, r).
Definition perr {A} (e : resp_err) : parser A := fun r => Some (Err e, r).
Definition ppanic {A} (p : panic) : parser A := fun r => Some (Panic p, r).
Definition pbind {A B} (m : parser A) (f : A -> parser B) : parser B := fun r =>
  match m r with
  | Some (Ok a, r') => f a r'
  | Some (Err e, r') => Some (Err e, r')
  | Some (Panic p, r') => Some (Panic p, r')
  | None => None
  end.
(** A read of the underlying reader; its error is returned unwrapped. *)
Definition pio {A} (m : reader -> outcome ioerr A * reader) : parser A := fun r =>
  match m r with
  | (Ok a, r') => Some (Ok a, r')
  | (Err e, r') => Some (Err (EIO e), r')
  | (Panic p, r') => Some (Panic p, r')
  end.

Notation "'let~' x ':=' m 'in' k" := (pbind m (fun x => k))
  (at level 10, x pattern, m at level 100, k at level 200) : go_scope.

(** [readLine] *)
Definition readLine : parser bytes :=
  let~ line := pio (ReadString LF) in pret (TrimRight line [CR; LF]).

(** [parseRESPValue], and the loop of its ['*'] case. *)
Fixpoint parseRESPValue (fuel : nat) : parser RESPValue :=
  match fuel with
  | O => fun _ => None
  | S fuel =>
      let~ line := readLine in
      match line with
      | [] => perr EEmptyLine
      | kind :: rest =>
          if decide (kind = tSimple \/ kind = tError \/ kind = tInt) then
            pret (mkRESP kind rest [] false)
          else if decide (kind = tBulk) then
            match Atoi rest with
            | None => perr (EBulkLen rest)
            | Some n =>
                if n <? 0 then pret (mkRESP tBulk [] [] true)
                else if negb (makeslice_ok 1 (int64 (n + 2))) then ppanic PanicMakeSlice
                else
                  let~ buf := pio (ReadFull (int64 (n + 2))) in
                  pret (mkRESP tBulk (take (Z.to_nat n) buf) [] false)
            end
          else if decide (kind = tArray) then
            match Atoi rest with
            | None => perr (EArrayLen rest)
            | Some n =>
                if n <? 0 then pret (mkRESP tArray [] [] true)
                else if negb (makeslice_ok sizeofRESPValue n) then ppanic PanicMakeSlice
                else
                  let~ arr := parseElems fuel n in
                  pret (mkRESP tArray [] arr false)
            end
          else perr (EKind kind)
      end
  end
with parseElems (fuel : nat) (n : Z) : parser (list RESPValue) :=
  match fuel with
  | O => fun _ => None
  | S fuel =>
      if n <=? 0 then pret []
      else
        let~ elem := parseRESPValue fuel in
        let~ arr := parseElems fuel (n - 1) in
        pret (elem :: arr)
  end.

(** The call [parseRESPValue(r)].  The last branch is unreachable
    ([parse_total]). *)
Definition parseRESP (r : reader) : outcome resp_err RESPValue * reader :=
  match parseRESPValue (S (length (rdata r))) r with
  | Some res => res
  | None => (Err (EIO (rfin r)), r)
  end.

(** The elements' [Str] fields: what [ReadCommand] and [TryRESP] take from an
    array. *)
Definition command_of (v : RESPValue) : list bytes := map Str (Array v).

(** [ReadCommand] *)
Definition ReadCommand (r : reader) : outcome resp_err (list bytes) * reader :=
  match parseRESP r with
  | (Ok v, r') =>
      if decide (Kind v = tArray) then (Ok (command_of v), r')
      else (Err (ENotArray (Kind v)), r')
  | (Err e, r') => (Err e, r')
  | (Panic p, r') => (Panic p, r')
  end.

(** ** Encoders *)

Definition EncodeSimpleString (s : bytes) : bytes := str "+" ++ s ++ crlf.
Definition EncodeError (s : bytes) : bytes := str "-" ++ s ++ crlf.
Definition EncodeInteger (n : bytes) : bytes := str ":" ++ n ++ crlf.
Definition EncodeNullBulk : bytes := str "$-1" ++ crlf.
Definition EncodeBulkString (s : bytes) : bytes :=
  str "$" ++ Itoa (Z.of_nat (length s)) ++ crlf ++ s ++ crlf.

(** [EncodeReply] *)
Definition EncodeReply (display : bytes) : bytes :=
  if decide (display = str "(nil)") then EncodeNullBulk
  else if HasPrefix display (str "(error) ") then
    EncodeError (TrimPrefix display (str "(error) "))
  else if HasPrefix display (str "(integer) ") then
    EncodeInteger (TrimPrefix display (str "(integer) "))
  else EncodeSimpleString display.

(** ** Streams, commands and replies *)

(** The loop of [ParseRESPStream]: one value per round until an error. *)
Fixpoint parse_stream (fuel : nat) (r : reader) : safe (list RESPValue) :=
  match fuel with
  | O => Ok []
  | S fuel =>
      match parseRESP r with
      | (Ok v, r') => let? values := parse_stream fuel r' in Ok (v :: values)
      | (Err _, _) => Ok []
      | (Panic p, _) => Panic p
      end
  end.

(** [ParseRESPStream] *)
Definition ParseRESPStream (buf : bytes) : safe (list RESPValue * bool) :=
  let? values := parse_stream (S (length buf)) (bytes_reader buf) in
  Ok (values, bool_decide (values <> [])).

Definition adminCommands : gset bytes :=
  list_to_set (map str ["HELLO"; "CLIENT"; "AUTH"; "SELECT"; "PING"]%string).

(** [RedisCall] *)
Record RedisCall := mkCall { Command : list bytes; Reply : bytes }.

Section Unicode.
Context `{Unicode}.

(** [IsAdminCommand] *)
Definition IsAdminCommand (name : bytes) : bool :=
  bool_decide (ToUpper name ∈ adminCommands).

(** The first loop of [TryRESP]: every top-level value is an array. *)
Fixpoint commands_of (vs : list RESPValue) : option (list (list bytes)) :=
  match vs with
  | [] => Some []
  | v :: vs =>
      if decide (Kind v = tArray) then
        match commands_of vs with
        | Some cmds => Some (command_of v :: cmds)
        | None => None
        end
      else None
  end.

(** The second loop of [TryRESP], from index [i]. *)
Fixpoint pair_calls (i : nat) (cmds : list (list bytes)) (replies : list RESPValue) :
    list RedisCall :=
  match cmds with
  | [] => []
  | cmd :: cmds =>
      let calls := pair_calls (S i) cmds replies in
      match cmd with
      | [] => calls
      | name :: _ =>
          if IsAdminCommand name then calls
          else
            let reply := match replies !! i with
                         | Some v => RESPString v
                         | None => str "?"
                         end in
            mkCall cmd reply :: calls
      end
  end.

(** [TryRESP] *)
Definition TryRESP (cmdBuf replyBuf : bytes) : safe (list RedisCall * bool) :=
  let? (cmdValues, parsedAny) := ParseRESPStream cmdBuf in
  if negb parsedAny then Ok ([], false)
  else
    let? (replyValues, _) := ParseRESPStream replyBuf in
    match commands_of cmdValues with
    | None => Ok ([], false)
    | Some commands =>
        let calls := pair_calls 0 commands replyValues in
        Ok (calls, bool_decide (calls <> []))
    end.

End Unicode.

(** ** Specification: the RESP2 grammar

    [wire v] is the wire form of a value, built from the program's own
    encoders ([EncodeSimpleString], [EncodeError], [EncodeInteger],
    [EncodeBulkString], [EncodeNullBulk]) and the array header, which the
    program never needs to write.  [wf_resp] says when a value has one: a
    line holds no line feed and does not end in a carriage return, and sizes
    fit the address space. *)

Fixpoint wire (v : RESPValue) : bytes :=
  match v with
  | mkRESP kind s arr null =>
      if decide (kind = tSimple) then EncodeSimpleString s
      else if decide (kind = tError) then EncodeError s
      else if decide (kind = tInt) then EncodeInteger s
      else if decide (kind = tBulk) then
        if null then EncodeNullBulk else EncodeBulkString s
      else if null then str "*-1" ++ crlf
      else str "*" ++ Itoa (Z.of_nat (length arr)) ++ crlf ++ concat (map wire arr)
  end.

Definition line_ok (s : bytes) : bool :=
  bool_decide (LF ∉ s) && bool_decide (last s <> Some CR).

Fixpoint wf_resp (v : RESPValue) : bool :=
  match v with
  | mkRESP kind s arr null =>
      if decide (kind = tSimple \/ kind = tError \/ kind = tInt) then
        line_ok s && bool_decide (arr = []) && negb null
      else if decide (kind = tBulk) then
        bool_decide (arr = []) &&
        (if null then bool_decide (s = []) else Z.of_nat (length s) + 2 <=? maxAlloc)
      else if decide (kind = tArray) then
        bool_decide (s = []) &&
        (if null then bool_decide (arr = [])
         else (Z.of_nat (length arr) * sizeofRESPValue <=? maxAlloc) && forallb wf_resp arr)
      else false
  end.

(** A client command on the wire: an array of bulk strings. *)
Definition bulk (s : bytes) : RESPValue := mkRESP tBulk s [] false.
Definition command_value (cmd : list bytes) : RESPValue := mkRESP tArray [] (map bulk cmd) false.

(** What [TryRESP] should extract from commands and replies: each data-plane
    command with the reply at its position, ["?"] when there is none. *)
Definition is_data_command `{Unicode} (cmd : list bytes) : bool :=
  match cmd with [] => false | name :: _ => negb (IsAdminCommand name) end.

Definition reply_text (r : option RESPValue) : bytes := from_option RESPString (str "?") r.

Definition expected_calls `{Unicode} (cmds : list (list bytes)) (replies : list RESPValue) :
    list RedisCall :=
  map (fun '(cmd, r) => mkCall cmd (reply_text r))
    (filter (fun '(cmd, _) => is_data_command cmd = true)
       (imap (fun i cmd => (cmd, replies !! i)) cmds)).

(** The stream decoder as a relation: values one after the other, up to the
    first error. *)
Inductive decodes : reader -> list RESPValue -> Prop :=
| decodes_end r e r' : parseRESP r = (Err e, r') -> decodes r []
| decodes_value r v r' vs : parseRESP r = (Ok v, r') -> decodes r' vs -> decodes r (v :: vs).

#[global] Instance RESPValue_eq_dec : EqDecision RESPValue.
Proof.
  refine (fix go v w :=
    match v, w with
    | mkRESP k s a n, mkRESP k' s' a' n' =>
        match decide (k = k'), decide (s = s'), decide (n = n'),
              @list_eq_dec _ go a a' with
        | left _, left _, left _, left _ => left _
        | _, _, _, _ => right _
        end
    end); congruence.
Defined.

(** ** Induction on values *)

Lemma RESPValue_rect' (P : RESPValue -> Prop) :
  (forall kind s arr null, Forall P arr -> P (mkRESP kind s arr null)) -> forall v, P v.
Proof.
  intros H. fix IH 1. intros [kind s arr null]. apply H.
  induction arr; constructor; auto.
Qed.

(** ** The parser, one read at a time *)

Lemma readLine_Ok r line r' :
  readLine r = Some (Ok line, r') <->
  exists l, split_after LF (rdata r) = Some (l, rdata r') /\ rfin r' = rfin r /\
            line = TrimRight l [CR; LF].
Proof.
  unfold readLine, pbind, pio.
  destruct (ReadString LF r) as [o r1] eqn:E. split.
  - destruct o; unfold pret; intros H; simplify_eq/=. apply ReadString_Ok in E as [??]. eauto.
  - intros (l & Hs & Hf & ->).
    assert (ReadString LF r = (Ok l, r')) as E' by (by apply ReadString_Ok).
    rewrite E in E'. by simplify_eq/=.
Qed.

(** A line of the wire format is read back without its CR LF. *)
Lemma readLine_line s rest fin :
  line_ok s = true ->
  readLine (mkReader (s ++ crlf ++ rest) fin) = Some (Ok s, mkReader rest fin).
Proof.
  unfold line_ok. rewrite andb_true_iff, !bool_decide_eq_true. intros [Hlf Hcr].
  apply readLine_Ok. exists (s ++ crlf). simpl. split_and!; [|done|].
  - replace (s ++ CR :: LF :: rest) with ((s ++ [CR]) ++ LF :: rest)
      by (by rewrite <-app_assoc).
    rewrite split_after_app; [by rewrite <-app_assoc|].
    rewrite elem_of_app, list_elem_of_singleton. naive_solver.
  - rewrite TrimRight_app by (repeat constructor; set_solver).
    rewrite TrimRight_id; [done|]. intros c Hc.
    apply last_Some in Hc as [l' ->]. rewrite last_snoc in Hcr.
    rewrite not_elem_of_cons, not_elem_of_cons. split_and!; [congruence| |apply not_elem_of_nil].
    intros ->. apply Hlf. rewrite elem_of_app, list_elem_of_singleton. auto.
Qed.

(** [r'] is what a successful read leaves of [r]: at least [k] bytes are gone,
    the rest and the final error are unchanged. *)
Definition advances (k : nat) (r r' : reader) : Prop :=
  exists l, rdata r = l ++ rdata r' /\ (k <= length l)%nat /\ rfin r' = rfin r.

(** The reader with [ext] appended to what it delivers. *)
Definition extend (r : reader) (ext : bytes) : reader := mkReader (rdata r ++ ext) (rfin r).

Lemma advances_trans j k r1 r2 r3 :
  advances j r1 r2 -> advances k r2 r3 -> advances (j + k) r1 r3.
Proof.
  intros (l & H1 & ? & ?) (l' & H2 & ? & ?). exists (l ++ l').
  rewrite <-app_assoc, <-H2, length_app. split_and!; [done|lia|congruence].
Qed.

Lemma advances_le j k r r' : (j <= k)%nat -> advances k r r' -> advances j r r'.
Proof. intros ? (l & ? & ? & ?). exists l. split_and!; [done|lia|done]. Qed.

Lemma advances_length k r r' :
  advances k r r' -> (length (rdata r') + k <= length (rdata r))%nat.
Proof. intros (l & -> & ? & ?). rewrite length_app. lia. Qed.

Lemma readLine_advances r line r' :
  readLine r = Some (Ok line, r') -> advances (S (length line)) r r' .
Proof.
  intros (l & Hs & Hf & ->)%readLine_Ok. apply split_after_Some in Hs as (l' & -> & Hs & _).
  exists (l' ++ [LF]). split_and!; [done| |done].
  rewrite TrimRight_app by (constructor; [set_solver|done]).
  destruct (TrimRight_spec l' [CR; LF]) as (t & E & _ & _).
  rewrite length_app. simpl. rewrite E at 2. rewrite length_app. lia.
Qed.

Lemma readLine_extend r line r' ext :
  readLine r = Some (Ok line, r') -> readLine (extend r ext) = Some (Ok line, extend r' ext).
Proof.
  intros (l & Hs & Hf & ->)%readLine_Ok. apply readLine_Ok. exists l. simpl.
  split_and!; [by apply split_after_extend|done|done].
Qed.

Lemma ReadFull_advances n r l r' :
  ReadFull n r = (Ok l, r') -> 0 <= n -> advances (Z.to_nat n) r r'.
Proof. intros H Hn. apply ReadFull_Ok in H as (? & ? & ?); [|done]. exists l. split_and!; [done|lia|done]. Qed.

Lemma ReadFull_extend n r l r' ext :
  ReadFull n r = (Ok l, r') -> 0 <= n ->
  ReadFull n (extend r ext) = (Ok l, extend r' ext).
Proof.
  intros H Hn. apply ReadFull_Ok in H as (H & Hf & Hl); [|done].
  unfold extend. rewrite H, <-app_assoc, <-Hf. by apply ReadFull_app.
Qed.

(** ** Properties closed under the parser's combinators *)

Lemma pbind_Ok {A B} (m : parser A) (f : A -> parser B) r b r'' :
  pbind m f r = Some (Ok b, r'') <->
  exists a r', m r = Some (Ok a, r') /\ f a r' = Some (Ok b, r'').
Proof. unfold pbind. split; [intros; cases; eauto|]. by intros (a & r' & -> & ?). Qed.

Lemma pbind_None {A B} (m : parser A) (f : A -> parser B) r :
  pbind m f r = None ->
  m r = None \/ exists a r', m r = Some (Ok a, r') /\ f a r' = None.
Proof. unfold pbind. intros; cases; eauto. Qed.

(** Results other than an error are settled: the bytes behind the value do not
    change them. *)
Definition settled {E A} (o : outcome E A) : bool :=
  match o with Err _ => false | _ => true end.

Definition extensible {A} (m : parser A) : Prop :=
  forall r o r' ext, m r = Some (o, r') -> settled o = true ->
  m (extend r ext) = Some (o, extend r' ext).

Definition refines {A} (m m' : parser A) : Prop := forall r x, m r = Some x -> m' r = Some x.

Lemma extensible_pret {A} (a : A) : extensible (pret a).
Proof. intros r o r' ext [= <- <-] _. done. Qed.

Lemma extensible_perr {A} e : extensible (A := A) (perr e).
Proof. by intros r o r' ext [= <- <-]. Qed.

Lemma extensible_ppanic {A} p : extensible (A := A) (ppanic p).
Proof. intros r o r' ext [= <- <-] _. done. Qed.

Lemma extensible_pbind {A B} (m : parser A) (f : A -> parser B) :
  extensible m -> (forall a, extensible (f a)) -> extensible (pbind m f).
Proof.
  intros Hm Hf r o r' ext. unfold pbind.
  destruct (m r) as [[[a|e|p] r1]|] eqn:E; intros H Hs; simplify_eq/=.
  - rewrite (Hm _ _ _ ext E eq_refl). by apply Hf.
  - by rewrite (Hm _ _ _ ext E eq_refl).
Qed.

Lemma extensible_readLine : extensible readLine.
Proof.
  intros r [line|e|p] r' ext H Hs; [by apply readLine_extend|done|].
  exfalso. revert H. unfold readLine, pbind, pio, ReadString. by cases.
Qed.

Lemma extensible_ReadFull n : 0 <= n -> extensible (pio (ReadFull n)).
Proof.
  intros Hn r o r' ext H Hs. unfold pio in *.
  destruct (ReadFull n r) as [[l|e|p] r1] eqn:E; simplify_eq/=.
  - by rewrite (ReadFull_extend _ _ _ _ _ E).
  - exfalso. revert E. unfold ReadFull. by cases.
Qed.

Lemma refines_pbind {A B} (m m' : parser A) (f f' : A -> parser B) :
  refines m m' -> (forall a, refines (f a) (f' a)) -> refines (pbind m f) (pbind m' f').
Proof.
  intros Hm Hf r x. unfold pbind. destruct (m r) as [[o r1]|] eqn:E; [|done].
  rewrite (Hm _ _ E). destruct o; [apply Hf|done..].
Qed.

Lemma refines_refl {A} (m : parser A) : refines m m.
Proof. by intros r x. Qed.

Create HintDb parser discriminated.
#[export] Hint Resolve extensible_pret extensible_perr extensible_ppanic extensible_pbind
  extensible_readLine extensible_ReadFull refines_pbind refines_refl : parser.

(** Split a parser's body along its tests. *)
Ltac parser_cases :=
  repeat match goal with
  | |- _ (match ?x with _ => _ end) => destruct x eqn:?
  | |- _ (match ?x with _ => _ end) (match ?x with _ => _ end) => destruct x eqn:?
  | |- _ (pbind _ _) => apply extensible_pbind; [|intros ?]
  | |- _ (pbind _ _) (pbind _ _) => apply refines_pbind; [|intros ?]
  end.

Lemma makeslice_ok_nonneg k n : makeslice_ok k n = true -> 0 <= n.
Proof. unfold makeslice_ok. rewrite andb_true_iff, Z.leb_le. tauto. Qed.

Lemma parse_extensible fuel :
  extensible (parseRESPValue fuel) /\ forall n, extensible (parseElems fuel n).
Proof.
  induction fuel as [|fuel [IHv IHe]]; [by split|].
  split; [|intros n]; cbn [parseRESPValue parseElems]; parser_cases; auto with parser.
  apply extensible_ReadFull, (makeslice_ok_nonneg 1), negb_false_iff. done.
Qed.

(** More fuel never changes a result. *)
Lemma parse_refines fuel :
  forall fuel', (fuel <= fuel')%nat ->
  refines (parseRESPValue fuel) (parseRESPValue fuel') /\
  forall n, refines (parseElems fuel n) (parseElems fuel' n).
Proof.
  induction fuel as [|fuel IH]; intros fuel' Hle; [split; [|intros n]; intros r x [=]|].
  destruct fuel' as [|fuel']; [lia|]. destruct (IH fuel' ltac:(lia)) as [IHv IHe].
  split; [|intros n]; cbn [parseRESPValue parseElems]; parser_cases; auto with parser.
Qed.

(** ** Progress and termination *)

Definition advancing {A} (k : nat) (m : parser A) : Prop :=
  forall r a r', m r = Some (Ok a, r') -> advances k r r'.

Lemma advancing_0_refl r : advances 0 r r.
Proof. exists []. split_and!; [done|simpl; lia|done]. Qed.

Lemma advancing_pbind {A B} j k (m : parser A) (f : A -> parser B) :
  advancing j m -> (forall a, advancing k (f a)) -> advancing (j + k) (pbind m f).
Proof.
  intros Hm Hf r b r'' H. apply pbind_Ok in H as (a & r' & H1 & H2).
  eapply advances_trans; [by eapply Hm|by eapply Hf].
Qed.

Lemma advancing_le {A} j k (m : parser A) : (j <= k)%nat -> advancing k m -> advancing j m.
Proof. intros Hle Hm r a r' H. eapply advances_le, Hm, H. done. Qed.

Lemma advancing_pret {A} (a : A) : advancing 0 (pret a).
Proof. intros r a' r' [= _ <-]. apply advancing_0_refl. Qed.

Lemma advancing_ReadFull n : 0 <= n -> advancing 0 (pio (ReadFull n)).
Proof.
  intros Hn r l r' H. unfold pio in H.
  destruct (ReadFull n r) as [[l1|e|p] r1] eqn:E; simplify_eq.
  eapply advances_le; [|by eapply ReadFull_advances]. lia.
Qed.

#[export] Hint Resolve advancing_pret advancing_ReadFull : parser.

(** Every value takes at least two bytes, its type byte and a line feed. *)
Lemma parse_advancing fuel :
  advancing 2 (parseRESPValue fuel) /\ forall n, advancing 0 (parseElems fuel n).
Proof.
  induction fuel as [|fuel [IHv IHe]]; [by split|]. split.
  - intros r v r' H. cbn [parseRESPValue] in H.
    apply pbind_Ok in H as (line & r1 & Hl & H). apply readLine_advances in Hl.
    destruct line as [|kind rest]; [done|].
    eapply (advances_le _ (S (length (kind :: rest)) + 0)); [simpl; lia|].
    eapply advances_trans; [done|]. clear Hl. revert r1 v r' H.
    match goal with |- forall r1 v r', ?m r1 = _ -> _ => change (advancing 0 m) end.
    repeat match goal with
    | |- advancing _ (match ?x with _ => _ end) => destruct x eqn:?
    | |- advancing 0 (pbind _ _) => apply (advancing_pbind 0 0); [|intros ?]
    end; try done; auto with parser.
    apply advancing_ReadFull, (makeslice_ok_nonneg 1), negb_false_iff. done.
  - intros n. cbn [parseElems]. destruct (n <=? 0); [apply advancing_pret|].
    apply (advancing_pbind 0 0); [eapply advancing_le, IHv; lia|intros v].
    apply (advancing_pbind 0 0); auto with parser.
Qed.

(** [length + 1] units of fuel are enough for a value, [length + 2] for the
    elements of an array. *)
Lemma parse_fuel fuel :
  (forall r, (length (rdata r) < fuel)%nat -> parseRESPValue fuel r <> None) /\
  (forall n r, (S (length (rdata r)) < fuel)%nat -> parseElems fuel n r <> None).
Proof.
  induction fuel as [|fuel [IHv IHe]]; [split; intros; lia|]. split.
  - intros r Hr H. cbn [parseRESPValue] in H.
    apply pbind_None in H as [H|(line & r1 & Hl & H)].
    { revert H. unfold readLine, pbind, pio, pret. by cases. }
    apply readLine_advances, advances_length in Hl.
    destruct line as [|kind rest]; [done|]. simpl in Hl.
    revert H. cases; unfold pret, perr, ppanic; try done.
    + unfold pbind, pio, pret. by cases.
    + intros [Hn|(? & ? & ? & Hn)]%pbind_None; [|done]. revert Hn. apply IHe. lia.
  - intros n r Hr H. cbn [parseElems] in H. destruct (n <=? 0); [done|].
    apply pbind_None in H as [H|(v & r1 & Hv & H)]; [revert H; apply IHv; lia|].
    apply parse_advancing, advances_length in Hv.
    apply pbind_None in H as [H|(vs & r2 & Hvs & H)]; [|done].
    revert H. apply IHe. lia.
Qed.

(** What any fuel computes is what the program's call computes. *)
Lemma parseRESP_complete fuel r x : parseRESPValue fuel r = Some x -> parseRESP r = x.
Proof.
  intros H. unfold parseRESP.
  destruct (parseRESPValue (S (length (rdata r))) r) as [y|] eqn:E.
  - destruct (Nat.le_ge_cases fuel (S (length (rdata r)))) as [Hle|Hle];
      eapply parse_refines in Hle as [Hle _].
    + apply Hle in H. congruence.
    + apply Hle in E. congruence.
  - by apply parse_fuel in E; [|lia].
Qed.

Lemma parseRESP_fuel r : parseRESPValue (S (length (rdata r))) r = Some (parseRESP r).
Proof.
  unfold parseRESP. destruct (parseRESPValue _ _) eqn:E; [done|].
  by apply parse_fuel in E; [|lia].
Qed.

Lemma parseRESP_advances r v r' : parseRESP r = (Ok v, r') -> advances 2 r r'.
Proof.
  intros H. eapply (proj1 (parse_advancing _)). rewrite <-H. apply parseRESP_fuel.
Qed.

Lemma parseRESP_extend r o r' ext :
  parseRESP r = (o, r') -> settled o = true -> parseRESP (extend r ext) = (o, extend r' ext).
Proof.
  intros H Hs. eapply parseRESP_complete, parse_extensible; [|done].
  rewrite <-H. apply parseRESP_fuel.
Qed.

(** ** The parser inverts the grammar *)

Lemma line_ok_cons k s : k <> LF -> k <> CR -> line_ok s = true -> line_ok (k :: s) = true.
Proof.
  unfold line_ok. rewrite !andb_true_iff, !bool_decide_eq_true. intros ? ? [Hlf Hcr]. split.
  - rewrite not_elem_of_cons. auto.
  - rewrite last_cons. destruct (last s); [done|congruence].
Qed.

Lemma line_ok_digits s : Forall is_digit s -> line_ok s = true.
Proof.
  intros Hs. unfold line_ok. rewrite andb_true_iff, !bool_decide_eq_true. split.
  - intros Hin. rewrite Forall_forall in Hs. by apply Hs in Hin.
  - intros [l' ->]%last_Some. by apply Forall_app in Hs as [_ [? _]%Forall_cons].
Qed.

Lemma line_ok_len {A} (l : list A) : line_ok (Itoa (Z.of_nat (length l))) = true.
Proof. apply line_ok_digits, Itoa_nonneg_digits. lia. Qed.

(** The first line of a value: its type byte and header. *)
Lemma parse_line {A} k s rest fin (f : bytes -> parser A) :
  k <> LF -> k <> CR -> line_ok s = true ->
  pbind readLine f (mkReader (k :: s ++ crlf ++ rest) fin) = f (k :: s) (mkReader rest fin).
Proof.
  intros. unfold pbind. change (k :: s ++ crlf ++ rest) with ((k :: s) ++ crlf ++ rest).
  by rewrite readLine_line by by apply line_ok_cons.
Qed.

Lemma Atoi_len {A} k (l : list A) :
  1 <= k -> Z.of_nat (length l) * k <= maxAlloc ->
  Atoi (Itoa (Z.of_nat (length l))) = Some (Z.of_nat (length l)).
Proof. unfold maxAlloc. intros. apply Atoi_Itoa. unfold inS. nia. Qed.

Definition wire_parses (v : RESPValue) : Prop :=
  forall rest fin, exists fuel,
    parseRESPValue fuel (mkReader (wire v ++ rest) fin) = Some (Ok v, mkReader rest fin).

Lemma wire_parses_elems arr rest fin :
  Forall wire_parses arr -> exists fuel,
    parseElems fuel (Z.of_nat (length arr)) (mkReader (concat (map wire arr) ++ rest) fin) =
    Some (Ok arr, mkReader rest fin).
Proof.
  intros Harr. induction Harr as [|v arr Hv _ [f2 IH]]; [by exists 1%nat|].
  simpl. rewrite <-app_assoc. destruct (Hv (concat (map wire arr) ++ rest) fin) as [f1 Hf].
  exists (S (f1 + f2)). cbn [parseElems]. rewrite (proj2 (Z.leb_gt _ _)) by lia.
  apply pbind_Ok. eexists _, _. split.
  { eapply (proj1 (parse_refines f1 (f1 + f2) ltac:(lia))), Hf. }
  apply pbind_Ok. eexists _, _. split; [|done].
  replace (Z.of_nat (S (length arr)) - 1) with (Z.of_nat (length arr)) by lia.
  eapply (proj2 (parse_refines f2 (f1 + f2) ltac:(lia))), IH.
Qed.

Lemma parse_bulk s :
  Z.of_nat (length s) + 2 <= maxAlloc -> wire_parses (mkRESP tBulk s [] false).
Proof.
  intros Hlen rest fin. exists 1%nat. cbn [wire]. unfold EncodeBulkString.
  change (str "$") with [tBulk]. rewrite !decide_False, decide_True by done.
  rewrite <-!app_assoc. cbn [app parseRESPValue].
  rewrite parse_line by (done || apply line_ok_len).
  rewrite decide_False, decide_True by naive_solver.
  rewrite (Atoi_len 1) by lia. rewrite (proj2 (Z.ltb_ge _ _)) by lia.
  assert (int64 (Z.of_nat (length s) + 2) = Z.of_nat (length s) + 2) as ->.
  { apply wrapS_id; [lia|]. unfold inS, maxAlloc in *. lia. }
  unfold makeslice_ok. rewrite !(proj2 (Z.leb_le _ _)) by lia. cbn [andb negb].
  unfold pbind, pio. cbn beta. rewrite (app_assoc s).
  rewrite ReadFull_app by (rewrite length_app; simpl; lia).
  unfold pret. by rewrite Nat2Z.id, take_app_length.
Qed.

Lemma parse_array arr :
  Z.of_nat (length arr) * sizeofRESPValue <= maxAlloc ->
  Forall wire_parses arr -> wire_parses (mkRESP tArray [] arr false).
Proof.
  intros Hlen Harr rest fin. destruct (wire_parses_elems arr rest fin Harr) as [fuel Hf].
  exists (S fuel). cbn [wire]. change (str "*") with [tArray].
  rewrite !decide_False by done. rewrite <-!app_assoc. cbn [app parseRESPValue].
  rewrite parse_line by (done || apply line_ok_len).
  rewrite !decide_False, decide_True by naive_solver.
  rewrite (Atoi_len sizeofRESPValue) by (done || lia). rewrite (proj2 (Z.ltb_ge _ _)) by lia.
  unfold makeslice_ok. rewrite !(proj2 (Z.leb_le _ _)) by lia. cbn [andb negb].
  apply pbind_Ok. eauto.
Qed.

Lemma parse_simple k s :
  k = tSimple \/ k = tError \/ k = tInt -> line_ok s = true -> wire_parses (mkRESP k s [] false).
Proof.
  intros Hk Hs rest fin. exists 1%nat. cbn [parseRESPValue].
  assert (wire (mkRESP k s [] false) ++ rest = k :: s ++ crlf ++ rest) as ->.
  { transitivity ((k :: s ++ crlf) ++ rest); [by destruct Hk as [->|[->| ->]]|].
    cbn [app]. by rewrite <-app_assoc. }
  rewrite parse_line; [|by destruct Hk as [->|[->| ->]]..|done]. by rewrite decide_True.
Qed.

Lemma wire_parse v : wf_resp v = true -> wire_parses v.
Proof.
  induction v as [kind s arr null IH] using RESPValue_rect'.
  cbn [wf_resp]. destruct (decide _) as [Hk|Hk].
  { rewrite !andb_true_iff, bool_decide_eq_true, negb_true_iff. intros [[Hs ->] ->].
    by apply parse_simple. }
  destruct (decide (kind = tBulk)) as [->|].
  { rewrite andb_true_iff, bool_decide_eq_true. intros [-> Hs]. destruct null.
    - apply bool_decide_eq_true in Hs as ->. intros rest fin. exists 1%nat.
      cbn [wire parseRESPValue]. rewrite !decide_False, decide_True by done.
      unfold EncodeNullBulk. change (str "$-1") with (tBulk :: str "-1").
      cbn [app]. rewrite <-app_assoc. by rewrite (parse_line tBulk (str "-1")).
    - by apply parse_bulk, Z.leb_le. }
  destruct (decide (kind = tArray)) as [->|]; [|done].
  rewrite andb_true_iff, bool_decide_eq_true. intros [-> Hs]. destruct null.
  - apply bool_decide_eq_true in Hs as ->. intros rest fin. exists 1%nat.
    cbn [wire parseRESPValue]. rewrite !decide_False by done.
    change (str "*-1") with (tArray :: str "-1").
    cbn [app]. rewrite <-app_assoc. by rewrite (parse_line tArray (str "-1")).
  - apply andb_true_iff in Hs as [?%Z.leb_le Hs]. apply parse_array; [done|].
    apply Is_true_true, forallb_True in Hs. rewrite Forall_forall in IH, Hs |- *.
    intros v Hv. apply IH; [done|]. apply Is_true_true. auto.
Qed.

Lemma parseRESP_wire v rest fin :
  wf_resp v = true ->
  parseRESP (mkReader (wire v ++ rest) fin) = (Ok v, mkReader rest fin).
Proof. intros Hv. destruct (wire_parse v Hv rest fin). by eapply parseRESP_complete. Qed.

(** ** The stream decoder *)

Lemma parse_stream_decodes fuel r vs :
  (length (rdata r) < fuel)%nat -> parse_stream fuel r = Ok vs <-> decodes r vs.
Proof.
  revert r vs. induction fuel as [|fuel IH]; intros r vs Hf; [lia|]. cbn [parse_stream].
  destruct (parseRESP r) as [[v|e|p] r'] eqn:E.
  - pose proof (advances_length _ _ _ (parseRESP_advances _ _ _ E)).
    split.
    + destruct (parse_stream fuel r') as [vs'|[]|] eqn:E'; [|done..]. intros [= <-].
      econstructor; [done|]. apply IH; [lia|done].
    + inversion_clear 1 as [|? ? ? ? E2 Hd]; [congruence|].
      rewrite E in E2. simplify_eq. apply IH in Hd; [|lia]. by rewrite Hd.
  - split; [intros [= <-]; by econstructor|]. by inversion_clear 1; [|congruence].
  - split; [done|]. by inversion_clear 1; congruence.
Qed.

Lemma decodes_det r vs vs' : decodes r vs -> decodes r vs' -> vs = vs'.
Proof.
  intros H. revert vs'. induction H as [|r v r' vs E _ IH]; inversion_clear 1 as [|? ? ? ? E2 Hd]; try congruence.
  rewrite E in E2. simplify_eq. f_equal. by apply IH.
Qed.

(** Cutting the stream short keeps a prefix of its values. *)
Lemma decodes_prefix r ext vs :
  decodes (extend r ext) vs -> exists vs', decodes r vs' /\ vs' `prefix_of` vs.
Proof.
  remember (extend r ext) as r2 eqn:E2. intros H. revert r E2.
  induction H as [r2 e r2' He|r2 v r2' vs Hv _ IH]; intros r ->.
  - destruct (parseRESP r) as [[v|e'|p] r'] eqn:E.
    + apply (parseRESP_extend _ _ _ ext) in E; [|done]. congruence.
    + exists []. split; [by econstructor|done].
    + apply (parseRESP_extend _ _ _ ext) in E; [|done]. congruence.
  - destruct (parseRESP r) as [[v'|e'|p] r'] eqn:E.
    + pose proof (parseRESP_extend _ _ _ ext E eq_refl) as E'.
      rewrite Hv in E'. simplify_eq. destruct (IH r' eq_refl) as (vs' & ? & ?).
      exists (v' :: vs'). split; [by econstructor|by apply prefix_cons].
    + exists []. split; [by econstructor|apply prefix_nil].
    + apply (parseRESP_extend _ _ _ ext) in E; [|done]. congruence.
Qed.

Lemma decodes_wire vs rest fin vs' :
  forallb wf_resp vs = true ->
  decodes (mkReader rest fin) vs' ->
  decodes (mkReader (concat (map wire vs) ++ rest) fin) (vs ++ vs').
Proof.
  intros Hvs Hr. induction vs as [|v vs IH]; [done|]. simpl in *.
  apply andb_true_iff in Hvs as [Hv Hvs]. econstructor; [|by apply IH].
  rewrite <-app_assoc. by apply parseRESP_wire.
Qed.

Lemma decodes_wires vs :
  forallb wf_resp vs = true -> decodes (bytes_reader (concat (map wire vs))) vs.
Proof.
  intros Hvs. pose proof (decodes_wire vs [] EOF [] Hvs) as H. rewrite !app_nil_r in H.
  apply H. by eapply decodes_end.
Qed.

Lemma parseRESP_nil fin : parseRESP (mkReader [] fin) = (Err (EIO fin), mkReader [] fin).
Proof. done. Qed.

(** A value cut short is an error, not another value. *)
Lemma parseRESP_cut v n fin :
  wf_resp v = true -> (n < length (wire v))%nat ->
  exists e r', parseRESP (mkReader (take n (wire v)) fin) = (Err e, r').
Proof.
  intros Hv Hn. pose proof (parseRESP_wire v [] fin Hv) as Hw.
  rewrite app_nil_r in Hw. rewrite <-(take_drop n (wire v)) in Hw.
  destruct (parseRESP (mkReader (take n (wire v)) fin)) as [o r'] eqn:E.
  destruct (settled o) eqn:Hs; [|destruct o; naive_solver].
  apply (parseRESP_extend _ _ _ (drop n (wire v))) in E; [|done].
  unfold extend in E. simpl in E. rewrite Hw in E. injection E as _ Hd _. 
  apply (f_equal length) in Hd. rewrite length_app, length_drop in Hd. simpl in Hd. lia.
Qed.

Lemma ParseRESPStream_decodes buf vs :
  decodes (bytes_reader buf) vs <->
  ParseRESPStream buf = Ok (vs, bool_decide (vs <> [])).
Proof.
  unfold ParseRESPStream, obind. rewrite <-(parse_stream_decodes (S (length buf))) by (simpl; lia).
  destruct (parse_stream _ _) as [|[]|]; naive_solver.
Qed.

(** ** Every parsed value is well formed *)

Definition yields {A} (P : A -> Prop) (m : parser A) : Prop :=
  forall r a r', m r = Some (Ok a, r') -> P a.

Lemma yields_pret {A} (P : A -> Prop) a : P a -> yields P (pret a).
Proof. by intros ? r a' r' [= <- _]. Qed.

Lemma yields_pbind {A B} (Q : A -> Prop) (P : B -> Prop) (m : parser A) (f : A -> parser B) :
  yields Q m -> (forall a, Q a -> yields P (f a)) -> yields P (pbind m f).
Proof. intros Hm Hf r b r'' (a & r' & ? & ?)%pbind_Ok. eapply Hf; eauto. Qed.

Lemma yields_fail {A} (P : A -> Prop) e p : yields P (perr e) /\ yields P (ppanic p).
Proof. split; by intros r a r' [=]. Qed.

Lemma line_ok_tail k s : line_ok (k :: s) = true -> line_ok s = true.
Proof.
  unfold line_ok. rewrite !andb_true_iff, !bool_decide_eq_true, not_elem_of_cons.
  intros [[_ ?] Hl]. split; [done|]. intros E. apply Hl. by rewrite last_cons, E.
Qed.

Lemma yields_readLine : yields (fun line => line_ok line = true) readLine.
Proof.
  intros r line r' (l & Hs & _ & ->)%readLine_Ok. apply split_after_Some in Hs as (l' & -> & _ & Hn).
  rewrite TrimRight_app by (constructor; [set_solver|done]).
  destruct (TrimRight_spec l' [CR; LF]) as (t & E & _ & Hl).
  unfold line_ok. rewrite andb_true_iff, !bool_decide_eq_true. split.
  - intros Hin. apply Hn. rewrite E. apply elem_of_app. auto.
  - intros Hc. apply Hl in Hc. rewrite !not_elem_of_cons in Hc. tauto.
Qed.

Lemma yields_ReadFull n : 0 <= n -> yields (fun l => Z.of_nat (length l) = n) (pio (ReadFull n)).
Proof.
  intros Hn r l r' H. unfold pio in H. destruct (ReadFull n r) as [[]] eqn:E; simplify_eq.
  by apply ReadFull_Ok in E as (_ & _ & ?).
Qed.

Lemma parse_bulk_wf n buf :
  0 <= n < 2 ^ 63 -> makeslice_ok 1 (int64 (n + 2)) = true ->
  Z.of_nat (length buf) = int64 (n + 2) ->
  wf_resp (mkRESP tBulk (take (Z.to_nat n) buf) [] false) = true.
Proof.
  intros Hn Hm Hl. unfold makeslice_ok in Hm. apply andb_true_iff in Hm as [H1 H2].
  apply Z.leb_le in H1, H2.
  assert (int64 (n + 2) = n + 2) as E.
  { destruct (Z.lt_ge_cases (n + 2) (2 ^ 63)); [apply wrapS_id; unfold inS; lia|exfalso].
    revert H1. unfold wrapS. change (64 - 1) with 63.
    replace (n + 2 + 2 ^ 63) with (n + 2 - 2 ^ 63 + 1 * 2 ^ 64) by lia.
    rewrite Z.mod_add, Z.mod_small by lia. lia. }
  rewrite E in *. simpl. apply Z.leb_le. rewrite length_take. lia.
Qed.

Lemma Atoi_range s n : Atoi s = Some n -> - 2 ^ 63 <= n < 2 ^ 63.
Proof.
  assert (forall s a m, 0 <= a -> dec_val a s = Some m -> 0 <= m) as Hpos.
  { clear. induction s as [|c s IH]; simpl; intros a m Ha H; [by simplify_eq|].
    destruct (is_digit c) eqn:E; [|done]. eapply IH, H.
    unfold is_digit in E. apply andb_true_iff in E as [E _]. apply Z.leb_le in E. lia. }
  unfold Atoi. intros H. repeat case_match; simplify_eq;
    match goal with H : dec_val 0 _ = Some _ |- _ => apply Hpos in H; [|done] end;
    rewrite ?Z.leb_le, ?Z.ltb_lt in *; lia.
Qed.

Lemma parse_yields fuel :
  yields (fun v => wf_resp v = true) (parseRESPValue fuel) /\
  forall n, yields (fun vs => forallb wf_resp vs = true /\ Z.of_nat (length vs) = Z.max 0 n)
              (parseElems fuel n).
Proof.
  induction fuel as [|fuel [IHv IHe]]; [by split|]. split.
  - cbn [parseRESPValue]. eapply yields_pbind; [apply yields_readLine|].
    intros [|kind rest] Hl; [apply yields_fail; exact PanicIndex|].
    apply line_ok_tail in Hl.
    repeat match goal with
    | |- yields _ (match ?x with _ => _ end) => destruct x eqn:?
    end; try (apply yields_fail; first [exact PanicIndex | exact EEmptyLine]).
    + apply yields_pret. cbn [wf_resp]. rewrite decide_True by done. by rewrite Hl.
    + by apply yields_pret.
    + match goal with H : Atoi _ = _ |- _ => pose proof (Atoi_range _ _ H) end.
      rewrite negb_false_iff, Z.ltb_ge in *.
      eapply yields_pbind; [eapply yields_ReadFull, makeslice_ok_nonneg; eauto|].
      intros buf Hbuf. apply yields_pret, parse_bulk_wf; [lia|done..].
    + by apply yields_pret.
    + rewrite negb_false_iff, Z.ltb_ge in *.
      eapply yields_pbind; [apply IHe|]. intros vs [Hvs Hlen]. apply yields_pret.
      cbn [wf_resp]. rewrite !decide_False, decide_True by naive_solver. simpl.
      apply andb_true_iff. split; [|done].
      match goal with H : makeslice_ok _ _ = true |- _ => apply andb_true_iff in H as [_ Hm] end.
      rewrite Hlen, Z.max_r by done. exact Hm.
  - intros n. cbn [parseElems]. destruct (Z.leb_spec n 0).
    + apply yields_pret. split; [done|simpl; lia].
    + eapply yields_pbind; [apply IHv|]. intros v Hv.
      eapply yields_pbind; [apply IHe|]. intros vs [Hvs Hlen]. apply yields_pret.
      simpl. rewrite Hv, Hvs. split; [done|lia].
Qed.

(** Cutting a known start off a line keeps it a line. *)
Lemma line_ok_app_r p s : line_ok (p ++ s) = true -> line_ok s = true.
Proof. induction p as [|k p IH]; [done|]. intros H. by eapply IH, line_ok_tail. Qed.

Lemma TrimPrefix_line_ok s p : line_ok s = true -> line_ok (TrimPrefix s p) = true.
Proof.
  intros Hs. unfold TrimPrefix. destruct (HasPrefix s p) eqn:E; [|done].
  apply HasPrefix_spec in E as [t ->]. rewrite drop_app_length. by eapply line_ok_app_r.
Qed.

(** The encoding of any one-line rendering is a single well-formed value. *)
Lemma EncodeReply_wire s :
  line_ok s = true -> exists v, wf_resp v = true /\ EncodeReply s = wire v.
Proof.
  intros Hs. unfold EncodeReply. case_decide; [by exists (mkRESP tBulk [] [] true)|].
  destruct (HasPrefix s (str "(error) ")).
  { exists (mkRESP tError (TrimPrefix s (str "(error) ")) [] false). split; [|done].
    cbn [wf_resp]. rewrite decide_True by auto. by rewrite TrimPrefix_line_ok. }
  destruct (HasPrefix s (str "(integer) ")).
  { exists (mkRESP tInt (TrimPrefix s (str "(integer) ")) [] false). split; [|done].
    cbn [wf_resp]. rewrite decide_True by auto. by rewrite TrimPrefix_line_ok. }
  exists (mkRESP tSimple s [] false). split; [|done]. simpl. by rewrite Hs.
Qed.

(** ** Commands and replies *)

Lemma command_of_value cmd : command_of (command_value cmd) = cmd.
Proof. unfold command_of, command_value. simpl. rewrite map_map. apply map_id. Qed.

Lemma commands_of_values cmds : commands_of (map command_value cmds) = Some cmds.
Proof.
  induction cmds as [|cmd cmds IH]; [done|]. simpl. rewrite IH.
  by rewrite command_of_value.
Qed.

Lemma commands_of_arrays vs cmds :
  commands_of vs = Some cmds -> cmds = map command_of vs /\ Forall (fun v => Kind v = tArray) vs.
Proof.
  revert cmds. induction vs as [|v vs IH]; intros cmds; simpl; [by intros [= <-]|].
  destruct (decide _); [|done]. destruct (commands_of vs); [|done].
  intros [= <-]. destruct (IH _ eq_refl) as [-> ?]. by split; [|constructor].
Qed.

Section Unicode_lemmas.
Context `{Unicode}.

Lemma pair_calls_expected i cmds replies :
  pair_calls i cmds replies =
  map (fun '(cmd, r) => mkCall cmd (reply_text r))
    (filter (fun '(cmd, _) => is_data_command cmd = true)
       (imap (fun j cmd => (cmd, replies !! (i + j)%nat)) cmds)).
Proof.
  revert i. induction cmds as [|cmd cmds IH]; intros i; [done|]. simpl. rewrite IH.
  assert (imap (fun j cmd => (cmd, replies !! (S i + j)%nat)) cmds =
          imap ((fun j cmd => (cmd, replies !! (i + j)%nat)) ∘ S) cmds) as ->.
  { apply imap_ext. intros j c _. simpl. do 2 f_equal. lia. }
  rewrite Nat.add_0_r, filter_cons. destruct cmd as [|name args]; [done|].
  simpl. destruct (IsAdminCommand name); [done|]. by destruct (replies !! i).
Qed.

Lemma pair_calls_data i cmds replies c :
  c ∈ pair_calls i cmds replies -> is_data_command (Command c) = true.
Proof.
  rewrite pair_calls_expected. intros ([cmd r] & -> & Hin)%list_elem_of_fmap.
  by apply list_elem_of_filter in Hin as [? _].
Qed.

Lemma TryRESP_parsed cmdBuf replyBuf cmdValues replyValues :
  decodes (bytes_reader cmdBuf) cmdValues ->
  decodes (bytes_reader replyBuf) replyValues ->
  TryRESP cmdBuf replyBuf =
  let calls := match commands_of cmdValues with
               | Some cmds => expected_calls cmds replyValues
               | None => []
               end in Ok (calls, bool_decide (calls <> [])).
Proof.
  intros Hc%ParseRESPStream_decodes Hr%ParseRESPStream_decodes. unfold TryRESP.
  rewrite Hc. simpl. destruct (decide (cmdValues = [])) as [->|Hne]; [done|].
  rewrite bool_decide_eq_true_2 by done. simpl. rewrite Hr. simpl.
  destruct (commands_of cmdValues) as [cmds|]; [|done].
  unfold expected_calls. by rewrite (pair_calls_expected 0).
Qed.

End Unicode_lemmas.

(** ** Theorems *)

(** [C39] The parser terminates: on every input, any fuel larger than the
    number of remaining bytes yields a result, and always the same one, so the
    fuel bound of the program's call never cuts a parse short. *)
Theorem parse_total r fuel :
  (length (rdata r) < fuel)%nat -> parseRESPValue fuel r = Some (parseRESP r).
Proof.
  intros Hf. destruct (parseRESPValue fuel r) eqn:E.
  - by apply parseRESP_complete in E as ->.
  - by apply parse_fuel in E.
Qed.

Lemma parse_total_witness :
  (length (rdata (bytes_reader (str "+OK" ++ crlf))) < 9)%nat /\
  parseRESPValue 9 (bytes_reader (str "+OK" ++ crlf)) =
    Some (parseRESP (bytes_reader (str "+OK" ++ crlf))).
Proof. split; [vm_compute; lia|apply parse_total; vm_compute; lia]. Defined.

(** [C19] [ParseRESPStream] decodes a whole stream: the concatenated wire forms
    of any list of well-formed values decode to exactly those values, with
    [ok] false only for the empty list. *)
Theorem ParseRESPStream_wire vs :
  forallb wf_resp vs = true ->
  ParseRESPStream (concat (map wire vs)) = Ok (vs, bool_decide (vs <> [])).
Proof.
  intros Hvs. apply ParseRESPStream_decodes.
  by apply decodes_wires.
Qed.

Definition sample_values : list RESPValue :=
  [command_value (map str ["set"; "user:42"; "Alice"]%string);
   mkRESP tSimple (str "OK") [] false; mkRESP tBulk [] [] true;
   mkRESP tArray [] [mkRESP tInt (str "7") [] false; bulk (CR :: LF :: str "x")] false].

Lemma ParseRESPStream_wire_witness :
  forallb wf_resp sample_values = true /\
  ParseRESPStream (concat (map wire sample_values)) = Ok (sample_values, true).
Proof. split; [run|]. by apply (ParseRESPStream_wire sample_values). Defined.

(** [C31] A capture cut short anywhere decodes to exactly the values it holds
    completely: the first [k] values, where [k] is the largest number of
    values whose wire forms fit in the captured bytes. *)
Theorem ParseRESPStream_truncated vs n :
  forallb wf_resp vs = true ->
  exists k, (k <= length vs)%nat /\
    ParseRESPStream (take n (concat (map wire vs))) =
      Ok (take k vs, bool_decide (take k vs <> [])) /\
    (length (concat (map wire (take k vs))) <= n)%nat /\
    ((k < length vs)%nat -> (n < length (concat (map wire (take (S k) vs))))%nat).
Proof.
  intros Hvs. setoid_rewrite <-ParseRESPStream_decodes. unfold bytes_reader.
  revert n. induction vs as [|v vs IH]; intros n; simpl.
  - exists 0%nat. rewrite take_nil. split_and!; [lia|by econstructor|simpl; lia|lia].
  - simpl in Hvs. apply andb_true_iff in Hvs as [Hv Hvs].
    destruct (Nat.le_gt_cases (length (wire v)) n) as [Hn|Hn].
    + destruct (IH Hvs (n - length (wire v))%nat) as (k & ? & Hd & Hfit & Hmax).
      exists (S k). rewrite take_app, (take_ge (wire v)) by done. simpl.
      rewrite !length_app. split_and!; [lia| |lia|].
      * econstructor; [by apply parseRESP_wire|done].
      * intros. specialize (Hmax ltac:(lia)). destruct vs; simpl in *; lia.
    + exists 0%nat. rewrite take_app_le by lia. simpl. rewrite length_app.
      destruct (parseRESP_cut v n EOF Hv Hn) as (e & r' & E).
      split_and!; [lia|by econstructor|lia|lia].
Qed.

Lemma ParseRESPStream_truncated_witness :
  forallb wf_resp sample_values = true /\
  exists k, (k <= length sample_values)%nat /\
    ParseRESPStream (take 40 (concat (map wire sample_values))) =
      Ok (take k sample_values, bool_decide (take k sample_values <> [])) /\
    (length (concat (map wire (take k sample_values))) <= 40)%nat /\
    ((k < length sample_values)%nat ->
     (40 < length (concat (map wire (take (S k) sample_values))))%nat).
Proof. split; [run|]. apply (ParseRESPStream_truncated sample_values 40). run. Defined.

(** On arbitrary bytes, decoding a prefix of a buffer yields a prefix of
    the values of the whole buffer: a later byte never changes a value already
    decoded. *)
Theorem ParseRESPStream_prefix buf n vs ok :
  ParseRESPStream buf = Ok (vs, ok) ->
  exists vs', ParseRESPStream (take n buf) = Ok (vs', bool_decide (vs' <> [])) /\
              vs' `prefix_of` vs.
Proof.
  intros H. assert (decodes (bytes_reader buf) vs) as Hd.
  { apply ParseRESPStream_decodes. revert H. unfold ParseRESPStream, obind.
    destruct (parse_stream _ _) as [|[]|]; naive_solver. }
  setoid_rewrite <-ParseRESPStream_decodes.
  apply (decodes_prefix (bytes_reader (take n buf)) (drop n buf)).
  unfold extend. simpl. by rewrite take_drop.
Qed.

Lemma ParseRESPStream_prefix_witness :
  ParseRESPStream (str "+OK" ++ crlf ++ str ":1" ++ crlf ++ str "junk") =
    Ok ([mkRESP tSimple (str "OK") [] false; mkRESP tInt (str "1") [] false], true) /\
  exists vs', ParseRESPStream (take 6 (str "+OK" ++ crlf ++ str ":1" ++ crlf ++ str "junk")) =
                Ok (vs', bool_decide (vs' <> [])) /\
    vs' `prefix_of` [mkRESP tSimple (str "OK") [] false; mkRESP tInt (str "1") [] false].
Proof.
  split; [run|]. apply (ParseRESPStream_prefix _ 6 _ true). run.
Defined.

(** [C40] Whatever the parser returns is a well-formed RESP2 value, so that
    encoding it again and parsing the result gives it back. *)
Theorem parseRESP_wf r v r' :
  parseRESP r = (Ok v, r') ->
  wf_resp v = true /\
  forall rest fin, parseRESP (mkReader (wire v ++ rest) fin) = (Ok v, mkReader rest fin).
Proof.
  intros H. assert (wf_resp v = true) as Hv.
  { eapply (proj1 (parse_yields _)). rewrite <-H. apply parseRESP_fuel. }
  split; [done|]. intros. by apply parseRESP_wire.
Qed.

Lemma parseRESP_wf_witness :
  parseRESP (bytes_reader (str "$+2" ++ [LF] ++ str "abXY+")) =
    (Ok (bulk (str "ab")), bytes_reader (str "+")) /\
  wf_resp (bulk (str "ab")) = true /\
  forall rest fin, parseRESP (mkReader (wire (bulk (str "ab")) ++ rest) fin) =
                   (Ok (bulk (str "ab")), mkReader rest fin).
Proof.
  split; [run|].
  apply (parseRESP_wf (bytes_reader (str "$+2" ++ [LF] ++ str "abXY+")) _ (bytes_reader (str "+"))).
  run.
Defined.

(** [ReadCommand] reads exactly one command from a live connection: it
    returns the command's words and leaves every later byte, whatever it is,
    unread. *)
Theorem ReadCommand_one cmd rest fin :
  wf_resp (command_value cmd) = true ->
  ReadCommand (mkReader (wire (command_value cmd) ++ rest) fin) = (Ok cmd, mkReader rest fin).
Proof.
  intros Hwf. unfold ReadCommand. rewrite (parseRESP_wire _ _ _ Hwf).
  rewrite decide_True by done. by rewrite command_of_value.
Qed.

Lemma ReadCommand_one_witness :
  wf_resp (command_value [str "get"; str "k"]) = true /\
  ReadCommand (mkReader (wire (command_value [str "get"; str "k"]) ++ str "*1") ErrConn) =
    (Ok [str "get"; str "k"], mkReader (str "*1") ErrConn).
Proof. split; [run|]. apply (ReadCommand_one [str "get"; str "k"]). run. Defined.

(** [C18] [TryRESP] pairs commands with replies by position: for a connection
    whose two directions are well-formed streams, it reports each data-plane
    command with the rendering of the reply at the same index (["?"] when
    there are fewer replies), in order, administrative and empty commands left
    out; [ok] says whether anything is left. *)
Theorem TryRESP_pairs `{Unicode} cmds replies :
  forallb wf_resp (map command_value cmds) = true ->
  forallb wf_resp replies = true ->
  TryRESP (concat (map wire (map command_value cmds))) (concat (map wire replies)) =
  Ok (expected_calls cmds replies, bool_decide (expected_calls cmds replies <> [])).
Proof.
  intros Hc Hr.
  rewrite (TryRESP_parsed _ _ _ _ (decodes_wires _ Hc) (decodes_wires _ Hr)).
  by rewrite commands_of_values.
Qed.

Definition sample_cmds : list (list bytes) :=
  [[str "hello"; str "2"]; [str "set"; str "user:42"; str "Alice"]; [str "get"; str "k"]].
Definition sample_replies : list RESPValue :=
  [mkRESP tError (str "ERR") [] false; mkRESP tSimple (str "OK") [] false].

Lemma TryRESP_pairs_witness :
  forallb wf_resp (map command_value sample_cmds) = true /\
  forallb wf_resp sample_replies = true /\
  @TryRESP ascii_only (concat (map wire (map command_value sample_cmds)))
    (concat (map wire sample_replies)) =
  Ok ([mkCall [str "set"; str "user:42"; str "Alice"] (str "OK");
       mkCall [str "get"; str "k"] (str "?")], true).
Proof.
  split; [run|split; [run|]].
  apply (@TryRESP_pairs ascii_only sample_cmds sample_replies); run.
Defined.

(** Whatever the two buffers hold, every call [TryRESP] reports is a
    data-plane command (never empty, never administrative), [ok] is true
    exactly when a call is reported, and calls are reported only when every
    top-level value of the command stream is an array. *)
Theorem TryRESP_filtered `{Unicode} cmdBuf replyBuf calls ok :
  TryRESP cmdBuf replyBuf = Ok (calls, ok) ->
  Forall (fun c => is_data_command (Command c) = true) calls /\
  (ok = true <-> calls <> []) /\
  (ok = true -> exists vs, ParseRESPStream cmdBuf = Ok (vs, true) /\
                           Forall (fun v => Kind v = tArray) vs).
Proof.
  unfold TryRESP. destruct (ParseRESPStream cmdBuf) as [[vs any]|[]|] eqn:E; [simpl|done].
  destruct any; simpl; [|intros [= <- <-]; split_and!; done].
  destruct (ParseRESPStream replyBuf) as [[rs any]|[]|]; [simpl|done].
  destruct (commands_of vs) as [cmds|] eqn:Ec; [|intros [= <- <-]; split_and!; done].
  intros [= <- <-]. rewrite bool_decide_eq_true. split_and!; [|done|].
  - apply Forall_forall. intros c. apply pair_calls_data.
  - intros _. exists vs. apply commands_of_arrays in Ec as [_ ?]. done.
Qed.

Lemma TryRESP_filtered_witness :
  let buf := wire (command_value [str "SET"; str "a"; str "1"]) ++ wire (command_value []) in
  let calls := [mkCall [str "SET"; str "a"; str "1"] (str "OK")] in
  @TryRESP ascii_only buf (str "+OK" ++ crlf) = Ok (calls, true) /\
  Forall (fun c => @is_data_command ascii_only (Command c) = true) calls /\
  (true = true <-> calls <> []) /\
  (true = true -> exists vs, ParseRESPStream buf = Ok (vs, true) /\
                             Forall (fun v => Kind v = tArray) vs).
Proof.
  split; [run|].
  apply (@TryRESP_filtered ascii_only
    (wire (command_value [str "SET"; str "a"; str "1"]) ++ wire (command_value []))
    (str "+OK" ++ crlf)). run.
Defined.

(** [C36] A length header larger than the address space panics instead of
    failing to parse: any buffer that starts with [$n\r\n] or [*n\r\n], with
    [n] within int64 and too large to allocate, makes [TryRESP] panic, whatever
    follows it (for [n] near 2^63 the sum [n+2] even wraps around to a
    negative length). *)
Theorem TryRESP_huge_length_panics `{Unicode} n rest replyBuf :
  n < 2 ^ 63 ->
  (maxAlloc < n + 2 ->
   TryRESP (str "$" ++ Itoa n ++ crlf ++ rest) replyBuf = Panic PanicMakeSlice) /\
  (maxAlloc < n * sizeofRESPValue ->
   TryRESP (str "*" ++ Itoa n ++ crlf ++ rest) replyBuf = Panic PanicMakeSlice).
Proof.
  intros Hn.
  assert (forall k, k = tBulk /\ maxAlloc < n + 2 \/ k = tArray /\ maxAlloc < n * sizeofRESPValue ->
            parseRESP (bytes_reader (k :: Itoa n ++ crlf ++ rest)) =
            (Panic PanicMakeSlice, bytes_reader rest)) as Hp.
  { intros k Hk. assert (0 <= n) as H0 by (unfold maxAlloc, sizeofRESPValue in *; lia).
    apply (parseRESP_complete 1). cbn [parseRESPValue]. unfold bytes_reader.
    rewrite parse_line by
      (apply line_ok_digits, Itoa_nonneg_digits, H0 || by destruct Hk as [[-> _]|[-> _]]).
    rewrite Atoi_Itoa by (unfold inS; lia). rewrite (proj2 (Z.ltb_ge _ _)) by lia.
    assert (forall s m, maxAlloc < m * s \/ m < 0 -> makeslice_ok s m = false) as Hbad.
    { intros s m Hm. unfold makeslice_ok. apply andb_false_iff.
      rewrite !Z.leb_gt. lia. }
    destruct Hk as [[-> Hk]|[-> Hk]].
    - rewrite decide_False, decide_True by naive_solver. rewrite Hbad; [done|].
      destruct (Z.lt_ge_cases (n + 2) (2 ^ 63)); [left|right].
      + unfold maxAlloc in *. rewrite wrapS_id; unfold inS; lia.
      + unfold wrapS. change (64 - 1) with 63.
        replace (n + 2 + 2 ^ 63) with (n + 2 - 2 ^ 63 + 1 * 2 ^ 64) by lia.
        rewrite Z.mod_add, Z.mod_small by lia. lia.
    - rewrite !decide_False, decide_True by naive_solver. rewrite Hbad; [done|by left]. }
  assert (forall buf r, parseRESP (bytes_reader buf) = (Panic PanicMakeSlice, r) ->
            TryRESP buf replyBuf = Panic PanicMakeSlice) as Ht.
  { intros buf r E. unfold TryRESP, ParseRESPStream. cbn [parse_stream]. by rewrite E. }
  split; intros; eapply Ht, Hp; auto.
Qed.

Lemma TryRESP_huge_length_panics_witness :
  2 ^ 63 - 1 < 2 ^ 63 /\
  ((maxAlloc < (2 ^ 63 - 1) + 2 ->
    @TryRESP ascii_only (str "$" ++ Itoa (2 ^ 63 - 1) ++ crlf ++ str "x") [] =
      Panic PanicMakeSlice) /\
   (maxAlloc < (2 ^ 63 - 1) * sizeofRESPValue ->
    @TryRESP ascii_only (str "*" ++ Itoa (2 ^ 63 - 1) ++ crlf ++ str "x") [] =
      Panic PanicMakeSlice)).
Proof. split; [lia|]. apply (@TryRESP_huge_length_panics ascii_only (2 ^ 63 - 1) (str "x") []). lia. Defined.

(** ** Recorded replies *)

(** The renderings [EncodeReply] decodes as what they are: an error or an
    integer always, a null bulk string, and a status string that does not look
    like one of the others. *)
Definition display_faithful (v : RESPValue) : bool :=
  match v with
  | mkRESP kind s arr null =>
      if decide (kind = tError \/ kind = tInt) then true
      else if decide (kind = tBulk) then null
      else if decide (kind = tSimple) then
        negb (bool_decide (s = str "(nil)")) && negb (HasPrefix s (str "(error) ")) &&
        negb (HasPrefix s (str "(integer) "))
      else false
  end.
Lemma EncodeReply_wire_faithful v :
  wf_resp v = true -> display_faithful v = true -> EncodeReply (RESPString v) = wire v.
Proof.
  intros Hwf Hd.
  destruct v as [kind s arr null]. cbn [wf_resp] in Hwf. cbn [display_faithful] in Hd.
  destruct (decide (kind = tError \/ kind = tInt)) as [Hk|Hk].
  { unfold EncodeReply. destruct Hk as [->| ->]; cbn [RESPString wire];
      rewrite ?decide_True, ?decide_False by done; by autorewrite with go. }
  destruct (decide (kind = tBulk)) as [->|Hb].
  { rewrite Hd in Hwf |- *. done. }
  destruct (decide (kind = tSimple)) as [->|]; [|done].
  rewrite decide_True, !andb_true_iff, negb_true_iff in Hwf by auto.
  rewrite !andb_true_iff, !negb_true_iff, bool_decide_eq_false in Hd.
  destruct Hwf as [_ ->], Hd as [[Hnil Herr] Hint].
  unfold EncodeReply. cbn [RESPString wire].
  rewrite !decide_False, decide_True by naive_solver. by rewrite Herr, Hint.
Qed.

(** A rendering [EncodeReply] sends as a simple string. *)
Definition plain_display (s : bytes) : bool :=
  negb (bool_decide (s = str "(nil)")) && negb (HasPrefix s (str "(error) ")) &&
  negb (HasPrefix s (str "(integer) ")).

Lemma EncodeReply_plain s : plain_display s = true -> EncodeReply s = EncodeSimpleString s.
Proof.
  unfold plain_display. rewrite !andb_true_iff, !negb_true_iff, bool_decide_eq_false.
  intros [[Hnil Herr] Hint]. unfold EncodeReply. by rewrite decide_False, Herr, Hint by done.
Qed.

(** A one-line rendering of the plain kind is read back as a status. *)
Lemma parse_plain s rest fin :
  plain_display s = true -> line_ok s = true ->
  parseRESP (mkReader (EncodeReply s ++ rest) fin) = (Ok (mkRESP tSimple s [] false), mkReader rest fin).
Proof.
  intros Hp Hl. rewrite EncodeReply_plain by done.
  apply (parseRESP_wire (mkRESP tSimple s [] false)). simpl. by rewrite Hl.
Qed.

(** The first byte decides the kind of what is read. *)
Lemma readLine_head k t fin line r' :
  k <> LF -> k <> CR -> readLine (mkReader (k :: t) fin) = Some (Ok line, r') ->
  exists rest, line = k :: rest.
Proof.
  intros Hlf Hcr (l & Hs & _ & ->)%readLine_Ok. apply split_after_Some in Hs as (l' & -> & Hs & _).
  destruct (TrimRight_spec (l' ++ [LF]) [CR; LF]) as (u & E & Hu & _).
  destruct (TrimRight (l' ++ [LF]) [CR; LF]) as [|k' line].
  - destruct l' as [|k' l']; simpl in *; [congruence|]. subst u.
    apply Forall_cons_1 in Hu as [Hu _]. set_solver.
  - exists line. destruct l' as [|k2 l']; simpl in *; congruence.
Qed.

Lemma parseRESP_kind k t fin v r' :
  k <> LF -> k <> CR -> parseRESP (mkReader (k :: t) fin) = (Ok v, r') -> Kind v = k.
Proof.
  intros Hlf Hcr. unfold parseRESP. cbn [parseRESPValue].
  destruct (pbind _ _ _) as [[o r1]|] eqn:E; [|done]. intros [= -> ->].
  apply pbind_Ok in E as (line & r1 & Hl & E).
  destruct (readLine_head _ _ _ _ _ Hlf Hcr Hl) as [rest ->].
  destruct (decide (k = tSimple \/ k = tError \/ k = tInt)); [by injection E as <- _|]. destruct (decide (k = tBulk)) as [->|].
  - destruct (Atoi rest) as [m|]; [|done]. destruct (m <? 0); [by injection E as <- _|].
    destruct (negb _); [done|]. apply pbind_Ok in E as (? & ? & _ & E). by injection E as <- _.
  - destruct (decide (k = tArray)) as [->|]; [|done].
    destruct (Atoi rest) as [m|]; [|done]. destruct (m <? 0); [by injection E as <- _|].
    destruct (negb _); [done|]. apply pbind_Ok in E as (? & ? & _ & E). by injection E as <- _.
Qed.

(** Only those come back as they were. *)
Lemma EncodeReply_faithful_iff v rest fin :
  wf_resp v = true ->
  parseRESP (mkReader (EncodeReply (RESPString v) ++ rest) fin) = (Ok v, mkReader rest fin) <->
  display_faithful v = true.
Proof.
  intros Hwf. split; [|intros Hd; rewrite EncodeReply_wire_faithful by done; by apply parseRESP_wire].
  intros Hp. unfold EncodeReply in Hp. destruct (decide (RESPString v = str "(nil)")) as [Hn|Hn].
  { change EncodeNullBulk with (wire (mkRESP tBulk [] [] true)) in Hp.
    rewrite parseRESP_wire in Hp by done. by injection Hp as <-. }
  destruct (HasPrefix _ (str "(error) ")) eqn:He.
  { apply parseRESP_kind in Hp; [|done..]. destruct v as [kind s arr null]. simpl in Hp. by subst. }
  destruct (HasPrefix _ (str "(integer) ")) eqn:Hi.
  { apply parseRESP_kind in Hp; [|done..]. destruct v as [kind s arr null]. simpl in Hp. by subst. }
  apply parseRESP_kind in Hp; [|done..]. destruct v as [kind s arr null]. simpl in Hp. subst kind.
  cbn [wf_resp] in Hwf. rewrite decide_True, !andb_true_iff, negb_true_iff in Hwf by auto.
  destruct Hwf as [_ ->].
  change (RESPString (mkRESP tSimple s arr false)) with s in Hn, He, Hi. cbn [display_faithful].
  rewrite (decide_False (P := tSimple = tError \/ tSimple = tInt)) by naive_solver.
  rewrite (decide_False (P := tSimple = tBulk)), (decide_True (P := tSimple = tSimple)) by done.
  by rewrite bool_decide_eq_false_2, He, Hi.
Qed.

(** [C30] [EncodeReply] inverts the rendering of a recorded reply: for every
    error, integer and null bulk reply, and every status reply that is not
    itself one of those renderings, the client of the replay proxy parses back
    the very value Redis sent, and nothing is left over. *)
Theorem EncodeReply_roundtrip v rest fin :
  wf_resp v = true -> display_faithful v = true ->
  parseRESP (mkReader (EncodeReply (RESPString v) ++ rest) fin) = (Ok v, mkReader rest fin).
Proof.
  intros Hwf Hd. rewrite EncodeReply_wire_faithful by done. by apply parseRESP_wire.
Qed.

Lemma EncodeReply_roundtrip_witness :
  wf_resp (mkRESP tError (str "WRONGTYPE bad key") [] false) = true /\
  display_faithful (mkRESP tError (str "WRONGTYPE bad key") [] false) = true /\
  parseRESP (mkReader (EncodeReply (RESPString
      (mkRESP tError (str "WRONGTYPE bad key") [] false)) ++ str "+") EOF) =
    (Ok (mkRESP tError (str "WRONGTYPE bad key") [] false), mkReader (str "+") EOF).
Proof. split; [run|split; [run|]]. apply EncodeReply_roundtrip; run. Defined.

(** A bulk reply (a GET's value) does not round-trip: one without line
    breaks comes back as a simple string, and one with a line break comes back
    cut at the break, the rest of the value left on the connection in front of
    the next reply. *)
Theorem EncodeReply_bulk_desync s a b rest fin :
  plain_display s = true -> line_ok a = true ->
  s = a \/ s = a ++ crlf ++ b ->
  parseRESP (mkReader (EncodeReply (RESPString (bulk s)) ++ rest) fin) =
  (Ok (mkRESP tSimple a [] false),
   mkReader (if decide (s = a) then rest else b ++ crlf ++ rest) fin).
Proof.
  intros Hplain Ha Hs.
  assert (EncodeReply (RESPString (bulk s)) = tSimple :: s ++ crlf) as ->.
  { cbn [RESPString bulk].
    rewrite (decide_False (P := tBulk = tError)), (decide_False (P := tBulk = tInt)),
      decide_True by naive_solver. by rewrite EncodeReply_plain. }
  apply (parseRESP_complete 1). cbn [parseRESPValue].
  assert ((tSimple :: s ++ crlf) ++ rest =
          tSimple :: a ++ crlf ++ (if decide (s = a) then rest else b ++ crlf ++ rest)) as ->.
  { cbn [app]. f_equal. case_decide as Hd; [by rewrite Hd, <-app_assoc|].
    destruct Hs as [Hs|Hs]; [done|]. rewrite Hs. by rewrite <-!app_assoc. }
  rewrite parse_line by done. by rewrite decide_True by auto.
Qed.

Lemma EncodeReply_bulk_desync_witness :
  plain_display (str "a" ++ crlf ++ str "b") = true /\ line_ok (str "a") = true /\
  parseRESP (mkReader (EncodeReply (RESPString (bulk (str "a" ++ crlf ++ str "b"))) ++ str "+OK") EOF) =
    (Ok (mkRESP tSimple (str "a") [] false), mkReader (str "b" ++ crlf ++ str "+OK") EOF).
Proof.
  split; [run|split; [run|]].
  apply (EncodeReply_bulk_desync (str "a" ++ crlf ++ str "b") (str "a") (str "b") (str "+OK") EOF);
    [run..|by right].
Defined.
