(* ===== verification/Event.v ===== *)
(** * internal/collector: the event record

    [Event], its decoding from a ring buffer record laid out as bpf/types.h's
    [struct event], [Payload], [Truncated] and [FormatIPv4Port]. *)

From S2P Require Import Prelude GoStd.
Local Open Scope Z_scope.
Local Open Scope go_scope.

(** ** Little-endian integers (encoding/binary) *)

(** The value of the bytes of [s], least significant first. *)
Fixpoint le_val (s : bytes) : Z :=
  match s with
  | [] => 0
  | c :: s => bval c + 256 * le_val s
  end.

(** The [n] low-order bytes of [z], least significant first. *)
Fixpoint le_bytes (n : nat) (z : Z) : bytes :=
  match n with
  | O => []
  | S n => byte_of z :: le_bytes n (z / 256)
  end.

(** ** Data *)

Definition OpConnect : Z := 0.
Definition OpRead : Z := 1.
Definition OpWrite : Z := 2.
Definition OpClose : Z := 3.
Definition OpSSLWrite : Z := 4.
Definition OpSSLRead : Z := 5.

Definition dataCap : Z := 4096.

(** [Event]; the two blank padding fields carry no data. *)
Record Event := mkEvent {
  PID : Z;
  TID : Z;
  Timestamp : Z;
  FD : Z;
  Operation : Z;
  Ret : Z;
  SSLPtr : Z;
  RemoteAddr : Z;
  RemotePort : Z;
  TotalLen : Z;
  DataLen : Z;
  Data : bytes;
}.

#[global] Instance Event_eq_dec : EqDecision Event.
Proof. solve_decision. Defined.

(** The Go types of the fields. *)
Record wf_event (e : Event) : Prop := {
  wf_PID : inU 32 (PID e);
  wf_TID : inU 32 (TID e);
  wf_Timestamp : inU 64 (Timestamp e);
  wf_FD : inS 32 (FD e);
  wf_Operation : inU 32 (Operation e);
  wf_Ret : inS 32 (Ret e);
  wf_SSLPtr : inU 64 (SSLPtr e);
  wf_RemoteAddr : inU 32 (RemoteAddr e);
  wf_RemotePort : inU 16 (RemotePort e);
  wf_TotalLen : inU 32 (TotalLen e);
  wf_DataLen : inU 32 (DataLen e);
  wf_Data : Z.of_nat (length (Data e)) = dataCap;
}.

(** ** Operations *)

(** [binary.Size(Event{})] *)
Definition eventSize : Z := 4152.

(** One field of [n] bytes off the front of the record. *)
Definition get_u (n : nat) (raw : bytes) : Z * bytes := (le_val (take n raw), drop n raw).
Definition get_s (n : nat) (raw : bytes) : Z * bytes :=
  (wrapS (8 * Z.of_nat n) (le_val (take n raw)), drop n raw).

(** [decodeEvent]: [binary.Read] fills the struct field by field, skipping the
    blank ones, and ignores bytes after it; a short record is an error. *)
Definition decodeEvent (raw : bytes) : outcome ioerr Event :=
  if Z.of_nat (length raw) <? eventSize then
    Err (if decide (raw = []) then EOF else ErrUnexpectedEOF)
  else
    let '(pid, raw) := get_u 4 raw in
    let '(tid, raw) := get_u 4 raw in
    let '(timestamp, raw) := get_u 8 raw in
    let '(fd, raw) := get_s 4 raw in
    let '(operation, raw) := get_u 4 raw in
    let '(ret, raw) := get_s 4 raw in
    let raw := drop 4 raw in
    let '(sslPtr, raw) := get_u 8 raw in
    let '(remoteAddr, raw) := get_u 4 raw in
    let '(remotePort, raw) := get_u 2 raw in
    let raw := drop 2 raw in
    let '(totalLen, raw) := get_u 4 raw in
    let '(dataLen, raw) := get_u 4 raw in
    Ok (mkEvent pid tid timestamp fd operation ret sslPtr remoteAddr remotePort
          totalLen dataLen (take (Z.to_nat dataCap) raw)).

(** [Payload]: the slice panics when [DataLen] exceeds the array. *)
Definition Payload (e : Event) : safe bytes :=
  if DataLen e <=? dataCap then Ok (take (Z.to_nat (DataLen e)) (Data e))
  else Panic PanicSliceBounds.

(** [Truncated] *)
Definition Truncated (e : Event) : bool := DataLen e <? TotalLen e.

(** [FormatIPv4Port] *)
Definition FormatIPv4Port (addr port : Z) : bytes :=
  Itoa (uint8 addr) ++ str "." ++ Itoa (uint8 (Z.shiftr addr 8)) ++ str "." ++
  Itoa (uint8 (Z.shiftr addr 16)) ++ str "." ++ Itoa (uint8 (Z.shiftr addr 24)) ++
  str ":" ++ Itoa port.

(** [Event.RemoteAddrString] *)
Definition RemoteAddrString (e : Event) : bytes := FormatIPv4Port (RemoteAddr e) (RemotePort e).

(** ** Specification: the record bpf/types.h lays out

    [pad1] (4 bytes, aligning [ssl_ptr]) and [pad2] (2 bytes, aligning
    [total_len]) are never written by the BPF programs and hold whatever an
    earlier record left in the ring buffer. *)
Definition event_record (e : Event) (pad1 pad2 : bytes) : bytes :=
  le_bytes 4 (PID e) ++ le_bytes 4 (TID e) ++ le_bytes 8 (Timestamp e) ++
  le_bytes 4 (FD e) ++ le_bytes 4 (Operation e) ++ le_bytes 4 (Ret e) ++ pad1 ++
  le_bytes 8 (SSLPtr e) ++ le_bytes 4 (RemoteAddr e) ++ le_bytes 2 (RemotePort e) ++ pad2 ++
  le_bytes 4 (TotalLen e) ++ le_bytes 4 (DataLen e) ++ Data e.

(** ** Lemmas *)

Lemma length_le_bytes n z : length (le_bytes n z) = n.
Proof. revert z. induction n; intros; simpl; auto. Qed.

Lemma le_val_bytes n z : le_val (le_bytes n z) = z mod 2 ^ (8 * Z.of_nat n).
Proof.
  revert z. induction n as [|n IH]; intros z.
  - simpl. by rewrite Z.mod_1_r.
  - cbn [le_bytes le_val]. rewrite IH, bval_byte_of.
    replace (8 * Z.of_nat (S n)) with (8 + 8 * Z.of_nat n) by lia.
    rewrite Z.pow_add_r by lia. change (2 ^ 8) with 256.
    rewrite Z.rem_mul_r by lia. done.
Qed.

Lemma le_val_range s : 0 <= le_val s < 2 ^ (8 * Z.of_nat (length s)).
Proof.
  induction s as [|c s IH]; [simpl; lia|]. cbn [le_val length].
  pose proof (bval_range c).
  replace (8 * Z.of_nat (S (length s))) with (8 + 8 * Z.of_nat (length s)) by lia.
  rewrite Z.pow_add_r by lia. change (2 ^ 8) with 256. nia.
Qed.

Lemma le_bytes_val s : le_bytes (length s) (le_val s) = s.
Proof.
  induction s as [|c s IH]; [done|]. cbn [length le_val le_bytes]. pose proof (bval_range c).
  rewrite (Z.mul_comm 256), Z.div_add, (Z.div_small (bval c)), Z.add_0_l, IH by lia. f_equal.
  rewrite <-(byte_of_bval c) at 2. unfold byte_of. by rewrite Z.mod_add by lia.
Qed.

Lemma get_u_bytes n z rest :
  inU (8 * Z.of_nat n) z -> get_u n (le_bytes n z ++ rest) = (z, rest).
Proof.
  intros Hz. unfold get_u.
  rewrite take_app_length', drop_app_length' by (by rewrite length_le_bytes).
  rewrite le_val_bytes, (Z.mod_small z) by apply Hz. done.
Qed.

Lemma get_s_bytes n z rest :
  n <> O -> inS (8 * Z.of_nat n) z -> get_s n (le_bytes n z ++ rest) = (z, rest).
Proof.
  intros Hn Hz. unfold get_s.
  rewrite take_app_length', drop_app_length' by (by rewrite length_le_bytes).
  rewrite le_val_bytes. f_equal. apply (wrapS_wrapU (8 * Z.of_nat n)); [lia|done].
Qed.

Lemma get_u_range n raw : (n <= length raw)%nat -> inU (8 * Z.of_nat n) (fst (get_u n raw)).
Proof.
  intros. unfold inU, get_u. simpl. pose proof (le_val_range (take n raw)) as H0.
  by rewrite length_take, Nat.min_l in H0 by done.
Qed.

Lemma get_s_range n raw : n <> O -> inS (8 * Z.of_nat n) (fst (get_s n raw)).
Proof. intros. apply wrapS_range. lia. Qed.

Lemma length_event_record e pad1 pad2 :
  wf_event e -> length pad1 = 4%nat -> length pad2 = 2%nat ->
  Z.of_nat (length (event_record e pad1 pad2)) = eventSize.
Proof.
  intros [] H1 H2. unfold event_record, eventSize, dataCap in *.
  rewrite !length_app, !length_le_bytes, H1, H2. lia.
Qed.

(** A printed number ends where the separator begins. *)
Lemma Itoa_sep_inj (sep : byte) a b r1 r2 :
  0 <= a -> 0 <= b -> is_digit sep = false ->
  Itoa a ++ sep :: r1 = Itoa b ++ sep :: r2 -> a = b /\ r1 = r2.
Proof.
  intros Ha Hb Hsep E.
  assert (forall n, 0 <= n -> sep ∉ Itoa n) as Hn.
  { intros n Hn Hin. pose proof (Itoa_nonneg_digits n Hn) as Hd.
    rewrite Forall_forall in Hd. apply Hd in Hin. by rewrite Hsep in Hin. }
  pose proof (f_equal (split_after sep) E) as E2.
  rewrite !split_after_app in E2 by auto. injection E2 as Hab ->.
  apply app_inj_tail in Hab as [Hab _]. split; [|done]. by apply Itoa_inj.
Qed.

Lemma uint8_nonneg z : 0 <= uint8 z.
Proof. apply Z.mod_pos_bound. lia. Qed.

Lemma bytes_of_uint32 a :
  inU 32 a ->
  a = uint8 a + 2 ^ 8 * uint8 (Z.shiftr a 8) + 2 ^ 16 * uint8 (Z.shiftr a 16) +
      2 ^ 24 * uint8 (Z.shiftr a 24).
Proof.
  intros Ha. rewrite !Z.shiftr_div_pow2 by lia. unfold wrapU.
  assert (0 <= a / 2 ^ 24 < 256) as Hhi.
  { unfold inU in Ha. split; [apply Z.div_pos; lia|apply Z.div_lt_upper_bound; lia]. }
  rewrite (Z.mod_small (a / 2 ^ 24)) by done.
  pose proof (Z.div_mod a (2 ^ 8) ltac:(lia)).
  pose proof (Z.div_mod (a / 2 ^ 8) (2 ^ 8) ltac:(lia)) as H2.
  pose proof (Z.div_mod (a / 2 ^ 16) (2 ^ 8) ltac:(lia)) as H3.
  rewrite Z.div_div in H2, H3 by lia.
  change (2 ^ 8 * 2 ^ 8) with (2 ^ 16) in H2. change (2 ^ 16 * 2 ^ 8) with (2 ^ 24) in H3. lia.
Qed.

(** An address as the kernel stores it, network order read little-endian. *)
Lemma FormatIPv4Port_bytes a b c d p1 p0 :
  FormatIPv4Port (le_val [a; b; c; d]) (le_val [p0; p1]) =
  Itoa (bval a) ++ str "." ++ Itoa (bval b) ++ str "." ++ Itoa (bval c) ++ str "." ++
  Itoa (bval d) ++ str ":" ++ Itoa (256 * bval p1 + bval p0).
Proof.
  unfold FormatIPv4Port. cbn [le_val]. rewrite !Z.shiftr_div_pow2 by lia. unfold wrapU.
  pose proof (bval_range a). pose proof (bval_range b). pose proof (bval_range c).
  pose proof (bval_range d).
  set (A := bval a) in *. set (B := bval b) in *. set (C := bval c) in *. set (D := bval d) in *.
  replace ((A + 256 * (B + 256 * (C + 256 * (D + 256 * 0)))) mod 2 ^ 8) with A
    by (apply (Z.mod_unique _ _ (B + 256 * (C + 256 * D))); lia).
  replace ((A + 256 * (B + 256 * (C + 256 * (D + 256 * 0)))) / 2 ^ 8) with (B + 256 * (C + 256 * D))
    by (apply (Z.div_unique _ _ _ A); lia).
  replace ((A + 256 * (B + 256 * (C + 256 * (D + 256 * 0)))) / 2 ^ 16) with (C + 256 * D)
    by (apply (Z.div_unique _ _ _ (A + 256 * B)); lia).
  replace ((A + 256 * (B + 256 * (C + 256 * (D + 256 * 0)))) / 2 ^ 24) with D
    by (apply (Z.div_unique _ _ _ (A + 256 * B + 65536 * C)); lia).
  replace ((B + 256 * (C + 256 * D)) mod 2 ^ 8) with B by (apply (Z.mod_unique _ _ (C + 256 * D)); lia).
  replace ((C + 256 * D) mod 2 ^ 8) with C by (apply (Z.mod_unique _ _ D); lia).
  replace (D mod 2 ^ 8) with D by (by rewrite Z.mod_small by lia).
  replace (bval p0 + 256 * (bval p1 + 256 * 0)) with (256 * bval p1 + bval p0) by lia. done.
Qed.

(** ** Theorems *)

(** [C21] Decoding is exact: a ring buffer record written field by field in
    [struct event]'s layout decodes to the event it was written from, whatever
    its padding bytes hold and whatever follows it. *)
Theorem decodeEvent_roundtrip e pad1 pad2 trailing :
  wf_event e -> length pad1 = 4%nat -> length pad2 = 2%nat ->
  decodeEvent (event_record e pad1 pad2 ++ trailing) = Ok e.
Proof.
  intros Hwf H1 H2. pose proof (length_event_record e pad1 pad2 Hwf H1 H2) as Hlen.
  unfold decodeEvent. rewrite length_app, (proj2 (Z.ltb_ge _ _)) by lia.
  destruct Hwf. unfold event_record. rewrite <-!app_assoc.
  rewrite !get_u_bytes by done. rewrite get_s_bytes by done. rewrite get_u_bytes by done.
  rewrite get_s_bytes by done. rewrite drop_app_length' by done.
  rewrite !get_u_bytes by done. rewrite drop_app_length' by done.
  rewrite !get_u_bytes by done. rewrite take_app_length' by (unfold dataCap in *; lia).
  by destruct e.
Qed.

Definition sample_event (op fd : Z) (payload : bytes) : Event :=
  mkEvent 42 43 9999999999 fd op 0 0 0 0 (Z.of_nat (length payload))
    (Z.of_nat (length payload)) (payload ++ replicate (4096 - length payload) Byte.x00).

Lemma decodeEvent_roundtrip_witness :
  wf_event (sample_event OpWrite (-1) (str "hello")) /\
  decodeEvent (event_record (sample_event OpWrite (-1) (str "hello"))
    (str "junk") (str "xy") ++ str "tail") = Ok (sample_event OpWrite (-1) (str "hello")).
Proof.
  assert (wf_event (sample_event OpWrite (-1) (str "hello"))) as Hwf.
  { split; try (vm_compute; intuition congruence). }
  split; [exact Hwf|].
  apply (decodeEvent_roundtrip (sample_event OpWrite (-1) (str "hello")) (str "junk") (str "xy"));
    [exact Hwf|reflexivity..].
Defined.

(** Decoding never panics and is total: a record of at least 4152 bytes
    decodes to an event whose fields have their Go types' ranges, a shorter one
    is [io.EOF] when empty and [io.ErrUnexpectedEOF] otherwise. *)
Theorem decodeEvent_total raw :
  (eventSize <= Z.of_nat (length raw) -> exists e, decodeEvent raw = Ok e /\ wf_event e) /\
  (Z.of_nat (length raw) < eventSize ->
   decodeEvent raw = Err (if decide (raw = []) then EOF else ErrUnexpectedEOF)).
Proof.
  unfold decodeEvent, eventSize. split; intros Hlen.
  - rewrite (proj2 (Z.ltb_ge _ _)) by done. unfold get_u, get_s. eexists. split; [done|].
    rewrite !drop_drop. split; cbn [PID TID Timestamp FD Operation Ret SSLPtr RemoteAddr
      RemotePort TotalLen DataLen Data];
      try (apply get_u_range; rewrite ?length_drop; lia);
      try (apply (get_s_range 4); lia).
    rewrite length_take, length_drop. unfold dataCap. lia.
  - by rewrite (proj2 (Z.ltb_lt _ _)) by done.
Qed.

(** [Payload] is safe exactly on events whose [DataLen] fits the capture
    array, and then returns the first [DataLen] captured bytes; a larger
    [DataLen] is an out-of-range slice. *)
Theorem Payload_safe e :
  wf_event e ->
  (DataLen e <= dataCap -> exists p, Payload e = Ok p /\ p `prefix_of` Data e /\
                                     Z.of_nat (length p) = DataLen e) /\
  (dataCap < DataLen e -> Payload e = Panic PanicSliceBounds).
Proof.
  intros []. unfold Payload, inU, dataCap in *. split; intros H.
  - rewrite (proj2 (Z.leb_le _ _)) by done. eexists. split_and!; [done| |].
    + eexists. by rewrite take_drop.
    + rewrite length_take. lia.
  - by rewrite (proj2 (Z.leb_gt _ _)) by lia.
Qed.

Lemma Payload_safe_witness :
  let e := sample_event OpRead 3 (str "abc") in
  wf_event e /\
  (DataLen e <= dataCap -> exists p, Payload e = Ok p /\ p `prefix_of` Data e /\
                                     Z.of_nat (length p) = DataLen e) /\
  (dataCap < DataLen e -> Payload e = Panic PanicSliceBounds).
Proof.
  assert (wf_event (sample_event OpRead 3 (str "abc"))) as Hwf.
  { split; try (vm_compute; intuition congruence). }
  split; [exact Hwf|exact (Payload_safe _ Hwf)].
Defined.

(** The printed endpoint identifies the address: two IPv4 endpoints are
    rendered alike only when address and port are both equal. *)
Theorem FormatIPv4Port_inj a1 p1 a2 p2 :
  inU 32 a1 -> inU 32 a2 -> inU 16 p1 -> inU 16 p2 ->
  FormatIPv4Port a1 p1 = FormatIPv4Port a2 p2 -> a1 = a2 /\ p1 = p2.
Proof.
  intros Ha1 Ha2 Hp1 Hp2 E. unfold FormatIPv4Port in E.
  change (str ".") with [Byte.x2e] in E. change (str ":") with [Byte.x3a] in E. cbn [app] in E.
  do 4 (apply Itoa_sep_inj in E as [? E]; [|apply uint8_nonneg..|done]).
  split.
  - rewrite (bytes_of_uint32 a1 Ha1), (bytes_of_uint32 a2 Ha2). congruence.
  - unfold inU in Hp1, Hp2. apply Itoa_inj; [lia..|done].
Qed.

Lemma FormatIPv4Port_inj_witness :
  FormatIPv4Port 0x0500000a 5432 = str "10.0.0.5:5432" /\ 83886090 = 0x0500000a /\ 5432 = 5432.
Proof.
  split; [run|]. apply (FormatIPv4Port_inj 83886090 5432 0x0500000a 5432); try (unfold inU; lia).
  reflexivity.
Defined.
