(* ===== verification/CStruct.v ===== *)
(** * src/bpf/types.h: [struct event] in memory

    The offsets C gives the fields, stores and loads of a field in a record's
    bytes in either byte order, and what [decodeEvent] reads out of them.  The
    BPF programs (Bpf) write records through these stores. *)

From S2P Require Import Prelude GoStd Event.
Local Open Scope Z_scope.
Local Open Scope go_scope.

(** ** Byte order *)

Inductive endian := Little | Big.

(** The [n]-byte representation of an integer on a host, and the value of one. *)
Definition int_bytes (h : endian) (n : nat) (z : Z) : bytes :=
  match h with Little => le_bytes n z | Big => rev (le_bytes n z) end.
Definition int_val (h : endian) (s : bytes) : Z :=
  match h with Little => le_val s | Big => le_val (rev s) end.

(** ** [struct event] *)

Definition OP_CONNECT : Z := 0.
Definition OP_READ : Z := 1.
Definition OP_WRITE : Z := 2.
Definition OP_CLOSE : Z := 3.
Definition OP_SSL_WRITE : Z := 4.
Definition OP_SSL_READ : Z := 5.

Definition DATA_CAP : Z := 4096.

Inductive field :=
| pid | tid | timestamp | fd | operation | ret | ssl_ptr | remote_addr | remote_port
| total_len | data_len | data.

#[global] Instance field_eq_dec : EqDecision field.
Proof. solve_decision. Defined.

(** The members in the order of their declaration, with the size and the
    alignment of their types. *)
Definition event_fields : list field :=
  [pid; tid; timestamp; fd; operation; ret; ssl_ptr; remote_addr; remote_port;
   total_len; data_len; data].

Definition fsize (f : field) : nat :=
  match f with
  | timestamp | ssl_ptr => 8
  | remote_port => 2
  | data => Z.to_nat DATA_CAP
  | _ => 4
  end.

Definition falign (f : field) : nat :=
  match f with data => 1 | _ => fsize f end.

(** C's layout: each member at the next multiple of its alignment, the whole
    padded to the largest one. *)
Definition align_up (n a : nat) : nat := ((n + a - 1) / a * a)%nat.

Fixpoint offset_in (fs : list field) (off : nat) (f : field) : nat :=
  match fs with
  | [] => off
  | g :: fs =>
      let o := align_up off (falign g) in
      if decide (g = f) then o else offset_in fs (o + fsize g) f
  end.
Definition offset (f : field) : nat := offset_in event_fields 0 f.

Definition sizeof_event : nat := align_up (offset data + fsize data) 8.

(** ** Stores and loads *)

(** The bytes [bs] written at [off]. *)
Definition store_bytes (off : nat) (bs m : bytes) : bytes :=
  take off m ++ bs ++ drop (off + length bs) m.

Definition field_bytes (f : field) (m : bytes) : bytes := take (fsize f) (drop (offset f) m).

(** [e->f = z], which keeps the low-order bits of [z], and the bytes of
    [e->data]. *)
Definition set (h : endian) (f : field) (z : Z) (e : bytes) : bytes :=
  store_bytes (offset f) (int_bytes h (fsize f) z) e.
Definition set_data (bs e : bytes) : bytes := store_bytes (offset data) bs e.

(** ** Lemmas *)

Lemma length_int_bytes h n z : length (int_bytes h n z) = n.
Proof. destruct h; simpl; rewrite ?length_rev; apply length_le_bytes. Qed.

Lemma int_val_bytes h n z : int_val h (int_bytes h n z) = z mod 2 ^ (8 * Z.of_nat n).
Proof. destruct h; simpl; rewrite ?rev_involutive; apply le_val_bytes. Qed.

Lemma length_store_bytes off bs m :
  (off + length bs <= length m)%nat -> length (store_bytes off bs m) = length m.
Proof. intros. unfold store_bytes. rewrite !length_app, length_take, length_drop. lia. Qed.

(** A load sees the store it overlaps exactly, and none it is disjoint from. *)
Lemma load_store_same off n bs m :
  length bs = n -> (off + n <= length m)%nat ->
  take n (drop off (store_bytes off bs m)) = bs.
Proof.
  intros Hn Hm. unfold store_bytes. rewrite drop_app_length' by (rewrite length_take; lia).
  by apply take_app_length'.
Qed.

Lemma load_store_disjoint off n off' bs m :
  (off' + length bs <= length m)%nat -> (off + n <= off' \/ off' + length bs <= off)%nat ->
  take n (drop off (store_bytes off' bs m)) = take n (drop off m).
Proof.
  intros Hm Hd. unfold store_bytes. destruct Hd as [Hd|Hd].
  - rewrite <-(take_drop off' m) at 3.
    rewrite !drop_app_le by (rewrite length_take; lia).
    rewrite !take_app_le by (rewrite length_drop, length_take; lia). done.
  - rewrite drop_app_ge by (rewrite length_take; lia).
    rewrite length_take, Nat.min_l by lia.
    rewrite drop_app_ge by lia. rewrite drop_drop. do 2 f_equal. lia.
Qed.

(** Distinct fields do not overlap and all lie inside the record. *)
Definition apart (f g : field) : bool :=
  ((offset f + fsize f <=? offset g) || (offset g + fsize g <=? offset f))%nat.

Lemma fields_apart f g : f <> g -> apart f g = true.
Proof. by destruct f, g; intros ?; try done; vm_compute. Qed.

Lemma field_in_event f : (offset f + fsize f <= sizeof_event)%nat.
Proof. by apply Nat.leb_le; destruct f; vm_compute. Qed.

Lemma sizeof_eventSize : Z.of_nat sizeof_event = eventSize.
Proof. by vm_compute. Qed.

Section Fields.
Context (h : endian).

Lemma length_set f z e : length e = sizeof_event -> length (set h f z e) = sizeof_event.
Proof.
  intros He. unfold set. pose proof (field_in_event f).
  rewrite length_store_bytes; rewrite ?length_int_bytes; lia.
Qed.

Lemma length_set_data bs e :
  length e = sizeof_event -> length bs = fsize data -> length (set_data bs e) = sizeof_event.
Proof.
  intros He Hb. unfold set_data. pose proof (field_in_event data).
  rewrite length_store_bytes; lia.
Qed.

Lemma field_set_same f z e :
  length e = sizeof_event -> field_bytes f (set h f z e) = int_bytes h (fsize f) z.
Proof.
  intros He. pose proof (field_in_event f). apply load_store_same; [apply length_int_bytes|lia].
Qed.

Lemma field_set_ne f g z e :
  f <> g -> length e = sizeof_event -> field_bytes f (set h g z e) = field_bytes f e.
Proof.
  intros Hn He. pose proof (field_in_event g). pose proof (fields_apart f g Hn) as Ha.
  unfold apart in Ha. apply orb_true_iff in Ha as [?%Nat.leb_le|?%Nat.leb_le];
    apply load_store_disjoint; rewrite ?length_int_bytes; lia.
Qed.

Lemma field_set_data_same bs e :
  length e = sizeof_event -> length bs = fsize data -> field_bytes data (set_data bs e) = bs.
Proof. intros He Hb. pose proof (field_in_event data). apply load_store_same; lia. Qed.

Lemma field_set_data_ne f bs e :
  f <> data -> length e = sizeof_event -> length bs = fsize data ->
  field_bytes f (set_data bs e) = field_bytes f e.
Proof.
  intros Hn He Hb. pose proof (field_in_event data). pose proof (fields_apart f data Hn) as Ha.
  unfold apart in Ha. apply orb_true_iff in Ha as [?%Nat.leb_le|?%Nat.leb_le];
    apply load_store_disjoint; lia.
Qed.

Lemma length_field_bytes f e : length e = sizeof_event -> length (field_bytes f e) = fsize f.
Proof.
  intros He. unfold field_bytes. rewrite length_take, length_drop. pose proof (field_in_event f). lia.
Qed.

End Fields.

(** What the collector reads: each member at its offset, little-endian whatever
    the host. *)
Definition load (f : field) (e : bytes) : Z := le_val (field_bytes f e).

Lemma decodeEvent_fields e trailing :
  length e = sizeof_event ->
  decodeEvent (e ++ trailing) =
  Ok (mkEvent (load pid e) (load tid e) (load timestamp e) (int32 (load fd e)) (load operation e)
        (int32 (load ret e)) (load ssl_ptr e) (load remote_addr e) (load remote_port e)
        (load total_len e) (load data_len e) (field_bytes data e)).
Proof.
  intros He. pose proof sizeof_eventSize as Hs. unfold decodeEvent.
  rewrite length_app, (proj2 (Z.ltb_ge _ _)) by lia. unfold get_u, get_s. rewrite !drop_drop.
  assert (forall f, take (fsize f) (drop (offset f) (e ++ trailing)) = field_bytes f e) as Hf.
  { intros f. pose proof (field_in_event f). unfold field_bytes.
    rewrite drop_app_le by lia. rewrite take_app_le by (rewrite length_drop; lia). done. }
  unfold load. rewrite <-!Hf. reflexivity.
Qed.

(** ** Records as events

    [event_of e] is the event in the record's bytes; a store of a field is an
    update of the event's field. *)
Definition event_of (e : bytes) : Event :=
  mkEvent (load pid e) (load tid e) (load timestamp e) (int32 (load fd e)) (load operation e)
    (int32 (load ret e)) (load ssl_ptr e) (load remote_addr e) (load remote_port e)
    (load total_len e) (load data_len e) (field_bytes data e).

Lemma decodeEvent_of e :
  length e = sizeof_event -> decodeEvent e = Ok (event_of e) /\ wf_event (event_of e).
Proof.
  intros He. assert (decodeEvent e = Ok (event_of e)) as Hd.
  { rewrite <-(app_nil_r e) at 1. by apply decodeEvent_fields. }
  split; [done|]. destruct (proj1 (decodeEvent_total e)) as (ev & Hev & Hwf).
  { rewrite He, sizeof_eventSize. lia. }
  rewrite Hd in Hev. by apply Ok_inj in Hev as ->.
Qed.

(** The value the collector reads back from a field holding [z]. *)
Definition read_back (h : endian) (f : field) (z : Z) : Z := le_val (int_bytes h (fsize f) z).

Definition update (f : field) (z : Z) (ev : Event) : Event :=
  let 'mkEvent p t ts n op r ssl ad po tl dl d := ev in
  match f with
  | pid => mkEvent z t ts n op r ssl ad po tl dl d
  | tid => mkEvent p z ts n op r ssl ad po tl dl d
  | timestamp => mkEvent p t z n op r ssl ad po tl dl d
  | fd => mkEvent p t ts (int32 z) op r ssl ad po tl dl d
  | operation => mkEvent p t ts n z r ssl ad po tl dl d
  | ret => mkEvent p t ts n op (int32 z) ssl ad po tl dl d
  | ssl_ptr => mkEvent p t ts n op r z ad po tl dl d
  | remote_addr => mkEvent p t ts n op r ssl z po tl dl d
  | remote_port => mkEvent p t ts n op r ssl ad z tl dl d
  | total_len => mkEvent p t ts n op r ssl ad po z dl d
  | data_len => mkEvent p t ts n op r ssl ad po tl z d
  | data => ev
  end.

Section Loads.
Context (h : endian) (e : bytes) (He : length e = sizeof_event).

Lemma load_set_same f z : load f (set h f z e) = read_back h f z.
Proof using He. unfold load. by rewrite field_set_same. Qed.

Lemma load_set_ne f g z : f <> g -> load f (set h g z e) = load f e.
Proof using He. intros. unfold load. by rewrite field_set_ne. Qed.

Lemma event_set f z : f <> data -> event_of (set h f z e) = update f (read_back h f z) (event_of e).
Proof using He.
  intros Hf. unfold event_of. destruct f; [..|by destruct Hf]; cbn [update];
    rewrite load_set_same, !load_set_ne, field_set_ne by (exact He || discriminate); reflexivity.
Qed.

Lemma event_set_data bs :
  length bs = fsize data ->
  event_of (set_data bs e) =
  let 'mkEvent p t ts n op r ssl ad po tl dl d := event_of e in
  mkEvent p t ts n op r ssl ad po tl dl bs.
Proof using He.
  intros Hb. unfold event_of, load.
  rewrite field_set_data_same, !field_set_data_ne by (assumption || discriminate). reflexivity.
Qed.

End Loads.

Definition bits (f : field) : Z :=
  match f with timestamp | ssl_ptr => 64 | remote_port => 16 | _ => 32 end.

Lemma read_back_little f z : f <> data -> read_back Little f z = wrapU (bits f) z.
Proof. intros Hf. unfold read_back. simpl. rewrite le_val_bytes. by destruct f. Qed.
