(* ===== verification/Bpf.v ===== *)
(** * src/bpf: the programs in the kernel

    [fill_common], the tracepoint programs of syscall.bpf.c and the uprobe
    programs of tls.bpf.c as functions on a program's state: the hash map that
    pairs an entry with its return, and the records submitted to the ring
    buffer, as bytes.  The kernel's helpers are a class and oracles in the
    context of a call. *)

From S2P Require Import Prelude GoStd Event CStruct.
Local Open Scope Z_scope.
Local Open Scope go_scope.

(** ** The kernel's helpers *)

(** User memory as [bpf_probe_read_user] sees it: the bytes at an address, when
    all of them can be read now; what a failing read leaves in its
    destination. *)
Class UserMem := {
  umem : Type;
  user_read : umem -> Z -> nat -> option bytes;
  user_fault : umem -> Z -> bytes -> bytes;
  user_read_length m a n bs : user_read m a n = Some bs -> length bs = n;
  user_fault_length m a dst : length (user_fault m a dst) = length dst;
}.

(** The current task and the helpers' answers during one call of a program:
    [bpf_get_current_pid_tgid], [bpf_ktime_get_ns], the user's memory, the
    memory [bpf_ringbuf_reserve] hands out ([None]: the ring is full) with
    whatever an earlier record left in it, and whether the map has the memory
    for an update. *)
Record task `{UserMem} := mkTask {
  pid_tgid : Z;
  ktime : Z;
  mem : umem;
  reserve : option bytes;
  map_room : bool;
}.

Record wf_task `{UserMem} (t : task) : Prop := {
  wf_pid_tgid : inU 64 (pid_tgid t);
  wf_ktime : inU 64 (ktime t);
  wf_reserve e : reserve t = Some e -> length e = sizeof_event;
}.

(** [bpf_probe_read_user(dst, size, addr)] on the bytes of [dst] up to the end
    of the object it is in: the bytes afterwards, and whether it returned 0. *)
Definition bpf_probe_read_user `{UserMem} (m : umem) (dst : bytes) (size addr : Z) : bytes * bool :=
  let n := Z.to_nat size in
  match user_read m addr n with
  | Some bs => (bs ++ drop n dst, true)
  | None => (user_fault m addr (take n dst) ++ drop n dst, false)
  end.

(** A hash map with [max_entries]: [BPF_ANY] creates or replaces an entry, and
    fails when it would create one too many or has no memory. *)
Definition bpf_map_update_elem {V} (max_entries : nat) (room : bool) (k : Z) (v : V)
    (m : gmap Z V) : gmap Z V :=
  if room && (bool_decide (is_Some (m !! k)) || (size m <? max_entries)%nat) then <[k := v]> m else m.

(** ** What both objects share *)

Section Common.
Context `{UserMem} (host : endian).
Local Abbreviation set := (CStruct.set host).

(** [fill_common] *)
Definition fill_common (t : task) (op : Z) (e : bytes) : bytes :=
  let e := set pid (Z.shiftr (pid_tgid t) 32) e in
  let e := set tid (uint32 (pid_tgid t)) e in
  let e := set timestamp (ktime t) e in
  let e := set fd 0 e in
  let e := set operation op e in
  let e := set ret 0 e in
  let e := set ssl_ptr 0 e in
  let e := set remote_addr 0 e in
  let e := set remote_port 0 e in
  let e := set total_len 0 e in
  set data_len 0 e.

(** [target_pid] is the object's read-only global. *)
Definition pid_matches (target_pid : Z) (t : task) : bool :=
  let pid := uint32 (Z.shiftr (pid_tgid t) 32) in
  negb (target_pid =? 0) && (pid =? target_pid).

(** How much of a [count]-byte buffer is captured. *)
Definition capture_len (count : Z) : Z :=
  let len := uint32 count in
  let len := if len >? DATA_CAP - 1 then DATA_CAP - 1 else len in
  Z.land len (DATA_CAP - 1).

(** The payload: [bpf_probe_read_user] into [e->data], then [e->data_len]. *)
Definition capture (t : task) (count buf : Z) (e : bytes) : bytes :=
  let len := capture_len count in
  let (d, ok) := bpf_probe_read_user (mem t) (field_bytes data e) len buf in
  let e := set_data d e in
  if ok then set data_len len e else e.

(** [bpf_ntohs] on a [__u16]. *)
Definition bpf_ntohs (z : Z) : Z :=
  match host with Little => int_val Big (le_bytes 2 z) | Big => z end.

End Common.

(** A program's state: its hash map, and the records it has submitted. *)
Record prog_state (V : Type) := mkState { stash : gmap Z V; events : list bytes }.
Arguments mkState {V}.
Arguments stash {V}.
Arguments events {V}.

(** [bpf_ringbuf_submit(e, 0)] *)
Definition bpf_ringbuf_submit {V} (e : bytes) (s : prog_state V) : prog_state V :=
  mkState (stash s) (events s ++ [e]).

(** ** syscall.bpf.c *)

Module Syscall.

Definition AF_INET : Z := 2.

Record read_args := mkReadArgs { buf : Z; fd : Z }.

Definition max_entries : nat := 10240.

Abbreviation state := (prog_state read_args).

Section Programs.
Context `{UserMem} (host : endian) (target_pid : Z).
Local Abbreviation set := (CStruct.set host).

(** [struct sockaddr_in]: [sin_family], [sin_port], [sin_addr], 8 bytes of
    zero. *)
Definition sizeof_sockaddr_in : nat := 16.
Definition sin_family (a : bytes) : Z := int_val host (take 2 a).
Definition sin_port (a : bytes) : Z := int_val host (take 2 (drop 2 a)).
Definition s_addr (a : bytes) : Z := int_val host (take 4 (drop 4 a)).

(** [args i] is [ctx->args\[i\]], a [__u64]. *)
Definition trace_enter_connect (t : task) (args : nat -> Z) (s : state) : state :=
  if negb (pid_matches target_pid t) then s
  else
    match reserve t with
    | None => s
    | Some e =>
        let e := fill_common host t OP_CONNECT e in
        let e := set CStruct.fd (int32 (args 0%nat)) e in
        let (addr, ok) := bpf_probe_read_user (mem t) (replicate sizeof_sockaddr_in Byte.x00)
                            (Z.of_nat sizeof_sockaddr_in) (args 1%nat) in
        let e :=
          if ok && (sin_family addr =? AF_INET) then
            set remote_port (bpf_ntohs host (sin_port addr)) (set remote_addr (s_addr addr) e)
          else e in
        bpf_ringbuf_submit e s
    end.

Definition trace_enter_write (t : task) (args : nat -> Z) (s : state) : state :=
  if negb (pid_matches target_pid t) then s
  else
    match reserve t with
    | None => s
    | Some e =>
        let e := fill_common host t OP_WRITE e in
        let e := set CStruct.fd (int32 (args 0%nat)) e in
        let count := args 2%nat in
        let e := set total_len (uint32 count) e in
        let e := capture host t count (args 1%nat) e in
        bpf_ringbuf_submit e s
    end.

Definition trace_enter_read (t : task) (args : nat -> Z) (s : state) : state :=
  if negb (pid_matches target_pid t) then s
  else
    let a := mkReadArgs (args 1%nat) (int32 (args 0%nat)) in
    mkState (bpf_map_update_elem max_entries (map_room t) (pid_tgid t) a (stash s)) (events s).

(** [ret] is [ctx->ret], a [long]. *)
Definition trace_exit_read (t : task) (ret : Z) (s : state) : state :=
  if negb (pid_matches target_pid t) then s
  else
    match stash s !! pid_tgid t with
    | None => s
    | Some a =>
        let s := mkState (delete (pid_tgid t) (stash s)) (events s) in
        if ret <=? 0 then s
        else
          match reserve t with
          | None => s
          | Some e =>
              let e := fill_common host t OP_READ e in
              let e := set CStruct.fd (fd a) e in
              let e := set CStruct.ret (int32 ret) e in
              let e := set total_len (uint32 ret) e in
              let e := capture host t ret (buf a) e in
              bpf_ringbuf_submit e s
          end
    end.

Definition trace_enter_close (t : task) (args : nat -> Z) (s : state) : state :=
  if negb (pid_matches target_pid t) then s
  else
    match reserve t with
    | None => s
    | Some e =>
        let e := fill_common host t OP_CLOSE e in
        let e := set CStruct.fd (int32 (args 0%nat)) e in
        bpf_ringbuf_submit e s
    end.

(** A tracepoint hit, and the program attached to it. *)
Inductive hit :=
| sys_enter_connect (args : nat -> Z)
| sys_enter_write (args : nat -> Z)
| sys_enter_read (args : nat -> Z)
| sys_exit_read (ret : Z)
| sys_enter_close (args : nat -> Z).

Definition handle (s : state) (th : task * hit) : state :=
  let (t, hit) := th in
  match hit with
  | sys_enter_connect args => trace_enter_connect t args s
  | sys_enter_write args => trace_enter_write t args s
  | sys_enter_read args => trace_enter_read t args s
  | sys_exit_read r => trace_exit_read t r s
  | sys_enter_close args => trace_enter_close t args s
  end.

(** The state after a sequence of hits. *)
Definition run (hits : list (task * hit)) : state := fold_left handle hits (mkState ∅ []).

(** The object file: each function, the section it is in, its body on the
    context of its kind of tracepoint. *)
Inductive ctx := enter_ctx (args : nat -> Z) | exit_ctx (ret : Z).

Definition ctx_of (hit : hit) : ctx :=
  match hit with
  | sys_enter_connect args | sys_enter_write args | sys_enter_read args | sys_enter_close args =>
      enter_ctx args
  | sys_exit_read r => exit_ctx r
  end.

Definition on_enter (body : task -> (nat -> Z) -> state -> state) (t : task) (c : ctx) (s : state) : state :=
  match c with enter_ctx args => body t args s | exit_ctx _ => s end.
Definition on_exit (body : task -> Z -> state -> state) (t : task) (c : ctx) (s : state) : state :=
  match c with exit_ctx r => body t r s | enter_ctx _ => s end.

Definition programs : list (bytes * bytes * (task -> ctx -> state -> state)) :=
  [(str "trace_enter_connect", str "tracepoint/syscalls/sys_enter_connect", on_enter trace_enter_connect);
   (str "trace_enter_write", str "tracepoint/syscalls/sys_enter_write", on_enter trace_enter_write);
   (str "trace_enter_read", str "tracepoint/syscalls/sys_enter_read", on_enter trace_enter_read);
   (str "trace_exit_read", str "tracepoint/syscalls/sys_exit_read", on_exit trace_exit_read);
   (str "trace_enter_close", str "tracepoint/syscalls/sys_enter_close", on_enter trace_enter_close)].

End Programs.
End Syscall.

(** ** tls.bpf.c *)

Module Tls.

Record ssl_read_args := mkSslArgs { ssl : Z; buf : Z }.

Definition max_entries : nat := 1024.

Abbreviation state := (prog_state ssl_read_args).

Section Programs.
Context `{UserMem} (host : endian) (target_pid : Z).
Local Abbreviation set := (CStruct.set host).

(** The probed function's arguments and result as the program's typed
    parameters: pointers as [__u64], [num] and [ret] as [int]. *)
Definition trace_ssl_write (t : task) (ssl buf num : Z) (s : state) : state :=
  if negb (pid_matches target_pid t) then s
  else
    match reserve t with
    | None => s
    | Some e =>
        let e := fill_common host t OP_SSL_WRITE e in
        let e := set fd (-1) e in
        let e := set ssl_ptr ssl e in
        let e := set total_len (uint32 num) e in
        let e := capture host t num buf e in
        bpf_ringbuf_submit e s
    end.

Definition trace_ssl_read_enter (t : task) (ssl buf num : Z) (s : state) : state :=
  if negb (pid_matches target_pid t) then s
  else
    let a := mkSslArgs ssl buf in
    mkState (bpf_map_update_elem max_entries (map_room t) (pid_tgid t) a (stash s)) (events s).

Definition trace_ssl_read_exit (t : task) (ret : Z) (s : state) : state :=
  match stash s !! pid_tgid t with
  | None => s
  | Some a =>
      let s := mkState (delete (pid_tgid t) (stash s)) (events s) in
      if negb (pid_matches target_pid t) || (ret <=? 0) then s
      else
        match reserve t with
        | None => s
        | Some e =>
            let e := fill_common host t OP_SSL_READ e in
            let e := set fd (-1) e in
            let e := set ssl_ptr (ssl a) e in
            let e := set CStruct.ret ret e in
            let e := set total_len (uint32 ret) e in
            let e := capture host t ret (buf a) e in
            bpf_ringbuf_submit e s
        end
  end.

Inductive hit :=
| SSL_write (ssl buf num : Z)
| SSL_read (ssl buf num : Z)
| SSL_read_ret (ret : Z).

Definition handle (s : state) (th : task * hit) : state :=
  let (t, hit) := th in
  match hit with
  | SSL_write ssl buf num => trace_ssl_write t ssl buf num s
  | SSL_read ssl buf num => trace_ssl_read_enter t ssl buf num s
  | SSL_read_ret r => trace_ssl_read_exit t r s
  end.

Definition run (hits : list (task * hit)) : state := fold_left handle hits (mkState ∅ []).

(** The object file; a body on a call it is not attached to does nothing. *)
Definition programs : list (bytes * bytes * (task -> hit -> state -> state)) :=
  [(str "trace_ssl_write", str "uprobe/SSL_write",
    fun t h s => match h with SSL_write ssl buf num => trace_ssl_write t ssl buf num s | _ => s end);
   (str "trace_ssl_read_enter", str "uprobe/SSL_read",
    fun t h s => match h with SSL_read ssl buf num => trace_ssl_read_enter t ssl buf num s | _ => s end);
   (str "trace_ssl_read_exit", str "uretprobe/SSL_read",
    fun t h s => match h with SSL_read_ret r => trace_ssl_read_exit t r s | _ => s end)].

End Programs.
End Tls.

(** The function of a name in an object file. *)
Definition find_program {B} (name : bytes) (ps : list (bytes * bytes * B)) : option (bytes * B) :=
  match List.find (fun p => bool_decide (p.1.1 = name)) ps with
  | Some (_, section, body) => Some (section, body)
  | None => None
  end.
