(* ===== verification/BpfSpec.v ===== *)
(** * src/bpf: what the kernel programs report

    A specification of the records without maps and bytes in memory: an event
    per call of the traced process, a read's from its return and the last entry
    of the same thread.  The programs of Bpf implement it on a little-endian
    host (BpfRefine). *)

From S2P Require Import Prelude GoStd Event CStruct Bpf.
Local Open Scope Z_scope.
Local Open Scope go_scope.

(** ** Pairing entries with returns

    What a call does to the entry its thread has pending. *)

Inductive stash_op (V : Type) := Put (k : Z) (v : V) | Drop (k : Z) | Keep.
Arguments Put {V} k v.
Arguments Drop {V} k.
Arguments Keep {V}.

Section Pairing.
Context {H V : Type} (op : H -> stash_op V).

Definition pend (k : Z) (cur : option V) (h : H) : option V :=
  match op h with
  | Put k' v => if decide (k' = k) then Some v else cur
  | Drop k' => if decide (k' = k) then None else cur
  | Keep => cur
  end.

(** The entry of [k] that has not returned after [hist]. *)
Definition pending (k : Z) (hist : list H) : option V := fold_left (pend k) hist None.

(** The threads with an entry in [hist]. *)
Definition entered (hist : list H) : gset Z :=
  list_to_set (omap (fun h => match op h with Put k _ => Some k | _ => None end) hist).

(** The hash map holds the pending entries. *)
Definition pairs (m : gmap Z V) (hist : list H) : Prop := forall k, m !! k = pending k hist.

Lemma pending_snoc k hist h : pending k (hist ++ [h]) = pend k (pending k hist) h.
Proof. unfold pending. by rewrite fold_left_app. Qed.

Lemma entered_app hist1 hist2 : entered (hist1 ++ hist2) = entered hist1 ∪ entered hist2.
Proof. unfold entered. by rewrite omap_app, list_to_set_app_L. Qed.

Lemma pending_entered k hist : is_Some (pending k hist) -> k ∈ entered hist.
Proof.
  induction hist as [|h hist IH] using rev_ind; [by intros [? ?]|].
  rewrite pending_snoc, entered_app. unfold pend, entered at 2. simpl.
  destruct (op h); repeat case_decide; set_solver.
Qed.

Lemma pairs_nil : pairs ∅ [].
Proof. intros k. apply lookup_empty. Qed.

Lemma pairs_keep m hist h : pairs m hist -> op h = Keep -> pairs m (hist ++ [h]).
Proof. intros Hm Ho k. rewrite pending_snoc, Hm. unfold pend. by rewrite Ho. Qed.

Lemma pairs_drop m hist h k : pairs m hist -> op h = Drop k -> pairs (delete k m) (hist ++ [h]).
Proof.
  intros Hm Ho k'. rewrite pending_snoc. unfold pend. rewrite Ho, <-Hm.
  case_decide; subst; [apply lookup_delete_eq|by apply lookup_delete_ne].
Qed.

Lemma pairs_put m hist h k v : pairs m hist -> op h = Put k v -> pairs (<[k := v]> m) (hist ++ [h]).
Proof.
  intros Hm Ho k'. rewrite pending_snoc. unfold pend. rewrite Ho, <-Hm.
  case_decide; subst; [apply lookup_insert_eq|by apply lookup_insert_ne].
Qed.

(** As long as no more threads have entered than the map has room for, the map
    is never full for a new entry. *)
Lemma pairs_room m hist h rest k v n :
  pairs m hist -> op h = Put k v -> (size (entered (hist ++ h :: rest)) <= n)%nat ->
  bpf_map_update_elem n true k v m = <[k := v]> m.
Proof.
  intros Hm Ho Hn. unfold bpf_map_update_elem. simpl.
  case_bool_decide as Hk; [done|]. simpl.
  rewrite (proj2 (Nat.ltb_lt _ _)); [done|]. apply eq_None_not_Some in Hk.
  assert ({[k]} ∪ dom m ⊆ entered (hist ++ h :: rest)) as Hs.
  { intros k'. rewrite elem_of_union, elem_of_singleton, elem_of_dom, Hm, entered_app.
    change (h :: rest) with ([h] ++ rest). rewrite entered_app. unfold entered at 2. simpl.
    rewrite Ho. simpl. intros [->|Hp%pending_entered]; set_solver. }
  apply subseteq_size in Hs. rewrite size_union in Hs by (apply not_elem_of_dom in Hk; set_solver).
  rewrite size_singleton, size_dom in Hs. lia.
Qed.

(** A put was made by a call. *)
Lemma pending_put k hist v : pending k hist = Some v -> exists h, h ∈ hist /\ op h = Put k v.
Proof.
  induction hist as [|h hist IH] using rev_ind; [done|]. rewrite pending_snoc. unfold pend.
  destruct (op h) as [k' v'|k'|] eqn:E; repeat case_decide; subst; intros Hp; simplify_eq;
    try (apply IH in Hp as (h' & ? & ?); exists h'; set_solver).
  exists h. set_solver.
Qed.

End Pairing.

(** ** Specification of an event *)

(** An event with its payload as its only data: what lies beyond [DataLen] in
    the capture array is left over from earlier records. *)
Definition view (ev : Event) : Event :=
  let 'mkEvent p t ts n op r ssl ad po tl dl d := ev in
  mkEvent p t ts n op r ssl ad po tl dl (take (Z.to_nat dl) d).

(** The collector reads [e] out of the record. *)
Definition observed (raw : bytes) (e : Event) : Prop :=
  exists ev, decodeEvent raw = Ok ev /\ wf_event ev /\ view ev = e.

Section Spec.
Context `{UserMem}.

(** The captured bytes of a [count]-byte buffer: at most [DATA_CAP - 1] of them,
    none if they cannot be read. *)
Definition captured_bytes (t : task) (count buf : Z) : bytes :=
  default [] (user_read (mem t) buf (Z.to_nat (Z.min (uint32 count) (DATA_CAP - 1)))).

Definition call_event (t : task) (op fd ret ssl addr port total : Z) (payload : bytes) : Event :=
  mkEvent (Z.shiftr (pid_tgid t) 32) (uint32 (pid_tgid t)) (ktime t) fd op ret ssl addr port total
    (Z.of_nat (length payload)) payload.

(** An event that there is room for in the ring buffer. *)
Definition report (t : task) (e : Event) : list Event :=
  match reserve t with Some _ => [e] | None => [] end.

(** The address and port of a [struct sockaddr_in] in user memory. *)
Definition peer (t : task) (uservaddr : Z) : Z * Z :=
  match user_read (mem t) uservaddr 16 with
  | Some a => if decide (le_val (take 2 a) = 2) then
                (le_val (take 4 (drop 4 a)), int_val Big (take 2 (drop 2 a)))
              else (0, 0)
  | None => (0, 0)
  end.

(** What a call reports, from the calls before it. *)
Fixpoint reports {H} (report_call : list H -> H -> list Event) (hist calls : list H) : list Event :=
  match calls with
  | [] => []
  | h :: calls => report_call hist h ++ reports report_call (hist ++ [h]) calls
  end.

(** *** syscall.bpf.c *)

Definition syscall_op (target_pid : Z) (th : task * Syscall.hit) : stash_op Syscall.read_args :=
  let (t, hit) := th in
  if pid_matches target_pid t then
    match hit with
    | Syscall.sys_enter_read args =>
        if map_room t then
          Put (pid_tgid t) (Syscall.mkReadArgs (args 1%nat) (int32 (args 0%nat)))
        else Keep
    | Syscall.sys_exit_read _ => Drop (pid_tgid t)
    | _ => Keep
    end
  else Keep.

Definition syscall_report (target_pid : Z) (hist : list (task * Syscall.hit))
    (th : task * Syscall.hit) : list Event :=
  let (t, hit) := th in
  if pid_matches target_pid t then
    match hit with
    | Syscall.sys_enter_connect args =>
        let (addr, port) := peer t (args 1%nat) in
        report t (call_event t OP_CONNECT (int32 (args 0%nat)) 0 0 addr port 0 [])
    | Syscall.sys_enter_write args =>
        report t (call_event t OP_WRITE (int32 (args 0%nat)) 0 0 0 0 (uint32 (args 2%nat))
                    (captured_bytes t (args 2%nat) (args 1%nat)))
    | Syscall.sys_enter_read _ => []
    | Syscall.sys_exit_read r =>
        match pending (syscall_op target_pid) (pid_tgid t) hist with
        | Some a =>
            if decide (0 < r) then
              report t (call_event t OP_READ (Syscall.fd a) (int32 r) 0 0 0 (uint32 r)
                          (captured_bytes t r (Syscall.buf a)))
            else []
        | None => []
        end
    | Syscall.sys_enter_close args => report t (call_event t OP_CLOSE (int32 (args 0%nat)) 0 0 0 0 0 [])
    end
  else [].

(** *** tls.bpf.c *)

Definition tls_op (target_pid : Z) (th : task * Tls.hit) : stash_op Tls.ssl_read_args :=
  let (t, hit) := th in
  if pid_matches target_pid t then
    match hit with
    | Tls.SSL_write _ _ _ => Keep
    | Tls.SSL_read ssl buf _ =>
        if map_room t then Put (pid_tgid t) (Tls.mkSslArgs ssl buf) else Keep
    | Tls.SSL_read_ret _ => Drop (pid_tgid t)
    end
  else Keep.

Definition tls_report (target_pid : Z) (hist : list (task * Tls.hit)) (th : task * Tls.hit) :
    list Event :=
  let (t, hit) := th in
  if pid_matches target_pid t then
    match hit with
    | Tls.SSL_write ssl buf num =>
        report t (call_event t OP_SSL_WRITE (-1) 0 ssl 0 0 (uint32 num) (captured_bytes t num buf))
    | Tls.SSL_read _ _ _ => []
    | Tls.SSL_read_ret r =>
        match pending (tls_op target_pid) (pid_tgid t) hist with
        | Some a =>
            if decide (0 < r) then
              report t (call_event t OP_SSL_READ (-1) r (Tls.ssl a) 0 0 (uint32 r)
                          (captured_bytes t r (Tls.buf a)))
            else []
        | None => []
        end
    end
  else [].

End Spec.

(** The types of a probed call's arguments: [SSL*] a 64-bit pointer, [num] and
    the result [int]s. *)
Definition wf_tls_hit (hit : Tls.hit) : Prop :=
  match hit with
  | Tls.SSL_write ssl _ num | Tls.SSL_read ssl _ num => inU 64 ssl /\ inS 32 num
  | Tls.SSL_read_ret r => inS 32 r
  end.

(** ** Lemmas on records *)

Lemma capture_clamp count : capture_len count = Z.min (uint32 count) (DATA_CAP - 1).
Proof.
  unfold capture_len. pose proof (wrapU_range 32 count ltac:(lia)) as Hr.
  assert (forall n, 0 <= n <= DATA_CAP - 1 -> Z.land n (DATA_CAP - 1) = n) as Hland.
  { intros n Hn. change (DATA_CAP - 1) with (Z.ones 12) in *. rewrite Z.land_ones by lia.
    apply Z.mod_small. change (Z.ones 12) with 4095 in Hn. lia. }
  unfold inU, DATA_CAP in *. rewrite Z.gtb_ltb. cbv zeta.
  destruct (Z.ltb_spec (4096 - 1) (uint32 count)); rewrite Hland; lia.
Qed.

Lemma capture_len_bounds count : 0 <= capture_len count <= DATA_CAP - 1.
Proof.
  rewrite capture_clamp. pose proof (wrapU_range 32 count ltac:(lia)). unfold inU, DATA_CAP in *. lia.
Qed.

Section Records.
Context `{UserMem} (host : endian).

Lemma length_fill_common t op e :
  length e = sizeof_event -> length (fill_common host t op e) = sizeof_event.
Proof. intros. unfold fill_common. cbv zeta. by repeat apply length_set. Qed.

Lemma length_probe m dst n addr :
  (Z.to_nat n <= length dst)%nat -> length (bpf_probe_read_user m dst n addr).1 = length dst.
Proof.
  intros Hn. unfold bpf_probe_read_user. destruct (user_read m addr _) as [bs|] eqn:E; simpl;
    rewrite length_app, length_drop.
  - apply user_read_length in E. lia.
  - rewrite user_fault_length, length_take. lia.
Qed.

Lemma length_capture_dst t count buf e :
  length e = sizeof_event ->
  length (bpf_probe_read_user (mem t) (field_bytes data e) (capture_len count) buf).1 = fsize data.
Proof.
  intros He. rewrite length_probe; rewrite length_field_bytes by exact He; [done|].
  pose proof (capture_len_bounds count). unfold DATA_CAP in *.
  change (fsize data) with (Z.to_nat 4096). lia.
Qed.

Lemma length_capture t count buf e :
  length e = sizeof_event -> length (capture host t count buf e) = sizeof_event.
Proof.
  intros He. unfold capture. pose proof (length_capture_dst t count buf e He) as Hd.
  destruct (bpf_probe_read_user _ _ _ _) as [d []]; [apply length_set|]; by apply length_set_data.
Qed.

End Records.

(** The size of a record that went through stores. *)
Ltac record_size :=
  repeat first [apply length_set | apply length_capture | apply length_fill_common]; assumption.

(** A store in a little-endian record is an update of the event. *)
Ltac event_stores :=
  repeat rewrite event_set by first [record_size | discriminate];
  rewrite ?read_back_little by discriminate; cbn [bits].

Section Little.
Context `{UserMem}.

(** [fill_common] leaves nothing of the earlier record but its data. *)
Lemma event_fill_common t op e :
  wf_task t -> length e = sizeof_event -> inU 32 op ->
  event_of (fill_common Little t op e) =
  mkEvent (Z.shiftr (pid_tgid t) 32) (uint32 (pid_tgid t)) (ktime t) 0 op 0 0 0 0 0 0
    (field_bytes data e).
Proof.
  intros [Hp Hk _] He Ho. unfold fill_common.
  assert (inU 32 (Z.shiftr (pid_tgid t) 32)) as Hs.
  { unfold inU in *. rewrite Z.shiftr_div_pow2 by lia.
    split; [apply Z.div_pos; lia|apply Z.div_lt_upper_bound; lia]. }
  event_stores. unfold event_of. cbn [update].
  rewrite (wrapU_id _ (Z.shiftr _ _)), (wrapU_id _ (uint32 _)), (wrapU_id _ (ktime t)), (wrapU_id _ op)
    by first [eassumption | apply wrapU_range; discriminate]. reflexivity.
Qed.

(** [capture] adds the payload. *)
Lemma view_capture t count buf e :
  length e = sizeof_event -> DataLen (event_of e) = 0 ->
  view (event_of (capture Little t count buf e)) =
  let 'mkEvent p t' ts n op r ssl ad po tl dl d := event_of e in
  mkEvent p t' ts n op r ssl ad po tl
    (Z.of_nat (length (captured_bytes t count buf))) (captured_bytes t count buf).
Proof.
  intros He Hd. unfold capture, captured_bytes. rewrite <-capture_clamp.
  pose proof (length_capture_dst t count buf e He) as Hl. pose proof (capture_len_bounds count) as Hc.
  unfold bpf_probe_read_user in *. destruct (user_read _ _ _) as [bs|] eqn:E; cbn [fst] in Hl; cbv beta iota zeta.
  - apply user_read_length in E. rewrite event_set by first [by apply length_set_data | discriminate].
    rewrite event_set_data by done. rewrite read_back_little, wrapU_id
      by first [discriminate | cbn [bits]; unfold inU, DATA_CAP in *; lia].
    unfold event_of. cbn [update view]. rewrite take_app_length' by lia.
    change (default [] (Some bs)) with bs. f_equal. lia.
  - rewrite event_set_data by done. destruct (event_of e). simpl in *. by subst.
Qed.

Lemma observed_intro e ev :
  length e = sizeof_event -> view (event_of e) = ev -> observed e ev.
Proof. intros He <-. destruct (decodeEvent_of e He) as [Hd Hw]. exists (event_of e). split; [exact Hd|split; [exact Hw|reflexivity]]. Qed.

End Little.

(** ** The records of the programs *)

(** The event in a record built by stores after [fill_common]. *)
Ltac event_of_stores Ht He :=
  event_stores; rewrite (event_fill_common _ _ _ Ht He) by (split; vm_compute; congruence);
  cbn [update view]; rewrite ?wrapS_wrapU by first [assumption | apply wrapS_range; lia | lia];
  rewrite ?wrapU_idem by lia;
  repeat match goal with Hz : inU ?w ?z |- context [wrapU ?w ?z] => rewrite (wrapU_id w z Hz) end;
  reflexivity.

Section Observed.
Context `{UserMem} (t : task) (e : bytes) (Ht : wf_task t) (He : length e = sizeof_event).

Lemma observed_close n :
  observed (set Little fd (int32 n) (fill_common Little t OP_CLOSE e))
    (call_event t OP_CLOSE (int32 n) 0 0 0 0 0 []).
Proof using Ht He. apply observed_intro; [record_size|]. event_of_stores Ht He. Qed.

Lemma observed_write n count buf :
  observed (capture Little t count buf
              (set Little total_len (uint32 count)
                 (set Little fd (int32 n) (fill_common Little t OP_WRITE e))))
    (call_event t OP_WRITE (int32 n) 0 0 0 0 (uint32 count) (captured_bytes t count buf)).
Proof using Ht He.
  apply observed_intro; [record_size|]. rewrite view_capture by first [record_size | event_of_stores Ht He].
  event_of_stores Ht He.
Qed.

Lemma observed_read n r buf :
  inS 32 n ->
  observed (capture Little t r buf
              (set Little total_len (uint32 r) (set Little ret (int32 r)
                 (set Little fd n (fill_common Little t OP_READ e)))))
    (call_event t OP_READ n (int32 r) 0 0 0 (uint32 r) (captured_bytes t r buf)).
Proof using Ht He.
  intros Hn. apply observed_intro; [record_size|].
  rewrite view_capture by first [record_size | event_of_stores Ht He]. event_of_stores Ht He.
Qed.

Lemma observed_ssl_write ssl num buf :
  inU 64 ssl ->
  observed (capture Little t num buf
              (set Little total_len (uint32 num) (set Little ssl_ptr ssl
                 (set Little fd (-1) (fill_common Little t OP_SSL_WRITE e)))))
    (call_event t OP_SSL_WRITE (-1) 0 ssl 0 0 (uint32 num) (captured_bytes t num buf)).
Proof using Ht He.
  intros Hs. assert (inS 32 (-1)) by (unfold inS; lia). apply observed_intro; [record_size|].
  rewrite view_capture by first [record_size | event_of_stores Ht He]. event_of_stores Ht He.
Qed.

Lemma observed_ssl_read ssl r buf :
  inU 64 ssl -> inS 32 r ->
  observed (capture Little t r buf
              (set Little total_len (uint32 r) (set Little ret r (set Little ssl_ptr ssl
                 (set Little fd (-1) (fill_common Little t OP_SSL_READ e))))))
    (call_event t OP_SSL_READ (-1) r ssl 0 0 (uint32 r) (captured_bytes t r buf)).
Proof using Ht He.
  intros Hs Hr. assert (inS 32 (-1)) by (unfold inS; lia). apply observed_intro; [record_size|].
  rewrite view_capture by first [record_size | event_of_stores Ht He]. event_of_stores Ht He.
Qed.

Lemma observed_connect n uservaddr :
  let e := set Little fd (int32 n) (fill_common Little t OP_CONNECT e) in
  let (addr, ok) := bpf_probe_read_user (mem t) (replicate Syscall.sizeof_sockaddr_in Byte.x00)
                      (Z.of_nat Syscall.sizeof_sockaddr_in) uservaddr in
  let (a, p) := peer t uservaddr in
  observed
    (if ok && (Syscall.sin_family Little addr =? Syscall.AF_INET) then
       set Little remote_port (bpf_ntohs Little (Syscall.sin_port Little addr))
         (set Little remote_addr (Syscall.s_addr Little addr) e)
     else e)
    (call_event t OP_CONNECT (int32 n) 0 0 a p 0 []).
Proof using Ht He.
  cbv zeta. unfold bpf_probe_read_user, peer. rewrite Nat2Z.id.
  change Syscall.sizeof_sockaddr_in with 16%nat. destruct (user_read _ _ 16) as [a|] eqn:E.
  2:{ cbn [andb]. cbv iota. apply observed_intro; [record_size|]. event_of_stores Ht He. }
  apply user_read_length in E. rewrite drop_replicate, app_nil_r. cbn [andb].

  unfold Syscall.sin_family, Syscall.s_addr, Syscall.sin_port, bpf_ntohs, Syscall.AF_INET. cbn [int_val].
  assert (inU 32 (le_val (take 4 (drop 4 a)))) as Ha.
  { pose proof (le_val_range (take 4 (drop 4 a))) as Hr.
    rewrite length_take, length_drop, E in Hr. exact Hr. }
  assert (le_val (rev (le_bytes 2 (le_val (take 2 (drop 2 a))))) = le_val (rev (take 2 (drop 2 a))) /\
          inU 16 (le_val (rev (take 2 (drop 2 a))))) as [-> Hp].
  { split.
    - do 2 f_equal. replace 2%nat with (length (take 2 (drop 2 a))) at 1
        by (rewrite length_take, length_drop; lia). apply le_bytes_val.
    - pose proof (le_val_range (rev (take 2 (drop 2 a)))) as Hr.
      rewrite length_rev, length_take, length_drop, E in Hr. exact Hr. }
  destruct (Z.eqb_spec (le_val (take 2 a)) 2); [rewrite decide_True by done|rewrite decide_False by done];
    cbv iota; (apply observed_intro; [record_size|event_of_stores Ht He]).
Qed.

End Observed.
