(* ===== verification/BpfRefine.v ===== *)
(** * src/bpf: the programs implement the specification

    Each program takes its state one step along the specification of BpfSpec;
    the theorems on whole runs. *)

From S2P Require Import Prelude GoStd Event CStruct Bpf BpfSpec.
Local Open Scope Z_scope.
Local Open Scope go_scope.

(** ** Lemmas on programs *)

Section Programs.
Context {H V : Type} (handle : prog_state V -> H -> prog_state V) (op : H -> stash_op V)
  (report_call : list H -> H -> list Event).

(** A call takes the state one step along the specification. *)
Definition implements (hist : list H) (h : H) (s : prog_state V) : Prop :=
  exists raws, events (handle s h) = events s ++ raws /\
    Forall2 observed raws (report_call hist h) /\ pairs op (stash (handle s h)) (hist ++ [h]).

Lemma implements_run calls :
  (forall hist h rest s, calls = hist ++ h :: rest -> pairs op (stash s) hist -> implements hist h s) ->
  Forall2 observed (events (fold_left handle calls (mkState ∅ []))) (reports report_call [] calls).
Proof.
  intros Hstep.
  assert (forall rest hist s acc, calls = hist ++ rest -> pairs op (stash s) hist ->
    Forall2 observed (events s) acc ->
    Forall2 observed (events (fold_left handle rest s)) (acc ++ reports report_call hist rest)) as Hgen.
  { induction rest as [|h rest IH]; intros hist s acc Heq Hp Ha; simpl; [by rewrite app_nil_r|].
    destruct (Hstep hist h rest s Heq Hp) as (raws & He & Ho & Hp').
    rewrite app_assoc. apply IH; [by rewrite <-app_assoc|done|]. rewrite He. by apply Forall2_app. }
  apply (Hgen calls [] (mkState ∅ []) []); [done|apply pairs_nil|constructor].
Qed.

End Programs.

(** A call that reports at most one event and leaves the map as it should. *)
Lemma implements_step {H V} (handle : prog_state V -> H -> prog_state V) op report_call hist h s m raws :
  handle s h = mkState m (events s ++ raws) -> Forall2 observed raws (report_call hist h) ->
  pairs op m (hist ++ [h]) -> implements handle op report_call hist h s.
Proof. intros He Ho Hp. exists raws. by rewrite He. Qed.

Lemma state_same {V} (s : prog_state V) : s = mkState (stash s) (events s ++ []).
Proof. rewrite app_nil_r. by destruct s. Qed.

(** Rewrite with the answers of the helpers known so far. *)
Ltac answers :=
  repeat match goal with
  | E : pid_matches _ _ = _ |- _ => rewrite E
  | E : reserve _ = _ |- _ => rewrite E
  | E : map_room _ = _ |- _ => rewrite E
  | E : bpf_probe_read_user _ _ _ _ = _ |- _ => rewrite E
  | E : peer _ _ = _ |- _ => rewrite E
  | E : stash _ !! _ = _ |- _ => rewrite E
  | E : pending _ _ _ = _ |- _ => rewrite E
  end; cbn [negb andb orb].

(** A step that submits [raws] and leaves the map alone; the three parts of its
    simulation by evaluation. *)
Ltac eval_call :=
  cbn [Syscall.handle Tls.handle];
  unfold Syscall.trace_enter_connect, Syscall.trace_enter_write, Syscall.trace_enter_read,
    Syscall.trace_exit_read, Syscall.trace_enter_close, Tls.trace_ssl_write,
    Tls.trace_ssl_read_enter, Tls.trace_ssl_read_exit; answers.
Ltac eval_report :=
  cbn [syscall_report tls_report]; answers; unfold report; answers.
Ltac eval_op := cbn [syscall_op tls_op]; answers; reflexivity.

Ltac silent Hp :=
  eapply (implements_step _ _ _ _ _ _ _ []);
  [eval_call; apply state_same|eval_report; constructor|apply pairs_keep; [exact Hp|eval_op]].
Ltac submits Hp Ho :=
  eapply (implements_step _ _ _ _ _ _ _ [_]);
  [eval_call; reflexivity|eval_report; constructor; [exact Ho|constructor]|
   apply pairs_keep; [exact Hp|eval_op]].

Section Steps.
Context `{UserMem} (target_pid : Z).

Abbreviation syscall_implements := (implements (Syscall.handle Little target_pid)
  (syscall_op target_pid) (syscall_report target_pid)).

Lemma syscall_ignored hist t hit s :
  pid_matches target_pid t = false -> pairs (syscall_op target_pid) (stash s) hist ->
  syscall_implements hist (t, hit) s.
Proof. intros Em Hp. destruct hit; silent Hp. Qed.

Lemma syscall_single hist t hit s :
  wf_task t -> pid_matches target_pid t = true -> pairs (syscall_op target_pid) (stash s) hist ->
  match hit with
  | Syscall.sys_enter_read _ | Syscall.sys_exit_read _ => True
  | _ => syscall_implements hist (t, hit) s
  end.
Proof.
  intros Ht Em Hp. pose proof (wf_reserve t Ht) as He.
  destruct hit as [args|args|args|r|args]; [..|done|done|];
    (destruct (reserve t) as [e|] eqn:Er; [specialize (He e eq_refl)|]).
  - pose proof (observed_connect t e Ht He (args 0%nat) (args 1%nat)) as Ho. cbv zeta in Ho.
    destruct (bpf_probe_read_user _ _ _ _) as [addr ok] eqn:Ea, (peer _ _) as [a p] eqn:Epr.
    submits Hp Ho.
  - destruct (peer t (args 1%nat)) as [a p] eqn:Epr. 
    destruct (bpf_probe_read_user (mem t) (replicate Syscall.sizeof_sockaddr_in Byte.x00)
      (Z.of_nat Syscall.sizeof_sockaddr_in) (args 1%nat)) eqn:Ea. silent Hp.
  - submits Hp (observed_write t e Ht He (args 0%nat) (args 2%nat) (args 1%nat)).
  - silent Hp.
  - submits Hp (observed_close t e Ht He (args 0%nat)).
  - silent Hp.
Qed.

Lemma syscall_enter hist t args rest s :
  pid_matches target_pid t = true ->
  (size (entered (syscall_op target_pid) (hist ++ (t, Syscall.sys_enter_read args) :: rest)) <=
    Syscall.max_entries)%nat ->
  pairs (syscall_op target_pid) (stash s) hist ->
  syscall_implements hist (t, Syscall.sys_enter_read args) s.
Proof.
  intros Em Hn Hp. destruct (map_room t) eqn:Eroom.
  - assert (syscall_op target_pid (t, Syscall.sys_enter_read args) =
      Put (pid_tgid t) (Syscall.mkReadArgs (args 1%nat) (int32 (args 0%nat)))) as Hop by eval_op.
    eapply (implements_step _ _ _ _ _ _ _ []);
      [eval_call; by rewrite app_nil_r|eval_report; constructor|].
    rewrite (pairs_room _ _ _ _ _ _ _ _ Hp Hop Hn). by apply pairs_put.
  - eapply (implements_step _ _ _ _ _ _ _ []); [|eval_report; constructor|apply pairs_keep; [exact Hp|eval_op]].
    eval_call. by rewrite app_nil_r.
Qed.

Lemma pending_fd k hist a : pending (syscall_op target_pid) k hist = Some a -> inS 32 (Syscall.fd a).
Proof.
  intros ([t hit] & _ & Hop)%pending_put. unfold syscall_op in Hop.
  repeat case_match; simplify_eq; apply wrapS_range; lia.
Qed.

Lemma syscall_exit hist t r s :
  wf_task t -> pid_matches target_pid t = true -> pairs (syscall_op target_pid) (stash s) hist ->
  syscall_implements hist (t, Syscall.sys_exit_read r) s.
Proof.
  intros Ht Em Hp. pose proof (wf_reserve t Ht) as He.
  destruct (stash s !! pid_tgid t) as [a|] eqn:Es; pose proof Es as Epd; rewrite Hp in Epd.
  2:{ eapply (implements_step _ _ _ _ _ _ _ []); [eval_call; apply state_same|eval_report; constructor|].
      rewrite <-(delete_id _ _ Es). apply pairs_drop; [exact Hp|eval_op]. }
  assert (pairs (syscall_op target_pid) (delete (pid_tgid t) (stash s))
            (hist ++ [(t, Syscall.sys_exit_read r)])) as Hdel by (apply pairs_drop; [exact Hp|eval_op]).
  destruct (Z.leb_spec r 0) as [Hr|Hr]; pose proof Hr as Hrb; [apply Z.leb_le in Hrb|apply Z.leb_gt in Hrb].
  { eapply (implements_step _ _ _ _ _ _ _ []); [eval_call; rewrite Hrb; by rewrite app_nil_r| |exact Hdel].
    eval_report. rewrite decide_False by lia. constructor. }
  destruct (reserve t) as [e|] eqn:Er; [specialize (He e eq_refl)|].
  - eapply (implements_step _ _ _ _ _ _ _ [_]); [eval_call; rewrite Hrb; reflexivity| |exact Hdel].
    eval_report. rewrite decide_True by lia.
    constructor; [apply (observed_read t e Ht He), (pending_fd _ _ _ Epd)|constructor].
  - eapply (implements_step _ _ _ _ _ _ _ []); [eval_call; rewrite Hrb; by rewrite app_nil_r| |exact Hdel].
    eval_report. by rewrite decide_True by lia.
Qed.

Abbreviation tls_implements := (implements (Tls.handle Little target_pid)
  (tls_op target_pid) (tls_report target_pid)).

(** Only the traced process has entries: the return program may look one up
    before it checks the process. *)
Lemma tls_pending_put k hist a :
  Forall (fun th => wf_tls_hit th.2) hist -> pending (tls_op target_pid) k hist = Some a ->
  inU 64 (Tls.ssl a) /\ exists t, pid_tgid t = k /\ pid_matches target_pid t = true.
Proof.
  intros Hwf ([t hit] & Hin & Hop)%pending_put. rewrite Forall_forall in Hwf.
  apply Hwf in Hin. unfold tls_op in Hop. repeat case_match; simplify_eq. simpl in Hin. naive_solver.
Qed.

Lemma tls_ignored hist t hit s :
  Forall (fun th => wf_tls_hit th.2) hist -> pid_matches target_pid t = false ->
  pairs (tls_op target_pid) (stash s) hist -> tls_implements hist (t, hit) s.
Proof.
  intros Hwf Em Hp. destruct hit; [silent Hp..|].
  destruct (stash s !! pid_tgid t) as [a|] eqn:Es; [|silent Hp].
  rewrite Hp in Es. apply tls_pending_put in Es as (_ & t' & Ht & Hm); [|done].
  unfold pid_matches in Em, Hm. by rewrite Ht, Em in Hm.
Qed.

Lemma tls_write hist t ssl buf num s :
  wf_task t -> inU 64 ssl -> pid_matches target_pid t = true ->
  pairs (tls_op target_pid) (stash s) hist -> tls_implements hist (t, Tls.SSL_write ssl buf num) s.
Proof.
  intros Ht Hs Em Hp. pose proof (wf_reserve t Ht) as He.
  destruct (reserve t) as [e|] eqn:Er; [specialize (He e eq_refl)|silent Hp].
  submits Hp (observed_ssl_write t e Ht He ssl num buf Hs).
Qed.

Lemma tls_enter hist t ssl buf num rest s :
  pid_matches target_pid t = true ->
  (size (entered (tls_op target_pid) (hist ++ (t, Tls.SSL_read ssl buf num) :: rest)) <=
    Tls.max_entries)%nat ->
  pairs (tls_op target_pid) (stash s) hist -> tls_implements hist (t, Tls.SSL_read ssl buf num) s.
Proof.
  intros Em Hn Hp. destruct (map_room t) eqn:Eroom.
  - assert (tls_op target_pid (t, Tls.SSL_read ssl buf num) =
      Put (pid_tgid t) (Tls.mkSslArgs ssl buf)) as Hop by eval_op.
    eapply (implements_step _ _ _ _ _ _ _ []);
      [eval_call; by rewrite app_nil_r|eval_report; constructor|].
    rewrite (pairs_room _ _ _ _ _ _ _ _ Hp Hop Hn). by apply pairs_put.
  - eapply (implements_step _ _ _ _ _ _ _ []); [|eval_report; constructor|apply pairs_keep; [exact Hp|eval_op]].
    eval_call. by rewrite app_nil_r.
Qed.

Lemma tls_exit hist t r s :
  wf_task t -> inS 32 r -> Forall (fun th => wf_tls_hit th.2) hist ->
  pid_matches target_pid t = true -> pairs (tls_op target_pid) (stash s) hist ->
  tls_implements hist (t, Tls.SSL_read_ret r) s.
Proof.
  intros Ht Hr32 Hwf Em Hp. pose proof (wf_reserve t Ht) as He.
  destruct (stash s !! pid_tgid t) as [a|] eqn:Es; pose proof Es as Epd; rewrite Hp in Epd.
  2:{ eapply (implements_step _ _ _ _ _ _ _ []); [eval_call; apply state_same|eval_report; constructor|].
      rewrite <-(delete_id _ _ Es). apply pairs_drop; [exact Hp|eval_op]. }
  assert (pairs (tls_op target_pid) (delete (pid_tgid t) (stash s))
            (hist ++ [(t, Tls.SSL_read_ret r)])) as Hdel by (apply pairs_drop; [exact Hp|eval_op]).
  destruct (Z.leb_spec r 0) as [Hr|Hr]; pose proof Hr as Hrb; [apply Z.leb_le in Hrb|apply Z.leb_gt in Hrb].
  { eapply (implements_step _ _ _ _ _ _ _ []); [eval_call; rewrite Hrb; by rewrite app_nil_r| |exact Hdel].
    eval_report. rewrite decide_False by lia. constructor. }
  destruct (reserve t) as [e|] eqn:Er; [specialize (He e eq_refl)|].
  - eapply (implements_step _ _ _ _ _ _ _ [_]); [eval_call; rewrite Hrb; reflexivity| |exact Hdel].
    eval_report. rewrite decide_True by lia. destruct (tls_pending_put _ _ _ Hwf Epd) as [Hssl _].
    constructor; [by apply (observed_ssl_read t e Ht He)|constructor].
  - eapply (implements_step _ _ _ _ _ _ _ []); [eval_call; rewrite Hrb; by rewrite app_nil_r| |exact Hdel].
    eval_report. by rewrite decide_True by lia.
Qed.

End Steps.

(** ** Safety, however full the maps *)

(** What holds of every record a program submits. *)
Definition sound (target_pid : Z) (raw : bytes) : Prop :=
  exists ev, decodeEvent raw = Ok ev /\ wf_event ev /\
    PID ev = target_pid /\ target_pid <> 0 /\ DataLen ev <= DATA_CAP - 1.

Section Safety.
Context `{UserMem} (target_pid : Z).

Lemma matches_pid t : wf_task t -> pid_matches target_pid t = true ->
  Z.shiftr (pid_tgid t) 32 = target_pid /\ target_pid <> 0.
Proof.
  intros [Hp _ _] Hm. unfold pid_matches in Hm.
  apply andb_true_iff in Hm as [H1%negb_true_iff%Z.eqb_neq H2%Z.eqb_eq]. split; [|done].
  rewrite <-H2, wrapU_id; [done|]. unfold inU in *. rewrite Z.shiftr_div_pow2 by lia.
  split; [apply Z.div_pos; lia|apply Z.div_lt_upper_bound; lia].
Qed.

Lemma length_captured t count buf : Z.of_nat (length (captured_bytes t count buf)) <= DATA_CAP - 1.
Proof.
  unfold captured_bytes. pose proof (wrapU_range 32 count ltac:(lia)) as Hw. unfold inU in Hw.
  destruct (user_read _ _ _) as [bs|] eqn:E; simpl; [|done].
  apply user_read_length in E. unfold DATA_CAP in *. lia.
Qed.

Lemma observed_sound t raw op fd ret ssl addr port total payload :
  wf_task t -> pid_matches target_pid t = true ->
  observed raw (call_event t op fd ret ssl addr port total payload) ->
  Z.of_nat (length payload) <= DATA_CAP - 1 -> sound target_pid raw.
Proof.
  intros Ht Hm (ev & Hd & Hw & Hv) Hl. destruct (matches_pid t Ht Hm) as [Hp Hn].
  assert (PID (view ev) = PID ev /\ DataLen (view ev) = DataLen ev) as [E1 E2] by by destruct ev.
  rewrite Hv in E1, E2. simpl in E1, E2. exists ev. split_and!; [exact Hd|exact Hw|lia|exact Hn|lia].
Qed.

Lemma sound_submit raws raw :
  Forall (sound target_pid) raws -> sound target_pid raw -> Forall (sound target_pid) (raws ++ [raw]).
Proof. intros. apply Forall_app. by split; [|constructor]. Qed.

Lemma update_Forall {V} (P : V -> Prop) n room k v (m : gmap Z V) :
  map_Forall (fun _ => P) m -> P v -> map_Forall (fun _ => P) (bpf_map_update_elem n room k v m).
Proof. intros Hm Hv. unfold bpf_map_update_elem. case_match; [by apply map_Forall_insert_2|done]. Qed.

Definition syscall_safe (s : prog_state Syscall.read_args) : Prop :=
  Forall (sound target_pid) (events s) /\ map_Forall (fun _ a => inS 32 (Syscall.fd a)) (stash s).
Definition tls_safe (s : prog_state Tls.ssl_read_args) : Prop :=
  Forall (sound target_pid) (events s) /\ map_Forall (fun _ a => inU 64 (Tls.ssl a)) (stash s).

Lemma syscall_handle_safe s t hit :
  wf_task t -> syscall_safe s -> syscall_safe (Syscall.handle Little target_pid s (t, hit)).
Proof.
  intros Ht [He Hs]. destruct (pid_matches target_pid t) eqn:Em; [|by destruct hit; eval_call; split].
  pose proof (wf_reserve t Ht) as Hr. destruct s as [m evs]. simpl in He, Hs.
  destruct hit as [args|args|args|r|args]; eval_call; cbn [stash events].
  - destruct (reserve t) as [e|]; [|done]. specialize (Hr e eq_refl).
    pose proof (observed_connect t e Ht Hr (args 0%nat) (args 1%nat)) as Ho. cbv zeta in Ho.
    destruct (bpf_probe_read_user _ _ _ _), (peer _ _). split; [|done].
    apply sound_submit; [done|]. by eapply observed_sound.
  - destruct (reserve t) as [e|]; [|done]. specialize (Hr e eq_refl). split; [|done].
    apply sound_submit; [done|].
    eapply observed_sound; [done..|by apply observed_write|apply length_captured].
  - split; [done|]. apply update_Forall; [done|]. apply wrapS_range. lia.
  - destruct (m !! pid_tgid t) as [a|] eqn:Ea; [|done].
    assert (inS 32 (Syscall.fd a)) as Hf by (by apply (Hs _ _ Ea)).
    assert (map_Forall (fun _ a => inS 32 (Syscall.fd a)) (delete (pid_tgid t) m)) as Hdel
      by (by apply map_Forall_delete).
    destruct (r <=? 0); [done|]. destruct (reserve t) as [e|]; [|done]. specialize (Hr e eq_refl).
    split; [|done]. apply sound_submit; [done|].
    eapply observed_sound; [done..|by apply observed_read|apply length_captured].
  - destruct (reserve t) as [e|]; [|done]. specialize (Hr e eq_refl). split; [|done].
    apply sound_submit; [done|]. eapply observed_sound; [done..|by apply observed_close|done].
Qed.

Lemma tls_handle_safe s t hit :
  wf_task t -> wf_tls_hit hit -> tls_safe s -> tls_safe (Tls.handle Little target_pid s (t, hit)).
Proof.
  intros Ht Hh [He Hs]. pose proof (wf_reserve t Ht) as Hr. destruct s as [m evs]. simpl in He, Hs.
  destruct hit as [ssl buf num|ssl buf num|r]; simpl in Hh; eval_call; cbn [stash events].
  - destruct (pid_matches target_pid t) eqn:Em; [simpl|done].
    destruct (reserve t) as [e|]; [|done]. specialize (Hr e eq_refl). split; [|done].
    apply sound_submit; [done|].
    eapply observed_sound; [done..|by apply observed_ssl_write; destruct Hh|apply length_captured].
  - destruct (pid_matches target_pid t) eqn:Em; [simpl|done].
    split; [done|]. apply update_Forall; [done|]. by destruct Hh.
  - destruct (m !! pid_tgid t) as [a|] eqn:Ea; [|done].
    assert (inU 64 (Tls.ssl a)) as Hf by (by apply (Hs _ _ Ea)).
    assert (map_Forall (fun _ a => inU 64 (Tls.ssl a)) (delete (pid_tgid t) m)) as Hdel
      by (by apply map_Forall_delete).
    destruct (pid_matches target_pid t) eqn:Em, (r <=? 0); simpl; try done.
    destruct (reserve t) as [e|]; [|done]. specialize (Hr e eq_refl).
    split; [|done]. apply sound_submit; [done|].
    eapply observed_sound; [done..|by apply observed_ssl_read|apply length_captured].
Qed.

Lemma syscall_run_safe hits :
  Forall (fun th => wf_task th.1) hits -> syscall_safe (Syscall.run Little target_pid hits).
Proof.
  intros Hw. unfold Syscall.run. assert (syscall_safe (mkState ∅ [])) as Hs by (by split; [constructor|]).
  revert Hs. generalize (mkState (∅ : gmap Z Syscall.read_args) []).
  induction Hw as [|[t hit] hits Ht _ IH]; intros s Hs; [done|]. simpl. by apply IH, syscall_handle_safe.
Qed.

Lemma tls_run_safe hits :
  Forall (fun th => wf_task th.1 /\ wf_tls_hit th.2) hits -> tls_safe (Tls.run Little target_pid hits).
Proof.
  intros Hw. unfold Tls.run. assert (tls_safe (mkState ∅ [])) as Hs by (by split; [constructor|]).
  revert Hs. generalize (mkState (∅ : gmap Z Tls.ssl_read_args) []).
  induction Hw as [|[t hit] hits [Ht Hh] _ IH]; intros s Hs; [done|]. simpl. by apply IH, tls_handle_safe.
Qed.

End Safety.

Section Runs.
Context `{UserMem} (target_pid : Z).

Lemma syscall_observed hits :
  Forall (fun th => wf_task th.1) hits ->
  (size (entered (syscall_op target_pid) hits) <= Syscall.max_entries)%nat ->
  Forall2 observed (events (Syscall.run Little target_pid hits))
    (reports (syscall_report target_pid) [] hits).
Proof.
  intros Hwf Hn. apply (implements_run _ (syscall_op target_pid)).
  intros hist [t hit] rest s -> Hp. rewrite Forall_app, Forall_cons in Hwf.
  destruct Hwf as (_ & Ht & _). simpl in Ht.
  destruct (pid_matches target_pid t) eqn:Em; [|by apply syscall_ignored].
  pose proof (syscall_single target_pid hist t hit s Ht Em Hp) as Hs.
  destruct hit; try exact Hs; [by eapply syscall_enter|by apply syscall_exit].
Qed.

Lemma tls_observed hits :
  Forall (fun th => wf_task th.1 /\ wf_tls_hit th.2) hits ->
  (size (entered (tls_op target_pid) hits) <= Tls.max_entries)%nat ->
  Forall2 observed (events (Tls.run Little target_pid hits)) (reports (tls_report target_pid) [] hits).
Proof.
  intros Hwf Hn. apply (implements_run _ (tls_op target_pid)).
  intros hist [t hit] rest s -> Hp. rewrite Forall_app, Forall_cons in Hwf.
  destruct Hwf as (Hh & [Ht Hhit] & _). simpl in Ht, Hhit.
  assert (Forall (fun th => wf_tls_hit th.2) hist) by (eapply Forall_impl; [exact Hh|naive_solver]).
  destruct (pid_matches target_pid t) eqn:Em; [|by apply tls_ignored].
  destruct hit; simpl in Hhit; [apply tls_write|eapply tls_enter|apply tls_exit]; naive_solver.
Qed.

End Runs.

(** ** Theorems *)

Section Theorems.
Context `{UserMem} (target_pid : Z).

(** [C3] The kernel programs implement their specification: on a little-endian host,
    whatever the ring buffer's memory holds and whichever reservations fail, as
    long as no more threads of the process enter [read] and [SSL_read] than the
    maps have entries, the records of each object decode, one to one and in
    order, to the events its specification reports for the sequence of calls; a
    read's event has the descriptor (or [SSL*]) and the buffer of the same
    thread's last entry. *)
Theorem programs_refine calls ssl_calls :
  Forall (fun th => wf_task th.1) calls ->
  Forall (fun th => wf_task th.1 /\ wf_tls_hit th.2) ssl_calls ->
  (size (entered (syscall_op target_pid) calls) <= Syscall.max_entries)%nat ->
  (size (entered (tls_op target_pid) ssl_calls) <= Tls.max_entries)%nat ->
  Forall2 observed (events (Syscall.run Little target_pid calls))
    (reports (syscall_report target_pid) [] calls) /\
  Forall2 observed (events (Tls.run Little target_pid ssl_calls))
    (reports (tls_report target_pid) [] ssl_calls).
Proof. split; [by apply syscall_observed|by apply tls_observed]. Qed.

(** [C15] Whatever the calls and however full the maps and the ring buffer, every
    record either object submits decodes to an event of the traced process with
    at most [DATA_CAP - 1] captured bytes, so that [Payload] never panics; while
    [target_pid] is 0 nothing is submitted. *)
Theorem records_sound hits ssl_hits :
  Forall (fun th => wf_task th.1) hits ->
  Forall (fun th => wf_task th.1 /\ wf_tls_hit th.2) ssl_hits ->
  Forall (fun raw => target_pid <> 0 /\
            exists ev p, decodeEvent raw = Ok ev /\ wf_event ev /\ PID ev = target_pid /\
              Payload ev = Ok p /\ Z.of_nat (length p) <= DATA_CAP - 1)
    (events (Syscall.run Little target_pid hits) ++ events (Tls.run Little target_pid ssl_hits)).
Proof.
  intros Hs Ht. apply syscall_run_safe with (target_pid := target_pid) in Hs as [Hs _].
  apply tls_run_safe with (target_pid := target_pid) in Ht as [Ht _].
  eapply Forall_impl; [apply Forall_app; split; eassumption|]. intros raw (ev & Hd & Hw & Hp & Hn & Hl). split; [done|].
  assert (DATA_CAP = dataCap) by done.
  exists ev, (take (Z.to_nat (DataLen ev)) (Data ev)). split_and!; [done..| |].
  - unfold Payload. by rewrite (proj2 (Z.leb_le _ _)) by lia.
  - rewrite length_take. pose proof (wf_DataLen _ Hw) as H1. unfold inU in H1. lia.
Qed.

(** The clamp and the mask together are the minimum of the buffer's length and
    [DATA_CAP - 1]: the mask, there for the verifier, never changes the clamped
    length; and the whole buffer is captured exactly when it is shorter than
    [DATA_CAP]. *)
Theorem capture_len_min count :
  inU 64 count ->
  capture_len count = Z.min (count mod 2 ^ 32) 4095 /\
  (count < 2 ^ 32 -> capture_len count = count <-> count < DATA_CAP).
Proof.
  intros Hc. rewrite capture_clamp. split; [done|]. intros H32.
  rewrite wrapU_id by (unfold inU in *; lia). unfold DATA_CAP. lia.
Qed.

(** [C33] [connect] on an IPv4 socket is reported with the address in dotted form and
    the port in host order, as the application gave them in network order. *)
Theorem connect_address t args s e p1 p0 a b c d zero :
  wf_task t -> pid_matches target_pid t = true -> reserve t = Some e ->
  user_read (mem t) (args 1%nat) 16 = Some ([Byte.x02; Byte.x00; p1; p0; a; b; c; d] ++ zero) ->
  exists raw ev, events (Syscall.trace_enter_connect Little target_pid t args s) = events s ++ [raw] /\
    decodeEvent raw = Ok ev /\
    RemoteAddrString ev =
      Itoa (bval a) ++ str "." ++ Itoa (bval b) ++ str "." ++ Itoa (bval c) ++ str "." ++
      Itoa (bval d) ++ str ":" ++ Itoa (256 * bval p1 + bval p0).
Proof.
  intros Ht Em Er Hread. pose proof (wf_reserve t Ht e Er) as He.
  pose proof (observed_connect t e Ht He (args 0%nat) (args 1%nat)) as Ho. cbv zeta in Ho.
  unfold Syscall.trace_enter_connect. answers. cbv zeta.
  destruct (bpf_probe_read_user _ _ _ _) as [addr ok].
  unfold peer in Ho. rewrite Hread in Ho. cbn [app take drop] in Ho.
  rewrite decide_True in Ho by done. destruct Ho as (ev & Hd & _ & Hv).
  eexists _, ev. split; [reflexivity|]. split; [exact Hd|].
  assert (RemoteAddr (view ev) = RemoteAddr ev /\ RemotePort (view ev) = RemotePort ev) as [E1 E2]
    by by destruct ev.
  rewrite Hv in E1, E2. unfold call_event in E1, E2. cbn [RemoteAddr RemotePort] in E1, E2.
  unfold RemoteAddrString. rewrite <-E1, <-E2. apply FormatIPv4Port_bytes.
Qed.

(** A write of a multiple of 4 GiB: [total_len] is the low half of the count, so
    the event reports no bytes and is not flagged as truncated. *)
Lemma write_4GiB_unflagged t fd op k buf :
  let count := k * 2 ^ 32 in
  let e := call_event t op fd 0 0 0 0 (uint32 count) (captured_bytes t count buf) in
  TotalLen e = 0 /\ Data e = [] /\ Truncated e = false.
Proof.
  cbv zeta. assert (uint32 (k * 2 ^ 32) = 0) as Hz by (by apply Z_mod_mult).
  unfold captured_bytes, call_event. rewrite Hz. change (Z.to_nat (Z.min 0 (DATA_CAP - 1))) with 0%nat.
  destruct (user_read _ _ _) as [bs|] eqn:E; [|done].
  apply user_read_length, nil_length_inv in E as ->. done.
Qed.

(** A negative [num] of [SSL_write] becomes a count close to 4 GiB, and
    [DATA_CAP - 1] bytes from the buffer's address on are captured. *)
Lemma ssl_write_negative t num buf bs :
  - 2 ^ 31 <= num < 0 -> user_read (mem t) buf 4095 = Some bs ->
  uint32 num = num + 2 ^ 32 /\ captured_bytes t num buf = bs.
Proof.
  intros Hn Hr. assert (uint32 num = num + 2 ^ 32) as Hu.
  { unfold wrapU. rewrite <-(Z.mod_add num 1), Z.mod_small by lia. lia. }
  split; [done|]. unfold captured_bytes. rewrite Hu.
  replace (Z.to_nat (Z.min (num + 2 ^ 32) (DATA_CAP - 1))) with 4095%nat by (unfold DATA_CAP; lia).
  by rewrite Hr.
Qed.

End Theorems.

(** ** Witnesses *)

(** A process whose only readable memory is a buffer at address 4096. *)
#[local] Instance flat_memory : UserMem.
Proof.
  refine {|
    umem := bytes;
    user_read m a n :=
      if decide (4096 <= a /\ a - 4096 + Z.of_nat n <= Z.of_nat (length m)) then
        Some (take n (drop (Z.to_nat (a - 4096)) m))
      else None;
    user_fault _ _ dst := replicate (length dst) Byte.x00;
  |}.
  - intros m a n bs. case_decide; [|done]. intros [= <-]. rewrite length_take, length_drop. lia.
  - intros. by rewrite length_replicate.
Defined.

(** A thread of process 42, and one of another process, with a full-size record
    of stale bytes handed out. *)
Definition stale : bytes := replicate sizeof_event Byte.xff.
Definition sample_task (p : Z) (m : bytes) : task :=
  mkTask _ (p * 2 ^ 32 + 43) 1000 m (Some stale) true.

Lemma sample_task_wf p m : inU 32 p -> wf_task (sample_task p m).
Proof.
  intros Hp. unfold inU in Hp. split; simpl; [unfold inU; lia|unfold inU; lia|].
  intros e He. apply (inj Some) in He as <-. apply length_replicate.
Qed.

(** [ctx->args] *)
Definition args_of (l : list Z) : nat -> Z := fun i => nth i l 0.

Definition sample_calls : list (task * Syscall.hit) :=
  let t p m := sample_task p (str m) in
  [(t 42 "", Syscall.sys_enter_read (args_of [5; 4096; 100]));
   (t 7 "secret", Syscall.sys_enter_write (args_of [5; 4096; 6]));
   (t 42 "hello", Syscall.sys_exit_read 5);
   (t 42 "hi", Syscall.sys_enter_write (args_of [6; 4096; 9]));
   (t 42 "", Syscall.sys_enter_close (args_of [5]))].

Definition sample_ssl_calls : list (task * Tls.hit) :=
  let t p m := sample_task p (str m) in
  [(t 42 "ping", Tls.SSL_write 77 4096 4);
   (t 42 "", Tls.SSL_read 77 4096 64);
   (t 7 "pong", Tls.SSL_read_ret 4);
   (t 42 "pong", Tls.SSL_read_ret 4)].

Lemma sample_calls_wf : Forall (fun th => wf_task th.1) sample_calls.
Proof. repeat constructor; apply sample_task_wf; unfold inU; lia. Qed.
Lemma sample_ssl_calls_wf : Forall (fun th => wf_task th.1 /\ wf_tls_hit th.2) sample_ssl_calls.
Proof.
  repeat constructor; try (apply sample_task_wf); simpl; unfold inU, inS; lia.
Qed.

Lemma sample_room :
  (size (entered (syscall_op 42) sample_calls) <= Syscall.max_entries)%nat /\
  (size (entered (tls_op 42) sample_ssl_calls) <= Tls.max_entries)%nat.
Proof. split; apply Nat.leb_le; vm_compute; reflexivity. Qed.

Lemma programs_refine_witness :
  map (fun e => (FD e, Operation e, TotalLen e, Data e)) (reports (syscall_report 42) [] sample_calls) =
    [(5, OP_READ, 5, str "hello"); (6, OP_WRITE, 9, []); (5, OP_CLOSE, 0, [])] /\
  map (fun e => (SSLPtr e, Operation e, Data e)) (reports (tls_report 42) [] sample_ssl_calls) =
    [(77, OP_SSL_WRITE, str "ping"); (77, OP_SSL_READ, str "pong")] /\
  Forall2 observed (events (Syscall.run Little 42 sample_calls))
    (reports (syscall_report 42) [] sample_calls) /\
  Forall2 observed (events (Tls.run Little 42 sample_ssl_calls))
    (reports (tls_report 42) [] sample_ssl_calls).
Proof.
  split; [run|split; [run|]].
  exact (programs_refine 42 sample_calls sample_ssl_calls sample_calls_wf sample_ssl_calls_wf
    (proj1 sample_room) (proj2 sample_room)).
Defined.

Lemma records_sound_witness :
  Forall (fun th => wf_task th.1) sample_calls /\
  Forall (fun th => wf_task th.1 /\ wf_tls_hit th.2) sample_ssl_calls /\
  length (events (Syscall.run Little 42 sample_calls) ++ events (Tls.run Little 42 sample_ssl_calls)) =
    5%nat /\
  Forall (fun raw => 42 <> 0 /\
            exists ev p, decodeEvent raw = Ok ev /\ wf_event ev /\ PID ev = 42 /\
              Payload ev = Ok p /\ Z.of_nat (length p) <= DATA_CAP - 1)
    (events (Syscall.run Little 42 sample_calls) ++ events (Tls.run Little 42 sample_ssl_calls)).
Proof.
  split; [exact sample_calls_wf|split; [exact sample_ssl_calls_wf|split; [run|]]].
  exact (records_sound 42 sample_calls sample_ssl_calls sample_calls_wf sample_ssl_calls_wf).
Defined.

Lemma capture_len_min_witness :
  inU 64 4096 /\ capture_len 4096 = Z.min (4096 mod 2 ^ 32) 4095 /\
  (4096 < 2 ^ 32 -> capture_len 4096 = 4096 <-> 4096 < DATA_CAP).
Proof.
  assert (inU 64 4096) as H by (unfold inU; lia). split; [exact H|exact (capture_len_min 4096 H)].
Defined.

(** [10.0.0.5:5432] in a [struct sockaddr_in]. *)
Definition sample_sockaddr : bytes :=
  [Byte.x02; Byte.x00; Byte.x15; Byte.x38; Byte.x0a; Byte.x00; Byte.x00; Byte.x05] ++
  replicate 8 Byte.x00.

Lemma connect_address_witness :
  wf_task (sample_task 42 sample_sockaddr) /\
  exists raw ev,
    events (Syscall.trace_enter_connect Little 42 (sample_task 42 sample_sockaddr)
              (args_of [3; 4096; 16]) (mkState ∅ [])) = [raw] /\
    decodeEvent raw = Ok ev /\ RemoteAddrString ev = str "10.0.0.5:5432".
Proof.
  assert (wf_task (sample_task 42 sample_sockaddr)) as Hw by (apply sample_task_wf; unfold inU; lia).
  split; [exact Hw|].
  exact (connect_address 42 (sample_task 42 sample_sockaddr) (args_of [3; 4096; 16]) (mkState ∅ [])
    stale Byte.x15 Byte.x38 Byte.x0a Byte.x00 Byte.x00 Byte.x05
    (replicate 8 Byte.x00) Hw eq_refl eq_refl eq_refl).
Defined.
