(* ===== verification/BpfBig.v ===== *)
(** * src/bpf on a big-endian host

    bpf2go also generates the loaders of a big-endian build; the programs then
    write their records in the host's byte order, and the collector reads them
    little-endian. *)

From S2P Require Import Prelude GoStd Event CStruct Bpf BpfSpec BpfRefine.
Local Open Scope Z_scope.
Local Open Scope go_scope.

(** ** Lemmas *)

Lemma operation_set h f z e :
  f <> operation -> f <> data -> length e = sizeof_event ->
  Operation (event_of (set h f z e)) = Operation (event_of e).
Proof. intros Ho Hd He. rewrite event_set by done. by destruct f, (event_of e). Qed.

Ltac operation_stores := repeat rewrite operation_set by first [record_size | discriminate].

Section Operation.
Context `{UserMem} (host : endian) (t : task).

Lemma operation_fill op e :
  length e = sizeof_event ->
  Operation (event_of (fill_common host t op e)) = read_back host operation op.
Proof.
  intros He. unfold fill_common. cbv zeta. operation_stores.
  rewrite event_set by first [record_size | discriminate]. reflexivity.
Qed.

Lemma operation_capture count buf e :
  length e = sizeof_event -> Operation (event_of (capture host t count buf e)) = Operation (event_of e).
Proof.
  intros He. unfold capture. pose proof (length_capture_dst t count buf e He) as Hd.
  destruct (bpf_probe_read_user _ _ _ _) as [d []]; cbn [fst] in Hd;
    [rewrite operation_set by first [by apply length_set_data | discriminate]|];
    rewrite event_set_data by done; by destruct (event_of e).
Qed.

End Operation.

(** The operation codes after their bytes are swapped. *)
Lemma read_back_swapped op :
  0 < op < 256 -> read_back Big operation op = op * 2 ^ 24.
Proof.
  intros Ho. unfold read_back. change (fsize operation) with 4%nat.
  cbn [int_bytes le_bytes rev app le_val]. rewrite !bval_byte_of.
  rewrite (Z.mod_small op), (Z.div_small op) by lia. rewrite ?Zdiv_0_l, ?Zmod_0_l. lia.
Qed.

(** ** Unknown operations *)

(** What the collector makes of a big-endian record. *)
Definition foreign (raw : bytes) : Prop :=
  exists ev, decodeEvent raw = Ok ev /\ wf_event ev /\
    (Operation ev = OpConnect \/ 2 ^ 24 <= Operation ev).

Lemma foreign_intro raw op :
  length raw = sizeof_event -> 0 <= op < 256 ->
  Operation (event_of raw) = read_back Big operation op -> foreign raw.
Proof.
  intros Hl Hop Ho. destruct (decodeEvent_of raw Hl) as [Hd Hw]. exists (event_of raw).
  split; [done|]. split; [done|]. rewrite Ho. destruct (decide (op = 0)) as [->|Hn]; [by left|].
  right. rewrite read_back_swapped; lia.
Qed.

Lemma foreign_snoc raws raw : Forall foreign raws -> foreign raw -> Forall foreign (raws ++ [raw]).
Proof. intros. apply Forall_app. by split; [|constructor]. Qed.

(** A record built by stores after [fill_common] with [op]. *)
Ltac swapped op :=
  apply foreign_snoc; [assumption|apply (foreign_intro _ op);
    [record_size|by split; vm_compute
    |rewrite ?operation_capture by record_size; operation_stores; by apply operation_fill]].

Section Big.
Context `{UserMem} (target_pid : Z).

Lemma syscall_handle_foreign s t hit :
  wf_task t -> Forall foreign (events s) ->
  Forall foreign (events (Syscall.handle Big target_pid s (t, hit))).
Proof.
  intros Ht Hs. pose proof (wf_reserve t Ht) as Hr. destruct s as [m evs]. simpl in Hs.
  destruct (pid_matches target_pid t) eqn:Em; [|by destruct hit; eval_call].
  destruct hit as [args|args|args|r|args]; eval_call; cbn [stash]; [..|done| |].
  3: destruct (m !! pid_tgid t), (r <=? 0); try done.
  1: destruct (bpf_probe_read_user _ _ _ _) as [addr ok].
  all: destruct (reserve t) as [e|]; [|done]; specialize (Hr e eq_refl).
  - cbn [events bpf_ringbuf_submit]. case_match; swapped OP_CONNECT.
  - swapped OP_WRITE.
  - swapped OP_READ.
  - swapped OP_CLOSE.
Qed.

Lemma tls_handle_foreign s t hit :
  wf_task t -> Forall foreign (events s) ->
  Forall foreign (events (Tls.handle Big target_pid s (t, hit))).
Proof.
  intros Ht Hs. pose proof (wf_reserve t Ht) as Hr. destruct s as [m evs]. simpl in Hs.
  destruct hit as [ssl buf num|ssl buf num|r]; eval_call; cbn [stash].
  - destruct (pid_matches target_pid t); simpl; [|done].
    destruct (reserve t) as [e|]; [|done]; specialize (Hr e eq_refl). swapped OP_SSL_WRITE.
  - by destruct (pid_matches target_pid t).
  - destruct (m !! pid_tgid t); [|done].
    destruct (negb (pid_matches target_pid t) || (r <=? 0)); [done|].
    destruct (reserve t) as [e|]; [|done]; specialize (Hr e eq_refl). swapped OP_SSL_READ.
Qed.

Lemma runs_foreign hits ssl_hits :
  Forall (fun th => wf_task th.1) hits -> Forall (fun th => wf_task th.1) ssl_hits ->
  Forall foreign (events (Syscall.run Big target_pid hits)) /\
  Forall foreign (events (Tls.run Big target_pid ssl_hits)).
Proof.
  assert (forall V H (handle : prog_state V -> task * H -> prog_state V) (calls : list (task * H)) s,
    (forall s t hit, wf_task t -> Forall foreign (events s) -> Forall foreign (events (handle s (t, hit)))) ->
    Forall (fun th => wf_task th.1) calls -> Forall foreign (events s) ->
    Forall foreign (events (fold_left handle calls s))) as Hfold.
  { intros V Hit handle calls s Hh Hw. revert s. induction Hw as [|[t hit] calls Ht _ IH]; intros s Hs;
      [done|]. simpl. by apply IH, Hh. }
  intros Hs Ht. split; (apply Hfold; [|done|constructor]);
    [apply syscall_handle_foreign|apply tls_handle_foreign].
Qed.

End Big.
