(* ===== verification/Bpfgen.v ===== *)
(** * internal/bpfgen: the generated loaders

    The objects of the two BPF programs, their names, how they are loaded and in
    which order they are closed, from the files for little-endian hosts; [build]
    says which files are compiled.  Those for big-endian hosts are in BpfgenEb,
    which shows that they say the same of another object file. *)

From S2P Require Import Prelude GoStd CStruct.
Local Open Scope nat_scope.
Local Open Scope go_scope.

(** ** Builds *)

(** The build constraints of the generated files. *)
Definition bpfel_archs : list bytes :=
  map str ["386"; "amd64"; "arm"; "arm64"; "loong64"; "mips64le"; "mipsle"; "ppc64le"; "riscv64"; "wasm"]%string.
Definition bpfeb_archs : list bytes := map str ["mips"; "mips64"; "ppc64"; "s390x"]%string.

Definition build (goarch : bytes) : option endian :=
  if bool_decide (goarch ∈ bpfel_archs) then Some Little
  else if bool_decide (goarch ∈ bpfeb_archs) then Some Big
  else None.

(** ** Objects and their names *)

(** The fields of [SyscallPrograms] and [SyscallMaps]. *)
Inductive syscall_object :=
| TraceEnterClose | TraceEnterConnect | TraceEnterRead | TraceEnterWrite | TraceExitRead
| Events | ReadStash.

(** The fields of [TlsPrograms] and [TlsMaps]. *)
Inductive tls_object :=
| TraceSslReadEnter | TraceSslReadExit | TraceSslWrite
| TlsEvents | SslReadStash.

#[global] Instance syscall_object_eq_dec : EqDecision syscall_object.
Proof. solve_decision. Defined.
#[global] Instance tls_object_eq_dec : EqDecision tls_object.
Proof. solve_decision. Defined.

(** Their [ebpf] tags: the names in the object file. *)
Definition syscall_tag (o : syscall_object) : bytes :=
  match o with
  | TraceEnterClose => str "trace_enter_close"
  | TraceEnterConnect => str "trace_enter_connect"
  | TraceEnterRead => str "trace_enter_read"
  | TraceEnterWrite => str "trace_enter_write"
  | TraceExitRead => str "trace_exit_read"
  | Events => str "events"
  | ReadStash => str "read_stash"
  end.

Definition tls_tag (o : tls_object) : bytes :=
  match o with
  | TraceSslReadEnter => str "trace_ssl_read_enter"
  | TraceSslReadExit => str "trace_ssl_read_exit"
  | TraceSslWrite => str "trace_ssl_write"
  | TlsEvents => str "events"
  | SslReadStash => str "ssl_read_stash"
  end.

Definition SyscallPrograms : list syscall_object :=
  [TraceEnterClose; TraceEnterConnect; TraceEnterRead; TraceEnterWrite; TraceExitRead].
Definition SyscallMaps : list syscall_object := [Events; ReadStash].
Definition SyscallObjects : list syscall_object := SyscallPrograms ++ SyscallMaps.

Definition TlsPrograms : list tls_object := [TraceSslReadEnter; TraceSslReadExit; TraceSslWrite].
Definition TlsMaps : list tls_object := [TlsEvents; SslReadStash].
Definition TlsObjects : list tls_object := TlsPrograms ++ TlsMaps.

(** *** The rest of the declarations *)

(** The names of the fields. *)
Definition syscall_field (o : syscall_object) : bytes :=
  match o with
  | TraceEnterClose => str "TraceEnterClose"
  | TraceEnterConnect => str "TraceEnterConnect"
  | TraceEnterRead => str "TraceEnterRead"
  | TraceEnterWrite => str "TraceEnterWrite"
  | TraceExitRead => str "TraceExitRead"
  | Events => str "Events"
  | ReadStash => str "ReadStash"
  end.

Definition tls_field (o : tls_object) : bytes :=
  match o with
  | TraceSslReadEnter => str "TraceSslReadEnter"
  | TraceSslReadExit => str "TraceSslReadExit"
  | TraceSslWrite => str "TraceSslWrite"
  | TlsEvents => str "Events"
  | SslReadStash => str "SslReadStash"
  end.

(** A struct of objects: its fields with their tags. *)
Definition tagged : Type := list (bytes * bytes).

Definition SyscallVariables : tagged := [(str "TargetPid", str "target_pid")].
Definition TlsVariables : tagged := [(str "TargetPid", str "target_pid")].

(** The structs of what is not loaded yet. *)
Definition SyscallProgramSpecs : tagged :=
  [(str "TraceEnterClose", str "trace_enter_close"); (str "TraceEnterConnect", str "trace_enter_connect");
   (str "TraceEnterRead", str "trace_enter_read"); (str "TraceEnterWrite", str "trace_enter_write");
   (str "TraceExitRead", str "trace_exit_read")].
Definition SyscallMapSpecs : tagged := [(str "Events", str "events"); (str "ReadStash", str "read_stash")].
Definition SyscallVariableSpecs : tagged := [(str "TargetPid", str "target_pid")].
Definition SyscallSpecs : tagged := SyscallProgramSpecs ++ SyscallMapSpecs ++ SyscallVariableSpecs.

Definition TlsProgramSpecs : tagged :=
  [(str "TraceSslReadEnter", str "trace_ssl_read_enter"); (str "TraceSslReadExit", str "trace_ssl_read_exit");
   (str "TraceSslWrite", str "trace_ssl_write")].
Definition TlsMapSpecs : tagged := [(str "Events", str "events"); (str "SslReadStash", str "ssl_read_stash")].
Definition TlsVariableSpecs : tagged := [(str "TargetPid", str "target_pid")].
Definition TlsSpecs : tagged := TlsProgramSpecs ++ TlsMapSpecs ++ TlsVariableSpecs.

(** The constants with the names of all objects in the ELF file. *)
Definition SyscallNames : tagged :=
  [(str "SyscallMapEvents", str "events"); (str "SyscallMapReadStash", str "read_stash");
   (str "SyscallProgTraceEnterClose", str "trace_enter_close");
   (str "SyscallProgTraceEnterConnect", str "trace_enter_connect");
   (str "SyscallProgTraceEnterRead", str "trace_enter_read");
   (str "SyscallProgTraceEnterWrite", str "trace_enter_write");
   (str "SyscallProgTraceExitRead", str "trace_exit_read"); (str "SyscallVarTargetPid", str "target_pid")].
Definition TlsNames : tagged :=
  [(str "TlsMapEvents", str "events"); (str "TlsMapSslReadStash", str "ssl_read_stash");
   (str "TlsProgTraceSslReadEnter", str "trace_ssl_read_enter");
   (str "TlsProgTraceSslReadExit", str "trace_ssl_read_exit");
   (str "TlsProgTraceSslWrite", str "trace_ssl_write"); (str "TlsVarTargetPid", str "target_pid")].

(** The values of the stash maps as Go structs: name, size and alignment of each
    field, [a] the alignment of [uint64], 4 on some 32-bit hosts; and as the
    structs of the BPF programs. *)
Record member := mkMember { m_name : bytes; m_size : nat; m_align : nat }.

Definition SyscallReadArgs (a : nat) : list member :=
  [mkMember (str "Buf") 8 a; mkMember (str "Fd") 4 4; mkMember (str "_") 4 1].
Definition TlsSslReadArgs (a : nat) : list member := [mkMember (str "Ssl") 8 a; mkMember (str "Buf") 8 a].
Definition read_args : list member := [mkMember (str "buf") 8 8; mkMember (str "fd") 4 4].
Definition ssl_read_args : list member := [mkMember (str "ssl") 8 8; mkMember (str "buf") 8 8].

Fixpoint offsets (off : nat) (ms : list member) : list (bytes * nat) * nat :=
  match ms with
  | [] => ([], off)
  | m :: ms =>
      let o := align_up off (m_align m) in
      let (os, size) := offsets (o + m_size m) ms in ((m_name m, o) :: os, size)
  end.

(** Offsets of the members and size of the whole. *)
Definition layout (ms : list member) : list (bytes * nat) * nat :=
  let (os, size) := offsets 0 ms in (os, align_up size (foldr (fun m => Nat.max (m_align m)) 1 ms)).

(** ** Loading *)

Section Load.
Context {Spec E : Type} (SyscallBytes TlsBytes : endian -> bytes)
  (LoadCollectionSpecFromReader : bytes -> outcome E Spec).

(** The errors of a load, with the text they are wrapped in. *)
Inductive load_err := ErrWrapped (text : bytes) (e : E) | ErrAssign (e : E).

Definition LoadSyscall (b : endian) : outcome load_err Spec :=
  match LoadCollectionSpecFromReader (SyscallBytes b) with
  | Ok spec => Ok spec
  | Err e => Err (ErrWrapped (str "can't load Syscall: ") e)
  | Panic p => Panic p
  end.

Definition LoadTls (b : endian) : outcome load_err Spec :=
  match LoadCollectionSpecFromReader (TlsBytes b) with
  | Ok spec => Ok spec
  | Err e => Err (ErrWrapped (str "can't load Tls: ") e)
  | Panic p => Panic p
  end.

(** [spec.LoadAndAssign(obj, opts)]: what [obj] holds afterwards, or an error. *)
Context {Obj Opts : Type} (LoadAndAssign : Spec -> Obj -> Opts -> outcome E Obj).

Definition assign (spec : Spec) (obj : Obj) (opts : Opts) : outcome load_err Obj :=
  match LoadAndAssign spec obj opts with
  | Ok obj => Ok obj
  | Err e => Err (ErrAssign e)
  | Panic p => Panic p
  end.

Definition LoadSyscallObjects (b : endian) (obj : Obj) (opts : Opts) : outcome load_err Obj :=
  let? spec := LoadSyscall b in assign spec obj opts.
Definition LoadTlsObjects (b : endian) (obj : Obj) (opts : Opts) : outcome load_err Obj :=
  let? spec := LoadTls b in assign spec obj opts.

End Load.

(** ** Closing

    [io.Closer.Close] as a function on what is open: what is open afterwards,
    and the error. *)

Section Close.
Context {R E : Type}.

Definition closer : Type := list R -> list R * option E.

(** [_SyscallClose]: closes in order until one fails. *)
Fixpoint _SyscallClose (closers : list closer) : closer := fun live =>
  match closers with
  | [] => (live, None)
  | c :: closers =>
      let (live, err) := c live in
      match err with
      | Some e => (live, Some e)
      | None => _SyscallClose closers live
      end
  end.

(** [_TlsClose], which has the same body. *)
Definition _TlsClose : list closer -> closer := _SyscallClose.

(** The [Close] methods; [close o] is that of the program or map [o]. *)
Definition SyscallPrograms_Close (close : syscall_object -> closer) : closer :=
  _SyscallClose (map close SyscallPrograms).
Definition SyscallMaps_Close (close : syscall_object -> closer) : closer :=
  _SyscallClose (map close SyscallMaps).
Definition SyscallObjects_Close (close : syscall_object -> closer) : closer :=
  _SyscallClose [SyscallPrograms_Close close; SyscallMaps_Close close].

Definition TlsPrograms_Close (close : tls_object -> closer) : closer :=
  _TlsClose (map close TlsPrograms).
Definition TlsMaps_Close (close : tls_object -> closer) : closer := _TlsClose (map close TlsMaps).
Definition TlsObjects_Close (close : tls_object -> closer) : closer :=
  _TlsClose [TlsPrograms_Close close; TlsMaps_Close close].

(** ** Lemmas *)

(** Nested calls close the concatenation. *)
Lemma _SyscallClose_app cs1 cs2 live :
  _SyscallClose [_SyscallClose cs1; _SyscallClose cs2] live = _SyscallClose (cs1 ++ cs2) live.
Proof.
  revert live. induction cs1 as [|c cs1 IH]; intros live; simpl in *.
  - by destruct (_SyscallClose cs2 live) as [? []].
  - destruct (c live) as [live1 [e|]]; [done|]. apply IH.
Qed.

Lemma SyscallObjects_Close_flat close live :
  SyscallObjects_Close close live = _SyscallClose (map close SyscallObjects) live.
Proof. unfold SyscallObjects. rewrite map_app. apply _SyscallClose_app. Qed.

Lemma TlsObjects_Close_flat close live :
  TlsObjects_Close close live = _SyscallClose (map close TlsObjects) live.
Proof. unfold TlsObjects. rewrite map_app. apply _SyscallClose_app. Qed.

End Close.
Arguments closer : clear implicits.

(** What a [Close] that fails says and does: its error, and whether the resource
    is still open afterwards, which the library does not tell. *)
Record failed_close (E : Type) := mkFailed { fc_error : E; fc_open : bool }.
Arguments mkFailed {E} fc_error fc_open.
Arguments fc_error {E} f.
Arguments fc_open {E} f.

(** Closing single resources: [release r] is how closing [r] fails, if it does. *)
Section Releases.
Context {R E : Type} `{EqDecision R} (release : R -> option (failed_close E)).

(** Still open after its own [Close]. *)
Definition stays (r : R) : bool := match release r with Some f => fc_open f | None => false end.

Definition close_one (r : R) : closer R E := fun live =>
  (if stays r then live else List.filter (fun r' => negb (bool_decide (r' = r))) live,
   fc_error <$> release r).

(** Closing in order until one fails: the resources that are gone, and the
    others - those behind the one that failed, and that one if it stays. *)
Fixpoint closed_until (rs : list R) : list R :=
  match rs with
  | [] => []
  | r :: rs =>
      match release r with
      | Some f => if fc_open f then [] else [r]
      | None => r :: closed_until rs
      end
  end.
Fixpoint left_open (rs : list R) : list R :=
  match rs with
  | [] => []
  | r :: rs =>
      match release r with
      | Some f => if fc_open f then r :: rs else rs
      | None => left_open rs
      end
  end.

Lemma closed_until_left_open rs : closed_until rs ++ left_open rs = rs.
Proof. induction rs as [|r rs IH]; [done|]. simpl. destruct (release r) as [[e []]|]; simpl; by rewrite ?IH. Qed.

Lemma closed_until_sub rs r : r ∈ closed_until rs -> r ∈ rs.
Proof. rewrite <-(closed_until_left_open rs) at 2. set_solver. Qed.
Lemma left_open_sub rs r : r ∈ left_open rs -> r ∈ rs.
Proof. rewrite <-(closed_until_left_open rs) at 2. set_solver. Qed.

Lemma elem_of_close_one r r' live :
  r ∈ (close_one r' live).1 <-> r ∈ live /\ (r = r' -> stays r' = true).
Proof.
  unfold close_one. simpl. destruct (stays r'); [naive_solver|].
  rewrite !list_elem_of_In, filter_In, negb_true_iff, bool_decide_eq_false. naive_solver.
Qed.

(** What is open after closing [rs] in order until one fails. *)
Lemma elem_of_closes rs r live :
  r ∈ (_SyscallClose (map close_one rs) live).1 <-> r ∈ live /\ r ∉ closed_until rs.
Proof.
  revert live. induction rs as [|r1 rs IH]; intros live; [simpl; set_solver|].
  pose proof (elem_of_close_one r r1 live) as Hone. unfold stays in Hone.
  assert ((close_one r1 live).2 = fc_error <$> release r1) as Hr by done.
  cbn [map _SyscallClose closed_until].
  destruct (close_one r1 live) as [live1 err]. simpl in Hone, Hr. subst err.
  destruct (release r1) as [[e []]|]; simpl in *; [|set_solver|rewrite IH; set_solver].
  set_solver.
Qed.

Lemma closes_error rs live :
  (_SyscallClose (map close_one rs) live).2 = fc_error <$> head (omap release rs).
Proof.
  revert live. induction rs as [|r rs IH]; intros live; [done|]. cbn.
  destruct (release r) as [f|]; [done|]. apply IH.
Qed.

Lemma closes_quiet rs live : (_SyscallClose (map close_one rs) live).2 = None -> left_open rs = [].
Proof.
  revert live. induction rs as [|r rs IH]; intros live; [done|]. simpl.
  destruct (release r); [done|]. apply IH.
Qed.

Lemma left_open_nil rs : (forall r, r ∈ rs -> release r = None) -> left_open rs = [].
Proof.
  induction rs as [|r rs IH]; intros Hr; [done|]. simpl. rewrite Hr by left. apply IH.
  intros r' ?. apply Hr. by right.
Qed.

Lemma closed_until_elem rs r :
  NoDup rs -> r ∈ rs -> r ∉ closed_until rs <-> r ∈ left_open rs.
Proof.
  intros Hnd Hr. rewrite <-(closed_until_left_open rs) in Hnd, Hr.
  apply NoDup_app in Hnd as (_ & Hd & _). apply elem_of_app in Hr. split; [tauto|].
  intros Hl Hc. by apply (Hd r).
Qed.

End Releases.

(** ** Theorems *)

(** A GOARCH selects at most one of the two builds. *)
Theorem builds_disjoint goarch : ~ (goarch ∈ bpfel_archs /\ goarch ∈ bpfeb_archs).
Proof.
  intros [He Hb]. assert (Forall (fun a => a ∉ bpfeb_archs) bpfel_archs) as Hd.
  { apply (bool_decide_unpack _). vm_compute. exact I. }
  rewrite Forall_forall in Hd. by apply (Hd goarch).
Qed.

(** The names the objects are assigned by are distinct within each file. *)
Theorem tags_distinct : NoDup (map syscall_tag SyscallObjects) /\ NoDup (map tls_tag TlsObjects).
Proof. split; apply (bool_decide_unpack _); vm_compute; exact I. Qed.

(** What [LoadAndAssign] looks for is what the file names: the tags of the
    objects and variables are the names of the constants, and the structs of
    specifications have the same fields. *)
Theorem names_complete :
  Permutation (map snd SyscallNames) (map syscall_tag SyscallObjects ++ map snd SyscallVariables) /\
  Permutation (map snd TlsNames) (map tls_tag TlsObjects ++ map snd TlsVariables) /\
  SyscallSpecs = map (fun o => (syscall_field o, syscall_tag o)) SyscallObjects ++ SyscallVariables /\
  TlsSpecs = map (fun o => (tls_field o, tls_tag o)) TlsObjects ++ TlsVariables.
Proof.
  split_and!; [..|reflexivity|reflexivity]; apply (bool_decide_unpack _); vm_compute; exact I.
Qed.

(** A value of the stash maps has the same layout in the Go struct as in the BPF
    program, whatever the host's alignment of 64-bit integers. *)
Theorem read_args_layout a :
  a ∈ [4; 8] ->
  (exists pad, layout (SyscallReadArgs a) = ([(str "Buf", 0); (str "Fd", 8); (str "_", pad)], 16)) /\
  layout read_args = ([(str "buf", 0); (str "fd", 8)], 16) /\
  layout (TlsSslReadArgs a) = ([(str "Ssl", 0); (str "Buf", 8)], 16) /\
  layout ssl_read_args = ([(str "ssl", 0); (str "buf", 8)], 16).
Proof. rewrite !elem_of_cons. intros [->|[->|?%elem_of_nil]]; [..|done]; split_and!; by try eexists. Qed.
