(* ===== verification/BpfgenEb.v ===== *)
(** * internal/bpfgen: the loaders of big-endian hosts

    What the files for big-endian hosts declare, with the embedded object file as
    [bytes]; that it is what Bpfgen says of the other build. *)

From S2P Require Import Prelude GoStd CStruct Bpfgen.
Local Open Scope nat_scope.
Local Open Scope go_scope.

(** ** syscall_bpfeb.go *)

Module Syscall.

Definition ReadArgs (a : nat) : list member :=
  [mkMember (str "Buf") 8 a; mkMember (str "Fd") 4 4; mkMember (str "_") 4 1].

Definition Names : tagged :=
  [(str "SyscallMapEvents", str "events"); (str "SyscallMapReadStash", str "read_stash");
   (str "SyscallProgTraceEnterClose", str "trace_enter_close");
   (str "SyscallProgTraceEnterConnect", str "trace_enter_connect");
   (str "SyscallProgTraceEnterRead", str "trace_enter_read");
   (str "SyscallProgTraceEnterWrite", str "trace_enter_write");
   (str "SyscallProgTraceExitRead", str "trace_exit_read"); (str "SyscallVarTargetPid", str "target_pid")].

Definition ProgramSpecs : tagged :=
  [(str "TraceEnterClose", str "trace_enter_close"); (str "TraceEnterConnect", str "trace_enter_connect");
   (str "TraceEnterRead", str "trace_enter_read"); (str "TraceEnterWrite", str "trace_enter_write");
   (str "TraceExitRead", str "trace_exit_read")].
Definition MapSpecs : tagged := [(str "Events", str "events"); (str "ReadStash", str "read_stash")].
Definition VariableSpecs : tagged := [(str "TargetPid", str "target_pid")].
Definition Specs : tagged := ProgramSpecs ++ MapSpecs ++ VariableSpecs.

Definition Programs : tagged :=
  [(str "TraceEnterClose", str "trace_enter_close"); (str "TraceEnterConnect", str "trace_enter_connect");
   (str "TraceEnterRead", str "trace_enter_read"); (str "TraceEnterWrite", str "trace_enter_write");
   (str "TraceExitRead", str "trace_exit_read")].
Definition Maps : tagged := [(str "Events", str "events"); (str "ReadStash", str "read_stash")].
Definition Variables : tagged := [(str "TargetPid", str "target_pid")].
Definition Objects : tagged := Programs ++ Maps ++ Variables.

Section Load.
Context {Spec E Obj Opts : Type} (Bytes : bytes) (LoadCollectionSpecFromReader : bytes -> outcome E Spec)
  (LoadAndAssign : Spec -> Obj -> Opts -> outcome E Obj).

Definition LoadSyscall : outcome (@load_err E) Spec :=
  match LoadCollectionSpecFromReader Bytes with
  | Ok spec => Ok spec
  | Err e => Err (ErrWrapped (str "can't load Syscall: ") e)
  | Panic p => Panic p
  end.

Definition LoadSyscallObjects (obj : Obj) (opts : Opts) : outcome (@load_err E) Obj :=
  match LoadSyscall with
  | Ok spec =>
      match LoadAndAssign spec obj opts with
      | Ok obj => Ok obj
      | Err e => Err (ErrAssign e)
      | Panic p => Panic p
      end
  | Err e => Err e
  | Panic p => Panic p
  end.
End Load.

Section Close.
Context {R E : Type} (close : bytes -> closer R E).   (* [Close] of the object in a field *)

(** [_SyscallClose] *)
Fixpoint CloseAll (closers : list (closer R E)) : closer R E := fun live =>
  match closers with
  | [] => (live, None)
  | c :: closers =>
      match c live with
      | (live, Some err) => (live, Some err)
      | (live, None) => CloseAll closers live
      end
  end.

Definition Programs_Close : closer R E :=
  CloseAll [close (str "TraceEnterClose"); close (str "TraceEnterConnect"); close (str "TraceEnterRead");
            close (str "TraceEnterWrite"); close (str "TraceExitRead")].
Definition Maps_Close : closer R E := CloseAll [close (str "Events"); close (str "ReadStash")].
Definition Objects_Close : closer R E := CloseAll [Programs_Close; Maps_Close].
End Close.

End Syscall.

(** ** tls_bpfeb.go *)

Module Tls.

Definition SslReadArgs (a : nat) : list member := [mkMember (str "Ssl") 8 a; mkMember (str "Buf") 8 a].

Definition Names : tagged :=
  [(str "TlsMapEvents", str "events"); (str "TlsMapSslReadStash", str "ssl_read_stash");
   (str "TlsProgTraceSslReadEnter", str "trace_ssl_read_enter");
   (str "TlsProgTraceSslReadExit", str "trace_ssl_read_exit");
   (str "TlsProgTraceSslWrite", str "trace_ssl_write"); (str "TlsVarTargetPid", str "target_pid")].

Definition ProgramSpecs : tagged :=
  [(str "TraceSslReadEnter", str "trace_ssl_read_enter"); (str "TraceSslReadExit", str "trace_ssl_read_exit");
   (str "TraceSslWrite", str "trace_ssl_write")].
Definition MapSpecs : tagged := [(str "Events", str "events"); (str "SslReadStash", str "ssl_read_stash")].
Definition VariableSpecs : tagged := [(str "TargetPid", str "target_pid")].
Definition Specs : tagged := ProgramSpecs ++ MapSpecs ++ VariableSpecs.

Definition Programs : tagged :=
  [(str "TraceSslReadEnter", str "trace_ssl_read_enter"); (str "TraceSslReadExit", str "trace_ssl_read_exit");
   (str "TraceSslWrite", str "trace_ssl_write")].
Definition Maps : tagged := [(str "Events", str "events"); (str "SslReadStash", str "ssl_read_stash")].
Definition Variables : tagged := [(str "TargetPid", str "target_pid")].
Definition Objects : tagged := Programs ++ Maps ++ Variables.

Section Load.
Context {Spec E Obj Opts : Type} (Bytes : bytes) (LoadCollectionSpecFromReader : bytes -> outcome E Spec)
  (LoadAndAssign : Spec -> Obj -> Opts -> outcome E Obj).

Definition LoadTls : outcome (@load_err E) Spec :=
  match LoadCollectionSpecFromReader Bytes with
  | Ok spec => Ok spec
  | Err e => Err (ErrWrapped (str "can't load Tls: ") e)
  | Panic p => Panic p
  end.

Definition LoadTlsObjects (obj : Obj) (opts : Opts) : outcome (@load_err E) Obj :=
  match LoadTls with
  | Ok spec =>
      match LoadAndAssign spec obj opts with
      | Ok obj => Ok obj
      | Err e => Err (ErrAssign e)
      | Panic p => Panic p
      end
  | Err e => Err e
  | Panic p => Panic p
  end.
End Load.

Section Close.
Context {R E : Type} (close : bytes -> closer R E).

(** [_TlsClose] *)
Fixpoint CloseAll (closers : list (closer R E)) : closer R E := fun live =>
  match closers with
  | [] => (live, None)
  | c :: closers =>
      match c live with
      | (live, Some err) => (live, Some err)
      | (live, None) => CloseAll closers live
      end
  end.

Definition Programs_Close : closer R E :=
  CloseAll [close (str "TraceSslReadEnter"); close (str "TraceSslReadExit"); close (str "TraceSslWrite")].
Definition Maps_Close : closer R E := CloseAll [close (str "Events"); close (str "SslReadStash")].
Definition Objects_Close : closer R E := CloseAll [Programs_Close; Maps_Close].
End Close.

End Tls.

(** ** Theorem *)

(** Both builds of the package are one program on another object file: the
    big-endian files declare the same objects under the same names in the same
    order, the same specifications, names and map values; load their own bytes as
    the others do, with the same errors; and close in the same order, stopping at
    the same error. *)
Theorem builds_agree {Spec E Obj Opts R} (SyscallBytes TlsBytes : endian -> bytes)
    (load : bytes -> outcome E Spec) (LoadAndAssign : Spec -> Obj -> Opts -> outcome E Obj)
    (obj : Obj) (opts : Opts) (close : bytes -> closer R E) (live : list R) a :
  (map (fun o => (syscall_field o, syscall_tag o)) SyscallObjects ++ SyscallVariables = Syscall.Objects /\
   map (fun o => (tls_field o, tls_tag o)) TlsObjects ++ TlsVariables = Tls.Objects) /\
  (SyscallSpecs = Syscall.Specs /\ TlsSpecs = Tls.Specs /\
   SyscallNames = Syscall.Names /\ TlsNames = Tls.Names /\
   SyscallReadArgs a = Syscall.ReadArgs a /\ TlsSslReadArgs a = Tls.SslReadArgs a) /\
  (LoadSyscallObjects SyscallBytes load LoadAndAssign Big obj opts =
   Syscall.LoadSyscallObjects (SyscallBytes Big) load LoadAndAssign obj opts /\
   LoadTlsObjects TlsBytes load LoadAndAssign Big obj opts =
   Tls.LoadTlsObjects (TlsBytes Big) load LoadAndAssign obj opts) /\
  SyscallObjects_Close (fun o => close (syscall_field o)) live = Syscall.Objects_Close close live /\
  TlsObjects_Close (fun o => close (tls_field o)) live = Tls.Objects_Close close live.
Proof. by split_and!. Qed.
