(* ===== verification/Http.v ===== *)
(** * internal/decoder/http.go: content sniffing for HTTP

    [net/http]'s message parsers are an interface, the class [NetHTTP]; the
    component is the choice between the two role assignments built on them. *)

From S2P Require Import Prelude.

(** ** The interface to net/http *)

Class NetHTTP := {
  Request : Type;
  Response : Type;
  (** [http.ReadRequest] on a reader over the bytes; [None] for an error. *)
  ReadRequest : bytes -> option Request;
  (** [http.ReadResponse] for a request, which may be nil. *)
  ReadResponse : bytes -> option Request -> option Response;
  (** The bodies, and [io.ReadAll]: what it obtains before the body's end or an
      error, and whether it met one. *)
  Body : Type;
  Request_Body : Request -> Body;
  Response_Body : Response -> Body;
  ReadAll : Body -> bytes * bool;
  Method : Request -> bytes;
  URL_Path : Request -> bytes;
  StatusCode : Response -> Z;
}.

Section TryHTTP.
Context `{NetHTTP}.

(** [HTTPExchange]; nil pointers are [None], nil bodies are empty. *)
Record HTTPExchange := mkHTTP {
  ex_Request : option Request;
  ex_RequestBody : bytes;
  ex_Response : option Response;
  ex_ResponseBody : bytes;
}.

(** [parseRequest] and [parseResponse]: an error becomes nil. *)
Definition parseRequest (buf : bytes) : option Request := ReadRequest buf.
Definition parseResponse (buf : bytes) (req : option Request) : option Response :=
  ReadResponse buf req.

(** [readBody]: a short body is kept as it is. *)
Definition readBody (r : Body) : bytes := let (body, _) := ReadAll r in body.

(** [TryHTTP] *)
Definition TryHTTP (readBuf writeBuf : bytes) : HTTPExchange * bool :=
  let ex := mkHTTP None [] None [] in
  let '(req, reqFromRead) :=
    match parseRequest readBuf with
    | Some req => (Some req, true)
    | None => (parseRequest writeBuf, false)
    end in
  let respBuf := if reqFromRead then writeBuf else readBuf in
  let resp := parseResponse respBuf req in
  match req, resp with
  | None, None => (ex, false)
  | _, _ =>
      (mkHTTP req (from_option (fun r => readBody (Request_Body r)) [] req)
             resp (from_option (fun r => readBody (Response_Body r)) [] resp), true)
  end.

(** ** Theorems *)

(** The role of the traced process does not matter: when exactly one
    direction starts with a request, swapping the two buffers decodes the same
    exchange, with the response taken from the other direction. *)
Theorem TryHTTP_role_symmetric a b :
  is_Some (parseRequest a) -> parseRequest b = None ->
  TryHTTP a b = TryHTTP b a /\
  snd (TryHTTP a b) = true /\
  ex_Request (fst (TryHTTP a b)) = parseRequest a /\
  ex_Response (fst (TryHTTP a b)) = parseResponse b (parseRequest a).
Proof.
  intros [req Ha] Hb. unfold TryHTTP. rewrite Ha, Hb. simpl. split_and!; done.
Qed.

(** Without a parsable request only the read side is tried as a response:
    [TryHTTP] reports an exchange exactly when the read side parses, and a
    server whose request bytes were missed is not recognised although its
    response is on the write side. *)
Theorem TryHTTP_no_request readBuf writeBuf :
  parseRequest readBuf = None -> parseRequest writeBuf = None ->
  TryHTTP readBuf writeBuf =
  match parseResponse readBuf None with
  | Some resp => (mkHTTP None [] (Some resp) (readBody (Response_Body resp)), true)
  | None => (mkHTTP None [] None [], false)
  end.
Proof. intros Hr Hw. unfold TryHTTP. rewrite Hr, Hw. by destruct (parseResponse readBuf None). Qed.

End TryHTTP.
Arguments HTTPExchange : clear implicits.
Arguments HTTPExchange {_}.

(** ** A concrete instance, for evaluating the model on examples

    It reads only the shape the examples use: a request is ["GET <path>"], a
    response ["HTTP <body>"] with status 200. *)
Definition tiny_http : NetHTTP := {|
  Request := bytes;
  Response := bytes;
  ReadRequest buf := if decide (take 4 buf = str "GET ") then Some (drop 4 buf) else None;
  ReadResponse buf _ := if decide (take 5 buf = str "HTTP ") then Some (drop 5 buf) else None;
  Body := bytes;
  Request_Body _ := [];
  Response_Body body := body;
  ReadAll body := (body, false);
  Method _ := str "GET";
  URL_Path path := path;
  StatusCode _ := 200%Z;
|}.

Lemma TryHTTP_role_symmetric_witness :
  is_Some (@parseRequest tiny_http (str "GET /medium")) /\
  @parseRequest tiny_http (str "HTTP ok") = None /\
  @TryHTTP tiny_http (str "GET /medium") (str "HTTP ok") =
    @TryHTTP tiny_http (str "HTTP ok") (str "GET /medium").
Proof.
  split; [by eexists|split; [run|]].
  apply (@TryHTTP_role_symmetric tiny_http (str "GET /medium") (str "HTTP ok")); [by eexists|run].
Defined.

Lemma TryHTTP_no_request_witness :
  @parseRequest tiny_http (str "ET /medium") = None /\
  @parseRequest tiny_http (str "HTTP ok") = None /\
  @TryHTTP tiny_http (str "ET /medium") (str "HTTP ok") = (mkHTTP None [] None [], false).
Proof.
  split; [run|split; [run|]].
  apply (@TryHTTP_no_request tiny_http (str "ET /medium") (str "HTTP ok")); run.
Defined.
