(* ===== verification/Streamer.v ===== *)
(** * internal/streamer: byte streams per connection

    The buffers of [Run] as a map from connection keys, one step per event, the
    end-of-trace flush, and the specification of the exchanges by sessions: the
    events of a connection since its last close. *)

From S2P Require Import Prelude GoStd Event Resp Http.
Local Open Scope Z_scope.
Local Open Scope go_scope.

(** ** Data *)

Inductive Protocol := ProtocolUnknown | ProtocolHTTP | ProtocolRedis.

Section Streamer.
Context `{Unicode, NetHTTP}.

(** [Exchange]; a nil HTTP pointer is [None]. *)
Record Exchange := mkExchange {
  ex_PID : Z;
  ex_FD : Z;
  ex_Protocol : Protocol;
  ex_HTTP : option HTTPExchange;
  ex_Redis : list RedisCall;
  ex_Truncated : bool;
}.

(** [decode]: HTTP first, then RESP with write=command and read=reply. *)
Definition decode (pid fd : Z) (readBuf writeBuf : bytes) (truncated : bool) :
    safe (Exchange * bool) :=
  let (httpEx, ok) := TryHTTP readBuf writeBuf in
  if (ok : bool) then
    Ok (mkExchange pid fd ProtocolHTTP (Some httpEx) [] truncated, true)
  else
    let? (calls, ok) := TryRESP writeBuf readBuf in
    if (ok : bool) then
      Ok (mkExchange pid fd ProtocolRedis None calls truncated, true)
    else
      Ok (mkExchange pid fd ProtocolUnknown None [] truncated, false).

End Streamer.
Arguments Exchange : clear implicits.
Arguments Exchange {_}.

Definition bufCap : Z := 64 * 1024.

(** [connKind] and [key] *)
Inductive connKind := connFD | connTLS.

#[global] Instance connKind_eq_dec : EqDecision connKind.
Proof. solve_decision. Defined.

Record key := mkKey { k_pid : Z; k_kind : connKind; k_id : Z }.

#[global] Instance key_eq_dec : EqDecision key.
Proof. solve_decision. Defined.

#[global] Instance key_countable : Countable key.
Proof.
  refine (inj_countable'
    (fun k => (k_pid k, match k_kind k with connFD => false | connTLS => true end, k_id k))
    (fun '(p, t, i) => mkKey p (if (t : bool) then connTLS else connFD) i) _).
  by intros [? [] ?].
Defined.

(** [connBufs] *)
Record connBufs := mkBufs { b_read : bytes; b_write : bytes; b_truncated : bool }.

Definition empty_bufs : connBufs := mkBufs [] [] false.

(** [appendCapped] *)
Definition appendCapped (dst add : bytes) : bytes :=
  let room := bufCap - Z.of_nat (length dst) in
  if room <=? 0 then dst
  else
    let add := if room <? Z.of_nat (length add) then take (Z.to_nat room) add else add in
    dst ++ add.

(** The first switch of [Run]: the connection an event belongs to. *)
Definition key_of (ev : Event) : option key :=
  if decide (Operation ev = OpRead \/ Operation ev = OpWrite \/ Operation ev = OpClose) then
    Some (mkKey (PID ev) connFD (uint64 (uint32 (FD ev))))
  else if decide (Operation ev = OpSSLRead \/ Operation ev = OpSSLWrite) then
    Some (mkKey (PID ev) connTLS (SSLPtr ev))
  else None.

(** The [OpRead]/[OpSSLRead] and [OpWrite]/[OpSSLWrite] cases on the buffers. *)
Definition on_read (ev : Event) (b : connBufs) : safe connBufs :=
  let? p := Payload ev in
  Ok (mkBufs (appendCapped (b_read b) p) (b_write b) (b_truncated b || Truncated ev)).
Definition on_write (ev : Event) (b : connBufs) : safe connBufs :=
  let? p := Payload ev in
  Ok (mkBufs (b_read b) (appendCapped (b_write b) p) (b_truncated b || Truncated ev)).

Section Run.
Context `{Unicode, NetHTTP}.

(** One decode attempt: the exchange sent on [out], if the bytes are
    recognised. *)
Definition emit (pid fd : Z) (b : connBufs) : safe (list Exchange) :=
  let? (ex, ok) := decode pid fd (b_read b) (b_write b) (b_truncated b) in
  Ok (if (ok : bool) then [ex] else []).

(** The body of the event loop, without the pass-through of the event itself:
    the new buffers and what is sent on [out].  [get] allocates the buffers of
    a key on first use, before [Payload] is taken; each [*connBufs] has the one
    map entry as its only reference, so the map holds them by value. *)
Definition step (bufs : gmap key connBufs) (ev : Event) :
    safe (gmap key connBufs * list Exchange) :=
  match key_of ev with
  | None => Ok (bufs, [])
  | Some k =>
      if decide (Operation ev = OpRead \/ Operation ev = OpSSLRead) then
        let? b := on_read ev (default empty_bufs (bufs !! k)) in
        Ok (<[k := b]> bufs, [])
      else if decide (Operation ev = OpWrite \/ Operation ev = OpSSLWrite) then
        let? b := on_write ev (default empty_bufs (bufs !! k)) in
        Ok (<[k := b]> bufs, [])
      else
        match bufs !! k with
        | Some b =>
            let? out := emit (PID ev) (FD ev) b in
            Ok (delete k bufs, out)
        | None => Ok (bufs, [])
        end
  end.

(** The event loop: [rawOut] and [exchanges] sent so far. *)
Fixpoint loop (bufs : gmap key connBufs) (events : list Event) :
    safe (gmap key connBufs * list Event * list Exchange) :=
  match events with
  | [] => Ok (bufs, [], [])
  | ev :: events =>
      let? (bufs, out) := step bufs ev in
      let? (bufs, raw, outs) := loop bufs events in
      Ok (bufs, ev :: raw, out ++ outs)
  end.

(** The end-of-trace flush over the entries in iteration order. *)
Definition flush_fd (k : key) : Z :=
  match k_kind k with connFD => int32 (k_id k) | connTLS => -1 end.

Fixpoint flush (entries : list (key * connBufs)) : safe (list Exchange) :=
  match entries with
  | [] => Ok []
  | (k, b) :: entries =>
      let? out := emit (k_pid k) (flush_fd k) b in
      let? outs := flush entries in
      Ok (out ++ outs)
  end.

(** [Run] as a whole: everything sent on the two channels until they close.
    [order] is the iteration order of the final [range bufs], which Go leaves
    unspecified. *)
Definition Run (order : list (key * connBufs) -> list (key * connBufs)) (events : list Event) :
    safe (list Event * list Exchange) :=
  let? (bufs, raw, outs) := loop ∅ events in
  let? flushed := flush (order (map_to_list bufs)) in
  Ok (raw, outs ++ flushed).

End Run.

(** ** Specification: sessions

    A connection's session is the list of its read and write events since its
    last close; its two streams are the concatenated payloads, cut at
    [bufCap]. *)

Definition is_close (ev : Event) : bool := bool_decide (Operation ev = OpClose).
Definition is_read (ev : Event) : bool :=
  bool_decide (Operation ev = OpRead \/ Operation ev = OpSSLRead).

Definition session_step (k : key) (s : list Event) (ev : Event) : list Event :=
  if decide (key_of ev = Some k) then if is_close ev then [] else s ++ [ev] else s.

Definition session (k : key) (hist : list Event) : list Event :=
  fold_left (session_step k) hist [].

Definition captured (ev : Event) : bytes := take (Z.to_nat (DataLen ev)) (Data ev).

Definition session_bufs (s : list Event) : connBufs :=
  mkBufs (take (Z.to_nat bufCap) (concat (map captured (List.filter is_read s))))
         (take (Z.to_nat bufCap) (concat (map captured (List.filter (fun ev => negb (is_read ev)) s))))
         (existsb Truncated s).

Definition session_entry (k : key) (hist : list Event) : option connBufs :=
  match session k hist with [] => None | s => Some (session_bufs s) end.

Section Spec.
Context `{Unicode, NetHTTP}.

(** The exchanges decoded at closes, each from the session it ends. *)
Definition spec_close (hist : list Event) (ev : Event) : safe (list Exchange) :=
  match key_of ev with
  | Some k =>
      if is_close ev then
        match session_entry k hist with
        | Some b => emit (PID ev) (FD ev) b
        | None => Ok []
        end
      else Ok []
  | None => Ok []
  end.

Fixpoint spec_closes (hist events : list Event) : safe (list Exchange) :=
  match events with
  | [] => Ok []
  | ev :: events =>
      let? out := spec_close hist ev in
      let? outs := spec_closes (hist ++ [ev]) events in
      Ok (out ++ outs)
  end.

End Spec.

(** ** Lemmas *)

Lemma appendCapped_take l add :
  appendCapped (take (Z.to_nat bufCap) l) add = take (Z.to_nat bufCap) (l ++ add).
Proof.
  unfold appendCapped. rewrite length_take, take_app.
  assert (0 <= bufCap) as Hc by done. generalize dependent bufCap. intros cap Hc.
  destruct (Z.leb_spec (cap - Z.of_nat (Z.to_nat cap `min` length l)) 0).
  - replace (Z.to_nat cap - length l)%nat with 0%nat by lia. by rewrite app_nil_r.
  - f_equal. destruct (Z.ltb_spec (cap - Z.of_nat (Z.to_nat cap `min` length l)) (Z.of_nat (length add))).
    + f_equal. lia.
    + rewrite take_ge; [done|lia].
Qed.

Lemma Payload_captured ev : DataLen ev <= dataCap -> Payload ev = Ok (captured ev).
Proof. intros. unfold Payload. by rewrite (proj2 (Z.leb_le _ _)) by done. Qed.

Lemma session_snoc k hist ev : session k (hist ++ [ev]) = session_step k (session k hist) ev.
Proof. unfold session. by rewrite fold_left_app. Qed.

Lemma session_bufs_snoc s ev :
  session_bufs (s ++ [ev]) =
  let b := session_bufs s in
  if is_read ev then mkBufs (appendCapped (b_read b) (captured ev)) (b_write b)
                       (b_truncated b || Truncated ev)
  else mkBufs (b_read b) (appendCapped (b_write b) (captured ev)) (b_truncated b || Truncated ev).
Proof.
  unfold session_bufs. cbn [b_read b_write b_truncated]. cbv zeta.
  rewrite !appendCapped_take, !List.filter_app, existsb_app. simpl. rewrite orb_false_r.
  destruct (is_read ev); simpl; by rewrite !map_app, !concat_app, ?app_nil_r; simpl; rewrite ?app_nil_r.
Qed.

Lemma session_bufs_nil : session_bufs [] = empty_bufs.
Proof. unfold session_bufs, empty_bufs. cbn [List.filter map concat existsb]. by rewrite take_nil. Qed.

Lemma session_entry_default k hist :
  default empty_bufs (session_entry k hist) = session_bufs (session k hist).
Proof.
  unfold session_entry. destruct (session k hist); [by rewrite session_bufs_nil|done].
Qed.

Section Lemmas.
Context `{Unicode, NetHTTP}.

(** The map's invariant: the entry of every key is its session's buffers. *)
Definition refines_hist (bufs : gmap key connBufs) (hist : list Event) : Prop :=
  forall k, bufs !! k = session_entry k hist.

Lemma refines_skip bufs hist ev :
  refines_hist bufs hist -> key_of ev = None -> refines_hist bufs (hist ++ [ev]).
Proof.
  intros Hb Hk k. rewrite Hb. unfold session_entry. rewrite session_snoc.
  unfold session_step. by rewrite decide_False by congruence.
Qed.

Lemma refines_add bufs hist ev k :
  refines_hist bufs hist -> key_of ev = Some k -> is_close ev = false ->
  refines_hist (<[k := session_bufs (session k hist ++ [ev])]> bufs) (hist ++ [ev]).
Proof.
  intros Hb Hk Hc k'. unfold session_entry. rewrite session_snoc. unfold session_step.
  rewrite Hk, Hc. destruct (decide (k = k')) as [->|Hne].
  - rewrite lookup_insert_eq, decide_True by done. by destruct (session k' hist).
  - rewrite lookup_insert_ne, decide_False by congruence. apply Hb.
Qed.

Lemma refines_close bufs hist ev k :
  refines_hist bufs hist -> key_of ev = Some k -> is_close ev = true ->
  refines_hist (delete k bufs) (hist ++ [ev]).
Proof.
  intros Hb Hk Hc k'. unfold session_entry. rewrite session_snoc. unfold session_step.
  rewrite Hk, Hc. destruct (decide (k = k')) as [->|Hne].
  - by rewrite lookup_delete_eq, decide_True by done.
  - rewrite lookup_delete_ne, decide_False by congruence. apply Hb.
Qed.

Lemma on_buffer bufs hist ev k :
  refines_hist bufs hist -> DataLen ev <= dataCap ->
  let b := default empty_bufs (bufs !! k) in
  on_read ev b = Ok (mkBufs (appendCapped (b_read b) (captured ev)) (b_write b)
                       (b_truncated b || Truncated ev)) /\
  on_write ev b = Ok (mkBufs (b_read b) (appendCapped (b_write b) (captured ev))
                        (b_truncated b || Truncated ev)) /\
  b = session_bufs (session k hist).
Proof.
  intros Hb Hd. unfold on_read, on_write. rewrite Payload_captured by done.
  split_and!; [done..|]. rewrite Hb. apply session_entry_default.
Qed.

Lemma step_refines bufs hist ev :
  refines_hist bufs hist -> DataLen ev <= dataCap ->
  exists bufs', step bufs ev = (let? out := spec_close hist ev in Ok (bufs', out)) /\
                refines_hist bufs' (hist ++ [ev]).
Proof.
  intros Hb Hd. unfold step, spec_close. destruct (key_of ev) as [k|] eqn:Hk.
  2:{ exists bufs. split; [done|by apply refines_skip]. }
  destruct (on_buffer bufs hist ev k Hb Hd) as (Hr & Hw & Hdef).
  pose proof (session_bufs_snoc (session k hist) ev) as Hsn. rewrite <-Hdef in Hsn.
  unfold is_read in Hsn. destruct (decide (Operation ev = OpRead \/ Operation ev = OpSSLRead)) as [Ho|Ho].
  { assert (is_close ev = false) as Hc
      by (unfold is_close; destruct Ho as [->| ->]; done).
    rewrite bool_decide_eq_true_2 in Hsn by done. rewrite Hc, Hr. simpl. rewrite <-Hsn.
    eexists. split; [done|]. by apply refines_add. }
  destruct (decide (Operation ev = OpWrite \/ Operation ev = OpSSLWrite)) as [Ho2|Ho2].
  { assert (is_close ev = false) as Hc
      by (unfold is_close; destruct Ho2 as [->| ->]; done).
    rewrite bool_decide_eq_false_2 in Hsn by done. rewrite Hc, Hw. simpl. rewrite <-Hsn.
    eexists. split; [done|]. by apply refines_add. }
  assert (is_close ev = true) as Hc.
  { unfold is_close. apply bool_decide_eq_true. unfold key_of in Hk. repeat case_decide; [tauto..|done]. }
  rewrite Hc. pose proof (refines_close bufs hist ev k Hb Hk Hc) as Hdel.
  rewrite <-Hb. destruct (bufs !! k) as [b|] eqn:E.
  - exists (delete k bufs). done.
  - exists bufs. split; [done|]. by rewrite delete_id in Hdel.
Qed.

Lemma loop_refines bufs hist events :
  refines_hist bufs hist -> Forall (fun ev => DataLen ev <= dataCap) events ->
  exists bufs', loop bufs events = (let? outs := spec_closes hist events in Ok (bufs', events, outs)) /\
                refines_hist bufs' (hist ++ events).
Proof.
  revert bufs hist. induction events as [|ev events IH]; intros bufs hist Hb Hev; simpl.
  - exists bufs. by rewrite app_nil_r.
  - inversion_clear Hev as [|? ? Hd Hevs].
    destruct (step_refines bufs hist ev Hb Hd) as (bufs1 & Hs & Hb1).
    destruct (IH bufs1 (hist ++ [ev]) Hb1 Hevs) as (bufs2 & Hl & Hb2).
    exists bufs2. rewrite <-app_assoc in Hb2. split; [|done].
    rewrite Hs. destruct (spec_close hist ev) as [out|[]|]; [simpl|done].
    rewrite Hl. by destruct (spec_closes _ _) as [|[]|].
Qed.

Definition bounded (b : connBufs) : Prop :=
  Z.of_nat (length (b_read b)) <= bufCap /\ Z.of_nat (length (b_write b)) <= bufCap.

Lemma appendCapped_bounded dst add :
  Z.of_nat (length dst) <= bufCap -> Z.of_nat (length (appendCapped dst add)) <= bufCap.
Proof.
  unfold appendCapped. generalize bufCap. intros cap Hd.
  destruct (Z.leb_spec (cap - Z.of_nat (length dst)) 0); [done|].
  destruct (Z.ltb_spec (cap - Z.of_nat (length dst)) (Z.of_nat (length add)));
    rewrite length_app, ?length_take; lia.
Qed.

Lemma step_bounded bufs ev bufs' out :
  map_Forall (fun _ => bounded) bufs -> step bufs ev = Ok (bufs', out) ->
  map_Forall (fun _ => bounded) bufs'.
Proof.
  intros Hb. assert (forall k, bounded (default empty_bufs (bufs !! k))) as Hd.
  { intros k. destruct (bufs !! k) eqn:E; [by eapply Hb|done]. }
  unfold step, on_read, on_write, obind. intros Hs. repeat case_match; simplify_eq/=; try done;
    try (by apply map_Forall_delete);
    (apply map_Forall_insert_2; [|done]; split; simpl; [..|]; try apply appendCapped_bounded;
     apply Hd).
Qed.

Lemma loop_bounded bufs events bufs' raw outs :
  map_Forall (fun _ => bounded) bufs -> loop bufs events = Ok (bufs', raw, outs) ->
  map_Forall (fun _ => bounded) bufs'.
Proof.
  revert bufs raw outs. induction events as [|ev events IH]; intros bufs raw outs Hb Hl;
    [by simplify_eq/=|].
  simpl in Hl. destruct (step bufs ev) as [[bufs1 out]|[]|] eqn:Hs; [simpl in Hl|done].
  apply step_bounded in Hs; [|done].
  destruct (loop bufs1 events) as [[[bufs2 raw2] outs2]|[]|] eqn:Hl2; [|done].
  simplify_eq/=. eauto.
Qed.

Lemma fd_roundtrip ev : wf_event ev -> int32 (uint64 (uint32 (FD ev))) = FD ev.
Proof.
  intros Hw. pose proof (wrapU_range 32 (FD ev) ltac:(lia)) as Hr.
  rewrite (wrapU_id 64); [apply wrapS_wrapU; [lia|by apply wf_FD]|].
  unfold inU in *. lia.
Qed.

(** The flush succeeds exactly when every entry decodes without a panic, and
    then sends what each entry emits on its own. *)
Definition emitted (entry : key * connBufs) : list Exchange :=
  match emit (k_pid entry.1) (flush_fd entry.1) entry.2 with Ok out => out | _ => [] end.
Definition emits (entry : key * connBufs) : Prop :=
  emit (k_pid entry.1) (flush_fd entry.1) entry.2 = Ok (emitted entry).

Lemma flush_Ok entries outs :
  flush entries = Ok outs <-> Forall emits entries /\ outs = flat_map emitted entries.
Proof.
  revert outs. induction entries as [|[k b] entries IH]; intros outs; simpl.
  - split; [by intros [= <-]|by intros [_ ->]].
  - rewrite Forall_cons. unfold emits, emitted. simpl.
    destruct (emit _ _ b) as [out|[]|]; simpl; [|naive_solver].
    destruct (flush entries) as [o|[]|]; simpl.
    + destruct (proj1 (IH o) eq_refl) as [? ->]. naive_solver.
    + split; [done|]. intros [[_ Hf] _]. discriminate (proj2 (IH _) (conj Hf eq_refl)).
Qed.

Lemma refines_empty : refines_hist ∅ [].
Proof. intros k. by rewrite lookup_empty. Qed.

End Lemmas.

(** ** Theorems *)

Section Theorems.
Context `{Unicode, NetHTTP}.

(** [C2] [Run] implements its specification: every event is passed through
    unchanged and in order; an exchange is decoded at each close from exactly
    the events of that connection since its previous close; and at the end of
    the trace every connection still open is decoded from its own last session.
    Connections never see each other's bytes, and each buffer is the
    connection's byte stream cut at [bufCap]. *)
Theorem Run_sessions order events :
  Forall (fun ev => DataLen ev <= dataCap) events ->
  exists bufs : gmap key connBufs,
    (forall k, bufs !! k = session_entry k events) /\
    Run order events =
      (let? closed := spec_closes [] events in
       let? flushed := flush (order (map_to_list bufs)) in
       Ok (events, closed ++ flushed)).
Proof.
  intros Hev. destruct (loop_refines ∅ [] events refines_empty Hev) as (bufs & Hl & Hb).
  exists bufs. split; [done|]. unfold Run. rewrite Hl.
  by destruct (spec_closes [] events) as [|[]|].
Qed.

(** The iteration order of the final [range bufs], which Go leaves
    unspecified, changes only the order of the flushed exchanges: if one order
    runs to completion so does every other, with the same pass-through and the
    same exchanges up to permutation. *)
Theorem Run_order_irrelevant order1 order2 events raw outs1 :
  (forall l, order1 l ≡ₚ l) -> (forall l, order2 l ≡ₚ l) ->
  Run order1 events = Ok (raw, outs1) ->
  exists outs2, Run order2 events = Ok (raw, outs2) /\ outs1 ≡ₚ outs2.
Proof.
  intros Ho1 Ho2. unfold Run.
  destruct (loop ∅ events) as [[[bufs raw'] outs]|[]|]; [simpl|done].
  destruct (flush (order1 _)) as [o1|[]|] eqn:E1; [|done]. intros [= <- <-].
  apply flush_Ok in E1 as [Hok ->].
  assert (order1 (map_to_list bufs) ≡ₚ order2 (map_to_list bufs)) as Hp by by rewrite Ho1, Ho2.
  assert (flush (order2 (map_to_list bufs)) = Ok (flat_map emitted (order2 (map_to_list bufs)))) as E2.
  { apply flush_Ok. split; [|done]. by rewrite <-Hp. }
  rewrite E2. eexists. split; [done|]. f_equiv. by apply Permutation_flat_map.
Qed.

(** The connection identity separates what it must: two events share
    buffers exactly when they come from the same process and are both plain
    syscalls on the same descriptor or both TLS calls on the same [SSL*]; a
    descriptor and a pointer with the same number never alias. *)
Theorem key_of_separates ev1 ev2 k1 k2 :
  wf_event ev1 -> wf_event ev2 -> key_of ev1 = Some k1 -> key_of ev2 = Some k2 ->
  k1 = k2 <->
  PID ev1 = PID ev2 /\
  ((k_kind k1 = connFD /\ k_kind k2 = connFD /\ FD ev1 = FD ev2) \/
   (k_kind k1 = connTLS /\ k_kind k2 = connTLS /\ SSLPtr ev1 = SSLPtr ev2)).
Proof.
  intros Hw1 Hw2 H1 H2. pose proof (fd_roundtrip ev1 Hw1) as E1.
  pose proof (fd_roundtrip ev2 Hw2) as E2. unfold key_of in H1, H2.
  repeat case_decide; simplify_eq/=; (split; [intros [=]|intros [? [(? & ? & ?)|(? & ? & ?)]]]);
    try congruence; (split; [done|]).
  - left. split_and!; congruence.
  - right. split_and!; congruence.
Qed.

(** The flush reports the descriptor the connection's events carried: the
    key's widened id converts back to the original [int32] (negative ones
    included), and TLS connections report -1. *)
Theorem flush_fd_of_event ev k :
  wf_event ev -> key_of ev = Some k ->
  flush_fd k = match k_kind k with connFD => FD ev | connTLS => -1 end.
Proof.
  intros Hw. unfold key_of, flush_fd. repeat case_decide; intros; simplify_eq/=; [|done].
  by apply fd_roundtrip.
Qed.

(** Memory is bounded: whatever the events, no buffer of [Run] ever
    exceeds [bufCap] bytes in either direction. *)
Theorem buffers_bounded events bufs raw outs k b :
  loop ∅ events = Ok (bufs, raw, outs) -> bufs !! k = Some b ->
  Z.of_nat (length (b_read b)) <= bufCap /\ Z.of_nat (length (b_write b)) <= bufCap.
Proof.
  intros Hl. apply (loop_bounded ∅ events bufs raw outs); [|done].
  intros k' b'. by rewrite lookup_empty.
Qed.

(** The buffer cap drops bytes silently: as long as each event was
    captured whole, the session's [truncated] flag stays false, however many
    bytes of its stream were dropped beyond [bufCap]. *)
Theorem bufCap_drop_unflagged s :
  Forall (fun ev => Truncated ev = false) s ->
  bufCap < Z.of_nat (length (concat (map captured (List.filter is_read s)))) ->
  b_truncated (session_bufs s) = false /\
  Z.of_nat (length (b_read (session_bufs s))) = bufCap.
Proof.
  intros Hs Hlen. unfold session_bufs. cbn [b_read b_truncated].
  split; [|rewrite length_take; unfold bufCap in *; lia]. clear Hlen.
  induction Hs as [|ev s Hev _ IH]; [done|]. simpl. by rewrite Hev.
Qed.
End Theorems.

(** ** Witnesses *)

(** A pooled Redis connection on fd 8, never closed, and an HTTP exchange on
    fd 5, closed, interleaved. *)
Definition sample_trace : list Event :=
  [sample_event OpWrite 8 (wire (command_value [str "set"; str "k"; str "v"]));
   sample_event OpRead 5 (str "GET /a");
   sample_event OpRead 8 (str "+OK" ++ crlf);
   sample_event OpConnect 9 [];
   sample_event OpWrite 5 (str "HTTP hi");
   sample_event OpClose 5 []].

Ltac small_events := repeat (constructor; [vm_compute; discriminate|]); constructor.
Ltac wf_sample := split; vm_compute; intuition congruence.

Example sample_trace_runs :
  @Run ascii_only tiny_http (fun l => l) sample_trace =
  Ok (sample_trace,
      [mkExchange 42 5 ProtocolHTTP (Some (@mkHTTP tiny_http (Some (str "/a")) [] (Some (str "hi")) (str "hi"))) [] false;
       mkExchange 42 8 ProtocolRedis None [mkCall [str "set"; str "k"; str "v"] (str "OK")] false]).
Proof. run. Qed.

Lemma Run_sessions_witness :
  Forall (fun ev => DataLen ev <= dataCap) sample_trace /\
  exists bufs : gmap key connBufs,
    (forall k, bufs !! k = session_entry k sample_trace) /\
    @Run ascii_only tiny_http (fun l => l) sample_trace =
      (let? closed := @spec_closes ascii_only tiny_http [] sample_trace in
       let? flushed := @flush ascii_only tiny_http (map_to_list bufs) in
       Ok (sample_trace, closed ++ flushed)).
Proof.
  assert (Forall (fun ev => DataLen ev <= dataCap) sample_trace) as Hs by small_events.
  split; [exact Hs|]. exact (@Run_sessions ascii_only tiny_http (fun l => l) sample_trace Hs).
Defined.

Lemma Run_order_irrelevant_witness :
  let outs := [mkExchange 42 5 ProtocolHTTP (Some (@mkHTTP tiny_http (Some (str "/a")) [] (Some (str "hi")) (str "hi"))) [] false;
       mkExchange 42 8 ProtocolRedis None [mkCall [str "set"; str "k"; str "v"] (str "OK")] false] in
  exists outs2,
    @Run ascii_only tiny_http (@rev _) sample_trace = Ok (sample_trace, outs2) /\ outs ≡ₚ outs2.
Proof.
  apply (@Run_order_irrelevant ascii_only tiny_http (fun l => l) (@rev _) sample_trace sample_trace).
  - intros l. reflexivity.
  - intros l. symmetry. apply Permutation_rev.
  - run.
Defined.

Lemma key_of_separates_witness :
  let ev1 := sample_event OpRead 5 (str "x") in
  let ev2 := mkEvent 42 43 0 (-1) OpSSLRead 0 5 0 0 0 0 (replicate 4096 Byte.x00) in
  wf_event ev1 /\ wf_event ev2 /\
  (mkKey 42 connFD 5 = mkKey 42 connTLS 5 <->
   PID ev1 = PID ev2 /\
   ((connFD = connFD /\ connTLS = connFD /\ FD ev1 = FD ev2) \/
    (connFD = connTLS /\ connTLS = connTLS /\ SSLPtr ev1 = SSLPtr ev2))).
Proof.
  intros ev1 ev2. assert (wf_event ev1) as H1 by wf_sample.
  assert (wf_event ev2) as H2 by wf_sample.
  split; [exact H1|split; [exact H2|]].
  exact (key_of_separates ev1 ev2 (mkKey 42 connFD 5) (mkKey 42 connTLS 5) H1 H2 eq_refl eq_refl).
Defined.

Lemma flush_fd_of_event_witness :
  wf_event (sample_event OpRead (-7) []) /\
  flush_fd (mkKey 42 connFD (2 ^ 32 - 7)) = -7.
Proof.
  assert (wf_event (sample_event OpRead (-7) [])) as H by wf_sample.
  split; [exact H|].
  exact (flush_fd_of_event (sample_event OpRead (-7) []) (mkKey 42 connFD (2 ^ 32 - 7)) H eq_refl).
Defined.

Lemma buffers_bounded_witness :
  let ev := sample_event OpRead 5 (str "abc") in
  let b := mkBufs (str "abc") [] false in
  @loop ascii_only tiny_http ∅ [ev] = Ok (<[mkKey 42 connFD 5 := b]> ∅, [ev], []) /\
  Z.of_nat (length (b_read b)) <= bufCap /\ Z.of_nat (length (b_write b)) <= bufCap.
Proof.
  split; [run|].
  apply (@buffers_bounded ascii_only tiny_http [sample_event OpRead 5 (str "abc")]
    (<[mkKey 42 connFD 5 := mkBufs (str "abc") [] false]> ∅)
    [sample_event OpRead 5 (str "abc")] [] (mkKey 42 connFD 5)); run.
Defined.

Lemma bufCap_drop_unflagged_witness :
  let s := replicate 17 (sample_event OpRead 5 (replicate 4096 Byte.x61)) in
  Forall (fun ev => Truncated ev = false) s /\
  b_truncated (session_bufs s) = false /\ Z.of_nat (length (b_read (session_bufs s))) = bufCap.
Proof.
  assert (Forall (fun ev => Truncated ev = false)
            (replicate 17 (sample_event OpRead 5 (replicate 4096 Byte.x61)))) as Hs.
  { repeat (constructor; [vm_compute; reflexivity|]). constructor. }
  split; [exact Hs|]. apply (bufCap_drop_unflagged _ Hs). vm_compute. reflexivity.
Defined.
