(* ===== verification/StreamerOrder.v ===== *)
(** * internal/streamer: the order of events of different connections

    [Run] on two traces in which every connection has the same events in the same
    order: with the two ring buffers of [trace --tls], and with several threads,
    that is all the order of arrival can change.  The exchanges are the same up
    to their order. *)

From S2P Require Import Prelude GoStd Event Http Streamer.
Local Open Scope Z_scope.
Local Open Scope go_scope.

(** ** Traces that differ in the interleaving only *)

Definition of_key (k : key) (ev : Event) : bool := bool_decide (key_of ev = Some k).

Definition same_streams (evs evs' : list Event) : Prop :=
  forall k, List.filter (of_key k) evs = List.filter (of_key k) evs'.

#[global] Instance same_streams_equiv : Equivalence same_streams.
Proof. split; [by intros ? ?|by intros ? ? H k|intros ? ? ? H1 H2 k; by rewrite H1]. Qed.

Lemma of_key_eq k ev : of_key k ev = true <-> key_of ev = Some k.
Proof. apply bool_decide_eq_true. Qed.

(** Only the keys that occur matter. *)
Lemma filter_key_none k evs : k ∉ omap key_of evs -> List.filter (of_key k) evs = [].
Proof.
  intros Hk. induction evs as [|ev evs IH]; [done|]. simpl. rewrite list_elem_of_omap in Hk.
  destruct (of_key k ev) eqn:E.
  - apply of_key_eq in E. destruct Hk. exists ev. split; [by left|done].
  - apply IH. rewrite list_elem_of_omap. intros (ev' & ? & ?). apply Hk. exists ev'. split; [by right|done].
Qed.

Lemma same_streams_check evs evs' :
  Forall (fun k => List.filter (of_key k) evs = List.filter (of_key k) evs') (omap key_of (evs ++ evs')) ->
  same_streams evs evs'.
Proof.
  rewrite Forall_forall. intros Hf k. destruct (decide (k ∈ omap key_of (evs ++ evs'))) as [|Hk]; [by apply Hf|].
  rewrite omap_app, elem_of_app in Hk. by rewrite !filter_key_none by tauto.
Qed.

#[global] Instance same_streams_dec : RelDecision same_streams.
Proof.
  intros evs evs'.
  destruct (decide (Forall (fun k => List.filter (of_key k) evs = List.filter (of_key k) evs')
    (omap key_of (evs ++ evs')))) as [Hf|Hf]; [left; by apply same_streams_check|right].
  intros Hs. apply Hf. apply Forall_forall. intros k _. apply Hs.
Defined.

Section Order.
Context `{Unicode, NetHTTP}.

(** Runs that end alike: the same exchanges up to their order, or a panic. *)
Definition same_exchanges (r r' : safe (list Event * list Exchange)) : Prop :=
  match r, r' with
  | Ok (_, exs), Ok (_, exs') => exs ≡ₚ exs'
  | Panic _, Panic _ => True
  | _, _ => False
  end.

(** ** One connection at a time *)

(** [step] on the entry of the event's own key. *)
Definition key_step (o : option connBufs) (ev : Event) : safe (option connBufs * list Exchange) :=
  if decide (Operation ev = OpRead \/ Operation ev = OpSSLRead) then
    let? b := on_read ev (default empty_bufs o) in Ok (Some b, [])
  else if decide (Operation ev = OpWrite \/ Operation ev = OpSSLWrite) then
    let? b := on_write ev (default empty_bufs o) in Ok (Some b, [])
  else
    match o with
    | Some b => let? out := emit (PID ev) (FD ev) b in Ok (None, out)
    | None => Ok (None, [])
    end.

Fixpoint key_loop (o : option connBufs) (evs : list Event) : safe (option connBufs * list Exchange) :=
  match evs with
  | [] => Ok (o, [])
  | ev :: evs =>
      let? (o, out) := key_step o ev in
      let? (o, outs) := key_loop o evs in
      Ok (o, out ++ outs)
  end.

Lemma step_key bufs ev k :
  key_of ev = Some k ->
  step bufs ev = let? (o, out) := key_step (bufs !! k) ev in Ok (partial_alter (fun _ => o) k bufs, out).
Proof.
  intros Hk. unfold step, key_step. rewrite Hk. case_decide; [by destruct (on_read _ _) as [|[]|]|].
  case_decide; [by destruct (on_write _ _) as [|[]|]|].
  destruct (bufs !! k) as [b|] eqn:Hb; [by destruct (emit _ _ b) as [|[]|]|]. simpl.
  f_equal. f_equal. symmetry. apply map_eq. intros j. destruct (decide (j = k)) as [->|Hj].
  - by rewrite lookup_partial_alter_eq.
  - by rewrite lookup_partial_alter_ne.
Qed.

Lemma filter_key k ev evs :
  List.filter (of_key k) (ev :: evs) =
  if decide (key_of ev = Some k) then ev :: List.filter (of_key k) evs else List.filter (of_key k) evs.
Proof. simpl. unfold of_key at 1. by case_decide; [rewrite bool_decide_eq_true_2|rewrite bool_decide_eq_false_2]. Qed.

(** What one key gets comes first, the others as they were. *)
Lemma flat_map_first {A} (f f' : key -> list A) out k ks :
  NoDup ks -> k ∈ ks -> f k = out ++ f' k -> (forall j, j <> k -> f j = f' j) ->
  flat_map f ks ≡ₚ out ++ flat_map f' ks.
Proof.
  intros Hnd Hk Hf Ho. apply list_elem_of_split in Hk as (l1 & l2 & ->).
  apply NoDup_app in Hnd as (_ & H1 & [H2 _]%NoDup_cons).
  assert (forall l, k ∉ l -> flat_map f l = flat_map f' l) as Hsame.
  { intros l Hl. induction l as [|j l IH]; [done|]. apply not_elem_of_cons in Hl as [Hj Hl].
    simpl. rewrite IH by done. by rewrite Ho. }
  rewrite !flat_map_app. simpl. rewrite Hf, (Hsame l1), (Hsame l2); [solve_Permutation|done|].
  intros Hin. apply (H1 k Hin). by left.
Qed.

(** A run of the loop is a run of every key's own events. *)
Lemma loop_keys evs bufs bufs' raw outs :
  loop bufs evs = Ok (bufs', raw, outs) ->
  exists f : key -> list Exchange,
    (forall k, key_loop (bufs !! k) (List.filter (of_key k) evs) = Ok (bufs' !! k, f k)) /\
    forall ks, NoDup ks -> (forall ev k, ev ∈ evs -> key_of ev = Some k -> k ∈ ks) -> outs ≡ₚ flat_map f ks.
Proof.
  revert bufs outs raw. induction evs as [|ev evs IH]; intros bufs outs raw Hl.
  { simpl in Hl. simplify_eq. exists (fun _ => []). split; [done|]. intros ks _ _.
    induction ks; [done|]. done. }
  simpl in Hl. destruct (step bufs ev) as [[bufs1 out]|[]|] eqn:Es; [simpl in Hl|done].
  destruct (loop bufs1 evs) as [[[bufs2 raw2] outs2]|[]|] eqn:El; [|done]. simpl in Hl.
  injection Hl as <- <- <-. destruct (IH _ _ _ El) as (f' & Hf' & Hp). destruct (key_of ev) as [k|] eqn:Ek.
  - rewrite (step_key _ _ _ Ek) in Es. destruct (key_step (bufs !! k) ev) as [[o out']|[]|] eqn:Eks; [|done].
    simpl in Es. injection Es as <- <-. exists (fun j => if decide (j = k) then out' ++ f' j else f' j). split.
    + intros j. rewrite filter_key. specialize (Hf' j). destruct (decide (j = k)) as [->|Hj].
      * rewrite decide_True by done. simpl. rewrite Eks. simpl.
        rewrite lookup_partial_alter_eq in Hf'. by rewrite Hf'.
      * rewrite decide_False by congruence. by rewrite lookup_partial_alter_ne in Hf'.
    + intros ks Hnd Hin. rewrite (Hp ks Hnd) by (intros; eapply Hin; [by right|done]). symmetry.
      apply (flat_map_first _ _ out' k); [done|by eapply Hin; [left|]|by rewrite decide_True|].
      intros j Hj. by rewrite decide_False.
  - unfold step in Es. rewrite Ek in Es. injection Es as <- <-. exists f'. split.
    + intros j. rewrite filter_key, decide_False by congruence. apply Hf'.
    + intros ks Hnd Hin. apply (Hp ks Hnd). intros; eapply Hin; [by right|done].
Qed.

(** And the other way round: it panics only if one of those does. *)
Lemma loop_runs evs bufs :
  (forall k, exists r, key_loop (bufs !! k) (List.filter (of_key k) evs) = Ok r) ->
  exists r, loop bufs evs = Ok r.
Proof.
  revert bufs. induction evs as [|ev evs IH]; intros bufs Hk; [by eexists|]. simpl.
  assert (exists bufs1 out, step bufs ev = Ok (bufs1, out) /\
    forall k, exists r, key_loop (bufs1 !! k) (List.filter (of_key k) evs) = Ok r) as (bufs1 & out & -> & Hk1).
  { destruct (key_of ev) as [k|] eqn:Ek.
    - rewrite (step_key _ _ _ Ek). pose proof (Hk k) as [r Hr]. rewrite filter_key, decide_True in Hr by done.
      simpl in Hr. destruct (key_step (bufs !! k) ev) as [[o out]|[]|]; [|done]. simpl in Hr |- *.
      eexists _, _. split; [done|]. intros j. destruct (decide (j = k)) as [->|Hj].
      + rewrite lookup_partial_alter_eq. destruct (key_loop o _) as [[]|[]|]; [by eexists|done].
      + rewrite lookup_partial_alter_ne by done. specialize (Hk j).
        by rewrite filter_key, decide_False in Hk by congruence.
    - exists bufs, []. unfold step. rewrite Ek. split; [done|]. intros j. specialize (Hk j).
      by rewrite filter_key, decide_False in Hk by congruence. }
  simpl. destruct (IH bufs1 Hk1) as [[[bufs2 raw] outs] ->]. by eexists.
Qed.

(** ** Theorem *)

Lemma Run_same order order' evs evs' raw exs :
  (forall l, order l ≡ₚ l) -> (forall l, order' l ≡ₚ l) -> same_streams evs evs' ->
  Run order evs = Ok (raw, exs) -> exists raw' exs', Run order' evs' = Ok (raw', exs') /\ exs ≡ₚ exs'.
Proof.
  intros Ho Ho' Hs. unfold Run. destruct (loop ∅ evs) as [[[bufs raw1] outs]|[]|] eqn:El; [simpl|done].
  destruct (loop_keys _ _ _ _ _ El) as (f & Hf & Hp).
  destruct (loop_runs evs' ∅) as [[[bufs' raw2] outs'] El'].
  { intros k. rewrite <-Hs, Hf. by eexists. }
  rewrite El'. simpl. destruct (loop_keys _ _ _ _ _ El') as (f' & Hf' & Hp').
  assert (forall k, bufs !! k = bufs' !! k /\ f k = f' k) as He.
  { intros k. specialize (Hf k). specialize (Hf' k). rewrite Hs, Hf' in Hf. by simplify_eq. }
  assert (bufs' = bufs) as -> by (apply map_eq; intros k; symmetry; apply He).
  destruct (flush (order _)) as [o1|[]|] eqn:E1; [|done]. intros [= <- <-].
  apply flush_Ok in E1 as [Hok ->].
  assert (order (map_to_list bufs) ≡ₚ order' (map_to_list bufs)) as Hperm by by rewrite Ho, Ho'.
  assert (flush (order' (map_to_list bufs)) = Ok (flat_map emitted (order' (map_to_list bufs)))) as E2.
  { apply flush_Ok. split; [|done]. by rewrite <-Hperm. }
  rewrite E2. eexists _, _. split; [done|].
  set (ks := elements (list_to_set (omap key_of (evs ++ evs')) : gset key)).
  assert (forall ev k, ev ∈ evs ++ evs' -> key_of ev = Some k -> k ∈ ks) as Hks.
  { intros ev k Hin Hk. apply elem_of_elements, elem_of_list_to_set, list_elem_of_omap. by exists ev. }
  assert (NoDup ks) as Hnd by apply NoDup_elements.
  rewrite (Hp ks Hnd), (Hp' ks Hnd) by (intros ev k Hin; apply Hks, elem_of_app; auto).
  rewrite (flat_map_ext f f') by (intros k; apply He). f_equiv. by apply Permutation_flat_map.
Qed.

Lemma Run_streams order order' evs evs' :
  (forall l, order l ≡ₚ l) -> (forall l, order' l ≡ₚ l) -> same_streams evs evs' ->
  same_exchanges (Run order evs) (Run order' evs').
Proof.
  intros Ho Ho' Hs. destruct (Run order evs) as [[raw exs]|[]|] eqn:E.
  - destruct (Run_same order order' evs evs' raw exs Ho Ho' Hs E) as (raw' & exs' & -> & Hp). done.
  - destruct (Run order' evs') as [[raw' exs']|[]|] eqn:E'; [|done].
    symmetry in Hs. destruct (Run_same order' order evs' evs raw' exs' Ho' Ho Hs E') as (? & ? & ? & _). congruence.
Qed.

#[global] Instance Run_proper order :
  (forall l, order l ≡ₚ l) -> Proper (same_streams ==> same_exchanges) (Run order).
Proof. intros Ho evs evs'. by apply Run_streams. Qed.

(** [C20] The exchanges do not depend on how the events of different connections
    interleave, nor on the iteration order of the final [range bufs]: on traces
    with the same events of each connection in the same order, [Run] sends the
    same exchanges up to their order, or panics on both. *)
Theorem Run_interleaving order order' evs evs' :
  (forall l, order l ≡ₚ l) -> (forall l, order' l ≡ₚ l) -> same_streams evs evs' ->
  same_exchanges (Run order evs) (Run order' evs').
Proof. apply Run_streams. Qed.

End Order.

(** ** Witness *)

(** A request on descriptor 5 and a command on 6, one after the other and
    interleaved. *)
Definition two_in_turn : list Event :=
  [sample_event OpRead 5 (str "GET /a"); sample_event OpWrite 5 (str "HTTP hi"); sample_event OpClose 5 [];
   sample_event OpWrite 6 (str "*1" ++ crlf ++ str "$3" ++ crlf ++ str "GET" ++ crlf); sample_event OpRead 6 (str "+OK" ++ crlf)].
Definition two_interleaved : list Event :=
  [sample_event OpWrite 6 (str "*1" ++ crlf ++ str "$3" ++ crlf ++ str "GET" ++ crlf); sample_event OpRead 5 (str "GET /a");
   sample_event OpRead 6 (str "+OK" ++ crlf); sample_event OpWrite 5 (str "HTTP hi"); sample_event OpClose 5 []].

Lemma Run_interleaving_witness :
  same_streams two_in_turn two_interleaved /\
  @same_exchanges tiny_http (@Run ascii_only tiny_http (fun l => l) two_in_turn)
    (@Run ascii_only tiny_http reverse two_interleaved) /\
  match @Run ascii_only tiny_http (fun l => l) two_in_turn with Ok (_, exs) => length exs = 2%nat | _ => False end.
Proof.
  assert (same_streams two_in_turn two_interleaved) as Hs
    by (apply (bool_decide_unpack (same_streams two_in_turn two_interleaved)); vm_compute; exact I).
  split; [exact Hs|split].
  - apply (@Run_interleaving ascii_only tiny_http); [done|apply reverse_Permutation|exact Hs].
  - run.
Defined.
