(* ===== verification/Correlator.v ===== *)
(** * internal/correlator: connection lifecycles

    The tracked connections of [Run] as a map from (pid, fd), one step per
    event, the stream of snapshots, and their specification: one lifecycle per
    observed connect. *)

From S2P Require Import Prelude GoStd Event.
Local Open Scope Z_scope.

(** ** Data *)

(** [time.Time] as nanoseconds since the epoch; 0 is also the zero value. *)
Abbreviation Time := Z.

(** [Connection] *)
Record Connection := mkConn {
  Seq : Z;
  c_PID : Z;
  c_FD : Z;
  Comm : bytes;
  c_RemoteAddr : Z;
  c_RemotePort : Z;
  BytesOut : Z;
  BytesIn : Z;
  Opened : Time;
  Closed : bool;
  ClosedAt : Time;
}.

#[global] Instance Connection_eq_dec : EqDecision Connection.
Proof. solve_decision. Defined.

(** [Connection.RemoteAddrString] *)
Definition conn_RemoteAddrString (c : Connection) : bytes :=
  FormatIPv4Port (c_RemoteAddr c) (c_RemotePort c).

(** [key] *)
Record key := mkKey { k_pid : Z; k_fd : Z }.

#[global] Instance key_eq_dec : EqDecision key.
Proof. solve_decision. Defined.

#[global] Instance key_countable : Countable key.
Proof.
  refine (inj_countable' (fun k => (k_pid k, k_fd k)) (fun '(p, f) => mkKey p f) _).
  by intros [].
Defined.

(** The variables of [Run]'s goroutine.  Every [*Connection] is referenced from
    its map entry only (the channel gets copies), so the map holds the value. *)
Record state := mkState { tracked : gmap key Connection; nextSeq : Z }.

Definition init : state := mkState ∅ 0.

Section Run.
(** [timeOf], and [collector.Comm], which reads /proc when the connection with
    the given sequence number is opened. *)
Context (timeOf : Event -> Time) (commOf : Z -> Z -> bytes).

(** ** Operations *)

Definition opened (seq : Z) (ev : Event) : Connection :=
  mkConn seq (PID ev) (FD ev) (commOf seq (PID ev)) (RemoteAddr ev) (RemotePort ev)
    0 0 (timeOf ev) false 0.
Definition add_out (ev : Event) (c : Connection) : Connection :=
  mkConn (Seq c) (c_PID c) (c_FD c) (Comm c) (c_RemoteAddr c) (c_RemotePort c)
    (uint64 (BytesOut c + TotalLen ev)) (BytesIn c) (Opened c) (Closed c) (ClosedAt c).
Definition add_in (ev : Event) (c : Connection) : Connection :=
  mkConn (Seq c) (c_PID c) (c_FD c) (Comm c) (c_RemoteAddr c) (c_RemotePort c)
    (BytesOut c) (uint64 (BytesIn c + TotalLen ev)) (Opened c) (Closed c) (ClosedAt c).
Definition closed (ev : Event) (c : Connection) : Connection :=
  mkConn (Seq c) (c_PID c) (c_FD c) (Comm c) (c_RemoteAddr c) (c_RemotePort c)
    (BytesOut c) (BytesIn c) (Opened c) true (timeOf ev).

Definition key_of (ev : Event) : key := mkKey (PID ev) (FD ev).

(** Update the tracked connection of [k] in place and send its snapshot. *)
Definition update (st : state) (k : key) (f : Connection -> Connection) :
    state * list Connection :=
  match tracked st !! k with
  | Some c => (mkState (<[k := f c]> (tracked st)) (nextSeq st), [f c])
  | None => (st, [])
  end.

(** The switch of [Run]'s loop: the new state and the snapshots sent. *)
Definition step (st : state) (ev : Event) : state * list Connection :=
  let k := key_of ev in
  if decide (Operation ev = OpConnect) then
    let seq := uint64 (nextSeq st + 1) in
    let c := opened seq ev in
    (mkState (<[k := c]> (tracked st)) seq, [c])
  else if decide (Operation ev = OpWrite) then update st k (add_out ev)
  else if decide (Operation ev = OpRead) then update st k (add_in ev)
  else if decide (Operation ev = OpClose) then
    match tracked st !! k with
    | Some c => (mkState (delete k (tracked st)) (nextSeq st), [closed ev c])
    | None => (st, [])
    end
  else (st, []).

Fixpoint loop (st : state) (events : list Event) : state * list Event * list Connection :=
  match events with
  | [] => (st, [], [])
  | ev :: events =>
      let '(st, out) := step st ev in
      let '(st, raw, conns) := loop st events in
      (st, ev :: raw, out ++ conns)
  end.

(** [Run]: everything sent on the two channels until they close. *)
Definition Run (events : list Event) : list Event * list Connection :=
  let '(_, raw, conns) := loop init events in (raw, conns).

End Run.

(** ** Specification: lifecycles

    The current life of (pid, fd) in a history of events: the connect that
    started it, its ordinal among all connects, and the reads and writes since;
    nothing when the descriptor was never connected or was closed since. *)

Record life := mkLife { l_seq : Z; l_connect : Event; l_data : list Event }.

Definition is_op (op : Z) (ev : Event) : bool := bool_decide (Operation ev = op).

(** How many connects the history holds. *)
Definition connects (hist : list Event) : Z :=
  Z.of_nat (length (List.filter (is_op OpConnect) hist)).

Definition life_step (k : key) (hist : list Event) (l : option life) (ev : Event) : option life :=
  if decide (key_of ev = k) then
    if is_op OpConnect ev then Some (mkLife (connects (hist ++ [ev])) ev [])
    else if is_op OpClose ev then None
    else option_map (fun l => mkLife (l_seq l) (l_connect l) (l_data l ++ [ev])) l
  else l.

Fixpoint life_from (k : key) (hist : list Event) (l : option life) (events : list Event) :
    option life :=
  match events with
  | [] => l
  | ev :: events => life_from k (hist ++ [ev]) (life_step k hist l ev) events
  end.

Definition life_of (k : key) (hist : list Event) : option life := life_from k [] None hist.

(** Total bytes of the [op] events of a life. *)
Definition total (op : Z) (data : list Event) : Z :=
  foldr (fun ev acc => TotalLen ev + acc) 0 (List.filter (is_op op) data).

Section Spec.
Context (timeOf : Event -> Time) (commOf : Z -> Z -> bytes).

(** The snapshot of a life: counters are 64-bit. *)
Definition snapshot (l : life) : Connection :=
  let seq := uint64 (l_seq l) in
  let ev := l_connect l in
  mkConn seq (PID ev) (FD ev) (commOf seq (PID ev)) (RemoteAddr ev) (RemotePort ev)
    (uint64 (total OpWrite (l_data l))) (uint64 (total OpRead (l_data l))) (timeOf ev) false 0.

(** What one event adds to the snapshots, given the events before it. *)
Definition spec_step (hist : list Event) (ev : Event) : list Connection :=
  let k := key_of ev in
  if is_op OpClose ev then
    option_list (closed timeOf ev <$> (snapshot <$> life_of k hist))
  else if is_op OpConnect ev || is_op OpRead ev || is_op OpWrite ev then
    option_list (snapshot <$> life_of k (hist ++ [ev]))
  else [].

Fixpoint spec_snapshots (hist events : list Event) : list Connection :=
  match events with
  | [] => []
  | ev :: events => spec_step hist ev ++ spec_snapshots (hist ++ [ev]) events
  end.
End Spec.

(** ** Lemmas *)

Lemma life_from_snoc k hist l events ev :
  life_from k hist l (events ++ [ev]) =
  life_step k (hist ++ events) (life_from k hist l events) ev.
Proof.
  revert hist l. induction events as [|ev' events IH]; intros hist l; simpl.
  - by rewrite app_nil_r.
  - by rewrite IH, <-app_assoc.
Qed.

Lemma life_of_snoc k hist ev : life_of k (hist ++ [ev]) = life_step k hist (life_of k hist) ev.
Proof. apply life_from_snoc. Qed.

Lemma total_snoc op data ev :
  total op (data ++ [ev]) = total op data + (if is_op op ev then TotalLen ev else 0).
Proof.
  unfold total. rewrite List.filter_app, foldr_app. simpl. destruct (is_op op ev); simpl.
  - induction (List.filter (is_op op) data); simpl; lia.
  - lia.
Qed.

Lemma uint64_add a b : uint64 (uint64 a + b) = uint64 (a + b).
Proof. unfold wrapU. by rewrite Z.add_mod_idemp_l. Qed.

Lemma connects_snoc hist ev :
  connects (hist ++ [ev]) = connects hist + (if is_op OpConnect ev then 1 else 0).
Proof.
  unfold connects. rewrite List.filter_app, length_app. simpl.
  destruct (is_op OpConnect ev); simpl; lia.
Qed.

Section Refinement.
Context (timeOf : Event -> Time) (commOf : Z -> Z -> bytes).
Notation snapshot := (snapshot timeOf commOf).

(** The invariant of the loop's state after a history of events. *)
Record refines (st : state) (hist : list Event) : Prop := {
  ref_tracked : forall k, tracked st !! k = snapshot <$> life_of k hist;
  ref_seq : nextSeq st = uint64 (connects hist);
}.

Lemma refines_other st hist ev :
  refines st hist ->
  is_op OpConnect ev = false -> is_op OpClose ev = false ->
  is_op OpRead ev = false -> is_op OpWrite ev = false -> refines st (hist ++ [ev]).
Proof.
  intros [Ht Hs] Hc Hcl Hr Hw. split.
  - intros k. rewrite Ht, life_of_snoc. unfold life_step. rewrite Hc, Hcl.
    case_decide; [|done]. destruct (life_of k hist) as [l|]; [|done]. simpl. f_equal.
    unfold snapshot. simpl. by rewrite !total_snoc, Hr, Hw, !Z.add_0_r.
  - by rewrite Hs, connects_snoc, Hc, Z.add_0_r.
Qed.

(** A read or write: the tracked connection and its snapshot are updated. *)
Lemma refines_update st hist ev f st' out :
  refines st hist -> is_op OpConnect ev = false -> is_op OpClose ev = false ->
  (forall l, f (snapshot l) = snapshot (mkLife (l_seq l) (l_connect l) (l_data l ++ [ev]))) ->
  update st (key_of ev) f = (st', out) ->
  refines st' (hist ++ [ev]) /\ out = option_list (snapshot <$> life_of (key_of ev) (hist ++ [ev])).
Proof.
  intros [Ht Hs] Hc Hcl Hf. unfold update. rewrite Ht, life_of_snoc. unfold life_step at 1.
  rewrite Hc, Hcl, decide_True by done.
  assert (nextSeq st = uint64 (connects (hist ++ [ev]))) as Hs'
    by (by rewrite Hs, connects_snoc, Hc, Z.add_0_r).
  destruct (life_of (key_of ev) hist) as [l|] eqn:E; intros [= <- <-]; simpl.
  - rewrite Hf. split; [split; [|done]|done]. intros k. rewrite life_of_snoc.
    unfold life_step. rewrite Hc, Hcl. cbn [tracked].
    destruct (decide (key_of ev = k)) as [<-|?].
    + by rewrite lookup_insert_eq, E.
    + by rewrite lookup_insert_ne.
  - split; [split; [|done]|done]. intros k. rewrite life_of_snoc. unfold life_step.
    rewrite Hc, Hcl. case_decide as Hk; [|apply Ht]. subst k. by rewrite Ht, E.
Qed.

Lemma refines_connect st hist ev :
  refines st hist -> is_op OpConnect ev = true ->
  let seq := uint64 (nextSeq st + 1) in
  let c := opened timeOf commOf seq ev in
  refines (mkState (<[key_of ev := c]> (tracked st)) seq) (hist ++ [ev]) /\
  [c] = option_list (snapshot <$> life_of (key_of ev) (hist ++ [ev])).
Proof.
  intros [Ht Hs] Hc seq c.
  assert (seq = uint64 (connects (hist ++ [ev]))) as Hseq.
  { unfold seq. by rewrite Hs, connects_snoc, Hc, uint64_add. }
  assert (Some c = snapshot <$> life_of (key_of ev) (hist ++ [ev])) as Hl.
  { rewrite life_of_snoc. unfold life_step. rewrite decide_True, Hc by done.
    unfold c, opened, snapshot. simpl. by rewrite Hseq. }
  split; [split|].
  - intros k. simpl. destruct (decide (key_of ev = k)) as [<-|Hk].
    + by rewrite lookup_insert_eq.
    + rewrite lookup_insert_ne, life_of_snoc by done. unfold life_step.
      by rewrite decide_False.
  - done.
  - by rewrite <-Hl.
Qed.

Lemma conn_refines_close st hist ev :
  refines st hist -> is_op OpConnect ev = false -> is_op OpClose ev = true ->
  refines (mkState (delete (key_of ev) (tracked st)) (nextSeq st)) (hist ++ [ev]).
Proof.
  intros [Ht Hs] Hc Hcl. split.
  - intros k. simpl. rewrite life_of_snoc. unfold life_step. rewrite Hc, Hcl.
    destruct (decide (key_of ev = k)) as [<-|Hk].
    + by rewrite lookup_delete_eq.
    + by rewrite lookup_delete_ne.
  - by rewrite connects_snoc, Hc, Z.add_0_r.
Qed.

Lemma is_op_ne op1 op2 ev : Operation ev = op1 -> op1 <> op2 -> is_op op2 ev = false.
Proof. intros <- ?. by apply bool_decide_eq_false. Qed.
Lemma is_op_eq op ev : Operation ev = op -> is_op op ev = true.
Proof. intros. by apply bool_decide_eq_true. Qed.

Lemma conn_step_refines st hist ev st' out :
  refines st hist -> step timeOf commOf st ev = (st', out) ->
  refines st' (hist ++ [ev]) /\ out = spec_step timeOf commOf hist ev.
Proof.
  intros Hr. unfold step, spec_step.
  destruct (decide (Operation ev = OpConnect)) as [Ho|Hc].
  { rewrite (is_op_ne OpConnect OpClose), (is_op_eq OpConnect) by done. intros [= <- <-].
    apply refines_connect; [done|by apply is_op_eq]. }
  apply (bool_decide_eq_false_2 _) in Hc. change (is_op OpConnect ev = false) in Hc. rewrite Hc.
  destruct (decide (Operation ev = OpWrite)) as [Ho|Hw].
  { rewrite (is_op_ne OpWrite OpClose), (is_op_eq OpWrite), orb_true_r by done. intros Hu.
    apply (refines_update _ hist _ _ _ _ Hr) in Hu; [done|done|by apply (is_op_ne OpWrite)|].
    intros l. unfold snapshot, add_out. simpl. rewrite !total_snoc.
    rewrite (is_op_eq OpWrite), (is_op_ne OpWrite OpRead), uint64_add, Z.add_0_r by done. done. }
  apply (bool_decide_eq_false_2 _) in Hw. change (is_op OpWrite ev = false) in Hw. rewrite Hw.
  destruct (decide (Operation ev = OpRead)) as [Ho|Hrd].
  { rewrite (is_op_ne OpRead OpClose), (is_op_eq OpRead) by done. intros Hu.
    apply (refines_update _ hist _ _ _ _ Hr) in Hu; [done|done|by apply (is_op_ne OpRead)|].
    intros l. unfold snapshot, add_in. simpl. rewrite !total_snoc.
    rewrite (is_op_eq OpRead), Hw, uint64_add, Z.add_0_r by done. done. }
  apply (bool_decide_eq_false_2 _) in Hrd. change (is_op OpRead ev = false) in Hrd. rewrite Hrd.
  destruct (decide (Operation ev = OpClose)) as [Ho|Hcl].
  { apply is_op_eq in Ho. rewrite Ho. pose proof (conn_refines_close st hist ev Hr Hc Ho) as Hdel.
    rewrite <-(ref_tracked _ _ Hr).
    destruct (tracked st !! key_of ev) eqn:E; intros [= <- <-]; [done|].
    rewrite delete_id in Hdel by done. by destruct st. }
  apply (bool_decide_eq_false_2 _) in Hcl. change (is_op OpClose ev = false) in Hcl. rewrite Hcl.
  intros [= <- <-]. split; [|done]. by apply refines_other.
Qed.

Lemma conn_loop_refines st hist events :
  refines st hist ->
  exists st', loop timeOf commOf st events = (st', events, spec_snapshots timeOf commOf hist events).
Proof.
  revert st hist. induction events as [|ev events IH]; intros st hist Hr; simpl; [by eexists|].
  destruct (step timeOf commOf st ev) as [st1 out] eqn:Hs.
  destruct (conn_step_refines _ _ _ _ _ Hr Hs) as [Hr1 ->].
  destruct (IH st1 (hist ++ [ev]) Hr1) as [st2 ->]. by eexists.
Qed.

Lemma refines_init : refines init [].
Proof. split; [intros k; apply lookup_empty|done]. Qed.

End Refinement.

(** ** Sequence numbers

    Facts about the snapshots sent so far and the connections tracked, kept by
    every step as long as the 64-bit counter has not wrapped. *)

(** The fields fixed when a connection is opened. *)
Definition identity (c : Connection) :=
  (c_PID c, c_FD c, Comm c, c_RemoteAddr c, c_RemotePort c, Opened c).

(** [a] was sent before [b]. *)
Definition before_ok (a b : Connection) : Prop :=
  Seq a = Seq b -> identity a = identity b /\ Closed a = false.

Record seq_inv (st : state) (sent : list Connection) : Prop := {
  si_sent : Forall (fun c => 1 <= Seq c <= nextSeq st) sent;
  si_tracked : map_Forall (fun k c => 1 <= Seq c <= nextSeq st /\ Closed c = false /\
                                      k = mkKey (c_PID c) (c_FD c)) (tracked st);
  si_distinct : forall k1 k2 c1 c2, tracked st !! k1 = Some c1 -> tracked st !! k2 = Some c2 ->
                                    Seq c1 = Seq c2 -> k1 = k2;
  si_current : map_Forall (fun _ c => Forall (fun a => before_ok a c) sent) (tracked st);
  si_order : StronglySorted before_ok sent;
}.

Lemma StronglySorted_snoc {A} (R : A -> A -> Prop) l x :
  StronglySorted R l -> Forall (fun a => R a x) l -> StronglySorted R (l ++ [x]).
Proof.
  induction 1 as [|a l _ IH Ha]; intros Hx; [repeat constructor|].
  inversion_clear Hx. simpl. constructor; [by apply IH|].
  apply Forall_app. by repeat constructor.
Qed.

Lemma StronglySorted_lookup {A} (R : A -> A -> Prop) l i j x y :
  StronglySorted R l -> (i < j)%nat -> l !! i = Some x -> l !! j = Some y -> R x y.
Proof.
  intros Hl. revert i j. induction Hl as [|a l _ IH Ha]; intros i j Hij Hx Hy; [done|].
  destruct j as [|j]; [lia|]. simpl in Hy. destruct i as [|i]; simplify_eq/=.
  - rewrite Forall_forall in Ha. apply Ha. by eapply list_elem_of_lookup_2.
  - eapply (IH i j); [lia|done..].
Qed.

(** Tracking [c'] under [k] and sending it, when no other key has its number
    and what was sent before is compatible with it. *)
Lemma seq_inv_send st sent k c' n :
  seq_inv st sent -> nextSeq st <= n -> 1 <= Seq c' <= n -> Closed c' = false ->
  k = mkKey (c_PID c') (c_FD c') ->
  (forall k2 c2, k2 <> k -> tracked st !! k2 = Some c2 -> Seq c2 <> Seq c') ->
  Forall (fun a => before_ok a c') sent ->
  seq_inv (mkState (<[k := c']> (tracked st)) n) (sent ++ [c']).
Proof.
  intros [Hs Ht Hd Hc Ho] Hn Hr Hcl Hkey Hfresh Hbc. split; cbn [tracked nextSeq].
  - apply Forall_app. split; [|by constructor]. eapply Forall_impl; [exact Hs|]. simpl. lia.
  - apply map_Forall_insert_2; [done|]. intros k2 c2 H2. destruct (Ht _ _ H2) as (? & ? & ?).
    split_and!; [lia..|done|done].
  - intros k1 k2 c1 c2. rewrite !lookup_insert. do 2 case_decide; intros; simplify_eq; try done.
    + exfalso. by eapply Hfresh.
    + exfalso. by eapply Hfresh.
    + by eapply Hd.
  - intros k2 c2. rewrite lookup_insert. case_decide; intros; simplify_eq.
    + apply Forall_app. split; [done|]. by repeat constructor.
    + apply Forall_app. split; [by eapply Hc|]. constructor; [|done].
      intros E. exfalso. by eapply Hfresh.
  - by apply StronglySorted_snoc.
Qed.

(** Sending the last snapshot of a tracked connection, which is dropped. *)
Lemma seq_inv_drop st sent k c c' :
  seq_inv st sent -> tracked st !! k = Some c -> Seq c' = Seq c -> identity c' = identity c ->
  seq_inv (mkState (delete k (tracked st)) (nextSeq st)) (sent ++ [c']).
Proof.
  intros [Hs Ht Hd Hc Ho] Hk Hseq Hid. pose proof (Ht _ _ Hk) as (Hr & _ & _).
  pose proof (Hc _ _ Hk) as Hck. simpl in Hck. split; cbn [tracked nextSeq].
  - apply Forall_app. split; [done|]. constructor; [lia|done].
  - by apply map_Forall_delete.
  - intros k1 k2 c1 c2. rewrite !lookup_delete. repeat case_decide; [done..|]. by eapply Hd.
  - intros k2 c2 H2. rewrite lookup_delete in H2. case_decide as Hk2; [done|].
    apply Forall_app. split; [by eapply Hc|]. constructor; [|done].
    intros E. destruct Hk2. eapply Hd; [done..|congruence].
  - apply StronglySorted_snoc; [done|]. eapply Forall_impl; [exact Hck|].
    unfold before_ok. intros a Ha. by rewrite Hseq, Hid.
Qed.

Lemma seq_inv_update st sent k f st' out :
  seq_inv st sent ->
  (forall c, Seq (f c) = Seq c /\ identity (f c) = identity c /\ Closed (f c) = Closed c) ->
  update st k f = (st', out) -> seq_inv st' (sent ++ out) /\ nextSeq st' = nextSeq st.
Proof.
  intros Hi Hf. unfold update. destruct (tracked st !! k) as [c|] eqn:E; intros [= <- <-].
  2:{ by rewrite app_nil_r. }
  destruct (Hf c) as (Hseq & Hid & Hcl).
  destruct (si_tracked _ _ Hi _ _ E) as (Hr & Hopen & Hkey). split; [|done].
  apply seq_inv_send; [done|lia|lia|congruence| | |].
  - rewrite Hkey. unfold identity in Hid. congruence.
  - intros k2 c2 Hne H2 E2. apply Hne. eapply (si_distinct _ _ Hi); [done..|congruence].
  - eapply Forall_impl; [exact (si_current _ _ Hi _ _ E)|].
    unfold before_ok. intros a Ha. by rewrite Hseq, Hid.
Qed.

Lemma step_seq_inv timeOf commOf st ev st' sent out :
  seq_inv st sent -> 0 <= nextSeq st -> nextSeq st + 1 < 2 ^ 64 ->
  step timeOf commOf st ev = (st', out) ->
  seq_inv st' (sent ++ out) /\ nextSeq st <= nextSeq st' <= nextSeq st + 1.
Proof.
  intros Hi H0 Hw. unfold step. repeat case_decide; intros Hs; simplify_eq/=.
  - rewrite (wrapU_id 64) by (unfold inU; lia). split; [|lia].
    apply seq_inv_send; simpl; [done|lia|lia|done|done| |].
    + intros k2 c2 _ H2. apply (si_tracked _ _ Hi) in H2 as (? & _). lia.
    + eapply Forall_impl; [exact (si_sent _ _ Hi)|]. unfold before_ok. simpl. lia.
  - apply (seq_inv_update _ sent) in Hs as [? ->]; [split; [done|lia]|done..].
  - apply (seq_inv_update _ sent) in Hs as [? ->]; [split; [done|lia]|done..].
  - destruct (tracked st !! key_of ev) as [c|] eqn:E; simplify_eq/=.
    + split; [|lia]. by eapply seq_inv_drop.
    + rewrite app_nil_r. split; [done|lia].
  - rewrite app_nil_r. split; [done|lia].
Qed.

Lemma loop_seq_inv timeOf commOf st events sent :
  seq_inv st sent -> 0 <= nextSeq st -> nextSeq st + Z.of_nat (length events) < 2 ^ 64 ->
  exists st', fst (fst (loop timeOf commOf st events)) = st' /\
              seq_inv st' (sent ++ snd (loop timeOf commOf st events)).
Proof.
  revert st sent. induction events as [|ev events IH]; intros st sent Hi H0 Hw; simpl.
  - exists st. by rewrite app_nil_r.
  - destruct (step timeOf commOf st ev) as [st1 out] eqn:Hs. cbn [length] in Hw.
    destruct (step_seq_inv _ _ _ _ _ _ _ Hi H0 ltac:(lia) Hs) as [Hi1 Hn].
    destruct (IH st1 _ Hi1 ltac:(lia) ltac:(lia)) as (st2 & E & Hi2).
    destruct (loop timeOf commOf st1 events) as [[st2' raw] conns]. simpl in *.
    exists st2. by rewrite app_assoc.
Qed.

Lemma seq_inv_init : seq_inv init [].
Proof. split; [done|apply map_Forall_empty|done|apply map_Forall_empty|constructor]. Qed.

(** ** Theorems *)

(** [C11] [Run] implements the lifecycle specification: every event is passed
    through unchanged, and each snapshot is the one of the descriptor's current
    life, opened by its latest connect, with the true byte counts of the reads
    and writes since (mod 2^64); a close ends the life, and events on a
    descriptor with no life produce nothing. *)
Theorem Run_lifecycles timeOf commOf events :
  Run timeOf commOf events = (events, spec_snapshots timeOf commOf [] events).
Proof.
  unfold Run. destruct (conn_loop_refines timeOf commOf init [] events (refines_init _ _)) as [st ->].
  done.
Qed.

(** Sequence numbers identify lifecycles although descriptors are reused:
    of two snapshots with the same [Seq], the earlier one is of the same
    process, descriptor, endpoint, command name and opening time, and is not
    closed, so nothing follows the closed snapshot of a connection. *)
Theorem Run_seq_identity timeOf commOf events i j a b :
  Z.of_nat (length events) < 2 ^ 64 ->
  (i < j)%nat -> snd (Run timeOf commOf events) !! i = Some a ->
  snd (Run timeOf commOf events) !! j = Some b ->
  Seq a = Seq b -> identity a = identity b /\ Closed a = false.
Proof.
  intros Hlen Hij Ha Hb.
  destruct (loop_seq_inv timeOf commOf init events [] seq_inv_init) as (st & _ & Hi);
    [done|done|].
  assert (snd (Run timeOf commOf events) = snd (loop timeOf commOf init events)) as E
    by (unfold Run; by destruct (loop _ _ _ _) as [[]]).
  rewrite E in Ha, Hb. simpl in Hi.
  exact (StronglySorted_lookup before_ok _ _ _ _ _ (si_order _ _ Hi) Hij Ha Hb).
Qed.

(** ** Witnesses *)

(** Descriptor 7 connected, written, closed, and reused for another endpoint. *)
Definition reuse_trace : list Event :=
  let ev op addr port total := mkEvent 1 1 0 7 op 0 0 addr port total 0 [] in
  [ev OpWrite 0 0 60; ev OpConnect 0x0100000a 111 0; ev OpWrite 0 0 100; ev OpClose 0 0 0;
   ev OpConnect 0x0200000a 222 0; ev OpRead 0 0 10000; ev OpClose 0 0 0; ev OpClose 0 0 0].

Example reuse_trace_snapshots :
  map (fun c => (Seq c, c_RemotePort c, BytesOut c, BytesIn c, Closed c))
    (snd (Run (fun _ => 5) (fun _ _ => str "app") reuse_trace)) =
  [(1, 111, 0, 0, false); (1, 111, 100, 0, false); (1, 111, 100, 0, true);
   (2, 222, 0, 0, false); (2, 222, 0, 10000, false); (2, 222, 0, 10000, true)].
Proof. run. Qed.

Lemma Run_seq_identity_witness :
  let snaps := snd (Run (fun _ => 5) (fun _ _ => str "app") reuse_trace) in
  exists a b, snaps !! 0%nat = Some a /\ snaps !! 2%nat = Some b /\ Seq a = Seq b /\
              identity a = identity b /\ Closed a = false.
Proof.
  eexists _, _. split; [run|split; [run|split; [reflexivity|]]].
  apply (Run_seq_identity (fun _ => 5) (fun _ _ => str "app") reuse_trace 0 2);
    [vm_compute; reflexivity|lia|run|run|reflexivity].
Defined.
