(* ===== verification/Pipeline.v ===== *)
(** * The goroutines between the streamer and its consumers

    The goroutine of [streamer.Run] as the sequence of its channel operations,
    the two bounded channels, and the consumers main.go attaches to them:
    [record] reads [exchanges] only, [trace] reads both. *)

From S2P Require Import Prelude GoStd Event Resp Http Streamer.
Local Open Scope nat_scope.
Local Open Scope go_scope.

(** ** Data *)

(** [make(chan collector.Event, 64)] and [make(chan Exchange, 16)]. *)
Definition rawCap : nat := 64.
Definition outCap : nat := 16.

Section Channels.
Context {A B : Type}.

(** The channel operations of the goroutine. *)
Inductive action := SendRaw (ev : A) | SendOut (ex : B) | CloseOut | CloseRaw.

(** [todo]: what the goroutine has left; [raw], [out]: what the channels
    buffer; [rawGot], [collected]: what their receivers have; [ended]: the
    [for ex := range exchanges] loop is over. *)
Record pipe := mkPipe {
  todo : list action;
  raw : list A;
  raw_closed : bool;
  out : list B;
  out_closed : bool;
  rawGot : list A;
  collected : list B;
  ended : bool;
}.

Definition start (acts : list action) : pipe := mkPipe acts [] false [] false [] [] false.

(** ** Steps *)

Inductive label := Streamer | Consumer | RawConsumer.

(** The goroutine's next channel operation; a send on a full channel blocks. *)
Definition streamer_step (s : pipe) : option pipe :=
  let 'mkPipe td rw rc ou oc rg co en := s in
  match td with
  | [] => None
  | SendRaw ev :: td =>
      if length rw <? rawCap then Some (mkPipe td (rw ++ [ev]) rc ou oc rg co en) else None
  | SendOut ex :: td =>
      if length ou <? outCap then Some (mkPipe td rw rc (ou ++ [ex]) oc rg co en) else None
  | CloseOut :: td => Some (mkPipe td rw rc ou true rg co en)
  | CloseRaw :: td => Some (mkPipe td rw true ou oc rg co en)
  end.

(** [for ex := range exchanges { collected = append(collected, ex) }] *)
Definition consumer_step (s : pipe) : option pipe :=
  let 'mkPipe td rw rc ou oc rg co en := s in
  match ou with
  | ex :: ou => if (en : bool) then None else Some (mkPipe td rw rc ou oc rg (co ++ [ex]) en)
  | [] => if oc && negb en then Some (mkPipe td rw rc [] oc rg co true) else None
  end.

(** A receive on [rawOut]; [reads_raw] says whether the program has kept the
    channel. *)
Definition raw_step (reads_raw : bool) (s : pipe) : option pipe :=
  let 'mkPipe td rw rc ou oc rg co en := s in
  match rw with
  | ev :: rw => if reads_raw then Some (mkPipe td rw rc ou oc (rg ++ [ev]) co en) else None
  | [] => None
  end.

Definition exec (reads_raw : bool) (l : label) (s : pipe) : option pipe :=
  match l with
  | Streamer => streamer_step s
  | Consumer => consumer_step s
  | RawConsumer => raw_step reads_raw s
  end.

(** ** Invariant *)

Definition raws (acts : list action) : list A :=
  omap (fun a => match a with SendRaw ev => Some ev | _ => None end) acts.
Definition outs (acts : list action) : list B :=
  omap (fun a => match a with SendOut ex => Some ex | _ => None end) acts.

Lemma raws_app acts1 acts2 : raws (acts1 ++ acts2) = raws acts1 ++ raws acts2.
Proof. apply omap_app. Qed.
Lemma outs_app acts1 acts2 : outs (acts1 ++ acts2) = outs acts1 ++ outs acts2.
Proof. apply omap_app. Qed.
Lemma raws_exchanges exs : raws (map SendOut exs) = [].
Proof. by induction exs. Qed.
Lemma outs_exchanges exs : outs (map SendOut exs) = exs.
Proof. induction exs; [done|]. cbn. by f_equal. Qed.

(** A goroutine's actions: sends, then the deferred closes, last one first. *)
Definition is_send (a : action) : Prop :=
  match a with SendRaw _ | SendOut _ => True | _ => False end.

Inductive shape : list action -> bool -> Prop :=
| shape_open sends : Forall is_send sends -> shape (sends ++ [CloseOut; CloseRaw]) false
| shape_raw : shape [CloseRaw] true
| shape_end : shape [] true.

Record inv (reads_raw : bool) (evs : list A) (exs : list B) (s : pipe) : Prop := {
  inv_raws : rawGot s ++ raw s ++ raws (todo s) = evs;
  inv_outs : collected s ++ out s ++ outs (todo s) = exs;
  inv_shape : shape (todo s) (out_closed s);
  inv_cap : length (raw s) <= rawCap;
  inv_ended : ended s = true -> out_closed s = true /\ out s = [];
  inv_unread : reads_raw = false -> rawGot s = [];
}.

Lemma sends_exchanges exs : Forall is_send (map SendOut exs).
Proof. by apply Forall_fmap, Forall_true. Qed.

Lemma shape_send td oc a : shape (a :: td) oc -> is_send a -> shape td oc /\ oc = false.
Proof.
  inversion 1 as [sends Hs Heq| |]; simplify_eq/=; [|done].
  destruct sends as [|b sends]; simplify_eq/=; [done|]. inversion_clear Hs. by split; [constructor|].
Qed.

Lemma shape_closed td oc : shape td oc -> oc = true -> raws td = [] /\ outs td = [].
Proof. by destruct 1. Qed.

Ltac solve_lists :=
  repeat match goal with H : _ ++ _ = _ |- _ => rewrite <-H; clear H end;
  by rewrite <-?app_assoc.

Lemma streamer_inv rr evs exs s s' :
  inv rr evs exs s -> streamer_step s = Some s' -> inv rr evs exs s'.
Proof.
  intros [Hr Ho Hs Hc He Hu]. destruct s as [td rw rc ou oc rg co en]. simpl in *.
  destruct td as [|[ev|ex| |] td]; [done|..].
  - destruct (shape_send _ _ _ Hs) as [Hs' ->]; [done|].
    destruct (Nat.ltb_spec (length rw) rawCap) as [Hl|]; [|done]. intros [= <-].
    split; simpl; try done; [solve_lists|]. rewrite length_app. simpl. lia.
  - destruct (shape_send _ _ _ Hs) as [Hs' ->]; [done|].
    destruct (length ou <? outCap); [|done]. intros [= <-].
    split; simpl; try done; [solve_lists|]. intros [? _]%He. done.
  - intros [= <-]. split; simpl; try done.
    + inversion Hs as [[|? sends] Hf| |]; simplify_eq/=; [constructor|].
      by inversion_clear Hf.
    + intros ?%He. naive_solver.
  - intros [= <-]. split; simpl; try done.
    inversion Hs as [[|? sends] Hf| |]; simplify_eq/=; [|constructor]. by inversion_clear Hf.
Qed.

Lemma pipe_inv_step rr evs exs s s' :
  inv rr evs exs s -> steps_by (exec rr) s s' -> inv rr evs exs s'.
Proof.
  intros Hi [[] Hx]; simpl in Hx; [by eapply streamer_inv|..];
    destruct Hi as [Hr Ho Hs Hc He Hu]; destruct s as [td rw rc ou oc rg co en]; simpl in *;
    repeat case_match; simplify_eq/=; split; simpl; try done; try solve_lists; try lia.
  intros _. split; [by destruct oc|done].
Qed.

Lemma inv_start rr acts :
  shape acts false -> inv rr (raws acts) (outs acts) (start acts).
Proof. by split; simpl; try lia. Qed.

(** Every step uses up some of this. *)
Definition work (s : pipe) : nat :=
  2 * length (todo s) + length (raw s) + length (out s) + (if ended s then 0 else 1).

Lemma step_work rr s s' : steps_by (exec rr) s s' -> work s' < work s.
Proof.
  intros [[] Hx]; destruct s as [td rw rc ou oc rg co en]; unfold work; simpl in *;
    repeat case_match; simplify_eq/=; rewrite ?length_app; simpl; try lia.
Qed.

Lemma pipe_sn rr s : sn (steps_by (exec rr)) s.
Proof.
  apply (measure_sn _ (fun _ => True) work); [|done].
  intros ? ? _ Hs. split; [done|]. by eapply step_work.
Qed.

(** The only ways a run can stop: the goroutine and the consumer have finished
    (and [rawOut] has been read empty, if it is read), or nobody reads [rawOut]
    and it is full. *)
Lemma stuck_cases rr evs exs s :
  inv rr evs exs s -> (forall s', ~ steps_by (exec rr) s s') ->
  (ended s = true /\ todo s = [] /\ collected s = exs /\ (rr = true -> rawGot s = evs)) \/
  (rr = false /\ rawCap < length evs).
Proof.
  intros [Hr Ho Hs Hc He Hu] Hstuck.
  assert (forall l, exec rr l s = None) as Hno.
  { intros l. destruct (exec rr l s) as [s'|] eqn:E; [|done]. edestruct Hstuck. by exists l. }
  pose proof (Hno Streamer) as H1. pose proof (Hno Consumer) as H2. pose proof (Hno RawConsumer) as H3.
  clear Hno Hstuck. destruct s as [td rw rc ou oc rg co en]. simpl in *.
  destruct td as [|[ev|ex| |] td]; [|..|done|done].
  - left. inversion Hs as [[] ? Hnil| |]; simplify_eq/=.
    destruct ou as [|ex ou]; [|destruct en; naive_solver].
    destruct en; [|done]. split_and!; [done..|by rewrite app_nil_r|].
    intros ->. destruct rw; [by rewrite app_nil_r|done].
  - right. destruct (Nat.ltb_spec (length rw) rawCap) as [|Hl]; [done|].
    destruct rw as [|x rw]; [unfold rawCap in *; simpl in *; lia|].
    destruct rr; [done|]. split; [done|].
    rewrite <-Hr, (Hu eq_refl). simpl in *. rewrite length_app. simpl. lia.
  - exfalso. destruct (shape_send _ _ _ Hs) as [_ ->]; [done|].
    destruct ou as [|x ou]; [done|]. destruct en; [naive_solver|done].
Qed.

End Channels.
Arguments action : clear implicits.
Arguments pipe : clear implicits.

(** ** The goroutine of [streamer.Run] *)

Section Goroutine.
Context `{Unicode, NetHTTP}.

Abbreviation actions := (list (action Event Exchange)).

(** The event loop: [raw <- ev] first, then what the event's case sends. *)
Fixpoint loop_actions (bufs : gmap key connBufs) (events : list Event) :
    safe (gmap key connBufs * actions) :=
  match events with
  | [] => Ok (bufs, [])
  | ev :: events =>
      let? (bufs, exs) := step bufs ev in
      let? (bufs, acts) := loop_actions bufs events in
      Ok (bufs, SendRaw ev :: map SendOut exs ++ acts)
  end.

(** The whole goroutine: the loop, the flush, and the deferred closes in the
    reverse of the order they are deferred in. *)
Definition goroutine (order : list (key * connBufs) -> list (key * connBufs))
    (events : list Event) : safe actions :=
  let? (bufs, acts) := loop_actions ∅ events in
  let? flushed := flush (order (map_to_list bufs)) in
  Ok (acts ++ map SendOut flushed ++ [CloseOut; CloseRaw]).

(** What main.go builds on it: [record] discards [rawOut], [trace] hands both
    channels to the TUI. *)
Definition record_pipe := steps_by (exec (A := Event) (B := Exchange) false).
Definition trace_pipe := steps_by (exec (A := Event) (B := Exchange) true).

Lemma loop_actions_loop bufs events bufs' raw exs :
  loop bufs events = Ok (bufs', raw, exs) ->
  exists acts, loop_actions bufs events = Ok (bufs', acts) /\
    raw = events /\ raws acts = events /\ outs acts = exs /\ Forall is_send acts.
Proof.
  revert bufs raw exs. induction events as [|ev events IH]; intros bufs raw exs; simpl.
  { intros [= <- <- <-]. by exists []. }
  destruct (step bufs ev) as [[bufs1 ex1]|[]|]; [simpl|done].
  destruct (loop bufs1 events) as [[[bufs2 raw2] ex2]|[]|] eqn:E; [simpl|done].
  intros [= <- <- <-]. apply IH in E as (acts & -> & -> & Hr & Ho & Hf). simpl.
  change (SendRaw ev :: map SendOut ex1 ++ acts) with ([SendRaw ev] ++ map SendOut ex1 ++ acts).
  eexists. split_and!; [done|done|..].
  - by rewrite !raws_app, raws_exchanges, Hr.
  - by rewrite !outs_app, outs_exchanges, Ho.
  - constructor; [done|]. apply Forall_app. split; [apply sends_exchanges|done].
Qed.

(** The goroutine sends what [Run] says it does, then closes. *)
Lemma goroutine_Run order events raw exs :
  Run order events = Ok (raw, exs) ->
  exists acts, goroutine order events = Ok acts /\
    raw = events /\ raws acts = events /\ outs acts = exs /\ shape acts false.
Proof.
  unfold Run, goroutine. destruct (loop ∅ events) as [[[bufs raw'] ex1]|[]|] eqn:E; [simpl|done].
  destruct (loop_actions_loop _ _ _ _ _ E) as (acts & -> & -> & Hr & Ho & Hf). simpl.
  destruct (flush _) as [ex2|[]|]; [simpl|done]. intros [= <- <-].
  eexists. split; [done|]. rewrite app_assoc.
  rewrite !raws_app, !outs_app, raws_exchanges, outs_exchanges, Hr, Ho. cbn. rewrite !app_nil_r. split_and!; [done..|].
  constructor. apply Forall_app. split; [done|apply sends_exchanges].
Qed.

(** ** Theorems *)

(** [record] hangs on any trace of more than 64 events: nobody receives
    from the [rawOut] channel it discards, so the streamer blocks in its 65th
    [raw <- ev] and never closes [exchanges].  No schedule ever ends the loop
    that collects the exchanges, and every schedule comes to a stop. *)
Theorem record_hangs order events raw exs :
  Run order events = Ok (raw, exs) -> rawCap < length events ->
  exists acts, goroutine order events = Ok acts /\
    sn record_pipe (start acts) /\
    forall s, rtc record_pipe (start acts) s -> ended s = false.
Proof.
  intros (acts & Hg & -> & Hr & Ho & Hs)%goroutine_Run Hlen. exists acts.
  split; [done|]. split; [apply pipe_sn|]. intros s Hrun.
  assert (inv false (raws acts) (outs acts) s) as [Hraws _ Hshape Hcap Hend Hun].
  { eapply rtc_invariant; [apply pipe_inv_step|exact Hrun|by apply inv_start]. }
  destruct (ended s) eqn:E; [|done]. destruct (Hend eq_refl) as [Hoc _].
  destruct (shape_closed _ _ Hshape Hoc) as [Hnil _].
  rewrite Hr, Hun, Hnil, app_nil_r in Hraws by done. simpl in Hraws.
  rewrite Hraws in Hcap. lia.
Qed.

(** Up to 64 events [record] collects everything: every schedule is
    finite and ends with the collecting loop over and exactly the exchanges of
    [Run], in order. *)
Theorem record_collects order events raw exs :
  Run order events = Ok (raw, exs) -> length events <= rawCap ->
  exists acts, goroutine order events = Ok acts /\
    sn record_pipe (start acts) /\
    forall s, rtc record_pipe (start acts) s -> (forall s', ~ record_pipe s s') ->
              ended s = true /\ collected s = exs.
Proof.
  intros (acts & Hg & -> & Hr & Ho & Hs)%goroutine_Run Hlen. exists acts.
  split; [done|]. split; [apply pipe_sn|]. intros s Hrun Hstuck.
  destruct (stuck_cases false events exs s) as [(? & _ & ? & _)|[_ ?]]; [|done|done|lia].
  eapply rtc_invariant; [apply pipe_inv_step|exact Hrun|]. rewrite <-Hr, <-Ho. by apply inv_start.
Qed.

(** [trace] delivers everything, however long the trace: with both
    channels read every schedule is finite and ends with all events passed
    through and all exchanges received, in order. *)
Theorem trace_delivers order events raw exs :
  Run order events = Ok (raw, exs) ->
  exists acts, goroutine order events = Ok acts /\
    sn trace_pipe (start acts) /\
    forall s, rtc trace_pipe (start acts) s -> (forall s', ~ trace_pipe s s') ->
              ended s = true /\ collected s = exs /\ rawGot s = events.
Proof.
  intros (acts & Hg & -> & Hr & Ho & Hs)%goroutine_Run. exists acts.
  split; [done|]. split; [apply pipe_sn|]. intros s Hrun Hstuck.
  destruct (stuck_cases true events exs s) as [(? & _ & ? & ?)|[? _]]; [|done|by auto|done].
  eapply rtc_invariant; [apply pipe_inv_step|exact Hrun|]. rewrite <-Hr, <-Ho. by apply inv_start.
Qed.
End Goroutine.

(** ** Witnesses *)

Definition long_trace : list Event := replicate 65 (sample_event OpConnect 9 []).

Lemma record_hangs_witness :
  @Run ascii_only tiny_http (fun l => l) long_trace = Ok (long_trace, []) /\
  rawCap < length long_trace /\
  exists acts, @goroutine ascii_only tiny_http (fun l => l) long_trace = Ok acts /\
    sn (@record_pipe tiny_http) (start acts) /\
    forall s, rtc (@record_pipe tiny_http) (start acts) s -> ended s = false.
Proof.
  assert (@Run ascii_only tiny_http (fun l => l) long_trace = Ok (long_trace, [])) as Hrun by run.
  assert (rawCap < length long_trace) as Hlen by (vm_compute; lia).
  split; [exact Hrun|split; [exact Hlen|]].
  exact (@record_hangs ascii_only tiny_http (fun l => l) long_trace long_trace [] Hrun Hlen).
Defined.

(** The two exchanges of [sample_trace]. *)
Definition sample_exchanges : list (@Exchange tiny_http) :=
  [mkExchange 42 5 ProtocolHTTP (Some (@mkHTTP tiny_http (Some (str "/a")) [] (Some (str "hi")) (str "hi"))) [] false;
   mkExchange 42 8 ProtocolRedis None [mkCall [str "set"; str "k"; str "v"] (str "OK")] false].

Lemma record_collects_witness :
  @Run ascii_only tiny_http (fun l => l) sample_trace = Ok (sample_trace, sample_exchanges) /\
  length sample_trace <= rawCap /\
  exists acts, @goroutine ascii_only tiny_http (fun l => l) sample_trace = Ok acts /\
    sn (@record_pipe tiny_http) (start acts) /\
    forall s, rtc (@record_pipe tiny_http) (start acts) s ->
              (forall s', ~ @record_pipe tiny_http s s') ->
              ended s = true /\ collected s = sample_exchanges.
Proof.
  assert (length sample_trace <= rawCap) as Hlen by (vm_compute; lia).
  split; [exact sample_trace_runs|split; [exact Hlen|]].
  exact (@record_collects ascii_only tiny_http (fun l => l) sample_trace sample_trace
    sample_exchanges sample_trace_runs Hlen).
Defined.

Lemma trace_delivers_witness :
  @Run ascii_only tiny_http (fun l => l) sample_trace = Ok (sample_trace, sample_exchanges) /\
  exists acts, @goroutine ascii_only tiny_http (fun l => l) sample_trace = Ok acts /\
    sn (@trace_pipe tiny_http) (start acts) /\
    forall s, rtc (@trace_pipe tiny_http) (start acts) s ->
              (forall s', ~ @trace_pipe tiny_http s s') ->
              ended s = true /\ collected s = sample_exchanges /\ rawGot s = sample_trace.
Proof.
  split; [exact sample_trace_runs|].
  exact (@trace_delivers ascii_only tiny_http (fun l => l) sample_trace sample_trace
    sample_exchanges sample_trace_runs).
Defined.
