(* ===== verification/Stage.v ===== *)
(** * One goroutine between its channels

    [correlator.Run] and [streamer.Run] start a goroutine of the same shape: it
    receives events until its input closes, passes each through on one channel
    and sends what it makes of it on another, flushes, and closes both.  Here
    the goroutine as a state machine on its input, local state and channels,
    with the invariant that says what has gone where. *)

From S2P Require Import Prelude GoStd Pipeline.
From Stdlib Require Import Wellfounded.Lexicographic_Product.
Local Open Scope nat_scope.
Local Open Scope go_scope.

Section Stage.
Context {S A B : Type} (react : S -> A -> safe (S * list B)) (flush : S -> safe (list B)) (outCap : nat).

(** [g_st]: the local variables; [g_todo]: what is left of the loop's body, or
    of what follows the loop once [g_over]; [g_raw], [g_out]: the channels'
    buffers; [g_panic]: a run-time panic has ended the process.  [g_hist], which
    no step reads, is what has been received. *)
Record stage := mkStage {
  g_hist : list A;
  g_st : S;
  g_todo : list (action A B);
  g_over : bool;
  g_raw : list A;
  g_raw_closed : bool;
  g_out : list B;
  g_out_closed : bool;
  g_panic : bool;
}.

Definition stage_start (st : S) : stage := mkStage [] st [] false [] false [] false false.

(** The next step on an input channel that holds [inb]: a channel operation; a
    receive and the reaction to it, the event itself first; or, on a closed
    and empty input, the end of the loop, what it flushes, and the deferred
    closes. *)
Definition stage_step (inb : list A) (in_closed : bool) (g : stage) : option (list A * stage) :=
  let 'mkStage h st td ov rw rc ou oc pn := g in
  match td with
  | SendRaw ev :: td =>
      if length rw <? rawCap then Some (inb, mkStage h st td ov (rw ++ [ev]) rc ou oc pn) else None
  | SendOut x :: td =>
      if length ou <? outCap then Some (inb, mkStage h st td ov rw rc (ou ++ [x]) oc pn) else None
  | CloseOut :: td => Some (inb, mkStage h st td ov rw rc ou true pn)
  | CloseRaw :: td => Some (inb, mkStage h st td ov rw true ou oc pn)
  | [] =>
      if ov : bool then None
      else
        match inb with
        | ev :: inb =>
            match react st ev with
            | Ok (st, xs) =>
                Some (inb, mkStage (h ++ [ev]) st (SendRaw ev :: map SendOut xs) ov rw rc ou oc pn)
            | _ => Some (inb, mkStage h st [] true rw rc ou oc true)
            end
        | [] =>
            if in_closed : bool then
              match flush st with
              | Ok xs =>
                  Some ([], mkStage h st (map SendOut xs ++ [CloseOut; CloseRaw]) true rw rc ou oc pn)
              | _ => Some ([], mkStage h st [] true rw rc ou oc true)
              end
            else None
        end
  end.

(** ** Invariant *)

(** The loop's reactions to a sequence of events. *)
Fixpoint reactions (st : S) (evs : list A) : safe (S * list B) :=
  match evs with
  | [] => Ok (st, [])
  | ev :: evs =>
      let? (st, xs) := react st ev in
      let? (st, ys) := reactions st evs in
      Ok (st, xs ++ ys)
  end.

(** What [st0] makes of a whole input: everything sent on the second channel. *)
Definition output (st0 : S) (evs : list A) : safe (list B) :=
  let? (st, xs) := reactions st0 evs in
  let? ys := flush st in
  Ok (xs ++ ys).

(** What is left to do is sends only before the end, then sends and the
    closes. *)
Definition todo_shape (g : stage) : Prop :=
  if g_over g then shape (g_todo g) (g_out_closed g) else Forall is_send (g_todo g) /\ g_out_closed g = false.

(** [rawGot], [outGot]: what the receivers have. *)
Record stage_inv (st0 : S) (rawGot : list A) (outGot : list B) (g : stage) : Prop := {
  gi_raw : rawGot ++ g_raw g ++ raws (g_todo g) = g_hist g;
  gi_out : exists xs, reactions st0 (g_hist g) = Ok (g_st g, xs) /\
    if g_over g then exists ys, flush (g_st g) = Ok ys /\ outGot ++ g_out g ++ outs (g_todo g) = xs ++ ys
    else outGot ++ g_out g ++ outs (g_todo g) = xs;
  gi_shape : todo_shape g;
  gi_closed : g_raw_closed g = true <-> g_over g = true /\ g_todo g = [];
  gi_cap : length (g_raw g) <= rawCap;
  gi_outcap : length (g_out g) <= outCap;
}.

Lemma reactions_snoc st evs ev :
  reactions st (evs ++ [ev]) =
  let? (st, xs) := reactions st evs in let? (st, ys) := react st ev in Ok (st, xs ++ ys).
Proof.
  revert st. induction evs as [|ev' evs IH]; intros st; simpl.
  - destruct (react st ev) as [[st' xs]|[]|]; simpl; by rewrite ?app_nil_r.
  - destruct (react st ev') as [[st' xs]|[]|]; [simpl|done]. rewrite IH.
    destruct (reactions st' evs) as [[st2 ys]|[]|]; [simpl|done].
    destruct (react st2 ev) as [[st3 zs]|[]|]; simpl; by rewrite ?app_assoc.
Qed.

Lemma stage_inv_start st0 : stage_inv st0 [] [] (stage_start st0).
Proof. split; simpl; [done|by exists []|by split|naive_solver|lia|lia]. Qed.

Lemma shape_nonempty (td : list (action A B)) oc : shape td oc -> oc = false -> td <> [].
Proof. destruct 1; [|done..]. by destruct sends. Qed.

Lemma shape_out_nil (td : list (action A B)) oc : shape td oc -> oc = true -> outs td = [] /\ raws td = [].
Proof. by destruct 1. Qed.

(** The shapes along the actions. *)
Lemma todo_send g a td :
  g_todo g = a :: td -> is_send a -> todo_shape g ->
  g_out_closed g = false /\ (g_over g = true -> td <> []) /\
  (if g_over g then shape td false else Forall is_send td).
Proof.
  unfold todo_shape. intros -> Ha. destruct (g_over g).
  - intros Hs. destruct (shape_send _ _ _ Hs Ha) as [Hs' Hoc]. rewrite Hoc in Hs'.
    split_and!; [done| |done]. intros _. by eapply shape_nonempty.
  - intros [Hf Hoc]. split_and!; [done..|by inversion Hf].
Qed.

Lemma todo_close_out g td :
  g_todo g = CloseOut :: td -> todo_shape g -> g_over g = true /\ td = [CloseRaw].
Proof.
  unfold todo_shape. intros ->. destruct (g_over g); [|intros [Hf _]; by inversion Hf].
  inversion 1 as [[|x sends] Hf| |]; simplify_eq/=; [done|]. by inversion Hf.
Qed.

Lemma todo_close_raw g td :
  g_todo g = CloseRaw :: td -> todo_shape g -> g_over g = true /\ td = [] /\ g_out_closed g = true.
Proof.
  unfold todo_shape. intros ->. destruct (g_over g); [|intros [Hf _]; by inversion Hf].
  inversion 1 as [[|x sends] Hf| |]; simplify_eq/=; [|done]. by inversion Hf.
Qed.

Ltac regroup H := rewrite <-H, <-?app_assoc; reflexivity.

(** A channel operation keeps the invariant. *)
Lemma stage_action_inv st0 rawGot outGot inb cl g inb' g' :
  stage_inv st0 rawGot outGot g -> g_todo g <> [] -> stage_step inb cl g = Some (inb', g') ->
  stage_inv st0 rawGot outGot g' /\ inb' = inb.
Proof.
  intros [Hr (xs & Hx & Ho) Hs Hc Hcap Hoc] Hne.
  destruct g as [h st td ov rw rc ou oc pn]. simpl in *. destruct td as [|[ev|x| |] td]; [done|..].
  - destruct (todo_send (mkStage h st _ ov rw rc ou oc pn) (SendRaw ev) td eq_refl I Hs) as (Hf & Hn & Hsh). simpl in *.
    destruct (Nat.ltb_spec (length rw) rawCap); [|done]. intros [= <- <-]. split; [|done].
    split; simpl; [regroup Hr|by exists xs|unfold todo_shape; simpl; subst; by destruct ov| | |done].
    + rewrite Hc. split; [naive_solver|]. intros [Hov ->]. by destruct Hn.
    + rewrite length_app. simpl. lia.
  - destruct (todo_send (mkStage h st _ ov rw rc ou oc pn) (SendOut x) td eq_refl I Hs) as (Hf & Hn & Hsh). simpl in *.
    destruct (Nat.ltb_spec (length ou) outCap); [|done]. intros [= <- <-]. split; [|done].
    split; simpl; [exact Hr| |unfold todo_shape; simpl; subst; by destruct ov| |done|].
    + exists xs. split; [done|]. destruct ov; [destruct Ho as (ys & Hy & Ho); exists ys; split; [done|]|];
        regroup Ho.
    + rewrite Hc. split; [naive_solver|]. intros [Hov ->]. by destruct Hn.
    + rewrite length_app. simpl. lia.
  - destruct (todo_close_out (mkStage h st _ ov rw rc ou oc pn) td eq_refl Hs) as [Hov ->]. simpl in *. subst.
    intros [= <- <-]. split; [|done]. split; simpl; try done; [by exists xs|constructor|].
    rewrite Hc. naive_solver.
  - destruct (todo_close_raw (mkStage h st _ ov rw rc ou oc pn) td eq_refl Hs) as (Hov & -> & Hocl). simpl in *. subst.
    intros [= <- <-]. split; [|done]. split; simpl; try done; [by exists xs|constructor].
Qed.

(** So does a receive, or the end of the loop, unless it panics. *)
Lemma stage_receive_inv st0 rawGot outGot inb cl g inb' g' :
  stage_inv st0 rawGot outGot g -> g_todo g = [] -> stage_step inb cl g = Some (inb', g') ->
  g_panic g' = false ->
  stage_inv st0 rawGot outGot g' /\ g_over g = false /\
  ((exists ev, inb = ev :: inb' /\ g_hist g' = g_hist g ++ [ev] /\ g_over g' = false) \/
   (inb = [] /\ inb' = [] /\ cl = true /\ g_hist g' = g_hist g /\ g_over g' = true)).
Proof.
  intros [Hr (xs & Hx & Ho) Hs Hc Hcap Hoc] Htd.
  destruct g as [h st td ov rw rc ou oc pn]. simpl in *. subst td. simpl.
  destruct ov; [done|]. unfold todo_shape in Hs. simpl in *. destruct Hs as [_ ->].
  destruct inb as [|ev inb].
  - destruct cl; [|done]. destruct (flush st) as [ys|[]|] eqn:Ef; intros [= <- <-]; [|done].
    intros _. split; [|split; [done|by right]]. split; simpl; try done.
    + by rewrite raws_app, raws_exchanges.
    + exists xs. split; [done|]. exists ys. split; [done|].
      rewrite outs_app, outs_exchanges. simpl in *. rewrite !app_nil_r in *. regroup Ho.
    + constructor. apply sends_exchanges.
    + rewrite Hc. split; [naive_solver|]. intros [_ Hnil]. by destruct ys.
  - destruct (react st ev) as [[st' ys]|[]|] eqn:Ef; intros [= <- <-]; [|done].
    intros _. split; [|split; [done|left; by exists ev]]. split; simpl; try done.
    + rewrite raws_exchanges. simpl in *. rewrite app_nil_r in Hr. regroup Hr.
    + exists (xs ++ ys). rewrite reactions_snoc, Hx. simpl. rewrite Ef. split; [done|].
      rewrite outs_exchanges. simpl in *. rewrite app_nil_r in Ho. regroup Ho.
    + split; [|done]. constructor; [done|apply sends_exchanges].
    + rewrite Hc. naive_solver.
Qed.

(** The receivers' side. *)
Definition recv_raw (g : stage) : option (A * stage) :=
  let 'mkStage h st td ov rw rc ou oc pn := g in
  match rw with ev :: rw => Some (ev, mkStage h st td ov rw rc ou oc pn) | [] => None end.
Definition recv_out (g : stage) : option (B * stage) :=
  let 'mkStage h st td ov rw rc ou oc pn := g in
  match ou with x :: ou => Some (x, mkStage h st td ov rw rc ou oc pn) | [] => None end.

Lemma recv_raw_inv st0 rawGot outGot g ev g' :
  stage_inv st0 rawGot outGot g -> recv_raw g = Some (ev, g') ->
  stage_inv st0 (rawGot ++ [ev]) outGot g' /\ g_hist g' = g_hist g /\ g_raw g = ev :: g_raw g'.
Proof.
  intros [Hr Ho Hs Hc Hcap Hoc]. destruct g as [h st td ov [|ev' rw] rc ou oc pn]; [done|].
  intros [= <- <-]. simpl in *. split; [|done].
  split; simpl; try done; [by rewrite <-app_assoc|lia].
Qed.

Lemma recv_out_inv st0 rawGot outGot g x g' :
  stage_inv st0 rawGot outGot g -> recv_out g = Some (x, g') ->
  stage_inv st0 rawGot (outGot ++ [x]) g' /\ g_hist g' = g_hist g /\ g_raw g' = g_raw g.
Proof.
  intros [Hr (xs & Hx & Ho) Hs Hc Hcap Hoc]. destruct g as [h st td ov rw rc [|x' ou] oc pn]; [done|].
  intros [= <- <-]. simpl in *. split; [|done].
  split; simpl; try done; [|lia]. exists xs. split; [done|].
  destruct ov; [destruct Ho as (ys & Hy & Ho); exists ys; split; [done|]|]; by rewrite <-app_assoc.
Qed.

(** ** Where a goroutine can stop *)

Inductive blocked (inb : list A) (cl : bool) (g : stage) : Prop :=
| blocked_done : g_over g = true -> g_todo g = [] -> blocked inb cl g
| blocked_waiting :
    g_over g = false -> g_todo g = [] -> inb = [] -> cl = false -> blocked inb cl g
| blocked_raw ev td :
    g_todo g = SendRaw ev :: td -> rawCap <= length (g_raw g) -> blocked inb cl g
| blocked_out x td :
    g_todo g = SendOut x :: td -> outCap <= length (g_out g) -> blocked inb cl g.

Lemma stage_blocked inb cl g : stage_step inb cl g = None -> blocked inb cl g.
Proof.
  destruct g as [h st td ov rw rc ou oc pn]. simpl. destruct td as [|[ev|x| |] td]; [|..|done|done].
  - destruct ov; [by constructor 1|].
    destruct inb as [|ev inb]; [|by destruct (react st ev) as [[]|[]|]].
    destruct cl; [by destruct (flush st) as [|[]|]|by constructor 2].
  - destruct (Nat.ltb_spec (length rw) rawCap); [done|]. intros _. by econstructor 3.
  - destruct (Nat.ltb_spec (length ou) outCap); [done|]. intros _. by econstructor 4.
Qed.

(** When it has nothing to do and its channels are empty, the receivers have
    everything. *)
Lemma stage_drained st0 rawGot outGot g :
  stage_inv st0 rawGot outGot g -> g_todo g = [] -> g_out g = [] ->
  exists xs, reactions st0 (g_hist g) = Ok (g_st g, xs) /\
  (g_over g = false -> outGot = xs) /\ (g_over g = true -> output st0 (g_hist g) = Ok outGot) /\
  (g_raw g = [] -> rawGot = g_hist g).
Proof.
  intros [Hr (xs & Hx & Ho) Hs Hc Hcap Hoc] Ht Hou. exists xs. rewrite Ht, Hou in *. simpl in *.
  rewrite !app_nil_r in *. split_and!; [done|..].
  - intros Hov. by rewrite Hov in Ho.
  - intros Hov. rewrite Hov in Ho. destruct Ho as (ys & Hy & ->). unfold output. rewrite Hx. simpl.
    by rewrite Hy.
  - intros Hrw. rewrite Hrw in Hr. simpl in Hr. by rewrite app_nil_r in Hr.
Qed.

Lemma done_closed st0 rawGot outGot g :
  stage_inv st0 rawGot outGot g -> g_over g = true -> g_todo g = [] -> g_out_closed g = true.
Proof.
  intros Hg Ho Ht. pose proof (gi_shape _ _ _ _ Hg) as Hs. unfold todo_shape in Hs.
  rewrite Ho, Ht in Hs. destruct (g_out_closed g); [done|]. by apply shape_nonempty in Hs.
Qed.

(** What a step uses up: a receive or the end of the loop the input, an action
    what is left to do. *)
Definition input_work (inb : list A) (g : stage) : nat := length inb + (if g_over g then 0 else 1).

Lemma stage_step_work inb cl g inb' g' :
  stage_step inb cl g = Some (inb', g') ->
  lex_lt [input_work inb' g'; length (g_todo g')] [input_work inb g; length (g_todo g)].
Proof.
  destruct g as [h st td ov rw rc ou oc pn]. unfold input_work. simpl.
  destruct td as [|[ev|x| |] td]; intros Hs; repeat case_match; simplify_eq/=; lia.
Qed.

End Stage.
Arguments stage : clear implicits.
