(* ===== verification/Recorder.v ===== *)
(** * internal/recorder: from exchanges to a test case

    [Build] as a fold over the exchanges; [encoding/json] is an interface. *)

From S2P Require Import Prelude GoStd Event Resp Http Streamer.
Local Open Scope Z_scope.

(** ** The interface to encoding/json

    [Unmarshal b] is the value [json.Unmarshal(b, &v)] stores in a [v any],
    [None] when it returns an error. *)
Class JSON := {
  jsonv : Type;
  Unmarshal : bytes -> option jsonv;
}.

(** ** Data *)

Section Recorder.
Context `{Unicode, NetHTTP, JSON}.

(** The dynamic values a [Body any] field takes. *)
Inductive body :=
| BNil
| BJson (v : jsonv)
| BString (s : bytes).

(** [Request], [Response], [Dependency] and [TestCase] ([TestMeta] is its
    name). *)
Record TRequest := mkTRequest { t_Method : bytes; t_Path : bytes; t_Body : body }.
Record TResponse := mkTResponse { t_Status : Z; t_RespBody : body }.
Record Dependency := mkDep { d_Type : bytes; d_Request : bytes; d_Response : bytes }.
Record TestCase := mkTest {
  tc_Name : bytes;
  tc_Request : TRequest;
  tc_Dependencies : list Dependency;
  tc_Response : TResponse;
}.

(** The error of [Build]. *)
Inductive build_err := NoHTTPRequest.

(** ** Operations *)

(** [decodeBody] *)
Definition decodeBody (b : bytes) : body :=
  match b with
  | [] => BNil
  | _ => match Unmarshal b with Some v => BJson v | None => BString b end
  end.

(** The dependency of one Redis call. *)
Definition dependency (call : RedisCall) : Dependency :=
  mkDep (str "redis") (Join (Command call) (str " ")) (Reply call).

(** The [ProtocolHTTP] case after [foundHTTP] is set. *)
Definition record_http (tc : TestCase) (h : HTTPExchange) : TestCase :=
  mkTest (tc_Name tc)
    (match ex_Request h with
     | Some req => mkTRequest (Method req) (URL_Path req) (decodeBody (ex_RequestBody h))
     | None => tc_Request tc
     end)
    (tc_Dependencies tc)
    (match ex_Response h with
     | Some resp => mkTResponse (StatusCode resp) (decodeBody (ex_ResponseBody h))
     | None => tc_Response tc
     end).

(** One round of [Build]'s loop, on the test case and [foundHTTP]. *)
Definition build_step (acc : TestCase * bool) (ex : Exchange) : TestCase * bool :=
  let '(tc, foundHTTP) := acc in
  match ex_Protocol ex with
  | ProtocolHTTP =>
      match ex_HTTP ex with
      | None => (tc, foundHTTP)
      | Some h => if (foundHTTP : bool) then (tc, foundHTTP) else (record_http tc h, true)
      end
  | ProtocolRedis =>
      (mkTest (tc_Name tc) (tc_Request tc)
         (tc_Dependencies tc ++ map dependency (ex_Redis ex)) (tc_Response tc), foundHTTP)
  | ProtocolUnknown => (tc, foundHTTP)
  end.

(** [Build]: the test case, and the error it is returned with. *)
Definition Build (name : bytes) (exchanges : list Exchange) : TestCase * option build_err :=
  let tc0 := mkTest name (mkTRequest [] [] BNil) [] (mkTResponse 0 BNil) in
  let '(tc, foundHTTP) := fold_left build_step exchanges (tc0, false) in
  (tc, if (foundHTTP : bool) then None else Some NoHTTPRequest).

(** ** Specification *)

(** The exchange under test: the first one decoded as HTTP. *)
Definition http_of (ex : Exchange) : option HTTPExchange :=
  match ex_Protocol ex with ProtocolHTTP => ex_HTTP ex | _ => None end.

Definition under_test (exchanges : list Exchange) : option HTTPExchange :=
  head (omap http_of exchanges).

Definition redis_calls (exchanges : list Exchange) : list RedisCall :=
  flat_map (fun ex => match ex_Protocol ex with ProtocolRedis => ex_Redis ex | _ => [] end)
    exchanges.

(** ** Lemmas *)

Lemma build_fold exchanges tc found :
  fold_left build_step exchanges (tc, found) =
  let tc' := match under_test exchanges with
             | Some h => if (found : bool) then tc else record_http tc h
             | None => tc
             end in
  (mkTest (tc_Name tc') (tc_Request tc')
     (tc_Dependencies tc ++ map dependency (redis_calls exchanges)) (tc_Response tc'),
   found || bool_decide (is_Some (under_test exchanges))).
Proof.
  revert tc found. induction exchanges as [|ex exchanges IH]; intros tc found; simpl.
  - rewrite app_nil_r, orb_false_r. by destruct tc.
  - destruct ex as [pid fd [] [h|] calls tr], found; simpl; rewrite IH;
      unfold under_test; simpl; rewrite ?map_app, ?app_assoc;
      change (list_omap _ _ http_of exchanges) with (omap http_of exchanges);
      by destruct (head (omap http_of exchanges)).
Qed.

(** ** Theorems *)

(** [C29] [Build] records what it should: the request and response of the first
    HTTP exchange, every call of every Redis exchange as a dependency in the
    order of the exchanges, and an error exactly when no HTTP exchange was
    seen. *)
Theorem Build_spec name exchanges :
  let (tc, err) := Build name exchanges in
  tc_Name tc = name /\
  tc_Dependencies tc = map dependency (redis_calls exchanges) /\
  match under_test exchanges with
  | Some h =>
      err = None /\
      tc_Request tc = match ex_Request h with
                      | Some req => mkTRequest (Method req) (URL_Path req) (decodeBody (ex_RequestBody h))
                      | None => mkTRequest [] [] BNil
                      end /\
      tc_Response tc = match ex_Response h with
                       | Some resp => mkTResponse (StatusCode resp) (decodeBody (ex_ResponseBody h))
                       | None => mkTResponse 0 BNil
                       end
  | None => err = Some NoHTTPRequest /\ tc_Request tc = mkTRequest [] [] BNil /\
            tc_Response tc = mkTResponse 0 BNil
  end.
Proof.
  unfold Build. rewrite build_fold. simpl. by destruct (under_test exchanges) as [h|].
Qed.

End Recorder.
Arguments TestCase : clear implicits.
Arguments TestCase {_}.
Arguments body : clear implicits.
Arguments body {_}.

(** ** The order of a recording *)

(** A JSON library that accepts nothing, for evaluation. *)
Definition no_json : JSON := {| jsonv := Empty_set; Unmarshal _ := None |}.

(** Two keep-alive HTTP connections and two pooled Redis connections, none of
    them closed during the trace. *)
Definition open_connections : list Event :=
  [sample_event OpRead 5 (str "GET /a");
   sample_event OpRead 6 (str "GET /b");
   sample_event OpWrite 8 (wire (command_value [str "get"; str "x"]));
   sample_event OpWrite 9 (wire (command_value [str "get"; str "y"]))].

Definition recorded (order : list (key * connBufs) -> list (key * connBufs)) (events : list Event) :
    safe (@TestCase no_json * option build_err) :=
  obind (@Run ascii_only tiny_http order events)
    (fun '(_, exchanges) => Ok (@Build tiny_http no_json (str "t") exchanges)).

(** What a recording holds is not determined by the trace: connections
    still open when it ends are decoded in the iteration order of a map, so for
    one and the same trace two permitted orders record different requests under
    test and their dependencies in different orders. *)
Theorem recording_order_unspecified :
  exists order1 order2 tc1 tc2,
    (forall l, order1 l ≡ₚ l) /\ (forall l, order2 l ≡ₚ l) /\
    recorded order1 open_connections = Ok (tc1, None) /\
    recorded order2 open_connections = Ok (tc2, None) /\
    t_Path (tc_Request tc1) <> t_Path (tc_Request tc2) /\
    map d_Request (tc_Dependencies tc1) <> map d_Request (tc_Dependencies tc2).
Proof.
  exists (fun l => l), (@rev _). eexists _, _.
  split; [intros l; reflexivity|]. split; [intros l; symmetry; apply Permutation_rev|].
  split; [run|]. split; [run|]. split; vm_compute; discriminate.
Qed.
