(* ===== verification/Replay.v ===== *)
(** * internal/replay: the RESP2 proxy that replays dependencies

    [reply] and [handleConn], against the decoder's [ReadCommand] and encoders;
    then the whole record/replay path, from the bytes of a Redis connection to
    the bytes the proxy writes. *)

From S2P Require Import Prelude GoStd Resp Http Streamer Recorder.
Local Open Scope Z_scope.
Local Open Scope go_scope.

(** ** Operations *)

Section Proxy.
Context `{Unicode}.

(** The search of [reply]: the first dependency with the wanted text. *)
Fixpoint find_dep (want : bytes) (deps : list Dependency) : option Dependency :=
  match deps with
  | [] => None
  | dep :: deps =>
      if decide (ToLower (d_Request dep) = want) then Some dep else find_dep want deps
  end.

(** [Proxy.reply] for a proxy built with [deps]. *)
Definition reply (deps : list Dependency) (cmd : list bytes) : bytes :=
  match cmd with
  | [] => EncodeError (str "ERR empty command")
  | name :: _ =>
      if IsAdminCommand name then
        EncodeError (str "ERR unknown command '" ++ name ++ str "'")
      else
        let want := ToLower (Join cmd (str " ")) in
        match find_dep want deps with
        | Some dep => EncodeReply (d_Response dep)
        | None => EncodeError (str "ERR no recorded reply for '" ++ want ++ str "'")
        end
  end.

(** The loop of [Proxy.handleConn]: the replies written, until a read or write
    fails.  [write_ok i] says whether the [i]-th write succeeds; a failed
    write's bytes count as not written.  Each round reads at least two bytes,
    so one unit of fuel per byte and one more are enough
    ([handle_fuel]). *)
Fixpoint handle_loop (fuel : nat) (deps : list Dependency) (write_ok : nat -> bool) (i : nat)
    (r : reader) : safe (list bytes) :=
  match fuel with
  | O => Ok []
  | S fuel =>
      match ReadCommand r with
      | (Err _, _) => Ok []
      | (Panic p, _) => Panic p
      | (Ok cmd, r') =>
          let out := reply deps cmd in
          if write_ok i then
            let? outs := handle_loop fuel deps write_ok (S i) r' in Ok (out :: outs)
          else Ok []
      end
  end.

(** [Proxy.handleConn] on everything the client sends. *)
Definition handleConn (deps : list Dependency) (write_ok : nat -> bool) (r : reader) :
    safe (list bytes) :=
  handle_loop (S (length (rdata r))) deps write_ok 0 r.

End Proxy.

(** ** Specification *)

(** A connection's session: one reply per command, until the client closes,
    sends something that is not a command, or a write fails. *)
Section Session.
Context `{Unicode} (deps : list Dependency) (write_ok : nat -> bool).

Inductive session : nat -> reader -> list bytes -> Prop :=
| session_end i r e r' : ReadCommand r = (Err e, r') -> session i r []
| session_write_error i r cmd r' :
    ReadCommand r = (Ok cmd, r') -> write_ok i = false -> session i r []
| session_reply i r cmd r' outs :
    ReadCommand r = (Ok cmd, r') -> write_ok i = true -> session (S i) r' outs ->
    session i r (reply deps cmd :: outs).
End Session.

(** ** Lemmas *)

(** A literal holds no line feed. *)
Ltac no_LF := by apply (bool_decide_unpack _).

Section Lemmas.
Context `{Unicode}.

Lemma ReadCommand_advances r cmd r' : ReadCommand r = (Ok cmd, r') -> advances 2 r r'.
Proof.
  unfold ReadCommand. destruct (parseRESP r) as [[v|e|p] r1] eqn:E; [|done..].
  case_decide; [|done]. intros [= _ <-]. by eapply parseRESP_advances.
Qed.

Lemma ReadCommand_wire cmd rest fin :
  wf_resp (command_value cmd) = true ->
  ReadCommand (mkReader (wire (command_value cmd) ++ rest) fin) = (Ok cmd, mkReader rest fin).
Proof.
  intros Hwf. unfold ReadCommand. rewrite (parseRESP_wire _ _ _ Hwf).
  rewrite decide_True by done. by rewrite command_of_value.
Qed.

Lemma handle_session fuel deps write_ok i r outs :
  (length (rdata r) < fuel)%nat ->
  handle_loop fuel deps write_ok i r = Ok outs <-> session deps write_ok i r outs.
Proof.
  revert i r outs. induction fuel as [|fuel IH]; intros i r outs Hf; [lia|]. cbn [handle_loop].
  destruct (ReadCommand r) as [[cmd|e|p] r'] eqn:E.
  - pose proof (advances_length _ _ _ (ReadCommand_advances _ _ _ E)).
    destruct (write_ok i) eqn:Hw.
    + split.
      * destruct (handle_loop fuel deps write_ok (S i) r') as [outs'|[]|] eqn:E'; [|done..].
        intros [= <-]. econstructor; [done..|]. apply IH; [lia|done].
      * inversion_clear 1 as [|? ? ? ? E2 Hw2|? ? ? ? ? E2 _ Hs]; [congruence..|].
        rewrite E in E2. simplify_eq. apply IH in Hs; [|lia]. by rewrite Hs.
    + split; [intros [= <-]; by econstructor|].
      by inversion_clear 1; [congruence..|congruence].
  - split; [intros [= <-]; by econstructor|]. by inversion_clear 1; congruence.
  - split; [done|]. by inversion_clear 1; congruence.
Qed.

Lemma session_wire deps cmds fin i :
  forallb wf_resp (map command_value cmds) = true ->
  session deps (fun _ => true) i
    (mkReader (concat (map wire (map command_value cmds))) fin) (map (reply deps) cmds).
Proof.
  revert i. induction cmds as [|cmd cmds IH]; intros i Hwf; [by eapply session_end|].
  apply andb_true_iff in Hwf as [Hc Hwf]. simpl. eapply session_reply; [|done|by apply IH].
  by apply ReadCommand_wire.
Qed.

(** The first match by text: nothing before it has the same text. *)
Lemma find_dep_Some want deps dep :
  find_dep want deps = Some dep <->
  exists l1 l2, deps = l1 ++ dep :: l2 /\ ToLower (d_Request dep) = want /\
                Forall (fun d => ToLower (d_Request d) <> want) l1.
Proof.
  induction deps as [|d deps IH]; simpl.
  - split; [done|]. by intros ([] & ? & ? & _).
  - case_decide as Hd.
    + split.
      * intros [= <-]. exists [], deps. split_and!; [done..|constructor].
      * intros ([|d' l1] & l2 & E & ? & Hl); simplify_eq/=; [done|].
        by inversion_clear Hl.
    + rewrite IH. split.
      * intros (l1 & l2 & -> & ? & ?). exists (d :: l1), l2. by repeat constructor.
      * intros ([|d' l1] & l2 & E & ? & Hl); simplify_eq/=.
        inversion_clear Hl. eauto.
Qed.

Lemma find_dep_None want deps :
  find_dep want deps = None <-> Forall (fun d => ToLower (d_Request d) <> want) deps.
Proof.
  induction deps as [|d deps IH]; simpl; [by split|].
  rewrite Forall_cons. case_decide; [naive_solver|]. rewrite IH. naive_solver.
Qed.

(** The text a command is matched by. *)
Definition text (cmd : list bytes) : bytes := ToLower (Join cmd (str " ")).

Lemma find_dep_recorded want i cmds replies j cmd :
  cmds !! j = Some cmd -> is_data_command cmd = true -> text cmd = want ->
  (forall k c, (k < j)%nat -> cmds !! k = Some c -> is_data_command c = true -> text c <> want) ->
  find_dep want (map dependency (pair_calls i cmds replies)) =
  Some (dependency (mkCall cmd (reply_text (replies !! (i + j)%nat)))).
Proof.
  revert i j. induction cmds as [|c cmds IH]; intros i j Hj Hd Ht Hfirst; [done|].
  destruct j as [|j]; simpl in Hj.
  - simplify_eq. destruct cmd as [|name args]; [done|]. cbn [pair_calls].
    simpl in Hd. apply negb_true_iff in Hd. rewrite Hd. cbn [map find_dep].
    rewrite Nat.add_0_r, decide_True by done. done.
  - assert (find_dep want (map dependency (pair_calls (S i) cmds replies)) =
            Some (dependency (mkCall cmd (reply_text (replies !! (i + S j)%nat))))) as Hrec.
    { rewrite (IH (S i) j); [by rewrite Nat.add_succ_comm|done..|].
      intros k c' Hk. apply (Hfirst (S k)). lia. }
    pose proof (Hfirst 0%nat c ltac:(lia) eq_refl) as Hc.
    destruct c as [|name args]; [done|]. cbn [pair_calls].
    simpl in Hc. destruct (IsAdminCommand name); [done|]. cbn [map find_dep].
    rewrite decide_False by by apply Hc. done.
Qed.

Lemma reply_data deps cmd :
  is_data_command cmd = true ->
  reply deps cmd =
  match find_dep (text cmd) deps with
  | Some dep => EncodeReply (d_Response dep)
  | None => EncodeError (str "ERR no recorded reply for '" ++ text cmd ++ str "'")
  end.
Proof. destruct cmd as [|name args]; [done|]. simpl. by destruct (IsAdminCommand name). Qed.

Lemma reply_admin deps name args :
  IsAdminCommand name = true ->
  reply deps (name :: args) = EncodeError (str "ERR unknown command '" ++ name ++ str "'").
Proof. intros Ha. unfold reply. by rewrite Ha. Qed.

Lemma lower_byte_LF c : lower_byte c = LF -> c = LF.
Proof.
  unfold lower_byte. destruct (_ && _) eqn:E; [|done].
  rewrite andb_true_iff, !Z.leb_le in E. intros H1%(f_equal bval).
  rewrite bval_byte_of, Z.mod_small in H1 by lia. change (bval LF) with 10 in H1. lia.
Qed.

Lemma map_lower_LF s : LF ∉ s -> LF ∉ map lower_byte s.
Proof.
  intros Hs (c & E & Hc)%list_elem_of_fmap. symmetry in E. apply lower_byte_LF in E. by subst.
Qed.

Lemma ToLower_LF s :
  (LF ∉ s -> LF ∉ unicode_lower s) -> LF ∉ s -> LF ∉ ToLower s.
Proof. intros Hu Hs. unfold ToLower. destruct (is_ascii s); [by apply map_lower_LF|auto]. Qed.

Lemma Join_LF cmd : Forall (fun w => LF ∉ w) cmd -> LF ∉ Join cmd (str " ").
Proof.
  induction 1 as [|w cmd Hw Hc IH]; [apply not_elem_of_nil|]. simpl.
  destruct cmd; [done|]. apply not_elem_of_app. split; [done|]. by apply not_elem_of_cons.
Qed.

(** An error message that quotes a one-line text is one line. *)
Lemma quoted_line_ok pre s :
  LF ∉ pre -> LF ∉ s -> line_ok (pre ++ s ++ str "'") = true.
Proof.
  intros Hp Hs. unfold line_ok. rewrite andb_true_iff, !bool_decide_eq_true, !not_elem_of_app.
  split; [split_and!; [done..|]|].
  - apply not_elem_of_cons. split; [done|apply not_elem_of_nil].
  - rewrite app_assoc. change (str "'") with [Byte.x27]. by rewrite last_snoc.
Qed.

Lemma wire_error s : line_ok s = true -> exists v, wf_resp v = true /\ EncodeError s = wire v.
Proof.
  intros Hs. exists (mkRESP tError s [] false). split; [|done].
  cbn [wf_resp]. rewrite decide_True by auto. by rewrite Hs.
Qed.

End Lemmas.

(** ** Theorems *)

Section Theorems.
Context `{Unicode}.

(** [C10] What is recorded is what is replayed, and how much of it survives.  A
    connection's bytes are decoded into calls and recorded as dependencies; when
    the application sends a recorded data command again, the proxy answers, of
    the recorded commands with the same text (case ignored), with the first
    one's reply - as [EncodeReply] encodes its rendering.  So a command recorded
    several times only ever gets its first reply.
    - The application parses that answer back to the very reply Redis sent, with
      nothing left over, exactly when the reply is an error, an integer, a null
      bulk string or a status that does not look like one of the others'
      renderings ([display_faithful]).
    - Any other reply - the value of a GET, an array, a null array - comes back
      as something else: one whose rendering is one line, and looks like none of
      those three, as a status with the rendering for its text. *)
Theorem replay_first_recorded cmds replies j cmd cmd' v rest fin :
  forallb wf_resp (map command_value cmds) = true ->
  forallb wf_resp replies = true ->
  cmds !! j = Some cmd' -> replies !! j = Some v ->
  is_data_command cmd = true -> is_data_command cmd' = true -> text cmd' = text cmd ->
  (forall k c, (k < j)%nat -> cmds !! k = Some c -> is_data_command c = true ->
               text c <> text cmd) ->
  exists calls,
    TryRESP (concat (map wire (map command_value cmds))) (concat (map wire replies)) =
      Ok (calls, true) /\
    reply (map dependency calls) cmd = EncodeReply (RESPString v) /\
    (parseRESP (mkReader (reply (map dependency calls) cmd ++ rest) fin) = (Ok v, mkReader rest fin) <->
     display_faithful v = true) /\
    (plain_display (RESPString v) = true -> line_ok (RESPString v) = true ->
     parseRESP (mkReader (reply (map dependency calls) cmd ++ rest) fin) =
       (Ok (mkRESP tSimple (RESPString v) [] false), mkReader rest fin)).
Proof.
  intros Hc Hr Hj Hv Hdata Hdata' Htext Hfirst.
  pose proof (find_dep_recorded (text cmd) 0 cmds replies j cmd' Hj Hdata' Htext Hfirst) as Hfind.
  rewrite (TryRESP_parsed _ _ _ _ (decodes_wires _ Hc) (decodes_wires _ Hr)), commands_of_values.
  unfold expected_calls. rewrite <-(pair_calls_expected 0).
  assert (reply (map dependency (pair_calls 0 cmds replies)) cmd = EncodeReply (RESPString v)) as Hreply.
  { rewrite reply_data, Hfind by done. simpl. by rewrite Hv. }
  eexists. rewrite Hreply. split_and!.
  - rewrite bool_decide_eq_true_2; [done|]. intros E. by rewrite E in Hfind.
  - done.
  - apply EncodeReply_faithful_iff. apply Is_true_true, forallb_True in Hr. rewrite Forall_forall in Hr.
    apply Is_true_true, Hr. by eapply list_elem_of_lookup_2.
  - apply parse_plain.
Qed.

(** [reply] decides by text: a data command is answered from the first
    dependency whose request is the same text up to case, and with an error
    when there is none; empty and administrative commands are always answered
    with an error, whatever was recorded. *)
Theorem reply_spec deps cmd :
  match cmd with
  | [] => reply deps cmd = EncodeError (str "ERR empty command")
  | name :: _ =>
      (IsAdminCommand name = true ->
       reply deps cmd = EncodeError (str "ERR unknown command '" ++ name ++ str "'")) /\
      (IsAdminCommand name = false ->
       (exists l1 dep l2, deps = l1 ++ dep :: l2 /\
          ToLower (d_Request dep) = text cmd /\
          Forall (fun d => ToLower (d_Request d) <> text cmd) l1 /\
          reply deps cmd = EncodeReply (d_Response dep)) \/
       (Forall (fun d => ToLower (d_Request d) <> text cmd) deps /\
        reply deps cmd =
          EncodeError (str "ERR no recorded reply for '" ++ text cmd ++ str "'")))
  end.
Proof.
  destruct cmd as [|name args]; [done|]. split; intros Ha; [by apply reply_admin|].
  rewrite reply_data by (simpl; by rewrite Ha).
  destruct (find_dep (text (name :: args)) deps) as [dep|] eqn:E.
  - left. apply find_dep_Some in E as (l1 & l2 & ? & ? & ?). by exists l1, dep, l2.
  - right. split; [by apply find_dep_None|done].
Qed.

(** [C22] [handleConn] is the session of its connection: on every input and
    every pattern of write failures it terminates with exactly the replies of
    the specified session, one per command read. *)
Theorem handleConn_session deps write_ok r outs :
  handleConn deps write_ok r = Ok outs <-> session deps write_ok 0 r outs.
Proof. apply handle_session. lia. Qed.

(** A pipelined client is served completely: for any list of well-formed
    commands followed by end of stream, the proxy writes one reply per command,
    in order. *)
Theorem handleConn_serves deps cmds :
  forallb wf_resp (map command_value cmds) = true ->
  handleConn deps (fun _ => true) (bytes_reader (concat (map wire (map command_value cmds)))) =
  Ok (map (reply deps) cmds).
Proof. intros Hwf. apply handle_session; [lia|]. by apply session_wire. Qed.

(** [C38] Replies keep the protocol in step: when the recorded responses are
    one-line texts and the command's words hold no line feed, whatever the proxy
    answers parses as exactly one RESP value with nothing left over. *)
Theorem reply_one_value deps cmd rest fin :
  (forall s, LF ∉ s -> LF ∉ unicode_lower s) ->
  Forall (fun d => line_ok (d_Response d) = true) deps ->
  Forall (fun w => LF ∉ w) cmd ->
  exists v, parseRESP (mkReader (reply deps cmd ++ rest) fin) = (Ok v, mkReader rest fin).
Proof.
  intros Hu Hdeps Hcmd.
  assert (exists v, wf_resp v = true /\ reply deps cmd = wire v) as (v & Hv & ->).
  2:{ exists v. by apply parseRESP_wire. }
  destruct cmd as [|name args]; [by apply wire_error|].
  destruct (is_data_command (name :: args)) eqn:Hd.
  - rewrite reply_data by done. destruct (find_dep _ deps) as [dep|] eqn:E.
    + apply find_dep_Some in E as (l1 & l2 & -> & _). apply EncodeReply_wire.
      by apply Forall_app in Hdeps as [_ [? _]%Forall_cons].
    + apply wire_error, quoted_line_ok; [no_LF|]. apply ToLower_LF, Join_LF; auto.
  - simpl in Hd. apply negb_false_iff in Hd. rewrite reply_admin by done.
    apply wire_error, quoted_line_ok; [no_LF|]. by inversion_clear Hcmd.
Qed.

(** An unrecorded command with a line break desynchronises the
    connection: the error reply quotes the command's text unescaped, so the
    client reads an error cut at the break and takes the rest of the text for
    the next reply. *)
Theorem reply_quotes_unescaped deps cmd a b rest fin :
  is_data_command cmd = true ->
  Forall (fun d => ToLower (d_Request d) <> text cmd) deps ->
  text cmd = a ++ crlf ++ b -> line_ok a = true -> a <> [] ->
  parseRESP (mkReader (reply deps cmd ++ rest) fin) =
  (Ok (mkRESP tError (str "ERR no recorded reply for '" ++ a) [] false),
   mkReader (b ++ str "'" ++ crlf ++ rest) fin).
Proof.
  intros Hd Hnone Ht Ha Hne. rewrite reply_data by done.
  apply find_dep_None in Hnone. rewrite Hnone, Ht. unfold EncodeError.
  apply (parseRESP_complete 1). cbn [parseRESPValue]. rewrite <-!app_assoc.
  change (str "-") with [tError]. cbn [app].
  rewrite (app_assoc (str "ERR no recorded reply for '") a).
  rewrite parse_line; [by rewrite decide_True by auto|done..|].
  revert Ha. unfold line_ok. rewrite !andb_true_iff, !bool_decide_eq_true, not_elem_of_app.
  intros [Hlf Hcr]. split; [split; [no_LF|done]|].
  destruct a as [|x a _] using rev_ind; [done|]. by rewrite app_assoc, !last_snoc in *.
Qed.
End Theorems.

(** ** Witnesses *)

(** A session that repeats a command, with other letter case, after an
    administrative one, and reads a key. *)
Definition replay_cmds : list (list bytes) :=
  [[str "HELLO"; str "3"]; [str "INCR"; str "n"]; [str "incr"; str "n"]; [str "GET"; str "n"]].
Definition replay_replies : list RESPValue :=
  [mkRESP tError (str "ERR") [] false; mkRESP tInt (str "1") [] false;
   mkRESP tInt (str "2") [] false; bulk (str "2")].

(** The integer comes back; the bulk string comes back as a status. *)
Lemma replay_first_recorded_witness :
  exists calls,
    @TryRESP ascii_only (concat (map wire (map command_value replay_cmds)))
      (concat (map wire replay_replies)) = Ok (calls, true) /\
    parseRESP (mkReader (@reply ascii_only (map dependency calls) [str "incr"; str "N"] ++ str "+") EOF) =
      (Ok (mkRESP tInt (str "1") [] false), mkReader (str "+") EOF) /\
    parseRESP (mkReader (@reply ascii_only (map dependency calls) [str "get"; str "n"] ++ str "+") EOF) =
      (Ok (mkRESP tSimple (str "2") [] false), mkReader (str "+") EOF).
Proof.
  destruct (@replay_first_recorded ascii_only replay_cmds replay_replies 1
    [str "incr"; str "N"] [str "INCR"; str "n"] (mkRESP tInt (str "1") [] false) (str "+") EOF)
    as (calls & Hcalls & _ & Hint & _); [run..| |].
  { intros [|k] c Hk; simpl; [by intros [= <-]|lia]. }
  destruct (@replay_first_recorded ascii_only replay_cmds replay_replies 3
    [str "get"; str "n"] [str "GET"; str "n"] (bulk (str "2")) (str "+") EOF)
    as (calls' & Hcalls' & _ & _ & Hbulk); [run..| |].
  { intros [|[|[|k]]] c Hk; [| | |lia]; intros [= <-] _; vm_compute; discriminate. }
  exists calls. split; [exact Hcalls|]. split; [apply Hint; reflexivity|].
  replace calls with calls' by congruence. apply Hbulk; reflexivity.
Defined.

Definition replay_deps : list Dependency := [mkDep (str "redis") (str "INCR n") (str "(integer) 1")].

Lemma handleConn_serves_witness :
  forallb wf_resp (map command_value replay_cmds) = true /\
  @handleConn ascii_only replay_deps (fun _ => true)
    (bytes_reader (concat (map wire (map command_value replay_cmds)))) =
  Ok [str "-ERR unknown command 'HELLO'" ++ crlf; str ":1" ++ crlf; str ":1" ++ crlf;
      str "-ERR no recorded reply for 'get n'" ++ crlf].
Proof. split; [run|]. apply (@handleConn_serves ascii_only replay_deps replay_cmds). run. Defined.

Lemma reply_one_value_witness :
  Forall (fun d => line_ok (d_Response d) = true) replay_deps /\
  Forall (fun w => LF ∉ w) [str "GET"; str "a"] /\
  exists v, parseRESP (mkReader (@reply ascii_only replay_deps [str "GET"; str "a"] ++ str "+") EOF) =
            (Ok v, mkReader (str "+") EOF).
Proof.
  assert (Forall (fun d => line_ok (d_Response d) = true) replay_deps) as Hd by by repeat constructor.
  assert (Forall (fun w => LF ∉ w) [str "GET"; str "a"]) as Hc.
  { repeat constructor; by apply (bool_decide_unpack _). }
  split; [exact Hd|split; [exact Hc|]].
  exact (@reply_one_value ascii_only replay_deps [str "GET"; str "a"] (str "+") EOF
    map_lower_LF Hd Hc).
Defined.

Lemma reply_quotes_unescaped_witness :
  @is_data_command ascii_only [str "get"; str "a" ++ crlf ++ str "b"] = true /\
  parseRESP (mkReader (@reply ascii_only replay_deps [str "get"; str "a" ++ crlf ++ str "b"] ++ str "+") EOF) =
  (Ok (mkRESP tError (str "ERR no recorded reply for 'get a") [] false),
   mkReader (str "b'" ++ crlf ++ str "+") EOF).
Proof.
  split; [run|].
  apply (@reply_quotes_unescaped ascii_only replay_deps [str "get"; str "a" ++ crlf ++ str "b"]
    (str "get a") (str "b") (str "+") EOF); [run| |run|run|done].
  repeat constructor. vm_compute. discriminate.
Defined.
