(* ===== verification/Proxy.v ===== *)
(** * internal/replay: the proxy's listener, handlers and shutdown

    [Serve], the goroutine per connection, the clients and [Close] interleave.
    What each connection is answered is in Replay; here a handler's reads and
    writes are no steps, only its return, which its client decides on. *)

From S2P Require Import Prelude.
Local Open Scope Z_scope.

(** ** State *)

(** Who holds the client's end of a connection: the command the proxy was
    started for, whose connections the kernel closes when it exits, or another
    process. *)
Inductive holder := Command | Elsewhere.

(** An accepted connection.  It is open until the client has disconnected, has
    sent something that is no command, or no longer takes replies: only then
    does [handleConn] return. *)
Record client := mkClient { cl_holder : holder; cl_open : bool }.

Definition disconnect (c : client) : client := mkClient (cl_holder c) false.

(** Where the [Serve] goroutine is: blocked in [Accept], holding an accepted
    connection, past [wg.Add(1)], or returned. *)
Inductive serve_pc := Accepting | Accepted (c : client) | Counted (c : client) | Stopped.

(** Where the caller of [Close] is: not called, past [done = true], past
    [ln.Close()] and so in [wg.Wait()], or returned. *)
Inductive close_pc := NotClosing | DoneSet | Waiting | Closed.

#[global] Instance close_pc_eq_dec : EqDecision close_pc.
Proof. solve_decision. Defined.

(** The connection [Serve] has in hand. *)
Definition holding (sv : serve_pc) : option client :=
  match sv with Accepted c | Counted c => Some c | Accepting | Stopped => None end.

(** [Proxy] without [deps], with its goroutines: the listener, [done], the
    counter of [wg], and the connections of the handlers that run. *)
Record Proxy := mkProxy {
  ln_open : bool;
  done : bool;
  wg : Z;
  conns : list client;
  serving : serve_pc;
  closing : close_pc;
}.

(** [NewProxy], then [go Serve()]. *)
Definition NewProxy : Proxy := mkProxy true false 0 [] Accepting NotClosing.

(** Every connection there is. *)
Definition clients (p : Proxy) : list client := conns p ++ option_list (holding (serving p)).

(** ** Steps *)

Inductive label :=
| LAccept (c : client)  (* Accept returns a connection *)
| LAcceptErr            (* Accept returns an error: Serve returns *)
| LAdd                  (* wg.Add(1) *)
| LGo                   (* go func() {...}() *)
| LHandled (i : nat)    (* a handler's handleConn returns; wg.Done() *)
| LSetDone              (* Close: done = true under mu *)
| LCloseListener        (* Close: ln.Close() *)
| LWait                 (* Close: wg.Wait() returns *)
| LEnds (i : nat)       (* the client of a handler ends its connection *)
| LHeldEnds.            (* the client of the connection in Serve's hand does *)

(** [Serve]. *)
Definition Serve (l : label) (p : Proxy) : option Proxy :=
  let 'mkProxy ln done wg hs sv cl := p in
  match l, sv with
  | LAccept c, Accepting => if ln then Some (mkProxy ln done wg hs (Accepted c) cl) else None
  | LAcceptErr, Accepting => Some (mkProxy ln done wg hs Stopped cl)
  | LAdd, Accepted c => Some (mkProxy ln done (wg + 1) hs (Counted c) cl)
  | LGo, Counted c => Some (mkProxy ln done wg (hs ++ [c]) Accepting cl)
  | _, _ => None
  end.

(** The goroutine of one connection: while the connection is open its
    [handleConn] reads, or answers, and does not return.  (Where it panics the
    whole process ends: [RunSession.WPanic].) *)
Definition handler (l : label) (p : Proxy) : option Proxy :=
  let 'mkProxy ln done wg hs sv cl := p in
  match l with
  | LHandled i =>
      c ← hs !! i;
      if cl_open c then None else Some (mkProxy ln done (wg - 1) (delete i hs) sv cl)
  | _ => None
  end.

(** [Close]. *)
Definition Close (l : label) (p : Proxy) : option Proxy :=
  let 'mkProxy ln done wg hs sv cl := p in
  match l, cl with
  | LSetDone, NotClosing => Some (mkProxy ln true wg hs sv DoneSet)
  | LCloseListener, DoneSet => Some (mkProxy false done wg hs sv Waiting)
  | LWait, Waiting => if wg =? 0 then Some (mkProxy ln done wg hs sv Closed) else None
  | _, _ => None
  end.

(** The clients: an open connection may end. *)
Definition ends (c : client) : option client := if cl_open c then Some (disconnect c) else None.

Definition client_step (l : label) (p : Proxy) : option Proxy :=
  let 'mkProxy ln done wg hs sv cl := p in
  match l, sv with
  | LEnds i, _ => c ← hs !! i; c ← ends c; Some (mkProxy ln done wg (<[i := c]> hs) sv cl)
  | LHeldEnds, Accepted c => c ← ends c; Some (mkProxy ln done wg hs (Accepted c) cl)
  | LHeldEnds, Counted c => c ← ends c; Some (mkProxy ln done wg hs (Counted c) cl)
  | _, _ => None
  end.

(** Any of them may move. *)
Definition exec (l : label) (p : Proxy) : option Proxy :=
  match l with
  | LAccept _ | LAcceptErr | LAdd | LGo => Serve l p
  | LHandled _ => handler l p
  | LSetDone | LCloseListener | LWait => Close l p
  | LEnds _ | LHeldEnds => client_step l p
  end.

(** The steps that are not the clients' doing. *)
Definition own (l : label) : bool :=
  match l with LAccept _ | LEnds _ | LHeldEnds => false | _ => true end.

Definition reachable (p : Proxy) : Prop := rtc (steps_by exec) NewProxy p.

(** The clients of a process that exits all go at once. *)
Definition clients_map (f : client -> client) (p : Proxy) : Proxy :=
  let 'mkProxy ln done wg hs sv cl := p in
  mkProxy ln done wg (map f hs)
    match sv with Accepted c => Accepted (f c) | Counted c => Counted (f c) | _ => sv end cl.

(** ** Invariant *)

(** What [wg] has been told of: the running handlers and the one about to be
    started. *)
Definition counted (p : Proxy) : Z :=
  Z.of_nat (length (conns p)) + match serving p with Counted _ => 1 | _ => 0 end.

(** A connection the shutdown does not wait for: accepted while the listener
    was open, or already handed on since. *)
Definition late (p : Proxy) : Z :=
  counted p + match serving p with Accepted _ => 1 | _ => 0 end.

Record inv (p : Proxy) : Prop := {
  inv_wg : wg p = counted p;
  inv_ln : ln_open p = bool_decide (closing p = NotClosing \/ closing p = DoneSet);
  inv_late : closing p = Closed -> late p <= 1;
}.

Lemma inv_init : inv NewProxy.
Proof. by split. Qed.

(** The shapes of a step, for the case analyses below. *)
Ltac cases_of_step p l Hs :=
  destruct p as [ln dn w hs sv cl], l; simpl in Hs; unfold ends, mbind, option_bind in Hs;
  repeat match type of Hs with
  | Some _ = _ => injection Hs as <-
  | None = _ => discriminate Hs
  | context [match ?x with _ => _ end] =>
      lazymatch x with context [match _ with _ => _ end] => fail | _ => destruct x eqn:? end
  end;
  try match goal with H : _ !! _ = Some _ |- _ => pose proof (lookup_lt_Some _ _ _ H) end.

Lemma proxy_inv_exec l p q : inv p -> exec l p = Some q -> inv q.
Proof.
  intros [Hw Hl Hlate] Hs. cases_of_step p l Hs;
    split; unfold late, counted in *; simpl in *;
    rewrite ?length_app, ?length_insert, ?length_delete by (by eexists);
    simpl in *; try done; try lia.
  all: rewrite ?Z.eqb_eq in *; intros ?; subst; try discriminate Hl; try specialize (Hlate eq_refl);
    try destruct sv; lia.
Qed.

Lemma proxy_inv_step p q : inv p -> steps_by exec p q -> inv q.
Proof. intros Hi [l Hs]. by eapply proxy_inv_exec. Qed.

Lemma reachable_inv p : reachable p -> inv p.
Proof. intros Hr. eapply rtc_invariant; [apply proxy_inv_step|exact Hr|apply inv_init]. Qed.

(** The connections of a step's result are those there were, ended or not, and
    the one accepted. *)
Lemma exec_clients (P : client -> Prop) l p q :
  (forall c, P c -> P (disconnect c)) ->
  match l with LAccept c => P c | _ => True end ->
  exec l p = Some q -> Forall P (clients p) -> Forall P (clients q).
Proof.
  intros Hd Hl Hs. unfold clients. cases_of_step p l Hs; simpl;
    rewrite ?Forall_app, ?Forall_singleton; intros; destruct_and?; split_and?;
    try done; eauto using Forall_delete; try (by apply Forall_singleton; auto).
  apply (Forall_insert _ hs); [done|]. by eapply Hd, (Forall_lookup_1 _ hs).
Qed.

(** Steps left once the listener is closed: those the handlers, [Serve] and
    [Close] can still take, and the ends of the open connections. *)
Definition open_count (cs : list client) : nat := length (filter (fun c => cl_open c = true) cs).

Definition remaining (p : Proxy) : nat :=
  length (conns p) +
  match serving p with Accepting => 1 | Accepted _ => 4 | Counted _ => 3 | Stopped => 0 end +
  match closing p with NotClosing => 3 | DoneSet => 2 | Waiting => 1 | Closed => 0 end.

Lemma open_count_app cs ds : open_count (cs ++ ds) = (open_count cs + open_count ds)%nat.
Proof. unfold open_count. by rewrite filter_app, length_app. Qed.

Lemma open_count_cons c cs : open_count (c :: cs) = ((if cl_open c then 1 else 0) + open_count cs)%nat.
Proof. unfold open_count. rewrite filter_cons. by destruct (cl_open c). Qed.

Lemma open_count_delete cs i c :
  cs !! i = Some c -> open_count cs = ((if cl_open c then 1 else 0) + open_count (delete i cs))%nat.
Proof.
  intros Hc. rewrite delete_take_drop, <-(take_drop_middle cs i c Hc) at 1.
  rewrite !open_count_app, open_count_cons. lia.
Qed.

Lemma open_count_insert cs i c :
  cs !! i = Some c -> cl_open c = true ->
  open_count cs = S (open_count (<[i := disconnect c]> cs)).
Proof.
  intros Hc Ho. rewrite insert_take_drop by (by eapply lookup_lt_Some).
  rewrite <-(take_drop_middle cs i c Hc) at 1.
  rewrite !open_count_app, !open_count_cons, Ho. simpl. lia.
Qed.

(** Every step but [LAccept] uses up one or the other. *)
Lemma exec_remaining l p q :
  exec l p = Some q -> (forall c, l <> LAccept c) ->
  (remaining q + open_count (clients q) < remaining p + open_count (clients p))%nat /\
  (own l = true -> (remaining q < remaining p)%nat).
Proof.
  intros Hs. unfold remaining, clients. cases_of_step p l Hs; simpl; intros Hl;
    rewrite ?open_count_app, ?length_app, ?length_insert, ?length_delete by (by eexists);
    repeat match goal with
    | H : _ !! _ = Some ?c, Ho : cl_open ?c = true |- _ => rewrite (open_count_insert _ _ c H Ho); clear H
    | H : _ !! _ = Some ?c, Ho : cl_open ?c = false |- _ => rewrite (open_count_delete _ _ c H), Ho; clear H
    end; rewrite ?open_count_cons; simpl;
    change (open_count []) with 0%nat;
    try match goal with Ho : cl_open _ = true |- _ => rewrite Ho end;
    try (split; [lia|intros ?; try done; lia]).
  all: exfalso; by eapply Hl.
Qed.

(** Shut down: [Serve] and [Close] have returned and no handler runs. *)
Definition finished (p : Proxy) : Prop :=
  serving p = Stopped /\ closing p = Closed /\ conns p = [].

(** Nothing but a client can move. *)
Definition at_rest (p : Proxy) : Prop := forall l, own l = true -> exec l p = None.

(** Then [Serve] has returned, what is served is open, and it is all [Close]
    can be waiting for. *)
Lemma at_rest_shape p :
  inv p -> ln_open p = false -> at_rest p ->
  serving p = Stopped /\ Forall (fun c => cl_open c = true) (conns p) /\
  (closing p = Closed \/ closing p = Waiting /\ conns p <> []).
Proof.
  intros [Hw Hl _] Hclosed Hr. rewrite Hclosed in Hl.
  destruct p as [ln dn w hs sv cl]. simpl in *.
  assert (sv = Stopped) as ->.
  { destruct sv; [specialize (Hr LAcceptErr)|specialize (Hr LAdd)|specialize (Hr LGo)|done];
      by discriminate Hr. }
  split_and!; [done| |].
  - apply Forall_lookup. intros i c Hc. specialize (Hr (LHandled i) eq_refl). simpl in Hr.
    rewrite Hc in Hr. simpl in Hr. by destruct (cl_open c).
  - destruct cl; [discriminate Hl..| |by left]. right. split; [done|]. intros ->.
    specialize (Hr LWait eq_refl). unfold counted in Hw. simpl in *. by subst w.
Qed.

Lemma stuck_at_rest p : (forall r, ~ steps_by exec p r) -> at_rest p.
Proof.
  intros Hstuck l _. destruct (exec l p) as [q|] eqn:E; [|done]. destruct (Hstuck q). by exists l.
Qed.

(** Where no client can end its connection either, none is served. *)
Lemma none_left p :
  (forall r, ~ steps_by exec p r) -> Forall (fun c => cl_open c = true) (conns p) -> conns p = [].
Proof.
  destruct p as [ln dn w [|c cs] sv cl]; [done|]. simpl. intros Hstuck [Ho _]%Forall_cons_1.
  destruct (Hstuck (mkProxy ln dn w (disconnect c :: cs) sv cl)). exists (LEnds 0). simpl.
  unfold ends. by rewrite Ho.
Qed.

(** The listener stays closed, and everything there is to do is bounded. *)
Lemma closed_step p q :
  inv p /\ ln_open p = false -> steps_by exec p q ->
  (inv q /\ ln_open q = false) /\
  (remaining q + open_count (clients q) < remaining p + open_count (clients p))%nat.
Proof.
  intros [Hi Hl] [l Hs]. pose proof (proxy_inv_exec l p q Hi Hs) as Hq. split_and!; [done| |].
  - clear Hi Hq. cases_of_step p l Hs; simpl in *; congruence.
  - apply (exec_remaining l); [done|]. intros c ->. destruct p as [ln dn w hs [] cl]; simpl in *; by subst.
Qed.

(** An open connection keeps its handler. *)
Lemma exec_open l p p' :
  (forall i, l <> LEnds i) -> exec l p = Some p' ->
  Exists (fun c => cl_open c = true) (conns p) -> Exists (fun c => cl_open c = true) (conns p').
Proof.
  intros Hl Hs. cases_of_step p l Hs; simpl; try done.
  - rewrite Exists_app. by left.
  - rewrite delete_take_drop, <-(take_drop_middle hs i c) at 1 by done.
    rewrite !Exists_app, Exists_cons. intros [?|[?|?]]; [by left|congruence|by right].
  - by destruct (Hl i).
Qed.

(** Nor does [Close] return before it. *)
Lemma close_blocked p p' :
  inv p -> Exists (fun c => cl_open c = true) (conns p) -> Close LWait p <> Some p'.
Proof.
  intros [Hw _ _] Ho. destruct p as [ln dn w hs sv cl]. unfold counted in Hw. simpl in *.
  destruct cl; try done. destruct (Z.eqb_spec w 0); [|done].
  destruct hs; [by apply Exists_nil in Ho|]. simpl in *. destruct sv; lia.
Qed.

(** The steps of anybody but the clients being served. *)
Definition nobody_ends (p q : Proxy) : Prop :=
  exists l, (forall i, l <> LEnds i) /\ exec l p = Some q.

Lemma open_keeps_waiting p q :
  inv p -> Exists (fun c => cl_open c = true) (conns p) -> closing p <> Closed ->
  rtc nobody_ends p q -> closing q <> Closed.
Proof.
  intros Hi Ho Hc Hr.
  apply (rtc_invariant nobody_ends
    (fun p => inv p /\ Exists (fun c => cl_open c = true) (conns p) /\ closing p <> Closed) p q); [|done..].
  clear. intros x y (Hi & Ho & Hc) (l & Hl & Hs).
  split_and!; [by eapply proxy_inv_exec|by eapply exec_open|].
  intros Hy. assert (l = LWait) as -> by (by cases_of_step x l Hs; simpl in *; subst).
  by destruct (close_blocked x y Hi Ho).
Qed.

(** ** Theorems *)

(** The counter of [wg] is exact: in every reachable state it counts the
    running handlers and the one just about to start, so [Done] never makes it
    negative; and once [Close] has returned at most one connection is still to
    be served. *)
Theorem close_leaves_at_most_one p :
  reachable p ->
  wg p = counted p /\ 0 <= wg p /\ (closing p = Closed -> late p <= 1).
Proof.
  intros [Hw _ Hl]%reachable_inv. split_and!; [done| |done].
  rewrite Hw. unfold counted. destruct (serving p); lia.
Qed.

(** [Close] can return while a connection is being served: a connection
    accepted before the listener was closed is only counted in [wg] after
    [Accept] returns, so [Wait] may see zero first; the handler then runs after
    [Close] has returned. *)
Theorem close_misses_accepted c :
  exists p, reachable p /\ closing p = Closed /\ conns p = [c].
Proof.
  eexists. split; [|shelve].
  apply (run_labels_rtc exec [LAccept c; LSetDone; LCloseListener; LWait; LAdd; LGo]). reflexivity.
  Unshelve. by split.
Qed.

(** [C23] Shutdown waits for the clients, and for nothing else.  Once the
    listener is closed:
    - every schedule of [Serve], the handlers' returns, [Close] and the clients'
      ends is finite;
    - when only clients can still move, [Serve] has returned, every connection
      still served is open at its client's end, and [Close] has returned unless
      there is one;
    - a connection that is open keeps [Close] from returning for as long as no
      client being served ends its connection;
    - and when the clients have ended theirs and nothing can move, [Serve] and
      [Close] have returned and nothing is served. *)
Theorem close_drains p :
  reachable p -> ln_open p = false ->
  sn (steps_by exec) p /\
  (forall q, rtc (steps_by exec) p q -> at_rest q ->
     serving q = Stopped /\ Forall (fun c => cl_open c = true) (conns q) /\
     (closing q = Closed \/ closing q = Waiting /\ conns q <> [])) /\
  (Exists (fun c => cl_open c = true) (conns p) -> closing p <> Closed ->
     forall q, rtc nobody_ends p q -> closing q <> Closed) /\
  (forall q, rtc (steps_by exec) p q -> (forall r, ~ steps_by exec q r) -> finished q).
Proof.
  intros Hr%reachable_inv Hl.
  assert (forall q, rtc (steps_by exec) p q -> inv q /\ ln_open q = false) as Hreach.
  { intros q Hq. eapply (rtc_invariant _ (fun p => inv p /\ ln_open p = false)); [|exact Hq|done].
    intros x y Hx Hy. by apply (closed_step x y Hx Hy). }
  split_and!.
  - eapply (measure_sn _ (fun p => inv p /\ ln_open p = false)
              (fun p => (remaining p + open_count (clients p))%nat)); [apply closed_step|done].
  - intros q Hq Hrest. destruct (Hreach q Hq). by apply at_rest_shape.
  - intros Ho Hc q. by apply open_keeps_waiting.
  - intros q Hq Hstuck. destruct (Hreach q Hq) as [Hi Hlq].
    destruct (at_rest_shape q Hi Hlq (stuck_at_rest q Hstuck)) as (Hs & Ho & Hc).
    pose proof (none_left q Hstuck Ho) as Hnil. split_and!; [done| |done]. by destruct Hc as [?|[_ ?]].
Qed.

(** ** Witnesses *)

(** Two connections are being served when [Close] waits, one of which ends: the
    other keeps [Close] waiting, until it ends as well. *)
Definition a_client : client := mkClient Command true.
Definition busy_proxy : Proxy := mkProxy false true 2 [a_client; a_client] Stopped Waiting.
Definition held_proxy : Proxy := mkProxy false true 1 [a_client] Stopped Waiting.
Definition drained_proxy : Proxy := mkProxy false true 0 [] Stopped Closed.

Lemma busy_reachable : reachable busy_proxy.
Proof.
  apply (run_labels_rtc exec [LAccept a_client; LAdd; LGo; LAccept a_client; LSetDone; LAdd;
           LCloseListener; LGo; LAcceptErr]). reflexivity.
Qed.

Lemma close_leaves_at_most_one_witness :
  reachable busy_proxy /\
  wg busy_proxy = counted busy_proxy /\ 0 <= wg busy_proxy /\
  (closing busy_proxy = Closed -> late busy_proxy <= 1).
Proof. split; [exact busy_reachable|exact (close_leaves_at_most_one busy_proxy busy_reachable)]. Defined.

Lemma held_at_rest : at_rest held_proxy.
Proof. intros [| | | |[]| | | | |]; done. Qed.

Lemma drained_stuck r : ~ steps_by exec drained_proxy r.
Proof. by intros [[] ?]. Qed.

Lemma close_drains_witness :
  reachable busy_proxy /\ ln_open busy_proxy = false /\ sn (steps_by exec) busy_proxy /\
  (forall q, rtc nobody_ends busy_proxy q -> closing q <> Closed) /\
  (closing held_proxy = Waiting /\ conns held_proxy <> []) /\ finished drained_proxy.
Proof.
  destruct (close_drains busy_proxy busy_reachable eq_refl) as (Hsn & Hrest & Hheld & Hend).
  split_and!; [exact busy_reachable|reflexivity|exact Hsn| |..].
  - apply Hheld; [by left|done].
  - assert (rtc (steps_by exec) busy_proxy held_proxy) as Hr
      by (apply (run_labels_rtc exec [LEnds 0; LHandled 0]); reflexivity).
    destruct (Hrest _ Hr held_at_rest) as (_ & _ & [Hc|Hw]); [discriminate Hc|exact (proj1 Hw)].
  - assert (rtc (steps_by exec) busy_proxy held_proxy) as Hr
      by (apply (run_labels_rtc exec [LEnds 0; LHandled 0]); reflexivity).
    destruct (Hrest _ Hr held_at_rest) as (_ & _ & [Hc|Hw]); [discriminate Hc|exact (proj2 Hw)].
  - apply Hend; [|exact drained_stuck].
    apply (run_labels_rtc exec [LEnds 0; LHandled 0; LEnds 0; LHandled 0; LWait]). reflexivity.
Defined.
