(* ===== verification/RunSession.v ===== *)
(** * run: the session around the command

    [runCmd] from [sub.Start] to its return: the main goroutine, the proxy's
    goroutines (Proxy) with the clients they serve, the goroutine that forwards
    Ctrl-C, the command itself, whoever else connects and the interrupts of the
    terminal, in any interleaving. *)

From S2P Require Import Prelude Proxy.
Local Open Scope nat_scope.

(** ** State *)

Section Session.
Context {E : Type} (start : option E).   (* the result of [sub.Start()] *)

Inductive run_result := StartFailed (e : E) | Waited (e : option E).

(** Where the main goroutine is: before [sub.Start()], before [signal.Notify],
    in [sub.Wait()], in the deferred [proxy.Close()], returned; or the process
    was killed by an interrupt nobody had asked to be notified of, or by a panic
    in a handler ([Replay.handleConn] says when it panics). *)
Inductive main_pc := Starting | Started | InWait | Deferred (r : run_result) | Returned (r : run_result) | Killed.

Inductive command := NotStarted | Running | Exited (e : option E).

(** [sigCh]: how many interrupts wait in the channel; [forwarding]: the
    goroutine that receives from it has not received yet; [signalled]: the
    interrupts it has sent to the running command; [direct]: those the running
    command got from the terminal, being in the same process group. *)
Record session := mkSession {
  main : main_pc;
  sub : command;
  sigCh : nat;
  forwarding : bool;
  signalled : nat;
  direct : nat;
  proxy : Proxy.Proxy;
}.

Definition session_start : session := mkSession Starting NotStarted 0 true 0 0 NewProxy.

(** The connections that have handlers. *)
Definition served (s : session) : list client := conns (proxy s).

(** [make(chan os.Signal, 1)] *)
Definition sigCap : nat := 1.

(** ** Steps *)

Inductive program_label :=
| PStart                    (* sub.Start() *)
| PNotify                   (* signal.Notify; the goroutine is started; sub.Wait() is called *)
| PWait                     (* sub.Wait() returns *)
| PForward                  (* <-sigCh; sub.Process.Signal(os.Interrupt) *)
| PServe (l : Proxy.label)  (* the Serve goroutine *)
| PHandled (i : nat)        (* a handler finds its connection ended *)
| PClose (l : Proxy.label). (* the deferred proxy.Close() *)

Inductive world_label :=
| WConnect (h : holder)     (* a connection is there to accept *)
| WAcceptErr                (* Accept fails on the open listener *)
| WDisconnect (i : nat)     (* a served client goes *)
| WDisconnectTaken          (* the accepted one does *)
| WPanic (i : nat)          (* a served client sends what its handler panics on *)
| WExit (e : option E)      (* the command exits *)
| WInterrupt (group : bool) (* SIGINT: Ctrl-C, which the terminal sends to the whole
                               foreground process group, or a kill of this process alone *).

(** Whether the process is still there. *)
Definition alive (s : session) : bool :=
  match main s with Returned _ | Killed => false | _ => true end.

Definition program_step (l : program_label) (s : session) : option session :=
  let 'mkSession m sb sg fw sd di p := s in
  if alive s then
    match l, m with
    | PStart, Starting =>
        match start with
        | Some e => Some (mkSession (Deferred (StartFailed e)) sb sg fw sd di p)
        | None => Some (mkSession Started Running sg fw sd di p)
        end
    | PNotify, Started => Some (mkSession InWait sb sg fw sd di p)
    | PWait, InWait =>
        match sb with
        | Exited e => Some (mkSession (Deferred (Waited e)) sb sg fw sd di p)
        | _ => None
        end
    | PForward, (InWait | Deferred _) =>
        match sg, fw with
        | S sg, true =>
            let sd := match sb with Running => S sd | _ => sd end in
            Some (mkSession m sb sg false sd di p)
        | _, _ => None
        end
    | PServe LAcceptErr, _ =>
        if ln_open p then None
        else p ← Proxy.Serve LAcceptErr p; Some (mkSession m sb sg fw sd di p)
    | PServe LAdd, _ => p ← Proxy.Serve LAdd p; Some (mkSession m sb sg fw sd di p)
    | PServe LGo, _ => p ← Proxy.Serve LGo p; Some (mkSession m sb sg fw sd di p)
    | PHandled i, _ => p ← Proxy.handler (LHandled i) p; Some (mkSession m sb sg fw sd di p)
    | PClose l, Deferred r =>
        p ← Proxy.Close l p;
        Some (mkSession (match l with LWait => Returned r | _ => m end) sb sg fw sd di p)
    | _, _ => None
    end
  else None.

(** The connections of a command that exits are closed by the kernel. *)
Definition command_gone (c : client) : client :=
  match cl_holder c with Command => disconnect c | Elsewhere => c end.

(** What [Accept] can find: a connection of a command that has exited since is
    closed at the client's end. *)
Definition connection (h : holder) (sb : command) : option client :=
  match h, sb with
  | Command, NotStarted => None
  | Command, Exited _ => Some (mkClient h false)
  | _, _ => Some (mkClient h true)
  end.

(** What the terminal sends, the command gets as well as [run]: [exec.Command]
    without a [SysProcAttr] leaves it in [run]'s process group. *)
Definition delivered (group : bool) (sb : command) : nat :=
  match group, sb with true, Running => 1 | _, _ => 0 end.

Definition world_step (l : world_label) (s : session) : option session :=
  let 'mkSession m sb sg fw sd di p := s in
  if alive s then
    match l with
    | WConnect h =>
        c ← connection h sb; p ← Proxy.Serve (LAccept c) p; Some (mkSession m sb sg fw sd di p)
    | WAcceptErr =>
        if ln_open p then p ← Proxy.Serve LAcceptErr p; Some (mkSession m sb sg fw sd di p) else None
    | WDisconnect i => p ← client_step (LEnds i) p; Some (mkSession m sb sg fw sd di p)
    | WDisconnectTaken => p ← client_step LHeldEnds p; Some (mkSession m sb sg fw sd di p)
    | WPanic i =>
        c ← conns p !! i; if cl_open c then Some (mkSession Killed sb sg fw sd di p) else None
    | WExit e =>
        match sb with
        | Running => Some (mkSession m (Exited e) sg fw sd di (clients_map command_gone p))
        | _ => None
        end
    | WInterrupt group =>
        let di := di + delivered group sb in
        match m with
        | Starting | Started => Some (mkSession Killed sb sg fw sd di p)
        | _ => Some (mkSession m sb (Nat.min sigCap (S sg)) fw sd di p)
        end
    end
  else None.

Inductive session_label := Program (l : program_label) | World (l : world_label).

Definition session_step (l : session_label) (s : session) : option session :=
  match l with Program l => program_step l s | World l => world_step l s end.

Definition session_reachable (s : session) : Prop := rtc (steps_by session_step) session_start s.

(** Nothing moves by itself. *)
Definition session_settled (s : session) : Prop := forall l, program_step l s = None.

(** ** Invariant *)

(** The result [run] is bound to return. *)
Definition result_of (s : session) (r : run_result) : Prop :=
  match start with Some e => r = StartFailed e | None => exists e, sub s = Exited e /\ r = Waited e end.

(** Whose connections there can be. *)
Definition allowed (sb : command) (c : client) : Prop :=
  match sb with
  | NotStarted => cl_holder c = Elsewhere
  | Running => True
  | Exited _ => cl_open c = true -> cl_holder c = Elsewhere
  end.

(** What the main goroutine's place says of [proxy.Close()]. *)
Definition closing_at (m : main_pc) (p : Proxy.Proxy) : Prop :=
  match m with
  | Deferred _ => closing p <> Closed
  | Returned _ => closing p = Closed
  | Killed => True
  | _ => closing p = NotClosing
  end.

Record session_inv (s : session) : Prop := {
  ss_proxy : Proxy.inv (proxy s);
  ss_closing : closing_at (main s) (proxy s);
  ss_main :
    match main s with
    | Starting => sub s = NotStarted
    | Started | InWait => sub s <> NotStarted /\ start = None
    | Deferred r | Returned r => result_of s r
    | Killed => True
    end;
  ss_clients : Forall (allowed (sub s)) (clients (proxy s));
  ss_failed : is_Some start -> sub s = NotStarted;
  ss_sigCh : sigCh s <= sigCap;
  ss_signalled : signalled s <= if forwarding s then 0 else 1;
}.

Lemma session_inv_start : session_inv session_start.
Proof. split; simpl; try lia; try done. Qed.

(** The kernel closes the connections of a command that has exited. *)
Lemma allowed_gone sb e c : allowed sb c -> allowed (Exited e) (command_gone c).
Proof. destruct c as [[] o]; simpl; [discriminate|done]. Qed.

Lemma allowed_disconnect sb c : allowed sb c -> allowed sb (disconnect c).
Proof. destruct sb; simpl; [done..|discriminate]. Qed.

Lemma allowed_connection h sb c : connection h sb = Some c -> allowed sb c.
Proof. by destruct h, sb; intros [= <-]. Qed.

(** A step of the proxy's, as the invariant sees it: any but those of [Close]. *)
Lemma session_inv_proxy l m sb sg fw sd di p p' :
  Proxy.exec l p = Some p' -> closing p' = closing p ->
  match l with LAccept c => allowed sb c | _ => True end ->
  session_inv (mkSession m sb sg fw sd di p) -> session_inv (mkSession m sb sg fw sd di p').
Proof.
  intros Hs Hc Hl [Hpi Hcl Hm Hcs Hf Hsg Hsd]. unfold result_of in *. simpl in *. split; simpl; try done.
  - by eapply proxy_inv_exec.
  - unfold closing_at in *. by rewrite Hc.
  - eapply exec_clients; [apply allowed_disconnect|done..].
Qed.

Lemma exec_closing l p p' :
  match l with LSetDone | LCloseListener | LWait => False | _ => True end ->
  Proxy.exec l p = Some p' -> closing p' = closing p.
Proof. intros Hl Hs. by cases_of_step p l Hs. Qed.

(** [proxy.Close()]. *)
Lemma session_inv_close l r sb sg fw sd di p p' :
  Close l p = Some p' -> session_inv (mkSession (Deferred r) sb sg fw sd di p) ->
  session_inv (mkSession (match l with LWait => Returned r | _ => Deferred r end) sb sg fw sd di p').
Proof.
  intros Hs [Hpi Hcl Hm Hcs Hf Hsg Hsd].
  assert (Proxy.exec l p = Some p') as Hx by (destruct p, l, closing; done).
  pose proof (proxy_inv_exec l p p' Hpi Hx) as Hpi'. unfold result_of in *. simpl in *.
  assert (clients p' = clients p) as Hc by (cases_of_step p l Hs; done).
  split; simpl; try done; [|by destruct l|by rewrite Hc].
  by cases_of_step p l Hs.
Qed.

(** The program's own steps. *)
Lemma program_step_inv l s s' : session_inv s -> program_step l s = Some s' -> session_inv s'.
Proof.
  intros Hi Hs. destruct s as [m sb sg fw sd di p]. unfold program_step in Hs.
  destruct (alive _) eqn:Ha; [|done].
  assert (forall l, match l with LAccept _ => False | _ => True end ->
    match l with LSetDone | LCloseListener | LWait => False | _ => True end ->
    forall p', Proxy.exec l p = Some p' -> session_inv (mkSession m sb sg fw sd di p')) as Hproxy.
  { intros l' Hl1 Hl2 p' Hp. apply (session_inv_proxy l' _ _ _ _ _ _ p); [done| | |done].
    - by apply (exec_closing l').
    - by destruct l'. }
  destruct l as [| | | |l|i|l].
  - destruct Hi as [Hpi Hcl Hm Hcs Hf Hsg Hsd]. simpl in *. destruct m; try done.
    destruct start eqn:Est; simplify_eq/=.
    + split; simpl; try done; [by rewrite Hcl|by unfold result_of; rewrite Est].
    + split; simpl; try done; [by eapply Forall_impl|by rewrite Est; intros []].
  - destruct Hi as [Hpi Hcl Hm Hcs Hf Hsg Hsd]. simpl in *. destruct m; simplify_eq/=. by split.
  - destruct Hi as [Hpi Hcl Hm Hcs Hf Hsg Hsd]. simpl in *. destruct m, sb; simplify_eq/=.
    split; simpl; try done; [by rewrite Hcl|]. destruct Hm as [_ Hst]. unfold result_of. rewrite Hst. by eexists.
  - destruct Hi as [Hpi Hcl Hm Hcs Hf Hsg Hsd]. unfold result_of in *. simpl in *.
    destruct m, sg, fw; simplify_eq/=; split; simpl; try done; try lia; destruct sb; lia.
  - destruct l; try done; [destruct (ln_open p); [done|]|..];
      destruct (Serve _ p) as [p'|] eqn:Ep; simplify_eq/=;
      [by apply (Hproxy LAcceptErr)|by apply (Hproxy LAdd)|by apply (Hproxy LGo)].
  - destruct (handler _ p) as [p'|] eqn:Ep; simplify_eq/=. by apply (Hproxy (LHandled i)).
  - destruct m; try done. destruct (Close _ p) as [p'|] eqn:Ep; simplify_eq/=.
    by eapply session_inv_close.
Qed.

(** The connections after the command's exit. *)
Lemma clients_of_map f p : clients (clients_map f p) = map f (clients p).
Proof. destruct p as [ln dn w hs [] cl]; unfold clients; simpl; by rewrite map_app. Qed.

Lemma inv_clients_map f p : Proxy.inv p -> Proxy.inv (clients_map f p).
Proof.
  intros [Hw Hl Ht]. destruct p as [ln dn w hs sv cl]. unfold late, counted in *. simpl in *.
  split; unfold late, counted; simpl; rewrite ?length_map; by destruct sv.
Qed.

(** The others' steps. *)
Lemma world_step_inv l s s' : session_inv s -> world_step l s = Some s' -> session_inv s'.
Proof.
  intros Hi Hs. destruct s as [m sb sg fw sd di p]. unfold world_step in Hs.
  destruct (alive _) eqn:Ha; [|done]. destruct l as [h| |i| |i|e|g].
  - destruct (connection h sb) as [c|] eqn:Ec; [|done]. cbn [mbind option_bind] in Hs.
    destruct (Serve _ p) as [p'|] eqn:Ep; simplify_eq/=.
    apply (session_inv_proxy (LAccept c) _ _ _ _ _ _ p); [done| | |done].
    + by apply (exec_closing (LAccept c) p).
    + by eapply allowed_connection.
  - destruct (ln_open p); [|done]. destruct (Serve _ p) as [p'|] eqn:Ep; simplify_eq/=.
    apply (session_inv_proxy LAcceptErr _ _ _ _ _ _ p); [done| |done..]. by apply (exec_closing LAcceptErr p).
  - destruct (client_step _ p) as [p'|] eqn:Ep; simplify_eq/=.
    apply (session_inv_proxy (LEnds i) _ _ _ _ _ _ p); [done| |done..]. by apply (exec_closing (LEnds i) p).
  - destruct (client_step _ p) as [p'|] eqn:Ep; simplify_eq/=.
    apply (session_inv_proxy LHeldEnds _ _ _ _ _ _ p); [done| |done..]. by apply (exec_closing LHeldEnds p).
  - destruct (conns p !! i) as [c|]; simplify_eq/=. destruct (cl_open c); simplify_eq/=. by destruct Hi; split.
  - destruct Hi as [Hpi Hcl Hm Hcs Hf Hsg Hsd]. destruct sb; simplify_eq/=. split; simpl; try done.
    + by apply inv_clients_map.
    + by destruct m, p.
    + destruct m; try done; unfold result_of in *; destruct start; naive_solver.
    + rewrite clients_of_map. apply Forall_map. eapply Forall_impl; [exact Hcs|]. intros c. apply allowed_gone.
    + intros Hst. discriminate (Hf Hst).
  - destruct Hi as [Hpi Hcl Hm Hcs Hf Hsg Hsd]. unfold result_of in *. simpl in *.
    destruct m; simplify_eq/=; split; simpl; try done; unfold sigCap; lia.
Qed.

Lemma session_inv_reachable s : session_reachable s -> session_inv s.
Proof.
  intros Hr. eapply rtc_invariant; [|exact Hr|apply session_inv_start].
  intros x y Hx [[l|l] Hs].
  - by eapply program_step_inv.
  - by eapply world_step_inv.
Qed.

(** ** The program comes to rest *)

Definition main_work (m : main_pc) : nat :=
  match m with Starting => 7 | Started => 6 | InWait => 5 | Deferred _ => 1 | Returned _ | Killed => 0 end.

Definition session_work (s : session) : nat :=
  main_work (main s) + Proxy.remaining (proxy s) + if forwarding s then 1 else 0.

(** A step of the proxy's own. *)
Lemma remaining_step l p p' :
  Proxy.exec l p = Some p' -> own l = true -> Proxy.remaining p' < Proxy.remaining p.
Proof. intros Hs Ho. apply (exec_remaining l p p' Hs); [|done]. by intros c ->. Qed.

Lemma program_step_work l s s' : program_step l s = Some s' -> session_work s' < session_work s.
Proof.
  destruct s as [m sb sg fw sd di p]. unfold program_step, session_work.
  destruct (alive _); [|done]. destruct l as [| | | |l|i|l]; simpl.
  - destruct m; [destruct start|..]; intros; simplify_eq/=; lia.
  - destruct m; intros; simplify_eq/=; lia.
  - destruct m, sb; intros; simplify_eq/=; lia.
  - destruct m, sg, fw; intros; simplify_eq/=; lia.
  - destruct l; try done; [destruct (ln_open p); [done|]|..];
      destruct (Serve _ p) as [p'|] eqn:Ep; simpl; intros; simplify_eq/=;
      [pose proof (remaining_step LAcceptErr p p' Ep eq_refl)|pose proof (remaining_step LAdd p p' Ep eq_refl)|
       pose proof (remaining_step LGo p p' Ep eq_refl)]; lia.
  - destruct (handler _ p) as [p'|] eqn:Ep; [|done]. simpl. intros. simplify_eq/=.
    pose proof (remaining_step (LHandled i) p p' Ep eq_refl). lia.
  - destruct m; try done. destruct (Close l p) as [p'|] eqn:Ep; [|done]. simpl. intros. simplify_eq/=.
    assert (own l = true /\ Proxy.exec l p = Some p') as [Ho Hx] by (destruct p, l, closing; done).
    pose proof (remaining_step l p p' Hx Ho). destruct l; simpl; lia.
Qed.

Lemma program_sn s : sn (steps_by program_step) s.
Proof.
  eapply (measure_sn _ (fun _ => True) session_work); [|done].
  intros x y _ [l Hl]. split; [done|]. by eapply program_step_work.
Qed.

(** With nothing left to do, the proxy is at rest. *)
Lemma settled_at_rest s r :
  session_settled s -> main s = Deferred r -> ln_open (proxy s) = false -> at_rest (proxy s).
Proof.
  intros Hset Hm Hln l Hl. destruct s as [m sb sg fw sd di p]. simpl in *. subst m.
  pose proof (Hset (PServe l)) as Hserve. pose proof (Hset (PClose l)) as Hclose. simpl in *.
  destruct l as [| | | |i| | | | |]; try done; cbn [Proxy.exec].
  - rewrite Hln in Hserve. by destruct (Serve _ p).
  - by destruct (Serve _ p).
  - by destruct (Serve _ p).
  - specialize (Hset (PHandled i)). cbn -[handler] in Hset. by destruct (handler _ p).
  - by destruct (Close _ p).
  - by destruct (Close _ p).
  - by destruct (Close _ p).
Qed.

(** What [proxy.Close()] waits for once nothing moves. *)
Lemma close_waits s r :
  session_inv s -> main s = Deferred r -> session_settled s ->
  served s <> [] /\ Forall (fun c => cl_open c = true) (served s).
Proof.
  intros Hi Hm Hset. pose proof (ss_closing s Hi) as Hcl. rewrite Hm in Hcl.
  assert (ln_open (proxy s) = false) as Hln.
  { rewrite (inv_ln _ (ss_proxy s Hi)). apply bool_decide_eq_false_2.
    destruct s as [m sb sg fw sd di [ln dn w hs sv cl]]. simpl in *. subst m.
    pose proof (Hset (PClose LSetDone)) as H1. pose proof (Hset (PClose LCloseListener)) as H2.
    intros [Hc|Hc]; subst cl; [discriminate H1|discriminate H2]. }
  destruct (at_rest_shape _ (ss_proxy s Hi) Hln (settled_at_rest s r Hset Hm Hln)) as (_ & Ho & Hc).
  split; [|done]. by destruct Hc as [Hc|[_ Hne]].
Qed.

Lemma settled_cases s :
  session_inv s -> session_settled s ->
  match main s with
  | Starting | Started => False
  | InWait => sub s = Running
  | Deferred r =>
      result_of s r /\ served s <> [] /\
      Forall (fun c => cl_open c = true /\ cl_holder c = Elsewhere) (served s)
  | Returned r => result_of s r
  | Killed => True
  end.
Proof.
  intros Hi Hset. pose proof (ss_main s Hi) as Hm. destruct (main s) as [| | |r|r|] eqn:Em; try done.
  - specialize (Hset PStart). destruct s. simpl in *. subst. simpl in *. by destruct start.
  - specialize (Hset PNotify). destruct s. simpl in *. by subst.
  - specialize (Hset PWait). destruct s as [m [] sg fw sd di p]; simpl in *; subst; try done. by destruct Hm.
  - split; [done|]. destruct (close_waits s r) as [Hne Ho]; try done. split; [done|].
    destruct (proj1 (Forall_app _ _ _) (ss_clients s Hi)) as [Hall _].
    pose proof (ss_failed s Hi) as Hf. unfold result_of in Hm.
    apply Forall_lookup. intros i c Hc. pose proof (Forall_lookup_1 _ _ _ _ Ho Hc) as Hop.
    pose proof (Forall_lookup_1 _ _ _ _ Hall Hc) as Hc'. split; [done|].
    destruct start; [rewrite Hf in Hc' by (by eexists); done|]. destruct Hm as (e & He & _).
    rewrite He in Hc'. by apply Hc'.
Qed.

(** ** A connection held elsewhere *)

Definition held_up (r : run_result) (s : session) : Prop :=
  session_inv s /\ main s = Deferred r /\ Exists (fun c => cl_open c = true) (served s).

(** What anybody can do but end a connection that is being served, or the
    process through it. *)
Definition no_disconnect (l : session_label) : Prop :=
  forall i, l <> World (WDisconnect i) /\ l <> World (WPanic i).

Lemma held_up_step r l s s' :
  no_disconnect l -> session_step l s = Some s' -> held_up r s -> held_up r s'.
Proof.
  intros Hl Hs (Hi & Hm & Ho).
  assert (session_inv s') as Hi' by (destruct l; [by eapply program_step_inv|by eapply world_step_inv]).
  split; [done|]. destruct s as [m sb sg fw sd di p]. unfold served in *. simpl in *. subst m.
  assert (forall l p' sg fw sd di, Proxy.exec l p = Some p' -> (forall i, l <> LEnds i) ->
    s' = mkSession (Deferred r) sb sg fw sd di p' ->
    main s' = Deferred r /\ Exists (fun c => cl_open c = true) (conns (proxy s'))) as Hproxy.
  { intros l' p' sg' fw' sd' di' Hx Hl' ->. split; [done|]. by eapply exec_open. }
  destruct l as [[| | | |l|i|l]|[h| |i| |i|e|g]]; simpl in Hs; try done.
  - destruct sg, fw; by simplify_eq/=.
  - destruct l; try done; [destruct (ln_open p); [done|]|..];
      destruct (Serve _ p) as [p'|] eqn:Ep; simplify_eq/=;
      [by eapply (Hproxy LAcceptErr)|by eapply (Hproxy LAdd)|by eapply (Hproxy LGo)].
  - destruct (handler _ p) as [p'|] eqn:Ep; simplify_eq/=. by eapply (Hproxy (LHandled i)).
  - destruct (Close l p) as [p'|] eqn:Ep; simplify_eq/=. destruct l; try (by destruct p, closing).
    + by eapply (Hproxy LSetDone).
    + by eapply (Hproxy LCloseListener).
    + by destruct (close_blocked p p' (ss_proxy _ Hi) Ho).
  - destruct (connection h sb) as [c|]; [|done]. cbn [mbind option_bind] in Hs.
    destruct (Serve _ p) as [p'|] eqn:Ep; simplify_eq/=. by eapply (Hproxy (LAccept c)).
  - destruct (ln_open p); [|done]. destruct (Serve _ p) as [p'|] eqn:Ep; simplify_eq/=.
    by eapply (Hproxy LAcceptErr).
  - by destruct (Hl i).
  - destruct (client_step _ p) as [p'|] eqn:Ep; simplify_eq/=. by eapply (Hproxy LHeldEnds).
  - by destruct (Hl i).
  - destruct sb; try done. pose proof (ss_main _ Hi) as Hr. pose proof (ss_failed _ Hi) as Hf.
    unfold result_of in Hr. simpl in *. destruct start; [|by destruct Hr as (? & ? & _)].
    discriminate Hf. by eexists.
  - by simplify_eq/=.
Qed.

(** ** Ctrl-C *)



(** ** Theorems *)

(** [C8] [run] returns, unless somebody else keeps a connection: whatever the command,
    its clients and the user do in between, the program's own steps come to rest,
    and then the process was killed by an early interrupt or a handler's panic, or
    the command still runs and [run] waits for it, or [run] has returned the command's result - or
    is held up in [proxy.Close()], in which case every connection that is still
    served is open at the client's end and held by a process other than the
    command. *)
Theorem run_returns s :
  session_reachable s ->
  sn (steps_by program_step) s /\
  (session_settled s -> main s <> Killed ->
   (sub s = Running /\ main s = InWait) \/
   exists r, result_of s r /\
     (main s = Returned r \/
      main s = Deferred r /\ served s <> [] /\
      Forall (fun c => cl_open c = true /\ cl_holder c = Elsewhere) (served s))).
Proof.
  intros Hi%session_inv_reachable. split; [apply program_sn|]. intros Hset Hk.
  pose proof (settled_cases s Hi Hset) as Hc. destruct (main s) as [| | |r|r|] eqn:Em; try done.
  - by left.
  - right. exists r. destruct Hc as [? ?]. split; [done|]. by right.
  - right. exists r. split; [done|]. by left.
Qed.

(** [C24] A connection left open by another process keeps [run] from returning for
    ever: in [proxy.Close()] with such a connection being served, nothing that
    anybody does short of ending a connection or making its handler panic - more
    clients, Ctrl-C any number of times - makes [run] return. *)
Theorem run_held_up s s' r :
  session_reachable s -> main s = Deferred r ->
  Exists (fun c => cl_open c = true) (served s) ->
  rtc (fun s s' => exists l, no_disconnect l /\ session_step l s = Some s') s s' ->
  main s' = Deferred r /\ signalled s' <= 1.
Proof.
  intros Hi%session_inv_reachable Hm Ho Hrun.
  assert (held_up r s') as (Hi' & Hm' & _).
  { eapply rtc_invariant; [|exact Hrun|by split]. intros x y Hx (l & Hl & Hs). by eapply held_up_step. }
  split; [done|]. pose proof (ss_signalled s' Hi'). destruct (forwarding s'); lia.
Qed.


(** Pressed at a terminal, Ctrl-C reaches the command directly and, once the
    goroutine has received it, a second time through [run]. *)
Theorem ctrl_c_twice (Hstart : start = None) :
  let s := run_any session_step [Program PStart; Program PNotify; World (WInterrupt true); Program PForward]
             session_start in
  session_reachable s /\ sub s = Running /\ signalled s = 1 /\ direct s = 1.
Proof. cbv zeta. split; [apply run_any_rtc|]. unfold run_any. simpl. by rewrite Hstart. Qed.

End Session.

(** ** Witnesses *)

(** The command's client and another one are served; the command exits. *)
Definition session_labels : list (session_label (E := unit)) :=
  [Program PStart; World (WConnect Command); Program (PServe LAdd); Program (PServe LGo); Program PNotify;
   World (WInterrupt true); World (WConnect Elsewhere); Program (PServe LAdd); Program (PServe LGo);
   World (WExit (Some tt)); Program PWait; Program (PClose LSetDone); Program (PHandled 0);
   Program (PClose LCloseListener); Program (PServe LAcceptErr); Program PForward].

Definition left_session : session (E := unit) :=
  run_any (session_step None) session_labels session_start.

Definition open_elsewhere : client := mkClient Elsewhere true.

Lemma left_session_state :
  left_session = mkSession (Deferred (Waited (Some tt))) (Exited (Some tt)) 0 false 0 1
                   (Proxy.mkProxy false true 1 [open_elsewhere] Stopped Waiting).
Proof. reflexivity. Qed.

(** Then the other client goes. *)
Definition returned_session : session (E := unit) :=
  mkSession (Returned (Waited (Some tt))) (Exited (Some tt)) 0 false 0 1
    (Proxy.mkProxy false true 0 [] Stopped Closed).

Lemma returned_reachable : session_reachable None returned_session.
Proof.
  apply (run_labels_rtc _ (session_labels ++ [World (WDisconnect 0); Program (PHandled 0); Program (PClose LWait)])).
  run.
Qed.

Lemma run_returns_witness :
  session_reachable None returned_session /\ sn (steps_by (program_step None)) returned_session /\
  session_settled None returned_session /\
  exists r, result_of None returned_session r /\ main returned_session = Returned r.
Proof.
  destruct (run_returns None returned_session returned_reachable) as [Hsn Hset].
  assert (session_settled None returned_session) as Hs by (intros []; reflexivity).
  split_and!; [exact returned_reachable|exact Hsn|exact Hs|].
  destruct (Hset Hs) as [[Hsub _]|(r & Hres & [Hm|[Hm _]])];
    [discriminate|discriminate Hsub|by exists r|discriminate Hm].
Defined.

(** The same with the other client still there, while Ctrl-C is pressed. *)
Lemma run_held_up_witness :
  let s := run_any (session_step None) [World (WInterrupt true); World (WInterrupt true); World (WInterrupt true)] left_session in
  session_reachable None left_session /\ main left_session = Deferred (Waited (Some tt)) /\
  main s = Deferred (Waited (Some tt)) /\ signalled s <= 1 /\ sigCh s = 1.
Proof.
  cbv zeta.
  assert (session_reachable None left_session) as Hr by apply run_any_rtc.
  assert (Exists (fun c => cl_open c = true) (served left_session)) as Ho
    by (rewrite left_session_state; by left).
  destruct (run_held_up None left_session
    (run_any (session_step None) [World (WInterrupt true); World (WInterrupt true); World (WInterrupt true)] left_session)
    (Waited (Some tt)) Hr eq_refl Ho) as [H1 H2].
  - do 3 (eapply rtc_l; [exists (World (WInterrupt true)); split; [done|reflexivity]|]). apply rtc_refl.
  - split_and!; [exact Hr|reflexivity|exact H1|exact H2|reflexivity].
Defined.

