(* ===== verification/Storage.v ===== *)
(** * internal/storage: YAML files

    [WriteYAML] and [ReadYAML] over a file system; [yaml.v3] is an interface,
    and what the operating system does with a write is decided by the
    environment. *)

From S2P Require Import Prelude.

(** [yaml.Marshal] and [yaml.Unmarshal] on values of type [T]; [None] is an
    error. *)
Class YAML (T : Type) := {
  Marshal : T -> option bytes;
  Unmarshal : bytes -> option T;
}.

(** File contents by path. *)
Abbreviation files := (gmap bytes bytes).

(** The outcomes of [os.WriteFile]: it creates or truncates the file before it
    writes, so a failed write leaves what got through. *)
Inductive write_fate := Written | NotOpened | CutAfter (n : nat).

Inductive storage_err := ErrMarshal | ErrWriteFile | ErrReadFile | ErrUnmarshal.

(** [os.WriteFile(path, data, 0o644)] *)
Definition WriteFile (fate : bytes -> write_fate) (path data : bytes) (fs : files) :
    files * option storage_err :=
  match fate path with
  | Written => (<[path := data]> fs, None)
  | NotOpened => (fs, Some ErrWriteFile)
  | CutAfter n => (<[path := take n data]> fs, Some ErrWriteFile)
  end.

Section Storage.
Context {T : Type} `{!YAML T} (fate : bytes -> write_fate).

(** [WriteYAML] *)
Definition WriteYAML (path : bytes) (v : T) (fs : files) : files * option storage_err :=
  match Marshal v with
  | None => (fs, Some ErrMarshal)
  | Some data => WriteFile fate path data fs
  end.

(** [ReadYAML]: the value unmarshalled. *)
Definition ReadYAML (path : bytes) (fs : files) : outcome storage_err T :=
  match fs !! path with
  | None => Err ErrReadFile
  | Some data => match Unmarshal data with Some v => Ok v | None => Err ErrUnmarshal end
  end.

(** ** Lemmas *)

(** A write touches its own path only, and a successful one is what a later
    read unmarshals. *)
Lemma WriteYAML_frame path v fs fs' e path' :
  WriteYAML path v fs = (fs', e) -> path' <> path -> fs' !! path' = fs !! path'.
Proof.
  unfold WriteYAML, WriteFile. intros Hw Hne.
  repeat case_match; simplify_eq; by rewrite ?lookup_insert_ne.
Qed.

Lemma WriteYAML_ReadYAML path v fs fs' :
  WriteYAML path v fs = (fs', None) ->
  exists data, Marshal v = Some data /\
    ReadYAML path fs' = match Unmarshal data with Some w => Ok w | None => Err ErrUnmarshal end.
Proof.
  unfold WriteYAML, WriteFile, ReadYAML. destruct (Marshal v) as [data|]; [|done].
  destruct (fate path); [|done..]. intros [= <-]. exists data. by rewrite lookup_insert_eq.
Qed.

End Storage.
