(* ===== verification/Collector.v ===== *)
(** * internal/collector: lifecycle of the tracer

    [EventTime]; [New], [EnableTLS] and [Close] with the kernel resources they
    acquire and release; [readLoop] and [Run] as interleaved goroutines; [Comm]
    and [findMappedLibrary].  The calls into cilium/ebpf, rlimit and the kernel
    are an environment that says which of them fail, and of a failing [Close]
    whether it leaves its resource open. *)

From S2P Require Import Prelude GoStd GoText Event Bpf Bpfgen.
Local Open Scope Z_scope.
Local Open Scope go_scope.

(** ** Clock *)

(** [time.Time] as nanoseconds since the Unix epoch. *)
Abbreviation Time := Z.

(** [monoRefNs]: [uint64(ts.Sec)*1e9 + uint64(ts.Nsec)] *)
Definition monoRef (sec nsec : Z) : Z := uint64 (uint64 (uint64 sec * 1000000000) + uint64 nsec).

(** [EventTime] *)
Definition EventTime (monoRefNs : Z) (wallRef : Time) (ev : Event) : Time :=
  let delta := int64 (int64 (Timestamp ev) - int64 monoRefNs) in
  wallRef + delta.

(** ** Kernel resources *)

Inductive resource :=
| RSyscall (o : syscall_object)                        (* a program or map of syscall.bpf.c *)
| RTls (o : tls_object)                                (* one of tls.bpf.c *)
| RTracepoint (name : bytes) (prog : syscall_object)   (* an attached tracepoint *)
| RUprobe (symbol : bytes) (prog : tls_object) (ret : bool)
| RReader                                              (* the syscall ring buffer reader *)
| RTlsReader.

#[global] Instance resource_eq_dec : EqDecision resource.
Proof. solve_decision. Defined.

(** The calls that can fail. *)
Inductive call :=
| RemoveMemlock | LoadSyscall | SetTargetPid | LoadAndAssign | ClockGettime
| Tracepoint (name : bytes) (prog : syscall_object) | NewReader
| FindLibssl | LoadTls | SetTlsTargetPid | LoadAndAssignTls | OpenExecutable
| Uprobe (symbol : bytes) (prog : tls_object) (ret : bool) | NewTlsReader.

(** The programs [New] and [EnableTLS] attach, and to what. *)
Definition tracepoints : list (bytes * syscall_object) :=
  [(str "sys_enter_connect", TraceEnterConnect); (str "sys_enter_write", TraceEnterWrite);
   (str "sys_enter_read", TraceEnterRead); (str "sys_exit_read", TraceExitRead);
   (str "sys_enter_close", TraceEnterClose)].
Definition uprobes : list (bytes * tls_object * bool) :=
  [(str "SSL_write", TraceSslWrite, false); (str "SSL_read", TraceSslReadEnter, false);
   (str "SSL_read", TraceSslReadExit, true)].

(** The tracepoint of a system call; the function a libssl probe is on. *)
Definition hit_name (hit : Syscall.hit) : bytes :=
  match hit with
  | Syscall.sys_enter_connect _ => str "sys_enter_connect"
  | Syscall.sys_enter_write _ => str "sys_enter_write"
  | Syscall.sys_enter_read _ => str "sys_enter_read"
  | Syscall.sys_exit_read _ => str "sys_exit_read"
  | Syscall.sys_enter_close _ => str "sys_enter_close"
  end.
Definition probe_symbol (hit : Tls.hit) : bytes :=
  match hit with Tls.SSL_write _ _ _ => str "SSL_write" | _ => str "SSL_read" end.
Definition probe_ret (hit : Tls.hit) : bool :=
  match hit with Tls.SSL_read_ret _ => true | _ => false end.

Section Resources.
(** The environment: the error of each call ([None]: it succeeds), and how
    closing each resource fails, if it does. *)
Context {E : Type} (fails : call -> option E) (close_fails : resource -> option (failed_close E)).

Inductive error := ErrZeroPid | ErrCall (c : call) (e : E).

(** [Collector]: what it holds; [c_links] in order of attachment. *)
Record Collector := mkCollector {
  c_pid : Z;
  c_links : list resource;
  c_rd : bool;
  c_tlsEnabled : bool;
  c_tlsRd : bool;
}.

(** Calls made one after another until one fails. *)
Fixpoint attempt (cs : list call) : option error :=
  match cs with
  | [] => None
  | c :: cs => match fails c with Some e => Some (ErrCall c e) | None => attempt cs end
  end.

(** The calls of [Close] one after another, keeping the first error. *)
Fixpoint close_each (closers : list (closer resource E)) (live : list resource) (firstErr : option E) :
    list resource * option E :=
  match closers with
  | [] => (live, firstErr)
  | c :: closers =>
      let (live, err) := c live in
      close_each closers live (match firstErr with Some e => Some e | None => err end)
  end.

Local Abbreviation close := (close_one close_fails).

(** [Close] *)
Definition Close (c : Collector) (live : list resource) : list resource * option E :=
  close_each
    ((if c_rd c then [close RReader] else []) ++ (if c_tlsRd c then [close RTlsReader] else []) ++
     map close (c_links c) ++ [SyscallObjects_Close (fun o => close (RSyscall o))] ++
     (if c_tlsEnabled c then [TlsObjects_Close (fun o => close (RTls o))] else []))
    live None.

(** The loop of [New] over the tracepoints; the failure path closes the
    collector built so far. *)
Fixpoint attach_tracepoints (tps : list (bytes * syscall_object)) (c : Collector)
    (live : list resource) : list resource * outcome error Collector :=
  match tps with
  | [] => (live, Ok c)
  | (name, prog) :: tps =>
      match fails (Tracepoint name prog) with
      | Some e => ((Close c live).1, Err (ErrCall (Tracepoint name prog) e))
      | None =>
          let l := RTracepoint name prog in
          let c := mkCollector (c_pid c) (c_links c ++ [l]) (c_rd c) (c_tlsEnabled c) (c_tlsRd c) in
          attach_tracepoints tps c (live ++ [l])
      end
  end.

(** [New]: the live resources afterwards, and the collector or the error. *)
Definition New (pid : Z) : list resource * outcome error Collector :=
  if decide (pid = 0) then ([], Err ErrZeroPid)
  else
    match attempt [RemoveMemlock; LoadSyscall; SetTargetPid; LoadAndAssign] with
    | Some e => ([], Err e)
    | None =>
        let live := map RSyscall SyscallObjects in
        match fails ClockGettime with
        | Some e => (live, Err (ErrCall ClockGettime e))
        | None =>
            let c := mkCollector pid [] false false false in
            match attach_tracepoints tracepoints c live with
            | (live, Ok c) =>
                match fails NewReader with
                | Some e => ((Close c live).1, Err (ErrCall NewReader e))
                | None =>
                    (live ++ [RReader],
                     Ok (mkCollector (c_pid c) (c_links c) true (c_tlsEnabled c) (c_tlsRd c)))
                end
            | r => r
            end
        end
    end.

(** The loop of [EnableTLS] over the uprobes; an error leaves what is attached
    in the collector. *)
Fixpoint attach_uprobes (us : list (bytes * tls_object * bool)) (c : Collector)
    (live : list resource) : list resource * Collector * option error :=
  match us with
  | [] => (live, c, None)
  | (symbol, prog, ret) :: us =>
      match fails (Uprobe symbol prog ret) with
      | Some e => (live, c, Some (ErrCall (Uprobe symbol prog ret) e))
      | None =>
          let l := RUprobe symbol prog ret in
          let c := mkCollector (c_pid c) (c_links c ++ [l]) (c_rd c) (c_tlsEnabled c) (c_tlsRd c) in
          attach_uprobes us c (live ++ [l])
      end
  end.

(** [EnableTLS] on the collector, with the error it returns. *)
Definition EnableTLS (c : Collector) (live : list resource) :
    list resource * Collector * option error :=
  match attempt [FindLibssl; LoadTls; SetTlsTargetPid; LoadAndAssignTls] with
  | Some e => (live, c, Some e)
  | None =>
      let live := live ++ map RTls TlsObjects in
      let c := mkCollector (c_pid c) (c_links c) (c_rd c) true (c_tlsRd c) in
      match fails OpenExecutable with
      | Some e => (live, c, Some (ErrCall OpenExecutable e))
      | None =>
          match attach_uprobes uprobes c live with
          | (live, c, None) =>
              match fails NewTlsReader with
              | Some e => (live, c, Some (ErrCall NewTlsReader e))
              | None =>
                  (live ++ [RTlsReader],
                   mkCollector (c_pid c) (c_links c) (c_rd c) (c_tlsEnabled c) true, None)
              end
          | r => r
          end
      end
  end.

(** ** Ownership *)

(** Everything live is held by the collector, and the other way round; links
    are links. *)
Definition is_link (r : resource) : Prop :=
  match r with RTracepoint _ _ | RUprobe _ _ _ => True | _ => False end.
Definition held (c : Collector) (r : resource) : Prop :=
  match r with
  | RSyscall _ => True
  | RTls _ => c_tlsEnabled c = true
  | RReader => c_rd c = true
  | RTlsReader => c_tlsRd c = true
  | _ => r ∈ c_links c
  end.
Record owns (c : Collector) (live : list resource) : Prop := {
  owns_held r : r ∈ live <-> held c r;
  owns_links r : r ∈ c_links c -> is_link r;
}.

(** What [Close] leaves of the objects: those behind the first that fails to
    close, in each of the two sets, and that one if it stays open. *)
Definition syscall_leak : list resource := left_open close_fails (map RSyscall SyscallObjects).
Definition tls_leak : list resource := left_open close_fails (map RTls TlsObjects).

(** What [Close] closes itself and cannot: the readers and links that stay open
    after their own [Close]. *)
Definition direct (r : resource) : Prop := match r with RSyscall _ | RTls _ => False | _ => True end.
Definition left_held (c : Collector) (r : resource) : Prop :=
  direct r /\ held c r /\ stays close_fails r = true.

Lemma elem_of_syscall_objects r : r ∈ map RSyscall SyscallObjects <-> exists o, r = RSyscall o.
Proof.
  rewrite list_elem_of_fmap. split; intros [o Ho]; exists o; [by destruct Ho|].
  split; [done|]. destruct o; apply (bool_decide_unpack _); by vm_compute.
Qed.
Lemma elem_of_tls_objects r : r ∈ map RTls TlsObjects <-> exists o, r = RTls o.
Proof.
  rewrite list_elem_of_fmap. split; intros [o Ho]; exists o; [by destruct Ho|].
  split; [done|]. destruct o; apply (bool_decide_unpack _); by vm_compute.
Qed.

Lemma close_each_app cs1 cs2 live e :
  close_each (cs1 ++ cs2) live e = let (live, e) := close_each cs1 live e in close_each cs2 live e.
Proof.
  revert live e. induction cs1 as [|c cs1 IH]; intros live e; [done|]. simpl.
  destruct (c live). apply IH.
Qed.

Lemma elem_of_close_each_ones rs live e r :
  r ∈ (close_each (map close rs) live e).1 <-> r ∈ live /\ (r ∈ rs -> stays close_fails r = true).
Proof.
  revert live e. induction rs as [|r1 rs IH]; intros live e; [simpl; set_solver|].
  pose proof (elem_of_close_one close_fails r r1 live) as Hone. cbn [map close_each].
  destruct (close r1 live) as [live1 err]. simpl in Hone. rewrite IH, Hone, elem_of_cons. naive_solver.
Qed.

Lemma elem_of_if {A} (b : bool) (x y : A) : x ∈ (if b then [y] else []) <-> b = true /\ x = y.
Proof. destruct b; set_solver. Qed.

(** The resources [Close] closes itself. *)
Definition ones (c : Collector) : list resource :=
  (if c_rd c then [RReader] else []) ++ (if c_tlsRd c then [RTlsReader] else []) ++ c_links c.

Lemma elem_of_ones c live r : owns c live -> r ∈ ones c <-> direct r /\ held c r.
Proof.
  intros [_ Hl]. specialize (Hl r). unfold ones. rewrite !elem_of_app, !elem_of_if.
  destruct r; simpl in *; naive_solver.
Qed.

(** Of one set of objects: each is gone or left; anything else is neither. *)
Lemma object_left rs r :
  NoDup rs ->
  (r ∈ rs -> r ∉ closed_until close_fails rs <-> r ∈ left_open close_fails rs) /\
  (r ∉ rs -> r ∉ closed_until close_fails rs /\ r ∉ left_open close_fails rs).
Proof.
  intros Hn. split; [by apply closed_until_elem|]. intros Hr.
  split; intros H; apply Hr; [by eapply closed_until_sub|by eapply left_open_sub].
Qed.

(** Once the readers and the links have been closed. *)
Lemma held_left c live r :
  owns c live ->
  ((held c r /\ (r ∈ ones c -> stays close_fails r = true)) /\
     r ∉ closed_until close_fails (map RSyscall SyscallObjects)) /\
    (c_tlsEnabled c = true -> r ∉ closed_until close_fails (map RTls TlsObjects)) <->
  r ∈ syscall_leak \/ (c_tlsEnabled c = true /\ r ∈ tls_leak) \/ left_held c r.
Proof.
  intros Ho. rewrite (elem_of_ones c live r Ho). unfold syscall_leak, tls_leak, left_held.
  destruct (object_left (map RSyscall SyscallObjects) r) as [Hs1 Hs2];
    [apply (bool_decide_unpack _); by vm_compute|].
  destruct (object_left (map RTls TlsObjects) r) as [Ht1 Ht2]; [apply (bool_decide_unpack _); by vm_compute|].
  rewrite elem_of_syscall_objects in Hs1, Hs2. rewrite elem_of_tls_objects in Ht1, Ht2.
  destruct r as [o|o| | | |]; simpl in *.
  - specialize (Hs1 (ex_intro _ o eq_refl)). destruct Ht2 as [??]; [by intros [? [=]]|]. tauto.
  - specialize (Ht1 (ex_intro _ o eq_refl)). destruct Hs2 as [??]; [by intros [? [=]]|]. tauto.
  - destruct Hs2 as [??]; [by intros [? [=]]|]. destruct Ht2 as [??]; [by intros [? [=]]|]. tauto.
  - destruct Hs2 as [??]; [by intros [? [=]]|]. destruct Ht2 as [??]; [by intros [? [=]]|]. tauto.
  - destruct Hs2 as [??]; [by intros [? [=]]|]. destruct Ht2 as [??]; [by intros [? [=]]|]. tauto.
  - destruct Hs2 as [??]; [by intros [? [=]]|]. destruct Ht2 as [??]; [by intros [? [=]]|]. tauto.
Qed.

Definition tls_closers (c : Collector) : list (closer resource E) :=
  if c_tlsEnabled c then [TlsObjects_Close (fun o => close (RTls o))] else [].

Lemma Close_ones c live :
  Close c live =
  close_each (map close (ones c) ++ SyscallObjects_Close (fun o => close (RSyscall o)) :: tls_closers c)
    live None.
Proof.
  unfold Close, ones, tls_closers. rewrite !map_app, <-!app_assoc. by destruct (c_rd c), (c_tlsRd c).
Qed.

(** What [Close] leaves open. *)
Lemma elem_of_Close c live r :
  owns c live ->
  r ∈ (Close c live).1 <->
  r ∈ syscall_leak \/ (c_tlsEnabled c = true /\ r ∈ tls_leak) \/ left_held c r.
Proof.
  intros Ho. rewrite Close_ones, close_each_app. pose proof (elem_of_close_each_ones (ones c) live None) as H1.
  destruct (close_each (map close (ones c)) live None) as [live1 e1]. cbn [fst] in H1.
  cbn [app close_each]. rewrite SyscallObjects_Close_flat, <-(map_map RSyscall close).
  pose proof (fun r => elem_of_closes close_fails (map RSyscall SyscallObjects) r live1) as H2.
  destruct (_SyscallClose _ live1) as [live2 e2]. cbn [fst] in H2.
  assert (r ∈ (close_each (tls_closers c) live2 (match e1 with Some e => Some e | None => e2 end)).1 <->
          r ∈ live2 /\ (c_tlsEnabled c = true -> r ∉ closed_until close_fails (map RTls TlsObjects))) as ->.
  { unfold tls_closers. destruct (c_tlsEnabled c); [|simpl; naive_solver]. cbn [close_each].
    rewrite TlsObjects_Close_flat, <-(map_map RTls close).
    pose proof (elem_of_closes close_fails (map RTls TlsObjects) r live2) as H3.
    destruct (_SyscallClose _ live2) as [live3 e3]. cbn [fst] in H3 |- *. naive_solver. }
  rewrite H2, H1, (owns_held c live Ho). by apply (held_left c live).
Qed.

(** An error of any call is kept. *)
Lemma close_each_quiet cs1 c cs2 live e :
  (close_each (cs1 ++ c :: cs2) live e).2 = None -> exists live', (c live').2 = None.
Proof.
  assert (forall cs live e', (close_each cs live (Some e')).2 = Some e') as Hsome.
  { induction cs as [|c' cs IH]; intros live' e'; [done|]. simpl. destruct (c' live'). apply IH. }
  revert live e. induction cs1 as [|c1 cs1 IH]; intros live e Hq; simpl in Hq.
  - exists live. destruct (c live) as [live1 [e1|]]; [|done]. destruct e; by rewrite Hsome in Hq.
  - destruct (c1 live) as [live1 err]. by eapply IH.
Qed.

Lemma Close_quiet c live r :
  owns c live -> (Close c live).2 = None -> r ∉ (Close c live).1.
Proof.
  intros Ho Hq. rewrite elem_of_Close by done. rewrite Close_ones in Hq.
  intros [Hr|[[Ht Hr]|(Hd & Hh & Hst)]].
  - apply close_each_quiet in Hq as [live' Hq].
    rewrite SyscallObjects_Close_flat, <-(map_map RSyscall close) in Hq.
    apply closes_quiet in Hq. unfold syscall_leak in Hr. rewrite Hq in Hr. by apply elem_of_nil in Hr.
  - unfold tls_closers in Hq. rewrite Ht in Hq.
    rewrite cons_middle, app_assoc in Hq. apply close_each_quiet in Hq as [live' Hq].
    rewrite TlsObjects_Close_flat, <-(map_map RTls close) in Hq.
    apply closes_quiet in Hq. unfold tls_leak in Hr. rewrite Hq in Hr. by apply elem_of_nil in Hr.
  - destruct (list_elem_of_split _ _ (proj2 (elem_of_ones c live r Ho) (conj Hd Hh))) as (l1 & l2 & Hl).
    rewrite Hl, map_app, <-app_assoc in Hq. apply close_each_quiet in Hq as [live' Hq].
    unfold stays in Hst. simpl in Hq. by destruct (close_fails r).
Qed.

(** *** What is acquired is held *)

Lemma owns_fresh pid : owns (mkCollector pid [] false false false) (map RSyscall SyscallObjects).
Proof.
  split; simpl; [|by intros r ?%elem_of_nil]. intros r. rewrite elem_of_syscall_objects.
  destruct r; simpl; rewrite ?elem_of_nil; naive_solver.
Qed.

Lemma owns_tls c live :
  owns c live -> c_tlsEnabled c = false ->
  owns (mkCollector (c_pid c) (c_links c) (c_rd c) true (c_tlsRd c)) (live ++ map RTls TlsObjects).
Proof.
  intros [Hh Hl] He. split; [|exact Hl]. intros r.
  rewrite elem_of_app, Hh, elem_of_tls_objects. destruct r; simpl in *; naive_solver.
Qed.

Lemma owns_link c live l :
  owns c live -> is_link l ->
  owns (mkCollector (c_pid c) (c_links c ++ [l]) (c_rd c) (c_tlsEnabled c) (c_tlsRd c)) (live ++ [l]).
Proof.
  intros [Hh Hl] Hk. split; intros r.
  - rewrite elem_of_app, list_elem_of_singleton, Hh.
    destruct r; simpl; rewrite ?elem_of_app, ?list_elem_of_singleton; split;
      try tauto; intros [?|<-]; done.
  - simpl. rewrite elem_of_app, list_elem_of_singleton. intros [?| ->]; auto.
Qed.

Lemma owns_rd c live :
  owns c live ->
  owns (mkCollector (c_pid c) (c_links c) true (c_tlsEnabled c) (c_tlsRd c)) (live ++ [RReader]).
Proof.
  intros [Hh Hl]. split; [|exact Hl]. intros r. rewrite elem_of_app, Hh, list_elem_of_singleton.
  destruct r; simpl; naive_solver.
Qed.

Lemma owns_tlsRd c live :
  owns c live ->
  owns (mkCollector (c_pid c) (c_links c) (c_rd c) (c_tlsEnabled c) true) (live ++ [RTlsReader]).
Proof.
  intros [Hh Hl]. split; [|exact Hl]. intros r. rewrite elem_of_app, Hh, list_elem_of_singleton.
  destruct r; simpl; naive_solver.
Qed.

(** The links of the tracepoints. *)
Definition tracepoint_link (tp : bytes * syscall_object) : resource := RTracepoint tp.1 tp.2.

(** A failing [New] that closes what it has leaves the syscall leak, and of the
    tracepoints it had attached those whose own [Close] leaves them open. *)
Definition leaves_syscall_leak (links live : list resource) : Prop :=
  exists attached, attached `prefix_of` links /\
  forall r, r ∈ live <-> r ∈ syscall_leak \/ (r ∈ attached /\ stays close_fails r = true).

(** A collector as [New] has it before the reader. *)
Record starting (c : Collector) (links live : list resource) : Prop := {
  st_owns : owns c live;
  st_tls : c_tlsEnabled c = false;
  st_rd : c_rd c = false;
  st_tlsRd : c_tlsRd c = false;
  st_links : c_links c = links;
}.

Lemma Close_leaves c attached links live :
  starting c attached live -> attached `prefix_of` links -> leaves_syscall_leak links (Close c live).1.
Proof.
  intros [Ho Ht Hr Htr Hl] Hp. exists attached. split; [done|]. intros r.
  rewrite elem_of_Close by done. unfold left_held. pose proof (owns_links c live Ho r) as Hk.
  destruct r; simpl in *; rewrite ?Ht, ?Hr, ?Htr, <-?Hl; naive_solver.
Qed.

Lemma attach_tracepoints_owns tps c attached live :
  starting c attached live ->
  match attach_tracepoints tps c live with
  | (live', Ok c') => starting c' (attached ++ map tracepoint_link tps) live'
  | (live', _) => leaves_syscall_leak (attached ++ map tracepoint_link tps) live'
  end.
Proof.
  revert c attached live. induction tps as [|[name prog] tps IH]; intros c attached live Hst.
  { simpl. by rewrite app_nil_r. }
  cbn [attach_tracepoints map]. destruct (fails _).
  { eapply Close_leaves; [exact Hst|]. by apply prefix_app_r. }
  rewrite (cons_middle _ attached), app_assoc. apply IH. destruct Hst as [Ho ? ? ? <-].
  split; simpl; try done. by apply owns_link.
Qed.

Lemma attach_uprobes_owns us c live :
  owns c live -> owns (attach_uprobes us c live).1.2 (attach_uprobes us c live).1.1.
Proof.
  revert c live. induction us as [|[[sym prog] ret] us IH]; intros c live Ho; [done|].
  cbn [attach_uprobes]. destruct (fails _); [done|]. by apply IH, owns_link.
Qed.

Lemma New_owns pid :
  match New pid with
  | (live, Ok c) => owns c live /\ c_tlsEnabled c = false
  | (live, _) => live = [] \/ leaves_syscall_leak (map tracepoint_link tracepoints) live \/
      (live = map RSyscall SyscallObjects /\ is_Some (fails ClockGettime))
  end.
Proof.
  unfold New. case_decide; [by left|]. destruct (attempt _); [by left|].
  destruct (fails ClockGettime); [by right; right|].
  assert (starting (mkCollector pid [] false false false) [] (map RSyscall SyscallObjects)) as Hst
    by (split; [apply owns_fresh|done..]).
  pose proof (attach_tracepoints_owns tracepoints _ _ _ Hst) as Ha. cbn [app] in Ha.
  destruct (attach_tracepoints _ _ _) as [live [c|e|p]]; [|by right; left..].
  destruct (fails NewReader); [right; left; by eapply Close_leaves|].
  destruct Ha as [Ho He _ _ _]. split; [by apply owns_rd|done].
Qed.

Lemma EnableTLS_owns c live :
  owns c live -> c_tlsEnabled c = false -> owns (EnableTLS c live).1.2 (EnableTLS c live).1.1.
Proof.
  intros Ho He. unfold EnableTLS. destruct (attempt _); [done|].
  pose proof (owns_tls c live Ho He) as H1. destruct (fails OpenExecutable); [done|].
  pose proof (attach_uprobes_owns uprobes _ _ H1) as H2.
  destruct (attach_uprobes _ _ _) as [[live' c'] [e|]]; [done|].
  destruct (fails NewTlsReader); [done|]. by apply owns_tlsRd.
Qed.

End Resources.

(** ** The readers

    What a ring buffer's [Read] returns in turn, and what [readLoop] then puts
    on the channels.  A reader ends at [ErrClosed] or at another error; the
    list of results ends there at the latest. *)

Inductive read_result := Record_ (raw : bytes) | ErrClosed | ErrRead.

Inductive run_error := ReadRingbuf | DecodeEvent (e : ioerr).

Inductive publish := PubEvent (ev : Event) | PubErr (e : run_error).

(** [readLoop] *)
Fixpoint readLoop (results : list read_result) : list publish :=
  match results with
  | [] | ErrClosed :: _ => []
  | ErrRead :: _ => [PubErr ReadRingbuf]
  | Record_ raw :: results =>
      match decodeEvent raw with
      | Ok ev => PubEvent ev :: readLoop results
      | Err e => PubErr (DecodeEvent e) :: readLoop results
      | Panic _ => readLoop results
      end
  end.

Definition eventsCap : nat := 64.
Definition errsCap : nat := 1.

(** The goroutines of [Run]: each reader with what it has left to publish
    ([None] once it has returned and called [wg.Done]); the channels, each item
    tagged with the reader it is from; [closed_events]/[closed_errs] as set by
    the goroutine that waits; what the receivers have; whether a send ever
    found its channel closed, which panics. *)
Record run_state := mkRun {
  readers : list (option (list publish));
  rwg : nat;
  ev_buf : list (nat * Event);
  err_buf : list (nat * run_error);
  closed_events : bool;
  closed_errs : bool;
  ev_got : list (nat * Event);
  err_got : list (nat * run_error);
  panicked : bool;
}.

(** [Run] up to its return: one reader per ring buffer, all counted in [wg]. *)
Definition Run (rings : list (list read_result)) : run_state :=
  mkRun (map (fun rs => Some (readLoop rs)) rings) (length rings) [] [] false false [] [] false.

Inductive run_label :=
| LReader (i : nat)   (* a reader publishes, or returns *)
| LCloseEvents        (* wg.Wait() returns; close(events) *)
| LCloseErrs          (* close(errs) *)
| LRecvEvent          (* a receive on the events channel *)
| LRecvErr.           (* a receive on the errors channel *)

Definition reader_step (i : nat) (s : run_state) : option run_state :=
  let 'mkRun rs wg evs errs ce cr ge gr pn := s in
  match rs !! i with
  | Some (Some []) => Some (mkRun (<[i := None]> rs) (wg - 1) evs errs ce cr ge gr pn)
  | Some (Some (PubEvent ev :: t)) =>
      if (ce : bool) then Some (mkRun (<[i := Some t]> rs) wg evs errs ce cr ge gr true)
      else if (length evs <? eventsCap)%nat then
        Some (mkRun (<[i := Some t]> rs) wg (evs ++ [(i, ev)]) errs ce cr ge gr pn)
      else None
  | Some (Some (PubErr e :: t)) =>
      if (cr : bool) then Some (mkRun (<[i := Some t]> rs) wg evs errs ce cr ge gr true)
      else if (length errs <? errsCap)%nat then
        Some (mkRun (<[i := Some t]> rs) wg evs (errs ++ [(i, e)]) ce cr ge gr pn)
      else None
  | _ => None
  end.

Definition run_step (l : run_label) (s : run_state) : option run_state :=
  let 'mkRun rs wg evs errs ce cr ge gr pn := s in
  match l with
  | LReader i => reader_step i s
  | LCloseEvents =>
      if (wg =? 0)%nat && negb ce then Some (mkRun rs wg evs errs true cr ge gr pn) else None
  | LCloseErrs => if ce && negb cr then Some (mkRun rs wg evs errs ce true ge gr pn) else None
  | LRecvEvent =>
      match evs with x :: evs => Some (mkRun rs wg evs errs ce cr (ge ++ [x]) gr pn) | [] => None end
  | LRecvErr =>
      match errs with x :: errs => Some (mkRun rs wg evs errs ce cr ge (gr ++ [x]) pn) | [] => None end
  end.

(** ** Invariant *)

Definition pub_events (l : list publish) : list Event :=
  omap (fun p => match p with PubEvent ev => Some ev | _ => None end) l.
Definition pub_errs (l : list publish) : list run_error :=
  omap (fun p => match p with PubErr e => Some e | _ => None end) l.

(** What reader [i] has put on a channel. *)
Definition from {A} (i : nat) (l : list (nat * A)) : list A :=
  omap (fun x => if decide (x.1 = i) then Some x.2 else None) l.

#[global] Arguments from : simpl never.

Lemma from_app {A} i (l1 l2 : list (nat * A)) : from i (l1 ++ l2) = from i l1 ++ from i l2.
Proof. apply omap_app. Qed.

Definition running (r : option (list publish)) : bool := bool_decide (is_Some r).
Definition rest_of (s : run_state) (i : nat) : list publish :=
  match readers s !! i with Some (Some t) => t | _ => [] end.

Record run_inv (rings : list (list read_result)) (s : run_state) : Prop := {
  ri_length : length (readers s) = length rings;
  ri_wg : rwg s = length (List.filter running (readers s));
  ri_closed : closed_events s = true \/ closed_errs s = true -> rwg s = 0%nat;
  ri_order : closed_errs s = true -> closed_events s = true;
  ri_panic : panicked s = false;
  ri_events : forall i rs, rings !! i = Some rs ->
    from i (ev_got s) ++ from i (ev_buf s) ++ pub_events (rest_of s i) = pub_events (readLoop rs);
  ri_errs : forall i rs, rings !! i = Some rs ->
    from i (err_got s) ++ from i (err_buf s) ++ pub_errs (rest_of s i) = pub_errs (readLoop rs);
}.

Lemma filter_running_insert (l : list (option (list publish))) i r r' :
  l !! i = Some r ->
  (length (List.filter running (<[i := r']> l)) + (if running r then 1 else 0) =
   length (List.filter running l) + (if running r' then 1 else 0))%nat.
Proof.
  revert i. induction l as [|x l IH]; intros [|i] Hi; simplify_eq/=.
  - destruct (running r), (running r'); simpl; lia.
  - specialize (IH i Hi). destruct (running x); simpl; lia.
Qed.

Lemma running_pos (l : list (option (list publish))) i t :
  l !! i = Some (Some t) -> (0 < length (List.filter running l))%nat.
Proof.
  intros Hi. pose proof (filter_running_insert l i _ None Hi) as H. simpl in H. lia.
Qed.

Lemma run_inv_init rings : run_inv rings (Run rings).
Proof.
  unfold Run. split; simpl; try done.
  - by rewrite length_map.
  - by induction rings; simpl; [|f_equal].
  - by intros [].
  - intros i rs Hi. unfold rest_of. simpl. by rewrite list_lookup_fmap, Hi.
  - intros i rs Hi. unfold rest_of. simpl. by rewrite list_lookup_fmap, Hi.
Qed.

Definition rest (rs : list (option (list publish))) (i : nat) : list publish :=
  match rs !! i with Some (Some t) => t | _ => [] end.

Lemma rest_insert rs i r r' j :
  rs !! i = Some r ->
  rest (<[i := r']> rs) j = if decide (i = j) then default [] r' else rest rs j.
Proof.
  intros Hi. unfold rest. case_decide as Hj.
  - subst. rewrite list_lookup_insert_eq by (by eapply lookup_lt_Some). by destruct r'.
  - by rewrite list_lookup_insert_ne.
Qed.

Lemma from_single {A} i j (x : A) : from j [(i, x)] = if decide (i = j) then [x] else [].
Proof. unfold from. simpl. by case_decide. Qed.

Lemma reader_step_inv rings i s s' : run_inv rings s -> reader_step i s = Some s' -> run_inv rings s'.
Proof.
  intros [Hlen Hwg Hcl Hord Hpn Hev Her].
  destruct s as [rs wg evs errs ce cr ge gr pn]. unfold rest_of in *. simpl in *.
  fold (rest rs) in *. destruct (rs !! i) as [[[|p t]|]|] eqn:Hi; [..|done|done].
  all: pose proof (running_pos _ _ _ Hi) as Hpos.
  - intros [= <-]. pose proof (filter_running_insert _ _ _ None Hi) as Hf. simpl in Hf.
    split; simpl; try done; [by rewrite length_insert|lia|intros ?%Hcl; lia|..];
      intros j rings_j Hj; unfold rest_of; simpl; fold (rest (<[i:=None]> rs) j);
      rewrite (rest_insert _ _ _ _ _ Hi); [rewrite <-(Hev j _ Hj)|rewrite <-(Her j _ Hj)];
      (case_decide; [subst; unfold rest; by rewrite Hi|done]).
  - pose proof (filter_running_insert _ _ _ (Some t) Hi) as Hf. simpl in Hf.
    assert (ce = false) as -> by (destruct ce; [rewrite Hwg in Hcl; lia|done]).
    assert (cr = false) as -> by (by destruct cr; [discriminate Hord|]).
    destruct p as [ev|e]; (case_match; [|done]); intros [= <-];
    (split; simpl; [by rewrite length_insert|lia|by intros []|done|done|..]);
    intros j rings_j Hj; unfold rest_of; simpl; fold (rest (<[i:=Some t]> rs) j);
      rewrite (rest_insert _ _ _ _ _ Hi); 
      [rewrite <-(Hev j _ Hj)|rewrite <-(Her j _ Hj)|rewrite <-(Hev j _ Hj)|rewrite <-(Her j _ Hj)];
      rewrite ?from_app, ?from_single; case_decide; subst; rewrite ?app_nil_r; try done;
      unfold rest; rewrite Hi; simpl; by rewrite <-?app_assoc.
Qed.

Lemma run_step_inv rings s s' : run_inv rings s -> steps_by run_step s s' -> run_inv rings s'.
Proof.
  intros Hi [[i| | | |] Hs].
  { destruct s. by eapply reader_step_inv. }
  all: destruct Hi as [Hlen Hwg Hcl Hord Hpn Hev Her];
    destruct s as [rs wg evs errs ce cr ge gr pn]; unfold rest_of in *; simpl in *.
  - destruct wg as [|wg], ce; simplify_eq/=. by split.
  - destruct ce, cr; simplify_eq/=. split; simpl; try done. by auto.
  - destruct evs as [|x evs]; simplify_eq/=. split; simpl; try done.
    intros j rj Hj. rewrite <-(Hev j rj Hj). change (x :: evs) with ([x] ++ evs).
    by rewrite !from_app, <-!app_assoc.
  - destruct errs as [|x errs]; simplify_eq/=. split; simpl; try done.
    intros j rj Hj. rewrite <-(Her j rj Hj). change (x :: errs) with ([x] ++ errs).
    by rewrite !from_app, <-!app_assoc.
Qed.

Lemma run_reachable rings s : rtc (steps_by run_step) (Run rings) s -> run_inv rings s.
Proof. intros Hrun. eapply rtc_invariant; [apply run_step_inv|exact Hrun|apply run_inv_init]. Qed.

(** Every step uses up some of this. *)
Definition reader_work (r : option (list publish)) : nat :=
  match r with Some t => S (2 * length t) | None => 0 end.
Definition run_work (s : run_state) : nat :=
  sum_list_with reader_work (readers s) + length (ev_buf s) + length (err_buf s) +
  (if closed_events s then 0 else 1) + (if closed_errs s then 0 else 1).

Lemma reader_work_insert rs i r r' :
  rs !! i = Some r ->
  (sum_list_with reader_work (<[i := r']> rs) + reader_work r =
   sum_list_with reader_work rs + reader_work r')%nat.
Proof.
  revert i. induction rs as [|x rs IH]; intros [|i] Hi; simplify_eq/=; [lia|].
  specialize (IH i Hi). lia.
Qed.

Lemma run_step_work s s' : steps_by run_step s s' -> (run_work s' < run_work s)%nat.
Proof.
  intros [[i| | | |] Hs]; destruct s as [rs wg evs errs ce cr ge gr pn]; unfold run_work; simpl in *.
  - destruct (rs !! i) as [[[|p t]|]|] eqn:Hi; [..|done|done].
    + simplify_eq/=. pose proof (reader_work_insert _ _ _ None Hi) as H. simpl in H. lia.
    + pose proof (reader_work_insert _ _ _ (Some t) Hi) as H. simpl in H.
      destruct p; repeat case_match; simplify_eq/=; rewrite ?length_app; simpl; lia.
  - destruct wg as [|wg], ce; simplify_eq/=. lia.
  - destruct ce, cr; simplify_eq/=. lia.
  - destruct evs; simplify_eq/=. lia.
  - destruct errs; simplify_eq/=. lia.
Qed.

(** A run that has come to a stop has delivered everything and closed both
    channels. *)
Definition delivered (rings : list (list read_result)) (s : run_state) : Prop :=
  closed_events s = true /\ closed_errs s = true /\
  (forall i rs, rings !! i = Some rs -> from i (ev_got s) = pub_events (readLoop rs)) /\
  (forall i rs, rings !! i = Some rs -> from i (err_got s) = pub_errs (readLoop rs)).

Lemma run_stuck_delivered rings s :
  run_inv rings s -> (forall s', ~ steps_by run_step s s') -> delivered rings s.
Proof.
  intros [Hlen Hwg Hcl Hord Hpn Hev Her] Hstuck.
  assert (forall l, run_step l s = None) as Hno.
  { intros l. destruct (run_step l s) as [s'|] eqn:E; [|done]. edestruct Hstuck. by exists l. }
  clear Hstuck. destruct s as [rs wg evs errs ce cr ge gr pn].
  pose proof (Hno LRecvEvent) as H1. pose proof (Hno LRecvErr) as H2.
  pose proof (Hno LCloseEvents) as H3. pose proof (Hno LCloseErrs) as H4.
  unfold rest_of in *. simpl in *. destruct evs; [|done]. destruct errs; [|done].
  assert (forall i r, rs !! i = Some r -> r = None) as Hall.
  { intros i [t|] Hi; [|done]. pose proof (Hno (LReader i)) as H. simpl in H. rewrite Hi in H.
    destruct t as [|[]]; [done|by destruct ce|by destruct cr]. }
  assert (wg = 0%nat) as ->.
  { rewrite Hwg. clear -Hall. induction rs as [|r rs IH]; [done|].
    simpl. rewrite (Hall 0%nat r eq_refl). apply IH. intros i r' Hi. by apply (Hall (S i)). }
  destruct ce; [|done]. destruct cr; [|done]. unfold delivered. simpl.
  assert (forall i, match rs !! i with Some (Some t) => t | _ => [] end = []) as Hnil.
  { intros i. destruct (rs !! i) as [r|] eqn:Hi; [|done]. by rewrite (Hall i r Hi). }
  split_and!; [done|done|intros i r Hr; rewrite <-(Hev i r Hr)|intros i r Hr; rewrite <-(Her i r Hr)];
    by rewrite Hnil, !app_nil_r.
Qed.

(** ** /proc lookups *)

(** [Comm]: [comm] is the content of [/proc/<pid>/comm], [None] when it cannot
    be read. *)
Definition Comm (comm : option bytes) : bytes :=
  match comm with Some data => TrimSpace data | None => str "?" end.

Inductive map_error := ErrOpenMaps | ErrReadMaps | ErrNoLibrary.

(** The loop of [findMappedLibrary]; indexing the fields of a line without any
    panics. *)
Fixpoint find_library (substr : bytes) (lines : list bytes) : safe (option bytes) :=
  match lines with
  | [] => Ok None
  | line :: lines =>
      if Contains line substr then
        match last (Fields line) with
        | None => Panic PanicIndex
        | Some path => if Contains path substr then Ok (Some path) else find_library substr lines
        end
      else find_library substr lines
  end.

(** [findMappedLibrary] on the content of [/proc/<pid>/maps]. *)
Definition findMappedLibrary (maps : option bytes) (substr : bytes) : outcome map_error bytes :=
  match maps with
  | None => Err ErrOpenMaps
  | Some content =>
      let (lines, scanned) := ScanLines content in
      match find_library substr lines with
      | Ok (Some path) => Ok path
      | Ok None => Err (if (scanned : bool) then ErrNoLibrary else ErrReadMaps)
      | Err e => match e with end
      | Panic p => Panic p
      end
  end.

(** ** Theorems *)

(** [EventTime] converts boot-relative time to wall-clock time exactly:
    for any event within 2^63 ns (292 years) of the reference, whichever of the
    two 64-bit counters is past 2^63, the result is the reference's wall time
    plus the difference. *)
Theorem EventTime_exact monoRefNs wallRef ev :
  inU 64 monoRefNs -> inU 64 (Timestamp ev) -> inS 64 (Timestamp ev - monoRefNs) ->
  EventTime monoRefNs wallRef ev = wallRef + (Timestamp ev - monoRefNs).
Proof.
  intros Hm Ht Hd. unfold EventTime. f_equal. rewrite wrapS_sub by lia. by apply wrapS_id.
Qed.

Lemma EventTime_exact_witness :
  inU 64 (2 ^ 63 - 5) /\ inU 64 (2 ^ 63 + 5) /\ inS 64 (2 ^ 63 + 5 - (2 ^ 63 - 5)) /\
  EventTime (2 ^ 63 - 5) 1000 (mkEvent 1 1 (2 ^ 63 + 5) 3 OpClose 0 0 0 0 0 0 []) = 1010.
Proof.
  assert (inU 64 (2 ^ 63 - 5)) as H1 by (unfold inU; lia).
  assert (inU 64 (2 ^ 63 + 5)) as H2 by (unfold inU; lia).
  assert (inS 64 (2 ^ 63 + 5 - (2 ^ 63 - 5))) as H3 by (unfold inS; lia).
  split; [exact H1|split; [exact H2|split; [exact H3|]]].
  apply (EventTime_exact (2 ^ 63 - 5) 1000 (mkEvent 1 1 (2 ^ 63 + 5) 3 OpClose 0 0 0 0 0 0 [])); assumption.
Defined.

(** [C28] Exactly this is released: whatever calls fail, what [Close] leaves open
    of all the collector holds are the BPF objects that stand, in the closing
    order of the generated loaders, behind the first one whose closing fails,
    and those resources whose own closing failed in a way that leaves them open
    - nothing else, also after an [EnableTLS] that failed half way; and when
    something stays open [Close] reports an error.  A failing [New] leaves the
    same of the objects and of the tracepoints it had attached, or nothing, or
    all the objects when it is the clock that could not be read. *)
Theorem Close_releases_all {E} (fails : call -> option E)
    (close_fails : resource -> option (failed_close E)) pid :
  match New fails close_fails pid with
  | (live, Ok c) =>
      (forall r, r ∈ (Close close_fails c live).1 <->
         r ∈ syscall_leak close_fails \/ left_held close_fails c r) /\
      let '(live', c', _) := EnableTLS fails c live in
      (forall r, r ∈ (Close close_fails c' live').1 <->
         r ∈ syscall_leak close_fails \/ (c_tlsEnabled c' = true /\ r ∈ tls_leak close_fails) \/
         left_held close_fails c' r) /\
      ((Close close_fails c' live').2 = None -> (Close close_fails c' live').1 = [])
  | (live, _) =>
      live = [] \/
      (exists attached, attached `prefix_of` map tracepoint_link tracepoints /\
         forall r, r ∈ live <->
           r ∈ syscall_leak close_fails \/ (r ∈ attached /\ stays close_fails r = true)) \/
      (live = map RSyscall SyscallObjects /\ is_Some (fails ClockGettime))
  end.
Proof.
  pose proof (New_owns fails close_fails pid) as Hn.
  destruct (New fails close_fails pid) as [live [c|e|p]]; [|done..]. destruct Hn as [Ho He].
  split; [intros r; rewrite elem_of_Close by done; rewrite He; naive_solver|].
  pose proof (EnableTLS_owns fails close_fails c live Ho He) as Ht.
  destruct (EnableTLS fails c live) as [[live' c'] oe]. simpl in Ht.
  split; [intros r; by apply elem_of_Close|]. intros Hq. apply elem_of_nil_inv.
  intros r. by apply (Close_quiet close_fails c' live' r).
Qed.

(** Without errors from closing the objects they are all released. *)
Lemma no_leaks {E} (close_fails : resource -> option (failed_close E)) :
  (forall o, close_fails (RSyscall o) = None) -> (forall o, close_fails (RTls o) = None) ->
  syscall_leak close_fails = [] /\ tls_leak close_fails = [].
Proof. intros Hs Ht. split; apply left_open_nil; intros r [o [-> _]]%list_elem_of_fmap; auto. Qed.

(** One program that fails to close, even if it is gone all the same, keeps the
    other objects open, the maps among them. *)
Lemma Close_leaks_after_error {E} (e : E) :
  let close_fails r := if decide (r = RSyscall TraceEnterClose) then Some (mkFailed e false) else None in
  syscall_leak close_fails =
  map RSyscall [TraceEnterConnect; TraceEnterRead; TraceEnterWrite; TraceExitRead; Events; ReadStash].
Proof. done. Qed.

(** [New] leaks on a clock error: the BPF programs and maps are loaded
    before the clock is read and that error path returns without closing
    them. *)
Theorem New_leaks_objects {E} (fails : call -> option E) close_fails pid e :
  pid <> 0 -> attempt fails [RemoveMemlock; LoadSyscall; SetTargetPid; LoadAndAssign] = None ->
  fails ClockGettime = Some e ->
  New fails close_fails pid = (map RSyscall SyscallObjects, Err (ErrCall ClockGettime e)).
Proof. intros Hp Ha Hc. unfold New. by rewrite decide_False, Ha, Hc by done. Qed.

Lemma New_leaks_objects_witness :
  let fails c := match c with ClockGettime => Some tt | _ => None end in
  42 <> 0 /\
  New fails (fun _ => None) 42 = (map RSyscall SyscallObjects, Err (ErrCall ClockGettime tt)).
Proof.
  split; [done|].
  apply (New_leaks_objects (fun c => match c with ClockGettime => Some tt | _ => None end)
    (fun _ => None) 42 tt); done.
Defined.

(** The right programs are attached: for every system call the program [New]
    attaches to its tracepoint is, by the name the generated loader assigns it
    under, the C function declared for that tracepoint, which is the one the
    model runs for it; likewise for the calls into libssl. *)
Theorem programs_attached `{UserMem} host target_pid :
  (forall t hit s, exists prog body,
     (hit_name hit, prog) ∈ tracepoints /\
     find_program (syscall_tag prog) (Syscall.programs host target_pid) =
       Some (str "tracepoint/syscalls/" ++ hit_name hit, body) /\
     body t (Syscall.ctx_of hit) s = Syscall.handle host target_pid s (t, hit)) /\
  (forall t hit s, exists prog body,
     (probe_symbol hit, prog, probe_ret hit) ∈ uprobes /\
     find_program (tls_tag prog) (Tls.programs host target_pid) =
       Some (str (if probe_ret hit then "uretprobe/" else "uprobe/") ++ probe_symbol hit, body) /\
     body t hit s = Tls.handle host target_pid s (t, hit)).
Proof.
  split; intros t hit s.
  - destruct hit;
      [exists TraceEnterConnect|exists TraceEnterWrite|exists TraceEnterRead|exists TraceExitRead
      |exists TraceEnterClose];
      (eexists; split; [unfold tracepoints; repeat first [left | right]|split; reflexivity]).
  - destruct hit; [exists TraceSslWrite|exists TraceSslReadEnter|exists TraceSslReadExit];
      (eexists; split; [unfold uprobes; repeat first [left | right]|split; reflexivity]).
Qed.

(** [C16] [Run] publishes everything and shuts down cleanly: for any number of
    ring buffers and any sequence of read results, in every interleaving of
    the readers and receivers no send ever finds its channel closed, the run is
    finite, and it can stop only when both channels are closed and each
    reader's events and errors have arrived complete and in order. *)
Theorem Run_publishes rings :
  sn (steps_by run_step) (Run rings) /\
  forall s, rtc (steps_by run_step) (Run rings) s ->
    panicked s = false /\
    ((forall s', ~ steps_by run_step s s') -> delivered rings s).
Proof.
  split.
  - apply (measure_sn _ (fun _ => True) run_work); [|done].
    intros x y _ Hs. split; [done|]. by apply run_step_work.
  - intros s Hrun.
    pose proof (run_reachable _ _ Hrun) as Hi. split; [apply Hi|]. by apply run_stuck_delivered.
Qed.

Lemma find_library_spec substr lines :
  match find_library substr lines with
  | Ok (Some path) =>
      exists l1 line l2, lines = l1 ++ line :: l2 /\ Contains line substr = true /\
        last (Fields line) = Some path /\ Contains path substr = true /\
        Forall (fun l => Contains l substr = true ->
                  exists p, last (Fields l) = Some p /\ Contains p substr = false) l1
  | Ok None =>
      Forall (fun l => Contains l substr = true ->
                exists p, last (Fields l) = Some p /\ Contains p substr = false) lines
  | Err e => False
  | Panic _ => exists line, Contains line substr = true /\ Fields line = []
  end.
Proof.
  induction lines as [|line lines IH]; [constructor|]. cbn [find_library].
  destruct (Contains line substr) eqn:Ec.
  - destruct (last (Fields line)) as [path|] eqn:El.
    2:{ exists line. split; [done|]. by apply last_None. }
    destruct (Contains path substr) eqn:Ep.
    { exists [], line, lines. by split_and!. }
    destruct (find_library substr lines) as [[p|]|[]|]; [|constructor; eauto|done].
    destruct IH as (l1 & l & l2 & -> & ? & ? & ? & ?). exists (line :: l1), l, l2.
    split_and!; try done. constructor; eauto.
  - destruct (find_library substr lines) as [[p|]|[]|]; [|by constructor; [congruence|]|done].
    destruct IH as (l1 & l & l2 & -> & ? & ? & ? & ?). exists (line :: l1), l, l2.
    split_and!; try done. by constructor; [congruence|].
Qed.

(** [C35] [findMappedLibrary] finds what it is asked for and never panics: for a
    name with a visible ASCII character, a path it returns contains the name and
    is the last field of the first scanned line whose last field contains it;
    without such a line it returns an error. *)
Theorem findMappedLibrary_spec maps substr c :
  c ∈ substr -> visible c = true ->
  match findMappedLibrary maps substr with
  | Ok path =>
      Contains path substr = true /\
      exists content l1 line l2, maps = Some content /\ (ScanLines content).1 = l1 ++ line :: l2 /\
        last (Fields line) = Some path /\
        Forall (fun l => Contains l substr = true ->
                  exists p, last (Fields l) = Some p /\ Contains p substr = false) l1
  | Err ErrOpenMaps => maps = None
  | Err e => exists content, maps = Some content /\
      Forall (fun l => Contains l substr = true ->
                exists p, last (Fields l) = Some p /\ Contains p substr = false) (ScanLines content).1
  | Panic _ => False
  end.
Proof.
  intros Hc Hv. unfold findMappedLibrary. destruct maps as [content|]; [|done].
  destruct (ScanLines content) as [lines ok] eqn:El.
  pose proof (find_library_spec substr lines) as Hf.
  destruct (find_library substr lines) as [[path|]|[]|p].
  - destruct Hf as (l1 & line & l2 & -> & ? & ? & ? & ?). split; [done|].
    exists content, l1, line, l2. by rewrite El.
  - by destruct ok; exists content; rewrite El.
  - destruct Hf as (line & (l & r & ->)%Contains_spec & Hnil).
    eapply Fields_visible; [|exact Hv|exact Hnil]. set_solver.
Qed.

(** Two lines of a [maps] file; the second maps libssl. *)
Definition sample_maps : bytes :=
  str "7f00-7f01 r--p 00000000 08:01 7   /lib/libc.so.6" ++ [LF] ++
  str "7f02-7f03 r-xp 00000000 08:01 9   /lib/libssl.so.3" ++ [LF].

Lemma findMappedLibrary_spec_witness :
  Byte.x6c ∈ str "libssl.so" /\ visible Byte.x6c = true /\
  findMappedLibrary (Some sample_maps) (str "libssl.so") = Ok (str "/lib/libssl.so.3") /\
  exists content l1 line l2, Some sample_maps = Some content /\
    (ScanLines content).1 = l1 ++ line :: l2 /\
    last (Fields line) = Some (str "/lib/libssl.so.3") /\
    Forall (fun l => Contains l (str "libssl.so") = true ->
              exists p, last (Fields l) = Some p /\ Contains p (str "libssl.so") = false) l1.
Proof.
  assert (Byte.x6c ∈ str "libssl.so") as H1 by left.
  split; [exact H1|split; [reflexivity|split; [run|]]].
  exact (proj2 (findMappedLibrary_spec (Some sample_maps) (str "libssl.so") Byte.x6c H1 eq_refl)).
Defined.

(** A directory with a space: the "path" is what follows the last space. *)
Lemma findMappedLibrary_splits_path :
  findMappedLibrary
    (Some (str "7f02-7f03 r-xp 00000000 08:01 9   /opt/my app/libssl.so.3" ++ [LF])) (str "libssl.so") =
  Ok (str "app/libssl.so.3").
Proof. run. Qed.
