(* ===== verification/Live.v ===== *)
(** * The live programs: arrivals, goroutines, Ctrl-C

    [record] and [trace] while the traced process runs: events reach the
    collector's ring buffer one after another, until the collector is closed;
    the goroutines of Stage and the consumers main.go attaches run in any
    interleaving.  The collector is abstracted to the order in which events
    reach its channel ([source]); [collector_source] shows that its goroutines
    (Collector), with any number of ring buffers, are such a source for a merge
    of what the buffers hold. *)

From S2P Require Import Prelude GoStd Event Pipeline Stage.
From S2P Require Import Resp Http Streamer Correlator Collector.
Local Open Scope nat_scope.
Local Open Scope go_scope.

(** ** The collector's side *)

Section Source.
Context {A : Type}.

(** [coming]: what the kernel will still report; [inflight]: an event the reader
    has taken out of the ring buffer and not yet sent; [stopping]: the collector
    has been closed; [buf], [buf_closed]: the [events] channel. *)
Record source := mkSource {
  coming : list A;
  inflight : option A;
  stopping : bool;
  buf : list A;
  buf_closed : bool;
}.

Inductive source_label :=
| Read     (* the reader takes an event out of the ring buffer *)
| Send     (* events <- ev *)
| Stop     (* Collector.Close, by Ctrl-C or otherwise *)
| End.     (* Read returns ErrClosed; close(events) *)

Definition source_step (l : source_label) (s : source) : option source :=
  let 'mkSource co fl sp bf cl := s in
  match l with
  | Read =>
      match co, fl, sp with
      | x :: co, None, false => Some (mkSource co (Some x) sp bf cl)
      | _, _, _ => None
      end
  | Send =>
      match fl with
      | Some x => if length bf <? eventsCap then Some (mkSource co None sp (bf ++ [x]) cl) else None
      | None => None
      end
  | Stop => if (sp : bool) then None else Some (mkSource co fl true bf cl)
  | End =>
      match fl, sp, cl with
      | None, true, false => Some (mkSource co None true bf true)
      | _, _, _ => None
      end
  end.

Definition source_start (evs : list A) : source := mkSource evs None false [] false.

(** What has been read from the ring buffer, when [hist] has gone on. *)
Definition received (hist : list A) (s : source) : list A := hist ++ buf s ++ option_list (inflight s).

Record source_inv (all hist : list A) (s : source) : Prop := {
  si_order : received hist s ++ coming s = all;
  si_closed : buf_closed s = true -> stopping s = true /\ inflight s = None;
}.

Lemma source_step_inv all hist l s s' :
  source_inv all hist s -> source_step l s = Some s' -> source_inv all hist s'.
Proof.
  intros [Ho Hc]. unfold received in *. destruct s as [co fl sp bf cl]. simpl in *.
  destruct l; intros Hs; repeat case_match; simplify_eq/=.
  all: (split; unfold received; simpl; [by rewrite <-?app_assoc|naive_solver]).
Qed.

(** The goroutine takes from the channel. *)
Lemma source_take all hist x co fl sp bf cl :
  source_inv all hist (mkSource co fl sp (x :: bf) cl) ->
  source_inv all (hist ++ [x]) (mkSource co fl sp bf cl).
Proof.
  intros [Ho Hc]. split; [|done]. rewrite <-Ho. unfold received. simpl.
  rewrite <-!app_assoc. simpl. by rewrite <-!app_assoc.
Qed.

Lemma source_closed_stuck all hist l s s' :
  source_inv all hist s -> buf_closed s = true -> source_step l s = Some s' -> False.
Proof.
  intros Hs Hc Hl. destruct (si_closed _ _ _ Hs Hc) as [Hsp Hfl].
  destruct s as [co fl sp bf cl]. simpl in *. subst. by destruct l, co.
Qed.

Definition source_work (s : source) : nat :=
  2 * length (coming s) + (if inflight s then 1 else 0) + (if stopping s then 0 else 1) +
  (if buf_closed s then 0 else 1).

Lemma source_step_work l s s' : source_step l s = Some s' -> source_work s' < source_work s.
Proof.
  destruct s as [co fl sp bf cl]. unfold source_work. simpl.
  destruct l; intros Hs; repeat case_match; simplify_eq/=; lia.
Qed.

(** The source can only wait for a free channel, for the kernel, or for the
    end. *)
Lemma source_settled s :
  (forall l, l <> Stop -> source_step l s = None) -> buf s = [] ->
  inflight s = None /\ (if stopping s then buf_closed s = true else coming s = []).
Proof.
  intros Hs Hb. pose proof (Hs Read ltac:(done)) as H1. pose proof (Hs Send ltac:(done)) as H2.
  pose proof (Hs End ltac:(done)) as H3. destruct s as [co fl sp bf cl]. simpl in *. subst.
  destruct fl; [done|]. destruct sp, cl, co; done.
Qed.

End Source.
Arguments source : clear implicits.

(** *** The collector is such a source

    With any number of ring buffers and whatever its readers fail on, the
    collector of Collector is a source: what has gone through its events channel
    is in the order in which the readers sent it, a receive takes the first of
    [buf], and until the channel is closed anything may still come. *)

Inductive fed : source Event * list Event -> source Event * list Event -> Prop :=
| fed_source l s s' hist : source_step l s = Some s' -> fed (s, hist) (s', hist)
| fed_take co fl sp x bf cl hist :
    fed (mkSource co fl sp (x :: bf) cl, hist) (mkSource co fl sp bf cl, hist ++ [x]).

(** What the readers have sent, and the source this is with [fut] to come. *)
Definition sent (c : run_state) : list Event := map snd (ev_got c ++ ev_buf c).

Definition source_of (fut : list Event) (c : run_state) : source Event :=
  mkSource fut None (closed_events c) (map snd (ev_buf c)) (closed_events c).

Definition sourced (c : run_state) : Prop :=
  forall fut, rtc fed (source_start (sent c ++ fut), []) (source_of fut c, map snd (ev_got c)).

(** A step that sends nothing and closes nothing. *)
Lemma sourced_same c c' :
  sourced c -> ev_buf c' = ev_buf c -> ev_got c' = ev_got c -> closed_events c' = closed_events c -> sourced c'.
Proof. intros Hc Hb Hg Hx fut. unfold sent, source_of. rewrite Hb, Hg, Hx. apply Hc. Qed.

Lemma sourced_send c c' i ev :
  sourced c -> closed_events c = false -> closed_events c' = false -> length (ev_buf c) < eventsCap ->
  ev_buf c' = ev_buf c ++ [(i, ev)] -> ev_got c' = ev_got c -> sourced c'.
Proof.
  intros Hc Hx Hx' Hl Hb Hg fut. specialize (Hc (ev :: fut)). unfold sent, source_of in *.
  rewrite Hb, Hg, Hx', Hx in *. rewrite app_assoc, (map_app _ _ [_]), <-app_assoc. simpl.
  eapply rtc_r; [eapply rtc_r; [exact Hc|by apply (fed_source Read)]|]. apply (fed_source Send). simpl.
  by rewrite length_map, (proj2 (Nat.ltb_lt _ _) Hl), map_app.
Qed.

Lemma sourced_close c c' :
  sourced c -> closed_events c = false -> closed_events c' = true ->
  ev_buf c' = ev_buf c -> ev_got c' = ev_got c -> sourced c'.
Proof.
  intros Hc Hx Hx' Hb Hg fut. specialize (Hc fut). unfold sent, source_of in *. rewrite Hb, Hg, Hx, Hx' in *.
  eapply rtc_r; [eapply rtc_r; [exact Hc|by apply (fed_source Stop)]|]. by apply (fed_source End).
Qed.

Lemma sourced_take c c' x :
  sourced c -> closed_events c' = closed_events c ->
  ev_buf c = x :: ev_buf c' -> ev_got c' = ev_got c ++ [x] -> sourced c'.
Proof.
  intros Hc Hx Hb Hg fut. specialize (Hc fut). unfold sent, source_of in *. rewrite Hx, Hg, Hb in *.
  rewrite <-app_assoc. simpl. rewrite (map_app _ _ [_]). eapply rtc_r; [exact Hc|]. apply fed_take.
Qed.

Lemma collector_step_source l c c' : run_step l c = Some c' -> panicked c' = false -> sourced c -> sourced c'.
Proof.
  destruct c as [rs wg eb xb ce cx eg xg pn]. destruct l as [i| | | |]; cbn [run_step reader_step]; intros Hs Hp Hc.
  - destruct (rs !! i) as [[[|[ev|e] t]|]|]; [..|done|done].
    + apply (inj Some) in Hs as <-. by apply (sourced_same _ _ Hc).
    + destruct ce; [by simplify_eq/=|]. destruct (Nat.ltb_spec (length eb) eventsCap); [|done].
      apply (inj Some) in Hs as <-. by apply (sourced_send _ _ i ev Hc).
    + destruct cx; [by simplify_eq/=|]. destruct (_ <? _); [|done].
      apply (inj Some) in Hs as <-. by apply (sourced_same _ _ Hc).
  - destruct (wg =? 0), ce; try done. apply (inj Some) in Hs as <-. by apply (sourced_close _ _ Hc).
  - destruct ce, cx; try done. apply (inj Some) in Hs as <-. by apply (sourced_same _ _ Hc).
  - destruct eb as [|x eb]; [done|]. apply (inj Some) in Hs as <-. by apply (sourced_take _ _ x Hc).
  - destruct xb; [done|]. apply (inj Some) in Hs as <-. by apply (sourced_same _ _ Hc).
Qed.

Lemma collector_sourced rings c : rtc (steps_by run_step) (Collector.Run rings) c -> sourced c.
Proof.
  revert c. apply rtc_ind_r; [intros fut; apply rtc_refl|]. intros c c' Hc [l Hl] IH.
  eapply collector_step_source; [exact Hl| |exact IH].
  eapply ri_panic, run_reachable, rtc_r; [exact Hc|by exists l].
Qed.

Lemma sent_prefix rings c i rs :
  rtc (steps_by run_step) (Collector.Run rings) c -> rings !! i = Some rs ->
  from i (ev_got c ++ ev_buf c) `prefix_of` pub_events (readLoop rs).
Proof.
  intros Hc Hi. exists (pub_events (rest_of c i)).
  by rewrite from_app, <-app_assoc, (ri_events _ _ (run_reachable _ _ Hc) i rs Hi).
Qed.

(** ** record *)

Section Recording.
Context {S A B : Type} (react : S -> A -> safe (S * list B)) (flush : S -> safe (list B))
  (outCap : nat) (st0 : S).

(** The collector, the streamer's goroutine, and the loop
    [for ex := range exchanges]; nobody receives from the other channel. *)
Record recording := mkRecording {
  r_src : source A;
  r_g : stage S A B;
  r_collected : list B;
  r_ended : bool;
}.

Inductive recording_label := RSource (l : source_label) | RGoroutine | RConsume.

Definition recording_step (l : recording_label) (s : recording) : option recording :=
  let 'mkRecording src g co en := s in
  if g_panic g then None
  else
    match l with
    | RSource l => src ← source_step l src; Some (mkRecording src g co en)
    | RGoroutine =>
        '(bf, g) ← stage_step react flush outCap (buf src) (buf_closed src) g;
        Some (mkRecording (mkSource (coming src) (inflight src) (stopping src) bf (buf_closed src)) g co en)
    | RConsume =>
        if (en : bool) then None
        else
          match recv_out g with
          | Some (x, g) => Some (mkRecording src g (co ++ [x]) en)
          | None => if g_out_closed g then Some (mkRecording src g co true) else None
          end
    end.

Definition recording_start (evs : list A) : recording :=
  mkRecording (source_start evs) (stage_start st0) [] false.

(** Nothing can happen any more but that the collector is closed. *)
Definition recording_settled (s : recording) : Prop :=
  forall l, l <> RSource Stop -> recording_step l s = None.

(** No run of the goroutine's code on what it may receive panics. *)
Definition never_panics (all : list A) : Prop :=
  forall evs : list A, evs `prefix_of` all -> exists xs, output react flush st0 evs = Ok xs.

Record recording_inv (all : list A) (s : recording) : Prop := {
  rv_src : source_inv all (g_hist (r_g s)) (r_src s);
  rv_g : stage_inv react flush outCap st0 [] (r_collected s) (r_g s);
  rv_ended : r_ended s = true -> g_out_closed (r_g s) = true /\ g_out (r_g s) = [];
  rv_panic : g_panic (r_g s) = false;
  rv_over : g_over (r_g s) = true -> buf (r_src s) = [] /\ buf_closed (r_src s) = true;
}.

Lemma received_prefix (all hist : list A) s : source_inv all hist s -> received hist s `prefix_of` all.
Proof. intros [Ho _]. rewrite <-Ho. by apply prefix_app_r. Qed.

Lemma hist_prefix (all hist : list A) s : source_inv all hist s -> hist `prefix_of` all.
Proof.
  intros Hi. etrans; [|by apply received_prefix]. unfold received. by apply prefix_app_r.
Qed.

(** A step of the goroutine panics only where its code does. *)
Lemma stage_step_panic inb cl g inb' g' rawGot outGot all :
  never_panics all -> stage_inv react flush outCap st0 rawGot outGot g ->
  (forall ev bf, inb = ev :: bf -> g_hist g ++ [ev] `prefix_of` all) -> g_hist g `prefix_of` all ->
  g_panic g = false -> stage_step react flush outCap inb cl g = Some (inb', g') -> g_panic g' = false.
Proof.
  intros Hnp [_ (xs & Hx & _) _ _ _ _] Hp Hh Hpan.
  destruct g as [h st td ov rw rc ou oc pn]. simpl in *. intros Hs.
  destruct td; [|repeat case_match; by simplify_eq/=]. destruct ov; [done|].
  destruct inb as [|ev inb].
  - destruct (Hnp _ Hh) as [ys Hy]. unfold output in Hy. rewrite Hx in Hy. simpl in Hy.
    destruct cl; [|done]. destruct (flush st) as [zs|[]|]; [by simplify_eq/=|done].
  - destruct (Hnp _ (Hp ev inb eq_refl)) as [ys Hy]. unfold output in Hy.
    rewrite reactions_snoc, Hx in Hy. simpl in Hy.
    destruct (react st ev) as [[st' zs]|[]|]; [by simplify_eq/=|done].
Qed.

Lemma next_prefix (all hist : list A) ev bf s :
  source_inv all hist s -> buf s = ev :: bf -> hist ++ [ev] `prefix_of` all.
Proof.
  intros [Ho _] Hb. rewrite <-Ho. unfold received. rewrite Hb.
  exists (bf ++ option_list (inflight s) ++ coming s). by rewrite <-!app_assoc.
Qed.

(** A step of the goroutine on the collector's channel. *)
Lemma goroutine_inv all src g bf' g' rawGot outGot :
  source_inv all (g_hist g) src -> stage_inv react flush outCap st0 rawGot outGot g ->
  stage_step react flush outCap (buf src) (buf_closed src) g = Some (bf', g') -> g_panic g' = false ->
  (g_over g = true -> buf src = [] /\ buf_closed src = true) ->
  let src' := mkSource (coming src) (inflight src) (stopping src) bf' (buf_closed src) in
  source_inv all (g_hist g') src' /\ stage_inv react flush outCap st0 rawGot outGot g' /\
  (g_over g' = true -> bf' = [] /\ buf_closed src = true) /\
  (g_out_closed g = true -> g_out g = [] -> g_out_closed g' = true /\ g_out g' = []).
Proof.
  intros Hsrc Hg E Hp Hov. cbv zeta. destruct (decide (g_todo g = [])) as [Htd|Htd].
  - destruct (stage_receive_inv _ _ _ _ _ _ _ _ _ _ _ Hg Htd E Hp) as (Hg' & Hov' & Hcase).
    assert (g_out_closed g = false) as Hoc.
    { pose proof (gi_shape _ _ _ _ _ _ _ Hg) as Hs. unfold todo_shape in Hs. rewrite Hov' in Hs. apply Hs. }
    split_and!; [|exact Hg'| |congruence].
    + destruct Hcase as [(ev & Hb & -> & _)|(Hb & -> & Hcl & -> & _)].
      * destruct src as [c fl sp bf cl]. simpl in *. subst. by apply source_take.
      * destruct src as [c fl sp bf cl]. simpl in *. by subst.
    + intros Ho. destruct Hcase as [(ev & _ & _ & ?)|(_ & -> & -> & _)]; [congruence|done].
  - destruct (stage_action_inv _ _ _ _ _ _ _ _ _ _ _ Hg Htd E) as [Hg' ->].
    destruct g as [h st td ov rw rc ou oc pn]. simpl in *.
    split_and!; [..|exact Hg'| |].
    + destruct src. destruct td as [|[] td]; repeat case_match; by simplify_eq/=.
    + intros Ho. apply Hov. destruct td as [|[] td]; repeat case_match; by simplify_eq/=.
    + intros -> ->. destruct td as [|[ev|x| |] td]; repeat case_match; simplify_eq/=; try done.
      pose proof (gi_shape _ _ _ _ _ _ _ Hg) as Hs.
      by destruct (todo_send (mkStage h st (SendOut x :: td) ov rw rc [] true false) (SendOut x) td eq_refl I Hs).
Qed.

Lemma recording_step_inv all s s' :
  never_panics all -> recording_inv all s -> steps_by recording_step s s' -> recording_inv all s'.
Proof.
  intros Hnp [Hsrc Hg He Hp Hov] [l Hl]. destruct s as [src g co en]. simpl in *. rewrite Hp in Hl.
  destruct l as [l| |]; simpl in Hl.
  - destruct (source_step l src) as [src'|] eqn:E; simplify_eq/=.
    split; simpl; try done; [by eapply source_step_inv|].
    intros [Hb Hc]%Hov. by eapply source_closed_stuck in E.
  - destruct (stage_step _ _ _ _ _ _) as [[bf' g']|] eqn:E; simplify_eq/=.
    assert (g_panic g' = false) as Hp'.
    { eapply stage_step_panic; [exact Hnp|exact Hg| | |exact Hp|exact E].
      - intros ev bf Hbf. by eapply next_prefix.
      - by eapply hist_prefix. }
    destruct (goroutine_inv _ _ _ _ _ _ _ Hsrc Hg E Hp' Hov) as (Hsrc' & Hg' & Hov' & Hen).
    split; simpl; try done. intros [Hoc Hou]%He. by apply Hen.
  - destruct en; [done|]. destruct (recv_out g) as [[x g']|] eqn:E; simplify_eq/=.
    + destruct (recv_out_inv _ _ _ _ _ _ _ _ _ Hg E) as (Hg' & _ & _).
      destruct g as [h st td ov rw rc [|x' ou] oc pn]; simplify_eq/=. by split.
    + destruct g as [h st td ov rw rc [|x' ou] oc pn]; [simpl in *|done].
      destruct oc; simplify_eq/=. by split.
Qed.

Lemma recording_inv_start all : recording_inv all (recording_start all).
Proof.
  split; simpl; [by split|by apply stage_inv_start|done..].
Qed.

Lemma recording_reachable all s :
  never_panics all -> rtc (steps_by recording_step) (recording_start all) s -> recording_inv all s.
Proof.
  intros Hnp Hrun. eapply rtc_invariant; [|exact Hrun|apply recording_inv_start].
  intros x y Hx Hy. by eapply recording_step_inv.
Qed.

(** ** It ends *)

Definition recording_work (s : recording) : list nat :=
  [source_work (r_src s); input_work (buf (r_src s)) (r_g s); length (g_todo (r_g s));
   length (g_out (r_g s)); if r_ended s then 0 else 1].

Lemma recording_step_work s s' :
  steps_by recording_step s s' -> lex_lt (recording_work s') (recording_work s).
Proof.
  intros [l Hl]. destruct s as [src g co en]. simpl in Hl. destruct (g_panic g); [done|].
  destruct l as [l| |]; simpl in Hl.
  - destruct (source_step l src) as [src'|] eqn:E; simplify_eq/=.
    apply source_step_work in E. left. split; [done|reflexivity].
  - destruct (stage_step _ _ _ _ _ _) as [[bf' g']|] eqn:E; simplify_eq/=.
    apply stage_step_work in E. right. split; [by destruct src|]. simpl in *. lia.
  - destruct en; [done|].
    destruct g as [h st td ov rw rc [|x ou] oc pn]; simpl in *; [destruct oc; [|done]|];
      simplify_eq/=; (right; split; [done|]); unfold input_work; simpl; lia.
Qed.

Lemma recording_sn s : sn (steps_by recording_step) s.
Proof.
  apply (lex_sn _ (fun _ => True) recording_work); [|done].
  intros ? ? _ Hs. split; [done|by apply recording_step_work].
Qed.

(** ** Where it ends *)

Lemma out_closed_over rawGot outGot g :
  stage_inv react flush outCap st0 rawGot outGot g -> g_out_closed g = true ->
  g_over g = true /\ raws (g_todo g) = [].
Proof.
  intros Hg Hoc. pose proof (gi_shape _ _ _ _ _ _ _ Hg) as Hs. unfold todo_shape in Hs.
  destruct (g_over g); [|destruct Hs; congruence]. split; [done|]. by eapply shape_out_nil.
Qed.

(** Once the loop is over, the collector has been closed and nothing is left. *)
Lemma over_received all s :
  recording_inv all s -> g_over (r_g s) = true ->
  stopping (r_src s) = true /\ received (g_hist (r_g s)) (r_src s) = g_hist (r_g s).
Proof.
  intros Hi Ho. destruct (rv_over _ _ Hi Ho) as [Hb Hc].
  destruct (si_closed _ _ _ (rv_src _ _ Hi) Hc) as [Hs Hf]. split; [done|].
  unfold received. rewrite Hb, Hf. by rewrite app_nil_r.
Qed.

Lemma unread_hist outGot g :
  stage_inv react flush outCap st0 [] outGot g -> raws (g_todo g) = [] -> length (g_hist g) <= rawCap.
Proof.
  intros [Hr _ _ _ Hcap _] Ht. rewrite Ht, app_nil_r in Hr. simpl in Hr. by rewrite <-Hr.
Qed.

(** More events than the unread channel holds are never collected. *)
Lemma recording_overflow all s :
  recording_inv all s -> rawCap < length (received (g_hist (r_g s)) (r_src s)) -> r_ended s = false.
Proof.
  intros Hi Hl. destruct (r_ended s) eqn:He; [|done]. destruct (rv_ended _ _ Hi He) as [Hoc _].
  destruct (out_closed_over _ _ _ (rv_g _ _ Hi) Hoc) as [Ho Hr].
  destruct (over_received _ _ Hi Ho) as [_ Hrec]. rewrite Hrec in Hl.
  pose proof (unread_hist _ _ (rv_g _ _ Hi) Hr). lia.
Qed.

(** A settled recording has ended, or waits for the kernel with everything
    collected so far, or is stuck on the unread channel. *)
Lemma recording_settled_cases all s :
  0 < outCap -> recording_inv all s -> recording_settled s ->
  let evs := received (g_hist (r_g s)) (r_src s) in
  rawCap < length evs \/
  length evs <= rawCap /\
  if stopping (r_src s) then r_ended s = true /\ output react flush st0 evs = Ok (r_collected s)
  else evs = all /\ r_ended s = false /\ exists st, reactions react st0 evs = Ok (st, r_collected s).
Proof.
  intros Hcap0 Hi Hset. cbv zeta. pose proof (rv_g _ _ Hi) as Hg.
  assert (stage_step react flush outCap (buf (r_src s)) (buf_closed (r_src s)) (r_g s) = None) as Hgo.
  { pose proof (Hset RGoroutine ltac:(done)) as H. destruct s as [src g co en].
    pose proof (rv_panic _ _ Hi) as Hp. simpl in *. rewrite Hp in H. by destruct (stage_step _ _ _ _ _ _) as [[]|]. }
  assert (r_ended s = true \/ (g_out (r_g s) = [] /\ g_out_closed (r_g s) = false)) as Hco.
  { pose proof (Hset RConsume ltac:(done)) as H. destruct s as [src g co en].
    pose proof (rv_panic _ _ Hi) as Hp. simpl in *. rewrite Hp in H. destruct en; [by left|right].
    destruct g as [h st td ov rw rc [|x ou] [] pn]; by simpl in *. }
  assert (g_out (r_g s) = []) as Hout.
  { destruct Hco as [He|[? _]]; [|done]. by apply (rv_ended _ _ Hi). }
  destruct (stage_blocked _ _ _ _ _ _ Hgo) as [Ho Ht|Ho Ht Hb Hc|ev td Ht Hr|x td Ht Hr].
  - right. destruct (stage_drained _ _ _ _ _ _ _ Hg Ht Hout) as (xs & _ & _ & Hend & _).
    destruct (over_received _ _ Hi Ho) as [Hs Hrec]. rewrite Hrec, Hs.
    split; [by eapply unread_hist; [|rewrite Ht]|]. split; [|by apply Hend]. destruct Hco as [?|[_ Hoc]]; [done|].
    pose proof (gi_shape _ _ _ _ _ _ _ Hg) as Hs'. unfold todo_shape in Hs'. rewrite Ho, Ht, Hoc in Hs'.
    by apply shape_nonempty in Hs'.
  - right. destruct (stage_drained _ _ _ _ _ _ _ Hg Ht Hout) as (xs & Hx & Hrea & _).
    specialize (Hrea Ho). subst xs.
    destruct (source_settled (r_src s)) as [Hf Hst]; [|done|].
    { intros l Hl. pose proof (Hset (RSource l) ltac:(congruence)) as H. destruct s as [src g co en].
      pose proof (rv_panic _ _ Hi) as Hp. simpl in *. rewrite Hp in H. by destruct (source_step l src). }
    destruct (stopping (r_src s)) eqn:Hs; [congruence|].
    assert (received (g_hist (r_g s)) (r_src s) = g_hist (r_g s)) as Hrec
      by (unfold received; rewrite Hb, Hf; by rewrite app_nil_r).
    pose proof (si_order _ _ _ (rv_src _ _ Hi)) as Hall. rewrite Hst, app_nil_r in Hall.
    rewrite Hrec in *. split; [by eapply unread_hist; [|rewrite Ht]|]. split_and!; [done| |by eexists].
    destruct (r_ended s) eqn:He; [|done]. destruct (rv_ended _ _ Hi He) as [Hoc _].
    destruct (out_closed_over _ _ _ Hg Hoc). congruence.
  - left. pose proof (gi_raw _ _ _ _ _ _ _ Hg) as Hraw. rewrite Ht in Hraw. unfold received.
    rewrite <-Hraw. simpl. rewrite !length_app. simpl. lia.
  - rewrite Hout in Hr. simpl in Hr. lia.
Qed.

End Recording.

(** ** trace *)

Section Tracing.
Context {S1 S2 A B1 B2 : Type}
  (react1 : S1 -> A -> safe (S1 * list B1)) (flush1 : S1 -> safe (list B1)) (cap1 : nat) (init1 : S1)
  (react2 : S2 -> A -> safe (S2 * list B2)) (flush2 : S2 -> safe (list B2)) (cap2 : nat) (init2 : S2).

(** The collector, the correlator's goroutine, the streamer's behind it, and
    what the TUI has received on its three channels. *)
Record tracing := mkTracing {
  t_src : source A;
  t_g1 : stage S1 A B1;
  t_g2 : stage S2 A B2;
  t_raw : list A;
  t_conns : list B1;
  t_exchanges : list B2;
}.

Inductive tracing_label :=
| TSource (l : source_label) | TFirst | TSecond | TRecvRaw | TRecvConn | TRecvExchange.

Definition set_raw (rw : list A) (g : stage S1 A B1) : stage S1 A B1 :=
  mkStage (g_hist g) (g_st g) (g_todo g) (g_over g) rw (g_raw_closed g) (g_out g) (g_out_closed g)
    (g_panic g).

Definition tracing_step (l : tracing_label) (s : tracing) : option tracing :=
  let 'mkTracing src g1 g2 rg cs es := s in
  if g_panic g1 || g_panic g2 then None
  else
    match l with
    | TSource l => src ← source_step l src; Some (mkTracing src g1 g2 rg cs es)
    | TFirst =>
        '(bf, g1) ← stage_step react1 flush1 cap1 (buf src) (buf_closed src) g1;
        Some (mkTracing (mkSource (coming src) (inflight src) (stopping src) bf (buf_closed src))
                g1 g2 rg cs es)
    | TSecond =>
        '(bf, g2) ← stage_step react2 flush2 cap2 (g_raw g1) (g_raw_closed g1) g2;
        Some (mkTracing src (set_raw bf g1) g2 rg cs es)
    | TRecvRaw => '(ev, g2) ← recv_raw g2; Some (mkTracing src g1 g2 (rg ++ [ev]) cs es)
    | TRecvConn => '(c, g1) ← recv_out g1; Some (mkTracing src g1 g2 rg (cs ++ [c]) es)
    | TRecvExchange => '(ex, g2) ← recv_out g2; Some (mkTracing src g1 g2 rg cs (es ++ [ex]))
    end.

Definition tracing_start (evs : list A) : tracing :=
  mkTracing (source_start evs) (stage_start init1) (stage_start init2) [] [] [].

Definition tracing_settled (s : tracing) : Prop := forall l, l <> TSource Stop -> tracing_step l s = None.

Record tracing_inv (all : list A) (s : tracing) : Prop := {
  tv_src : source_inv all (g_hist (t_g1 s)) (t_src s);
  tv_g1 : stage_inv react1 flush1 cap1 init1 (g_hist (t_g2 s)) (t_conns s) (t_g1 s);
  tv_g2 : stage_inv react2 flush2 cap2 init2 (t_raw s) (t_exchanges s) (t_g2 s);
  tv_panic1 : g_panic (t_g1 s) = false;
  tv_panic2 : g_panic (t_g2 s) = false;
  tv_over1 : g_over (t_g1 s) = true -> buf (t_src s) = [] /\ buf_closed (t_src s) = true;
  tv_over2 : g_over (t_g2 s) = true -> g_raw (t_g1 s) = [] /\ g_raw_closed (t_g1 s) = true;
}.

Lemma tracing_inv_start all : tracing_inv all (tracing_start all).
Proof. split; simpl; [by split|by apply stage_inv_start|by apply stage_inv_start|done..]. Qed.

(** A goroutine that has closed its channel does nothing more. *)
Lemma raw_closed_stuck rawGot outGot inb cl g :
  stage_inv react1 flush1 cap1 init1 rawGot outGot g -> g_raw_closed g = true ->
  stage_step react1 flush1 cap1 inb cl g = None.
Proof.
  intros Hg Hc. apply (gi_closed _ _ _ _ _ _ _ Hg) in Hc as [Ho Ht].
  destruct g as [h st td ov rw rc ou oc pn]. simpl in *. by subst.
Qed.

(** The second goroutine's steps take from the first one's channel. *)
Lemma second_inv g1 g2 bf g2' conns rawGot outGot :
  stage_inv react1 flush1 cap1 init1 (g_hist g2) conns g1 ->
  stage_inv react2 flush2 cap2 init2 rawGot outGot g2 ->
  stage_step react2 flush2 cap2 (g_raw g1) (g_raw_closed g1) g2 = Some (bf, g2') -> g_panic g2' = false ->
  (g_over g2 = true -> g_raw g1 = [] /\ g_raw_closed g1 = true) ->
  stage_inv react1 flush1 cap1 init1 (g_hist g2') conns (set_raw bf g1) /\
  stage_inv react2 flush2 cap2 init2 rawGot outGot g2' /\
  (g_over g2' = true -> bf = [] /\ g_raw_closed g1 = true).
Proof.
  intros Hg1 Hg2 E Hp Hov. destruct (decide (g_todo g2 = [])) as [Htd|Htd].
  - destruct (stage_receive_inv _ _ _ _ _ _ _ _ _ _ _ Hg2 Htd E Hp) as (Hg2' & Hov' & Hcase).
    destruct g1 as [h st td ov rw rc ou oc pn]. simpl in *.
    split; [|split; [exact Hg2'|]].
    + destruct Hcase as [(ev & -> & -> & _)|(-> & -> & _ & -> & _)]; [|exact Hg1].
      by destruct (recv_raw_inv _ _ _ _ _ _ _ ev (mkStage h st td ov bf rc ou oc pn) Hg1 eq_refl).
    + intros Ho. destruct Hcase as [(ev & _ & _ & ?)|(_ & -> & -> & _)]; [congruence|done].
  - destruct (stage_action_inv _ _ _ _ _ _ _ _ _ _ _ Hg2 Htd E) as [Hg2' ->].
    assert (g_hist g2' = g_hist g2 /\ g_over g2' = g_over g2) as [-> ->].
    { destruct g2 as [h st td ov rw rc ou oc pn]. simpl in *.
      destruct td as [|[] td]; repeat case_match; by simplify_eq/=. }
    destruct g1. by split_and!.
Qed.

Lemma tracing_step_inv all s s' :
  never_panics react1 flush1 init1 all -> never_panics react2 flush2 init2 all ->
  tracing_inv all s -> steps_by tracing_step s s' -> tracing_inv all s'.
Proof.
  intros Hnp1 Hnp2 Hi [l Hl]. pose proof Hi as [Hsrc Hg1 Hg2 Hp1 Hp2 Hov1 Hov2].
  destruct s as [src g1 g2 rg cs es]. simpl in *. rewrite Hp1, Hp2 in Hl. simpl in Hl.
  destruct l as [l| | | | |].
  - destruct (source_step l src) as [src'|] eqn:E; simplify_eq/=.
    split; simpl; try done; [by eapply source_step_inv|].
    intros [Hb Hc]%Hov1. by eapply source_closed_stuck in E.
  - destruct (stage_step _ _ _ _ _ g1) as [[bf' g1']|] eqn:E; simplify_eq/=.
    assert (g_panic g1' = false) as Hp'.
    { eapply stage_step_panic; [exact Hnp1|exact Hg1| | |exact Hp1|exact E].
      - intros ev bf Hbf. by eapply next_prefix.
      - by eapply hist_prefix. }
    destruct (goroutine_inv _ _ _ _ _ _ _ _ _ _ _ Hsrc Hg1 E Hp' Hov1) as (Hsrc' & Hg' & Hov' & _).
    split; simpl; try done. intros [_ Hc]%Hov2.
    by rewrite (raw_closed_stuck _ _ _ _ _ Hg1 Hc) in E.
  - destruct (stage_step _ _ _ _ _ g2) as [[bf' g2']|] eqn:E; simplify_eq/=.
    assert (g_hist g2 ++ g_raw g1 `prefix_of` all) as Hpre.
    { etrans; [|by eapply hist_prefix]. rewrite <-(gi_raw _ _ _ _ _ _ _ Hg1).
      exists (raws (g_todo g1)). by rewrite <-app_assoc. }
    assert (g_panic g2' = false) as Hp'.
    { eapply stage_step_panic; [exact Hnp2|exact Hg2| | |exact Hp2|exact E].
      - intros ev bf Hbf. etrans; [|exact Hpre]. rewrite Hbf. exists bf. by rewrite <-app_assoc.
      - etrans; [|exact Hpre]. by apply prefix_app_r. }
    destruct (second_inv _ _ _ _ _ _ _ Hg1 Hg2 E Hp' Hov2) as (Hg1' & Hg2' & Hov').
    by split.
  - destruct (recv_raw g2) as [[ev g2']|] eqn:E; simplify_eq/=.
    destruct (recv_raw_inv _ _ _ _ _ _ _ _ _ Hg2 E) as (Hg2' & _ & _).
    destruct g2 as [h st td ov [|x rw] rc ou oc pn]; simplify_eq/=. by split.
  - destruct (recv_out g1) as [[c g1']|] eqn:E; simplify_eq/=.
    destruct (recv_out_inv _ _ _ _ _ _ _ _ _ Hg1 E) as (Hg1' & _ & _).
    destruct g1 as [h st td ov rw rc [|x ou] oc pn]; simplify_eq/=. by split.
  - destruct (recv_out g2) as [[ex g2']|] eqn:E; simplify_eq/=.
    destruct (recv_out_inv _ _ _ _ _ _ _ _ _ Hg2 E) as (Hg2' & _ & _).
    destruct g2 as [h st td ov rw rc [|x ou] oc pn]; simplify_eq/=. by split.
Qed.

Lemma tracing_reachable all s :
  never_panics react1 flush1 init1 all -> never_panics react2 flush2 init2 all ->
  rtc (steps_by tracing_step) (tracing_start all) s -> tracing_inv all s.
Proof.
  intros Hnp1 Hnp2 Hrun. eapply rtc_invariant; [|exact Hrun|apply tracing_inv_start].
  intros x y Hx Hy. by eapply tracing_step_inv.
Qed.

(** *** It ends *)

Definition tracing_work (s : tracing) : list nat :=
  [source_work (t_src s); input_work (buf (t_src s)) (t_g1 s); length (g_todo (t_g1 s));
   input_work (g_raw (t_g1 s)) (t_g2 s); length (g_todo (t_g2 s));
   length (g_out (t_g1 s)) + length (g_raw (t_g2 s)) + length (g_out (t_g2 s))].

Lemma tracing_step_work s s' : steps_by tracing_step s s' -> lex_lt (tracing_work s') (tracing_work s).
Proof.
  intros [l Hl]. destruct s as [src g1 g2 rg cs es]. simpl in Hl. destruct (_ || _); [done|].
  destruct l as [l| | | | |]; simpl in Hl.
  - destruct (source_step l src) as [src'|] eqn:E; simplify_eq/=.
    apply source_step_work in E. left. split; [done|reflexivity].
  - destruct (stage_step _ _ _ _ _ g1) as [[bf' g1']|] eqn:E; simplify_eq/=.
    apply stage_step_work in E. right. split; [by destruct src|]. simpl in *. lia.
  - destruct (stage_step _ _ _ _ _ g2) as [[bf' g2']|] eqn:E; simplify_eq/=.
    apply stage_step_work in E. do 3 (right; split; [done|]). simpl in *. lia.
  - destruct g2 as [h st td ov [|x rw] rc ou oc pn]; simplify_eq/=.
    do 5 (right; split; [done|]). simpl. lia.
  - destruct g1 as [h st td ov rw rc [|x ou] oc pn]; simplify_eq/=.
    do 5 (right; split; [done|]). simpl. lia.
  - destruct g2 as [h st td ov rw rc [|x ou] oc pn]; simplify_eq/=.
    do 5 (right; split; [done|]). simpl. lia.
Qed.

Lemma tracing_sn s : sn (steps_by tracing_step) s.
Proof.
  apply (lex_sn _ (fun _ => True) tracing_work); [|done].
  intros ? ? _ Hs. split; [done|by apply tracing_step_work].
Qed.

(** *** Where it ends *)

Record quiet (s : tracing) : Prop := {
  q_source l : l <> Stop -> source_step l (t_src s) = None;
  q_first : stage_step react1 flush1 cap1 (buf (t_src s)) (buf_closed (t_src s)) (t_g1 s) = None;
  q_second :
    stage_step react2 flush2 cap2 (g_raw (t_g1 s)) (g_raw_closed (t_g1 s)) (t_g2 s) = None;
  q_conns : g_out (t_g1 s) = [];
  q_raw : g_raw (t_g2 s) = [];
  q_exchanges : g_out (t_g2 s) = [];
}.

Lemma tracing_settled_quiet all s : tracing_inv all s -> tracing_settled s -> quiet s.
Proof.
  intros Hi Hset. pose proof (tv_panic1 _ _ Hi) as Hp1. pose proof (tv_panic2 _ _ Hi) as Hp2.
  assert (forall l, l <> TSource Stop -> tracing_step l s = None) as Hl by done. clear Hset Hi.
  destruct s as [src g1 g2 rg cs es]. simpl in *. rewrite Hp1, Hp2 in Hl. simpl in Hl.
  pose proof (Hl TFirst ltac:(done)) as H1. pose proof (Hl TSecond ltac:(done)) as H2.
  pose proof (Hl TRecvRaw ltac:(done)) as H3. pose proof (Hl TRecvConn ltac:(done)) as H4.
  pose proof (Hl TRecvExchange ltac:(done)) as H5. simpl in *. split; simpl.
  - intros l Hne. pose proof (Hl (TSource l) ltac:(congruence)) as H. simpl in H.
    by destruct (source_step l src).
  - by destruct (stage_step _ _ _ _ _ g1) as [[]|].
  - by destruct (stage_step _ _ _ _ _ g2) as [[]|].
  - by destruct g1 as [? ? ? ? ? ? [] ? ?].
  - by destruct g2 as [? ? ? ? [] ? ? ? ?].
  - by destruct g2 as [? ? ? ? ? ? [] ? ?].
Qed.

(** A settled trace has delivered everything it has received: to the end when
    the collector is closed, and otherwise it waits for the kernel. *)
Lemma tracing_settled_cases all s :
  0 < cap1 -> 0 < cap2 -> tracing_inv all s -> tracing_settled s ->
  let evs := received (g_hist (t_g1 s)) (t_src s) in
  t_raw s = evs /\
  if stopping (t_src s) then
    output react1 flush1 init1 evs = Ok (t_conns s) /\ output react2 flush2 init2 evs = Ok (t_exchanges s) /\
    g_out_closed (t_g1 s) = true /\ g_out_closed (t_g2 s) = true /\ g_raw_closed (t_g2 s) = true
  else
    evs = all /\ (exists st, reactions react1 init1 evs = Ok (st, t_conns s)) /\
    (exists st, reactions react2 init2 evs = Ok (st, t_exchanges s)).
Proof.
  intros Hc1 Hc2 Hi Hset. cbv zeta. destruct (tracing_settled_quiet _ _ Hi Hset) as [Qs Q1 Q2 Qc Qr Qe].
  destruct Hi as [Hsrc Hg1 Hg2 _ _ Hov1 Hov2].
  apply stage_blocked in Q1, Q2.
  assert (g_todo (t_g2 s) = [] /\ (g_over (t_g2 s) = true \/
    g_over (t_g2 s) = false /\ g_raw_closed (t_g1 s) = false) /\ g_raw (t_g1 s) = []) as (T2 & O2 & R1).
  { destruct Q2 as [Ho Ht|Ho Ht Hb Hcl|ev td Ht Hr|x td Ht Hr].
    - split_and!; [done|by left|by apply Hov2].
    - by auto.
    - rewrite Qr in Hr. simpl in Hr. unfold rawCap in Hr. lia.
    - rewrite Qe in Hr. simpl in Hr. lia. }
  destruct (stage_drained _ _ _ _ _ _ _ Hg2 T2 Qe) as (xs2 & Hx2 & Hw2 & He2 & Hraw2).
  assert (g_todo (t_g1 s) = []) as T1.
  { destruct Q1 as [Ho Ht|Ho Ht Hb Hcl|ev td Ht Hr|x td Ht Hr]; [done..| |].
    - rewrite R1 in Hr. simpl in Hr. unfold rawCap in Hr. lia.
    - rewrite Qc in Hr. simpl in Hr. lia. }
  destruct (stage_drained _ _ _ _ _ _ _ Hg1 T1 Qc) as (xs1 & Hx1 & Hw1 & He1 & Hraw1).
  specialize (Hraw1 R1). specialize (Hraw2 Qr). rewrite Hraw1 in *.
  destruct Q1 as [Ho _|Ho _ Hb Hcl|? ? ?|? ? ?]; [| |congruence..].
  - destruct (Hov1 Ho) as [Hb Hcl]. destruct (si_closed _ _ _ Hsrc Hcl) as [Hs Hf].
    assert (received (g_hist (t_g1 s)) (t_src s) = g_hist (t_g1 s)) as ->
      by (unfold received; rewrite Hb, Hf; by rewrite app_nil_r).
    rewrite Hs. assert (g_raw_closed (t_g1 s) = true) as Hrc
      by (by apply (gi_closed _ _ _ _ _ _ _ Hg1)).
    destruct O2 as [O2|[_ ?]]; [|congruence]. split_and!; auto.
    + by eapply done_closed.
    + by eapply done_closed.
    + by apply (gi_closed _ _ _ _ _ _ _ Hg2).
  - destruct (source_settled (t_src s) Qs Hb) as [Hf Hst].
    assert (received (g_hist (t_g1 s)) (t_src s) = g_hist (t_g1 s)) as Hrec
      by (unfold received; rewrite Hb, Hf; by rewrite app_nil_r).
    destruct (stopping (t_src s)); [congruence|].
    pose proof (si_order _ _ _ Hsrc) as Hall. rewrite Hst, app_nil_r in Hall. rewrite Hrec in *.
    assert (g_over (t_g2 s) = false) as O2'.
    { destruct O2 as [O2|[? _]]; [|done]. destruct (Hov2 O2) as [_ Hrc].
      apply (gi_closed _ _ _ _ _ _ _ Hg1) in Hrc as [? _]. congruence. }
    rewrite (Hw1 Ho), (Hw2 O2'). split_and!; eauto.
Qed.

End Tracing.

(** ** The program's goroutines *)

Section Programs.
Context `{Unicode, NetHTTP} (order : list (Streamer.key * connBufs) -> list (Streamer.key * connBufs))
  (timeOf : Event -> Time) (commOf : Z -> Z -> bytes).

Definition streamer_flush (bufs : gmap Streamer.key connBufs) : safe (list Exchange) :=
  Streamer.flush (order (map_to_list bufs)).

Definition correlator_react (st : Correlator.state) (ev : Event) : safe (Correlator.state * list Connection) :=
  Ok (Correlator.step timeOf commOf st ev).
Definition correlator_flush (st : Correlator.state) : safe (list Connection) := Ok [].

(** [make(chan Connection, 64)] *)
Definition connCap : nat := 64.

(** What main.go builds: [record] and [trace]. *)
Definition record_step := recording_step Streamer.step streamer_flush outCap.
Definition record_start (evs : list Event) := recording_start (B := Exchange) (∅ : gmap Streamer.key connBufs) evs.

Definition trace_step :=
  tracing_step correlator_react correlator_flush connCap Streamer.step streamer_flush outCap.
Definition trace_start (evs : list Event) :=
  tracing_start (B1 := Connection) (B2 := Exchange) Correlator.init (∅ : gmap Streamer.key connBufs) evs.

(** *** The reactions are the components' runs *)

Lemma streamer_reactions evs bufs :
  Streamer.loop bufs evs = let? (bufs, outs) := reactions Streamer.step bufs evs in Ok (bufs, evs, outs).
Proof.
  revert bufs. induction evs as [|ev evs IH]; intros bufs; [done|]. simpl.
  destruct (Streamer.step bufs ev) as [[bufs1 out]|[]|]; [simpl|done]. rewrite IH.
  by destruct (reactions Streamer.step bufs1 evs) as [[bufs2 outs]|[]|].
Qed.

Lemma streamer_output evs :
  Streamer.Run order evs = let? exs := output Streamer.step streamer_flush ∅ evs in Ok (evs, exs).
Proof.
  unfold Streamer.Run, output, streamer_flush. rewrite streamer_reactions.
  destruct (reactions Streamer.step ∅ evs) as [[bufs outs]|[]|]; [simpl|done].
  by destruct (Streamer.flush _) as [|[]|].
Qed.

Lemma streamer_output_Ok evs exs :
  output Streamer.step streamer_flush ∅ evs = Ok exs <-> Streamer.Run order evs = Ok (evs, exs).
Proof. rewrite streamer_output. destruct (output _ _ _ _) as [xs|[]|]; simpl; naive_solver. Qed.

Lemma correlator_reactions evs st :
  exists st' conns, reactions correlator_react st evs = Ok (st', conns) /\
    Correlator.loop timeOf commOf st evs = (st', evs, conns).
Proof.
  revert st. induction evs as [|ev evs IH]; intros st; [by exists st, []|]. simpl.
  destruct (Correlator.step timeOf commOf st ev) as [st1 out] eqn:E. simpl.
  destruct (IH st1) as (st' & conns & -> & ->). simpl. by eexists _, _.
Qed.

Lemma correlator_reactions_Run evs :
  exists st, reactions correlator_react Correlator.init evs = Ok (st, (Correlator.Run timeOf commOf evs).2).
Proof.
  destruct (correlator_reactions evs Correlator.init) as (st & conns & Hr & Hl).
  exists st. unfold Correlator.Run. by rewrite Hl, Hr.
Qed.

Lemma correlator_never_panics all :
  never_panics correlator_react correlator_flush Correlator.init all.
Proof.
  intros evs _. destruct (correlator_reactions_Run evs) as [st Hr]. unfold output. rewrite Hr. by eexists.
Qed.

(** The streamer survives everything it may receive. *)
Definition streamer_survives (all : list Event) : Prop :=
  forall evs, evs `prefix_of` all -> exists exs, Streamer.Run order evs = Ok (evs, exs).

Lemma streamer_never_panics all :
  streamer_survives all -> never_panics Streamer.step streamer_flush ∅ all.
Proof. intros Hs evs [exs Hr]%Hs. exists exs. by apply streamer_output_Ok. Qed.

Lemma trace_settles all s :
  tracing_inv correlator_react correlator_flush connCap Correlator.init
    Streamer.step streamer_flush outCap ∅ all s ->
  tracing_settled correlator_react correlator_flush connCap Streamer.step streamer_flush outCap s ->
  let evs := received (g_hist (t_g1 s)) (t_src s) in
  t_raw s = evs /\ t_conns s = (Correlator.Run timeOf commOf evs).2 /\
  if stopping (t_src s) then
    Streamer.Run order evs = Ok (evs, t_exchanges s) /\
    g_out_closed (t_g1 s) = true /\ g_out_closed (t_g2 s) = true /\ g_raw_closed (t_g2 s) = true
  else
    evs = all /\ exists bufs, Streamer.loop ∅ evs = Ok (bufs, evs, t_exchanges s).
Proof.
  intros Hi Hset. cbv zeta.
  destruct (tracing_settled_cases _ _ connCap _ _ _ outCap _ all s ltac:(unfold connCap; lia)
    ltac:(unfold outCap; lia) Hi Hset) as [Hraw Hcase].
  destruct (correlator_reactions_Run (received (g_hist (t_g1 s)) (t_src s))) as [st Hc].
  split; [done|]. destruct (stopping (t_src s)).
  - destruct Hcase as (Ho1 & Ho2 & Hcl). split; [|split; [by apply streamer_output_Ok|done]].
    unfold output in Ho1. rewrite Hc in Ho1. simpl in Ho1. rewrite app_nil_r in Ho1. congruence.
  - destruct Hcase as (Hall & [st' Hc'] & [bufs Hb]). rewrite Hc in Hc'.
    split; [congruence|]. split; [done|]. exists bufs. by rewrite streamer_reactions, Hb.
Qed.

(** When everything has stopped after the collector was closed. *)
Lemma record_ends all s :
  streamer_survives all -> rtc (steps_by record_step) (record_start all) s ->
  let evs := received (g_hist (r_g s)) (r_src s) in
  recording_settled Streamer.step streamer_flush outCap s -> length evs <= rawCap ->
  evs `prefix_of` all /\
  if stopping (r_src s) then r_ended s = true /\ Streamer.Run order evs = Ok (evs, r_collected s)
  else r_ended s = false /\ evs = all.
Proof.
  intros Hs%streamer_never_panics Hrun. cbv zeta. intros Hset Hlen.
  pose proof (recording_reachable _ _ _ _ _ _ Hs Hrun) as Hi.
  split; [by eapply received_prefix, rv_src|].
  destruct (recording_settled_cases _ _ outCap _ all s ltac:(unfold outCap; lia) Hi Hset) as [?|[_ Hcase]]; [lia|].
  destruct (stopping (r_src s)); [|naive_solver]. destruct Hcase as [He Ho].
  split; [done|]. by apply streamer_output_Ok.
Qed.

(** ** Theorems *)

(** [C17] The collector of the live programs is a source: with any number of ring
    buffers, decodable records or not, every reachable state of [Run]'s
    goroutines and channels is one the source reaches, for whatever may still
    come - the same items waiting in the channel, the same received, the channel
    closed at the same time - and what has been sent is, for each ring buffer,
    the first of its events in their order. *)
Theorem collector_source rings c :
  rtc (steps_by run_step) (Collector.Run rings) c ->
  (forall fut, rtc fed (source_start (sent c ++ fut), []) (source_of fut c, map snd (ev_got c))) /\
  (forall i rs, rings !! i = Some rs ->
     from i (ev_got c ++ ev_buf c) `prefix_of` pub_events (readLoop rs)).
Proof.
  intros Hc. split; [by eapply collector_sourced|]. intros i rs. by apply sent_prefix.
Qed.

(** [C6] [record] while the process runs, Ctrl-C included: every schedule of
    arrivals, goroutines and the interrupt is finite.  When nothing more can
    happen after the collector was closed, the loop over [exchanges] has ended
    exactly if at most 64 events have been read, and has then collected what
    the streamer makes of them; with a 65th event it never ends, however often
    Ctrl-C is pressed - the handler has consumed the first and nothing reads
    the others.  Until the collector is closed and short of the 65th event
    everything the kernel reports is taken. *)
Theorem record_interrupted all s :
  streamer_survives all -> rtc (steps_by record_step) (record_start all) s ->
  let evs := received (g_hist (r_g s)) (r_src s) in
  sn (steps_by record_step) s /\ evs `prefix_of` all /\
  (rawCap < length evs -> r_ended s = false) /\
  (recording_settled Streamer.step streamer_flush outCap s -> length evs <= rawCap ->
   if stopping (r_src s) then
     r_ended s = true /\ Streamer.Run order evs = Ok (evs, r_collected s)
   else r_ended s = false /\ evs = all).
Proof.
  intros Hs Hrun. cbv zeta.
  pose proof (recording_reachable _ _ _ _ _ _ (streamer_never_panics _ Hs) Hrun) as Hi.
  split_and!; [apply recording_sn|by eapply received_prefix, rv_src|by eapply recording_overflow|].
  intros Hset Hlen. by apply (record_ends all s).
Qed.

(** [trace] while the process runs: every schedule is finite, and whenever
    nothing more can happen but that the collector is closed, the TUI's three
    channels have delivered, complete and in order, the events read so far, the
    correlator's snapshots of them, and the exchanges of the connections closed
    so far; after the close, all exchanges with the final flush, all three
    channels closed.  No pair of bounded channels ever deadlocks. *)
Theorem trace_delivers_live all s :
  streamer_survives all -> rtc (steps_by trace_step) (trace_start all) s ->
  let evs := received (g_hist (t_g1 s)) (t_src s) in
  sn (steps_by trace_step) s /\ evs `prefix_of` all /\
  (tracing_settled correlator_react correlator_flush connCap Streamer.step streamer_flush outCap s ->
   t_raw s = evs /\ t_conns s = (Correlator.Run timeOf commOf evs).2 /\
   if stopping (t_src s) then
     Streamer.Run order evs = Ok (evs, t_exchanges s) /\
     g_out_closed (t_g1 s) = true /\ g_out_closed (t_g2 s) = true /\ g_raw_closed (t_g2 s) = true
   else
     evs = all /\ exists bufs, Streamer.loop ∅ evs = Ok (bufs, evs, t_exchanges s)).
Proof.
  intros Hs%streamer_never_panics Hrun. cbv zeta.
  pose proof (tracing_reachable _ _ _ _ _ _ _ _ _ _ (correlator_never_panics all) Hs Hrun) as Hi.
  split_and!; [apply tracing_sn|by eapply received_prefix, tv_src|]. by apply trace_settles.
Qed.

End Programs.

(** ** Witnesses *)

Definition survives_all `{Unicode, NetHTTP} order (all : list Event) : bool :=
  forallb (fun n => match Streamer.Run order (take n all) with Ok _ => true | _ => false end)
    (seq 0 (S (length all))).

Lemma survives_all_ok `{Unicode, NetHTTP} order all :
  survives_all order all = true -> streamer_survives order all.
Proof.
  intros Hs evs [rest ->]. unfold survives_all in Hs. rewrite forallb_forall in Hs.
  assert (In (length evs) (seq 0 (S (length (evs ++ rest))))) as Hin
    by (apply in_seq; rewrite length_app; lia).
  specialize (Hs (length evs) Hin). rewrite take_app_length in Hs.
  rewrite streamer_output in *. by destruct (output _ _ _ _) as [exs|[]|]; [exists exs|..].
Qed.

(** Two ring buffers, the second with a record that does not decode. *)
Definition sample_rings : list (list read_result) :=
  [[Record_ (replicate 4152 Byte.x00); Record_ (replicate 4152 Byte.x01); ErrClosed];
   [Record_ (replicate 4152 Byte.x02); Record_ []; ErrRead]].

Lemma collector_source_witness :
  let c := run_any run_step [LReader 1; LReader 0; LRecvEvent; LReader 1; LRecvErr; LReader 0; LReader 1; LReader 1;
                             LReader 0; LCloseEvents] (Collector.Run sample_rings) in
  map fst (ev_got c ++ ev_buf c) = [1; 0; 0] /\ closed_events c = true /\
  (forall fut, rtc fed (source_start (sent c ++ fut), []) (source_of fut c, map snd (ev_got c))) /\
  (forall i rs, sample_rings !! i = Some rs ->
     from i (ev_got c ++ ev_buf c) `prefix_of` pub_events (readLoop rs)).
Proof.
  cbv zeta. split; [run|split; [run|]]. apply collector_source, run_any_rtc.
Defined.

(** Everything arrives, Ctrl-C, and the goroutines run on. *)
Definition record_schedule : list recording_label :=
  let go := [RSource Read; RSource Send; RGoroutine; RGoroutine; RGoroutine; RConsume] in
  concat (replicate 6 go) ++ [RSource Stop; RSource End] ++ concat (replicate 8 [RGoroutine; RConsume]).

Definition recording_idle {S A B} (react : S -> A -> safe (S * list B)) flush cap (s : recording) : bool :=
  forallb (fun l => match recording_step react flush cap l s with None => true | Some _ => false end)
    [RSource Read; RSource Send; RSource End; RGoroutine; RConsume].

Lemma recording_idle_settled {S A B} (react : S -> A -> safe (S * list B)) flush cap s :
  recording_idle react flush cap s = true -> recording_settled react flush cap s.
Proof.
  unfold recording_idle. rewrite forallb_forall. intros Hi l Hl. specialize (Hi l).
  destruct (recording_step react flush cap l s); [|done]. discriminate Hi.
  destruct l as [[]| |]; simpl; tauto.
Qed.

Lemma record_interrupted_witness :
  let s := run_any (@record_step ascii_only tiny_http (fun l => l)) record_schedule
             (@record_start tiny_http sample_trace) in
  let evs := received (g_hist (r_g s)) (r_src s) in
  evs = sample_trace /\ stopping (r_src s) = true /\
  sn (steps_by (@record_step ascii_only tiny_http (fun l => l))) s /\ evs `prefix_of` sample_trace /\
  (rawCap < length evs -> r_ended s = false) /\
  r_ended s = true /\ @Streamer.Run ascii_only tiny_http (fun l => l) evs = Ok (evs, r_collected s).
Proof.
  cbv zeta. assert (stopping (r_src (run_any (@record_step ascii_only tiny_http (fun l => l)) record_schedule
    (@record_start tiny_http sample_trace))) = true) as Hst by run.
  split; [run|split; [exact Hst|]].
  destruct (@record_interrupted ascii_only tiny_http (fun l => l) sample_trace _
    (@survives_all_ok ascii_only tiny_http (fun l => l) sample_trace ltac:(run))
    (run_any_rtc (@record_step ascii_only tiny_http (fun l => l)) record_schedule
      (@record_start tiny_http sample_trace))) as (H1 & H2 & H3 & H4).
  split; [exact H1|split; [exact H2|split; [exact H3|]]].
  assert (recording_settled (@Streamer.step ascii_only tiny_http)
    (@streamer_flush ascii_only tiny_http (fun l => l)) outCap
    (run_any (@record_step ascii_only tiny_http (fun l => l)) record_schedule
      (@record_start tiny_http sample_trace))) as Hset by (apply recording_idle_settled; run).
  specialize (H4 Hset). rewrite Hst in H4. apply H4, Nat.leb_le. run.
Defined.

Definition trace_schedule (n : nat) : list tracing_label :=
  concat (replicate n [TSource Read; TSource Send; TFirst; TFirst; TFirst; TSecond; TSecond; TSecond;
                       TRecvRaw; TRecvConn; TRecvExchange]) ++
  [TSource Stop; TSource End] ++
  concat (replicate 8 [TFirst; TSecond; TRecvRaw; TRecvConn; TRecvExchange]).

Definition trace_labels : list tracing_label :=
  [TSource Read; TSource Send; TSource End; TFirst; TSecond; TRecvRaw; TRecvConn; TRecvExchange].

Lemma tracing_idle_settled {S1 S2 A B1 B2} (r1 : S1 -> A -> safe (S1 * list B1)) f1 c1
    (r2 : S2 -> A -> safe (S2 * list B2)) f2 c2 s :
  forallb (fun l => match tracing_step r1 f1 c1 r2 f2 c2 l s with None => true | Some _ => false end)
    trace_labels = true -> tracing_settled r1 f1 c1 r2 f2 c2 s.
Proof.
  rewrite forallb_forall. intros Hi l Hl. specialize (Hi l).
  destruct (tracing_step _ _ _ _ _ _ l s); [|done]. discriminate Hi.
  destruct l as [[]| | | | |]; simpl; tauto.
Qed.

Lemma trace_delivers_live_witness :
  let comm := fun _ _ => str "app" in
  let step := @trace_step ascii_only tiny_http (fun l => l) Timestamp comm in
  let s := run_any step (trace_schedule 6) (@trace_start tiny_http sample_trace) in
  let evs := received (g_hist (t_g1 s)) (t_src s) in
  evs = sample_trace /\ stopping (t_src s) = true /\
  sn (steps_by step) s /\ evs `prefix_of` sample_trace /\
  t_raw s = evs /\ t_conns s = (Correlator.Run Timestamp comm evs).2 /\
  @Streamer.Run ascii_only tiny_http (fun l => l) evs = Ok (evs, t_exchanges s) /\
  g_out_closed (t_g1 s) = true /\ g_out_closed (t_g2 s) = true /\ g_raw_closed (t_g2 s) = true.
Proof.
  cbv zeta. assert (stopping (t_src (run_any (@trace_step ascii_only tiny_http (fun l => l) Timestamp
    (fun _ _ => str "app")) (trace_schedule 6) (@trace_start tiny_http sample_trace))) = true) as Hst by run.
  split; [run|split; [exact Hst|]].
  destruct (@trace_delivers_live ascii_only tiny_http (fun l => l) Timestamp (fun _ _ => str "app")
    sample_trace _ (@survives_all_ok ascii_only tiny_http (fun l => l) sample_trace ltac:(run))
    (run_any_rtc (@trace_step ascii_only tiny_http (fun l => l) Timestamp (fun _ _ => str "app"))
      (trace_schedule 6) (@trace_start tiny_http sample_trace))) as (H1 & H2 & H3).
  split; [exact H1|split; [exact H2|]].
  rewrite Hst in H3. apply H3, tracing_idle_settled. run.
Defined.
