(* ===== verification/Launcher.v ===== *)
(** * internal/launcher: the menu that assembles a command line

    [ListProcesses] and [findFirstYAML]; the model, [Update], [View] and [Run]
    of the menu.  The list and text input widgets (charmbracelet/bubbles) and
    the program loop (bubbletea) are an interface. *)

From S2P Require Import Prelude GoStd GoText.
Local Open Scope Z_scope.

(** ** proc.go *)

(** [Process] *)
Record Process := mkProcess { p_PID : Z; p_Comm : bytes }.

Definition pid_le (a b : Process) : Prop := p_PID a <= p_PID b.
#[global] Instance pid_le_dec : RelDecision pid_le.
Proof. intros a b. unfold pid_le. apply _. Defined.
#[global] Instance pid_le_total : Total pid_le.
Proof. intros a b. unfold pid_le. lia. Qed.
#[global] Instance pid_le_trans : Transitive pid_le.
Proof. intros a b c. unfold pid_le. lia. Qed.

(** The loop of [ListProcesses] on one directory entry: [comm name] is the
    content of [/proc/<name>/comm], [None] when it cannot be read. *)
Definition proc_entry (comm : bytes -> option bytes) (name : bytes) : option Process :=
  match ParseUint32 name with
  | None => None
  | Some pid =>
      match comm name with
      | None => None
      | Some data => Some (mkProcess pid (TrimSpace data))
      end
  end.

(** [ListProcesses]; [None] is the error of [os.ReadDir("/proc")]. *)
Definition ListProcesses (entries : option (list bytes)) (comm : bytes -> option bytes) :
    option (list Process) :=
  match entries with
  | None => None
  | Some names => Some (merge_sort pid_le (omap (proc_entry comm) names))
  end.

(** [filepath.Ext], walking back from the end of the path. *)
Fixpoint ext_from (acc rev_path : bytes) : bytes :=
  match rev_path with
  | [] => []
  | c :: rev_path =>
      if decide (c = Byte.x2f) then []
      else if decide (c = Byte.x2e) then c :: acc
      else ext_from (c :: acc) rev_path
  end.
Definition Ext (path : bytes) : bytes := ext_from [] (reverse path).

(** A directory entry [findFirstYAML] keeps: its name, and whether it is a
    directory. *)
Definition is_yaml (e : bytes * bool) : bool :=
  negb e.2 && bool_decide (Ext e.1 ∈ [str ".yaml"; str ".yml"]).

(** [findFirstYAML] on the entries of the directory. *)
Definition findFirstYAML (entries : option (list (bytes * bool))) : bytes :=
  match entries with
  | None => []
  | Some entries =>
      match merge_sort str_le_rel (map fst (List.filter is_yaml entries)) with
      | [] => []
      | name :: _ => name
      end
  end.

(** ** launcher.go: data *)

(** [Mode] *)
Inductive Mode := ModeTraceTUI | ModeTraceNoTUI | ModeTraceTLS | ModeRecord | ModeRun.

#[global] Instance Mode_eq_dec : EqDecision Mode.
Proof. solve_decision. Defined.

(** [Result] *)
Record Result := mkResult { Args : list bytes; NeedsSudo : bool }.

(** [modeItem] and [procItem] *)
Record modeItem := mkModeItem { mi_mode : Mode; mi_title : bytes; mi_desc : bytes }.
Definition modeItem_Title (i : modeItem) : bytes := mi_title i.
Definition modeItem_Description (i : modeItem) : bytes := mi_desc i.
Definition modeItem_FilterValue (i : modeItem) : bytes := mi_title i.

Record procItem := mkProcItem { pi_p : Process }.
Definition procItem_Title (i : procItem) : bytes :=
  Itoa (p_PID (pi_p i)) ++ str "  " ++ p_Comm (pi_p i).
Definition procItem_Description (i : procItem) : bytes := [].
Definition procItem_FilterValue (i : procItem) : bytes :=
  Itoa (p_PID (pi_p i)) ++ str " " ++ p_Comm (pi_p i).

(** [stage] *)
Inductive stage :=
| stageMode | stageTarget | stageOutput | stageYAML | stageCommand | stageDone | stageQuit.

#[global] Instance stage_eq_dec : EqDecision stage.
Proof. solve_decision. Defined.

(** ** The widgets' interface

    [list_model A] is [list.Model] with items of type [A], [text_model] is
    [textinput.Model], [other] the messages of bubbletea and the widgets. *)
Class Widgets := {
  key : Type;
  other : Type;
  wcmd : Type;
  key_String : key -> bytes;
  list_model : Type -> Type;
  text_model : Type;
  list_New : forall {A}, list A -> list_model A;
  list_SetTitle : forall {A}, bytes -> list_model A -> list_model A;
  list_SetShowStatusBar : forall {A}, bool -> list_model A -> list_model A;
  list_SetFilteringEnabled : forall {A}, bool -> list_model A -> list_model A;
  list_SetSize : forall {A}, Z -> Z -> list_model A -> list_model A;
  SelectedItem : forall {A}, list_model A -> option A;
  is_filtering : forall {A}, list_model A -> bool;
  list_View : forall {A}, list_model A -> bytes;
  text_New : text_model;
  text_SetCharLimit : Z -> text_model -> text_model;
  text_SetPlaceholder : bytes -> text_model -> text_model;
  text_SetValue : bytes -> text_model -> text_model;
  text_CursorEnd : text_model -> text_model;
  text_Focus : text_model -> text_model;
  text_Value : text_model -> bytes;
  text_View : text_model -> bytes;
}.

Section Launcher.
Context `{Widgets}.

(** [tea.Msg] *)
Inductive msg :=
| WindowSizeMsg (width height : Z)
| KeyMsg (k : key)
| OtherMsg (o : other).

(** [tea.Cmd] *)
Inductive cmd := NoCmd | Quit | WidgetCmd (c : wcmd).

(** The widgets' own [Update]. *)
Class WidgetUpdate := {
  list_Update : forall {A}, msg -> list_model A -> list_model A * cmd;
  text_Update : msg -> text_model -> text_model * cmd;
}.

(** [model] *)
Record model := mkModel {
  m_stage : stage;
  modeList : list_model modeItem;
  procList : list_model procItem;
  textIn : text_model;
  m_mode : Mode;
  m_pid : Z;
  yamlPath : bytes;
  m_result : Result;
}.

Definition modeItems : list modeItem :=
  [mkModeItem ModeTraceTUI (str "Trace (interactive TUI)") (str "Live syscall trace with the terminal UI");
   mkModeItem ModeTraceNoTUI (str "Trace (plain text)") (str "Live syscall trace, printed as plain text");
   mkModeItem ModeTraceTLS (str "Trace with TLS") (str "Trace plus decrypted SSL_write/SSL_read plaintext");
   mkModeItem ModeRecord (str "Record a test case") (str "Capture one HTTP request + Redis deps as YAML");
   mkModeItem ModeRun (str "Replay a test case (run)") (str "Serve a recorded test case's Redis deps to a command")].

(** [newModel] *)
Definition newModel (processes : list Process) (yamlDefault : bytes) : model :=
  mkModel stageMode
    (list_SetFilteringEnabled false (list_SetShowStatusBar false
       (list_SetTitle (str "eTraceReplay — choose a mode") (list_New modeItems))))
    (list_SetTitle (str "choose a target process (type to filter)")
       (list_New (map mkProcItem processes)))
    (text_SetCharLimit 512 text_New)
    ModeTraceTUI 0 yamlDefault (mkResult [] false).

(** ** Operations *)

(** [traceArgs] *)
Definition traceArgs (mode : Mode) (pid : Z) : list bytes :=
  [str "trace"; str "--pid"; Itoa pid] ++
  match mode with
  | ModeTraceNoTUI => [str "--no-tui"]
  | ModeTraceTLS => [str "--tls"]
  | _ => []
  end.

Definition with_stage (s : stage) (m : model) : model :=
  mkModel s (modeList m) (procList m) (textIn m) (m_mode m) (m_pid m) (yamlPath m) (m_result m).
Definition with_text (t : text_model) (m : model) : model :=
  mkModel (m_stage m) (modeList m) (procList m) t (m_mode m) (m_pid m) (yamlPath m) (m_result m).
Definition with_mode (mode : Mode) (m : model) : model :=
  mkModel (m_stage m) (modeList m) (procList m) (textIn m) mode (m_pid m) (yamlPath m) (m_result m).
Definition with_pid (pid : Z) (m : model) : model :=
  mkModel (m_stage m) (modeList m) (procList m) (textIn m) (m_mode m) pid (yamlPath m) (m_result m).
Definition with_yaml (path : bytes) (m : model) : model :=
  mkModel (m_stage m) (modeList m) (procList m) (textIn m) (m_mode m) (m_pid m) path (m_result m).
Definition finish (r : Result) (m : model) : model :=
  mkModel stageDone (modeList m) (procList m) (textIn m) (m_mode m) (m_pid m) (yamlPath m) r.

(** The text prompt set up before a stage that asks for a path. *)
Definition prompt (value placeholder : bytes) (m : model) : model :=
  with_text (text_Focus (text_CursorEnd (text_SetPlaceholder placeholder
    (text_SetValue value (textIn m))))) m.

(** The [enter] key by stage; [None] goes on to the active widget.  [now] is
    [time.Now().Unix()]. *)
Definition on_enter (now : Z) (m : model) : option (model * cmd) :=
  match m_stage m with
  | stageMode =>
      match SelectedItem (modeList m) with
      | None => Some (m, NoCmd)
      | Some item =>
          let m := with_mode (mi_mode item) m in
          Some (match mi_mode item with
                | ModeRun => with_stage stageYAML (prompt (yamlPath m) (str "test.yaml") m)
                | _ => with_stage stageTarget m
                end, NoCmd)
      end
  | stageTarget =>
      if is_filtering (procList m) then None
      else
        match SelectedItem (procList m) with
        | None => Some (m, NoCmd)
        | Some item =>
            let m := with_pid (p_PID (pi_p item)) m in
            if decide (m_mode m = ModeRecord) then
              Some (with_stage stageOutput
                      (prompt (str "recorded-" ++ Itoa now ++ str ".yaml") (str "output path") m), NoCmd)
            else Some (finish (mkResult (traceArgs (m_mode m) (m_pid m)) true) m, Quit)
        end
  | stageOutput =>
      let out := TrimSpace (text_Value (textIn m)) in
      if decide (out = []) then Some (m, NoCmd)
      else Some (finish (mkResult [str "record"; str "--pid"; Itoa (m_pid m); str "-o"; out] true) m, Quit)
  | stageYAML =>
      let path := TrimSpace (text_Value (textIn m)) in
      if decide (path = []) then Some (m, NoCmd)
      else
        let m := with_yaml path m in
        Some (with_stage stageCommand
                (with_text (text_SetPlaceholder (str "command to run, e.g. ./your-app")
                   (text_SetValue [] (textIn m))) m), NoCmd)
  | stageCommand =>
      let cmdLine := TrimSpace (text_Value (textIn m)) in
      if decide (cmdLine = []) then Some (m, NoCmd)
      else
        let args := [str "run"; str "--test"; yamlPath m; str "--"] ++ Fields cmdLine in
        Some (finish (mkResult args false) m, Quit)
  | stageDone | stageQuit => None
  end.

Context `{WidgetUpdate}.

(** The end of [Update]: the message goes to the active widget. *)
Definition forward (g : msg) (m : model) : model * cmd :=
  match m_stage m with
  | stageMode =>
      let (l, c) := list_Update g (modeList m) in
      (mkModel (m_stage m) l (procList m) (textIn m) (m_mode m) (m_pid m) (yamlPath m) (m_result m), c)
  | stageTarget =>
      let (l, c) := list_Update g (procList m) in
      (mkModel (m_stage m) (modeList m) l (textIn m) (m_mode m) (m_pid m) (yamlPath m) (m_result m), c)
  | stageOutput | stageYAML | stageCommand =>
      let (t, c) := text_Update g (textIn m) in (with_text t m, c)
  | stageDone | stageQuit => (m, NoCmd)
  end.

(** [Update] *)
Definition Update (now : Z) (g : msg) (m : model) : model * cmd :=
  match g with
  | WindowSizeMsg width height =>
      let h := height - 2 in
      (mkModel (m_stage m) (list_SetSize width h (modeList m)) (list_SetSize width h (procList m))
         (textIn m) (m_mode m) (m_pid m) (yamlPath m) (m_result m), NoCmd)
  | KeyMsg k =>
      if decide (key_String k = str "ctrl+c") then (with_stage stageQuit m, Quit)
      else if decide (key_String k = str "esc") then
        if bool_decide (m_stage m = stageTarget) && is_filtering (procList m) then forward g m
        else (with_stage stageQuit m, Quit)
      else if decide (key_String k = str "enter") then
        match on_enter now m with Some r => r | None => forward g m end
      else forward g m
  | OtherMsg _ => forward g m
  end.

(** [View] *)
Definition View (m : model) : bytes :=
  let nl := [LF] in
  let hint := nl ++ nl ++ str "(enter to confirm, esc to quit)" in
  match m_stage m with
  | stageMode => list_View (modeList m)
  | stageTarget => list_View (procList m)
  | stageOutput =>
      str "Output path for the recorded test case:" ++ nl ++ nl ++ text_View (textIn m) ++ hint
  | stageYAML =>
      str "Path to the recorded YAML test case to replay:" ++ nl ++ nl ++ text_View (textIn m) ++ hint
  | stageCommand =>
      str "Command to run (its Redis deps will be served from " ++ yamlPath m ++ str "):" ++
      nl ++ nl ++ text_View (textIn m) ++ hint
  | stageDone | stageQuit => []
  end.

(** The messages the program loop delivers, each with the clock. *)
Definition program (m : model) (msgs : list (Z * msg)) : model :=
  fold_left (fun m '(now, g) => (Update now g m).1) msgs m.

(** [Run] without the program's own errors: the final model's result, if the
    selection was completed. *)
Definition Run (processes : list Process) (yamlDefault : bytes) (msgs : list (Z * msg)) :
    option Result :=
  let fm := program (newModel processes yamlDefault) msgs in
  if decide (m_stage fm = stageDone) then Some (m_result fm) else None.

End Launcher.

(** ** What the widgets promise

    A list shows the items it was made with, whatever messages it gets, and its
    selected item is one of them. *)
Class WidgetLaws `{Widgets, !WidgetUpdate} := {
  list_items : forall {A}, list_model A -> list A;
  items_New : forall A (l : list A), list_items (list_New l) = l;
  items_SetTitle : forall A t (l : list_model A), list_items (list_SetTitle t l) = list_items l;
  items_SetSize : forall A w h (l : list_model A), list_items (list_SetSize w h l) = list_items l;
  items_Update : forall A g (l : list_model A), list_items (list_Update g l).1 = list_items l;
  SelectedItem_items : forall A (l : list_model A) a, SelectedItem l = Some a -> a ∈ list_items l;
}.

(** ** Specification: the command lines the menu may hand back *)

Definition runnable (processes : list Process) (r : Result) : Prop :=
  (exists mode p, p ∈ processes /\ mode ∈ [ModeTraceTUI; ModeTraceNoTUI; ModeTraceTLS] /\
     r = mkResult (traceArgs mode (p_PID p)) true) \/
  (exists p out, p ∈ processes /\ out <> [] /\
     r = mkResult [str "record"; str "--pid"; Itoa (p_PID p); str "-o"; out] true) \/
  (exists path command, path <> [] /\ command <> [] /\
     r = mkResult ([str "run"; str "--test"; path; str "--"] ++ command) false).

Section Lemmas.
Context `{WidgetLaws}.

Record menu_inv (processes : list Process) (m : model) : Prop := {
  mi_items : list_items (procList m) = map mkProcItem processes;
  mi_target : m_stage m = stageTarget -> m_mode m <> ModeRun;
  mi_output : m_stage m = stageOutput -> exists p, p ∈ processes /\ m_pid m = p_PID p;
  mi_command : m_stage m = stageCommand -> yamlPath m <> [];
  mi_done : m_stage m = stageDone -> runnable processes (m_result m);
}.

Lemma newModel_inv processes yamlDefault : menu_inv processes (newModel processes yamlDefault).
Proof. split; simpl; try done. by rewrite items_SetTitle, items_New. Qed.

Lemma forward_inv processes g m : menu_inv processes m -> menu_inv processes (forward g m).1.
Proof.
  intros [Hi Ht Ho Hc Hd]. unfold forward.
  destruct (m_stage m) eqn:E; [destruct (list_Update g (modeList m))|
    destruct (list_Update g (procList m)) as [l c] eqn:El|
    destruct (text_Update g (textIn m))..| |]; split; simpl; try done; try (by rewrite E); auto.
  rewrite <-Hi. change l with (l, c).1. by rewrite <-El, items_Update.
Qed.

Lemma on_enter_inv processes now m m' c :
  menu_inv processes m -> on_enter now m = Some (m', c) -> menu_inv processes m'.
Proof.
  intros [Hi Ht Ho Hc Hd]. unfold on_enter. destruct (m_stage m) eqn:E; [..|done|done].
  - destruct (SelectedItem (modeList m)) as [item|] eqn:Es; [|by intros [= <- _]; split; rewrite ?E].
    intros [= <- _]. destruct (mi_mode item) eqn:Em; by split.
  - destruct (is_filtering (procList m)); [done|].
    destruct (SelectedItem (procList m)) as [item|] eqn:Es; [|by intros [= <- _]; split; rewrite ?E].
    apply SelectedItem_items in Es. rewrite Hi in Es.
    apply list_elem_of_fmap in Es as (p & -> & Hp). cbn [m_mode with_pid]. specialize (Ht eq_refl).
    case_decide as Hm; intros [= <- _]; split; try done; intros _; [by exists p|].
    left. exists (m_mode m), p. split_and!; [done| |done]. destruct (m_mode m); set_solver.
  - case_decide as Hn; intros [= <- _]; [by split; rewrite ?E|]. split; try done. intros _.
    destruct (Ho eq_refl) as (p & Hp & ->). right. left. by eexists p, _.
  - case_decide as Hn; intros [= <- _]; [by split; rewrite ?E|]. by split.
  - case_decide as Hn; intros [= <- _]; [by split; rewrite ?E|]. split; try done. intros _.
    right. right. eexists _, _. split_and!; [by apply Hc|by apply TrimSpace_Fields|done].
Qed.

Lemma Update_inv processes now g m : menu_inv processes m -> menu_inv processes (Update now g m).1.
Proof.
  intros Hm. assert (menu_inv processes (with_stage stageQuit m)) as Hq.
  { destruct Hm. by split. }
  destruct g as [w h|k|o]; [|simpl|by apply forward_inv].
  - destruct Hm. split; simpl; try done. by rewrite items_SetSize.
  - case_decide; [done|]. case_decide; [case_match; [by apply forward_inv|done]|].
    case_decide; [|by apply forward_inv].
    destruct (on_enter now m) as [[m' c]|] eqn:E; [simpl; eapply on_enter_inv; [exact Hm|exact E]|by apply forward_inv].
Qed.

Lemma program_inv processes m msgs : menu_inv processes m -> menu_inv processes (program m msgs).
Proof.
  revert m. induction msgs as [|[now g] msgs IH]; intros m Hm; [done|]. by apply IH, Update_inv.
Qed.

(** Once the user has quit nothing but quitting again happens. *)
Lemma quit_stays now g m : m_stage m = stageQuit -> m_stage (Update now g m).1 = stageQuit.
Proof.
  intros Hq. destruct g as [w h|k|o]; simpl; [done|..|unfold forward; by rewrite Hq].
  unfold on_enter, forward. rewrite Hq. by repeat case_decide.
Qed.

Lemma quit_program m msgs : m_stage m = stageQuit -> m_stage (program m msgs) = stageQuit.
Proof.
  revert m. induction msgs as [|[now g] msgs IH]; intros m Hm; [done|]. by apply IH, quit_stays.
Qed.

Lemma omap_proc_entry comm (names : list bytes) p :
  p ∈ omap (proc_entry comm) names <->
  exists name data, name ∈ names /\ ParseUint32 name = Some (p_PID p) /\
                    comm name = Some data /\ p_Comm p = TrimSpace data.
Proof.
  rewrite list_elem_of_omap. unfold proc_entry. split.
  - intros (name & Hn & He). destruct (ParseUint32 name) as [pid|] eqn:Ep; [|done].
    destruct (comm name) as [data|] eqn:Ec; [|done]. simplify_eq. by exists name, data.
  - intros (name & data & Hn & Ep & Ec & Hc). exists name. split; [done|].
    rewrite Ep, Ec, <-Hc. by destruct p.
Qed.
End Lemmas.

Lemma Run_runnable `{WidgetLaws} processes yamlDefault msgs r :
  Run processes yamlDefault msgs = Some r -> runnable processes r.
Proof.
  unfold Run. case_decide as Hd; [|done]. intros [= <-].
  by apply (program_inv processes (newModel processes yamlDefault)); [apply newModel_inv|].
Qed.

(** ** Theorems *)

(** [C26] The menu only ever hands back a runnable command line: for every
    sequence of messages, the result of [Run] is a trace or recording of a
    process that was listed, with a non-empty output path, under sudo, or a
    replay with a non-empty path and at least one word of command, without
    sudo. *)
Theorem Run_result `{WidgetLaws} processes yamlDefault msgs r :
  Run processes yamlDefault msgs = Some r -> runnable processes r.
Proof. apply Run_runnable. Qed.

(** Quitting is final: after ctrl+c, or after esc while no filter is being
    typed, [Run] returns no result, whatever messages come before and after. *)
Theorem Run_quit `{WidgetLaws} processes yamlDefault before now k after :
  let m := program (newModel processes yamlDefault) before in
  key_String k = str "ctrl+c" \/
  (key_String k = str "esc" /\ (m_stage m = stageTarget -> is_filtering (procList m) = false)) ->
  Run processes yamlDefault (before ++ (now, KeyMsg k) :: after) = None.
Proof.
  intros m Hk. unfold Run, program. rewrite fold_left_app. fold (program (newModel processes yamlDefault) before).
  fold m. cbn [fold_left]. fold (program (Update now (KeyMsg k) m).1 after).
  rewrite quit_program; [done|]. unfold Update. case_decide as Hc; [done|].
  destruct Hk as [|[-> Hf]]; [done|]. rewrite decide_True by done.
  destruct (bool_decide_reflect (m_stage m = stageTarget)) as [Hs|]; [|done].
  by rewrite (Hf Hs).
Qed.

(** [ListProcesses] lists exactly the readable processes, sorted by PID: a
    directory entry that is a 32-bit decimal number and whose [comm] can be
    read, once each, with the name trimmed; it fails only when [/proc] cannot
    be read. *)
Theorem ListProcesses_sorted (names : list bytes) comm :
  exists procs, ListProcesses (Some names) comm = Some procs /\
    StronglySorted (fun a b => p_PID a <= p_PID b) procs /\
    procs ≡ₚ omap (proc_entry comm) names /\
    forall p, p ∈ procs <->
      exists name data, name ∈ names /\ ParseUint32 name = Some (p_PID p) /\
                        comm name = Some data /\ p_Comm p = TrimSpace data.
Proof.
  eexists. split; [done|]. pose proof (merge_sort_Permutation pid_le (omap (proc_entry comm) names)) as Hp.
  split_and!; [apply (StronglySorted_merge_sort pid_le _)|done|].
  intros p. rewrite Hp. apply omap_proc_entry.
Qed.

(** [findFirstYAML] suggests the least [.yaml] or [.yml] file name in
    byte order, and nothing exactly when there is none. *)
Theorem findFirstYAML_least entries :
  let names := map fst (List.filter is_yaml entries) in
  (names = [] /\ findFirstYAML (Some entries) = []) \/
  (findFirstYAML (Some entries) ∈ names /\
   Forall (fun n => str_le (findFirstYAML (Some entries)) n = true) names).
Proof.
  cbv zeta. unfold findFirstYAML. set (names := map fst _).
  pose proof (merge_sort_Permutation str_le_rel names) as Hp.
  pose proof (StronglySorted_merge_sort str_le_rel names) as Hs.
  destruct (merge_sort str_le_rel names) as [|n l].
  - left. split; [by apply Permutation_nil|done].
  - right. rewrite <-Hp. split; [by left|].
    constructor; [apply str_le_refl|]. by inversion Hs.
Qed.

(** ** Witnesses *)

(** Bare widgets: a list with a cursor that [down] moves, a text box that every
    key is appended to. *)
Definition bare_widgets : Widgets := {|
  key := bytes;
  other := unit;
  wcmd := unit;
  key_String k := k;
  list_model A := (list A * nat)%type;
  text_model := bytes;
  list_New A l := (l, 0%nat);
  list_SetTitle A _ l := l;
  list_SetShowStatusBar A _ l := l;
  list_SetFilteringEnabled A _ l := l;
  list_SetSize A _ _ l := l;
  SelectedItem A l := l.1 !! l.2;
  is_filtering A _ := false;
  list_View A _ := [];
  text_New := [];
  text_SetCharLimit _ t := t;
  text_SetPlaceholder _ t := t;
  text_SetValue v _ := v;
  text_CursorEnd t := t;
  text_Focus t := t;
  text_Value t := t;
  text_View t := t;
|}.

Definition move_down {A} (l : list A * nat) : list A * nat := (l.1, S l.2).

Definition bare_update : @WidgetUpdate bare_widgets :=
  @Build_WidgetUpdate bare_widgets
    (fun A g l =>
       (match g with
        | KeyMsg k => if decide (key_String k = str "down") then move_down l else l
        | _ => l
        end, NoCmd))
    (fun g t => (match g with KeyMsg k => t ++ key_String k | _ => t end, NoCmd)).

Definition bare_laws : @WidgetLaws bare_widgets bare_update.
Proof.
  refine {| list_items A (l : @list_model bare_widgets A) := l.1 |}; try done.
  - intros A g l. destruct g as [| k |]; [done| |done]. simpl. by case_decide.
  - intros A [l i] a Hl. exact (list_elem_of_lookup_2 l i a Hl).
Defined.

Definition sample_processes : list Process := [mkProcess 7 (str "sh"); mkProcess 42 (str "app")].

Definition keys (ks : list bytes) : list (Z * @msg bare_widgets) :=
  map (fun k => (1700000000, @KeyMsg bare_widgets k)) ks.

Lemma Run_result_witness :
  @Run bare_widgets bare_update sample_processes (str "t.yaml")
    (keys [str "down"; str "down"; str "down"; str "down"; str "enter"; str "enter";
           str "./app -v "; str "enter"]) =
  Some (mkResult [str "run"; str "--test"; str "t.yaml"; str "--"; str "./app"; str "-v"] false) /\
  runnable sample_processes
    (mkResult [str "run"; str "--test"; str "t.yaml"; str "--"; str "./app"; str "-v"] false).
Proof.
  assert (@Run bare_widgets bare_update sample_processes (str "t.yaml")
    (keys [str "down"; str "down"; str "down"; str "down"; str "enter"; str "enter";
           str "./app -v "; str "enter"]) =
    Some (mkResult [str "run"; str "--test"; str "t.yaml"; str "--"; str "./app"; str "-v"] false))
    as Hrun by run.
  split; [exact Hrun|].
  exact (@Run_result bare_widgets bare_update bare_laws sample_processes (str "t.yaml") _ _ Hrun).
Defined.

(** The other two shapes a result takes. *)
Example Run_record :
  @Run bare_widgets bare_update sample_processes []
    (keys [str "down"; str "down"; str "down"; str "enter"; str "down"; str "enter"; str "enter"]) =
  Some (mkResult [str "record"; str "--pid"; str "42"; str "-o"; str "recorded-1700000000.yaml"] true).
Proof. run. Qed.

Example Run_trace_tls :
  @Run bare_widgets bare_update sample_processes []
    (keys [str "down"; str "down"; str "enter"; str "enter"]) =
  Some (mkResult [str "trace"; str "--pid"; str "7"; str "--tls"] true).
Proof. run. Qed.

Lemma Run_quit_witness :
  @Run bare_widgets bare_update sample_processes []
    (keys [str "enter"] ++ (0, @KeyMsg bare_widgets (str "esc")) :: keys [str "enter"]) = None.
Proof.
  apply (@Run_quit bare_widgets bare_update bare_laws sample_processes [] (keys [str "enter"]) 0
    (str "esc") (keys [str "enter"])).
  right. split; reflexivity.
Defined.
