(* ===== verification/Printer.v ===== *)
(** * internal/printer: one plain-text line per event *)

From S2P Require Import Prelude GoStd GoRune Event.
Local Open Scope Z_scope.
Local Open Scope go_scope.

(** [t.Format("15:04:05.000")], which depends on the local time zone. *)
Class Clock := { clock_Format : Z -> bytes }.

Section Printer.
Context `{UnicodePrint, Clock}.

(** ["%d bytes: %q"] on an event's payload. *)
Definition payload_text (ev : Event) : safe bytes :=
  let? p := Payload ev in
  Ok (Itoa (DataLen ev) ++ str " bytes: " ++ Quote p).

(** [Format] *)
Definition Format (ev : Event) (comm : bytes) (t : Z) : safe bytes :=
  let prefix := str "[" ++ clock_Format t ++ str "] PID " ++ Itoa (PID ev) ++ str " (" ++ comm ++
                str ") fd=" ++ Itoa (FD ev) in
  if decide (Operation ev = OpConnect) then
    Ok (prefix ++ str " CONNECT -> " ++ RemoteAddrString ev)
  else if decide (Operation ev = OpWrite) then
    let? p := payload_text ev in Ok (prefix ++ str " WRITE " ++ p)
  else if decide (Operation ev = OpRead) then
    let? p := payload_text ev in Ok (prefix ++ str " READ " ++ p)
  else if decide (Operation ev = OpClose) then
    Ok (prefix ++ str " CLOSE")
  else if decide (Operation ev = OpSSLWrite) then
    let? p := payload_text ev in
    Ok (prefix ++ str " SSL_WRITE(ssl=" ++ sharp_x (SSLPtr ev) ++ str ") " ++ p)
  else if decide (Operation ev = OpSSLRead) then
    let? p := payload_text ev in
    Ok (prefix ++ str " SSL_READ(ssl=" ++ sharp_x (SSLPtr ev) ++ str ") " ++ p)
  else Ok (prefix ++ str " UNKNOWN(op=" ++ Itoa (Operation ev) ++ str ")").

(** [Print]: what is written to [w]; [comm] and [timeOf] are
    [collector.Comm] and [EventTime]. *)
Fixpoint Print_lines (comm : Z -> bytes) (timeOf : Event -> Z) (events : list Event) :
    safe (list bytes) :=
  match events with
  | [] => Ok []
  | ev :: events =>
      let? line := Format ev (comm (PID ev)) (timeOf ev) in
      let? lines := Print_lines comm timeOf events in
      Ok ((line ++ [LF]) :: lines)
  end.

(** ** Lemmas *)

Lemma payload_text_inert ev p : payload_text ev = Ok p -> forallb inert p = true.
Proof.
  unfold payload_text. destruct (Payload ev) as [q|[]|]; [cbn [obind]|done]. intros <-%Ok_inj.
  by rewrite 2!inert_app, Itoa_inert, Quote_inert.
Qed.

Lemma FormatIPv4Port_inert a p : forallb inert (FormatIPv4Port a p) = true.
Proof. unfold FormatIPv4Port. by rewrite !inert_app, !Itoa_inert. Qed.

Ltac inert_text :=
  rewrite ?inert_app, ?Itoa_inert, ?sharp_x_inert, ?FormatIPv4Port_inert;
  repeat match goal with H : forallb inert _ = true |- _ => rewrite H end; reflexivity.

Lemma Format_inert ev comm t line :
  Format ev comm t = Ok line -> forallb inert comm = true -> forallb inert (clock_Format t) = true ->
  forallb inert line = true.
Proof.
  intros Hf Hc Ht. unfold Format, RemoteAddrString in Hf. cbv zeta in Hf.
  assert (forall p, payload_text ev = Ok p -> forallb inert p = true) as Hp
    by apply payload_text_inert.
  destruct (payload_text ev) as [p|[]|].
  - specialize (Hp p eq_refl). cbn [obind] in Hf.
    repeat case_decide; try discriminate; apply Ok_inj in Hf as <-; inert_text.
  - cbn [obind] in Hf. repeat case_decide; try discriminate; apply Ok_inj in Hf as <-; inert_text.
Qed.

Lemma Format_Ok ev comm t : DataLen ev <= dataCap -> exists line, Format ev comm t = Ok line.
Proof.
  intros Hd. unfold Format, payload_text, Payload. rewrite (proj2 (Z.leb_le _ _) Hd).
  cbn [obind]. repeat case_decide; by eexists.
Qed.

Lemma Print_lines_Ok comm timeOf evs :
  Forall (fun ev => DataLen ev <= dataCap) evs ->
  exists lines, Print_lines comm timeOf evs = Ok (map (fun l => l ++ [LF]) lines) /\
    Forall2 (fun ev line => Format ev (comm (PID ev)) (timeOf ev) = Ok line) evs lines.
Proof.
  induction 1 as [|ev evs Hd _ (lines & Hp & Hl)]; [by exists []|].
  destruct (Format_Ok ev (comm (PID ev)) (timeOf ev) Hd) as [line Hline].
  exists (line :: lines). cbn [Print_lines map]. rewrite Hline, Hp. by repeat constructor.
Qed.

(** ** Theorems *)

(** [C34] Plain-text mode writes exactly one line per event, in order, and its
    lines cannot be broken or the terminal driven by what was captured: as long
    as the process name and the clock hold no control character, no line holds
    one but the line feed that ends it, whatever bytes the payload has. *)
Theorem Print_one_line_each comm timeOf events :
  Forall (fun ev => DataLen ev <= dataCap) events ->
  Forall (fun ev => forallb inert (comm (PID ev)) = true) events ->
  (forall t, forallb inert (clock_Format t) = true) ->
  exists lines, Print_lines comm timeOf events = Ok (map (fun l => l ++ [LF]) lines) /\
    Forall2 (fun ev line => Format ev (comm (PID ev)) (timeOf ev) = Ok line) events lines /\
    Forall (fun line => forallb inert line = true) lines.
Proof.
  intros Hd Hc Ht. destruct (Print_lines_Ok comm timeOf events Hd) as (lines & Hp & Hl).
  exists lines. split; [done|]. split; [done|]. clear Hp Hd.
  induction Hl as [|ev line events lines Hf _ IH]; [constructor|].
  inversion_clear Hc. constructor; [by eapply Format_inert|by apply IH].
Qed.

End Printer.

Definition fixed_clock : Clock := {| clock_Format _ := str "12:00:00.000" |}.

Definition escape_event : Event := sample_event OpWrite 5 [Byte.x1b; Byte.x5b; LF].

Lemma Print_one_line_each_witness :
  @Print_lines print_all fixed_clock (fun _ => str "app") (fun _ => 0) [escape_event] =
    Ok [str "[12:00:00.000] PID 42 (app) fd=5 WRITE 3 bytes: " ++ [Byte.x22] ++ str "\x1b[\n" ++
        [Byte.x22; LF]] /\
  exists lines,
    @Print_lines print_all fixed_clock (fun _ => str "app") (fun _ => 0) [escape_event] =
      Ok (map (fun l => l ++ [LF]) lines) /\
    Forall2 (fun ev line => @Format print_all fixed_clock ev (str "app") 0 = Ok line) [escape_event] lines /\
    Forall (fun line => forallb inert line = true) lines.
Proof.
  split; [run|].
  apply (@Print_one_line_each print_all fixed_clock (fun _ => str "app") (fun _ => 0) [escape_event]).
  - repeat constructor. vm_compute. discriminate.
  - repeat constructor.
  - reflexivity.
Defined.
