(* ===== verification/Trace.v ===== *)
(** * From the kernel to the screen

    The composition of the kernel programs (Bpf), the collector's readers
    (Collector) and what main.go puts behind them: the plain-text printer of
    [trace --no-tui] and the streamer of [record], whose exchanges the schedule
    of the readers does not change. *)

From S2P Require Import Prelude GoStd GoRune Event CStruct Bpf BpfSpec BpfRefine BpfBig.
From S2P Require Import Resp Http Streamer StreamerOrder Collector Printer.
Local Open Scope Z_scope.
Local Open Scope go_scope.

(** ** Ring buffers *)

(** What [Read] returns for the records of a ring buffer until [Close]. *)
Definition ring (raws : list bytes) : list read_result := map Record_ raws ++ [ErrClosed].

(** The ring buffers of a collector, with TLS enabled or not. *)
Definition rings_of `{UserMem} (host : endian) (target_pid : Z)
    (calls : list (task * Syscall.hit)) (ssl_calls : option (list (task * Tls.hit))) :
    list (list read_result) :=
  ring (events (Syscall.run host target_pid calls)) ::
  match ssl_calls with
  | Some ssl_calls => [ring (events (Tls.run host target_pid ssl_calls))]
  | None => []
  end.

(** The run of the collector's goroutines has ended. *)
Definition finished (rings : list (list read_result)) (s : run_state) : Prop :=
  rtc (steps_by run_step) (Collector.Run rings) s /\ forall s', ~ steps_by run_step s s'.

(** ** Lemmas *)

Lemma readLoop_ring raws evs :
  Forall2 (fun raw ev => decodeEvent raw = Ok ev) raws evs -> readLoop (ring raws) = map PubEvent evs.
Proof.
  intros Hd. unfold ring. induction Hd as [|raw ev raws evs Hr _ IH]; [done|].
  simpl. rewrite Hr. by f_equal.
Qed.

Lemma pub_events_map evs : pub_events (map PubEvent evs) = evs.
Proof. unfold pub_events. induction evs as [|ev evs IH]; [done|]. simpl. by f_equal. Qed.
Lemma pub_errs_map evs : pub_errs (map PubEvent evs) = [].
Proof. unfold pub_errs. by induction evs. Qed.

(** Items on the channels carry the number of a reader. *)
Definition tagged (s : run_state) : Prop :=
  Forall (fun x => (x.1 < length (readers s))%nat) (ev_got s ++ ev_buf s) /\
  Forall (fun x => (x.1 < length (readers s))%nat) (err_got s ++ err_buf s).

Lemma tagged_snoc {A} n i (x : A) l1 l2 :
  Forall (fun x => (x.1 < n)%nat) (l1 ++ l2) -> (i < n)%nat ->
  Forall (fun x => (x.1 < n)%nat) (l1 ++ l2 ++ [(i, x)]).
Proof. intros Hl Hi. rewrite (assoc_L (++)). apply Forall_app. by split; [|constructor]. Qed.

Lemma run_step_tagged s s' : tagged s -> steps_by run_step s s' -> tagged s'.
Proof.
  unfold tagged. intros [H1 H2] [[i| | | |] Hs]; destruct s as [rs wg evs errs ce cr ge gr pn]; simpl in *.
  - destruct (rs !! i) as [[[|[ev|e] t]|]|] eqn:Hi; simplify_eq/=;
      pose proof (lookup_lt_Some _ _ _ Hi); repeat case_match; simplify_eq/=;
      rewrite length_insert; split; try done; by apply tagged_snoc.
  - repeat case_match; by simplify_eq/=.
  - repeat case_match; by simplify_eq/=.
  - destruct evs; simplify_eq/=. by rewrite <-(assoc_L (++)).
  - destruct errs; simplify_eq/=. by rewrite <-(assoc_L (++)).
Qed.

Lemma reachable_tagged rings s :
  rtc (steps_by run_step) (Collector.Run rings) s ->
  Forall (fun x => (x.1 < length rings)%nat) (ev_got s ++ ev_buf s) /\
  Forall (fun x => (x.1 < length rings)%nat) (err_got s ++ err_buf s).
Proof.
  intros Hrun. rewrite <-(ri_length _ _ (run_reachable _ _ Hrun)).
  change (tagged s). eapply rtc_invariant; [apply run_step_tagged|exact Hrun|by split; constructor].
Qed.

Lemma finished_delivered rings s :
  finished rings s -> delivered rings s /\
  Forall (fun x => (x.1 < length rings)%nat) (ev_got s) /\
  Forall (fun x => (x.1 < length rings)%nat) (err_got s).
Proof.
  intros [Hrun Hstuck]. destruct (reachable_tagged _ _ Hrun) as [[H1 _]%Forall_app [H2 _]%Forall_app].
  split; [apply run_stuck_delivered; [by apply run_reachable|done]|done].
Qed.

Lemma from_nil {A} n (l : list (nat * A)) :
  Forall (fun x => (x.1 < n)%nat) l -> (forall i, (i < n)%nat -> from i l = []) -> l = [].
Proof.
  intros Ht Hf. destruct l as [|[i x] l]; [done|]. inversion_clear Ht as [|? ? Hi _].
  specialize (Hf i Hi). unfold from in Hf. simpl in Hf. by rewrite decide_True in Hf.
Qed.

(** With one reader the tags say nothing. *)
Lemma from_all {A} (l : list (nat * A)) :
  Forall (fun x => (x.1 < 1)%nat) l -> from 0 l = map snd l.
Proof.
  unfold from. induction 1 as [|[i x] l Hi _ IH]; [done|]. simpl in *.
  rewrite decide_True by lia. by f_equal.
Qed.

(** With two, what has been received is an interleaving of the readers'. *)
Lemma merged_tagged {A} (l : list (nat * A)) :
  Forall (fun x => (x.1 < 2)%nat) l -> merged (from 0 l) (from 1 l) (map snd l).
Proof.
  induction 1 as [|[i x] l Hi _ IH]; [constructor|]. simpl in Hi. unfold from in *.
  destruct i as [|[|i]]; [by constructor|by constructor|lia].
Qed.

Lemma Forall2_from {A B} (P : A -> B -> Prop) (l : list (nat * A)) (ys : list B) i :
  Forall2 P (map snd l) ys -> Forall2 P (from i l) (from i (zip (map fst l) ys)).
Proof.
  unfold from. revert ys. induction l as [|[j x] l IH]; intros [|y ys] Hp; inversion Hp; subst; [done|].
  simpl. case_decide; [constructor|]; auto.
Qed.

(** *** Consumers see an event's view only *)

Lemma Payload_view ev : Payload (view ev) = Payload ev.
Proof. destruct ev. unfold Payload, view. simpl. case_match; [|done]. by rewrite take_take, Nat.min_id. Qed.

Lemma Format_view `{UnicodePrint, Clock} ev comm t : Format (view ev) comm t = Format ev comm t.
Proof.
  assert (payload_text (view ev) = payload_text ev) as Hp.
  { unfold payload_text. rewrite Payload_view. by destruct ev. }
  unfold Format, RemoteAddrString. rewrite Hp. by destruct ev.
Qed.

Section Streams.
Context `{Unicode, NetHTTP}.

Lemma step_view bufs ev : Streamer.step bufs (view ev) = Streamer.step bufs ev.
Proof.
  assert (forall b, on_read (view ev) b = on_read ev b /\ on_write (view ev) b = on_write ev b) as Hb.
  { intros b. unfold on_read, on_write, Truncated. rewrite Payload_view. by destruct ev. }
  assert (key_of (view ev) = key_of ev) as Hk by by destruct ev.
  unfold Streamer.step. rewrite Hk. destruct (key_of ev) as [k|]; [|done].
  rewrite !(proj1 (Hb _)), !(proj2 (Hb _)). by destruct ev.
Qed.

Lemma loop_view events bufs :
  Streamer.loop bufs (map view events) =
  let? (bufs, raw, outs) := Streamer.loop bufs events in Ok (bufs, map view raw, outs).
Proof.
  revert bufs. induction events as [|ev events IH]; intros bufs; [done|]. simpl. rewrite step_view.
  destruct (Streamer.step bufs ev) as [[bufs1 out]|[]|]; [simpl|done]. rewrite IH.
  by destruct (Streamer.loop bufs1 events) as [[[bufs2 raw] outs]|[]|].
Qed.

Lemma loop_passes events bufs bufs' raw outs :
  Streamer.loop bufs events = Ok (bufs', raw, outs) -> raw = events.
Proof.
  revert bufs raw outs. induction events as [|ev events IH]; intros bufs raw outs; simpl.
  { by intros [= <- <- <-]. }
  destruct (Streamer.step bufs ev) as [[bufs1 out]|[]|]; [simpl|done].
  destruct (Streamer.loop bufs1 events) as [[[bufs2 raw2] outs2]|[]|] eqn:E; [simpl|done].
  intros [= <- <- <-]. f_equal. by eapply IH.
Qed.

(** The exchanges depend on the views only. *)
Lemma Run_view order events :
  Streamer.Run order events =
  let? (_, exs) := Streamer.Run order (map view events) in Ok (events, exs).
Proof.
  unfold Streamer.Run. rewrite loop_view.
  destruct (Streamer.loop ∅ events) as [[[bufs raw] outs]|[]|] eqn:E; [simpl|done].
  rewrite (loop_passes _ _ _ _ _ E). by destruct (flush _) as [|[]|].
Qed.

Lemma Run_of_view order events exs :
  Streamer.Run order events = Ok (events, exs) ->
  Streamer.Run order (map view events) = Ok (map view events, exs).
Proof.
  intros Hr. rewrite Run_view in Hr. rewrite (Run_view order (map view events)), map_map.
  rewrite (map_ext _ view) by (intros []; unfold view; simpl; by rewrite take_take, Nat.min_id).
  destruct (Streamer.Run order (map view events)) as [[raw exs']|[]|]; [|done]. simpl in *. congruence.
Qed.

Lemma loop_foreign events bufs :
  Forall (fun ev => key_of ev = None) events -> Streamer.loop bufs events = Ok (bufs, events, []).
Proof.
  induction 1 as [|ev events Hev _ IH]; [done|]. simpl. unfold Streamer.step. rewrite Hev. simpl.
  by rewrite IH.
Qed.

End Streams.

(** *** What the readers publish *)

Lemma observed_events raws es :
  Forall2 observed raws es ->
  exists evs, map view evs = es /\ pub_events (readLoop (ring raws)) = evs /\
    pub_errs (readLoop (ring raws)) = [].
Proof.
  intros Ho. assert (exists evs, map view evs = es /\
    Forall2 (fun raw ev => decodeEvent raw = Ok ev) raws evs) as (evs & Hv & Hd).
  { induction Ho as [|raw e raws es (ev & Hd & _ & He) _ (evs & Hv & Hf)]; [by exists []|].
    exists (ev :: evs). simpl. split; [congruence|by constructor]. }
  exists evs. rewrite (readLoop_ring _ _ Hd). by rewrite pub_events_map, pub_errs_map.
Qed.

Lemma sound_events target_pid raws :
  Forall (sound target_pid) raws ->
  Forall (fun ev => PID ev = target_pid /\ DataLen ev <= dataCap) (pub_events (readLoop (ring raws))).
Proof.
  intros Hs. assert (exists evs, Forall (fun ev => PID ev = target_pid /\ DataLen ev <= dataCap) evs /\
    Forall2 (fun raw ev => decodeEvent raw = Ok ev) raws evs) as (evs & He & Hd).
  { induction Hs as [|raw raws (ev & Hd & _ & Hp & _ & Hl) _ (evs & He & Hf)]; [by exists []|].
    exists (ev :: evs). split; constructor; try done. split; [done|].
    unfold DATA_CAP, dataCap in *. lia. }
  by rewrite (readLoop_ring _ _ Hd), pub_events_map.
Qed.

Lemma foreign_events raws :
  Forall foreign raws -> Forall (fun ev => key_of ev = None) (pub_events (readLoop (ring raws))).
Proof.
  intros Hs. assert (exists evs, Forall (fun ev => key_of ev = None) evs /\
    Forall2 (fun raw ev => decodeEvent raw = Ok ev) raws evs) as (evs & He & Hd).
  { induction Hs as [|raw raws (ev & Hd & _ & Ho) _ (evs & He & Hf)]; [by exists []|].
    exists (ev :: evs). split; constructor; try done. unfold key_of.
    unfold OpConnect, OpRead, OpWrite, OpClose, OpSSLRead, OpSSLWrite in *.
    rewrite !decide_False by lia. done. }
  by rewrite (readLoop_ring _ _ Hd), pub_events_map.
Qed.

Lemma Forall_from {A} (P : A -> Prop) n (l : list (nat * A)) :
  Forall (fun x => (x.1 < n)%nat) l -> (forall i, (i < n)%nat -> Forall P (from i l)) ->
  Forall P (map snd l).
Proof.
  induction 1 as [|[i x] l Hi _ IH]; [constructor|]. intros Hf. simpl. constructor.
  - specialize (Hf i Hi). unfold from in Hf. simpl in Hf. rewrite decide_True in Hf by done.
    by inversion Hf.
  - apply IH. intros j Hj. specialize (Hf j Hj). unfold from in *. simpl in Hf.
    case_decide; [by inversion Hf|done].
Qed.

Section Delivery.
Context `{UserMem} (target_pid : Z).

(** The calls of a traced process, as the two objects see them. *)
Definition wf_calls (calls : list (task * Syscall.hit)) (ssl_calls : list (task * Tls.hit)) : Prop :=
  Forall (fun th => wf_task th.1) calls /\
  Forall (fun th => wf_task th.1 /\ wf_tls_hit th.2) ssl_calls /\
  (size (entered (syscall_op target_pid) calls) <= Syscall.max_entries)%nat /\
  (size (entered (tls_op target_pid) ssl_calls) <= Tls.max_entries)%nat.

(** Everything the kernel reports arrives, and nothing else. *)
Lemma kernel_delivers calls ssl_calls s :
  wf_calls calls ssl_calls -> finished (rings_of Little target_pid calls (Some ssl_calls)) s ->
  err_got s = [] /\
  map view (from 0 (ev_got s)) = reports (syscall_report target_pid) [] calls /\
  map view (from 1 (ev_got s)) = reports (tls_report target_pid) [] ssl_calls /\
  Forall (fun ev => PID ev = target_pid /\ DataLen ev <= dataCap) (map snd (ev_got s)).
Proof.
  intros (Hw & Hwt & Hn & Hnt) Hf.
  destruct (finished_delivered _ _ Hf) as [(_ & _ & Hev & Her) [Ht Hte]].
  destruct (observed_events _ _ (syscall_observed target_pid calls Hw Hn)) as (evs & Hv & Hp & He).
  destruct (observed_events _ _ (tls_observed target_pid ssl_calls Hwt Hnt)) as (evs' & Hv' & Hp' & He').
  pose proof (sound_events _ _ (proj1 (syscall_run_safe target_pid calls Hw))) as Hs.
  pose proof (sound_events _ _ (proj1 (tls_run_safe target_pid ssl_calls Hwt))) as Hst.
  rewrite <-(Hev 0%nat _ eq_refl) in Hp, Hs. rewrite <-(Hev 1%nat _ eq_refl) in Hp', Hst.
  rewrite <-(Her 0%nat _ eq_refl) in He. rewrite <-(Her 1%nat _ eq_refl) in He'.
  split_and!; [|congruence|congruence|].
  - apply (from_nil 2); [exact Hte|]. intros [|[|i]] Hi; [done|done|lia].
  - apply (Forall_from _ 2); [exact Ht|]. intros [|[|i]] Hi; [done|done|lia].
Qed.

(** *** The two objects report events of different connections *)

Lemma reports_Forall {H1} (P : Event -> Prop) (report_call : list H1 -> H1 -> list Event) hist calls :
  (forall hist h, Forall P (report_call hist h)) -> Forall P (reports report_call hist calls).
Proof.
  intros Hr. revert hist. induction calls as [|h calls IH]; intros hist; [constructor|].
  simpl. by apply Forall_app.
Qed.

Definition plain (ev : Event) : Prop := Operation ev <> OpSSLRead /\ Operation ev <> OpSSLWrite.

Lemma syscall_reports_plain hist calls : Forall plain (reports (syscall_report target_pid) hist calls).
Proof.
  apply reports_Forall. clear. intros hist [t hit]. unfold syscall_report, report.
  repeat case_match; repeat constructor; done.
Qed.

Lemma tls_reports_ssl hist calls : Forall (fun ev => ~ plain ev) (reports (tls_report target_pid) hist calls).
Proof.
  apply reports_Forall. clear. intros hist [t hit]. unfold tls_report, report.
  repeat case_match; repeat constructor; intros [H1' H2']; done.
Qed.

Lemma key_kind k ev : key_of ev = Some k -> k_kind k = connFD <-> plain ev.
Proof.
  unfold key_of, plain. intros Hk. repeat case_decide; simplify_eq/=.
  - split; [intros _|done]. destruct H0 as [->|[->| ->]]; done.
  - split; [done|]. naive_solver.
Qed.

(** The operation is part of the view. *)
Lemma plain_view (P : Prop -> Prop) evs :
  Forall (fun ev => P (plain ev)) (map view evs) -> Forall (fun ev => P (plain ev)) evs.
Proof. rewrite Forall_map. intros Hf. eapply Forall_impl; [exact Hf|]. by intros []. Qed.

(** Two runs of the collector on the same calls differ for the streamer in the
    interleaving of connections only. *)
Lemma finished_same_streams calls ssl_calls s s' :
  wf_calls calls ssl_calls ->
  finished (rings_of Little target_pid calls (Some ssl_calls)) s ->
  finished (rings_of Little target_pid calls (Some ssl_calls)) s' ->
  same_streams (map snd (ev_got s)) (map snd (ev_got s')).
Proof.
  intros Hw Hf Hf'. destruct (kernel_delivers calls ssl_calls s Hw Hf) as (_ & H0 & H1 & _).
  destruct (finished_delivered _ _ Hf) as [(_ & _ & Hev & _) [Ht _]].
  destruct (finished_delivered _ _ Hf') as [(_ & _ & Hev' & _) [Ht' _]].
  pose proof (merged_tagged _ Ht) as Hm. pose proof (merged_tagged _ Ht') as Hm'.
  rewrite (Hev' 0%nat _ eq_refl), <-(Hev 0%nat _ eq_refl), (Hev' 1%nat _ eq_refl), <-(Hev 1%nat _ eq_refl) in Hm'.
  assert (Forall plain (from 0 (ev_got s))) as Hp.
  { apply (plain_view (fun p => p)). rewrite H0. apply syscall_reports_plain. }
  assert (Forall (fun ev => ~ plain ev) (from 1 (ev_got s))) as Hs.
  { apply (plain_view not). rewrite H1. apply tls_reports_ssl. }
  intros k. destruct (k_kind k) eqn:Ek.
  - rewrite (merged_filter_l _ _ _ _ Hm), (merged_filter_l _ _ _ _ Hm'); [done|..];
      (eapply Forall_impl; [exact Hs|]); intros ev Hn; apply not_true_iff_false;
      intros Hk%of_key_eq; by apply Hn, (key_kind k).
  - rewrite (merged_filter_r _ _ _ _ Hm), (merged_filter_r _ _ _ _ Hm'); [done|..];
      (eapply Forall_impl; [exact Hp|]); intros ev Hn; apply not_true_iff_false;
      intros Hk%of_key_eq; apply (key_kind k ev Hk) in Hn; congruence.
Qed.

End Delivery.

(** ** Theorems *)

Section Theorems.
Context `{UserMem} (target_pid : Z).

(** [C13] [trace --no-tui] from the system calls to the printed text: whatever the
    ring buffers' stale memory, their full moments and the interleaving of the
    two readers, once the collector is closed there are no collector errors,
    the printer never panics, and the lines it printed for each of the two
    programs are, in order, those of the events its specification reports for
    the process's calls. *)
Theorem plain_text_trace `{UnicodePrint, Clock} comm monoRefNs wallRef calls ssl_calls s :
  wf_calls target_pid calls ssl_calls ->
  finished (rings_of Little target_pid calls (Some ssl_calls)) s ->
  err_got s = [] /\
  exists lines,
    Print_lines comm (EventTime monoRefNs wallRef) (map snd (ev_got s)) =
      Ok (map (fun l => l ++ [LF]) lines) /\
    let printed i := from i (zip (map fst (ev_got s)) lines) in
    let line_of e line := Format e (comm (PID e)) (EventTime monoRefNs wallRef e) = Ok line in
    Forall2 line_of (reports (syscall_report target_pid) [] calls) (printed 0%nat) /\
    Forall2 line_of (reports (tls_report target_pid) [] ssl_calls) (printed 1%nat).
Proof.
  intros Hw Hf. destruct (kernel_delivers target_pid calls ssl_calls s Hw Hf) as (He & Hs0 & Hs1 & Hd).
  split; [done|].
  destruct (Print_lines_Ok comm (EventTime monoRefNs wallRef) (map snd (ev_got s))) as (lines & Hp & Hl).
  { eapply Forall_impl; [exact Hd|naive_solver]. }
  exists lines. split; [done|]. rewrite <-Hs0, <-Hs1. cbv zeta.
  assert (forall i, Forall2 (fun e line => Format e (comm (PID e)) (EventTime monoRefNs wallRef e) = Ok line)
    (map view (from i (ev_got s))) (from i (zip (map fst (ev_got s)) lines))) as Hi; [|by split].
  intros i. apply Forall2_fmap_l. eapply Forall2_impl; [by apply Forall2_from|].
  intros ev line Hline. unfold compose. rewrite Format_view. by destruct ev.
Qed.

(** [record] from the system calls to the exchanges: once the collector is
    closed the streamer has seen exactly the reported events, and its exchanges
    are those of the specification's event sequence. *)
Theorem record_exchanges `{Unicode, NetHTTP} order calls s :
  Forall (fun th => wf_task th.1) calls ->
  (size (entered (syscall_op target_pid) calls) <= Syscall.max_entries)%nat ->
  finished (rings_of Little target_pid calls None) s ->
  err_got s = [] /\
  map view (map snd (ev_got s)) = reports (syscall_report target_pid) [] calls /\
  Streamer.Run order (map snd (ev_got s)) =
  let? (_, exs) := Streamer.Run order (reports (syscall_report target_pid) [] calls) in
  Ok (map snd (ev_got s), exs).
Proof.
  intros Hw Hn Hf. destruct (finished_delivered _ _ Hf) as [(_ & _ & Hev & Her) [Ht Hte]].
  destruct (observed_events _ _ (syscall_observed target_pid calls Hw Hn)) as (evs & Hv & Hp & He).
  rewrite <-(Hev 0%nat _ eq_refl), (from_all _ Ht) in Hp. rewrite <-(Her 0%nat _ eq_refl) in He.
  split; [|split; [by rewrite Hp|by rewrite Run_view, Hp, Hv]].
  apply (from_nil 1); [exact Hte|]. by intros [|i] ?; [|lia].
Qed.

(** [C14] The exchanges of a trace with [--tls] are determined by the calls: however the
    readers of the two ring buffers are scheduled, and in whatever order the
    connections left open are flushed, the streamer sends the same exchanges up
    to their order. *)
Theorem exchanges_determined `{Unicode, NetHTTP} order order' calls ssl_calls s s' :
  (forall l, order l ≡ₚ l) -> (forall l, order' l ≡ₚ l) ->
  wf_calls target_pid calls ssl_calls ->
  finished (rings_of Little target_pid calls (Some ssl_calls)) s ->
  finished (rings_of Little target_pid calls (Some ssl_calls)) s' ->
  same_exchanges (Streamer.Run order (map snd (ev_got s))) (Streamer.Run order' (map snd (ev_got s'))).
Proof. intros Ho Ho' Hw Hf Hf'. apply Run_streams; [done..|]. by eapply finished_same_streams. Qed.

(** [C32] A big-endian build traces nothing: the programs write their records in the
    host's byte order and [decodeEvent] reads them little-endian, so that no
    decoded event has an operation the streamer knows other than [OpConnect];
    there is never an exchange. *)
Theorem big_endian_no_exchange `{Unicode, NetHTTP} order calls ssl_calls s :
  (forall l, order l ≡ₚ l) ->
  Forall (fun th => wf_task th.1) calls -> Forall (fun th => wf_task th.1) ssl_calls ->
  finished (rings_of Big target_pid calls (Some ssl_calls)) s ->
  Streamer.Run order (map snd (ev_got s)) = Ok (map snd (ev_got s), []).
Proof.
  intros Ho Hw Hwt Hf. destruct (finished_delivered _ _ Hf) as [(_ & _ & Hev & _) [Ht _]].
  destruct (runs_foreign target_pid calls ssl_calls Hw Hwt) as [Hs Hst].
  assert (Forall (fun ev => key_of ev = None) (map snd (ev_got s))) as Hk.
  { apply (Forall_from _ 2); [exact Ht|]. intros [|[|i]] Hi; [..|lia].
    - rewrite (Hev 0%nat _ eq_refl). by apply foreign_events.
    - rewrite (Hev 1%nat _ eq_refl). by apply foreign_events. }
  unfold Streamer.Run. rewrite (loop_foreign _ _ Hk). simpl.
  assert (order (map_to_list (∅ : gmap key connBufs)) = []) as ->; [|done].
  apply Permutation_nil_r. by rewrite Ho, map_to_list_empty.
Qed.

End Theorems.

(** ** Witnesses *)

#[local] Existing Instance flat_memory.

(** Nothing is left to do. *)
Definition idle (s : run_state) : bool :=
  forallb (fun r => negb (running r)) (readers s) && closed_events s && closed_errs s &&
  match ev_buf s, err_buf s with [], [] => true | _, _ => false end.

Lemma idle_stuck s : idle s = true -> forall s', ~ steps_by run_step s s'.
Proof.
  destruct s as [rs wg evs errs ce cr ge gr pn]. unfold idle. simpl. rewrite !andb_true_iff.
  intros [[[Hr ->] ->] Hb] s' [[i| | | |] Hs]; destruct evs, errs; simpl in *; try done.
  - destruct (rs !! i) as [[t|]|] eqn:Hi; [|done..].
    rewrite forallb_forall in Hr. apply list_elem_of_lookup_2, list_elem_of_In, Hr in Hi. done.
  - by rewrite andb_false_r in Hs.
Qed.

Definition after (ls : list run_label) (rings : list (list read_result)) : run_state :=
  default (Collector.Run rings) (run_labels run_step ls (Collector.Run rings)).

Lemma after_finished ls rings :
  bool_decide (is_Some (run_labels run_step ls (Collector.Run rings))) = true ->
  idle (after ls rings) = true -> finished rings (after ls rings).
Proof.
  unfold after. intros [s Hs]%bool_decide_eq_true Hi. rewrite Hs in *. split; [|by apply idle_stuck].
  by eapply run_labels_rtc.
Qed.

(** Both readers take turns, then the receiver drains the channel. *)
Definition sample_schedule : list run_label :=
  [LReader 0; LReader 1; LReader 0; LReader 1; LReader 0; LReader 1; LReader 0;
   LCloseEvents; LCloseErrs] ++ replicate 5 LRecvEvent.

Lemma sample_finished host :
  finished (rings_of host 42 sample_calls (Some sample_ssl_calls))
    (after sample_schedule (rings_of host 42 sample_calls (Some sample_ssl_calls))).
Proof. apply after_finished; destruct host; vm_compute; reflexivity. Qed.

Lemma plain_text_trace_witness :
  let s := after sample_schedule (rings_of Little 42 sample_calls (Some sample_ssl_calls)) in
  err_got s = [] /\
  exists lines,
    @Print_lines print_all fixed_clock (fun _ => str "app") (EventTime 0 0) (map snd (ev_got s)) =
      Ok (map (fun l => l ++ [LF]) lines) /\
    let printed i := from i (zip (map fst (ev_got s)) lines) in
    let line_of e line := @Format print_all fixed_clock e (str "app") (EventTime 0 0 e) = Ok line in
    Forall2 line_of (reports (syscall_report 42) [] sample_calls) (printed 0%nat) /\
    Forall2 line_of (reports (tls_report 42) [] sample_ssl_calls) (printed 1%nat).
Proof.
  exact (@plain_text_trace flat_memory 42 print_all fixed_clock (fun _ => str "app") 0 0
    sample_calls sample_ssl_calls _
    (conj sample_calls_wf (conj sample_ssl_calls_wf sample_room)) (sample_finished Little)).
Defined.

(** A SET on one connection, then its close. *)
Definition redis_calls : list (task * Syscall.hit) :=
  let t p m := sample_task p (str m) in
  let set_k := str "*3" ++ crlf ++ str "$3" ++ crlf ++ str "SET" ++ crlf ++ str "$1" ++ crlf ++
               str "k" ++ crlf ++ str "$1" ++ crlf ++ str "v" ++ crlf in
  [(sample_task 42 set_k, Syscall.sys_enter_write (args_of [8; 4096; 27]));
   (t 42 "", Syscall.sys_enter_read (args_of [8; 4096; 1024]));
   (sample_task 42 (str "+OK" ++ crlf), Syscall.sys_exit_read 5);
   (t 42 "", Syscall.sys_enter_close (args_of [8]))].

Definition record_schedule : list run_label :=
  replicate 4 (LReader 0) ++ [LCloseEvents; LCloseErrs] ++ replicate 3 LRecvEvent.

Lemma record_exchanges_witness :
  let s := after record_schedule (rings_of Little 42 redis_calls None) in
  err_got s = [] /\
  map view (map snd (ev_got s)) = reports (syscall_report 42) [] redis_calls /\
  @Streamer.Run ascii_only tiny_http (fun l => l) (map snd (ev_got s)) =
  (let? (_, exs) := @Streamer.Run ascii_only tiny_http (fun l => l)
                      (reports (syscall_report 42) [] redis_calls) in
   Ok (map snd (ev_got s), exs)) /\
  @Streamer.Run ascii_only tiny_http (fun l => l) (reports (syscall_report 42) [] redis_calls) =
  Ok (reports (syscall_report 42) [] redis_calls,
      [mkExchange 42 8 ProtocolRedis None [mkCall [str "SET"; str "k"; str "v"] (str "OK")] false]).
Proof.
  assert (Forall (fun th => wf_task th.1) redis_calls) as Hw
    by (repeat constructor; apply sample_task_wf; unfold inU; lia).
  assert ((size (entered (syscall_op 42) redis_calls) <= Syscall.max_entries)%nat) as Hn
    by (apply Nat.leb_le; vm_compute; reflexivity).
  assert (finished (rings_of Little 42 redis_calls None)
            (after record_schedule (rings_of Little 42 redis_calls None))) as Hf
    by (apply after_finished; vm_compute; reflexivity).
  destruct (@record_exchanges flat_memory 42 ascii_only tiny_http (fun l => l) redis_calls _ Hw Hn Hf)
    as (H1 & H2 & H3).
  split; [exact H1|split; [exact H2|split; [exact H3|run]]].
Defined.

Lemma big_endian_no_exchange_witness :
  let s := after sample_schedule (rings_of Big 42 sample_calls (Some sample_ssl_calls)) in
  length (ev_got s) = 5%nat /\
  @Streamer.Run ascii_only tiny_http (fun l => l) (map snd (ev_got s)) = Ok (map snd (ev_got s), []).
Proof.
  split; [run|].
  refine (@big_endian_no_exchange flat_memory 42 ascii_only tiny_http (fun l => l) sample_calls
    sample_ssl_calls _ _ sample_calls_wf _ (sample_finished Big)); [reflexivity|].
  eapply Forall_impl; [exact sample_ssl_calls_wf|]. intros ? [? _]. assumption.
Defined.

(** The second reader first. *)
Definition other_schedule : list run_label :=
  replicate 3 (LReader 1) ++ replicate 4 (LReader 0) ++ [LCloseEvents; LCloseErrs] ++ replicate 5 LRecvEvent.

Lemma exchanges_determined_witness :
  let s := after sample_schedule (rings_of Little 42 sample_calls (Some sample_ssl_calls)) in
  let s' := after other_schedule (rings_of Little 42 sample_calls (Some sample_ssl_calls)) in
  map fst (ev_got s) = [0; 1; 0; 1; 0]%nat /\ map fst (ev_got s') = [1; 1; 0; 0; 0]%nat /\
  @same_exchanges tiny_http (@Streamer.Run ascii_only tiny_http (fun l => l) (map snd (ev_got s)))
    (@Streamer.Run ascii_only tiny_http reverse (map snd (ev_got s'))).
Proof.
  assert (finished (rings_of Little 42 sample_calls (Some sample_ssl_calls))
    (after other_schedule (rings_of Little 42 sample_calls (Some sample_ssl_calls)))) as Hf'
    by (apply after_finished; vm_compute; reflexivity).
  split; [run|split; [run|]].
  apply (@exchanges_determined flat_memory 42 ascii_only tiny_http (fun l => l) reverse sample_calls sample_ssl_calls);
    [done|apply reverse_Permutation|exact (conj sample_calls_wf (conj sample_ssl_calls_wf sample_room))|
     exact (sample_finished Little)|exact Hf'].
Defined.
