(* ===== verification/Tui.v ===== *)
(** * internal/tui: the live view

    Column layout and colouring of rendered tables, the three tabs, and the
    top-level model.  The table widget, the styling library (charmbracelet) and
    the clock are interfaces. *)

From S2P Require Import Prelude GoStd GoText GoRune Event Resp Http Streamer Correlator Printer.
Local Open Scope Z_scope.
Local Open Scope go_scope.

(** [maxRows] *)
Definition maxRows : nat := 500.

(** ** Styling *)

Abbreviation color := bytes.

Definition colorAccent : color := str "141".
Definition colorBarBg : color := str "236".
Definition colorLive : color := str "84".
Definition colorEnded : color := str "203".
Definition colorCyan : color := str "51".
Definition colorGreen : color := str "84".
Definition colorYellow : color := str "228".
Definition colorRed : color := str "203".
Definition colorMagenta : color := str "213".
Definition colorDim : color := str "244".
Definition colorBlue : color := str "111".

(** The attributes set on a [lipgloss.NewStyle()]. *)
Inductive attr :=
| Foreground (c : color)
| Background (c : color)
| Bold
| Padding (vertical horizontal : Z)
| Width (w : Z)
| RoundedBorder
| BorderForeground (c : color).
Abbreviation style := (list attr).

(** [Style.Render] and [lipgloss.Width]. *)
Class Lipgloss := {
  Render : style -> bytes -> bytes;
  lipgloss_Width : bytes -> Z;
}.

(** [table.Column] *)
Record Column := mkColumn { col_Title : bytes; col_Width : Z }.

(** [columnStart]: the columns before [idx] shift it by their width and two
    padding cells each. *)
Fixpoint columnStart_from (pos : Z) (cols : list Column) (idx : nat) : Z * Z :=
  match cols, idx with
  | [], _ => (-1, 0)
  | c :: _, O => (pos + 1, col_Width c)
  | c :: cols, S idx => columnStart_from (pos + (col_Width c + 2)) cols idx
  end.
Definition columnStart (cols : list Column) (idx : nat) : Z * Z := columnStart_from 0 cols idx.

(** [runes\[lo:hi\]] for [0 <= lo <= hi <= len(runes)]. *)
Definition slice (lo hi : Z) (rs : list Z) : list Z :=
  take (Z.to_nat (hi - lo)) (drop (Z.to_nat lo) rs).

Section Colors.
Context `{Lipgloss}.

(** [colorizeAt] *)
Definition colorizeAt (line : bytes) (offset width : Z) (c : color) : bytes :=
  let rs := runes line in
  if (offset <? 0) || (width <=? 0) || (Z.of_nat (length rs) <? offset + width) then line
  else
    let cell := string_of (slice offset (offset + width) rs) in
    let trimmed := TrimRight cell [Byte.x20] in
    if decide (trimmed = []) then line
    else
      let pad := drop (length trimmed) cell in
      let styled := Render [Foreground c] trimmed in
      string_of (slice 0 offset rs) ++ styled ++ pad ++
      string_of (slice (offset + width) (Z.of_nat (length rs)) rs).

(** The loop of [colorizeColumn] on one data line. *)
Definition colorizeLine (offset width : Z) (colorFn : bytes -> color) (line : bytes) : bytes :=
  let rs := runes line in
  if Z.of_nat (length rs) <? offset + width then line
  else
    let token := TrimSpace (string_of (slice offset (offset + width) rs)) in
    if decide (token = []) then line
    else colorizeAt line offset width (colorFn token).

(** [colorizeColumn]: every line but the header. *)
Definition colorizeColumn (view : bytes) (cols : list Column) (colIdx : nat)
    (colorFn : bytes -> color) : bytes :=
  let (offset, width) := columnStart cols colIdx in
  if offset <? 0 then view
  else
    match SplitLines view with
    | [] => JoinLines []
    | header :: lines => JoinLines (header :: map (colorizeLine offset width colorFn) lines)
    end.

End Colors.

(** [opColor], [methodColor], [statusColor], [stateColor], [truncColor] *)
Definition opColor (op : bytes) : color :=
  if HasPrefix op (str "CONNECT") then colorCyan
  else if HasPrefix op (str "READ") then colorGreen
  else if HasPrefix op (str "WRITE") then colorYellow
  else if HasPrefix op (str "CLOSE") then colorDim
  else if HasPrefix op (str "SSL_") then colorMagenta
  else colorDim.

Definition methodColor (method : bytes) : color :=
  if decide (method = str "GET") then colorBlue
  else if decide (method ∈ [str "POST"; str "PUT"; str "PATCH"]) then colorGreen
  else if decide (method = str "DELETE") then colorRed
  else colorDim.

Definition statusColor (status : bytes) : color :=
  if decide (status = [] \/ status = str "-") then colorDim
  else
    match status with
    | Byte.x32 :: _ => colorGreen
    | Byte.x33 :: _ => colorBlue
    | Byte.x34 :: _ => colorYellow
    | Byte.x35 :: _ => colorRed
    | _ => colorDim
    end.

Definition stateColor (state : bytes) : color :=
  if decide (state = str "open") then colorGreen else colorDim.

Definition truncColor (v : bytes) : color :=
  if decide (v = str "yes") then colorYellow else colorDim.

(** ** The table widget

    [table.Model]; its [Update], on the messages below, may change its cursor
    and return a command of its own. *)
Abbreviation Row := (list bytes).

Class Table := {
  key : Type;
  key_String : key -> bytes;
  other : Type;
  tcmd : Type;
  table : Type;
  table_New : list Column -> table;      (* focused, height 20, default styles *)
  table_SetRows : list Row -> table -> table;
  table_GotoBottom : table -> table;
  table_SetWidth : Z -> table -> table;
  table_SetHeight : Z -> table -> table;
  table_View : table -> bytes;
  table_Columns : table -> list Column;
}.

Section Tui.
Context `{Lipgloss, Table, UnicodePrint, Clock, NetHTTP}.

(** [collector.Comm] *)
Context (comm : Z -> bytes).

(** ** Messages and commands *)

Inductive msg :=
| KeyMsg (k : key)
| WindowSizeMsg (width height : Z)
| EventMsg (ev : Event) (t : Z)
| EventsClosedMsg
| ConnMsg (c : Connection)
| ConnsClosedMsg
| HttpMsg (ex : Exchange)
| HttpClosedMsg
| OtherMsg (o : other).

(** [tea.Cmd]; the three waits receive from a channel. *)
Inductive cmd :=
| NoCmd
| Quit
| WaitForEvent
| WaitForConn
| WaitForExchange
| TableCmd (c : tcmd)
| Batch (cs : list cmd).

(** [waitForEvent], [waitForConn], [waitForExchange]: the message made of what
    the receive returns ([None] once the channel is closed). *)
Definition waitForEvent (timeOf : Event -> Z) (recv : option Event) : msg :=
  match recv with Some ev => EventMsg ev (timeOf ev) | None => EventsClosedMsg end.
Definition waitForConn (recv : option Connection) : msg :=
  match recv with Some c => ConnMsg c | None => ConnsClosedMsg end.
Definition waitForExchange (recv : option Exchange) : msg :=
  match recv with Some ex => HttpMsg ex | None => HttpClosedMsg end.

Class TableUpdate := { table_update : msg -> table -> table * option tcmd }.
Context `{TableUpdate}.

(** [m.table, cmd = m.table.Update(msg)] *)
Definition table_Update (g : msg) (t : table) : table * cmd :=
  let (t, c) := table_update g t in
  (t, match c with Some c => TableCmd c | None => NoCmd end).

(** The rows a tab keeps: [rows = rows\[len(rows)-maxRows:\]] once there are
    more. *)
Definition cap_rows (rows : list Row) : list Row :=
  if (maxRows <? length rows)%nat then drop (length rows - maxRows) rows else rows.

(** ** Events tab *)

Record eventsTab := mkEventsTab { e_table : table; e_rows : list Row; e_closed : bool }.

Definition newEventsTab : eventsTab :=
  mkEventsTab
    (table_New [mkColumn (str "Time") 12; mkColumn (str "PID") 8; mkColumn (str "Comm") 12;
                mkColumn (str "FD") 5; mkColumn (str "Op") 8; mkColumn (str "Detail") 60]) [] false.

Definition opName (op : Z) : bytes :=
  if decide (op = OpConnect) then str "CONNECT"
  else if decide (op = OpWrite) then str "WRITE"
  else if decide (op = OpRead) then str "READ"
  else if decide (op = OpClose) then str "CLOSE"
  else if decide (op = OpSSLWrite) then str "SSL_WRITE"
  else if decide (op = OpSSLRead) then str "SSL_READ"
  else str "OP(" ++ Itoa op ++ str ")".

Definition eventDetail (ev : Event) : safe bytes :=
  if decide (Operation ev = OpConnect) then Ok (str "-> " ++ RemoteAddrString ev)
  else if decide (Operation ev = OpWrite \/ Operation ev = OpRead) then payload_text ev
  else if decide (Operation ev = OpSSLWrite \/ Operation ev = OpSSLRead) then
    let? p := payload_text ev in Ok (str "ssl=" ++ sharp_x (SSLPtr ev) ++ str " " ++ p)
  else Ok [].

Definition eventRow (ev : Event) (t : Z) : safe Row :=
  let? detail := eventDetail ev in
  Ok [clock_Format t; Itoa (PID ev); comm (PID ev); Itoa (FD ev); opName (Operation ev); detail].

Definition eventsTab_update (g : msg) (m : eventsTab) : safe (eventsTab * cmd) :=
  match g with
  | EventMsg ev t =>
      let? row := eventRow ev t in
      let rows := cap_rows (e_rows m ++ [row]) in
      Ok (mkEventsTab (table_GotoBottom (table_SetRows rows (e_table m))) rows (e_closed m), WaitForEvent)
  | EventsClosedMsg => Ok (mkEventsTab (e_table m) (e_rows m) true, NoCmd)
  | _ => let (t, c) := table_Update g (e_table m) in Ok (mkEventsTab t (e_rows m) (e_closed m), c)
  end.

Definition eventsTab_view (m : eventsTab) : bytes :=
  colorizeColumn (table_View (e_table m)) (table_Columns (e_table m)) 4 opColor.

(** ** Connections tab *)

Record connsTab := mkConnsTab {
  c_table : table;
  c_index : gmap Z nat;   (* Connection.Seq -> row *)
  c_rows : list Row;
  c_closed : bool;
}.

Definition newConnsTab : connsTab :=
  mkConnsTab
    (table_New [mkColumn (str "PID") 8; mkColumn (str "Comm") 12; mkColumn (str "FD") 5;
                mkColumn (str "Remote") 22; mkColumn (str "Out") 10; mkColumn (str "In") 10;
                mkColumn (str "State") 8]) ∅ [] false.

Definition connRow (c : Connection) : Row :=
  [Itoa (c_PID c); Comm c; Itoa (c_FD c); conn_RemoteAddrString c; Itoa (BytesOut c);
   Itoa (BytesIn c); if Closed c then str "closed" else str "open"].

(** The row update: in place for a known [Seq] (an index out of range would
    panic), appended for a new one. *)
Definition upsert (c : Connection) (index : gmap Z nat) (rows : list Row) :
    safe (gmap Z nat * list Row) :=
  match index !! Seq c with
  | Some idx =>
      if (idx <? length rows)%nat then Ok (index, <[idx := connRow c]> rows) else Panic PanicIndex
  | None => Ok (<[Seq c := length rows]> index, rows ++ [connRow c])
  end.

Definition connsTab_update (g : msg) (m : connsTab) : safe (connsTab * cmd) :=
  match g with
  | ConnMsg c =>
      let? (index, rows) := upsert c (c_index m) (c_rows m) in
      Ok (mkConnsTab (table_SetRows rows (c_table m)) index rows (c_closed m), WaitForConn)
  | ConnsClosedMsg => Ok (mkConnsTab (c_table m) (c_index m) (c_rows m) true, NoCmd)
  | _ => let (t, c) := table_Update g (c_table m) in
         Ok (mkConnsTab t (c_index m) (c_rows m) (c_closed m), c)
  end.

Definition connsTab_view (m : connsTab) : bytes :=
  colorizeColumn (table_View (c_table m)) (table_Columns (c_table m)) 6 stateColor.

(** ** HTTP tab *)

Record httpTab := mkHttpTab { h_table : table; h_rows : list Row; h_closed : bool }.

Definition newHTTPTab : httpTab :=
  mkHttpTab
    (table_New [mkColumn (str "PID") 8; mkColumn (str "FD") 5; mkColumn (str "Method") 8;
                mkColumn (str "Path") 20; mkColumn (str "Status") 8; mkColumn (str "Body") 40;
                mkColumn (str "Trunc") 6]) [] false.

Definition httpRow (ex : Exchange) : Row :=
  let request := match ex_HTTP ex with Some h => ex_Request h | None => None end in
  let response := match ex_HTTP ex with Some h => ex_Response h | None => None end in
  let requestBody := match ex_HTTP ex with Some h => ex_RequestBody h | None => [] end in
  let responseBody := match ex_HTTP ex with Some h => ex_ResponseBody h | None => [] end in
  let '(method, path, body) :=
    match request with
    | Some req => (Method req, URL_Path req, requestBody)
    | None => (str "-", str "-", [])
    end in
  let '(status, body) :=
    match response with
    | Some resp => (Itoa (StatusCode resp), responseBody)
    | None => (str "-", body)
    end in
  let preview := if (37 <? length body)%nat then take 37 body ++ str "..." else body in
  [Itoa (ex_PID ex); Itoa (ex_FD ex); method; path; status; preview;
   if ex_Truncated ex then str "yes" else []].

Definition httpTab_update (g : msg) (m : httpTab) : httpTab * cmd :=
  match g with
  | HttpMsg ex =>
      (match ex_Protocol ex with
       | ProtocolHTTP =>
           let rows := cap_rows (h_rows m ++ [httpRow ex]) in
           mkHttpTab (table_GotoBottom (table_SetRows rows (h_table m))) rows (h_closed m)
       | _ => m
       end, WaitForExchange)
  | HttpClosedMsg => (mkHttpTab (h_table m) (h_rows m) true, NoCmd)
  | _ => let (t, c) := table_Update g (h_table m) in (mkHttpTab t (h_rows m) (h_closed m), c)
  end.

Definition httpTab_view (m : httpTab) : bytes :=
  let cols := table_Columns (h_table m) in
  let v := table_View (h_table m) in
  let v := colorizeColumn v cols 2 methodColor in
  let v := colorizeColumn v cols 4 statusColor in
  colorizeColumn v cols 6 truncColor.

(** ** Top-level model *)

Inductive tab := tabEvents | tabConnections | tabHTTP.

Definition tabNames : list (tab * bytes) :=
  [(tabEvents, str "Events"); (tabConnections, str "Connections"); (tabHTTP, str "HTTP")].

(** [(active + 1) % 3] *)
Definition next_tab (t : tab) : tab :=
  match t with
  | tabEvents => tabConnections
  | tabConnections => tabHTTP
  | tabHTTP => tabEvents
  end.

Record Model := mkModel {
  active : tab;
  events : eventsTab;
  conns : connsTab;
  http : httpTab;
  width : Z;
  height : Z;
}.

Definition newModel : Model := mkModel tabEvents newEventsTab newConnsTab newHTTPTab 80 24.

(** The tabs' [init] and [Init]: one receive on each stream. *)
Definition eventsTab_init (m : eventsTab) : cmd := WaitForEvent.
Definition connsTab_init (m : connsTab) : cmd := WaitForConn.
Definition httpTab_init (m : httpTab) : cmd := WaitForExchange.
Definition Init (m : Model) : cmd :=
  Batch [eventsTab_init (events m); connsTab_init (conns m); httpTab_init (http m)].

Definition chromeHeight : Z := 2 + 1 + 1 + 1.
Definition chromeWidth : Z := 4.

(** A window size: every table gets the interior, at least 1 by 1. *)
Definition resize (w h : Z) (m : Model) : Model :=
  let tw := Z.max 1 (w - chromeWidth) in
  let th := Z.max 1 (h - chromeHeight) in
  let set t := table_SetHeight th (table_SetWidth tw t) in
  mkModel (active m)
    (mkEventsTab (set (e_table (events m))) (e_rows (events m)) (e_closed (events m)))
    (mkConnsTab (set (c_table (conns m))) (c_index (conns m)) (c_rows (conns m)) (c_closed (conns m)))
    (mkHttpTab (set (h_table (http m))) (h_rows (http m)) (h_closed (http m))) w h.

(** The end of [Update]: every tab gets the message. *)
Definition broadcast (g : msg) (m : Model) : safe (Model * cmd) :=
  let? (e, c0) := eventsTab_update g (events m) in
  let? (c, c1) := connsTab_update g (conns m) in
  let (h, c2) := httpTab_update g (http m) in
  Ok (mkModel (active m) e c h (width m) (height m), Batch [c0; c1; c2]).

(** [Update] *)
Definition Update (g : msg) (m : Model) : safe (Model * cmd) :=
  match g with
  | KeyMsg k =>
      if decide (key_String k ∈ [str "ctrl+c"; str "q"]) then Ok (m, Quit)
      else if decide (key_String k = str "tab") then
        Ok (mkModel (next_tab (active m)) (events m) (conns m) (http m) (width m) (height m), NoCmd)
      else broadcast g m
  | WindowSizeMsg w h => broadcast g (resize w h m)
  | _ => broadcast g m
  end.

(** [barWidth] *)
Definition barWidth (m : Model) : Z := Z.max 1 (width m - chromeWidth).

(** [titleBar] *)
Definition titleBar (width : Z) (live : bool) : safe bytes :=
  let '(status, statusFg) :=
    if live then (str "● LIVE", colorLive) else (str "● trace ended", colorEnded) in
  let left := Render [Background colorBarBg; Foreground (str "255"); Bold] (str " Wiremark ") in
  let right := Render [Background colorBarBg; Foreground statusFg; Bold] (status ++ str " ") in
  let gap := width - lipgloss_Width left - lipgloss_Width right in
  let gap := if gap <? 0 then 0 else gap in
  let? fill := Repeat (str " ") gap in
  Ok (left ++ Render [Background colorBarBg] fill ++ right).

(** [tabBar] *)
Definition tabBar (width : Z) (active : tab) : bytes :=
  let activeStyle := [Background colorAccent; Foreground (str "235"); Bold; Padding 0 2] in
  let inactiveStyle := [Foreground (str "245"); Padding 0 2] in
  let part '(t, name) :=
    Render (match t, active with
            | tabEvents, tabEvents | tabConnections, tabConnections | tabHTTP, tabHTTP => activeStyle
            | _, _ => inactiveStyle
            end) name in
  Render [Width width] (Join (map part tabNames) (str " ")).

(** [footerBar] *)
Definition footerBar (width : Z) : bytes :=
  let keyStyle := [Bold; Foreground (str "235"); Background colorAccent; Padding 0 1] in
  let descStyle := [Foreground colorDim] in
  Render [Width width]
    (Render keyStyle (str "TAB") ++ Render descStyle (str " switch view    ") ++
     Render keyStyle (str "Q") ++ Render descStyle (str " quit")).

(** [View] *)
Definition View (m : Model) : safe bytes :=
  let width := barWidth m in
  let '(body, live) :=
    match active m with
    | tabConnections => (connsTab_view (conns m), negb (c_closed (conns m)))
    | tabHTTP => (httpTab_view (http m), negb (h_closed (http m)))
    | tabEvents => (eventsTab_view (events m), negb (e_closed (events m)))
    end in
  let? title := titleBar width live in
  let inner := JoinLines [title; tabBar width (active m); body; footerBar width] in
  Ok (Render [RoundedBorder; BorderForeground colorAccent; Padding 0 1] inner).

(** The program loop of [Run]: the messages delivered until the quit command. *)
Fixpoint program (msgs : list msg) (m : Model) : safe (Model * bool) :=
  match msgs with
  | [] => Ok (m, false)
  | g :: msgs =>
      let? (m, c) := Update g m in
      match c with Quit => Ok (m, true) | _ => program msgs m end
  end.

End Tui.

(** ** Lemmas: text *)

Lemma string_of_app a b : string_of (a ++ b) = string_of a ++ string_of b.
Proof. apply flat_map_app. Qed.

Lemma slice_split lo w rs :
  0 <= lo -> 0 <= w -> lo + w <= Z.of_nat (length rs) ->
  rs = slice 0 lo rs ++ slice lo (lo + w) rs ++ slice (lo + w) (Z.of_nat (length rs)) rs.
Proof.
  intros Hl Hw Hle. unfold slice. rewrite drop_0.
  rewrite (take_ge (drop _ _) (Z.to_nat (Z.of_nat (length rs) - (lo + w)))) by (rewrite length_drop; lia).
  replace (Z.to_nat (lo + w)) with (Z.to_nat lo + Z.to_nat w)%nat by lia.
  rewrite <-drop_drop. replace (lo + w - lo) with w by lia. rewrite Z.sub_0_r.
  by rewrite (take_drop (Z.to_nat w)), take_drop.
Qed.

Section Text.
Context `{Lipgloss}.

(** Spaces alone trim to nothing. *)
Lemma TrimSpace_spaces cell : Forall (fun c => c ∈ [Byte.x20]) cell -> TrimSpace cell = [].
Proof.
  intros Hp. assert (trim_left_space 0 cell = []) as E; [|unfold TrimSpace; by rewrite E].
  induction Hp as [|c cell Hc _ IH]; [done|]. by apply list_elem_of_singleton in Hc as ->.
Qed.

(** What colouring a data line is: [l'] is [l] with the column's text, [width]
    runes from the [offset]-th on but for the spaces they end in, rendered in
    the colour of the trimmed text; [l] itself when the line ends before the
    column does or the column is blank there. *)
Inductive coloured (offset width : nat) (colorFn : bytes -> color) (l : bytes) : bytes -> Prop :=
| coloured_short :
    (length (runes l) < offset + width)%nat -> coloured offset width colorFn l l
| coloured_blank a cell b :
    runes l = a ++ cell ++ b -> length a = offset -> length cell = width ->
    TrimSpace (string_of cell) = [] -> coloured offset width colorFn l l
| coloured_text a cell b t pad :
    runes l = a ++ cell ++ b -> length a = offset -> length cell = width ->
    TrimSpace (string_of cell) <> [] ->
    string_of cell = t ++ pad -> t <> [] -> last t <> Some Byte.x20 ->
    Forall (fun c => c = Byte.x20) pad ->
    l = string_of a ++ t ++ pad ++ string_of b ->
    coloured offset width colorFn l
      (string_of a ++ Render [Foreground (colorFn (TrimSpace (string_of cell)))] t ++ pad ++ string_of b).

(** A slice within bounds, as the middle of three parts. *)
Lemma slice_parts lo w rs :
  0 <= lo -> 0 <= w -> lo + w <= Z.of_nat (length rs) ->
  length (slice 0 lo rs) = Z.to_nat lo /\ length (slice lo (lo + w) rs) = Z.to_nat w.
Proof. intros. unfold slice. rewrite !length_take, !length_drop. lia. Qed.

Lemma colorizeLine_coloured offset width colorFn l :
  valid_utf8 l -> 0 <= offset -> 0 <= width ->
  coloured (Z.to_nat offset) (Z.to_nat width) colorFn l (colorizeLine offset width colorFn l).
Proof.
  intros Hv Ho Hw. unfold colorizeLine. cbv zeta. destruct (Z.ltb_spec (Z.of_nat (length (runes l))) (offset + width)).
  { constructor. lia. }
  pose proof (slice_split offset width (runes l) Ho Hw ltac:(lia)) as Hs.
  destruct (slice_parts offset width (runes l) Ho Hw ltac:(lia)) as [Ha Hc].
  set (cell := slice offset (offset + width) (runes l)) in *.
  case_decide as Hne; [by eapply coloured_blank|].
  unfold colorizeAt. cbv zeta. fold cell.
  destruct (TrimRight_spec (string_of cell) [Byte.x20]) as (pad & Hcell & Hpad & Hlast).
  set (t := TrimRight _ _) in *.
  assert (t <> []) as Ht.
  { intros E. rewrite E in Hcell. simpl in Hcell. subst pad. by apply Hne, TrimSpace_spaces. }
  assert (0 < width) as Hpos.
  { destruct (decide (width = 0)) as [->|]; [|lia]. by destruct cell. }
  rewrite (proj2 (Z.ltb_ge _ _) Ho), (proj2 (Z.leb_gt _ _) Hpos), (proj2 (Z.ltb_ge _ _)) by done.
  rewrite decide_False by done. cbn [orb].
  assert (drop (length t) (string_of cell) = pad) as -> by (rewrite Hcell at 1; apply drop_app_length).
  eapply coloured_text; [exact Hs|done..| | |].
  - intros Hx. destruct (last t) as [c|]; [|done]. simplify_eq. eapply Hlast; [done|by left].
  - eapply Forall_impl; [exact Hpad|]. intros c. apply list_elem_of_singleton.
  - rewrite (app_assoc t), <-Hcell, <-!string_of_app, <-Hs. symmetry. exact Hv.
Qed.

Lemma columnStart_from_spec pos cols idx col :
  cols !! idx = Some col ->
  columnStart_from pos cols idx =
  (pos + foldr Z.add 0 (map (fun c => col_Width c + 2) (take idx cols)) + 1, col_Width col).
Proof.
  revert pos idx. induction cols as [|c cols IH]; intros pos [|idx] Hi; simplify_eq/=.
  - f_equal. lia.
  - rewrite (IH _ idx) by done. f_equal. lia.
Qed.

End Text.

Lemma lines_from_cons cur s : exists l ls, lines_from cur s = l :: ls.
Proof.
  revert cur. induction s as [|c s IH]; intros cur; cbn [lines_from]; [by eexists _, _|].
  case_decide; [by eexists _, _|apply IH].
Qed.

Lemma JoinLines_lines cur s : JoinLines (lines_from cur s) = cur ++ s.
Proof.
  unfold JoinLines. revert cur. induction s as [|c s IH]; intros cur; cbn [lines_from].
  - by rewrite app_nil_r.
  - case_decide as Hc; [|by rewrite IH, <-app_assoc].
    destruct (lines_from_cons [] s) as (l & ls & E). specialize (IH []). rewrite E in *.
    subst. cbn [Join] in *. by rewrite IH.
Qed.

(** ** Lemmas: rows *)

Definition lastn {A} (n : nat) (l : list A) : list A := drop (length l - n) l.

Lemma cap_rows_lastn l r : cap_rows (lastn maxRows l ++ [r]) = lastn maxRows (l ++ [r]).
Proof.
  unfold cap_rows, lastn. rewrite !length_app, length_drop. cbn [length].
  generalize maxRows. intros n.
  assert (drop (length l - n) l ++ [r] = drop (length l - n) (l ++ [r])) as ->.
  { rewrite drop_app_le; [done|lia]. }
  destruct (Nat.ltb_spec n (length l - (length l - n) + 1)).
  - rewrite drop_drop. f_equal. lia.
  - f_equal. lia.
Qed.

Lemma lookup_map {A B} (f : A -> B) l i : map f l !! i = f <$> l !! i.
Proof. apply list_lookup_fmap. Qed.

(** The connections a sequence of snapshots describes, in order of first
    appearance: each with its latest snapshot. *)
Definition see (acc : list Connection) (c : Connection) : list Connection :=
  if decide (Seq c ∈ map Seq acc) then map (fun d => if decide (Seq d = Seq c) then c else d) acc
  else acc ++ [c].
Definition latest (cs : list Connection) : list Connection := fold_left see cs [].

Record rows_inv (seen : list Connection) (index : gmap Z nat) (rows : list Row) : Prop := {
  rv_rows : rows = map connRow seen;
  rv_nodup : NoDup (map Seq seen);
  rv_index : forall s i, index !! s = Some i <-> map Seq seen !! i = Some s;
}.

Lemma see_seqs acc c :
  map Seq (see acc c) = if decide (Seq c ∈ map Seq acc) then map Seq acc else map Seq acc ++ [Seq c].
Proof.
  unfold see. case_decide; [|by rewrite map_app].
  rewrite map_map. apply map_ext. intros d. by case_decide.
Qed.

Lemma upsert_inv seen index rows c :
  rows_inv seen index rows ->
  exists index' rows', upsert c index rows = Ok (index', rows') /\ rows_inv (see seen c) index' rows'.
Proof.
  intros [-> Hnd Hidx]. unfold upsert. pose proof (see_seqs seen c) as Hseqs.
  destruct (index !! Seq c) as [idx|] eqn:Ei.
  - pose proof Ei as Hi. apply Hidx in Hi. pose proof (lookup_lt_Some _ _ _ Hi) as Hlt.
    rewrite length_map in Hlt. rewrite (proj2 (Nat.ltb_lt _ _)) by by rewrite length_map.
    rewrite decide_True in Hseqs by by eapply list_elem_of_lookup_2.
    eexists _, _. split; [done|]. split; [|by rewrite Hseqs|intros; rewrite Hseqs; apply Hidx].
    unfold see. rewrite decide_True by by eapply list_elem_of_lookup_2.
    apply list_eq. intros j. rewrite map_map.
    destruct (decide (idx = j)) as [->|Hne].
    + rewrite list_lookup_insert_eq by by rewrite length_map.
      rewrite lookup_map in Hi. rewrite lookup_map. destruct (seen !! j) as [d|]; [|done].
      simpl in *. simplify_eq. by rewrite decide_True.
    + rewrite list_lookup_insert_ne, !lookup_map by done.
      destruct (seen !! j) as [d|] eqn:Ej; [|done]. simpl. rewrite decide_False; [done|].
      intros Heq. apply Hne. eapply (NoDup_lookup _ _ _ _ Hnd Hi).
      by rewrite lookup_map, Ej, <-Heq.
  - assert (Seq c ∉ map Seq seen) as Hnew.
    { intros [i Hi]%list_elem_of_lookup_1. apply Hidx in Hi. congruence. }
    rewrite decide_False in Hseqs by done.
    eexists _, _. split; [done|]. split.
    + unfold see. by rewrite decide_False, map_app.
    + rewrite Hseqs. apply NoDup_app. split_and!; [done|set_solver|by apply NoDup_singleton].
    + intros s i. rewrite Hseqs, length_map. destruct (decide (Seq c = s)) as [<-|Hne].
      * rewrite lookup_insert_eq. split; [intros [= <-]|].
        -- rewrite lookup_app_r, length_map by (rewrite length_map; lia). by rewrite Nat.sub_diag.
        -- intros [Hi|[Hl Hi]]%lookup_app_Some; [by apply list_elem_of_lookup_2 in Hi|].
           rewrite length_map in *. apply list_lookup_singleton_Some in Hi as [? _]. f_equal. lia.
      * rewrite lookup_insert_ne, Hidx by done. rewrite lookup_app_Some. split; [by left|].
        intros [?|[_ Hi]]; [done|]. apply list_lookup_singleton_Some in Hi as [_ ?]. done.
Qed.

Section Live.
Context `{Lipgloss, Table, UnicodePrint, Clock, NetHTTP} (comm : Z -> bytes) `{!TableUpdate}.

(** ** Specification: what the tabs show after a sequence of messages *)

Definition event_rows (msgs : list msg) : list Row :=
  omap (fun g => match g with
                 | EventMsg ev t => match eventRow comm ev t with Ok r => Some r | _ => None end
                 | _ => None
                 end) msgs.
Definition http_rows (msgs : list msg) : list Row :=
  omap (fun g => match g with
                 | HttpMsg ex => match ex_Protocol ex with ProtocolHTTP => Some (httpRow ex) | _ => None end
                 | _ => None
                 end) msgs.
Definition snapshots (msgs : list msg) : list Connection :=
  omap (fun g => match g with ConnMsg c => Some c | _ => None end) msgs.

Definition is_events_closed (g : msg) : bool := match g with EventsClosedMsg => true | _ => false end.
Definition is_conns_closed (g : msg) : bool := match g with ConnsClosedMsg => true | _ => false end.
Definition is_http_closed (g : msg) : bool := match g with HttpClosedMsg => true | _ => false end.

Record shows (msgs : list msg) (m : Model) : Prop := {
  sh_events : e_rows (events m) = lastn maxRows (event_rows msgs);
  sh_http : h_rows (http m) = lastn maxRows (http_rows msgs);
  sh_conns : rows_inv (latest (snapshots msgs)) (c_index (conns m)) (c_rows (conns m));
  sh_eclosed : e_closed (events m) = existsb is_events_closed msgs;
  sh_cclosed : c_closed (conns m) = existsb is_conns_closed msgs;
  sh_hclosed : h_closed (http m) = existsb is_http_closed msgs;
}.

Definition quits (g : msg) : bool :=
  match g with KeyMsg k => bool_decide (key_String k ∈ [str "ctrl+c"; str "q"]) | _ => false end.

(** An event whose payload can be taken (Event). *)
Definition small (g : msg) : Prop :=
  match g with EventMsg ev _ => DataLen ev <= dataCap | _ => True end.

(** ** Lemmas: the model *)

Lemma omap_snoc {A B} (f : A -> option B) l x :
  omap f (l ++ [x]) = omap f l ++ match f x with Some y => [y] | None => [] end.
Proof. by rewrite omap_app. Qed.

Lemma existsb_snoc {A} (f : A -> bool) l x : existsb f (l ++ [x]) = existsb f l || f x.
Proof. rewrite existsb_app. simpl. by rewrite orb_false_r. Qed.

Lemma eventRow_Ok ev t : DataLen ev <= dataCap -> exists row, eventRow comm ev t = Ok row.
Proof.
  intros Hd. unfold eventRow, eventDetail, payload_text, Payload. rewrite (proj2 (Z.leb_le _ _) Hd).
  cbn [obind]. repeat case_decide; by eexists.
Qed.

Lemma shows_new : shows [] newModel.
Proof. split; try done. split; [done|constructor|]. intros s i. cbn [conns newModel newConnsTab c_index]. by rewrite lookup_empty. Qed.

Lemma shows_resize msgs w h m : shows msgs m -> shows msgs (resize w h m).
Proof. by intros []. Qed.

(** A message a tab does not know changes its table only. *)
Ltac other_message :=
  unfold table_Update; destruct (table_update _ _) as [? [?|]]; simpl.

Lemma events_broadcast msgs g m :
  small g -> shows msgs m ->
  exists e c, eventsTab_update comm g (events m) = Ok (e, c) /\
    e_rows e = lastn maxRows (event_rows (msgs ++ [g])) /\
    e_closed e = existsb is_events_closed (msgs ++ [g]).
Proof.
  intros Hs [He _ _ Hec _ _]. unfold event_rows. rewrite omap_snoc, existsb_snoc.
  fold (event_rows msgs). destruct g as [k|w h|ev t| |c| |ex| |o]; simpl;
    rewrite ?app_nil_r, ?orb_false_r, ?orb_true_r; try (other_message; by eexists _, _).
  - destruct (eventRow_Ok ev t Hs) as [row Hr]. rewrite Hr. simpl.
    eexists _, _. split; [done|]. simpl. by rewrite He, cap_rows_lastn.
  - by eexists _, _.
Qed.

Lemma conns_broadcast msgs g m :
  shows msgs m ->
  exists t c, connsTab_update g (conns m) = Ok (t, c) /\
    rows_inv (latest (snapshots (msgs ++ [g]))) (c_index t) (c_rows t) /\
    c_closed t = existsb is_conns_closed (msgs ++ [g]).
Proof.
  intros [_ _ Hc _ Hcc _]. unfold snapshots. rewrite omap_snoc, existsb_snoc.
  fold (snapshots msgs). destruct g as [k|w h|ev t| |c| |ex| |o]; simpl;
    rewrite ?app_nil_r, ?orb_false_r, ?orb_true_r; try (other_message; by eexists _, _).
  - destruct (upsert_inv _ _ _ c Hc) as (index & rows & Hu & Hi). rewrite Hu. simpl.
    eexists _, _. split; [done|]. split; [|done]. unfold latest. by rewrite fold_left_app.
  - by eexists _, _.
Qed.

Lemma http_broadcast msgs g m :
  shows msgs m ->
  h_rows (httpTab_update g (http m)).1 = lastn maxRows (http_rows (msgs ++ [g])) /\
  h_closed (httpTab_update g (http m)).1 = existsb is_http_closed (msgs ++ [g]).
Proof.
  intros [_ Hh _ _ _ Hhc]. unfold http_rows. rewrite omap_snoc, existsb_snoc.
  fold (http_rows msgs). destruct g as [k|w h|ev t| |c| |ex| |o]; simpl;
    rewrite ?app_nil_r, ?orb_false_r, ?orb_true_r; try (by other_message); try done.
  destruct (ex_Protocol ex); simpl; rewrite ?app_nil_r, ?Hh; try done. by rewrite cap_rows_lastn.
Qed.

Lemma broadcast_shows msgs g m :
  small g -> shows msgs m ->
  exists m' cs, broadcast comm g m = Ok (m', Batch cs) /\ shows (msgs ++ [g]) m'.
Proof.
  intros Hs Hm. destruct (events_broadcast msgs g m Hs Hm) as (e & c0 & He & ? & ?).
  destruct (conns_broadcast msgs g m Hm) as (t & c1 & Hc & ? & ?).
  pose proof (http_broadcast msgs g m Hm) as [? ?]. unfold broadcast. rewrite He. cbn [obind].
  rewrite Hc. cbn [obind]. destruct (httpTab_update g (http m)) as [h c2].
  eexists _, _. by split.
Qed.

(** A message that only switches tabs shows nothing new. *)
Lemma shows_key msgs k m t :
  shows msgs m -> shows (msgs ++ [KeyMsg k]) (mkModel t (events m) (conns m) (http m) (width m) (height m)).
Proof.
  intros [? ? ? ? ? ?].
  split; unfold event_rows, http_rows, snapshots; rewrite ?omap_snoc, ?existsb_snoc; simpl;
    by rewrite ?app_nil_r, ?orb_false_r.
Qed.

Lemma Update_shows msgs g m :
  small g -> quits g = false -> shows msgs m ->
  exists m' c, Update comm g m = Ok (m', c) /\ c <> Quit /\ shows (msgs ++ [g]) m'.
Proof.
  intros Hs Hq Hm.
  assert (forall m, shows msgs m ->
            exists m' c, broadcast comm g m = Ok (m', c) /\ c <> Quit /\ shows (msgs ++ [g]) m') as Hb.
  { intros m0 Hm0. destruct (broadcast_shows msgs g m0 Hs Hm0) as (m' & cs & -> & ?). eauto. }
  destruct g as [k|w h|ev t| |c| |ex| |o]; cbn [Update]; [|by apply Hb, shows_resize|by apply Hb..].
  simpl in Hq. apply bool_decide_eq_false in Hq. rewrite decide_False by done.
  case_decide; [|by apply Hb]. eexists _, _. split; [done|]. split; [done|]. by apply shows_key.
Qed.

Lemma program_shows msgs m0 hist :
  Forall small msgs -> forallb (fun g => negb (quits g)) msgs = true -> shows hist m0 ->
  exists m, program comm msgs m0 = Ok (m, false) /\ shows (hist ++ msgs) m.
Proof.
  revert m0 hist. induction msgs as [|g msgs IH]; intros m0 hist Hs Hq Hm.
  - exists m0. by rewrite app_nil_r.
  - inversion_clear Hs. simpl in Hq. apply andb_true_iff in Hq as [Hg%negb_true_iff Hq].
    destruct (Update_shows hist g m0) as (m1 & c & Hu & Hc & Hm1); [done..|].
    destruct (IH m1 (hist ++ [g])) as (m & Hp & Hsh); [done..|].
    exists m. rewrite <-app_assoc in Hsh. split; [|done]. cbn [program]. rewrite Hu. cbn [obind].
    by destruct c.
Qed.

(** ** Theorems *)

(** [C12] Every tab is kept up to date whichever is visible: for any sequence of
    messages without a quit key, with the three streams interleaved in any way
    with keys and window sizes, nothing panics, the events and HTTP tabs hold
    the last 500 rows of their streams in order, the connections tab one row per
    connection in order of appearance with its latest snapshot, the closed
    flags say which streams have ended, and the program goes on, also when all
    three have. *)
Theorem program_rows msgs :
  Forall small msgs -> forallb (fun g => negb (quits g)) msgs = true ->
  exists m, program comm msgs newModel = Ok (m, false) /\
    e_rows (events m) = lastn maxRows (event_rows msgs) /\
    h_rows (http m) = lastn maxRows (http_rows msgs) /\
    c_rows (conns m) = map connRow (latest (snapshots msgs)) /\
    NoDup (map Seq (latest (snapshots msgs))) /\
    (e_closed (events m), c_closed (conns m), h_closed (http m)) =
      (existsb is_events_closed msgs, existsb is_conns_closed msgs, existsb is_http_closed msgs).
Proof.
  intros Hs Hq. destruct (program_shows msgs newModel [] Hs Hq shows_new) as (m & Hp & [? ? Hc ? ? ?]).
  exists m. split; [done|]. split_and!; try done; [apply Hc..|]. simpl in *. congruence.
Qed.

(** How many waits of one kind a command holds. *)
Fixpoint waits (is_wait : cmd -> bool) (c : cmd) : nat :=
  match c with
  | Batch cs => sum_list_with (waits is_wait) cs
  | _ => if is_wait c then 1%nat else 0%nat
  end.
Definition is_event_wait (c : cmd) : bool := match c with WaitForEvent => true | _ => false end.
Definition is_conn_wait (c : cmd) : bool := match c with WaitForConn => true | _ => false end.
Definition is_exchange_wait (c : cmd) : bool := match c with WaitForExchange => true | _ => false end.

Lemma table_Update_waits g t p :
  p = is_event_wait \/ p = is_conn_wait \/ p = is_exchange_wait ->
  waits p (table_Update g t).2 = 0%nat.
Proof.
  unfold table_Update. destruct (table_update g t) as [? [?|]]; naive_solver.
Qed.

(** The waits of the three commands a broadcast returns. *)
Lemma broadcast_commands g m m' c :
  broadcast comm g m = Ok (m', c) ->
  waits is_event_wait c = (match g with EventMsg _ _ => 1 | _ => 0 end)%nat /\
  waits is_conn_wait c = (match g with ConnMsg _ => 1 | _ => 0 end)%nat /\
  waits is_exchange_wait c = (match g with HttpMsg _ => 1 | _ => 0 end)%nat /\ c <> Quit.
Proof.
  assert (forall t p, p = is_event_wait \/ p = is_conn_wait \/ p = is_exchange_wait ->
            waits p (table_Update g t).2 = 0%nat) as Hw by (intros; by apply table_Update_waits).
  unfold broadcast, eventsTab_update, connsTab_update, httpTab_update. intros Hb.
  pose proof (Hw (e_table (events m))) as He. pose proof (Hw (c_table (conns m))) as Hc.
  pose proof (Hw (h_table (http m))) as Hh. clear Hw.
  destruct (table_Update g (e_table (events m))) as [t1 k1], (table_Update g (c_table (conns m))) as [t2 k2],
    (table_Update g (h_table (http m))) as [t3 k3].
  destruct g as [k|w h|ev t| |cn| |ex| |o]; cbn [obind] in Hb.
  3: destruct (eventRow comm ev t) as [row|[]|]; [cbn [obind] in Hb|done].
  5: destruct (upsert cn _ _) as [[index rows]|[]|]; [cbn [obind] in Hb|done].
  all: simplify_eq/=; rewrite ?He, ?Hc, ?Hh by auto; done.
Qed.

(** The interface never starves or double-reads a stream: each update
    issues one new receive on a stream exactly when it has just handled an item
    of that stream, none otherwise, and none once the stream has closed;
    whatever the visible tab.  The program quits on q or ctrl+c only. *)
Theorem Update_rearms g m m' c :
  Update comm g m = Ok (m', c) ->
  waits is_event_wait c = (match g with EventMsg _ _ => 1 | _ => 0 end)%nat /\
  waits is_conn_wait c = (match g with ConnMsg _ => 1 | _ => 0 end)%nat /\
  waits is_exchange_wait c = (match g with HttpMsg _ => 1 | _ => 0 end)%nat /\
  (c = Quit <-> quits g = true).
Proof.
  intros Hu.
  assert (forall m, broadcast comm g m = Ok (m', c) -> quits g = false ->
    waits is_event_wait c = (match g with EventMsg _ _ => 1 | _ => 0 end)%nat /\
    waits is_conn_wait c = (match g with ConnMsg _ => 1 | _ => 0 end)%nat /\
    waits is_exchange_wait c = (match g with HttpMsg _ => 1 | _ => 0 end)%nat /\
    (c = Quit <-> quits g = true)) as Hb.
  { intros m0 (? & ? & ? & ?)%broadcast_commands Hq. rewrite Hq. by split_and!. }
  destruct g as [k|w h|ev t| |cn| |ex| |o]; cbn [Update] in Hu; try (by eapply Hb).
  cbn [quits]. case_decide as Hq; [simplify_eq; by rewrite bool_decide_eq_true_2|].
  case_decide; [simplify_eq; by rewrite bool_decide_eq_false_2|].
  apply (Hb m); [done|]. cbn [quits]. by apply bool_decide_eq_false.
Qed.

Lemma Repeat_gap s gap : exists fill, Repeat s (if gap <? 0 then 0 else gap) = Ok fill.
Proof. unfold Repeat. destruct (Z.ltb_spec gap 0); [by eexists|]. rewrite (proj2 (Z.ltb_ge _ _)) by done. by eexists. Qed.

(** The screen can always be drawn: [View] returns in every state and for
    every terminal size, the padding of the title bar never being negative. *)
Theorem View_total m : exists screen, View m = Ok screen.
Proof.
  unfold View, titleBar.
  destruct (match active m with tabConnections => _ | tabHTTP => _ | tabEvents => _ end) as [body live].
  destruct (if live then _ else _) as [status fg]. cbv zeta.
  destruct (Repeat_gap (str " ") (barWidth m -
    lipgloss_Width (Render [Background colorBarBg; Foreground (str "255"); Bold] (str " Wiremark ")) -
    lipgloss_Width (Render [Background colorBarBg; Foreground fg; Bold] (status ++ str " ")))) as [fill Hf].
  rewrite Hf. by eexists.
Qed.

(** [C37] Colouring does what it says to one column and nothing else.  For the
    column [idx] of a table whose widths are not negative, with every line valid
    UTF-8: the header stays, and each other line is [coloured] - its column of
    [col_Width col] runes, which starts behind the earlier columns with their
    two cells of padding each and one cell of its own, has its text rendered in
    [colorFn] of the trimmed text, the spaces it ends in left out; only a line
    too short to hold the column and a blank column stay as they are. *)
Theorem colorizeColumn_text view cols idx col colorFn :
  cols !! idx = Some col -> Forall (fun c => 0 <= col_Width c) cols ->
  Forall valid_utf8 (SplitLines view) ->
  let offset := Z.to_nat (foldr Z.add 0 (map (fun c => col_Width c + 2) (take idx cols)) + 1) in
  exists header lines lines',
    SplitLines view = header :: lines /\
    colorizeColumn view cols idx colorFn = JoinLines (header :: lines') /\
    Forall2 (coloured offset (Z.to_nat (col_Width col)) colorFn) lines lines'.
Proof.
  intros Hcol Hw Hv. unfold colorizeColumn, columnStart.
  rewrite (columnStart_from_spec 0 cols idx col Hcol). rewrite Z.add_0_l.
  assert (0 <= foldr Z.add 0 (map (fun c => col_Width c + 2) (take idx cols))) as Hpos.
  { assert (Forall (fun c => 0 <= col_Width c) (take idx cols)) as Hw' by (by apply Forall_take).
    clear -Hw'. induction Hw'; simpl; lia. }
  cbv zeta. set (offset := foldr _ _ _ + 1) in *.
  destruct (lines_from_cons [] view) as (header & lines & E). fold (SplitLines view) in E.
  rewrite E in *. inversion_clear Hv as [|? ? _ Hl]. exists header, lines.
  rewrite (proj2 (Z.ltb_ge offset 0)) by lia.
  eexists. split_and!; [done..|]. clear E. induction Hl as [|l lines Hl _ IH]; constructor; [|apply IH].
  apply colorizeLine_coloured; [done|lia|]. by eapply (Forall_lookup_1 _ _ _ _ Hw).
Qed.

End Live.

(** ** Witnesses *)

(** A table that keeps its rows and ignores keys; styling puts the text in
    angle brackets. *)
Definition bare_table : Table := {|
  key := bytes;
  key_String k := k;
  other := unit;
  tcmd := unit;
  table := (list Column * list Row)%type;
  table_New cols := (cols, []);
  table_SetRows rows t := (t.1, rows);
  table_GotoBottom t := t;
  table_SetWidth _ t := t;
  table_SetHeight _ t := t;
  table_View t := [];
  table_Columns t := t.1;
|}.
Definition bare_table_update : @TableUpdate bare_table tiny_http :=
  @Build_TableUpdate bare_table tiny_http (fun _ t => (t, None)).
Definition angle : Lipgloss :=
  {| Render _ s := str "<" ++ s ++ str ">"; lipgloss_Width s := Z.of_nat (length s) |}.

Abbreviation bare_msg := (@msg bare_table tiny_http).

Definition sample_conn (seq : Z) (out : Z) : Connection :=
  mkConn seq 42 5 (str "app") 0 80 out 0 0 false 0.

(** Events, two connections one of which is updated, an HTTP exchange, keys, and
    the ends of the streams. *)
Definition sample_msgs : list bare_msg :=
  [@EventMsg bare_table tiny_http (sample_event OpConnect 5 []) 0;
   @ConnMsg bare_table tiny_http (sample_conn 1 0);
   @KeyMsg bare_table tiny_http (str "tab");
   @ConnMsg bare_table tiny_http (sample_conn 2 0);
   @EventMsg bare_table tiny_http (sample_event OpWrite 5 (str "hi")) 0;
   @ConnMsg bare_table tiny_http (sample_conn 1 2);
   @HttpMsg bare_table tiny_http (mkExchange 42 5 ProtocolHTTP None [] true);
   @WindowSizeMsg bare_table tiny_http 2 2;
   @EventsClosedMsg bare_table tiny_http; @ConnsClosedMsg bare_table tiny_http;
   @HttpClosedMsg bare_table tiny_http].

Lemma program_rows_witness :
  Forall (@small bare_table tiny_http) sample_msgs /\
  exists m,
    @program bare_table print_all fixed_clock tiny_http (fun _ => str "app") bare_table_update
      sample_msgs newModel = Ok (m, false) /\
    e_rows (events m) = [[str "12:00:00.000"; str "42"; str "app"; str "5"; str "CONNECT"; str "-> 0.0.0.0:0"];
                         [str "12:00:00.000"; str "42"; str "app"; str "5"; str "WRITE";
                          str "2 bytes: " ++ [Byte.x22] ++ str "hi" ++ [Byte.x22]]] /\
    h_rows (http m) = [[str "42"; str "5"; str "-"; str "-"; str "-"; []; str "yes"]] /\
    c_rows (conns m) = map connRow [sample_conn 1 2; sample_conn 2 0].
Proof.
  assert (Forall (@small bare_table tiny_http) sample_msgs) as Hs.
  { repeat constructor; vm_compute; discriminate. }
  split; [exact Hs|].
  destruct (@program_rows bare_table print_all fixed_clock tiny_http (fun _ => str "app")
    bare_table_update sample_msgs Hs eq_refl) as (m & Hp & He & Hh & Hc & _).
  exists m. split; [exact Hp|]. split; [rewrite He; run|]. split; [rewrite Hh; run|]. rewrite Hc. run.
Defined.

Lemma Update_rearms_witness :
  exists m' c,
    @Update bare_table print_all fixed_clock tiny_http (fun _ => str "app") bare_table_update
      (@ConnMsg bare_table tiny_http (sample_conn 1 0)) newModel = Ok (m', c) /\
    waits is_event_wait c = 0%nat /\ waits is_conn_wait c = 1%nat /\ waits is_exchange_wait c = 0%nat /\
    (c = Quit <-> false = true).
Proof.
  eexists _, _. split; [reflexivity|].
  exact (@Update_rearms bare_table print_all fixed_clock tiny_http (fun _ => str "app") bare_table_update
    (@ConnMsg bare_table tiny_http (sample_conn 1 0)) newModel _ _ eq_refl).
Defined.

(** Two columns, a header and a row with a padded [GET]. *)
Definition sample_cols : list Column := [mkColumn (str "FD") 2; mkColumn (str "Method") 5].
Definition sample_view : bytes := str " FD  Metho " ++ [LF] ++ str " 7   GET   ".

Lemma colorizeColumn_text_witness :
  sample_cols !! 1%nat = Some (mkColumn (str "Method") 5) /\
  Forall valid_utf8 (SplitLines sample_view) /\
  @colorizeColumn angle sample_view sample_cols 1 methodColor =
    str " FD  Metho " ++ [LF] ++ str " 7   <GET>   " /\
  exists header lines lines',
    SplitLines sample_view = header :: lines /\
    @colorizeColumn angle sample_view sample_cols 1 methodColor = JoinLines (header :: lines') /\
    Forall2 (@coloured angle 5 5 methodColor) lines lines'.
Proof.
  assert (Forall valid_utf8 (SplitLines sample_view)) as Hv.
  { repeat constructor; vm_compute; reflexivity. }
  assert (Forall (fun c => 0 <= col_Width c) sample_cols) as Hw by (repeat constructor; done).
  split; [reflexivity|split; [exact Hv|split; [run|]]].
  exact (@colorizeColumn_text angle sample_view sample_cols 1 _ methodColor eq_refl Hw Hv).
Defined.
