(* ===== verification/TuiLoop.v ===== *)
(** * internal/tui: the program loop

    What bubbletea documents of its runtime, around the model of Tui: a command
    runs in a goroutine of its own, and the message it returns is handed to
    [Update] some time later, one message at a time, until the quit command.
    Nothing is said of the order: every order of deliveries, keys and sizes is a
    schedule here, the library's own among them, and the theorems hold for all.
    Every wait a command asks for is thus a goroutine blocked in a receive.  Each
    stream always has exactly one receive in flight, so it is read to its end
    and in order. *)

From S2P Require Import Prelude GoStd GoText GoRune Event Resp Http Streamer Correlator Printer Tui.
Local Open Scope go_scope.

(** ** The runtime *)

(** The channels the tabs read. *)
Inductive chan := CEvents | CConns | CExchanges.

#[global] Instance chan_eq_dec : EqDecision chan.
Proof. solve_decision. Defined.

Definition chans : list chan := [CEvents; CConns; CExchanges].

Definition update_at {A} (c : chan) (x : A) (f : chan -> A) : chan -> A :=
  fun c' => if decide (c' = c) then x else f c'.

Lemma update_at_eq {A} c (x : A) f : update_at c x f c = x.
Proof. unfold update_at. by rewrite decide_True. Qed.
Lemma update_at_ne {A} c c' (x : A) f : c' <> c -> update_at c x f c' = f c'.
Proof. intros. unfold update_at. by rewrite decide_False. Qed.

Section Loop.
Context `{Table, UnicodePrint, Clock, NetHTTP} (comm : Z -> bytes) `{!TableUpdate}
  (timeOf : Event -> Z).

(** The wait on a channel among the commands. *)
Definition is_wait (c : chan) : cmd -> bool :=
  match c with CEvents => is_event_wait | CConns => is_conn_wait | CExchanges => is_exchange_wait end.

(** The message a receive on a closed channel becomes, and those of the items. *)
Definition closed_msg (c : chan) : msg :=
  match c with
  | CEvents => waitForEvent timeOf None
  | CConns => waitForConn None
  | CExchanges => waitForExchange None
  end.
Definition incoming (evs : list Event) (cs : list Connection) (exs : list Exchange) (c : chan) : list msg :=
  match c with
  | CEvents => map (fun ev => waitForEvent timeOf (Some ev)) evs
  | CConns => map (fun c => waitForConn (Some c)) cs
  | CExchanges => map (fun ex => waitForExchange (Some ex)) exs
  end.

(** A receive: its message and what the channel gives after it. *)
Definition receive (c : chan) (r : list msg) : msg * list msg :=
  match r with g :: r => (g, r) | [] => (closed_msg c, []) end.

(** [l_waits c]: goroutines blocked in a receive on [c]; [l_flight]: what has
    been received and not yet been handled; [l_rest c]: what the channel will
    still give, as messages; [l_hist]: what has been handled. *)
Record loop := mkLoop {
  l_model : Model;
  l_waits : chan -> nat;
  l_flight : list msg;
  l_rest : chan -> list msg;
  l_quit : bool;
  l_panic : bool;
  l_hist : list msg;
}.

(** [Recv]: a blocked receive returns; [Handle i]: the loop takes the [i]-th
    delivery; [User]: it takes a key, a size or a message of the widgets. *)
Inductive loop_label := Recv (c : chan) | Handle (i : nat) | User (g : msg).

Definition user (g : msg) : bool :=
  match g with KeyMsg _ | WindowSizeMsg _ _ | OtherMsg _ => true | _ => false end.

Definition handle (g : msg) (s : loop) : loop :=
  let 'mkLoop m w fl rs q p h := s in
  match Update comm g m with
  | Ok (m, c) =>
      mkLoop m (fun ch => w ch + waits (is_wait ch) c)%nat fl rs
        (match c with Quit => true | _ => q end) p (h ++ [g])
  | _ => mkLoop m w fl rs q true (h ++ [g])
  end.

Definition loop_step (l : loop_label) (s : loop) : option loop :=
  let 'mkLoop m w fl rs q p h := s in
  if q || p then None
  else
    match l with
    | Recv c =>
        match w c with
        | O => None
        | S n =>
            let (g, r) := receive c (rs c) in
            Some (mkLoop m (update_at c n w) (fl ++ [g]) (update_at c r rs) q p h)
        end
    | Handle i =>
        g ← fl !! i;
        Some (handle g (mkLoop m w (delete i fl) rs q p h))
    | User g => if user g then Some (handle g s) else None
    end.

(** [p.Run()] on [newModel] after the commands of [Init]. *)
Definition loop_start evs cs exs : loop :=
  mkLoop newModel (fun ch => waits (is_wait ch) (Init newModel)) [] (incoming evs cs exs) false false [].

(** ** Invariant *)

(** The messages of a stream. *)
Definition of_chan (c : chan) (g : msg) : bool :=
  match c, g with
  | CEvents, (EventMsg _ _ | EventsClosedMsg) => true
  | CConns, (ConnMsg _ | ConnsClosedMsg) => true
  | CExchanges, (HttpMsg _ | HttpClosedMsg) => true
  | _, _ => false
  end.
Definition closes (c : chan) (g : msg) : bool :=
  match c with CEvents => is_events_closed g | CConns => is_conns_closed g | CExchanges => is_http_closed g end.

(** What of a stream has been handled, and is being delivered. *)
Definition handled (c : chan) (s : loop) : list msg := List.filter (of_chan c) (l_hist s).
Definition delivering (c : chan) (s : loop) : list msg := List.filter (of_chan c) (l_flight s).

(** One receive, one delivery, or the end. *)
Definition one_reader (c : chan) (s : loop) : Prop :=
  (l_waits s c + length (delivering c s) + (if existsb (closes c) (handled c s) then 1 else 0) = 1)%nat.

Definition stream_order (all : list msg) (c : chan) (s : loop) : Prop :=
  (handled c s ++ delivering c s ++ l_rest s c = all /\
     existsb (closes c) (handled c s ++ delivering c s) = false) \/
  (handled c s ++ delivering c s = all ++ [closed_msg c] /\ l_rest s c = []).

Record loop_inv (all : chan -> list msg) (s : loop) : Prop := {
  li_one c : one_reader c s;
  li_order c : stream_order (all c) c s;
  li_shows : shows comm (l_hist s) (l_model s);
  li_small : Forall (fun g => small g /\ user g = false) (l_flight s);
  li_panic : l_panic s = false;
}.

(** *** Facts about single messages *)

Lemma user_of_chan c g : of_chan c g = true -> user g = false.
Proof. by destruct c, g. Qed.

Lemma user_quits g : user g = false -> quits g = false.
Proof. by destruct g. Qed.

Lemma of_chan_inj c c' g : of_chan c g = true -> of_chan c' g = true -> c = c'.
Proof. by destruct c, c', g. Qed.

Lemma incoming_of_chan evs cs exs c g :
  g ∈ incoming evs cs exs c -> of_chan c g = true /\ closes c g = false.
Proof. by destruct c; simpl; intros (x & -> & _)%list_elem_of_fmap. Qed.

Lemma closed_of_chan c : of_chan c (closed_msg c) = true /\ closes c (closed_msg c) = true.
Proof. by destruct c. Qed.

(** What [Update] asks for: one receive for an item of the stream, none for
    anything else. *)
Lemma Update_waits c g m m' k :
  Update comm g m = Ok (m', k) ->
  waits (is_wait c) k = (if of_chan c g && negb (closes c g) then 1 else 0)%nat.
Proof.
  intros (? & ? & ? & _)%Update_rearms. by destruct c, g.
Qed.

(** *** Every step keeps the invariant *)

(** The loop takes [g] out of what is being delivered, or [g] is the user's. *)
Definition taken (g : msg) (fl fl' : list msg) (c : chan) : Prop :=
  if of_chan c g then List.filter (of_chan c) fl = [g] /\ List.filter (of_chan c) fl' = []
  else List.filter (of_chan c) fl' = List.filter (of_chan c) fl.

Lemma filter_snoc {A} (p : A -> bool) l x :
  List.filter p (l ++ [x]) = List.filter p l ++ (if p x then [x] else []).
Proof. by rewrite List.filter_app. Qed.

Lemma handle_inv all g m w fl fl' rs q h :
  (forall c, taken g fl fl' c) ->
  small g -> quits g = false -> Forall (fun g => small g /\ user g = false) fl' ->
  loop_inv all (mkLoop m w fl rs q false h) ->
  loop_inv all (handle g (mkLoop m w fl' rs q false h)) /\
  l_quit (handle g (mkLoop m w fl' rs q false h)) = q.
Proof.
  intros Ht Hs Hq Hfl [Hone Ho Hsh Hsm Hp]. simpl in *.
  destruct (Update_shows comm h g m Hs Hq Hsh) as (m' & k & Hu & Hk & Hsh'). rewrite Hu.
  split; [|by destruct k]. split; simpl; [| |done|done|done].
  - intros c. specialize (Hone c). specialize (Ht c). unfold one_reader, handled, delivering, taken in *. simpl in *.
    rewrite filter_snoc, (Update_waits c _ _ _ _ Hu). destruct (of_chan c g) eqn:Eg; cbn [andb].
    + destruct Ht as [E1 E2]. rewrite E1 in Hone. rewrite E2, existsb_snoc. simpl in *.
      destruct (existsb _ _), (closes c g); simpl in *; lia.
    + rewrite app_nil_r, Ht. lia.
  - intros c. specialize (Ho c). specialize (Ht c). unfold stream_order, handled, delivering, taken in *. simpl in *.
    rewrite filter_snoc. destruct (of_chan c g) eqn:Eg.
    + destruct Ht as [E1 E2]. rewrite E1 in Ho. by rewrite E2, !app_nil_r, app_nil_l, <-app_assoc.
    + by rewrite app_nil_r, Ht.
Qed.

Lemma receive_inv all c m w fl rs q h n :
  (forall c g, g ∈ all c -> of_chan c g = true /\ closes c g = false /\ small g) ->
  w c = S n ->
  loop_inv all (mkLoop m w fl rs q false h) ->
  let (g, r) := receive c (rs c) in
  loop_inv all (mkLoop m (update_at c n w) (fl ++ [g]) (update_at c r rs) q false h).
Proof.
  intros Hall Hw [Hone Ho Hsh Hsm Hp]. simpl in *.
  pose proof (Hone c) as H1c. pose proof (Ho c) as Hoc.
  unfold one_reader, stream_order, handled, delivering in *. simpl in *. rewrite Hw in H1c.
  destruct (List.filter (of_chan c) fl) as [|] eqn:Ef; simpl in H1c; [|lia].
  destruct (existsb (closes c) (List.filter (of_chan c) h)) eqn:Ee; [lia|].
  destruct Hoc as [[Hoc _]|[Hoc _]].
  2: { rewrite app_nil_r in Hoc. rewrite Hoc, existsb_snoc, (proj2 (closed_of_chan c)), orb_true_r in Ee. done. }
  assert (of_chan c (receive c (rs c)).1 = true /\ small (receive c (rs c)).1 /\
    forall c', stream_order (all c') c' (mkLoop m (update_at c n w) (fl ++ [(receive c (rs c)).1])
                 (update_at c (receive c (rs c)).2 rs) q false h)) as (Hg & Hsg & Hord).
  { destruct (rs c) as [|g r] eqn:Er; simpl.
    - pose proof (closed_of_chan c) as [Hcc Hcl]. split; [done|]. split; [by destruct c|]. intros c'.
      specialize (Ho c'). unfold stream_order, handled, delivering, update_at. simpl. rewrite filter_snoc.
      case_decide as Hc; [subst c'; right|].
      + rewrite Hcc, Ef. split; [|done]. simpl in *. by rewrite app_nil_r in Hoc; rewrite Hoc.
      + destruct (of_chan c' _) eqn:Eg; [by destruct Hc; eapply of_chan_inj|]. by rewrite app_nil_r.
    - destruct (Hall c g) as (Hgc & Hgn & Hgs).
      { rewrite <-Hoc. simpl. set_solver. }
      split; [done|]. split; [done|]. intros c'.
      specialize (Ho c'). unfold stream_order, handled, delivering, update_at. simpl. rewrite filter_snoc.
      case_decide as Hc; [subst c'; left|].
      + rewrite Hgc, Ef, !app_nil_l, existsb_snoc, Ee, Hgn. split; [|done]. exact Hoc.
      + destruct (of_chan c' _) eqn:Eg; [by destruct Hc; eapply of_chan_inj|]. by rewrite app_nil_r. }
  destruct (receive c (rs c)) as [g r]. simpl in *. split; simpl; [|done|done| |done].
  2: { apply Forall_app. split; [done|]. constructor; [|done]. split; [done|by eapply user_of_chan]. }
  intros c'. specialize (Hone c'). unfold one_reader, delivering, handled, update_at. simpl. rewrite filter_snoc.
  case_decide as Hc.
  - subst c'. rewrite Hg, Ef, Ee. simpl in *. lia.
  - destruct (of_chan c' g) eqn:Eg; [by destruct Hc; eapply of_chan_inj|]. by rewrite app_nil_r.
Qed.

(** What is delivered is taken out of the flight. *)
Lemma deliver_taken c i g fl :
  fl !! i = Some g -> (length (List.filter (of_chan c) fl) <= 1)%nat -> taken g fl (delete i fl) c.
Proof.
  intros Hi. unfold taken. rewrite delete_take_drop. pose proof (take_drop_middle fl i g Hi) as E.
  revert E. generalize (take i fl) (drop (S i) fl). intros pre post <-.
  rewrite !List.filter_app. simpl. destruct (of_chan c g); [|done].
  rewrite length_app. simpl. intros Hl.
  destruct (List.filter _ pre), (List.filter _ post); simpl in *; try lia. done.
Qed.

Lemma flight_le c s : one_reader c s -> (length (delivering c s) <= 1)%nat.
Proof. unfold one_reader. lia. Qed.

Lemma loop_step_inv all l s s' :
  (forall c g, g ∈ all c -> of_chan c g = true /\ closes c g = false /\ small g) ->
  loop_inv all s -> loop_step l s = Some s' -> l_quit s' = false -> loop_inv all s'.
Proof.
  intros Hall Hi. destruct s as [m w fl rs q p h]. pose proof (li_panic _ _ Hi) as Hp. simpl in Hp. subst p.
  simpl. destruct q; [done|]. simpl. destruct l as [c|i|g].
  - destruct (w c) as [|n] eqn:Ew; [done|]. pose proof (receive_inv all c m w fl rs false h n Hall Ew Hi) as Hr.
    destruct (receive c (rs c)) as [g r]. by intros [= <-].
  - destruct (fl !! i) as [g|] eqn:Ei; [|done]. intros [= <-]. intros _.
    pose proof (li_small _ _ Hi) as Hf. simpl in Hf.
    destruct (proj1 (Forall_lookup _ _) Hf i g Ei) as [Hs Hu].
    eapply (handle_inv all g m w fl); [|done|by apply user_quits|by apply Forall_delete|done].
    intros c. apply deliver_taken; [done|]. exact (flight_le _ _ (li_one _ _ Hi c)).
  - destruct (user g) eqn:Eu; [|done]. intros [= <-]. intros Hq.
    destruct (quits g) eqn:Eq.
    + destruct g; try done. exfalso. simpl in Eq, Hq. apply bool_decide_eq_true in Eq.
      rewrite decide_True in Hq by done. done.
    + eapply (handle_inv all g m w fl); [|by destruct g|done|apply (li_small _ _ Hi)|done].
      intros c. unfold taken. destruct (of_chan c g) eqn:Eg; [|done].
      apply user_of_chan in Eg. congruence.
Qed.

(** *** Every run is as long as the streams and the user make it *)

Definition weight (g : msg) : nat :=
  match g with EventMsg _ _ | ConnMsg _ | HttpMsg _ => 3 | _ => 1 end.
Definition stream_work (s : loop) : nat :=
  (sum_list_with (fun c => 2 * l_waits s c + 2 * length (l_rest s c)) chans +
   sum_list_with weight (l_flight s))%nat.

Definition by_user (l : loop_label) : bool := match l with User _ => true | _ => false end.

Lemma receive_work c r :
  (weight (receive c r).1 + 2 * length (receive c r).2 < 2 + 2 * length r)%nat.
Proof. destruct r as [|g r]; [by destruct c; simpl; lia|]. simpl. destruct g; simpl; lia. Qed.

Lemma handle_work g s : (stream_work (handle g s) < stream_work s + weight g)%nat.
Proof.
  destruct s as [m w fl rs q p h]. unfold stream_work. simpl.
  destruct (Update comm g m) as [[m' k]|[]|] eqn:E; simpl; [|destruct g; simpl; lia].
  pose proof (Update_waits CEvents g m m' k E) as H1'. pose proof (Update_waits CConns g m m' k E) as H2'.
  pose proof (Update_waits CExchanges g m m' k E) as H3'. simpl in *. rewrite H1', H2', H3'.
  destruct g; simpl; lia.
Qed.

Lemma loop_step_work l s s' :
  by_user l = false -> loop_step l s = Some s' -> (stream_work s' < stream_work s)%nat.
Proof.
  destruct s as [m w fl rs q p h]. simpl. destruct (q || p); [done|].
  intros Hl. destruct l as [c|i|g]; [| |done].
  - destruct (w c) as [|n] eqn:Ew; [done|]. pose proof (receive_work c (rs c)) as Hr.
    destruct (receive c (rs c)) as [g r]. intros [= <-]. unfold stream_work, update_at. simpl in *.
    rewrite sum_list_with_app. destruct c; simpl; lia.
  - destruct (fl !! i) as [g|] eqn:Ei; [|done]. intros [= <-].
    pose proof (handle_work g (mkLoop m w (delete i fl) rs q p h)) as Hw.
    eapply Nat.lt_le_trans; [exact Hw|]. unfold stream_work. simpl. rewrite delete_take_drop.
    pose proof (take_drop_middle fl i g Ei) as E. rewrite <-E at 3.
    rewrite !sum_list_with_app. simpl. lia.
Qed.

(** The streams' own steps. *)
Definition stream_step (s s' : loop) : Prop := exists l, by_user l = false /\ loop_step l s = Some s'.

Lemma stream_step_sn s : sn stream_step s.
Proof.
  eapply (measure_sn _ (fun _ => True) stream_work); [|done].
  intros s1 s2 _ (l & Hl & Hs). split; [done|by eapply loop_step_work].
Qed.

(** *** What a whole stream shows *)

Lemma omap_filter {B} (f : msg -> option B) p h :
  (forall g, p g = false -> f g = None) -> omap f (List.filter p h) = omap f h.
Proof.
  intros Hf. induction h as [|g h IH]; [done|]. csimpl. rewrite <-IH. destruct (p g) eqn:E; [done|].
  by rewrite (Hf g E).
Qed.

Lemma existsb_filter (f p : msg -> bool) h :
  (forall g, p g = false -> f g = false) -> existsb f (List.filter p h) = existsb f h.
Proof.
  intros Hf. induction h as [|g h IH]; [done|]. simpl. destruct (p g) eqn:E; simpl; [by rewrite IH|].
  by rewrite IH, Hf.
Qed.

Section Runs.
Context (evs : list Event) (cs : list Connection) (exs : list Exchange)
  (Hevs : Forall (fun ev => DataLen ev <= dataCap)%Z evs).

Lemma incoming_ok c g :
  g ∈ incoming evs cs exs c -> of_chan c g = true /\ closes c g = false /\ small g.
Proof using Hevs.
  intros Hg. destruct (incoming_of_chan evs cs exs c g Hg) as [? ?]. split_and!; [done..|].
  destruct c; simpl in Hg; apply list_elem_of_fmap in Hg as (x & -> & Hx); [|done..].
  simpl. rewrite Forall_forall in Hevs. by apply Hevs.
Qed.

Lemma loop_reachable s :
  rtc (steps_by loop_step) (loop_start evs cs exs) s -> l_quit s = false -> loop_inv (incoming evs cs exs) s.
Proof using Hevs.
  intros Hr. refine (rtc_invariant (steps_by loop_step)
    (fun s => l_quit s = false -> loop_inv (incoming evs cs exs) s) _ _ _ Hr _).
  - intros s1 s2 Hi [l Hl] Hq. eapply loop_step_inv; [apply incoming_ok| |done|done]. apply Hi.
    destruct s1 as [m w fl rs [|] p h]; [done|done].
  - intros _. split; try done; [by intros []|intros c; by left|apply shows_new].
Qed.

Lemma read_out s c :
  loop_inv (incoming evs cs exs) s -> l_quit s = false -> (forall s', ~ stream_step s s') ->
  handled c s = incoming evs cs exs c ++ [closed_msg c].
Proof.
  intros Hi Hq Hs. pose proof (li_one _ _ Hi c) as H1c. pose proof (li_order _ _ Hi c) as Ho.
  pose proof (li_panic _ _ Hi) as Hp. destruct s as [m w fl rs q p h]. simpl in Hq, Hp. subst q p.
  assert (fl = []) as ->.
  { destruct fl as [|g fl]; [done|]. exfalso. eapply Hs. exists (Handle 0). split; [done|reflexivity]. }
  assert (w c = 0%nat) as Hw.
  { destruct (w c) as [|n] eqn:Ew; [done|]. exfalso.
    destruct (receive c (rs c)) as [g r] eqn:Eg. eapply Hs. exists (Recv c). split; [done|].
    simpl. rewrite Ew, Eg. reflexivity. }
  unfold one_reader, stream_order, delivering in *. simpl in *. rewrite Hw in H1c. simpl in H1c.
  destruct Ho as [[_ He]|[Ho _]]; [|by rewrite app_nil_r in Ho].
  rewrite app_nil_r in He. by rewrite He in H1c.
Qed.

(** ** Theorem *)

(** The interface reads every stream to its end: under every interleaving of
    the blocked receives, their deliveries, keys and window sizes, until the
    user quits nothing panics and each stream has exactly one receive or
    delivery outstanding until its end has been handled - never two, which
    could reorder it, and never none, which would block the goroutine that
    feeds it.  The streams' own steps cannot go on for ever, and when there are
    none left every tab shows its whole stream and knows that it has ended,
    while the program goes on. *)
Theorem streams_read_out s :
  rtc (steps_by loop_step) (loop_start evs cs exs) s -> l_quit s = false ->
  l_panic s = false /\ sn stream_step s /\
  (forall c, (l_waits s c + length (delivering c s) +
              (if existsb (closes c) (handled c s) then 1 else 0) = 1)%nat) /\
  ((forall s', ~ stream_step s s') ->
   let m := l_model s in
   e_rows (events m) = lastn maxRows (event_rows comm (map (fun ev => EventMsg ev (timeOf ev)) evs)) /\
   c_rows (conns m) = map connRow (latest cs) /\
   h_rows (http m) = lastn maxRows (http_rows (map HttpMsg exs)) /\
   e_closed (events m) = true /\ c_closed (conns m) = true /\ h_closed (http m) = true).
Proof using Hevs.
  intros Hr Hq. pose proof (loop_reachable s Hr Hq) as Hi.
  split_and!; [apply Hi|apply stream_step_sn|apply Hi|]. intros Hs.
  pose proof (fun c => read_out s c Hi Hq Hs) as Hall. destruct (li_shows _ _ Hi) as [He Hh Hc Hec Hcc Hhc].
  pose proof (Hall CEvents) as HE. pose proof (Hall CConns) as HC. pose proof (Hall CExchanges) as HX.
  unfold handled in HE, HC, HX. cbv zeta. split_and!.
  - rewrite He. f_equal. unfold event_rows. rewrite <-(omap_filter _ (of_chan CEvents)) by (by intros []).
    rewrite HE, omap_app. apply app_nil_r.
  - rewrite (rv_rows _ _ _ Hc). f_equal. f_equal. unfold snapshots.
    rewrite <-(omap_filter _ (of_chan CConns)) by (by intros []). rewrite HC, omap_app.
    clear. induction cs as [|c cs' IH]; [done|]. simpl in *. by f_equal.
  - rewrite Hh. f_equal. unfold http_rows. rewrite <-(omap_filter _ (of_chan CExchanges)) by (by intros []).
    rewrite HX, omap_app. apply app_nil_r.
  - rewrite Hec, <-(existsb_filter _ (of_chan CEvents)) by (by intros []). by rewrite HE, existsb_snoc, orb_true_r.
  - rewrite Hcc, <-(existsb_filter _ (of_chan CConns)) by (by intros []). by rewrite HC, existsb_snoc, orb_true_r.
  - rewrite Hhc, <-(existsb_filter _ (of_chan CExchanges)) by (by intros []). by rewrite HX, existsb_snoc, orb_true_r.
Qed.

End Runs.

Definition loop_idle (s : loop) : bool :=
  forallb (fun c => (l_waits s c =? 0)%nat) chans && match l_flight s with [] => true | _ => false end.

Lemma loop_idle_stuck s : loop_idle s = true -> forall s', ~ stream_step s s'.
Proof.
  unfold loop_idle. intros [Hw Hf]%andb_true_iff s' (l & Hl & Hs). destruct s as [m w fl rs q p h].
  simpl in *. destruct fl; [|done]. rewrite !andb_true_iff, !Nat.eqb_eq in Hw.
  destruct (q || p); [done|]. destruct l as [c|i|g]; [|done..].
  assert (w c = 0%nat) as E by (by destruct c; tauto). by rewrite E in Hs.
Qed.

End Loop.

(** ** Witness *)

(** Deliveries overtake each other, and a key and a new size come in between. *)
Definition loop_schedule : list (@loop_label bare_table tiny_http) :=
  [Recv CExchanges; Recv CEvents; Recv CConns; Handle 1; User (@KeyMsg bare_table tiny_http (str "tab"));
   Recv CEvents; Handle 0; Handle 1; User (@WindowSizeMsg bare_table tiny_http 100 40)] ++
  concat (replicate 5 [Recv CConns; Recv CEvents; Recv CExchanges; Handle 2; Handle 1; Handle 0]).

Lemma streams_read_out_witness :
  let evs := [sample_event OpConnect 5 []; sample_event OpWrite 5 (str "hi")] in
  let cs := [sample_conn 1 0; sample_conn 2 0; sample_conn 1 2] in
  let exs := [@mkExchange tiny_http 42 5 ProtocolHTTP None [] true] in
  let step := @loop_step bare_table print_all fixed_clock tiny_http (fun _ => str "app") bare_table_update
                (fun _ => 0%Z) in
  let s := run_any step loop_schedule (loop_start (fun _ => 0%Z) evs cs exs) in
  l_quit s = false /\ l_panic s = false /\
  (forall c, (l_waits s c + length (delivering c s) +
              (if existsb (closes c) (handled c s) then 1 else 0) = 1)%nat) /\
  length (e_rows (events (l_model s))) = 2%nat /\
  c_rows (conns (l_model s)) = map connRow [sample_conn 1 2; sample_conn 2 0] /\
  length (h_rows (http (l_model s))) = 1%nat /\
  e_closed (events (l_model s)) = true /\ c_closed (conns (l_model s)) = true /\
  h_closed (http (l_model s)) = true.
Proof.
  cbv zeta. set (s := run_any _ _ _).
  assert (l_quit s = false) as Hq by run. assert (loop_idle s = true) as Hi by run.
  destruct (@streams_read_out bare_table print_all fixed_clock tiny_http (fun _ => str "app")
    bare_table_update (fun _ => 0%Z) [sample_event OpConnect 5 []; sample_event OpWrite 5 (str "hi")]
    [sample_conn 1 0; sample_conn 2 0; sample_conn 1 2] [@mkExchange tiny_http 42 5 ProtocolHTTP None [] true]
    ltac:(repeat constructor; by apply Z.leb_le; vm_compute) s (run_any_rtc _ _ _) Hq) as (Hp & _ & H1 & Hs).
  destruct (Hs (@loop_idle_stuck bare_table print_all fixed_clock tiny_http (fun _ => str "app")
    bare_table_update (fun _ => 0%Z) s Hi)) as (He & Hc & Hh & E1 & E2 & E3).
  split_and!; [exact Hq|exact Hp|exact H1|rewrite He; run|rewrite Hc; run|rewrite Hh; run|exact E1|exact E2|exact E3].
Defined.
