(* ===== verification/LiveTui.v ===== *)
(** * trace: the goroutines and the interface together

    [traceCmd] with the interface: the collector, the correlator's and the
    streamer's goroutines of Live, whose three channels are received from by the
    program loop of TuiLoop and by nobody else.  While the user does not quit,
    what the tabs show follows what the kernel reports. *)

From S2P Require Import Prelude GoStd GoText GoRune Event Pipeline Stage.
From S2P Require Import Resp Http Streamer Correlator Collector Printer Live Tui TuiLoop.
Local Open Scope nat_scope.
Local Open Scope go_scope.

(** ** The system *)

Section LiveTui.
Context `{Table, UnicodePrint, Clock, Unicode, NetHTTP} (comm : Z -> bytes) `{!TableUpdate}
  (order : list (Streamer.key * connBufs) -> list (Streamer.key * connBufs))
  (timeOf : Event -> Time) (commOf : Z -> Z -> bytes).

Abbreviation system :=
  (tracing (S1 := Correlator.state) (S2 := gmap Streamer.key connBufs) (A := Event)
           (B1 := Connection) (B2 := Exchange)).

Record live := mkLive { lv_sys : system; lv_ui : loop }.

(** [tui.Run(rawEvents2, conns, exchanges, c.EventTime)] on the channels
    [correlator.Run] and [streamer.Run] have returned. *)
Definition live_start (evs : list Event) : live := mkLive (trace_start evs) (loop_start timeOf [] [] []).

Inductive live_label :=
| LSource (l : source_label) | LFirst | LSecond   (* collector, correlator, streamer *)
| LRecv (c : chan)                                (* a blocked receive of the interface *)
| LHandle (i : nat) | LUser (g : msg).            (* its loop *)

(** A receive on a channel: the item, or nothing once it is empty and closed. *)
Definition take_chan (c : chan) (s : system) : option (list msg * system) :=
  let 'mkTracing src g1 g2 rg cs es := s in
  match c with
  | CEvents =>
      match recv_raw g2 with
      | Some (ev, g2) => Some ([waitForEvent timeOf (Some ev)], mkTracing src g1 g2 (rg ++ [ev]) cs es)
      | None => if g_raw_closed g2 then Some ([], s) else None
      end
  | CConns =>
      match recv_out g1 with
      | Some (cn, g1) => Some ([waitForConn (Some cn)], mkTracing src g1 g2 rg (cs ++ [cn]) es)
      | None => if g_out_closed g1 then Some ([], s) else None
      end
  | CExchanges =>
      match recv_out g2 with
      | Some (ex, g2) => Some ([waitForExchange (Some ex)], mkTracing src g1 g2 rg cs (es ++ [ex]))
      | None => if g_out_closed g2 then Some ([], s) else None
      end
  end.

(** The loop with [r] to be received on [c]. *)
Definition offer (c : chan) (r : list msg) (u : loop) : loop :=
  mkLoop (l_model u) (l_waits u) (l_flight u) (update_at c r (l_rest u)) (l_quit u) (l_panic u) (l_hist u).

(** Once the user has quit [Run] returns and the process ends, as it does when
    a goroutine panics. *)
Definition stopped (s : live) : bool :=
  l_quit (lv_ui s) || l_panic (lv_ui s) || g_panic (t_g1 (lv_sys s)) || g_panic (t_g2 (lv_sys s)).

Definition system_label (l : live_label) : option tracing_label :=
  match l with
  | LSource l => Some (TSource l) | LFirst => Some TFirst | LSecond => Some TSecond
  | _ => None
  end.

Definition live_step (l : live_label) (s : live) : option live :=
  if stopped s then None
  else
    match l with
    | LRecv c =>
        '(r, sys) ← take_chan c (lv_sys s);
        ui ← loop_step comm timeOf (Recv c) (offer c r (lv_ui s));
        Some (mkLive sys ui)
    | LHandle i => ui ← loop_step comm timeOf (Handle i) (lv_ui s); Some (mkLive (lv_sys s) ui)
    | LUser g => ui ← loop_step comm timeOf (User g) (lv_ui s); Some (mkLive (lv_sys s) ui)
    | _ =>
        l ← system_label l;
        sys ← trace_step order timeOf commOf l (lv_sys s);
        Some (mkLive sys (lv_ui s))
    end.

(** Nothing can happen any more but what the user does and the close. *)
Definition live_settled (s : live) : Prop :=
  forall l, (forall g, l <> LUser g) -> l <> LSource Stop -> live_step l s = None.

(** ** Invariant *)

(** What the interface has received, as messages; a channel that gives nothing
    more. *)
Definition got (s : system) : chan -> list msg := incoming timeOf (t_raw s) (t_conns s) (t_exchanges s).

Definition ended (c : chan) (s : system) : Prop :=
  match c with
  | CEvents => g_raw_closed (t_g2 s) = true /\ g_raw (t_g2 s) = []
  | CConns => g_out_closed (t_g1 s) = true /\ g_out (t_g1 s) = []
  | CExchanges => g_out_closed (t_g2 s) = true /\ g_out (t_g2 s) = []
  end.

Abbreviation trace_inv := (tracing_inv (correlator_react timeOf commOf) correlator_flush connCap
  Correlator.init Streamer.step (streamer_flush order) outCap ∅).

Record live_inv (all : list Event) (s : live) : Prop := {
  lv_trace : trace_inv all (lv_sys s);
  lv_loop : loop_inv comm timeOf (got (lv_sys s)) (lv_ui s);
  lv_rest c : l_rest (lv_ui s) c = [];
  lv_ended c :
    existsb (closes c) (handled c (lv_ui s) ++ delivering c (lv_ui s)) = true -> ended c (lv_sys s);
}.

(** *** Receiving *)

Lemma loop_inv_ext all all' u :
  (forall c, all c = all' c) -> loop_inv comm timeOf all u -> loop_inv comm timeOf all' u.
Proof. intros He [H1' H2' H3' H4' H5']. split; try done. intros c. rewrite <-He. apply H2'. Qed.

(** What is received next, offered to a loop that waits for it. *)
Lemma offer_inv all c n r u :
  l_waits u c = S n -> (forall c, l_rest u c = []) -> loop_inv comm timeOf all u ->
  loop_inv comm timeOf (update_at c (all c ++ r) all) (offer c r u).
Proof.
  intros Hw Hr [Hone Ho Hsh Hsm Hp]. split; [exact Hone| |exact Hsh|exact Hsm|exact Hp].
  intros c'. specialize (Ho c'). specialize (Hone c').
  unfold stream_order, one_reader, offer, handled, delivering in *. simpl in *.
  destruct (decide (c' = c)) as [->|Hc]; [rewrite !update_at_eq|by rewrite !update_at_ne].
  rewrite Hr, app_nil_r in Ho. rewrite Hw in Hone.
  destruct (List.filter (of_chan c) (l_flight u)) as [|]; simpl in Hone; [|lia].
  destruct (existsb (closes c) (List.filter (of_chan c) (l_hist u))) eqn:Ee; [lia|].
  left. destruct Ho as [[Ho _]|[Ho _]].
  - rewrite !app_nil_r in *. by rewrite <-Ho, Ee.
  - rewrite app_nil_r in Ho. rewrite Ho, existsb_snoc, (proj2 (closed_of_chan timeOf c)), orb_true_r in Ee. done.
Qed.

(** A receive is a step of Live that gives one more message, or finds the
    channel at its end. *)
Definition recv_label (c : chan) : tracing_label :=
  match c with CEvents => TRecvRaw | CConns => TRecvConn | CExchanges => TRecvExchange end.

Lemma take_chan_cases c s r s' :
  g_panic (t_g1 s) || g_panic (t_g2 s) = false -> take_chan c s = Some (r, s') ->
  (forall c', got s' c' = update_at c (got s c ++ r) (got s) c') /\
  ((exists g, r = [g] /\ trace_step order timeOf commOf (recv_label c) s = Some s') \/
   (r = [] /\ s' = s /\ ended c s)).
Proof.
  destruct s as [src g1 g2 rg cs es]. simpl. intros Hp.
  destruct c; simpl; unfold trace_step, tracing_step; rewrite Hp;
    [destruct (recv_raw g2) as [[x g']|] eqn:E
    |destruct (recv_out g1) as [[x g']|] eqn:E|destruct (recv_out g2) as [[x g']|] eqn:E].
  all: try (intros [= <- <-]; split; [|left; by eexists];
    intros []; rewrite ?update_at_eq, ?update_at_ne by done; unfold got; simpl; by rewrite ?map_app).
  1: destruct (g_raw_closed g2) eqn:Ec; [|done].
  2: destruct (g_out_closed g1) eqn:Ec; [|done].
  3: destruct (g_out_closed g2) eqn:Ec; [|done].
  all: intros [= <- <-]; split;
    [intros []; rewrite ?update_at_eq, ?update_at_ne, ?app_nil_r by done; reflexivity|right].
  - destruct g2 as [? ? ? ? [] ? ? ? ?]; [by split|discriminate].
  - destruct g1 as [? ? ? ? ? ? [] ? ?]; [by split|discriminate].
  - destruct g2 as [? ? ? ? ? ? [] ? ?]; [by split|discriminate].
Qed.

(** *** The goroutines' own steps *)

(** A goroutine whose second channel is closed sends nothing more. *)
Lemma stage_out_ended {S A B} (react : S -> A -> safe (S * list B)) flush cap st0 rawGot outGot inb cl
    (g : stage S A B) inb' g' :
  stage_inv react flush cap st0 rawGot outGot g -> stage_step react flush cap inb cl g = Some (inb', g') ->
  g_out_closed g = true -> g_out_closed g' = true /\ g_out g' = g_out g.
Proof.
  intros Hg Hs Hc. pose proof (gi_shape _ _ _ _ _ _ _ Hg) as Hsh. unfold todo_shape in Hsh.
  destruct g as [h st td ov rw rc ou oc pn]. simpl in *. subst oc. destruct ov; [|by destruct Hsh].
  inversion Hsh; subst; simpl in Hs; by simplify_eq/=.
Qed.

Lemma system_keeps_ended all l tl s s' c :
  system_label l = Some tl -> trace_inv all s -> trace_step order timeOf commOf tl s = Some s' ->
  ended c s -> ended c s'.
Proof.
  intros Hl [_ Hg1 Hg2 Hp1 Hp2 _ _] Hs. destruct s as [src g1 g2 rg cs es]. simpl in *.
  unfold trace_step, tracing_step in Hs. rewrite Hp1, Hp2 in Hs. simpl in Hs.
  destruct l; simplify_eq/=.
  - destruct (source_step l src); simplify_eq/=. by destruct c.
  - destruct (stage_step _ _ _ _ _ g1) as [[bf g']|] eqn:E; simplify_eq/=.
    pose proof (stage_out_ended _ _ _ _ _ _ _ _ _ _ _ Hg1 E) as He.
    destruct c; simpl; [done| |done]. intros [Hc Ho]. rewrite (proj2 (He Hc)). split; [by apply He|done].
  - destruct (stage_step _ _ _ _ _ g2) as [[bf g']|] eqn:E; simplify_eq/=.
    pose proof (stage_out_ended _ _ _ _ _ _ _ _ _ _ _ Hg2 E) as He.
    destruct c; simpl; [|done|].
    + intros [Hc _]. apply (gi_closed _ _ _ _ _ _ _ Hg2) in Hc as [Ho Ht].
      destruct g2 as [h st td ov rw rc ou oc pn]. simpl in *. by subst.
    + intros [Hc Ho]. rewrite (proj2 (He Hc)). split; [by apply He|done].
Qed.

Lemma system_keeps_got l tl s s' :
  system_label l = Some tl -> trace_step order timeOf commOf tl s = Some s' -> got s' = got s.
Proof.
  intros Hl Hs. destruct s as [src g1 g2 rg cs es]. unfold trace_step, tracing_step in Hs.
  destruct (_ || _); [done|]. destruct l; simplify_eq/=.
  - by destruct (source_step l src); simplify_eq/=.
  - by destruct (stage_step _ _ _ _ _ g1) as [[]|]; simplify_eq/=.
  - by destruct (stage_step _ _ _ _ _ g2) as [[]|]; simplify_eq/=.
Qed.

Lemma recv_not_ended c s s' :
  trace_step order timeOf commOf (recv_label c) s = Some s' -> ended c s -> False.
Proof.
  destruct s as [src g1 g2 rg cs es]. unfold trace_step, tracing_step. destruct (_ || _); [done|].
  destruct c; simpl; intros Hs [_ He].
  - by destruct g2 as [? ? ? ? [] ? ? ? ?].
  - by destruct g1 as [? ? ? ? ? ? [] ? ?].
  - by destruct g2 as [? ? ? ? ? ? [] ? ?].
Qed.

Lemma recv_keeps_ended c c' s s' :
  c' <> c -> trace_step order timeOf commOf (recv_label c) s = Some s' -> ended c' s -> ended c' s'.
Proof.
  intros Hne. destruct s as [src g1 g2 rg cs es]. unfold trace_step, tracing_step. destruct (_ || _); [done|].
  destruct c; simpl; intros Hs.
  - destruct g2 as [? ? ? ? [] ? ? ? ?]; simplify_eq/=. by destruct c'.
  - destruct g1 as [? ? ? ? ? ? [] ? ?]; simplify_eq/=. by destruct c'.
  - destruct g2 as [? ? ? ? ? ? [] ? ?]; simplify_eq/=. by destruct c'.
Qed.

(** *** The loop's steps *)

#[local] Arguments handle : simpl never.

Lemma loop_recv c r u u' :
  loop_step comm timeOf (Recv c) (offer c r u) = Some u' ->
  (exists n, l_waits u c = S n) /\ l_hist u' = l_hist u /\
  l_flight u' = l_flight u ++ [(receive timeOf c r).1] /\
  (forall c', l_rest u' c' = update_at c (receive timeOf c r).2 (update_at c r (l_rest u)) c').
Proof.
  destruct u as [m w fl rs q p h]. simpl. destruct (q || p); [done|].
  destruct (w c) as [|n]; [done|]. rewrite update_at_eq. destruct (receive timeOf c r) as [g r'].
  intros [= <-]. simpl. by split_and!; [exists n|..].
Qed.

(** A message that is handled stays in the same place of its stream. *)
Lemma loop_keeps all l u u' c :
  loop_inv comm timeOf all u -> (forall c, l <> Recv c) -> loop_step comm timeOf l u = Some u' ->
  handled c u' ++ delivering c u' = handled c u ++ delivering c u /\ l_rest u' = l_rest u.
Proof.
  intros Hi Hl. pose proof (flight_le _ _ (li_one _ _ _ _ Hi c)) as Hle.
  assert (forall g w, l_hist (handle comm g w) = l_hist w ++ [g] /\ l_flight (handle comm g w) = l_flight w /\
            l_rest (handle comm g w) = l_rest w) as Hh.
  { intros g [m w fl rs q p h]. unfold handle. by destruct (Update comm g m) as [[]|[]|]. }
  destruct u as [m w fl rs q p h]. unfold handled, delivering in *. simpl in *. destruct (q || p); [done|].
  destruct l as [c'|i|g]; [by edestruct Hl| |].
  - destruct (fl !! i) as [g|] eqn:Ei; [|done]. intros [= <-].
    destruct (Hh g (mkLoop m w (delete i fl) rs q p h)) as (-> & -> & ->). simpl. split; [|done].
    pose proof (deliver_taken c i g fl Ei Hle) as Ht. unfold taken in Ht. rewrite filter_snoc.
    destruct (of_chan c g); [destruct Ht as [-> ->]; by rewrite app_nil_r|by rewrite app_nil_r, Ht].
  - destruct (user g) eqn:Eu; [|done]. intros [= <-].
    destruct (Hh g (mkLoop m w fl rs q p h)) as (-> & -> & ->). simpl. split; [|done]. rewrite filter_snoc.
    destruct (of_chan c g) eqn:Eg; [apply user_of_chan in Eg; congruence|by rewrite app_nil_r].
Qed.

(** *** Every step *)

Section Runs.
Context (all : list Event) (Hsv : streamer_survives order all)
  (Hsmall : Forall (fun ev => DataLen ev <= dataCap)%Z all).

Lemma trace_keeps tl s s' :
  trace_inv all s -> trace_step order timeOf commOf tl s = Some s' -> trace_inv all s'.
Proof using Hsv.
  intros Hi Hs. eapply tracing_step_inv; [apply correlator_never_panics|by apply streamer_never_panics|exact Hi|].
  by exists tl.
Qed.

Lemma got_prefix s : trace_inv all s -> t_raw s `prefix_of` all.
Proof.
  intros [Hsrc Hg1 Hg2 _ _ _ _]. etrans; [|by eapply hist_prefix].
  rewrite <-(gi_raw _ _ _ _ _ _ _ Hg1), <-(gi_raw _ _ _ _ _ _ _ Hg2), <-!app_assoc. by apply prefix_app_r.
Qed.

Lemma got_ok s c g :
  trace_inv all s -> g ∈ got s c -> of_chan c g = true /\ closes c g = false /\ small g.
Proof using Hsmall.
  intros Hi. apply incoming_ok. destruct (got_prefix s Hi) as [rest Hr].
  rewrite Hr in Hsmall. by apply Forall_app in Hsmall as [? _].
Qed.

Lemma recv_inv c s r sys u :
  live_inv all s -> take_chan c (lv_sys s) = Some (r, sys) ->
  loop_step comm timeOf (Recv c) (offer c r (lv_ui s)) = Some u -> l_quit u = false ->
  live_inv all (mkLive sys u).
Proof using Hsv Hsmall.
  intros [Ht Hu Hr He] Htake Hs Hq. destruct s as [sys0 u0]. cbn [lv_sys lv_ui] in *.
  assert (g_panic (t_g1 sys0) || g_panic (t_g2 sys0) = false) as Hp
    by by rewrite (tv_panic1 _ _ _ _ _ _ _ _ _ _ Ht), (tv_panic2 _ _ _ _ _ _ _ _ _ _ Ht).
  destruct (take_chan_cases c sys0 r sys Hp Htake) as [Hgot Hcase].
  destruct (loop_recv c r u0 u Hs) as ([n Hw] & Hh & Hf & Hrest).
  assert (trace_inv all sys) as Ht'.
  { destruct Hcase as [(g & _ & Hst)|(_ & -> & _)]; [by eapply trace_keeps|done]. }
  assert (loop_inv comm timeOf (got sys) u) as Hu'.
  { eapply loop_step_inv; [intros; by eapply got_ok| |exact Hs|exact Hq].
    eapply loop_inv_ext; [intros c'; symmetry; apply Hgot|]. by eapply offer_inv. }
  split; [exact Ht'|exact Hu'| |]; simpl.
  - intros c'. rewrite Hrest. destruct (decide (c' = c)) as [->|Hc]; [rewrite update_at_eq|by rewrite !update_at_ne].
    by destruct Hcase as [(g & -> & _)|(-> & _)].
  - intros c'. unfold handled, delivering. rewrite Hh, Hf, filter_snoc. rewrite (assoc_L (++)), existsb_app.
    destruct (existsb _ (_ ++ _)) eqn:Eold; simpl.
    + intros _. apply He in Eold. destruct Hcase as [(g & -> & Hst)|(_ & -> & _)]; [|done].
      destruct (decide (c' = c)) as [->|Hc]; [by destruct (recv_not_ended c sys0 sys Hst Eold)|].
      by eapply recv_keeps_ended.
    + destruct (of_chan c' _) eqn:Eo; [|done]. simpl. rewrite orb_false_r. intros Ecl.
      destruct Hcase as [(g & -> & Hst)|(-> & -> & Hend)]; simpl in *.
      * assert (g ∈ got sys c) as Hin by (rewrite Hgot, update_at_eq; set_solver).
        destruct (got_ok sys c g Ht' Hin) as (Hoc & Hncl & _).
        rewrite (of_chan_inj c' c g Eo Hoc) in Ecl. congruence.
      * pose proof (closed_of_chan timeOf c) as [Hoc _]. by rewrite (of_chan_inj c' c _ Eo Hoc).
Qed.

Lemma live_step_inv l s s' :
  live_inv all s -> live_step l s = Some s' -> l_quit (lv_ui s') = false -> live_inv all s'.
Proof using Hsv Hsmall.
  intros Hi Hs Hq. unfold live_step in Hs. destruct (stopped s); [done|].
  assert (forall l tl, system_label l = Some tl ->
    (sys ← trace_step order timeOf commOf tl (lv_sys s); Some (mkLive sys (lv_ui s))) = Some s' ->
    live_inv all s') as Hsys.
  { intros lb tl Hl Hst. destruct (trace_step _ _ _ tl _) as [sys|] eqn:E; simplify_eq/=.
    destruct Hi as [Ht Hu Hr He]. split; simpl; [by eapply trace_keeps| |done|].
    - rewrite (system_keeps_got lb tl _ _ Hl E). exact Hu.
    - intros c Hc. eapply system_keeps_ended; [exact Hl|exact Ht|exact E|by apply He]. }
  assert (forall lb, (forall c, lb <> Recv c) ->
    (ui ← loop_step comm timeOf lb (lv_ui s); Some (mkLive (lv_sys s) ui)) = Some s' -> live_inv all s') as Hui.
  { intros lb Hl Hst. destruct (loop_step _ _ lb _) as [u|] eqn:E; simplify_eq/=.
    destruct Hi as [Ht Hu Hr He]. pose proof (fun c => loop_keeps _ lb _ _ c Hu Hl E) as Hk.
    split; simpl; [done| | |].
    - eapply loop_step_inv; [intros; by eapply got_ok|exact Hu|exact E|exact Hq].
    - intros c. by rewrite (proj2 (Hk c)).
    - intros c. rewrite (proj1 (Hk c)). apply He. }
  destruct l as [l| | |c|i|g]; cbn [system_label mbind option_bind] in Hs; [by eapply (Hsys (LSource l))|by eapply (Hsys LFirst)|by eapply (Hsys LSecond)| |by apply (Hui (Handle i))|by apply (Hui (User g))].
  destruct (take_chan c (lv_sys s)) as [[r sys]|] eqn:Et; [|done]. cbn [mbind option_bind] in Hs.
  destruct (loop_step _ _ _ _) as [u|] eqn:El; simplify_eq/=. by eapply recv_inv.
Qed.

Lemma live_reachable s :
  rtc (steps_by live_step) (live_start all) s -> l_quit (lv_ui s) = false -> live_inv all s.
Proof using Hsv Hsmall.
  intros Hr. refine (rtc_invariant (steps_by live_step)
    (fun s => l_quit (lv_ui s) = false -> live_inv all s) _ _ _ Hr _).
  - intros s1 s2 Hi [l Hl] Hq. eapply live_step_inv; [|exact Hl|done]. apply Hi.
    unfold live_step, stopped in Hl. by destruct (l_quit (lv_ui s1)).
  - intros _. split; simpl; [apply tracing_inv_start| |by intros []|by intros []].
    split; try done; [by intros []|intros []; by left|apply shows_new].
Qed.

End Runs.

(** ** It ends *)

Definition by_user (l : live_label) : bool := match l with LUser _ => true | _ => false end.

(** The steps that are not the user's. *)
Definition live_progress (s s' : live) : Prop := exists l, by_user l = false /\ live_step l s = Some s'.

Definition live_work (s : live) : list nat := tracing_work (lv_sys s) ++ [stream_work (lv_ui s)].

Lemma offer_nil_work c u : stream_work (offer c [] u) <= stream_work u.
Proof.
  unfold stream_work, offer. simpl.
  destruct c; repeat (rewrite update_at_eq || rewrite update_at_ne by done); simpl; lia.
Qed.

Lemma live_progress_work s s' : live_progress s s' -> lex_lt (live_work s') (live_work s).
Proof.
  intros (l & Hl & Hs). unfold live_step, stopped in Hs.
  destruct (_ || _) eqn:Est; [done|]. destruct s as [sys u]. unfold live_work. cbn [lv_sys lv_ui] in *.
  rewrite !orb_false_iff in Est. destruct Est as [[_ Hp1] Hp2].
  assert (forall tl, (sys' ← trace_step order timeOf commOf tl sys; Some (mkLive sys' u)) = Some s' ->
    lex_lt (live_work s') (live_work (mkLive sys u))) as Hsys.
  { intros tl Hst. destruct (trace_step _ _ _ tl sys) as [sys'|] eqn:E; [|done]. apply (inj Some) in Hst as <-.
    apply lex_lt_app_l. eapply tracing_step_work. by exists tl. }
  destruct l as [l| | |c|i|g]; [by apply (Hsys (TSource l))|by apply (Hsys TFirst)|by apply (Hsys TSecond)| | |done].
  - destruct (take_chan c sys) as [[r sys']|] eqn:Et; [|done]. cbn [mbind option_bind] in Hs.
    destruct (loop_step _ _ _ _) as [u'|] eqn:El; [|done]. apply (inj Some) in Hs as <-.
    destruct (take_chan_cases c sys r sys' ltac:(by rewrite Hp1, Hp2) Et) as [_ [(g & -> & Hst)|(-> & -> & _)]].
    + apply lex_lt_app_l. eapply tracing_step_work. by eexists.
    + apply lex_lt_app_r. eapply Nat.lt_le_trans; [|apply (offer_nil_work c)].
      by eapply loop_step_work; [|exact El].
  - destruct (loop_step _ _ _ u) as [u'|] eqn:El; [|done]. apply (inj Some) in Hs as <-.
    apply lex_lt_app_r. by eapply loop_step_work; [|exact El].
Qed.

Lemma live_sn s : sn live_progress s.
Proof.
  apply (lex_sn _ (fun _ => True) live_work); [|done].
  intros ? ? _ Hs. split; [done|by apply live_progress_work].
Qed.

(** ** Where it ends *)

Section Settled.
Context (all : list Event) (s : live) (Hi : live_inv all s) (Hq : l_quit (lv_ui s) = false)
  (Hset : live_settled s).

Lemma running : stopped s = false.
Proof using Hi Hq.
  unfold stopped. destruct Hi as [Ht Hu _ _]. rewrite Hq, (li_panic _ _ _ _ Hu).
  by rewrite (tv_panic1 _ _ _ _ _ _ _ _ _ _ Ht), (tv_panic2 _ _ _ _ _ _ _ _ _ _ Ht).
Qed.

Lemma nothing_delivering : l_flight (lv_ui s) = [].
Proof using Hi Hq Hset.
  pose proof (Hset (LHandle 0) ltac:(done) ltac:(done)) as Hl. unfold live_step in Hl. rewrite running in Hl.
  pose proof (li_panic _ _ _ _ (lv_loop _ _ Hi)) as Hp. clear Hset. destruct s as [sys [m w fl rs q p h]].
  simpl in *. subst q p. by destruct fl.
Qed.

(** A receive that could be served has none waiting for it, and the other way
    round. *)
Lemma settled_recv c :
  is_Some (take_chan c (lv_sys s)) -> existsb (closes c) (handled c (lv_ui s)) = true.
Proof using Hi Hq Hset.
  intros [[r sys] Ht]. pose proof (Hset (LRecv c) ltac:(done) ltac:(done)) as Hl. unfold live_step in Hl.
  rewrite running, Ht in Hl. cbn [mbind option_bind] in Hl.
  pose proof (li_one _ _ _ _ (lv_loop _ _ Hi) c) as Hone. unfold one_reader, delivering in Hone.
  rewrite nothing_delivering in Hone. simpl in Hone.
  destruct (existsb _ _); [done|]. exfalso.
  assert (l_waits (lv_ui s) c = 1) as Hw by lia.
  pose proof (li_panic _ _ _ _ (lv_loop _ _ Hi)) as Hp.
  unfold offer, loop_step in Hl. rewrite Hq, Hp, Hw in Hl. simpl in Hl.
  by destruct (receive _ _ _).
Qed.

Lemma settled_ended c : existsb (closes c) (handled c (lv_ui s)) = true <-> ended c (lv_sys s).
Proof using Hi Hq Hset.
  split.
  - intros He. apply (lv_ended _ _ Hi). by rewrite existsb_app, He.
  - intros He. apply settled_recv. clear -He. destruct s as [[src g1 g2 rg cs es] u]. simpl in *.
    destruct c; destruct He as [Hc Ho];
      [destruct g2 as [? ? ? ? [] ? ? ? ?]|destruct g1 as [? ? ? ? ? ? [] ? ?]
      |destruct g2 as [? ? ? ? ? ? [] ? ?]]; simplify_eq/=; by eexists.
Qed.

Lemma settled_trace :
  tracing_settled (correlator_react timeOf commOf) correlator_flush connCap
    Streamer.step (streamer_flush order) outCap (lv_sys s).
Proof using Hi Hq Hset.
  assert (forall c, trace_step order timeOf commOf (recv_label c) (lv_sys s) = None) as Hrecv.
  { intros c. destruct (trace_step _ _ _ _ _) as [sys|] eqn:E; [|done]. exfalso.
    apply (recv_not_ended c _ _ E), settled_ended, settled_recv. clear -E.
    destruct s as [[src g1 g2 rg cs es] u]. unfold trace_step, tracing_step in E. simpl in *.
    destruct (_ || _); [done|].
    destruct c; simpl in *;
      [destruct (recv_raw g2) as [[]|]|destruct (recv_out g1) as [[]|]|destruct (recv_out g2) as [[]|]];
      try done; by eexists. }
  assert (forall l tl, system_label l = Some tl -> l <> LSource Stop ->
            trace_step order timeOf commOf tl (lv_sys s) = None) as Hsys.
  { intros l tl Hl Hne. assert (forall g, l <> LUser g) as Hu by (by destruct l).
    pose proof (Hset l Hu Hne) as Hn. unfold live_step in Hn. rewrite running in Hn.
    destruct (trace_step _ _ _ tl _) as [sys|] eqn:E; [|done]. exfalso.
    destruct l; try discriminate Hl; apply (inj Some) in Hl as <-;
      cbn [system_label mbind option_bind] in Hn; rewrite E in Hn; discriminate Hn. }
  intros [l| | | | |] Hne.
  - apply (Hsys (LSource l)); [done|congruence].
  - by apply (Hsys LFirst).
  - by apply (Hsys LSecond).
  - apply (Hrecv CEvents).
  - apply (Hrecv CConns).
  - apply (Hrecv CExchanges).
Qed.

(** The messages of a stream that have been handled. *)
Lemma settled_handled c :
  handled c (lv_ui s) = got (lv_sys s) c ++ (if existsb (closes c) (handled c (lv_ui s)) then [closed_msg timeOf c] else []).
Proof using Hi Hq Hset.
  pose proof (li_order _ _ _ _ (lv_loop _ _ Hi) c) as Ho. unfold stream_order, delivering in Ho.
  rewrite nothing_delivering, (lv_rest _ _ Hi) in Ho. simpl in Ho. rewrite !app_nil_r in Ho.
  destruct Ho as [[Ho He]|[Ho _]].
  - by rewrite He, Ho, app_nil_r.
  - rewrite Ho at 2. by rewrite existsb_snoc, (proj2 (closed_of_chan timeOf c)), orb_true_r.
Qed.

End Settled.

(** A channel is at its end only after the collector has been closed. *)
Lemma ended_stopping all s c : trace_inv all s -> ended c s -> stopping (t_src s) = true.
Proof.
  intros [Hsrc Hg1 Hg2 _ _ Ho1 Ho2] He.
  assert (g_over (t_g1 s) = true -> stopping (t_src s) = true) as Hs1.
  { intros [_ Hc]%Ho1. by apply (si_closed _ _ _ Hsrc) in Hc as [? _]. }
  assert (g_over (t_g2 s) = true -> stopping (t_src s) = true) as Hs2.
  { intros [_ Hc]%Ho2. apply (gi_closed _ _ _ _ _ _ _ Hg1) in Hc as [? _]. auto. }
  pose proof (gi_shape _ _ _ _ _ _ _ Hg1) as S1. pose proof (gi_shape _ _ _ _ _ _ _ Hg2) as S2.
  unfold todo_shape in S1, S2. destruct c; simpl in He; destruct He as [Hc _].
  - apply (gi_closed _ _ _ _ _ _ _ Hg2) in Hc as [? _]. auto.
  - destruct (g_over (t_g1 s)); [auto|]. destruct S1. congruence.
  - destruct (g_over (t_g2 s)); [auto|]. destruct S2. congruence.
Qed.

(** What the tabs show when everything but the user is at rest. *)
Lemma settled_shows all s :
  live_inv all s -> l_quit (lv_ui s) = false -> live_settled s ->
  let m := l_model (lv_ui s) in
  let sys := lv_sys s in
  e_rows (events m) = lastn maxRows (event_rows comm (map (fun ev => EventMsg ev (timeOf ev)) (t_raw sys))) /\
  c_rows (conns m) = map connRow (latest (t_conns sys)) /\
  h_rows (http m) = lastn maxRows (http_rows (map HttpMsg (t_exchanges sys))) /\
  (e_closed (events m), c_closed (conns m), h_closed (http m)) =
    (existsb (closes CEvents) (handled CEvents (lv_ui s)), existsb (closes CConns) (handled CConns (lv_ui s)),
     existsb (closes CExchanges) (handled CExchanges (lv_ui s))).
Proof.
  intros Hi Hq Hset. cbv zeta.
  assert (forall c, exists b : bool,
    handled c (lv_ui s) = got (lv_sys s) c ++ (if b then [closed_msg timeOf c] else [])) as Hall.
  { intros c. eexists. by apply (settled_handled all s Hi Hq Hset c). }
  destruct (li_shows _ _ _ _ (lv_loop _ _ Hi)) as [He Hh Hc Hec Hcc Hhc].
  destruct (Hall CEvents) as [b1 HE], (Hall CConns) as [b2 HC], (Hall CExchanges) as [b3 HX].
  split_and!.
  - rewrite He. f_equal. unfold event_rows. rewrite <-(omap_filter _ (of_chan CEvents)) by (by intros []).
    unfold handled in HE. rewrite HE, omap_app. destruct b1; apply app_nil_r.
  - rewrite (rv_rows _ _ _ Hc). f_equal. f_equal. unfold snapshots.
    rewrite <-(omap_filter _ (of_chan CConns)) by (by intros []).
    unfold handled in HC. rewrite HC, omap_app.
    assert (forall cs : list Connection, omap (fun g => match g with ConnMsg c => Some c | _ => None end)
      (map (fun c => waitForConn (Some c)) cs) = cs) as Hcs.
    { induction cs as [|cn cs IH]; [done|]. simpl. by f_equal. }
    unfold got. simpl. rewrite Hcs. destruct b2; apply app_nil_r.
  - rewrite Hh. f_equal. unfold http_rows. rewrite <-(omap_filter _ (of_chan CExchanges)) by (by intros []).
    unfold handled in HX. rewrite HX, omap_app. destruct b3; apply app_nil_r.
  - rewrite Hec, Hcc, Hhc. unfold handled. by rewrite !existsb_filter by (by intros []).
Qed.

(** At rest: what the tabs show. *)
Lemma settled_tabs all s :
  streamer_survives order all -> Forall (fun ev => DataLen ev <= dataCap)%Z all ->
  rtc (steps_by live_step) (live_start all) s -> l_quit (lv_ui s) = false -> live_settled s ->
  let evs := received (g_hist (t_g1 (lv_sys s))) (t_src (lv_sys s)) in
  let m := l_model (lv_ui s) in
  let http_shown exs := h_rows (http m) = lastn maxRows (http_rows (map HttpMsg exs)) in
  stopped s = false /\ evs `prefix_of` all /\
  e_rows (events m) = lastn maxRows (event_rows comm (map (fun ev => EventMsg ev (timeOf ev)) evs)) /\
  c_rows (conns m) = map connRow (latest (Correlator.Run timeOf commOf evs).2) /\
  if stopping (t_src (lv_sys s)) then
     (exists exs, Streamer.Run order evs = Ok (evs, exs) /\ http_shown exs) /\
     (e_closed (events m), c_closed (conns m), h_closed (http m)) = (true, true, true)
  else
    evs = all /\ (exists bufs exs, Streamer.loop ∅ evs = Ok (bufs, evs, exs) /\ http_shown exs) /\
    (e_closed (events m), c_closed (conns m), h_closed (http m)) = (false, false, false).
Proof.
  intros Hsv Hsmall Hrun Hq Hset. cbv zeta. pose proof (live_reachable all Hsv Hsmall s Hrun Hq) as Hi.
  split; [by eapply running|split; [eapply received_prefix, tv_src, Hi|]].
  destruct (settled_shows all s Hi Hq Hset) as (He & Hc & Hh & Hcl).
  destruct (trace_settles order timeOf commOf all (lv_sys s) (lv_trace _ _ Hi) (settled_trace all s Hi Hq Hset))
    as (Hraw & Hconns & Hend).
  rewrite Hraw in He. rewrite Hconns in Hc. split_and!; [exact He|exact Hc|].
  pose proof (fun c => settled_ended all s Hi Hq Hset c) as Hends.
  destruct (stopping (t_src (lv_sys s))) eqn:Est.
  - destruct Hend as (Hrun' & Ho1 & Ho2 & Hr2). split; [by exists (t_exchanges (lv_sys s))|]. rewrite Hcl.
    destruct (tracing_settled_quiet _ _ _ _ _ _ _ _ _ _ (lv_trace _ _ Hi) (settled_trace all s Hi Hq Hset))
      as [_ _ _ Qc Qr Qe].
    f_equal; [f_equal|]; apply Hends; by split.
  - destruct Hend as (Hall & bufs & Hloop). split; [done|].
    split; [by exists bufs, (t_exchanges (lv_sys s))|]. rewrite Hcl.
    assert (forall c, existsb (closes c) (handled c (lv_ui s)) = false) as Hno.
    { intros c. apply not_true_is_false. intros Ec%Hends.
      apply (ended_stopping all _ c (lv_trace _ _ Hi)) in Ec. congruence. }
    by rewrite !Hno.
Qed.

(** ** Theorem *)

(** [C7] [trace] as the user sees it: with the collector, both goroutines and the
    interface's receives, deliveries, keys and window sizes interleaved in any
    way, until the user quits nothing panics; left alone the program comes to
    rest after finitely many steps, and the tabs then show exactly what has
    been read from the kernel: the last rows of the events, one row per
    connection with the correlator's latest snapshot, the HTTP exchanges
    decoded so far.  Each tab says that the trace has ended if the collector has
    been closed, and then the exchanges of the final flush are there; otherwise
    everything the kernel reported is. *)
Theorem trace_shows_live all s :
  streamer_survives order all -> Forall (fun ev => DataLen ev <= dataCap)%Z all ->
  rtc (steps_by live_step) (live_start all) s -> l_quit (lv_ui s) = false ->
  let evs := received (g_hist (t_g1 (lv_sys s))) (t_src (lv_sys s)) in
  let m := l_model (lv_ui s) in
  let http_shown exs := h_rows (http m) = lastn maxRows (http_rows (map HttpMsg exs)) in
  stopped s = false /\ sn live_progress s /\ evs `prefix_of` all /\
  (live_settled s ->
   e_rows (events m) = lastn maxRows (event_rows comm (map (fun ev => EventMsg ev (timeOf ev)) evs)) /\
   c_rows (conns m) = map connRow (latest (Correlator.Run timeOf commOf evs).2) /\
   if stopping (t_src (lv_sys s)) then
     (exists exs, Streamer.Run order evs = Ok (evs, exs) /\ http_shown exs) /\
     (e_closed (events m), c_closed (conns m), h_closed (http m)) = (true, true, true)
   else
     evs = all /\ (exists bufs exs, Streamer.loop ∅ evs = Ok (bufs, evs, exs) /\ http_shown exs) /\
     (e_closed (events m), c_closed (conns m), h_closed (http m)) = (false, false, false)).
Proof.
  intros Hsv Hsmall Hrun Hq. cbv zeta. pose proof (live_reachable all Hsv Hsmall s Hrun Hq) as Hi.
  split_and!; [by eapply running|apply live_sn|eapply received_prefix, tv_src, Hi|]. intros Hset.
  apply (settled_tabs all s Hsv Hsmall Hrun Hq Hset).
Qed.

Definition live_idle (s : live) : bool :=
  forallb (fun l => match live_step l s with None => true | Some _ => false end)
    [LSource Read; LSource Send; LSource End; LFirst; LSecond; LRecv CEvents; LRecv CConns; LRecv CExchanges] &&
  match l_flight (lv_ui s) with [] => true | _ => false end.

Lemma live_idle_settled s : live_idle s = true -> live_settled s.
Proof.
  unfold live_idle. intros [Hl Hf]%andb_true_iff l Hu Hst. rewrite forallb_forall in Hl. specialize (Hl l).
  destruct l as [l| | |c|i|g]; [..|by edestruct Hu].
  - destruct (live_step _ s); [|done]. discriminate Hl. destruct l; simpl; tauto.
  - destruct (live_step _ s); [|done]. discriminate Hl. simpl. tauto.
  - destruct (live_step _ s); [|done]. discriminate Hl. simpl. tauto.
  - destruct (live_step _ s); [|done]. discriminate Hl. destruct c; simpl; tauto.
  - unfold live_step. destruct (stopped s); [done|]. destruct s as [sys [m w fl rs q p h]]. simpl in *.
    destruct fl; [|done]. by destruct (q || p).
Qed.

End LiveTui.

(** ** Witness *)

Definition live_schedule : list (@live_label bare_table tiny_http) :=
  let round := [LSource Read; LSource Send; LFirst; LFirst; LFirst; LSecond; LSecond; LSecond;
                LRecv CExchanges; LRecv CEvents; LRecv CConns; LHandle 1; LHandle 1; LHandle 0] in
  concat (replicate 6 round) ++ [LUser (@KeyMsg bare_table tiny_http (str "tab")); LSource Stop; LSource End] ++
  concat (replicate 8 round).

Lemma trace_shows_live_witness :
  let comm := fun _ : Z => str "app" in
  let commOf := fun _ _ : Z => str "app" in
  let step := @live_step bare_table print_all fixed_clock ascii_only tiny_http comm bare_table_update
                (fun l => l) Timestamp commOf in
  let s := run_any step live_schedule (@live_start bare_table tiny_http Timestamp sample_trace) in
  let m := l_model (lv_ui s) in
  stopped s = false /\ stopping (t_src (lv_sys s)) = true /\
  e_rows (events m) = @event_rows bare_table print_all fixed_clock tiny_http comm (map (fun ev => @EventMsg bare_table tiny_http ev (Timestamp ev)) sample_trace) /\
  c_rows (conns m) = map connRow (latest (Correlator.Run Timestamp commOf sample_trace).2) /\
  (exists exs, @Streamer.Run ascii_only tiny_http (fun l => l) sample_trace = Ok (sample_trace, exs) /\
     h_rows (http m) = lastn maxRows (@http_rows bare_table tiny_http (map (@HttpMsg bare_table tiny_http) exs))) /\
  (e_closed (events m), c_closed (conns m), h_closed (http m)) = (true, true, true).
Proof.
  cbv zeta. set (s := run_any _ _ _).
  assert (l_quit (lv_ui s) = false) as Hq by run.
  assert (stopping (t_src (lv_sys s)) = true) as Hst by run.
  assert (received (g_hist (t_g1 (lv_sys s))) (t_src (lv_sys s)) = sample_trace) as Hrec by run.
  destruct (@trace_shows_live bare_table print_all fixed_clock ascii_only tiny_http (fun _ => str "app")
    bare_table_update (fun l => l) Timestamp (fun _ _ => str "app") sample_trace s
    (@survives_all_ok ascii_only tiny_http (fun l => l) sample_trace ltac:(run))
    ltac:(repeat constructor; by apply Z.leb_le; vm_compute) (run_any_rtc _ _ _) Hq) as (Hs & _ & _ & Hset).
  destruct (Hset (@live_idle_settled bare_table print_all fixed_clock ascii_only tiny_http (fun _ => str "app")
    bare_table_update (fun l => l) Timestamp (fun _ _ => str "app") s ltac:(run))) as (He & Hc & Hend).
  rewrite Hst, Hrec in *. destruct Hend as [Hex Hcl].
  split_and!; [exact Hs|done|rewrite He; run|exact Hc|exact Hex|exact Hcl].
Defined.
