(* ===== verification/Cmd.v ===== *)
(** * cmd/wiremark: the commands

    [traceCmd], [recordCmd], [runCmd] and [launchCmd] on the flags cobra has
    parsed, composed from the components, with the record-and-replay round
    trip. *)

From S2P Require Import Prelude GoStd GoText Event Resp Http Streamer Recorder Replay.
From S2P Require Import Storage Collector Launcher.
Local Open Scope Z_scope.

(** ** Errors *)

Inductive cmd_err (E : Type) :=
| ErrPidRequired
| ErrOutputRequired
| ErrTestRequired
| ErrStartCollector (e : Collector.error (E := E))
| ErrEnableTLS (e : Collector.error (E := E))
| ErrBuild (e : build_err)
| ErrWrite (e : storage_err)
| ErrRead (e : storage_err)
| ErrStartProxy (e : E)
| ErrStartCommand (e : E)
| ErrLauncher (e : E)
| ErrFindSudo (e : E).
Arguments ErrPidRequired {E}.
Arguments ErrOutputRequired {E}.
Arguments ErrTestRequired {E}.
Arguments ErrStartCollector {E} e.
Arguments ErrEnableTLS {E} e.
Arguments ErrBuild {E} e.
Arguments ErrWrite {E} e.
Arguments ErrRead {E} e.
Arguments ErrStartProxy {E} e.
Arguments ErrStartCommand {E} e.
Arguments ErrLauncher {E} e.
Arguments ErrFindSudo {E} e.

(** ** trace *)

(** Which consumer [trace] runs. *)
Inductive viewer := PlainText | Interactive.

Section Trace.
Context {E : Type} (fails : Collector.call -> option E) (close_fails : Collector.resource -> option (Bpfgen.failed_close E)).

(** [traceCmd] until it starts to consume events: the kernel resources that are
    live then, or that the deferred [c.Close()] has left. *)
Definition traceCmd (pid : Z) (noTUI tls : bool) :
    list Collector.resource * outcome (cmd_err E) (Collector.Collector * viewer) :=
  if pid <=? 0 then ([], Err ErrPidRequired)
  else
    match Collector.New fails close_fails (uint32 pid) with
    | (live, Err e) => (live, Err (ErrStartCollector e))
    | (live, Panic p) => (live, Panic p)
    | (live, Ok c) =>
        let view := if noTUI then PlainText else Interactive in
        if tls then
          match Collector.EnableTLS fails c live with
          | (live, c, Some e) => ((Collector.Close close_fails c live).1, Err (ErrEnableTLS e))
          | (live, c, None) => (live, Ok (c, view))
          end
        else (live, Ok (c, view))
    end.

(** ** record *)

Context `{Unicode, NetHTTP, JSON} `{!YAML TestCase} (fate : bytes -> write_fate).

(** [recordCmd]; [collected] is what the loop over [exchanges] has received
    when it ends (Pipeline). *)
Definition recordCmd (pid : Z) (output name : bytes) (collected : list Exchange) (fs : files) :
    files * outcome (cmd_err E) unit :=
  if pid <=? 0 then (fs, Err ErrPidRequired)
  else if decide (output = []) then (fs, Err ErrOutputRequired)
  else
    match Collector.New fails close_fails (uint32 pid) with
    | (_, Err e) => (fs, Err (ErrStartCollector e))
    | (_, Panic p) => (fs, Panic p)
    | (_, Ok c) =>
        match Build name collected with
        | (_, Some e) => (fs, Err (ErrBuild e))
        | (tc, None) =>
            match WriteYAML fate output tc fs with
            | (fs, Some e) => (fs, Err (ErrWrite e))
            | (fs, None) => (fs, Ok tt)
            end
        end
    end.

(** ** run *)

(** The loop that keeps the Redis dependencies. *)
Definition redisDeps (deps : list Dependency) : list Dependency :=
  List.filter (fun dep => bool_decide (d_Type dep = str "redis")) deps.

(** The subprocess [runCmd] starts: its argument vector, the variable added to
    its environment, and the dependencies the proxy at that address serves. *)
Record replay_plan := mkPlan {
  rp_argv : list bytes;
  rp_env : bytes;
  rp_deps : list Dependency;
}.

(** [runCmd] until the subprocess runs; [proxy] is the address
    [replay.NewProxy] got to listen on, [start] the error of starting the
    command. *)
Definition runCmd (testPath : bytes) (args : list bytes) (proxy : outcome E bytes)
    (start : option E) (fs : files) : outcome (cmd_err E) replay_plan :=
  if decide (testPath = []) then Err ErrTestRequired
  else
    match ReadYAML (T := TestCase) testPath fs with
    | Err e => Err (ErrRead e)
    | Panic p => Panic p
    | Ok tc =>
        let deps := redisDeps (tc_Dependencies tc) in
        match proxy with
        | Err e => Err (ErrStartProxy e)
        | Panic p => Panic p
        | Ok addr =>
            match start with
            | Some e => Err (ErrStartCommand e)
            | None => Ok (mkPlan args (str "REDIS_ADDR=" ++ addr) deps)
            end
        end
    end.

End Trace.

(** ** launch *)

Section Launch.
Context {E : Type}.

(** [launchCmd] up to [syscall.Exec]: the program to execute and its argument
    vector; [None] when the user quit.  [self] is [os.Executable()], [sudo]
    the result of looking [sudo] up. *)
Definition launchCmd (self : bytes) (sudo : outcome E bytes)
    (launched : outcome E (option Launcher.Result)) :
    outcome (cmd_err E) (option (bytes * list bytes)) :=
  match launched with
  | Err e => Err (ErrLauncher e)
  | Panic p => Panic p
  | Ok None => Ok None
  | Ok (Some result) =>
      if Launcher.NeedsSudo result then
        match sudo with
        | Err e => Err (ErrFindSudo e)
        | Panic p => Panic p
        | Ok sudoPath => Ok (Some (sudoPath, [sudoPath; self] ++ Launcher.Args result))
        end
      else Ok (Some (self, [self] ++ Launcher.Args result))
  end.

End Launch.

(** ** Lemmas *)

Section Lemmas.
Context {E : Type} (fails : Collector.call -> option E) (close_fails : Collector.resource -> option (Bpfgen.failed_close E)).

Lemma attach_tracepoints_pid tps c live live' c' :
  Collector.attach_tracepoints fails close_fails tps c live = (live', Ok c') ->
  Collector.c_pid c' = Collector.c_pid c.
Proof.
  revert c live. induction tps as [|[name prog] tps IH]; intros c live; cbn; [by intros [= _ <-]|].
  destruct (fails _); [done|]. by intros ->%IH.
Qed.

Lemma New_pid pid live c :
  Collector.New fails close_fails pid = (live, Ok c) -> pid <> 0 /\ Collector.c_pid c = pid.
Proof.
  unfold Collector.New. case_decide; [done|]. destruct (Collector.attempt _ _); [done|].
  destruct (fails Collector.ClockGettime); [done|].
  destruct (Collector.attach_tracepoints _ _ _ _ _) as [live' [c'|e|p]] eqn:Ea; [|done..].
  apply attach_tracepoints_pid in Ea. destruct (fails Collector.NewReader); [done|].
  by intros [= _ <-].
Qed.

Lemma attach_uprobes_tls us c live live' c' e :
  Collector.attach_uprobes fails us c live = (live', c', e) ->
  Collector.c_pid c' = Collector.c_pid c /\ Collector.c_tlsEnabled c' = Collector.c_tlsEnabled c.
Proof.
  revert c live. induction us as [|[[sym prog] ret] us IH]; intros c live; cbn; [by intros [= _ <-]|].
  destruct (fails _); [by intros [= _ <- _]|]. by intros [-> ->]%IH.
Qed.

Lemma EnableTLS_pid c live live' c' e :
  Collector.EnableTLS fails c live = (live', c', e) ->
  Collector.c_pid c' = Collector.c_pid c /\
  (e = None -> Collector.c_tlsEnabled c' = true /\ Collector.c_tlsRd c' = true).
Proof.
  unfold Collector.EnableTLS. destruct (Collector.attempt _ _); [by intros [= _ <- <-]|].
  destruct (fails Collector.OpenExecutable); [by intros [= _ <- <-]|].
  destruct (Collector.attach_uprobes _ _ _ _) as [[live2 c2] e2] eqn:Eu.
  apply attach_uprobes_tls in Eu as [Hp Ht]. simpl in *.
  destruct e2; [by intros [= _ <- <-]|].
  destruct (fails Collector.NewTlsReader); intros [= _ <- <-]; by split.
Qed.
End Lemmas.

Lemma redisDeps_recorded calls : redisDeps (map dependency calls) = map dependency calls.
Proof. induction calls as [|c calls IH]; [done|]. simpl. by f_equal. Qed.

(** The dependency a recorded call becomes is found by its text. *)
Lemma find_dep_call `{Unicode} want calls :
  find_dep want (map dependency calls) =
  option_map dependency (List.find (fun c => bool_decide (text (Command c) = want)) calls).
Proof.
  induction calls as [|c calls IH]; [done|]. simpl. unfold text at 1.
  case_decide as Hd; [by rewrite bool_decide_eq_true_2|by rewrite bool_decide_eq_false_2, IH].
Qed.

Lemma recorded_reply `{Unicode} calls cmd :
  is_data_command cmd = true ->
  reply (map dependency calls) cmd =
  match List.find (fun c => bool_decide (text (Command c) = text cmd)) calls with
  | Some call => EncodeReply (Reply call)
  | None => EncodeError (str "ERR no recorded reply for '" ++ text cmd ++ str "'")
  end.
Proof. intros Hcmd. rewrite reply_data, find_dep_call by done. by destruct (List.find _ _). Qed.

(** What [run] starts on the file of a successful [record]. *)
Lemma record_run_plan {E} (fails : Collector.call -> option E) close_fails
    `{Unicode, NetHTTP, JSON} `{!YAML TestCase} fate pid output name collected fs fs' args addr :
  (forall (tc : TestCase) data, Marshal tc = Some data ->
     exists tc', Unmarshal data = Some tc' /\ tc_Dependencies tc' = tc_Dependencies tc) ->
  recordCmd fails close_fails fate pid output name collected fs = (fs', Ok tt) ->
  exists plan,
    runCmd output args (Ok addr) (None : option E) fs' = Ok plan /\
    rp_argv plan = args /\ rp_env plan = str "REDIS_ADDR=" ++ addr /\
    rp_deps plan = map dependency (redis_calls collected).
Proof.
  intros Hyaml. unfold recordCmd. destruct (pid <=? 0); [done|].
  destruct (decide (output = [])) as [|Hout]; [done|].
  destruct (Collector.New _ _ _) as [live [c|e|p]]; [|done..].
  unfold Build. rewrite build_fold. cbv zeta. set (tc := mkTest _ _ _ _).
  destruct (false || _); [|done].
  destruct (WriteYAML fate output tc fs) as [fs2 [e|]] eqn:Ew; [done|]. intros [= <-].
  apply WriteYAML_ReadYAML in Ew as (data & Hm & Hr).
  destruct (Hyaml tc data Hm) as (tc' & Hu & Hd). rewrite Hu in Hr.
  unfold runCmd. rewrite decide_False, Hr, Hd by done. eexists. split; [done|].
  split_and!; [done|done|]. apply redisDeps_recorded.
Qed.

(** ** Theorems *)

(** What an error of [trace] can leave open: objects behind one that failed to
    close, resources whose own closing failed and left them open, or all of the
    system call objects when the clock could not be read. *)
Definition remains {E} (fails : Collector.call -> option E)
    (close_fails : Collector.resource -> option (Bpfgen.failed_close E)) (live : list Collector.resource) : Prop :=
  (forall r, r ∈ live ->
     r ∈ Collector.syscall_leak close_fails \/ r ∈ Collector.tls_leak close_fails \/
     (Collector.direct r /\ Bpfgen.stays close_fails r = true)) \/
  (live = map Collector.RSyscall Bpfgen.SyscallObjects /\ is_Some (fails Collector.ClockGettime)).

Lemma New_remains {E} (fails : Collector.call -> option E) close_fails live :
  live = [] \/
  Collector.leaves_syscall_leak close_fails (map Collector.tracepoint_link Collector.tracepoints) live \/
  (live = map Collector.RSyscall Bpfgen.SyscallObjects /\ is_Some (fails Collector.ClockGettime)) ->
  remains fails close_fails live.
Proof.
  intros [->|[(attached & Hp & Hl)|?]]; [left; by intros r ?%elem_of_nil| |by right].
  left. intros r [?|[Hr ?]]%Hl; [by left|]. right; right. split; [|done].
  pose proof (elem_of_prefix _ _ _ Hr Hp) as Hin. by apply list_elem_of_fmap in Hin as (tp & -> & _).
Qed.

(** [trace] starts with the process it was asked for or not at all: when
    it gets to consuming events the flag was positive, the collector traces its
    low 32 bits, TLS is attached if it was asked for, and the chosen viewer
    runs; on any error no more stays open in the kernel than [remains] says. *)
Theorem traceCmd_starts {E} (fails : Collector.call -> option E) close_fails pid noTUI tls :
  match traceCmd fails close_fails pid noTUI tls with
  | (live, Ok (c, view)) =>
      0 < pid /\ Collector.c_pid c = uint32 pid /\ Collector.c_pid c <> 0 /\
      (tls = true -> Collector.c_tlsEnabled c = true /\ Collector.c_tlsRd c = true) /\
      (view = PlainText <-> noTUI = true) /\ Collector.owns c live
  | (live, _) => remains fails close_fails live
  end.
Proof.
  unfold traceCmd. destruct (Z.leb_spec pid 0); [left; by intros r ?%elem_of_nil|].
  pose proof (Collector.New_owns fails close_fails (uint32 pid)) as Ho.
  destruct (Collector.New _ _ _) as [live [c|e|p]] eqn:En; [|by apply New_remains..].
  destruct Ho as [Ho He]. apply New_pid in En as [Hne Hp]. destruct tls.
  - pose proof (Collector.EnableTLS_owns fails close_fails c live Ho He) as Ho2.
    destruct (Collector.EnableTLS fails c live) as [[live2 c2] [e|]] eqn:Et.
    { left. intros r. rewrite Collector.elem_of_Close by done. unfold Collector.left_held. naive_solver. }
    apply EnableTLS_pid in Et as [Hp2 Ht]. split_and!; try done; [congruence..|by auto|].
    by destruct noTUI.
  - split_and!; try done; [congruence|]. by destruct noTUI.
Qed.

(** The [--pid] flag is checked as a 64-bit number but traced as a 32-bit
    one: values 2^32 apart are the same command, so [--pid 4294967297] traces
    process 1. *)
Theorem traceCmd_pid_wraps {E} (fails : Collector.call -> option E) close_fails pid k noTUI tls :
  0 < pid -> 0 <= k ->
  traceCmd fails close_fails (pid + k * 2 ^ 32) noTUI tls = traceCmd fails close_fails pid noTUI tls.
Proof.
  intros Hp Hk. unfold traceCmd. rewrite !(proj2 (Z.leb_gt _ _)) by lia.
  unfold wrapU. by rewrite Z.mod_add by lia.
Qed.

(** [C4] What [record] writes is what [run] replays: when a recording succeeds
    and the YAML library gives the dependencies back as they were, a later
    [run] of the file starts the command unchanged, pointed at a proxy that
    serves every Redis call of the recorded exchanges in order; a data command
    the application sends is answered with the reply of the first recorded call
    with that text, and with an error if there is none. *)
Theorem record_run_replays {E} (fails : Collector.call -> option E) close_fails
    `{Unicode, NetHTTP, JSON} `{!YAML TestCase} fate pid output name collected fs fs' args addr :
  (forall (tc : TestCase) data, Marshal tc = Some data ->
     exists tc', Unmarshal data = Some tc' /\ tc_Dependencies tc' = tc_Dependencies tc) ->
  recordCmd fails close_fails fate pid output name collected fs = (fs', Ok tt) ->
  exists plan,
    runCmd output args (Ok addr) (None : option E) fs' = Ok plan /\
    rp_argv plan = args /\ rp_env plan = str "REDIS_ADDR=" ++ addr /\
    rp_deps plan = map dependency (redis_calls collected) /\
    forall cmd, is_data_command cmd = true ->
      reply (rp_deps plan) cmd =
      match List.find (fun c => bool_decide (text (Command c) = text cmd)) (redis_calls collected) with
      | Some call => EncodeReply (Reply call)
      | None => EncodeError (str "ERR no recorded reply for '" ++ text cmd ++ str "'")
      end.
Proof.
  intros Hyaml Hrec. destruct (record_run_plan fails close_fails fate pid output name collected fs fs' args addr Hyaml Hrec)
    as (plan & Hrun & Ha & He & Hd).
  exists plan. split_and!; [done..|]. intros cmd Hcmd. rewrite Hd. by apply recorded_reply.
Qed.

(** ** Witnesses *)

Lemma traceCmd_pid_wraps_witness :
  let fails (_ : Collector.call) := @None unit in
  let close_fails (_ : Collector.resource) := @None (Bpfgen.failed_close unit) in
  0 < 1 /\ 0 <= 1 /\
  traceCmd fails close_fails (1 + 1 * 2 ^ 32) false false = traceCmd fails close_fails 1 false false /\
  exists live c, traceCmd fails close_fails 4294967297 false false = (live, Ok (c, Interactive)) /\
                 Collector.c_pid c = 1.
Proof.
  split; [lia|split; [lia|split]].
  - apply (traceCmd_pid_wraps (fun _ => None) (fun _ => None) 1 1 false false); lia.
  - eexists _, _. split; [run|reflexivity].
Defined.

(** A concrete YAML library for dependencies: it writes them as RESP arrays. *)
Definition dep_words (d : Dependency) : list bytes := [d_Type d; d_Request d; d_Response d].
Definition words_dep (ws : list bytes) : Dependency :=
  match ws with [t; q; r] => mkDep t q r | _ => mkDep [] [] [] end.

Definition resp_yaml : YAML (@TestCase no_json) := {|
  Marshal tc :=
    let vs := map command_value (map dep_words (tc_Dependencies tc)) in
    if forallb wf_resp vs then Some (concat (map wire vs)) else None;
  Unmarshal data :=
    match ParseRESPStream data with
    | Ok (vs, _) =>
        match commands_of vs with
        | Some cmds =>
            Some (mkTest [] (mkTRequest [] [] BNil) (map words_dep cmds) (mkTResponse 0 BNil))
        | None => None
        end
    | _ => None
    end;
|}.

Lemma resp_yaml_deps (tc : @TestCase no_json) data :
  @Marshal _ resp_yaml tc = Some data ->
  exists tc', @Unmarshal _ resp_yaml data = Some tc' /\ tc_Dependencies tc' = tc_Dependencies tc.
Proof.
  simpl. destruct (forallb _ _) eqn:Hwf; [|done]. intros [= <-].
  rewrite (proj1 (ParseRESPStream_decodes _ _) (decodes_wires _ Hwf)), commands_of_values.
  eexists. split; [done|]. simpl. rewrite map_map. induction (tc_Dependencies tc) as [|[] ds IH]; [done|].
  simpl in *. apply andb_true_iff in Hwf as [_ Hwf]. f_equal. auto.
Qed.

(** An HTTP exchange and a connection with two Redis calls. *)
Definition sample_collected : list (@Exchange tiny_http) :=
  [mkExchange 42 5 ProtocolHTTP
     (Some (@mkHTTP tiny_http (Some (str "/a")) [] (Some (str "hi")) (str "hi"))) [] false;
   mkExchange 42 8 ProtocolRedis None
     [mkCall [str "set"; str "k"; str "v"] (str "OK"); mkCall [str "INCR"; str "n"] (str "(integer) 1")] false].

Lemma record_run_replays_witness :
  exists fs' plan,
    @recordCmd unit (fun _ => None) (fun _ => None) tiny_http no_json resp_yaml (fun _ => Written)
      42 (str "t.yaml") (str "t") sample_collected ∅ = (fs', Ok tt) /\
    @runCmd unit no_json resp_yaml (str "t.yaml") [str "./app"] (Ok (str "127.0.0.1:6390")) None fs' = Ok plan /\
    rp_argv plan = [str "./app"] /\ rp_env plan = str "REDIS_ADDR=" ++ str "127.0.0.1:6390" /\
    rp_deps plan = map dependency (redis_calls sample_collected) /\
    forall cmd, @is_data_command ascii_only cmd = true ->
      @reply ascii_only (rp_deps plan) cmd =
      match List.find (fun c => bool_decide (@text ascii_only (Command c) = @text ascii_only cmd))
              (redis_calls sample_collected) with
      | Some call => EncodeReply (Reply call)
      | None => EncodeError (str "ERR no recorded reply for '" ++ @text ascii_only cmd ++ str "'")
      end.
Proof.
  eexists. 
  destruct (@record_run_replays unit (fun _ => None) (fun _ => None) ascii_only tiny_http no_json resp_yaml
    (fun _ => Written) 42 (str "t.yaml") (str "t") sample_collected ∅ _ [str "./app"]
    (str "127.0.0.1:6390") resp_yaml_deps eq_refl) as [plan Hplan].
  exists plan. split; [reflexivity|exact Hplan].
Defined.
