(* ===== verification/Cli.v ===== *)
(** * cmd/wiremark: the command line

    [main], [rootCmd] and the flags each command declares; cobra's parser is a
    class.  The command lines the interactive menu builds are parsed back by
    the same program. *)

From S2P Require Import Prelude GoStd GoText Launcher.
Local Open Scope Z_scope.

(** A flag a command declares. *)
Record flag := mkFlag { f_name : bytes; f_short : option bytes; f_bool : bool }.

Definition value_flag (name : bytes) : flag := mkFlag name None false.
Definition bool_flag (name : bytes) : flag := mkFlag name None true.

Definition trace_flags : list flag :=
  [value_flag (str "pid"); bool_flag (str "no-tui"); bool_flag (str "tls")].
Definition record_flags : list flag :=
  [value_flag (str "pid"); mkFlag (str "output") (Some (str "o")) false; value_flag (str "name")].
Definition run_flags : list flag := [value_flag (str "test")].

#[export] Instance flag_eq_dec : EqDecision flag.
Proof. solve_decision. Defined.

(** What a flag set needs to be unambiguous: long names that differ and hold no
    [=], one-character shorthands that differ, neither starting with a dash. *)
Definition flag_ok (f : flag) : bool :=
  bool_decide (f_name f <> [] /\ head (f_name f) <> Some Byte.x2d /\ Byte.x3d ∉ f_name f) &&
  match f_short f with
  | Some [c] => bool_decide (c <> Byte.x2d /\ c <> Byte.x3d /\ bval c < 128)
  | Some _ => false
  | None => true
  end.
Definition flags_ok (fs : list flag) : bool :=
  forallb flag_ok fs && bool_decide (NoDup (map f_name fs) /\ NoDup (omap f_short fs)).

(** cobra's flag sets: [Parse] gives the flags set, in order, with their values,
    and the positional arguments; [IntVar] and [BoolVar] are the values'
    conversions. *)
Class FlagSet := {
  Parse : list flag -> list bytes -> option (list (bytes * bytes) * list bytes);
  IntVar : bytes -> option Z;
  BoolVar : bytes -> option bool;
}.

(** What is relied on: [--name value], [-x value], [--name] for booleans, and
    [--], after which everything is positional. *)
Class FlagSetLaws `{FlagSet} := {
  Parse_nil fs : Parse fs [] = Some ([], []);
  Parse_value fs f v args sets rest :
    flags_ok fs = true -> f ∈ fs -> f_bool f = false -> Parse fs args = Some (sets, rest) ->
    Parse fs ((str "--" ++ f_name f) :: v :: args) = Some ((f_name f, v) :: sets, rest);
  Parse_short fs f x v args sets rest :
    flags_ok fs = true -> f ∈ fs -> f_bool f = false -> f_short f = Some x -> Parse fs args = Some (sets, rest) ->
    Parse fs ((str "-" ++ x) :: v :: args) = Some ((f_name f, v) :: sets, rest);
  Parse_bool fs f args sets rest :
    flags_ok fs = true -> f ∈ fs -> f_bool f = true -> Parse fs args = Some (sets, rest) ->
    Parse fs ((str "--" ++ f_name f) :: args) = Some ((f_name f, str "true") :: sets, rest);
  Parse_dashes fs args : Parse fs (str "--" :: args) = Some ([], args);
  IntVar_Itoa n : inS 64 n -> IntVar (Itoa n) = Some n;
  BoolVar_true : BoolVar (str "true") = Some true;
}.

Section CommandLine.
Context `{FlagSet}.

(** The variable a flag sets: every setting is converted, the last one stays. *)
Definition setting {A} (convert : bytes -> option A) (name : bytes) (dflt : A)
    (sets : list (bytes * bytes)) : option A :=
  vs ← mapM (fun s => convert s.2) (List.filter (fun s => bool_decide (s.1 = name)) sets);
  Some (List.last vs dflt).

(** What a command's [RunE] is called with. *)
Inductive invocation :=
| RunTrace (pid : Z) (noTUI tls : bool)
| RunRecord (pid : Z) (output name : bytes)
| RunRun (testPath : bytes) (args : list bytes)
| RunLaunch.

(** [rootCmd]: the subcommand of the first argument, its flags with their
    defaults; [run] takes at least one argument.  [None] is an error, or one of
    cobra's own commands and flags (help, completion, [--version]). *)
Definition rootCmd (argv : list bytes) : option invocation :=
  match argv with
  | [] => None
  | sub :: args =>
      if decide (sub = str "trace") then
        '(sets, _) ← Parse trace_flags args;
        pid ← setting IntVar (str "pid") 0 sets;
        noTUI ← setting BoolVar (str "no-tui") false sets;
        tls ← setting BoolVar (str "tls") false sets;
        Some (RunTrace pid noTUI tls)
      else if decide (sub = str "record") then
        '(sets, _) ← Parse record_flags args;
        pid ← setting IntVar (str "pid") 0 sets;
        output ← setting Some (str "output") [] sets;
        name ← setting Some (str "name") (str "recorded-test") sets;
        Some (RunRecord pid output name)
      else if decide (sub = str "run") then
        '(sets, rest) ← Parse run_flags args;
        testPath ← setting Some (str "test") [] sets;
        if decide (rest = []) then None else Some (RunRun testPath rest)
      else if decide (sub = str "launch") then '(_, _) ← Parse [] args; Some RunLaunch
      else None
  end.

End CommandLine.

(** [main] on the error of the command: what it prints, and the exit status. *)
Definition main (err : option bytes) : bytes * Z :=
  match err with Some e => (str "error: " ++ e ++ [LF], 1) | None => ([], 0) end.

(** ** Lemmas *)

Section Argv.
Context `{FlagSetLaws}.

Lemma trace_argv mode p :
  mode ∈ [Launcher.ModeTraceTUI; Launcher.ModeTraceNoTUI; Launcher.ModeTraceTLS] ->
  IntVar (Itoa (Launcher.p_PID p)) = Some (Launcher.p_PID p) ->
  rootCmd (Launcher.traceArgs mode (Launcher.p_PID p)) =
  Some (RunTrace (Launcher.p_PID p) (bool_decide (mode = Launcher.ModeTraceNoTUI))
          (bool_decide (mode = Launcher.ModeTraceTLS))).
Proof.
  intros Hm Hi.
  assert (forall args sets, Parse trace_flags args = Some (sets, []) ->
    Parse trace_flags (str "--pid" :: Itoa (Launcher.p_PID p) :: args) =
      Some ((str "pid", Itoa (Launcher.p_PID p)) :: sets, [])) as Hpid.
  { intros args sets Ha. apply (Parse_value _ (value_flag (str "pid")) _ _ sets []); [by vm_compute| |done..]. left. }
  pose proof (Parse_nil trace_flags) as Hn.
  pose proof (Parse_bool trace_flags (bool_flag (str "no-tui")) [] [] []
    ltac:(by vm_compute) ltac:(right; left) eq_refl Hn) as Hb1.
  pose proof (Parse_bool trace_flags (bool_flag (str "tls")) [] [] []
    ltac:(by vm_compute) ltac:(right; right; left) eq_refl Hn) as Hb2.
  change (str "--" ++ f_name (bool_flag (str "no-tui"))) with (str "--no-tui") in Hb1.
  change (str "--" ++ f_name (bool_flag (str "tls"))) with (str "--tls") in Hb2.
  unfold rootCmd, Launcher.traceArgs. cbn [app]. rewrite decide_True by done.
  destruct mode; cbn [app]; [rewrite (Hpid _ _ Hn)|rewrite (Hpid _ _ Hb1)|rewrite (Hpid _ _ Hb2)|..];
    cbn [mbind option_bind]; unfold setting; simpl; rewrite ?Hi; simpl; rewrite ?BoolVar_true; try done;
    exfalso; clear -Hm; set_solver.
Qed.

Lemma record_argv out p :
  IntVar (Itoa (Launcher.p_PID p)) = Some (Launcher.p_PID p) ->
  rootCmd [str "record"; str "--pid"; Itoa (Launcher.p_PID p); str "-o"; out] =
  Some (RunRecord (Launcher.p_PID p) out (str "recorded-test")).
Proof.
  intros Hi. pose proof (Parse_nil record_flags) as Hn.
  pose proof (Parse_short record_flags (mkFlag (str "output") (Some (str "o")) false) (str "o") out [] [] []
    ltac:(by vm_compute) ltac:(right; left) eq_refl eq_refl Hn) as Ho.
  pose proof (Parse_value record_flags (value_flag (str "pid")) (Itoa (Launcher.p_PID p)) _ _ []
    ltac:(by vm_compute) ltac:(left) eq_refl Ho) as Hpid.
  change (rootCmd _) with (
    '(sets, _) ← Parse record_flags ((str "--" ++ f_name (value_flag (str "pid"))) ::
       Itoa (Launcher.p_PID p) :: (str "-" ++ str "o") :: out :: []);
    pid ← setting IntVar (str "pid") 0 sets;
    output ← setting Some (str "output") [] sets;
    name ← setting Some (str "name") (str "recorded-test") sets;
    Some (RunRecord pid output name)).
  rewrite Hpid. unfold setting. simpl. by rewrite Hi.
Qed.

Lemma run_argv path cmd :
  cmd <> [] -> rootCmd ([str "run"; str "--test"; path; str "--"] ++ cmd) = Some (RunRun path cmd).
Proof.
  intros Hc. pose proof (Parse_value run_flags (value_flag (str "test")) path _ _ cmd
    ltac:(by vm_compute) ltac:(left) eq_refl (Parse_dashes run_flags cmd)) as Ht.
  change (rootCmd _) with (
    '(sets, rest) ← Parse run_flags ((str "--" ++ f_name (value_flag (str "test"))) :: path :: str "--" :: cmd);
    testPath ← setting Some (str "test") [] sets;
    if decide (rest = []) then None else Some (RunRun testPath rest)).
  rewrite Ht. unfold setting. simpl. by rewrite decide_False.
Qed.

End Argv.

(** ** Theorems *)

(** [C27] The menu's command lines are commands: whatever [launch] hands to exec is,
    parsed by the same program, [trace] or [record] of a listed process's PID
    with the viewer and TLS of the chosen mode, a non-empty output and the
    default test name, or [run] with a non-empty path and the typed command;
    none of the commands' own flag checks rejects it. *)
Theorem launch_dispatches `{FlagSetLaws} `{Launcher.WidgetLaws} processes yamlDefault msgs r :
  Forall (fun p => 0 < Launcher.p_PID p < 2 ^ 32) processes ->
  Launcher.Run processes yamlDefault msgs = Some r ->
  exists i, rootCmd (Launcher.Args r) = Some i /\
    match i with
    | RunTrace pid noTUI tls =>
        (exists p, p ∈ processes /\ pid = Launcher.p_PID p) /\ 0 < pid /\ uint32 pid = pid /\
        ~ (noTUI = true /\ tls = true) /\ Launcher.NeedsSudo r = true
    | RunRecord pid output name =>
        (exists p, p ∈ processes /\ pid = Launcher.p_PID p) /\ 0 < pid /\ uint32 pid = pid /\
        output <> [] /\ name = str "recorded-test" /\ Launcher.NeedsSudo r = true
    | RunRun testPath args => testPath <> [] /\ args <> [] /\ Launcher.NeedsSudo r = false
    | RunLaunch => False
    end.
Proof.
  intros Hp Hr%Launcher.Run_runnable. rewrite Forall_forall in Hp.
  destruct Hr as [(mode & p & Hin & Hm & ->)|[(p & out & Hin & Ho & ->)|(path & cmd & Hpa & Hc & ->)]].
  - specialize (Hp p Hin). pose proof (IntVar_Itoa (Launcher.p_PID p)) as Hi.
    rewrite (trace_argv mode p Hm) by (apply Hi; unfold inS; lia).
    eexists. split; [done|]. split_and!; [eauto|lia|apply wrapU_id; unfold inU; lia| |done].
    destruct mode; naive_solver.
  - specialize (Hp p Hin). pose proof (IntVar_Itoa (Launcher.p_PID p)) as Hi.
    rewrite (record_argv out p) by (apply Hi; unfold inS; lia).
    eexists. split; [done|]. split_and!; [eauto|lia|apply wrapU_id; unfold inU; lia|done..].
  - cbn [Launcher.Args]. rewrite run_argv by done. by eexists.
Qed.

(** ** A flag parser *)

Definition named (a : bytes) (f : flag) : bool :=
  bool_decide (a = str "--" ++ f_name f \/ a = str "-" ++ default (str "-") (f_short f)).

Fixpoint parse_flags (fs : list flag) (args : list bytes) : option (list (bytes * bytes) * list bytes) :=
  match args with
  | [] => Some ([], [])
  | a :: args =>
      if decide (a = str "--") then Some ([], args)
      else
        match List.find (named a) fs with
        | Some f =>
            if f_bool f then '(sets, rest) ← parse_flags fs args; Some ((f_name f, str "true") :: sets, rest)
            else
              match args with
              | [] => None
              | v :: args => '(sets, rest) ← parse_flags fs args; Some ((f_name f, v) :: sets, rest)
              end
        | None =>
            if HasPrefix a (str "-") then None
            else '(sets, rest) ← parse_flags fs args; Some (sets, a :: rest)
        end
  end.

#[local] Instance plain_flags : FlagSet := {|
  Parse := parse_flags;
  IntVar := Atoi;
  BoolVar v :=
    if decide (v = str "true") then Some true else if decide (v = str "false") then Some false else None;
|}.

Lemma flag_of_name fs f :
  flags_ok fs = true -> f ∈ fs ->
  str "--" ++ f_name f <> str "--" /\ List.find (named (str "--" ++ f_name f)) fs = Some f.
Proof.
  intros [Hok [Hn _]%bool_decide_eq_true]%andb_true_iff Hf. rewrite forallb_forall in Hok.
  assert (f_name f <> []) as Hne.
  { apply list_elem_of_In, Hok, andb_true_iff in Hf as [Hf _]. by apply bool_decide_eq_true in Hf as []. }
  split; [by intros [=]|]. induction fs as [|g fs IH]; [by apply elem_of_nil in Hf|]. simpl in *.
  apply NoDup_cons in Hn as [Hg Hn]. unfold named at 1. case_bool_decide as Hd.
  - f_equal. destruct Hd as [[= He]|[= He]].
    + apply elem_of_cons in Hf as [->|Hf]; [done|]. exfalso. apply Hg. rewrite <- He. by apply list_elem_of_fmap_2.
    + exfalso. specialize (Hok g (or_introl eq_refl)). apply andb_true_iff in Hok as [_ Hok].
      destruct (f_short g) as [[|c [|]]|]; [done| |done|]; simpl in He.
      * injection He as <- _. apply bool_decide_eq_true in Hok as [[] _]; done.
      * by injection He.
  - apply elem_of_cons in Hf as [->|Hf]; [by destruct Hd; left|]. apply IH; auto.
Qed.

Lemma flag_of_short fs f x :
  flags_ok fs = true -> f ∈ fs -> f_short f = Some x ->
  str "-" ++ x <> str "--" /\ List.find (named (str "-" ++ x)) fs = Some f.
Proof.
  intros [Hok [_ Hn]%bool_decide_eq_true]%andb_true_iff Hf Hx. rewrite forallb_forall in Hok.
  assert (exists c, x = [c] /\ c <> Byte.x2d) as (c & -> & Hc).
  { apply list_elem_of_In, Hok, andb_true_iff in Hf as [_ Hf]. rewrite Hx in Hf.
    destruct x as [|c [|]]; [done| |done]. apply bool_decide_eq_true in Hf as []. eauto. }
  split; [by intros [=]|]. induction fs as [|g fs IH]; [by apply elem_of_nil in Hf|]. simpl in *.
  unfold named at 1. case_bool_decide as Hd.
  - f_equal. destruct Hd as [[= He]|[= He]]; [done|].
    destruct (f_short g) as [y|] eqn:Eg; simpl in He; [|by injection He]. subst y.
    apply elem_of_cons in Hf as [->|Hf]; [done|]. exfalso. rewrite <- Eg in *.
    apply NoDup_cons in Hn as [Hg _]. apply Hg. apply list_elem_of_omap. exists f. split; [done|by rewrite Hx].
  - apply elem_of_cons in Hf as [->|Hf]; [by destruct Hd; right; rewrite Hx|].
    apply IH; auto. by destruct (f_short g); [apply NoDup_cons in Hn as []|].
Qed.

Lemma parse_flags_value fs f a v args sets rest :
  a <> str "--" /\ List.find (named a) fs = Some f -> f_bool f = false ->
  parse_flags fs args = Some (sets, rest) ->
  parse_flags fs (a :: v :: args) = Some ((f_name f, v) :: sets, rest).
Proof. intros [Ha Hf] Hb Hp. cbn. by rewrite decide_False, Hf, Hb, Hp by done. Qed.

Lemma parse_flags_bool fs f a args sets rest :
  a <> str "--" /\ List.find (named a) fs = Some f -> f_bool f = true ->
  parse_flags fs args = Some (sets, rest) ->
  parse_flags fs (a :: args) = Some ((f_name f, str "true") :: sets, rest).
Proof. intros [Ha Hf] Hb Hp. cbn. by rewrite decide_False, Hf, Hb, Hp by done. Qed.

#[local] Instance plain_flags_laws : FlagSetLaws.
Proof.
  split; cbn [Parse IntVar BoolVar plain_flags]; try done.
  - intros. by apply parse_flags_value; [apply flag_of_name|..].
  - intros. by apply parse_flags_value; [apply flag_of_short|..].
  - intros. by apply parse_flags_bool; [apply flag_of_name|..].
  - apply Atoi_Itoa.
Defined.

(** ** Witness *)

Lemma launch_dispatches_witness :
  let r := mkResult [str "record"; str "--pid"; str "42"; str "-o"; str "recorded-1700000000.yaml"] true in
  rootCmd (Args r) = Some (RunRecord 42 (str "recorded-1700000000.yaml") (str "recorded-test")) /\
  exists pid output name, rootCmd (Args r) = Some (RunRecord pid output name) /\
    (exists p, p ∈ sample_processes /\ pid = p_PID p) /\ 0 < pid /\ uint32 pid = pid /\
    output <> [] /\ name = str "recorded-test" /\ NeedsSudo r = true.
Proof.
  intros r. assert (rootCmd (Args r) =
    Some (RunRecord 42 (str "recorded-1700000000.yaml") (str "recorded-test"))) as Hr by run.
  split; [exact Hr|].
  destruct (@launch_dispatches plain_flags plain_flags_laws bare_widgets bare_update bare_laws
    sample_processes [] _ r ltac:(repeat constructor; by vm_compute) Run_record) as (i & Hi & Hrest).
  assert (i = RunRecord 42 (str "recorded-1700000000.yaml") (str "recorded-test")) as -> by congruence.
  do 3 eexists. split; [exact Hi|exact Hrest].
Defined.
