(* ===== verification/EndToEnd.v ===== *)
(** * From the recorded process to its replay

    The two ends of the tool: the system calls of the process [record] traces,
    and what the proxy of [run] answers, through the kernel programs (Bpf), the
    live goroutines (Live), the recorder, the YAML file and the proxy. *)

From S2P Require Import Prelude GoStd Event CStruct Bpf BpfSpec BpfRefine.
From S2P Require Import Resp Http Streamer Recorder Replay Storage Collector Stage Live Trace Cmd.
Local Open Scope Z_scope.
Local Open Scope go_scope.

(** ** Lemmas *)

Section Record.
Context `{UserMem} (target_pid : Z).

(** The events a collector of system calls only reads from its ring buffer. *)
Definition decoded (calls : list (task * Syscall.hit)) : list Event :=
  pub_events (readLoop (ring (Bpf.events (Syscall.run Little target_pid calls)))).

Lemma decoded_view calls :
  Forall (fun th => wf_task th.1) calls ->
  (size (entered (syscall_op target_pid) calls) <= Syscall.max_entries)%nat ->
  map view (decoded calls) = reports (syscall_report target_pid) [] calls.
Proof.
  intros Hw Hn. unfold decoded.
  by destruct (observed_events _ _ (syscall_observed target_pid calls Hw Hn)) as (evs & <- & -> & _).
Qed.

(** The exchanges of what has been read are those of as many reported events. *)
Lemma exchanges_of_reports `{Unicode, NetHTTP} order calls evs exs :
  Forall (fun th => wf_task th.1) calls ->
  (size (entered (syscall_op target_pid) calls) <= Syscall.max_entries)%nat ->
  evs `prefix_of` decoded calls -> Streamer.Run order evs = Ok (evs, exs) ->
  let seen := take (length evs) (reports (syscall_report target_pid) [] calls) in
  Streamer.Run order seen = Ok (seen, exs).
Proof.
  intros Hw Hn [rest Hp] Hr. cbv zeta.
  assert (take (length evs) (reports (syscall_report target_pid) [] calls) = map view evs) as ->.
  { rewrite <-decoded_view, Hp, map_app by done. by rewrite take_app_length' by (by rewrite length_map). }
  by apply Run_of_view.
Qed.

End Record.

(** ** Theorem *)

(** [C5] The replies of a replay are determined by the system calls of the recorded
    process: whatever the reused memory in the ring buffer, the schedule of the
    goroutines and the moment of Ctrl-C, if at most 64 events were read and
    [record] succeeds, [run] of its file starts the command with a proxy that
    answers each data command with the reply of the first Redis call with that
    text among the exchanges of the reported calls, and with an error if there
    is none. *)
Theorem calls_to_replies {E} (fails : Collector.call -> option E) close_fails
    `{UserMem, Unicode, NetHTTP, JSON} `{!YAML TestCase} order fate pid output name calls s fs fs' args addr :
  (forall (tc : TestCase) data, Marshal tc = Some data ->
     exists tc', Unmarshal data = Some tc' /\ tc_Dependencies tc' = tc_Dependencies tc) ->
  Forall (fun th => wf_task th.1) calls ->
  (size (entered (syscall_op (uint32 pid)) calls) <= Syscall.max_entries)%nat ->
  streamer_survives order (decoded (uint32 pid) calls) ->
  rtc (steps_by (record_step order)) (record_start (decoded (uint32 pid) calls)) s ->
  recording_settled Streamer.step (streamer_flush order) Pipeline.outCap s -> stopping (r_src s) = true ->
  let n := length (received (g_hist (r_g s)) (r_src s)) in
  (n <= Pipeline.rawCap)%nat ->
  recordCmd fails close_fails fate pid output name (r_collected s) fs = (fs', Ok tt) ->
  let seen := take n (reports (syscall_report (uint32 pid)) [] calls) in
  exists exs plan,
    Streamer.Run order seen = Ok (seen, exs) /\
    runCmd output args (Ok addr) (None : option E) fs' = Ok plan /\
    rp_argv plan = args /\ rp_env plan = str "REDIS_ADDR=" ++ addr /\
    forall cmd, is_data_command cmd = true ->
      reply (rp_deps plan) cmd =
      match List.find (fun c => bool_decide (text (Command c) = text cmd)) (Recorder.redis_calls exs) with
      | Some call => EncodeReply (Reply call)
      | None => EncodeError (str "ERR no recorded reply for '" ++ text cmd ++ str "'")
      end.
Proof.
  intros Hyaml Hw Hn Hsv Hrun Hset Hst n Hlen Hrec seen.
  destruct (record_ends order _ s Hsv Hrun Hset Hlen) as [Hp Hend]. rewrite Hst in Hend.
  destruct Hend as [_ Hex].
  pose proof (exchanges_of_reports (uint32 pid) order calls _ _ Hw Hn Hp Hex) as Hseen.
  destruct (record_run_plan fails close_fails fate pid output name _ fs fs' args addr Hyaml Hrec)
    as (plan & Hpl & Ha & He & Hd).
  exists (r_collected s), plan. split_and!; [exact Hseen|done..|].
  intros cmd Hcmd. rewrite Hd. by apply recorded_reply.
Qed.

(** ** Witness *)

#[local] Existing Instance flat_memory.

(** A request on one connection, served with a Redis call on another. *)
Definition served_calls : list (task * Syscall.hit) :=
  let t m := sample_task 42 (str m) in
  let set_k := str "*3" ++ crlf ++ str "$3" ++ crlf ++ str "SET" ++ crlf ++ str "$1" ++ crlf ++
               str "k" ++ crlf ++ str "$1" ++ crlf ++ str "v" ++ crlf in
  [(t "", Syscall.sys_enter_read (args_of [5; 4096; 1024]));
   (t "GET /a", Syscall.sys_exit_read 6);
   (sample_task 42 set_k, Syscall.sys_enter_write (args_of [8; 4096; 27]));
   (t "", Syscall.sys_enter_read (args_of [8; 4096; 1024]));
   (sample_task 42 (str "+OK" ++ crlf), Syscall.sys_exit_read 5);
   (t "HTTP hi", Syscall.sys_enter_write (args_of [5; 4096; 7]));
   (t "", Syscall.sys_enter_close (args_of [8]));
   (t "", Syscall.sys_enter_close (args_of [5]))].

Definition served_schedule : list recording_label :=
  let go := [RSource Read; RSource Send; RGoroutine; RGoroutine; RGoroutine; RConsume] in
  concat (replicate 6 go) ++ [RSource Stop; RSource End] ++ concat (replicate 8 [RGoroutine; RConsume]).

Definition served :=
  run_any (@record_step ascii_only tiny_http (fun l => l)) served_schedule
    (@record_start tiny_http (decoded (uint32 42) served_calls)).

Definition served_file : files * outcome (cmd_err unit) unit :=
  @recordCmd unit (fun _ => None) (fun _ => None) tiny_http no_json resp_yaml (fun _ => Written)
    42 (str "t.yaml") (str "t") (r_collected served) ∅.

Definition served_exchanges : list (@Exchange tiny_http) :=
  [mkExchange 42 8 ProtocolRedis None [mkCall [str "SET"; str "k"; str "v"] (str "OK")] false;
   mkExchange 42 5 ProtocolHTTP
     (Some (@mkHTTP tiny_http (Some (str "/a")) [] (Some (str "hi")) (str "hi"))) [] false].

Lemma calls_to_replies_witness :
  length (received (g_hist (r_g served)) (r_src served)) = 6%nat /\
  served_file.2 = Ok tt /\
  exists plan,
    @runCmd unit no_json resp_yaml (str "t.yaml") [str "./app"] (Ok (str "127.0.0.1:6390")) None
      served_file.1 = Ok plan /\
    rp_argv plan = [str "./app"] /\
    @reply ascii_only (rp_deps plan) [str "set"; str "k"; str "v"] = str "+OK" ++ crlf.
Proof.
  assert (served_file.2 = Ok tt) as Hok by run.
  assert (@recordCmd unit (fun _ => None) (fun _ => None) tiny_http no_json resp_yaml (fun _ => Written)
    42 (str "t.yaml") (str "t") (r_collected served) ∅ = (served_file.1, Ok tt)) as Hf.
  { rewrite <-Hok. unfold served_file. apply surjective_pairing. }
  split; [run|split; [exact Hok|]].
  destruct (@calls_to_replies unit (fun _ => None) (fun _ => None) flat_memory ascii_only tiny_http no_json
    resp_yaml (fun l => l) (fun _ => Written) 42 (str "t.yaml") (str "t") served_calls served ∅ _ [str "./app"]
    (str "127.0.0.1:6390") resp_yaml_deps
    ltac:(repeat constructor; apply sample_task_wf; unfold inU; lia)
    ltac:(apply Nat.leb_le; run)
    (@survives_all_ok ascii_only tiny_http (fun l => l) (decoded (uint32 42) served_calls) ltac:(run))
    (run_any_rtc _ _ _) ltac:(apply recording_idle_settled; run) ltac:(run) ltac:(apply Nat.leb_le; run) Hf)
    as (exs & plan & Hex & Hrun & Ha & _ & Hreply).
  exists plan. split; [exact Hrun|split; [exact Ha|]]. rewrite Hreply by run.
  assert (match @Streamer.Run ascii_only tiny_http (fun l => l)
            (take 6 (reports (syscall_report (uint32 42)) [] served_calls)) with
          | Ok (_, exs) => exs = served_exchanges
          | _ => False
          end) as Hs by run.
  assert (exs = served_exchanges) as ->; [|run].
  revert Hs. change 6%nat with (length (received (g_hist (r_g served)) (r_src served))). by rewrite Hex.
Defined.
