(* ===== verification/EndToEndTui.v ===== *)
(** * From the traced process to the interface

    [trace] as a whole: what its tabs show, from the system calls and OpenSSL
    calls of the traced process, through the kernel programs (Bpf), the
    collector's channel, the goroutines and the program loop (LiveTui). *)

From S2P Require Import Prelude GoStd GoText GoRune Event CStruct Bpf BpfSpec BpfRefine.
From S2P Require Import Resp Http Streamer Correlator Collector Printer Stage Live Trace Tui TuiLoop LiveTui.
Local Open Scope Z_scope.
Local Open Scope go_scope.

(** ** The events a trace reads *)

Section Events.
Context `{UserMem} (target_pid : Z).

Definition decoded_calls (calls : list (task * Syscall.hit)) : list Event :=
  pub_events (readLoop (ring (Bpf.events (Syscall.run Little target_pid calls)))).
Definition decoded_ssl_calls (calls : list (task * Tls.hit)) : list Event :=
  pub_events (readLoop (ring (Bpf.events (Tls.run Little target_pid calls)))).

Lemma decoded_reports calls ssl_calls :
  wf_calls target_pid calls ssl_calls ->
  map view (decoded_calls calls) = reports (syscall_report target_pid) [] calls /\
  map view (decoded_ssl_calls ssl_calls) = reports (tls_report target_pid) [] ssl_calls /\
  Forall (fun ev => DataLen ev <= dataCap) (decoded_calls calls) /\
  Forall (fun ev => DataLen ev <= dataCap) (decoded_ssl_calls ssl_calls).
Proof.
  intros (Hw & Hwt & Hn & Hnt). unfold decoded_calls, decoded_ssl_calls.
  destruct (observed_events _ _ (syscall_observed target_pid calls Hw Hn)) as (evs & Hv & Hp & _).
  destruct (observed_events _ _ (tls_observed target_pid ssl_calls Hwt Hnt)) as (evs' & Hv' & Hp' & _).
  pose proof (sound_events _ _ (proj1 (syscall_run_safe target_pid calls Hw))) as Hs.
  pose proof (sound_events _ _ (proj1 (tls_run_safe target_pid ssl_calls Hwt))) as Hst.
  split_and!; [congruence..| |]; (eapply Forall_impl; [eassumption|naive_solver]).
Qed.

End Events.

(** The collector with both objects is a source for an interleaving of the two: wherever its
    readers are, what they have sent can be completed to one. *)
Lemma collector_merges `{UserMem} target_pid calls ssl_calls c :
  rtc (steps_by run_step) (Collector.Run (rings_of Little target_pid calls (Some ssl_calls))) c ->
  exists fut, merged (decoded_calls target_pid calls) (decoded_ssl_calls target_pid ssl_calls) (sent c ++ fut) /\
    rtc fed (source_start (sent c ++ fut), []) (source_of fut c, map snd (ev_got c)).
Proof.
  intros Hc. destruct (sent_prefix _ _ 0 _ Hc eq_refl) as [k1 Hk1], (sent_prefix _ _ 1 _ Hc eq_refl) as [k2 Hk2].
  exists (k1 ++ k2). split; [|by eapply collector_sourced]. unfold decoded_calls, decoded_ssl_calls.
  rewrite Hk1, Hk2. apply merged_extend, merged_tagged, (reachable_tagged _ _ Hc).
Qed.

(** ** The tabs see an event's view only *)

Lemma eventRow_view `{UnicodePrint, Clock} comm ev t : eventRow comm (view ev) t = eventRow comm ev t.
Proof.
  assert (payload_text (view ev) = payload_text ev) as Hp.
  { unfold payload_text. rewrite Payload_view. by destruct ev. }
  unfold eventRow, eventDetail. rewrite Hp. by destruct ev.
Qed.

Lemma event_rows_view `{Table, UnicodePrint, Clock, NetHTTP} comm (timeOf : Event -> Z) evs :
  (forall ev, timeOf (view ev) = timeOf ev) ->
  event_rows comm (map (fun ev => EventMsg ev (timeOf ev)) (map view evs)) =
  event_rows comm (map (fun ev => EventMsg ev (timeOf ev)) evs).
Proof.
  intros Ht. unfold event_rows. induction evs as [|ev evs IH]; [done|].
  cbn [map omap list_omap]. rewrite eventRow_view, Ht. by rewrite IH.
Qed.

Lemma correlator_step_view timeOf commOf st ev :
  (forall ev, timeOf (view ev) = timeOf ev) ->
  Correlator.step timeOf commOf st (view ev) = Correlator.step timeOf commOf st ev.
Proof.
  intros Ht. unfold Correlator.step, opened, closed. rewrite Ht. by destruct ev.
Qed.

Lemma correlator_view timeOf commOf evs :
  (forall ev, timeOf (view ev) = timeOf ev) ->
  (Correlator.Run timeOf commOf (map view evs)).2 = (Correlator.Run timeOf commOf evs).2.
Proof.
  intros Ht. unfold Correlator.Run. generalize Correlator.init.
  induction evs as [|ev evs IH]; intros st; [done|]. simpl. rewrite correlator_step_view by done.
  destruct (Correlator.step timeOf commOf st ev) as [st' out]. specialize (IH st').
  destruct (Correlator.loop timeOf commOf st' evs) as [[? ?] ?], (Correlator.loop timeOf commOf st' (map view evs)) as [[? ?] ?].
  simpl in *. congruence.
Qed.

(** ** Theorem *)

(** [C1] [trace --tls] from the calls of the traced process to the screen: whatever
    the ring buffers' stale memory, the order in which the two readers' events
    reach the channel, the schedule of the goroutines and of the interface, and
    the keys short of quitting - nothing panics, and when the program has come
    to rest the tabs show exactly what the specifications of the two BPF objects
    report for the calls: the rows of the last events read, one row per
    connection of those events, the HTTP exchanges of them, all of it once the
    collector has been closed or nothing more is reported. *)
Theorem calls_to_tabs `{UserMem, Table, UnicodePrint, Clock, Unicode, NetHTTP} comm `{!TableUpdate}
    order monoRefNs wallRef commOf target_pid calls ssl_calls all s :
  let timeOf := EventTime monoRefNs wallRef in
  wf_calls target_pid calls ssl_calls ->
  merged (decoded_calls target_pid calls) (decoded_ssl_calls target_pid ssl_calls) all ->
  streamer_survives order all ->
  rtc (steps_by (live_step comm order timeOf commOf)) (live_start timeOf all) s -> l_quit (lv_ui s) = false ->
  live_settled comm order timeOf commOf s ->
  let m := l_model (lv_ui s) in
  let http_shown exs := h_rows (http m) = lastn maxRows (http_rows (map HttpMsg exs)) in
  exists seen rest,
    merged (reports (syscall_report target_pid) [] calls) (reports (tls_report target_pid) [] ssl_calls)
      (seen ++ rest) /\
    stopped s = false /\
    e_rows (events m) = lastn maxRows (event_rows comm (map (fun ev => EventMsg ev (timeOf ev)) seen)) /\
    c_rows (conns m) = map connRow (latest (Correlator.Run timeOf commOf seen).2) /\
    if stopping (t_src (lv_sys s)) then
      exists exs, Streamer.Run order seen = Ok (seen, exs) /\ http_shown exs
    else
      rest = [] /\ exists bufs exs, Streamer.loop ∅ seen = Ok (bufs, seen, exs) /\ http_shown exs.
Proof.
  intros timeOf Hwf Hm Hsv Hrun Hq Hset. cbv zeta.
  destruct (decoded_reports target_pid calls ssl_calls Hwf) as (<- & <- & Hd & Hd').
  pose proof (merged_Forall _ _ _ _ Hm Hd Hd') as Hall.
  assert (forall ev, timeOf (view ev) = timeOf ev) as Ht by by intros [].
  destruct (settled_tabs comm order timeOf commOf all s Hsv Hall Hrun Hq Hset) as (Hs & [more Hmore] & He & Hc & Hend).
  set (evs := received _ _) in *. exists (map view evs), (map view more). split_and!.
  - rewrite <-map_app, <-Hmore. by apply merged_map.
  - exact Hs.
  - by rewrite event_rows_view.
  - by rewrite correlator_view.
  - destruct (stopping (t_src (lv_sys s))).
    + destruct Hend as [(exs & Hr & Hh) _]. exists exs. split; [by apply Run_of_view|done].
    + destruct Hend as (Hev & (bufs & exs & Hl & Hh) & _). split.
      * rewrite Hev, <-(app_nil_r all) in Hmore at 1. apply app_inv_head in Hmore. by subst more.
      * exists bufs, exs. split; [|done]. by rewrite loop_view, Hl.
Qed.

(** ** Witness *)

#[local] Existing Instance flat_memory.

(** The sample calls of BpfRefine, all reported and shown, before the end. *)
Definition shown_schedule : list (@live_label bare_table tiny_http) :=
  concat (replicate 9 [LSource Read; LSource Send; LFirst; LFirst; LFirst; LSecond; LSecond; LSecond;
                       LRecv CExchanges; LRecv CEvents; LRecv CConns; LHandle 1; LHandle 1; LHandle 0]).

Definition shown_events : list Event := decoded_calls 42 sample_calls ++ decoded_ssl_calls 42 sample_ssl_calls.

Definition shown_step :=
  @live_step bare_table print_all fixed_clock ascii_only tiny_http (fun _ => str "app") bare_table_update
    (fun l => l) (EventTime 0 0) (fun _ _ => str "app").

Definition shown : @live bare_table tiny_http :=
  run_any shown_step shown_schedule (@live_start bare_table tiny_http (EventTime 0 0) shown_events).

Lemma calls_to_tabs_witness :
  stopped shown = false /\
  exists seen,
    merged (reports (syscall_report 42) [] sample_calls) (reports (tls_report 42) [] sample_ssl_calls) seen /\
    length seen = 5%nat /\
    e_rows (events (l_model (lv_ui shown))) =
      lastn maxRows (@event_rows bare_table print_all fixed_clock tiny_http (fun _ => str "app")
        (map (fun ev => @EventMsg bare_table tiny_http ev (EventTime 0 0 ev)) seen)).
Proof.
  assert (l_quit (lv_ui shown) = false) as Hq by run.
  assert (stopping (t_src (lv_sys shown)) = false) as Hst by run.
  destruct (@calls_to_tabs flat_memory bare_table print_all fixed_clock ascii_only tiny_http (fun _ => str "app")
    bare_table_update (fun l => l) 0 0 (fun _ _ => str "app") 42 sample_calls sample_ssl_calls shown_events shown
    (conj sample_calls_wf (conj sample_ssl_calls_wf sample_room)) (merged_app _ _)
    (@survives_all_ok ascii_only tiny_http (fun l => l) shown_events ltac:(run)) (run_any_rtc _ _ _) Hq
    (@live_idle_settled bare_table print_all fixed_clock ascii_only tiny_http (fun _ => str "app")
      bare_table_update (fun l => l) (EventTime 0 0) (fun _ _ => str "app") shown ltac:(run)))
    as (seen & rest & Hm & Hs & He & _ & Hend).
  rewrite Hst in Hend. destruct Hend as [-> _]. rewrite app_nil_r in Hm.
  split; [exact Hs|]. exists seen. split; [exact Hm|split; [|exact He]].
  apply merged_length in Hm. rewrite Hm. run.
Defined.
