(* ===== verification/GoHttpApp.v ===== *)
(** * examples/go-http-app: the example application, and its replay

    The application the README records and replays: its handlers and where it
    looks for Redis, with what they use of [net/http] (the multiplexer and the
    response writer); the Redis client (go-redis) is an interface.  Then the
    whole way round: the application under [wiremark run]. *)

From S2P Require Import Prelude GoStd GoEnv Resp Http Streamer Recorder Replay Storage Cmd.
Local Open Scope nat_scope.

(** ** net/http: paths *)

Definition slash : byte := Byte.x2f.

(** [strings.Split(s, "/")] *)
Fixpoint segments (s : bytes) : list bytes :=
  match s with
  | [] => [[]]
  | c :: s =>
      if decide (c = slash) then [] :: segments s
      else match segments s with seg :: segs => (c :: seg) :: segs | [] => [[c]] end
  end.

(** One element of [path.Clean] on a rooted path, the elements kept so far in
    reverse. *)
Definition clean_step (kept : list bytes) (seg : bytes) : list bytes :=
  if decide (seg = [] \/ seg = str ".") then kept
  else if decide (seg = str "..") then tail kept
  else seg :: kept.

Definition rooted (segs : list bytes) : bytes := slash :: Join segs [slash].

(** [path.Clean("/" + p)] *)
Definition Clean (p : bytes) : bytes := rooted (reverse (fold_left clean_step (segments p) [])).

(** [cleanPath] of [ServeMux]: a trailing slash is kept. *)
Definition cleanPath (p : bytes) : bytes :=
  let p := match p with c :: q => if decide (c = slash) then q else p | [] => [] end in
  let np := Clean p in
  if decide (last p = Some slash /\ np <> [slash]) then np ++ [slash] else np.

Definition unhex (c : byte) : option Z :=
  if (48 <=? bval c)%Z && (bval c <=? 57)%Z then Some (bval c - 48)%Z
  else if (97 <=? bval c)%Z && (bval c <=? 102)%Z then Some (bval c - 87)%Z
  else if (65 <=? bval c)%Z && (bval c <=? 70)%Z then Some (bval c - 55)%Z
  else None.

(** [url.PathUnescape] *)
Fixpoint PathUnescape (s : bytes) : option bytes :=
  match s with
  | [] => Some []
  | Byte.x25 :: s =>
      match s with
      | a :: b :: s =>
          x ← unhex a; y ← unhex b; t ← PathUnescape s; Some (byte_of (16 * x + y) :: t)
      | _ => None
      end
  | c :: s => t ← PathUnescape s; Some (c :: t)
  end.

(** The first segment of a path as the multiplexer compares it, and whether
    nothing follows it. *)
Definition firstSegment (path : bytes) : bytes * bool :=
  match segments (drop 1 path) with
  | [seg] => (default seg (PathUnescape seg), true)
  | seg :: _ => (default seg (PathUnescape seg), false)
  | [] => ([], true)
  end.

(** ** net/http: responses *)

Record response := mkResponse {
  status : option Z;
  header : list (bytes * bytes);
  body : bytes;
}.

(** Only the first call counts. *)
Definition WriteHeader (code : Z) (w : response) : response :=
  mkResponse (Some (default code (status w))) (header w) (body w).

(** [Write], which [fmt.Fprint] and the like call once: the status is 200 if
    none has been written. *)
Definition Write (s : bytes) (w : response) : response :=
  mkResponse (Some (default 200%Z (status w))) (header w) (body w ++ s).

(** [http.Error] on a response whose headers are still empty. *)
Definition Error (msg : bytes) (code : Z) (w : response) : response :=
  Write (msg ++ [LF])
    (WriteHeader code
       (mkResponse (status w)
          (header w ++ [(str "Content-Type", str "text/plain; charset=utf-8");
                        (str "X-Content-Type-Options", str "nosniff")]) (body w))).

Definition handler : Type := response -> response.

(** [DefaultServeMux] on what [http.HandleFunc] registered: a pattern without a
    slash at its end is one path, ["/"] is all the others. *)
Definition find_handler (patterns : list (bytes * handler)) (path : bytes) : option handler :=
  let named :=
    match firstSegment path with
    | (seg, true) => List.find (fun p => bool_decide (p.1 = slash :: seg)) patterns
    | _ => None
    end in
  match named with
  | Some p => Some p.2
  | None => snd <$> List.find (fun p => bool_decide (p.1 = [slash])) patterns
  end.

Inductive answer := Redirect (path : bytes) | NotFound | Response (r : response).

(** What a request (other than CONNECT) for the escaped [path] gets: a path that
    is not clean is redirected to the clean one. *)
Definition ServeHTTP (patterns : list (bytes * handler)) (path : bytes) : answer :=
  if decide (cleanPath path = path) then
    match find_handler patterns path with
    | Some h => Response (h (mkResponse None [] []))
    | None => NotFound
    end
  else Redirect (cleanPath path).

(** ** go-redis *)

(** [rdb.Set(ctx, key, value, 0)]: the command it sends, its [Err()] on the
    bytes of the server's reply, and when nobody answers at the address. *)
Class GoRedis := {
  Set_command : bytes -> bytes -> list bytes;
  Set_Err : bytes -> option bytes;
  dial_error : bytes -> bytes;
}.

(** What the client documents: [Set] is Redis' SET, a status reply is success, an
    error reply is an error with its text. *)
Class GoRedisLaws `{GoRedis} : Prop := {
  Set_is_set key value : Set_command key value = [str "set"; key; value];
  status_is_ok s : line_ok s = true -> Set_Err (EncodeSimpleString s) = None;
  error_is_err m : line_ok m = true -> Set_Err (EncodeError m) = Some m;
}.

(** ** The application *)

Section App.
Context `{GoRedis} (net : bytes -> option (list bytes -> bytes)).  (* who answers at an address *)

(** Where [main] takes Redis to be. *)
Definition redisAddr (environ : list bytes) : bytes :=
  let addr := Getenv (str "REDIS_ADDR") environ in
  if decide (addr = []) then str "127.0.0.1:6379" else addr.

(** [rdb.Set(r.Context(), key, value, 0).Err()] of a client for [addr]. *)
Definition rdb_Set (addr key value : bytes) : option bytes :=
  match net addr with
  | Some answer => Set_Err (answer (Set_command key value))
  | None => Some (dial_error addr)
  end.

(** The handlers. *)
Definition hello : handler := Write (str "hello" ++ [LF]).
Definition big : handler := Write (replicate (Z.to_nat 10000) Byte.x78).
Definition quote (s : bytes) : bytes := [Byte.x22] ++ s ++ [Byte.x22].
Definition alice : bytes :=
  str "{" ++ quote (str "id") ++ str ":42," ++ quote (str "name") ++ str ":" ++ quote (str "Alice").
Definition medium : handler :=
  Write (alice ++ str "," ++ quote (str "bio") ++ str ":" ++ quote (replicate (Z.to_nat 1500) Byte.x79) ++ str "}").
Definition users (addr : bytes) : handler := fun w =>
  match rdb_Set addr (str "user:42") (str "Alice") with
  | Some err => Error err 500 w
  | None => Write (alice ++ str "}") (WriteHeader 201 w)
  end.

(** [main] in a process with that environment: what it answers to a path. *)
Definition main (environ : list bytes) (path : bytes) : answer :=
  let addr := redisAddr environ in
  ServeHTTP [(str "/", hello); (str "/big", big); (str "/medium", medium); (str "/users", users addr)] path.

End App.

(** ** Lemmas *)

(** An element [path.Clean] keeps. *)
Definition kept_seg (seg : bytes) : Prop :=
  slash ∉ seg /\ seg <> [] /\ seg <> str "." /\ seg <> str "..".

Lemma segments_cons c s :
  c <> slash -> exists seg segs, segments s = seg :: segs /\ segments (c :: s) = (c :: seg) :: segs.
Proof.
  intros Hc. simpl. rewrite decide_False by done. destruct (segments s) as [|seg segs] eqn:E; [|by eexists _, _].
  destruct s as [|c' s]; [done|]. simpl in E. by repeat case_match.
Qed.

Lemma segments_no_slash s : Forall (fun seg => slash ∉ seg) (segments s).
Proof.
  induction s as [|c s IH]; [repeat constructor; by apply not_elem_of_nil|].
  destruct (decide (c = slash)) as [->|Hc].
  - simpl. constructor; [by apply not_elem_of_nil|done].
  - destruct (segments_cons c s Hc) as (seg & segs & Hs & ->). rewrite Hs in IH.
    inversion IH; subst. constructor; [|done]. by apply not_elem_of_cons.
Qed.

Lemma segments_app seg s :
  slash ∉ seg -> segments (seg ++ slash :: s) = seg :: segments s.
Proof.
  induction seg as [|c seg IH]; intros Hn; [done|]. apply not_elem_of_cons in Hn as [Hc Hn].
  destruct (segments_cons c (seg ++ slash :: s)) as (seg' & segs & Hs & He); [congruence|].
  rewrite IH in Hs by done. simplify_eq. exact He.
Qed.

Lemma segments_one seg : slash ∉ seg -> segments seg = [seg].
Proof.
  induction seg as [|c seg IH]; intros Hn; [done|]. apply not_elem_of_cons in Hn as [Hc Hn].
  destruct (segments_cons c seg) as (seg' & segs & Hs & He); [congruence|].
  rewrite IH in Hs by done. simplify_eq. exact He.
Qed.

Lemma segments_Join segs tl :
  Forall (fun seg => slash ∉ seg) segs -> segs <> [] -> tl = [] \/ tl = [slash] ->
  segments (Join segs [slash] ++ tl) = segs ++ (if decide (tl = []) then [] else [[]]).
Proof.
  intros Hs Hne Htl. induction Hs as [|seg segs Hseg Hs IH]; [done|]. destruct segs as [|seg' segs].
  - simpl. destruct Htl as [->| ->]; simpl; [rewrite app_nil_r; by apply segments_one|by rewrite segments_app].
  - change (Join (seg :: seg' :: segs) [slash]) with (seg ++ [slash] ++ Join (seg' :: segs) [slash]).
    rewrite <-!app_assoc. change ([slash] ++ ?x) with (slash :: x). rewrite segments_app, IH by done. done.
Qed.

(** What [path.Clean] keeps of a path. *)
Lemma clean_kept segs kept :
  Forall (fun seg => slash ∉ seg) segs -> Forall kept_seg kept -> Forall kept_seg (fold_left clean_step segs kept).
Proof.
  intros Hs. revert kept. induction Hs as [|seg segs Hseg Hs IH]; intros kept Hk; [done|]. simpl. apply IH.
  unfold clean_step. case_decide as H1; [done|]. case_decide as H2.
  - destruct Hk; [constructor|done].
  - constructor; [|done]. unfold kept_seg. naive_solver.
Qed.

Lemma clean_fold segs kept :
  Forall kept_seg segs -> fold_left clean_step segs kept = reverse segs ++ kept.
Proof.
  intros Hs. revert kept. induction Hs as [|seg segs (H1 & H2 & H3 & H4) Hs IH]; intros kept; [done|].
  simpl. rewrite IH. unfold clean_step. rewrite !decide_False by naive_solver.
  by rewrite reverse_cons, <-app_assoc.
Qed.

Lemma Clean_fix segs tl :
  Forall kept_seg segs -> segs <> [] -> tl = [] \/ tl = [slash] ->
  Clean (Join segs [slash] ++ tl) = rooted segs.
Proof.
  intros Hs Hne Htl. unfold Clean. rewrite segments_Join; [|eapply Forall_impl; [exact Hs|by intros ? []]|done..].
  rewrite fold_left_app, (clean_fold segs), app_nil_r by done.
  assert (fold_left clean_step (if decide (tl = []) then [] else [[]]) (reverse segs) = reverse segs) as ->
    by (case_decide; [done|]; simpl; unfold clean_step; by rewrite decide_True by auto).
  by rewrite reverse_involutive.
Qed.

Lemma last_Join segs :
  Forall kept_seg segs -> segs <> [] -> last (Join segs [slash]) <> Some slash /\ Join segs [slash] <> [].
Proof.
  intros Hs. induction Hs as [|seg segs (Hn & Hne & _) Hs IH]; [done|]. intros _.
  destruct segs as [|seg' segs].
  - simpl. split; [|done]. intros Hl. apply Hn. by apply last_Some_elem_of.
  - change (Join (seg :: seg' :: segs) [slash]) with (seg ++ [slash] ++ Join (seg' :: segs) [slash]).
    destruct IH as [Hl Hj]; [done|]. split.
    + rewrite !last_app. destruct (last (Join _ _)) eqn:E; [done|]. by apply last_None in E.
    + intros [? _]%app_eq_nil. done.
Qed.

Lemma cleanPath_rooted p :
  cleanPath (slash :: p) =
  if decide (last p = Some slash /\ Clean p <> [slash]) then Clean p ++ [slash] else Clean p.
Proof. done. Qed.

(** A clean path stays as it is. *)
Lemma cleanPath_idempotent p : cleanPath (cleanPath p) = cleanPath p.
Proof.
  unfold cleanPath at 2 3. set (q := match p with [] => [] | _ => _ end). unfold Clean.
  pose proof (clean_kept (segments q) [] (segments_no_slash q) (Forall_nil_2 _)) as Hk.
  apply Forall_reverse in Hk. set (segs := reverse _) in *. clearbody segs.
  destruct segs as [|seg segs]; [by case_decide as Hd; [destruct Hd|]|].
  assert (seg :: segs <> []) as Hne by done. revert Hk Hne. generalize (seg :: segs). clear seg segs.
  intros segs Hk Hne. destruct (last_Join segs Hk Hne) as [Hl Hj].
  assert (rooted segs <> [slash]) as Hr by (unfold rooted; by intros [= ?]).
  case_decide.
  - change (rooted segs ++ [slash]) with (slash :: (Join segs [slash] ++ [slash])).
    rewrite cleanPath_rooted, Clean_fix by auto. rewrite decide_True; [done|]. split; [by rewrite last_snoc|done].
  - unfold rooted at 1. rewrite cleanPath_rooted. rewrite <-(app_nil_r (Join segs [slash])), Clean_fix by auto.
    rewrite app_nil_r. by rewrite decide_False by naive_solver.
Qed.

(** The multiplexer sends a clean path nowhere else, and ["/"] takes all. *)
Lemma ServeHTTP_clean patterns h path :
  find_handler patterns (cleanPath path) = Some h ->
  ServeHTTP patterns (cleanPath path) = Response (h (mkResponse None [] [])).
Proof. intros Hf. unfold ServeHTTP. by rewrite decide_True, Hf by apply cleanPath_idempotent. Qed.

(** The variable [run] adds is the one the application reads. *)
Lemma proxy_found environ addr :
  addr <> [] -> nul_byte ∉ addr -> redisAddr (dedupEnv (environ ++ [str "REDIS_ADDR=" ++ addr])).1 = addr.
Proof.
  intros Hne Hnul. unfold redisAddr.
  change (str "REDIS_ADDR=" ++ addr) with (entry (str "REDIS_ADDR") addr).
  rewrite appended_wins; [by rewrite decide_False|done| | |done].
  - exact (bool_decide_unpack (eq_byte ∉ str "REDIS_ADDR") I).
  - exact (bool_decide_unpack (nul_byte ∉ str "REDIS_ADDR") I).
Qed.

(** The command of [/users]. *)
Definition users_command : list bytes := [str "set"; str "user:42"; str "Alice"].

Section Theorems.
Context `{GoRedis} (net : bytes -> option (list bytes -> bytes)).

Lemma app_handler addr path :
  exists h, find_handler [(str "/", hello); (str "/big", big); (str "/medium", medium); (str "/users", users net addr)]
              path = Some h /\ h ∈ [hello; big; medium; users net addr].
Proof.
  unfold find_handler. destruct (firstSegment path) as [seg []].
  - destruct (List.find _ _) as [p|] eqn:E; [|eexists; split; [done|by left]].
    apply List.find_some in E as [Hin _]. exists p.2. split; [done|].
    simpl in Hin. rewrite !elem_of_cons. naive_solver.
  - eexists. split; [done|by left].
Qed.

(** The address of Redis matters only through what SET returns. *)
Lemma users_same addr addr' :
  rdb_Set net addr (str "user:42") (str "Alice") = rdb_Set net addr' (str "user:42") (str "Alice") ->
  users net addr = users net addr'.
Proof. intros Hs. unfold users. by rewrite Hs. Qed.

Lemma handler_status addr h :
  h ∈ [hello; big; medium; users net addr] ->
  exists code, status (h (mkResponse None [] [])) = Some code /\ code ∈ [200; 201; 500]%Z.
Proof.
  rewrite !elem_of_cons. intros [->|[->|[->|[->|?%elem_of_nil]]]]; [..|done].
  4: unfold users; destruct (rdb_Set _ _ _ _).
  all: eexists; split; [reflexivity|]; rewrite !elem_of_cons; auto.
Qed.

(** ** Theorems *)

(** The application answers every request: a path is redirected at most once -
    to one that is not redirected again - and then a handler writes a response
    with status 200, 201 or 500; no path is not found. *)
Theorem app_answers environ path :
  exists r, main net environ (cleanPath path) = Response r /\
    (main net environ path = Response r \/ main net environ path = Redirect (cleanPath path)) /\
    exists code, status r = Some code /\ code ∈ [200; 201; 500]%Z.
Proof.
  unfold main. destruct (app_handler (redisAddr environ) (cleanPath path)) as (h & Hf & Hh).
  eexists. split_and!; [by apply ServeHTTP_clean| |by eapply handler_status].
  unfold ServeHTTP. case_decide as Hc; [|by right]. left.
  rewrite Hc in Hf. by rewrite Hf.
Qed.

(** [C9] The application replayed as [wiremark run] replays it: after a successful
    [record], [run] of the file starts it with an environment in which Redis is
    at the proxy, whatever [REDIS_ADDR] was before.  If the SET of [/users] was
    recorded, with a reply that is rendered faithfully - a status, an error, an
    integer or null - the application answers every request as it does with a
    Redis that gives that reply, whatever the client library makes of it; if it
    was not recorded, [/users] is answered 500 with the proxy's message. *)
Theorem replayed_app {E} (fails : Collector.call -> option E) close_fails
    `{Unicode, NetHTTP, JSON} `{!YAML TestCase} `{!GoRedisLaws} fate pid output name collected fs fs' args addr environ :
  (forall (tc : TestCase) data, Marshal tc = Some data ->
     exists tc', Unmarshal data = Some tc' /\ tc_Dependencies tc' = tc_Dependencies tc) ->
  recordCmd fails close_fails fate pid output name collected fs = (fs', Ok tt) ->
  addr <> [] -> nul_byte ∉ addr ->
  exists plan,
    runCmd output args (Ok addr) (None : option E) fs' = Ok plan /\
    (net addr = Some (reply (rp_deps plan)) ->
     let child := (dedupEnv (environ ++ [rp_env plan])).1 in
     redisAddr child = addr /\
     match List.find (fun c => bool_decide (text (Command c) = str "set user:42 alice")) (redis_calls collected) with
     | Some call =>
         forall v environ' redis,
           Reply call = RESPString v -> wf_resp v = true -> display_faithful v = true ->
           net (redisAddr environ') = Some redis -> redis users_command = wire v ->
           forall path, main net child path = main net environ' path
     | None =>
         main net child (str "/users") =
         Response (Error (str "ERR no recorded reply for 'set user:42 alice'") 500 (mkResponse None [] []))
     end).
Proof.
  intros Hyaml Hrec Hne Hnul.
  destruct (record_run_plan fails close_fails fate pid output name collected fs fs' args addr Hyaml Hrec)
    as (plan & Hrun & _ & He & Hd).
  exists plan. split; [exact Hrun|]. intros Hnet child.
  assert (redisAddr child = addr) as Haddr by (unfold child; rewrite He; by apply proxy_found).
  split; [done|].
  pose proof (recorded_reply (redis_calls collected) users_command eq_refl) as Hreply.
  change (text users_command) with (str "set user:42 alice") in Hreply. rewrite <-Hd in Hreply.
  destruct (List.find _ _) as [call|].
  - intros v environ' redis Hr Hwf Hf Hnet' Hredis path. unfold main. rewrite Haddr.
    rewrite (users_same addr (redisAddr environ')); [done|]. unfold rdb_Set. rewrite Hnet, Hnet', Set_is_set.
    change [str "set"; str "user:42"; str "Alice"] with users_command.
    by rewrite Hreply, Hredis, Hr, EncodeReply_wire_faithful.
  - unfold main. rewrite Haddr. change (str "/users") with (cleanPath (str "/users")).
    erewrite ServeHTTP_clean by reflexivity. unfold users, rdb_Set. rewrite Hnet, Set_is_set.
    change [str "set"; str "user:42"; str "Alice"] with users_command. by rewrite Hreply, error_is_err.
Qed.

End Theorems.

(** ** Witness *)

(** A client that reads the replies SET can get. *)
Definition tiny_redis : GoRedis := {|
  Set_command key value := [str "set"; key; value];
  Set_Err reply :=
    match reply with
    | Byte.x2d :: m => Some (take (length m - 2) m)
    | _ => None
    end;
  dial_error addr := str "dial tcp " ++ addr;
|}.

Lemma tiny_redis_laws : @GoRedisLaws tiny_redis.
Proof.
  split; try done. intros m _. simpl. rewrite length_app. simpl. f_equal.
  replace (length m + 2 - 2) with (length m) by lia. apply take_app_length.
Qed.

(** [/users] recorded, then replayed where [REDIS_ADDR] had another value. *)
Definition users_collected : list (@Exchange tiny_http) :=
  [mkExchange 42 8 ProtocolRedis None [mkCall [str "set"; str "user:42"; str "Alice"] (str "OK")] false;
   mkExchange 42 5 ProtocolHTTP
     (Some (@mkHTTP tiny_http (Some (str "/users")) [] (Some (str "hi")) (str "hi"))) [] false].

Definition users_file : files * outcome (cmd_err unit) unit :=
  @recordCmd unit (fun _ => None) (fun _ => None) tiny_http no_json resp_yaml (fun _ => Written)
    42 (str "t.yaml") (str "t") users_collected ∅.

Definition proxy_addr : bytes := str "127.0.0.1:6390".

(** The proxy, and the Redis that was recorded. *)
Definition sample_net (addr : bytes) : option (list bytes -> bytes) :=
  if decide (addr = proxy_addr) then Some (@reply ascii_only (map dependency (redis_calls users_collected)))
  else if decide (addr = str "redis:6379") then Some (fun _ => str "+OK" ++ crlf)
  else None.

Lemma replayed_app_witness :
  users_file.2 = Ok tt /\
  exists plan,
    @runCmd unit no_json resp_yaml (str "t.yaml") [str "./go-http-app"] (Ok proxy_addr) None users_file.1 = Ok plan /\
    let recorded := [str "REDIS_ADDR=redis:6379"; str "HOME=/"] in
    let child := (dedupEnv (recorded ++ [rp_env plan])).1 in
    (forall path, @main tiny_redis sample_net child path = @main tiny_redis sample_net recorded path) /\
    @main tiny_redis sample_net recorded (str "/users") = Response (mkResponse (Some 201%Z) [] (alice ++ str "}")).
Proof.
  assert (users_file.2 = Ok tt) as Hok by run.
  assert (@recordCmd unit (fun _ => None) (fun _ => None) tiny_http no_json resp_yaml (fun _ => Written)
    42 (str "t.yaml") (str "t") users_collected ∅ = (users_file.1, Ok tt)) as Hf
    by (rewrite <-Hok; apply surjective_pairing).
  split; [exact Hok|].
  destruct (@replayed_app tiny_redis sample_net unit (fun _ => None) (fun _ => None) ascii_only tiny_http no_json
    resp_yaml tiny_redis_laws (fun _ => Written) 42 (str "t.yaml") (str "t") users_collected ∅ _
    [str "./go-http-app"] proxy_addr [str "REDIS_ADDR=redis:6379"; str "HOME=/"] resp_yaml_deps Hf)
    as (plan & Hrun & Happ); [discriminate|exact (bool_decide_unpack (nul_byte ∉ proxy_addr) I)|].
  exists plan. split; [exact Hrun|].
  assert (rp_deps plan = map dependency (redis_calls users_collected)) as Hd.
  { pose proof Hrun as Hr.
    assert (match @runCmd unit no_json resp_yaml (str "t.yaml") [str "./go-http-app"] (Ok proxy_addr) None users_file.1 with
            | Ok plan => rp_deps plan = map dependency (redis_calls users_collected)
            | _ => False
            end) as Hc by run.
    by rewrite Hr in Hc. }
  destruct Happ as [_ Hcase]; [unfold sample_net; by rewrite decide_True, Hd by done|].
  cbv zeta. split; [|run].
  assert (match List.find (fun c => bool_decide (@text ascii_only (Command c) = str "set user:42 alice"))
                  (redis_calls users_collected) with
          | Some call => Reply call = RESPString (mkRESP tSimple (str "OK") [] false)
          | None => False
          end) as Hk by run.
  revert Hk Hcase. destruct (List.find _ _) as [call|]; [|intros []]. intros Hk Hc.
  apply (Hc (mkRESP tSimple (str "OK") [] false) _ (fun _ => str "+OK" ++ crlf)); [exact Hk|reflexivity..].
Defined.
